(* ===== verification/_CoqProject ===== *)
-Q . S2P
Prelude.v
CheckedMath.v
SizeClass.v
Memory.v
Layout.v
Chain.v
OsMemory.v
Slab.v
Arena.v
SlabSpec.v
LockedAllocator.v
Scripted.v
CoreProperties.v
FreeLists.v
LockedSpec.v
LockedResize.v
TrimLists.v
Trim.v
TrimLoop.v
LockedTrim.v
HeapSpec.v
HeapRefinement.v
LockedApi.v
LockedProperties.v
TransferList.v
ThreadCache.v
CachedState.v
Lifecycle.v
CachedAllocator.v
Pool.v
ThreadCacheSpec.v
Placement.v
PoolSteps.v
TransferSpec.v
LifecycleSpec.v
CacheAcquire.v
CachedSpec.v
TrimAccount.v
CachedFree.v
CachedResize.v
CachedTrim.v
CachedLifecycle.v
CachedApi.v
CachedProperties.v
ListProperties.v
TransferAtomic.v
AtomicSpec.v
AtomicProgress.v
AtomicProperties.v
AtomicEquivalence.v
WorkerJob.v
WorkerArguments.v
JobQueue.v
WorkerPool.v
PoolSpec.v
PoolRuns.v
PoolProgress.v
WorkerProperties.v
WorkerHarness.v
