(* ===== verification/Prelude.v ===== *)
(** * hplf: a verification library for the hplf allocator

    This library models the C sources of the hplf memory allocator and of its
    worker-pool example as executable Rocq definitions, and proves them correct. Paths
    below are relative to the repository; every modelled function keeps its C name.

    ** How code is modelled

    Machine integers are [Z] with their wrap-around written out ([wadd], [wsub],
    [wmul], [wnot] in this file, 64-bit, LP64). Stateful code is a program in the
    monad [prog] of this file: a function from a state to [Done], [Undefined]
    (undefined behaviour) or [Diverges] (a loop out of fuel, a mutex locked twice).
    [wp m Q s] is total correctness: [m] started in [s] is [Done] and satisfies [Q].
    So every theorem stated with [wp], or with [Done], excludes undefined behaviour
    and non-termination. Output pointers are [cell]s.

    Memory.v is the address space: mappings, typed objects (block prefixes, slab
    headers, cache descriptors) in one [gmap] by address, payload bytes beside it. An
    access outside a mapping or at the wrong type is [Undefined]. The calls into the
    system ([sysconf], [mmap], [munmap]; [pthread_mutex_lock], [pthread_once],
    [pthread_key_create], [pthread_setspecific]) are parameters, classes [Platform]
    and [Pthreads], with laws that state their documented behaviour; Scripted.v is an
    instance that computes, on which all witnesses run.

    Loops run on fuel. Loops over a linked list use [list_fuel], one more than the
    number of objects in memory: a chain has no repeated node, so it ends before that
    ([block_chain_fuel], [slab_chain_fuel] in Chain.v). The eviction loop of hplf_free
    has [EVICTION_FUEL], 16 classes plus 4, of which two rounds are used
    (CachedFree.v). Other loops are bounded by their index. Every theorem about a
    loop proves that it ends within its fuel.

    ** The parts

    Foundations. Prelude.v: integers, programs, [wp] and its rules and tactics.
    CheckedMath.v: src/checked_math.h. SizeClass.v: src/size_class.c. Memory.v,
    Chain.v: memory and linked lists. Layout.v: the layout computations of src/block.h
    and src/slab.h. OsMemory.v: src/os_memory.c with its fault injection. Slab.v:
    src/slab.c. Arena.v: the invariant of well-formed mappings, slabs and blocks, and
    the separation of payloads; SlabSpec.v: the contract of slab creation.
    CoreProperties.v holds the theorems of this group: exactness of the arithmetic and
    rounding, least class, layouts within bounds, fresh mappings, initialised slabs.

    The locked allocator, src/allocator.c without HPLF_VARIANT_CACHED_MUTEX.
    LockedAllocator.v: state and all public functions. FreeLists.v: free lists and slab
    registry as part of the invariant. LockedSpec.v, LockedResize.v, TrimLists.v,
    Trim.v, TrimLoop.v, LockedTrim.v: each function meets its contract.
    LockedProperties.v holds the theorems.

    The interface. HeapSpec.v is the abstract heap, a finite map from payload pointers
    to contents with the allowed transitions of each call of
    include/hplf/allocator.h, and the classes [Allocator] and [AllocatorLaws].
    HeapRefinement.v proves once, against the interface, that every run of a
    well-behaved client refines the abstract heap. LockedApi.v and CachedApi.v are the
    two instances; CachedApi.v is for any number of threads with interleaved calls and
    thread exits.

    The cached allocator, src/allocator.c with HPLF_VARIANT_CACHED_MUTEX.
    TransferList.v: src/transfer_list.h. ThreadCache.v: src/thread_cache.c.
    CachedState.v: the state and src/transfer_mutex.c. Lifecycle.v:
    src/thread_cache_lifecycle.c. CachedAllocator.v: the public functions, the trim and
    the test snapshot. Pool.v, Placement.v, PoolSteps.v: the invariant that every free
    block is in exactly one place, and how blocks move. ThreadCacheSpec.v,
    TransferSpec.v, LifecycleSpec.v, CachedSpec.v, CachedFree.v, CachedResize.v,
    CachedTrim.v, CachedLifecycle.v: the contracts. CacheAcquire.v: exactly when a
    thread gets a cache. TrimAccount.v: which lists and caches a trim changes.
    CachedProperties.v and ListProperties.v hold the theorems: refinement of one heap
    by all threads, accounting of every block, every API function on every branch and
    where it takes its blocks from, cache limits, order of eviction, acquisition, flush
    and exit of threads.

    Atomic transfers, src/transfer_atomic.c. TransferAtomic.v models a call as a state
    machine at the grain of single memory accesses; steps of any number of threads
    interleave and a weak compare-exchange may fail spuriously. AtomicSpec.v: the
    ownership invariant and every step. AtomicProgress.v: lock freedom.
    AtomicProperties.v holds the theorems: no undefined behaviour, no block lost or
    duplicated, each step an atomic hand-over of a whole list, publishes lock-free,
    calls that run alone bounded. AtomicEquivalence.v: the atomic and the mutex calls
    have the same effect. The library's allocator does not use this file yet; its tests
    do.

    The worker pool, src/examples/worker_pool.c. WorkerJob.v: hash, payload, checksum,
    validity. WorkerArguments.v: number and option parsers with the part of [strtoull]
    they use, statuses and exit codes. JobQueue.v: the ring buffer and its
    condition variables, refining a bounded first-in first-out list. WorkerPool.v: main
    and worker_main as a state machine whose scheduler and environment choose the
    order of steps and the outcome of every library call. PoolSpec.v, PoolRuns.v: the
    accounts of jobs, marks and checksums hold after every step, and the report
    follows. PoolProgress.v: with calls that succeed no wake-up is lost and the work
    left decreases. WorkerProperties.v holds the theorems. WorkerHarness.v: the storage
    and synchronisation objects main acquires and releases.

    ** What is not modelled

    In the cached variant a whole API call of a thread is one step: calls of different
    threads interleave, their critical sections do not. The atomic transfers assume
    sequentially consistent memory: acquire and release orders are not modelled, nor
    the tests' hooks, whose callbacks are test code, nor the lock-freedom query, an
    answer of the C library. In the worker pool a critical section, the processing of
    one owned job, and the creation or join of one thread are single steps; its
    allocator is the environment, which returns null or an unused address; unlocking a
    mutex that is held and destroying an unused mutex or condition do not fail; the texts
    of usage, error messages and report are left out. Benchmarks, the adapters
    (one-line forwarding functions), tests, scripts and build files are not modelled. *)

From stdpp Require Export prelude gmap list.
From Stdlib Require Export ZArith Lia.

#[global] Open Scope Z_scope.

(** ** Machine integers: [size_t] and [uint64_t] on an LP64 target *)

Declare Scope size_scope.
Delimit Scope size_scope with size.

Definition WORD : Z := 2 ^ 64.
Definition SIZE_MAX : Z := WORD - 1.
Definition PTRDIFF_MAX : Z := 2 ^ 63 - 1.

(** Unsigned arithmetic wraps modulo [2^64] in C. *)
Definition wadd (a b : Z) : Z := (a + b) mod WORD.
Definition wsub (a b : Z) : Z := (a - b) mod WORD.
Definition wmul (a b : Z) : Z := (a * b) mod WORD.
Definition wnot (a : Z) : Z := (Z.lnot a) mod WORD.

Notation "a '+w' b" := (wadd a b) (at level 50, left associativity) : size_scope.
Notation "a '-w' b" := (wsub a b) (at level 50, left associativity) : size_scope.
Notation "a '*w' b" := (wmul a b) (at level 40, left associativity) : size_scope.

(** The range of a [size_t]. *)
Definition is_size (a : Z) : Prop := 0 <= a <= SIZE_MAX.

(** ** Programs over an explicit state

    [Done a s] is a normal return; [Undefined] is undefined behaviour (a
    dereference of a null, dangling or mistyped pointer, an access outside a
    mapping, an out-of-range array index); [Diverges] is a loop or a lock
    acquisition that never completes. *)
Inductive outcome (S A : Type) : Type :=
| Done (a : A) (s : S)
| Undefined
| Diverges.
Arguments Done {S A} _ _.
Arguments Undefined {S A}.
Arguments Diverges {S A}.

Definition prog (S A : Type) : Type := S -> outcome S A.

#[global] Instance prog_ret S : MRet (prog S) := fun A a s => Done a s.
#[global] Instance prog_bind S : MBind (prog S) := fun A B f m s =>
  match m s with
  | Done a s' => f a s'
  | Undefined => Undefined
  | Diverges => Diverges
  end.

Definition get {S} : prog S S := fun s => Done s s.
Definition gets {S A} (f : S -> A) : prog S A := fun s => Done (f s) s.
Definition modify {S} (f : S -> S) : prog S unit := fun s => Done tt (f s).
Definition undefined {S A} : prog S A := fun _ => Undefined.
Definition diverges {S A} : prog S A := fun _ => Diverges.

(** [demand P] is a precondition of the C operation: undefined when it fails. *)
Definition demand {S} (P : Prop) `{!Decision P} : prog S unit :=
  fun s => if decide P then Done tt s else Undefined.

(** [known o] reads an optional value, absent meaning undefined behaviour. *)
Definition known {S A} (o : option A) : prog S A :=
  fun s => match o with Some a => Done a s | None => Undefined end.

(** Running a program on a part of a larger state. *)
Definition zoom {S T A} (view : S -> T) (put : T -> S -> S) (m : prog T A) : prog S A :=
  fun s => match m (view s) with
           | Done a t => Done a (put t s)
           | Undefined => Undefined
           | Diverges => Diverges
           end.

(** A loop: [inl] continues with a new loop state, [inr] leaves the loop. *)
Fixpoint iterate {S A B} (fuel : nat) (body : A -> prog S (A + B)) (a : A) : prog S B :=
  match fuel with
  | O => diverges
  | Datatypes.S fuel' =>
      r ← body a;
      match r with
      | inl a' => iterate fuel' body a'
      | inr b => mret b
      end
  end.

(** ** Output parameters

    [Null] is a null output pointer; [Cell v] is a pointer to an object whose
    contents are [v], indeterminate when [v] is [None]. *)
Inductive cell (A : Type) : Type :=
| Null
| Cell (v : option A).
Arguments Null {A}.
Arguments Cell {A} _.

(** A call that passes the address of an uninitialised local and tests the
    boolean result: [Some v] is success with [v] stored in the local. *)
Definition via {A} (f : cell A -> bool * cell A) : option A :=
  match f (Cell None) with
  | (true, Cell (Some v)) => Some v
  | _ => None
  end.

Definition viaM {S A} (f : cell A -> prog S (bool * cell A)) : prog S (option A) :=
  r ← f (Cell None);
  match r with
  | (true, Cell (Some v)) => mret (Some v)
  | (true, _) => undefined
  | (false, _) => mret None
  end.

(** ** Total correctness *)

Definition wp {S A} (m : prog S A) (Q : A -> S -> Prop) (s : S) : Prop :=
  match m s with
  | Done a s' => Q a s'
  | Undefined => False
  | Diverges => False
  end.

Section wp_rules.
Context {S A B : Type}.
Implicit Types (s : S).

Lemma wp_ret (a : A) (Q : A -> S -> Prop) s : Q a s -> wp (mret a) Q s.
Proof. done. Qed.

Lemma wp_bind (m : prog S A) (f : A -> prog S B) (Q : B -> S -> Prop) s :
  wp m (fun a => wp (f a) Q) s -> wp (m ≫= f) Q s.
Proof. unfold wp, mbind, prog_bind. by destruct (m s). Qed.

Lemma wp_mono (m : prog S A) (P Q : A -> S -> Prop) s :
  wp m P s -> (forall a s', P a s' -> Q a s') -> wp m Q s.
Proof. unfold wp. destruct (m s); naive_solver. Qed.

Lemma wp_gets (f : S -> A) (Q : A -> S -> Prop) s : Q (f s) s -> wp (gets f) Q s.
Proof. done. Qed.

Lemma wp_get (Q : S -> S -> Prop) s : Q s s -> wp get Q s.
Proof. done. Qed.

Lemma wp_modify (f : S -> S) (Q : unit -> S -> Prop) s : Q tt (f s) -> wp (modify f) Q s.
Proof. done. Qed.

Lemma wp_demand (P : Prop) `{!Decision P} (Q : unit -> S -> Prop) s :
  P -> Q tt s -> wp (demand P) Q s.
Proof. intros HP HQ. unfold wp, demand. by rewrite decide_True. Qed.

Lemma wp_known (o : option A) a (Q : A -> S -> Prop) s :
  o = Some a -> Q a s -> wp (known o) Q s.
Proof. by intros ->. Qed.

Lemma wp_done (m : prog S A) Q s a s' : wp m Q s -> m s = Done a s' -> Q a s'.
Proof. unfold wp. intros H E. by rewrite E in H. Qed.

Lemma wp_run (m : prog S A) Q s : wp m Q s -> exists a s', m s = Done a s' /\ Q a s'.
Proof. unfold wp. destruct (m s); naive_solver. Qed.

End wp_rules.

(** The loop rule: a body that decreases the measure [n] within the fuel
    terminates and establishes the loop's postcondition. *)
Lemma wp_iterate {S A B} (body : A -> prog S (A + B)) (I : nat -> A -> S -> Prop)
    (Q : B -> S -> Prop) fuel :
  (forall n a s, I n a s ->
     wp (body a) (fun r s' => match r with
                              | inl a' => exists n', (n' < n)%nat /\ I n' a' s'
                              | inr b => Q b s'
                              end) s) ->
  forall n a s, (n < fuel)%nat -> I n a s -> wp (iterate fuel body a) Q s.
Proof.
  intros Hbody. induction fuel as [|fuel IH]; intros n a s Hn HI; [lia|].
  simpl. apply wp_bind. eapply wp_mono; [by apply Hbody|].
  intros [a'|b] s'; [|done]. intros (n' & ? & ?). apply (IH n'); [lia|done].
Qed.

Lemma wp_zoom {S T A} (view : S -> T) (put : T -> S -> S) (m : prog T A) Q (s : S) :
  wp m (fun a t => Q a (put t s)) (view s) -> wp (zoom view put m) Q s.
Proof. unfold wp, zoom. by destruct (m (view s)). Qed.

Lemma wp_viaM {S A} (f : cell A -> prog S (bool * cell A)) (Q : option A -> S -> Prop) s :
  wp (f (Cell None)) (fun r s' => match r with
    | (true, Cell (Some v)) => Q (Some v) s'
    | (true, _) => False
    | (false, _) => Q None s'
    end) s ->
  wp (viaM f) Q s.
Proof.
  intros H. apply wp_bind. eapply wp_mono; [exact H|].
  intros [[] [|[]]] s'; naive_solver.
Qed.

(** ** Automation *)

Create HintDb hplf.

Ltac wp_step :=
  lazymatch goal with
  | |- wp (mret _) _ _ => apply wp_ret
  | |- wp (mbind _ _) _ _ => apply wp_bind
  | |- wp (gets _) _ _ => apply wp_gets
  | |- wp get _ _ => apply wp_get
  | |- wp (modify _) _ _ => apply wp_modify
  | |- wp (zoom _ _ _) _ _ => apply wp_zoom
  | |- wp (viaM _) _ _ => apply wp_viaM
  | |- wp (demand _) _ _ => apply wp_demand
  end; cbn beta iota zeta.
Ltac wp_steps := repeat wp_step.

(** Case analysis on the boolean comparisons of the source. *)
Ltac case_bool :=
  match goal with
  | |- context [?a <? ?b] => destruct (Z.ltb_spec a b)
  | |- context [?a <=? ?b] => destruct (Z.leb_spec a b)
  | |- context [?a =? ?b] => destruct (Z.eqb_spec a b)
  end.

(** One step of an option-monad chain whose head has been evaluated. *)
Ltac option_step :=
  lazymatch goal with
  | |- context [@mbind option ?i ?A ?B ?f (Some ?x)] =>
      change (@mbind option i A B f (Some x)) with (f x); cbn beta
  | |- context [@mbind option ?i ?A ?B ?f None] =>
      change (@mbind option i A B f None) with (@None B)
  end.

(** ** Shared arithmetic *)

Lemma WORD_pos : 0 < WORD.
Proof. reflexivity. Qed.

Lemma wadd_small a b : 0 <= a -> 0 <= b -> a + b <= SIZE_MAX -> wadd a b = a + b.
Proof. unfold SIZE_MAX. intros. apply Z.mod_small. lia. Qed.

Lemma wsub_small a b : 0 <= b <= a -> a <= SIZE_MAX -> wsub a b = a - b.
Proof. unfold SIZE_MAX. intros. apply Z.mod_small. lia. Qed.

Lemma wmul_small a b : 0 <= a -> 0 <= b -> a * b <= SIZE_MAX -> wmul a b = a * b.
Proof. unfold SIZE_MAX. intros. apply Z.mod_small. nia. Qed.

Lemma wadd_range a b : is_size (wadd a b).
Proof. unfold is_size, SIZE_MAX, wadd. pose proof (Z.mod_pos_bound (a + b) WORD WORD_pos). lia. Qed.

Lemma wsub_range a b : is_size (wsub a b).
Proof. unfold is_size, SIZE_MAX, wsub. pose proof (Z.mod_pos_bound (a - b) WORD WORD_pos). lia. Qed.

(** [a & (a - 1) = 0] recognises the powers of two. *)
Lemma land_pred_pow2 a : 0 < a -> Z.land a (a - 1) = 0 -> a = 2 ^ Z.log2 a.
Proof.
  intros Ha Hl. destruct (Z.log2_spec a Ha) as [Hlo Hhi].
  destruct (Z.eq_dec a (2 ^ Z.log2 a)) as [|Hne]; [done|exfalso].
  assert (Hb : Z.testbit (Z.land a (a - 1)) (Z.log2 a) = true).
  { assert (Hp : Z.log2 (a - 1) = Z.log2 a).
    { apply Z.log2_unique; [apply Z.log2_nonneg|lia]. }
    rewrite Z.land_spec, Z.bit_log2 by done. rewrite <- Hp.
    pose proof (Z.pow_pos_nonneg 2 (Z.log2 a) ltac:(lia) (Z.log2_nonneg a)).
    by rewrite Z.bit_log2 by lia. }
  by rewrite Hl, Z.bits_0 in Hb.
Qed.

Lemma pow2_land_pred k : 0 <= k -> Z.land (2 ^ k) (2 ^ k - 1) = 0.
Proof.
  intros Hk. replace (2 ^ k - 1) with (Z.ones k) by (rewrite Z.ones_equiv; lia).
  rewrite Z.land_ones by done. apply Z.mod_same. lia.
Qed.

(** Clearing the low bits with [x & ~(2^k - 1)] rounds down to a multiple. *)
Lemma land_wnot_ones x k :
  0 <= k < 64 -> 0 <= x < WORD -> Z.land x (wnot (2 ^ k - 1)) = x - x mod 2 ^ k.
Proof.
  intros Hk Hx. unfold wnot.
  replace (2 ^ k - 1) with (Z.ones k) by (rewrite Z.ones_equiv; lia).
  change WORD with (2 ^ 64). rewrite <- Z.land_ones by lia.
  rewrite (Z.land_comm (Z.lnot _)), Z.land_assoc, Z.land_ones by lia.
  rewrite (Z.mod_small x) by (change WORD with (2 ^ 64) in Hx; lia).
  rewrite <- Z.ldiff_land, Z.ldiff_ones_r, Z.shiftl_mul_pow2, Z.shiftr_div_pow2 by lia.
  pose proof (Z.div_mod x (2 ^ k)). lia.
Qed.

#[global] Arguments wadd : simpl never.
#[global] Arguments wsub : simpl never.
#[global] Arguments wmul : simpl never.
#[global] Arguments wnot : simpl never.

(** Rounding up to a multiple, the mathematical specification of both rounding
    helpers: the least multiple of [m] that is at least [v]. *)
Definition round_up (v m : Z) : Z := (v + m - 1) / m * m.

#[global] Arguments round_up : simpl never.

Lemma round_up_ge v m : 0 < m -> v <= round_up v m < v + m.
Proof. unfold round_up. intros Hm. pose proof (Z.div_mod (v + m - 1) m). pose proof (Z.mod_pos_bound (v + m - 1) m Hm). lia. Qed.

Lemma round_up_divide v m : (m | round_up v m).
Proof. by exists ((v + m - 1) / m). Qed.

Lemma round_up_least v m w : 0 < m -> (m | w) -> v <= w -> round_up v m <= w.
Proof. unfold round_up. intros Hm [k ->] Hle. apply Z.mul_le_mono_nonneg_r; [lia|]. assert ((v + m - 1) / m < k + 1); [|lia]. apply Z.div_lt_upper_bound; lia. Qed.

Lemma round_up_id v m : 0 < m -> (m | v) -> round_up v m = v.
Proof. intros Hm Hd. pose proof (round_up_ge v m Hm). pose proof (round_up_least v m v Hm Hd). lia. Qed.

Lemma round_up_unique v m w : 0 < m -> (m | w) -> v <= w < v + m -> round_up v m = w.
Proof.
  intros Hm Hd Hw. pose proof (round_up_ge v m Hm). pose proof (round_up_least v m w Hm Hd).
  destruct (round_up_divide v m) as [x Hx], Hd as [y ->]. rewrite Hx in *.
  assert (x = y) as -> by nia. done.
Qed.

Lemma round_up_nonneg v m : 0 <= v -> 0 < m -> 0 <= round_up v m.
Proof. intros. pose proof (round_up_ge v m). lia. Qed.

Lemma rem_round_up v m : 0 < m -> v mod m <> 0 -> v + (m - v mod m) = round_up v m.
Proof.
  intros Hm Hr. symmetry. apply round_up_unique; [done| |].
  - exists (v / m + 1). pose proof (Z.div_mod v m). lia.
  - pose proof (Z.mod_pos_bound v m Hm). lia.
Qed.

Lemma mask_round_up v m : 0 < m -> v + (m - 1) - (v + (m - 1)) mod m = round_up v m.
Proof.
  intros Hm. symmetry. apply round_up_unique; [done| |].
  - exists ((v + (m - 1)) / m). pose proof (Z.div_mod (v + (m - 1)) m). lia.
  - pose proof (Z.mod_pos_bound (v + (m - 1)) m Hm). lia.
Qed.

#[export] Hint Resolve wadd_range wsub_range round_up_divide round_up_nonneg : hplf.
