(* ===== verification/CheckedMath.v ===== *)
(** * Overflow-checked [size_t] arithmetic (src/checked_math.h)

    The four helpers of [checked_math.h] with their output pointers, and their
    exact functional specifications: the mathematical result when it is
    representable, failure with the output untouched otherwise. *)

From S2P Require Import Prelude.

#[local] Open Scope size_scope.

Definition hplf_size_add (left right : Z) (result : cell Z) : bool * cell Z :=
  match result with
  | Null => (false, result)
  | Cell _ =>
      if SIZE_MAX -w left <? right then (false, result)
      else (true, Cell (Some (left +w right)))
  end.

Definition hplf_size_multiply (left right : Z) (result : cell Z) : bool * cell Z :=
  match result with
  | Null => (false, result)
  | Cell _ =>
      if negb (left =? 0) && (SIZE_MAX / left <? right) then (false, result)
      else (true, Cell (Some (left *w right)))
  end.

Definition hplf_size_align_up_pow2 (value alignment : Z) (result : cell Z) : bool * cell Z :=
  match result with
  | Null => (false, result)
  | Cell _ =>
      if (alignment =? 0) || negb (Z.land alignment (alignment -w 1) =? 0) then (false, result)
      else
        let mask := alignment -w 1 in
        if SIZE_MAX -w mask <? value then (false, result)
        else (true, Cell (Some (Z.land (value +w mask) (wnot mask))))
  end.

Definition hplf_size_round_up_multiple (value multiple : Z) (result : cell Z) : bool * cell Z :=
  match result with
  | Null => (false, result)
  | Cell _ =>
      if multiple =? 0 then (false, result)
      else
        let remainder := value mod multiple in
        if remainder =? 0 then (true, Cell (Some value))
        else
          let increment := multiple -w remainder in
          hplf_size_add value increment result
  end.

(** ** Exact specifications *)

(** The outcome of a checked operation whose mathematical result is [r]. *)
Definition checked (r : Z) (result : cell Z) : bool * cell Z :=
  if r <=? SIZE_MAX then (true, Cell (Some r)) else (false, result).

Section specs.
Implicit Types (old : option Z).

Lemma hplf_size_add_spec left right old :
  is_size left -> is_size right ->
  hplf_size_add left right (Cell old) = checked (left + right) (Cell old).
Proof.
  unfold is_size, hplf_size_add, checked. intros ? ?.
  rewrite wsub_small by lia. repeat case_bool; try lia; try done.
  by rewrite wadd_small by lia.
Qed.

Lemma hplf_size_multiply_spec left right old :
  is_size left -> is_size right ->
  hplf_size_multiply left right (Cell old) = checked (left * right) (Cell old).
Proof.
  unfold is_size, hplf_size_multiply, checked. intros ? ?.
  destruct (Z.eqb_spec left 0) as [->|Hne]; simpl.
  { by rewrite wmul_small by lia. }
  assert (Hdiv : SIZE_MAX / left < right <-> SIZE_MAX < left * right).
  { pose proof (Z.div_mod SIZE_MAX left). pose proof (Z.mod_pos_bound SIZE_MAX left).
    split; [nia|]. intros. apply Z.div_lt_upper_bound; lia. }
  repeat case_bool; try lia; try done. by rewrite wmul_small by nia.
Qed.

(** [value + mask] is what must be representable, so the result is exact. *)
Lemma hplf_size_align_up_pow2_spec value k old :
  0 <= k < 64 -> is_size value ->
  hplf_size_align_up_pow2 value (2 ^ k) (Cell old) =
  if value + (2 ^ k - 1) <=? SIZE_MAX then (true, Cell (Some (round_up value (2 ^ k))))
  else (false, Cell old).
Proof.
  intros Hk [? ?].
  assert (0 < 2 ^ k) by (apply Z.pow_pos_nonneg; lia).
  assert (2 ^ k < WORD) by (apply Z.pow_lt_mono_r; lia).
  unfold hplf_size_align_up_pow2.
  rewrite (wsub_small (2 ^ k)), pow2_land_pred by (unfold SIZE_MAX; lia). simpl.
  rewrite wsub_small by (unfold SIZE_MAX; lia).
  destruct (Z.eqb_spec (2 ^ k) 0); [lia|]. simpl.
  repeat case_bool; try lia; try done.
  rewrite wadd_small, land_wnot_ones by (unfold SIZE_MAX in *; lia).
  by rewrite mask_round_up by lia.
Qed.

(** The rejected alignments are exactly zero and the non-powers of two. *)
Lemma hplf_size_align_up_pow2_rejects value alignment old :
  is_size alignment -> (forall k, 0 <= k -> alignment <> 2 ^ k) ->
  hplf_size_align_up_pow2 value alignment (Cell old) = (false, Cell old).
Proof.
  unfold is_size, hplf_size_align_up_pow2. intros ? Hpow.
  destruct (Z.eqb_spec alignment 0); [done|]. simpl. rewrite wsub_small by lia.
  destruct (Z.eqb_spec (Z.land alignment (alignment - 1)) 0); [|done]. exfalso.
  apply (Hpow (Z.log2 alignment)); [apply Z.log2_nonneg|]. apply land_pred_pow2; lia.
Qed.

Lemma hplf_size_round_up_multiple_spec value multiple old :
  is_size value -> 0 < multiple <= SIZE_MAX ->
  hplf_size_round_up_multiple value multiple (Cell old) =
  checked (round_up value multiple) (Cell old).
Proof.
  unfold is_size, hplf_size_round_up_multiple. intros ? ?.
  pose proof (Z.mod_pos_bound value multiple ltac:(lia)).
  destruct (Z.eqb_spec multiple 0); [lia|].
  destruct (Z.eqb_spec (value mod multiple) 0) as [Hr|Hr].
  - rewrite round_up_id by (apply Z.mod_divide in Hr; lia || done).
    unfold checked. case_bool; [done|lia].
  - rewrite wsub_small, hplf_size_add_spec by (unfold is_size; lia).
    by rewrite rem_round_up by lia.
Qed.

Lemma hplf_size_round_up_multiple_zero value old :
  hplf_size_round_up_multiple value 0 (Cell old) = (false, Cell old).
Proof. done. Qed.
End specs.

(** The same facts for the callers, which pass a fresh local. *)
Lemma via_checked r (f : cell Z -> bool * cell Z) :
  f (Cell None) = checked r (Cell None) ->
  via f = if r <=? SIZE_MAX then Some r else None.
Proof. unfold via, checked. intros ->. by case_bool. Qed.

Lemma via_size_add left right :
  is_size left -> is_size right ->
  via (hplf_size_add left right) = if left + right <=? SIZE_MAX then Some (left + right) else None.
Proof. intros. by apply via_checked, hplf_size_add_spec. Qed.

Lemma via_size_multiply left right :
  is_size left -> is_size right ->
  via (hplf_size_multiply left right) = if left * right <=? SIZE_MAX then Some (left * right) else None.
Proof. intros. by apply via_checked, hplf_size_multiply_spec. Qed.

Lemma via_round_up value multiple :
  is_size value -> 0 < multiple <= SIZE_MAX ->
  via (hplf_size_round_up_multiple value multiple) =
  if round_up value multiple <=? SIZE_MAX then Some (round_up value multiple) else None.
Proof. intros. by apply via_checked, hplf_size_round_up_multiple_spec. Qed.

Lemma via_align_up value k :
  0 <= k < 64 -> is_size value ->
  via (hplf_size_align_up_pow2 value (2 ^ k)) =
  if value + (2 ^ k - 1) <=? SIZE_MAX then Some (round_up value (2 ^ k)) else None.
Proof. intros. unfold via. rewrite hplf_size_align_up_pow2_spec by done. by case_bool. Qed.

(** A failed call never writes its output, whatever the operands. *)
Definition writes_only_on_success {A} (f : cell A -> bool * cell A) : Prop :=
  forall out, match f out with
              | (true, out') => exists v, out <> Null /\ out' = Cell (Some v)
              | (false, out') => out' = out
              end.

Lemma hplf_size_add_guarded l r : writes_only_on_success (hplf_size_add l r).
Proof. intros [|old]; simpl; [done|]. case_bool; naive_solver. Qed.

Lemma hplf_size_multiply_guarded l r : writes_only_on_success (hplf_size_multiply l r).
Proof. intros [|old]; simpl; [done|]. destruct (_ && _); naive_solver. Qed.

Lemma hplf_size_align_up_pow2_guarded v a : writes_only_on_success (hplf_size_align_up_pow2 v a).
Proof. intros [|old]; simpl; [done|]. repeat case_match; naive_solver. Qed.

Lemma hplf_size_round_up_multiple_guarded v m :
  writes_only_on_success (hplf_size_round_up_multiple v m).
Proof.
  intros [|old]; simpl; [done|]. destruct (m =? 0); [done|]. destruct (_ =? 0); [naive_solver|].
  apply (hplf_size_add_guarded v _ (Cell old)).
Qed.

#[export] Hint Resolve hplf_size_add_guarded hplf_size_multiply_guarded
  hplf_size_align_up_pow2_guarded hplf_size_round_up_multiple_guarded : hplf.
