(* ===== verification/SizeClass.v ===== *)
(** * Small-object size classes (src/size_class.h, src/size_class.c)

    The capacity table, the linear search that picks a class and the capacity
    lookup, with the specification of the search as the least class that holds
    the size. *)

From S2P Require Import Prelude CheckedMath.

Definition HPLF_SIZE_CLASS_COUNT : Z := 16.
Definition HPLF_MAX_SMALL_SIZE : Z := 4096.

Definition size_class_capacities : list Z :=
  [16; 32; 48; 64; 96; 128; 192; 256;
   384; 512; 768; 1024; 1536; 2048; 3072; 4096].

(** The search loop from [index] on: [table] is the table from there. *)
Fixpoint size_class_search (table : list Z) (index size : Z) : option (Z * Z) :=
  match table with
  | [] => None
  | capacity :: table' =>
      if size <=? capacity then Some (index, capacity)
      else size_class_search table' (index + 1) size
  end.

Definition hplf_size_class_for (size : Z) (class_index class_capacity : cell Z)
    : bool * cell Z * cell Z :=
  match class_index, class_capacity with
  | Cell _, Cell _ =>
      if (size =? 0) || (HPLF_MAX_SMALL_SIZE <? size) then (false, class_index, class_capacity)
      else
        match size_class_search size_class_capacities 0 size with
        | Some (index, capacity) => (true, Cell (Some index), Cell (Some capacity))
        | None => (false, class_index, class_capacity)
        end
  | _, _ => (false, class_index, class_capacity)
  end.

Definition hplf_size_class_capacity (class_index : Z) (class_capacity : cell Z) : bool * cell Z :=
  match class_capacity with
  | Null => (false, class_capacity)
  | Cell _ =>
      if HPLF_SIZE_CLASS_COUNT <=? class_index then (false, class_capacity)
      else
        match size_class_capacities !! Z.to_nat class_index with
        | Some capacity => (true, Cell (Some capacity))
        | None => (false, class_capacity)
        end
  end.

(** Calls with fresh locals for both outputs. *)
Definition class_for (size : Z) : option (Z * Z) :=
  match hplf_size_class_for size (Cell None) (Cell None) with
  | (true, Cell (Some index), Cell (Some capacity)) => Some (index, capacity)
  | _ => None
  end.

(** ** Specification *)

Definition is_class (index capacity : Z) : Prop :=
  0 <= index < HPLF_SIZE_CLASS_COUNT /\
  size_class_capacities !! Z.to_nat index = Some capacity.

(** Case analysis over the sixteen rows of the table. *)
Lemma is_class_ind (P : Z -> Z -> Prop) :
  Forall (fun '(i, c) => P i c) (zip (seqZ 0 16) size_class_capacities) ->
  forall index capacity, is_class index capacity -> P index capacity.
Proof.
  intros HP index capacity [Hi Hc].
  apply (Forall_lookup_1 _ _ (Z.to_nat index) (index, capacity) HP).
  apply lookup_zip_Some. split; [|done].
  apply lookup_seqZ. unfold HPLF_SIZE_CLASS_COUNT in Hi. lia.
Qed.

Ltac by_class := apply is_class_ind; repeat constructor; intros; simpl in *; try done; try lia.

Lemma is_class_capacity_bounds index capacity :
  is_class index capacity -> 16 <= capacity <= HPLF_MAX_SMALL_SIZE /\ (16 | capacity).
Proof.
  revert index capacity. apply is_class_ind.
  repeat (constructor; [split; [unfold HPLF_MAX_SMALL_SIZE; lia|by apply Z.mod_divide]|]). constructor.
Qed.

Lemma is_class_index index capacity : is_class index capacity -> 0 <= index < HPLF_SIZE_CLASS_COUNT.
Proof. by intros [? _]. Qed.

Lemma is_class_lookup index : 0 <= index < HPLF_SIZE_CLASS_COUNT -> exists capacity, is_class index capacity.
Proof.
  intros Hi. destruct (lookup_lt_is_Some_2 size_class_capacities (Z.to_nat index)) as [c Hc].
  { simpl. unfold HPLF_SIZE_CLASS_COUNT in Hi. lia. }
  by exists c.
Qed.

(** Different classes have different capacities. *)
Lemma is_class_capacity_inj i j capacity : is_class i capacity -> is_class j capacity -> i = j.
Proof.
  intros Hi. revert i capacity Hi j. apply (is_class_ind (fun i c => forall j, is_class j c -> i = j)).
  assert (Hin : forall i c, is_class i c -> (i, c) ∈ zip (seqZ 0 16) size_class_capacities).
  { apply is_class_ind. apply Forall_forall. by intros [i c] ?. }
  repeat (constructor; [intros j Hj; apply Hin in Hj; vm_compute in Hj;
    repeat (apply elem_of_cons in Hj as [Hj|Hj]; [by inversion Hj|]); by apply not_elem_of_nil in Hj|]). constructor.
Qed.

Lemma is_class_functional index c1 c2 : is_class index c1 -> is_class index c2 -> c1 = c2.
Proof. intros [_ H1] [_ H2]. congruence. Qed.

Lemma size_class_search_spec table index size i c :
  size_class_search table index size = Some (i, c) ->
  exists n, i = index + Z.of_nat n /\ table !! n = Some c /\ size <= c /\
            forall m c', (m < n)%nat -> table !! m = Some c' -> c' < size.
Proof.
  revert index. induction table as [|t table IH]; intros index; simpl; [done|].
  case_bool; intros H0.
  - simplify_eq. exists 0%nat. repeat split; [lia|done|]. lia.
  - apply IH in H0 as (n & -> & ? & ? & Hlt). exists (Datatypes.S n).
    repeat split; [lia|done|done|]. intros [|m] c' ? Hm; simpl in Hm; [simplify_eq; lia|].
    apply (Hlt m); [lia|done].
Qed.

Lemma size_class_search_None table index size :
  size_class_search table index size = None -> Forall (fun c => c < size) table.
Proof.
  revert index. induction table as [|t table IH]; intros index; simpl; [done|].
  case_bool; [done|]. intros. constructor; [lia|by eapply IH].
Qed.

Lemma class_for_small size :
  1 <= size <= HPLF_MAX_SMALL_SIZE ->
  exists index capacity,
    class_for size = Some (index, capacity) /\ is_class index capacity /\ size <= capacity /\
    forall i c, is_class i c -> size <= c -> index <= i.
Proof.
  intros Hs. unfold class_for, hplf_size_class_for.
  destruct (Z.eqb_spec size 0) as [|_]; [lia|].
  destruct (Z.ltb_spec HPLF_MAX_SMALL_SIZE size) as [|_]; [lia|]. simpl orb.
  destruct (size_class_search _ _ _) as [[i c]|] eqn:E.
  - apply size_class_search_spec in E as (n & -> & Hn & Hc & Hleast).
    exists (0 + Z.of_nat n), c. split; [done|]. pose proof (lookup_lt_Some _ _ _ Hn) as Hlt. simpl in Hlt.
    split; [|split; [done|]].
    + split; [unfold HPLF_SIZE_CLASS_COUNT; lia|]. by replace (Z.to_nat (0 + Z.of_nat n)) with n by lia.
    + intros j c' [Hj Hc'] Hle. destruct (Z.lt_ge_cases j (0 + Z.of_nat n)) as [Hjn|]; [|done].
      pose proof (Hleast (Z.to_nat j) c' ltac:(lia) Hc'). lia.
  - apply size_class_search_None in E. rewrite Forall_forall in E.
    pose proof (E 4096 ltac:(by apply (list_elem_of_lookup_2 _ 15%nat))). unfold HPLF_MAX_SMALL_SIZE in *. lia.
Qed.

Lemma class_for_large size : is_size size -> (size = 0 \/ HPLF_MAX_SMALL_SIZE < size) -> class_for size = None.
Proof.
  intros [? ?] Hout. unfold class_for, hplf_size_class_for.
  destruct (Z.eqb_spec size 0); [done|]. by destruct (Z.ltb_spec HPLF_MAX_SMALL_SIZE size); [|lia].
Qed.

Lemma class_for_inv size index capacity :
  is_size size ->
  class_for size = Some (index, capacity) ->
  is_class index capacity /\ 1 <= size <= capacity.
Proof.
  intros [? ?] E. destruct (Z.le_gt_cases 1 size); [destruct (Z.le_gt_cases size HPLF_MAX_SMALL_SIZE)|].
  - destruct (class_for_small size ltac:(lia)) as (i & c & E' & ? & ? & _). simplify_eq. split; [done|lia].
  - rewrite class_for_large in E; [done|done|lia].
  - rewrite class_for_large in E; [done|done|lia].
Qed.

Lemma class_for_None size : is_size size -> class_for size = None -> size = 0 \/ HPLF_MAX_SMALL_SIZE < size.
Proof.
  intros [? ?] E. destruct (Z.eq_dec size 0); [by left|]. right.
  destruct (Z.le_gt_cases size HPLF_MAX_SMALL_SIZE); [|done].
  destruct (class_for_small size ltac:(lia)) as (? & ? & ? & _). congruence.
Qed.

Lemma via_size_class_capacity index capacity :
  is_class index capacity -> via (hplf_size_class_capacity index) = Some capacity.
Proof.
  intros [Hi Hc]. unfold via, hplf_size_class_capacity.
  destruct (Z.leb_spec HPLF_SIZE_CLASS_COUNT index); [lia|]. by rewrite Hc.
Qed.

Lemma via_size_class_capacity_None index :
  HPLF_SIZE_CLASS_COUNT <= index -> via (hplf_size_class_capacity index) = None.
Proof. intros. unfold via, hplf_size_class_capacity. by destruct (Z.leb_spec HPLF_SIZE_CLASS_COUNT index); [|lia]. Qed.

#[export] Hint Resolve is_class_index : hplf.
