(* ===== verification/Memory.v ===== *)
(** * Memory: mappings, typed objects and payload bytes

    The address space the allocator works in. Objects with a C struct type
    (block prefixes, slab headers, thread-cache descriptors) live in one typed
    heap indexed by address; the untyped payload bytes live beside it. An access
    is defined only inside a mapping, and byte accesses and object creations must
    not overlap another typed object, so a stray write is undefined behaviour of
    the model instead of silent corruption. Structs: src/block.h, src/slab.h,
    src/thread_cache.h, src/thread_cache_lifecycle.c. *)

From S2P Require Import Prelude SizeClass.

(** ** The C structs *)

Definition NULL : Z := 0.

Inductive hplf_block_kind := HPLF_BLOCK_SMALL | HPLF_BLOCK_LARGE.

#[export] Instance hplf_block_kind_eq_dec : EqDecision hplf_block_kind.
Proof. solve_decision. Defined.

(** The [owner] union of a block with the member that was last written. *)
Inductive block_owner :=
| owner_small (slab : Z)
| owner_large (base length : Z).

#[export] Instance block_owner_eq_dec : EqDecision block_owner.
Proof. solve_decision. Defined.

Record hplf_block := Block {
  owner : block_owner;
  next_free : Z;
  requested_size : Z;
  capacity : Z;
  kind : hplf_block_kind
}.

Record hplf_slab := Slab {
  slab_next : Z;
  mapping_base : Z;
  mapping_length : Z;
  first_slot_offset : Z;
  slot_stride : Z;
  slot_count : Z;
  class_capacity : Z;
  class_index : Z
}.

Record hplf_thread_cache := ThreadCache {
  cache_heads : list Z;
  cache_counts : list Z;
  total_slot_bytes : Z
}.

Record hplf_cache_descriptor := Descriptor {
  desc_cache : hplf_thread_cache;
  desc_mapping_base : Z;
  desc_mapping_length : Z
}.

(** Size of a C struct from the (size, alignment) of its members in order. *)
Definition struct_size (members : list (Z * Z)) : Z :=
  round_up (foldl (fun offset '(size, align) => round_up offset align + size) 0 members)
           (foldr (fun '(_, align) acc => Z.max align acc) 1 members).

Definition pointer_member : Z * Z := (8, 8).
Definition size_member : Z * Z := (8, 8).
Definition enum_member : Z * Z := (4, 4).

Definition sizeof_hplf_block : Z :=
  struct_size [(struct_size [pointer_member; size_member], 8); pointer_member;
               size_member; size_member; enum_member].
Definition sizeof_hplf_slab : Z :=
  struct_size [pointer_member; pointer_member; size_member; size_member; size_member;
               size_member; size_member; size_member].
Definition sizeof_hplf_thread_cache : Z :=
  struct_size [(8 * HPLF_SIZE_CLASS_COUNT, 8); (8 * HPLF_SIZE_CLASS_COUNT, 8); size_member].
Definition sizeof_hplf_cache_descriptor : Z :=
  struct_size [(sizeof_hplf_thread_cache, 8); pointer_member; size_member].

(** Every struct above has the alignment of its pointer members. *)
Definition alignof_object : Z := 8.

(** ** The address space *)

Inductive object :=
| OBlock (b : hplf_block)
| OSlab (s : hplf_slab)
| ODescriptor (d : hplf_cache_descriptor).

Definition sizeof (o : object) : Z :=
  match o with
  | OBlock _ => sizeof_hplf_block
  | OSlab _ => sizeof_hplf_slab
  | ODescriptor _ => sizeof_hplf_cache_descriptor
  end.

Record memory := Memory {
  maps : gmap Z Z;          (* base of each mapping, to its length *)
  objs : gmap Z object;     (* typed objects by address *)
  bytes : gmap Z Z          (* payload bytes; absent is the zero of a fresh page *)
}.

Definition empty_memory : memory := Memory ∅ ∅ ∅.

Definition set_objs (f : gmap Z object -> gmap Z object) (m : memory) : memory :=
  Memory (maps m) (f (objs m)) (bytes m).
Definition set_bytes (f : gmap Z Z -> gmap Z Z) (m : memory) : memory :=
  Memory (maps m) (objs m) (f (bytes m)).

(** [a .. a + n) lies in one mapping. *)
Definition mapped (m : memory) (a n : Z) : Prop :=
  map_Exists (fun base length => base <= a /\ a + n <= base + length) (maps m).

(** No typed object of [os] overlaps [a .. a + n). *)
Definition object_free (os : gmap Z object) (a n : Z) : Prop :=
  map_Forall (fun k o => k + sizeof o <= a \/ a + n <= k) os.

#[export] Instance mapped_dec m a n : Decision (mapped m a n).
Proof. unfold mapped. apply _. Defined.
#[export] Instance object_free_dec os a n : Decision (object_free os a n).
Proof. unfold object_free. apply _. Defined.

(** ** Typed accesses *)

Definition block_at (os : gmap Z object) (p : Z) : option hplf_block :=
  match os !! p with Some (OBlock b) => Some b | _ => None end.
Definition slab_at (os : gmap Z object) (p : Z) : option hplf_slab :=
  match os !! p with Some (OSlab s) => Some s | _ => None end.
Definition descriptor_at (os : gmap Z object) (p : Z) : option hplf_cache_descriptor :=
  match os !! p with Some (ODescriptor d) => Some d | _ => None end.

Definition load_block (p : Z) : prog memory hplf_block :=
  m ← get; known (block_at (objs m) p).
Definition load_slab (p : Z) : prog memory hplf_slab :=
  m ← get; known (slab_at (objs m) p).
Definition load_descriptor (p : Z) : prog memory hplf_cache_descriptor :=
  m ← get; known (descriptor_at (objs m) p).

(** A write of one field of an existing object. *)
Definition store_block (p : Z) (f : hplf_block -> hplf_block) : prog memory unit :=
  b ← load_block p; modify (set_objs <[p := OBlock (f b)]>).
Definition store_slab (p : Z) (f : hplf_slab -> hplf_slab) : prog memory unit :=
  s ← load_slab p; modify (set_objs <[p := OSlab (f s)]>).
Definition store_descriptor (p : Z) (f : hplf_cache_descriptor -> hplf_cache_descriptor)
    : prog memory unit :=
  d ← load_descriptor p; modify (set_objs <[p := ODescriptor (f d)]>).

(** [*p = (struct ...){...}] on raw mapped storage. *)
Definition create_object (p : Z) (o : object) : prog memory unit :=
  m ← get;
  demand (p mod alignof_object = 0);;
  demand (mapped m p (sizeof o));;
  demand (object_free (delete p (objs m)) p (sizeof o));;
  modify (set_objs <[p := o]>).

(** Reading [block->owner.small.slab] and the members of [owner.large]. *)
Definition owner_small_slab (b : hplf_block) : option Z :=
  match owner b with owner_small slab => Some slab | owner_large _ _ => None end.
Definition owner_large_mapping (b : hplf_block) : option (Z * Z) :=
  match owner b with owner_small _ => None | owner_large base length => Some (base, length) end.

Definition set_next_free (p : Z) (b : hplf_block) : hplf_block :=
  Block (owner b) p (requested_size b) (capacity b) (kind b).
Definition set_requested_size (n : Z) (b : hplf_block) : hplf_block :=
  Block (owner b) (next_free b) n (capacity b) (kind b).
Definition set_slab_next (p : Z) (s : hplf_slab) : hplf_slab :=
  Slab p (mapping_base s) (mapping_length s) (first_slot_offset s) (slot_stride s)
       (slot_count s) (class_capacity s) (class_index s).

(** ** Untyped bytes: [memset] and [memcpy] of the C library *)

Definition byte_at (m : memory) (a : Z) : Z := default 0 (bytes m !! a).
Definition read_bytes (m : memory) (a n : Z) : list Z := (fun i => byte_at m (a + i)) <$> seqZ 0 n.

Fixpoint put_bytes (a : Z) (l : list Z) (bs : gmap Z Z) : gmap Z Z :=
  match l with
  | [] => bs
  | v :: l' => put_bytes (a + 1) l' (<[a := v]> bs)
  end.

Definition accessible (m : memory) (a n : Z) : Prop := mapped m a n /\ object_free (objs m) a n.

Definition store_bytes (a : Z) (l : list Z) : prog memory unit :=
  m ← get;
  demand (mapped m a (Z.of_nat (length l)));;
  demand (object_free (objs m) a (Z.of_nat (length l)));;
  modify (set_bytes (put_bytes a l)).

Definition load_bytes (a n : Z) : prog memory (list Z) :=
  m ← get;
  demand (mapped m a n);;
  demand (object_free (objs m) a n);;
  mret (read_bytes m a n).

Definition memset (a value n : Z) : prog memory unit :=
  store_bytes a (replicate (Z.to_nat n) (value mod 256)).

Definition memcpy (destination source n : Z) : prog memory unit :=
  demand (destination + n <= source \/ source + n <= destination);;
  l ← load_bytes source n;
  store_bytes destination l.

(** ** The effect of [mmap] and [munmap] on the address space *)

Definition inside (base length a : Z) : Prop := base <= a < base + length.
#[export] Instance inside_dec base length a : Decision (inside base length a).
Proof. unfold inside. apply _. Defined.

Definition map_region (base length : Z) (m : memory) : memory :=
  Memory (<[base := length]> (maps m)) (objs m)
         (filter (fun kv => ~ inside base length kv.1) (bytes m)).

Definition unmap_region (base length : Z) (m : memory) : memory :=
  Memory (delete base (maps m))
         (filter (fun kv => ~ inside base length kv.1) (objs m))
         (filter (fun kv => ~ inside base length kv.1) (bytes m)).

(** ** Lemmas *)

Lemma sizeof_values :
  sizeof_hplf_block = 48 /\ sizeof_hplf_slab = 64 /\ sizeof_hplf_cache_descriptor = 280.
Proof. repeat split. Qed.

Lemma sizeof_pos o : 0 < sizeof o.
Proof. by destruct o. Qed.

Lemma block_at_Some os p b : block_at os p = Some b <-> os !! p = Some (OBlock b).
Proof. unfold block_at. repeat case_match; naive_solver. Qed.
Lemma slab_at_Some os p s : slab_at os p = Some s <-> os !! p = Some (OSlab s).
Proof. unfold slab_at. repeat case_match; naive_solver. Qed.
Lemma descriptor_at_Some os p d : descriptor_at os p = Some d <-> os !! p = Some (ODescriptor d).
Proof. unfold descriptor_at. repeat case_match; naive_solver. Qed.

Lemma block_at_insert os p b k :
  block_at (<[p := OBlock b]> os) k = if decide (k = p) then Some b else block_at os k.
Proof. unfold block_at. rewrite lookup_insert. repeat case_decide; naive_solver. Qed.
Lemma slab_at_insert_block os p b k :
  k <> p -> slab_at (<[p := OBlock b]> os) k = slab_at os k.
Proof. intros. unfold slab_at. by rewrite lookup_insert_ne. Qed.

Section accesses.
Implicit Types (m : memory) (Q : unit -> memory -> Prop).

Lemma wp_load_block p b (Q : hplf_block -> memory -> Prop) m :
  block_at (objs m) p = Some b -> Q b m -> wp (load_block p) Q m.
Proof. intros. unfold load_block. wp_steps. by eapply wp_known. Qed.

Lemma wp_load_slab p s (Q : hplf_slab -> memory -> Prop) m :
  slab_at (objs m) p = Some s -> Q s m -> wp (load_slab p) Q m.
Proof. intros. unfold load_slab. wp_steps. by eapply wp_known. Qed.

Lemma wp_load_descriptor p d (Q : hplf_cache_descriptor -> memory -> Prop) m :
  descriptor_at (objs m) p = Some d -> Q d m -> wp (load_descriptor p) Q m.
Proof. intros. unfold load_descriptor. wp_steps. by eapply wp_known. Qed.

Lemma wp_store_block p b f Q m :
  block_at (objs m) p = Some b ->
  Q tt (set_objs <[p := OBlock (f b)]> m) -> wp (store_block p f) Q m.
Proof. intros. unfold store_block. wp_steps. by eapply wp_load_block. Qed.

Lemma wp_store_slab p s f Q m :
  slab_at (objs m) p = Some s ->
  Q tt (set_objs <[p := OSlab (f s)]> m) -> wp (store_slab p f) Q m.
Proof. intros. unfold store_slab. wp_steps. by eapply wp_load_slab. Qed.

Lemma wp_store_descriptor p d f Q m :
  descriptor_at (objs m) p = Some d ->
  Q tt (set_objs <[p := ODescriptor (f d)]> m) -> wp (store_descriptor p f) Q m.
Proof. intros. unfold store_descriptor. wp_steps. by eapply wp_load_descriptor. Qed.

Lemma wp_create_object p o Q m :
  p mod alignof_object = 0 -> mapped m p (sizeof o) ->
  object_free (delete p (objs m)) p (sizeof o) ->
  Q tt (set_objs <[p := o]> m) -> wp (create_object p o) Q m.
Proof. intros. unfold create_object. wp_steps; done. Qed.

Lemma wp_store_bytes a l Q m :
  accessible m a (Z.of_nat (length l)) ->
  Q tt (set_bytes (put_bytes a l) m) -> wp (store_bytes a l) Q m.
Proof. intros [? ?] ?. unfold store_bytes. wp_steps; done. Qed.

Lemma wp_load_bytes a n (Q : list Z -> memory -> Prop) m :
  accessible m a n -> Q (read_bytes m a n) m -> wp (load_bytes a n) Q m.
Proof. intros [? ?] ?. unfold load_bytes. wp_steps; done. Qed.
End accesses.

Lemma length_read_bytes m a n : 0 <= n -> Z.of_nat (length (read_bytes m a n)) = n.
Proof. intros. unfold read_bytes. rewrite length_fmap, length_seqZ. lia. Qed.

Lemma mapped_sub m a n a' n' : mapped m a n -> a <= a' -> a' + n' <= a + n -> mapped m a' n'.
Proof. intros (base & len & Hb & ?) ? ?. exists base, len. split; [done|lia]. Qed.

Lemma mapped_intro m base len a n :
  maps m !! base = Some len -> base <= a -> a + n <= base + len -> mapped m a n.
Proof. intros. by exists base, len. Qed.

Lemma object_free_sub os a n a' n' :
  object_free os a n -> a <= a' -> a' + n' <= a + n -> object_free os a' n'.
Proof. intros Hf ? ? k o Hk. specialize (Hf k o Hk). simpl in Hf. lia. Qed.

Lemma accessible_sub m a n a' n' :
  accessible m a n -> a <= a' -> a' + n' <= a + n -> accessible m a' n'.
Proof. intros [? ?] ? ?. split; [by eapply mapped_sub|by eapply object_free_sub]. Qed.

Lemma lookup_put_bytes a l bs k :
  put_bytes a l bs !! k =
  if decide (a <= k < a + Z.of_nat (length l)) then l !! Z.to_nat (k - a) else bs !! k.
Proof.
  revert a bs. induction l as [|v l IH]; intros a bs; simpl.
  { rewrite decide_False by lia. done. }
  rewrite IH. destruct (decide (k = a)) as [->|Hne].
  - rewrite decide_False by lia. rewrite decide_True by lia.
    rewrite lookup_insert_eq. by rewrite Z.sub_diag.
  - rewrite lookup_insert_ne by done. case_decide as H1; case_decide as H2; try lia; try done.
    replace (Z.to_nat (k - a)) with (Datatypes.S (Z.to_nat (k - (a + 1)))) by lia. done.
Qed.

Lemma byte_at_put m a l k :
  byte_at (set_bytes (put_bytes a l) m) k =
  if decide (a <= k < a + Z.of_nat (length l)) then default 0 (l !! Z.to_nat (k - a)) else byte_at m k.
Proof. unfold byte_at. simpl. rewrite lookup_put_bytes. by case_decide. Qed.

Lemma lookup_read_bytes m a n i : (i < Z.to_nat n)%nat -> read_bytes m a n !! i = Some (byte_at m (a + Z.of_nat i)).
Proof.
  intros. unfold read_bytes. rewrite list_lookup_fmap.
  rewrite (proj2 (lookup_seqZ 0 n i (Z.of_nat i))) by lia. done.
Qed.

Lemma byte_at_map_region base len m a :
  byte_at (map_region base len m) a = if decide (inside base len a) then 0 else byte_at m a.
Proof.
  unfold byte_at. simpl. rewrite map_lookup_filter. case_decide as Hi.
  - destruct (bytes m !! a); simpl; [|done]. by rewrite option_guard_False by (intros Hn; by apply Hn).
  - destruct (bytes m !! a); simpl; [|done]. by rewrite option_guard_True.
Qed.

Lemma byte_at_unmap_region base len m a :
  ~ inside base len a -> byte_at (unmap_region base len m) a = byte_at m a.
Proof.
  intros. unfold byte_at. simpl. rewrite map_lookup_filter.
  destruct (bytes m !! a); simpl; [|done]. by rewrite option_guard_True.
Qed.

Lemma objs_unmap_region base len m k :
  objs (unmap_region base len m) !! k = if decide (inside base len k) then None else objs m !! k.
Proof.
  simpl. rewrite map_lookup_filter. case_decide.
  - destruct (objs m !! k); simpl; [|done]. by rewrite option_guard_False by (intros Hn; by apply Hn).
  - destruct (objs m !! k); simpl; [|done]. by rewrite option_guard_True.
Qed.
