(* ===== verification/Layout.v ===== *)
(** * Block and slab layouts (src/block.h, src/slab.h)

    The prefix-to-payload distance, the layout of a large mapping and the layout
    of a slab of equal slots, computed with the checked arithmetic, and what a
    successful computation guarantees. *)

From S2P Require Import Prelude CheckedMath SizeClass Memory.

#[local] Open Scope size_scope.

(** [_Alignof(max_align_t)] on the LP64 target. *)
Definition HPLF_PAYLOAD_ALIGNMENT : Z := 16.

Definition hplf_block_payload_offset (payload_offset : cell Z) : bool * cell Z :=
  hplf_size_align_up_pow2 sizeof_hplf_block HPLF_PAYLOAD_ALIGNMENT payload_offset.

Definition hplf_block_payload (block : Z) : Z :=
  if block =? NULL then NULL
  else match via hplf_block_payload_offset with
       | Some payload_offset => block + payload_offset
       | None => NULL
       end.

Definition hplf_block_from_payload (payload : Z) : Z :=
  if payload =? NULL then NULL
  else match via hplf_block_payload_offset with
       | Some payload_offset => payload - payload_offset
       | None => NULL
       end.

Record hplf_large_layout := LargeLayout {
  large_payload_offset : Z;
  large_mapping_length : Z
}.

Definition hplf_large_layout_compute (requested_size page_size : Z)
    (layout : cell hplf_large_layout) : bool * cell hplf_large_layout :=
  match layout with
  | Null => (false, layout)
  | Cell _ =>
      if (requested_size =? 0) || (page_size =? 0) then (false, layout)
      else
        let computed :=
          payload_offset ← via hplf_block_payload_offset;
          bytes_before_rounding ← via (hplf_size_add payload_offset requested_size);
          mapping_length ← via (hplf_size_round_up_multiple bytes_before_rounding page_size);
          Some (LargeLayout payload_offset mapping_length) in
        match computed with
        | Some l => (true, Cell (Some l))
        | None => (false, layout)
        end
  end.

Definition HPLF_SLAB_TARGET_BYTES : Z := 64 * 1024.

Record hplf_slab_layout := SlabLayout {
  sl_mapping_length : Z;
  sl_first_slot_offset : Z;
  sl_payload_offset : Z;
  sl_slot_stride : Z;
  sl_slot_count : Z;
  sl_class_capacity : Z
}.

Definition hplf_slab_layout_compute (class_capacity page_size : Z)
    (layout : cell hplf_slab_layout) : bool * cell hplf_slab_layout :=
  match layout with
  | Null => (false, layout)
  | Cell _ =>
      if (class_capacity =? 0) || (page_size =? 0) then (false, layout)
      else
        let computed :=
          mapping_length ← via (hplf_size_round_up_multiple HPLF_SLAB_TARGET_BYTES page_size);
          first_slot_offset ← via (hplf_size_align_up_pow2 sizeof_hplf_slab HPLF_PAYLOAD_ALIGNMENT);
          payload_offset ← via hplf_block_payload_offset;
          slot_bytes ← via (hplf_size_add payload_offset class_capacity);
          slot_stride ← via (hplf_size_align_up_pow2 slot_bytes HPLF_PAYLOAD_ALIGNMENT);
          if mapping_length <=? first_slot_offset then None
          else
            let usable_bytes := mapping_length -w first_slot_offset in
            let slot_count := usable_bytes / slot_stride in
            if slot_count =? 0 then None
            else
              occupied_bytes ← via (hplf_size_multiply slot_count slot_stride);
              occupied_end ← via (hplf_size_add first_slot_offset occupied_bytes);
              if mapping_length <? occupied_end then None
              else Some (SlabLayout mapping_length first_slot_offset payload_offset
                                    slot_stride slot_count class_capacity) in
        match computed with
        | Some l => (true, Cell (Some l))
        | None => (false, layout)
        end
  end.

(** ** Lemmas *)

Definition PREFIX : Z := 48.

Lemma payload_offset_value : via hplf_block_payload_offset = Some PREFIX.
Proof. reflexivity. Qed.

Lemma hplf_block_payload_eq b : b <> NULL -> hplf_block_payload b = b + PREFIX.
Proof. unfold hplf_block_payload. destruct (Z.eqb_spec b NULL); [done|]. by rewrite payload_offset_value. Qed.

Lemma hplf_block_from_payload_eq p : p <> NULL -> hplf_block_from_payload p = p - PREFIX.
Proof. unfold hplf_block_from_payload. destruct (Z.eqb_spec p NULL); [done|]. by rewrite payload_offset_value. Qed.

Lemma block_payload_roundtrip b :
  0 < b -> hplf_block_payload b <> NULL /\ hplf_block_from_payload (hplf_block_payload b) = b.
Proof.
  intros. rewrite hplf_block_payload_eq by (unfold NULL; lia).
  rewrite hplf_block_from_payload_eq by (unfold PREFIX, NULL; lia). unfold PREFIX, NULL. lia.
Qed.

(** The explicit value of a large layout. *)
Lemma via_large_layout requested page :
  is_size requested -> 0 < page <= SIZE_MAX ->
  via (hplf_large_layout_compute requested page) =
  if (0 <? requested) && (round_up (PREFIX + requested) page <=? SIZE_MAX)
  then Some (LargeLayout PREFIX (round_up (PREFIX + requested) page)) else None.
Proof.
  intros [? ?] ?. unfold via, hplf_large_layout_compute.
  destruct (Z.eqb_spec requested 0) as [->|]; [done|].
  destruct (Z.eqb_spec page 0); [lia|]. simpl orb. cbn iota.
  destruct (Z.ltb_spec 0 requested); [|lia]. rewrite andb_true_l, payload_offset_value. option_step.
  pose proof (round_up_ge (PREFIX + requested) page ltac:(lia)).
  rewrite via_size_add by (unfold is_size, PREFIX, SIZE_MAX, WORD in *; lia).
  destruct (Z.leb_spec (PREFIX + requested) SIZE_MAX); option_step.
  - rewrite via_round_up by (unfold is_size, PREFIX in *; lia).
    by case_bool; option_step.
  - cbn iota. by case_bool; [lia|].
Qed.

(** What any successful slab layout guarantees, for every capacity and page size. *)
Record slab_layout_ok (capacity page : Z) (l : hplf_slab_layout) : Prop := {
  slo_pages : (page | sl_mapping_length l) /\ HPLF_SLAB_TARGET_BYTES <= sl_mapping_length l <= SIZE_MAX;
  slo_first : (HPLF_PAYLOAD_ALIGNMENT | sl_first_slot_offset l) /\ sl_first_slot_offset l = sizeof_hplf_slab;
  slo_prefix : sl_payload_offset l = PREFIX;
  slo_stride : (HPLF_PAYLOAD_ALIGNMENT | sl_slot_stride l) /\ PREFIX + capacity <= sl_slot_stride l;
  slo_count : 0 < sl_slot_count l;
  slo_end : sl_first_slot_offset l + sl_slot_count l * sl_slot_stride l <= sl_mapping_length l;
  slo_maximal : sl_mapping_length l < sl_first_slot_offset l + (sl_slot_count l + 1) * sl_slot_stride l;
  slo_capacity : sl_class_capacity l = capacity
}.

(** The closed form of the computation: the guards that can fail and the values. *)
Definition slab_mapping (page : Z) : Z := round_up HPLF_SLAB_TARGET_BYTES page.
Definition slab_stride (capacity : Z) : Z := round_up (PREFIX + capacity) HPLF_PAYLOAD_ALIGNMENT.
Definition slab_slots (capacity page : Z) : Z := (slab_mapping page - 64) / slab_stride capacity.

Lemma slab_mapping_ge page :
  0 < page -> HPLF_SLAB_TARGET_BYTES <= slab_mapping page < HPLF_SLAB_TARGET_BYTES + page.
Proof. apply round_up_ge. Qed.

Lemma slab_stride_ge capacity : PREFIX + capacity <= slab_stride capacity < PREFIX + capacity + 16.
Proof. by apply round_up_ge. Qed.

Lemma slab_slots_bounds capacity page :
  0 <= capacity -> 0 < page ->
  0 <= slab_slots capacity page /\ slab_slots capacity page * slab_stride capacity <= slab_mapping page - 64 <
    (slab_slots capacity page + 1) * slab_stride capacity.
Proof.
  intros. pose proof (slab_stride_ge capacity). pose proof (slab_mapping_ge page ltac:(lia)).
  unfold slab_slots, PREFIX, HPLF_SLAB_TARGET_BYTES in *.
  pose proof (Z.div_mod (slab_mapping page - 64) (slab_stride capacity) ltac:(lia)).
  pose proof (Z.mod_pos_bound (slab_mapping page - 64) (slab_stride capacity) ltac:(lia)).
  split; [apply Z.div_pos; lia|lia].
Qed.

Lemma slab_layout_compute_eval capacity page :
  0 < capacity <= SIZE_MAX -> 0 < page <= SIZE_MAX ->
  via (hplf_slab_layout_compute capacity page) =
  if bool_decide (slab_mapping page <= SIZE_MAX /\ PREFIX + capacity + 15 <= SIZE_MAX /\ 0 < slab_slots capacity page)
  then Some (SlabLayout (slab_mapping page) 64 PREFIX (slab_stride capacity)
                        (slab_slots capacity page) capacity)
  else None.
Proof.
  intros ? ?. unfold via, hplf_slab_layout_compute.
  destruct (Z.eqb_spec capacity 0); [lia|]. destruct (Z.eqb_spec page 0); [lia|]. simpl orb. cbn iota.
  pose proof (slab_mapping_ge page ltac:(lia)). pose proof (slab_stride_ge capacity).
  pose proof (slab_slots_bounds capacity page ltac:(lia) ltac:(lia)).
  rewrite via_round_up by (unfold is_size, HPLF_SLAB_TARGET_BYTES, SIZE_MAX, WORD in *; lia).
  fold (slab_mapping page). unfold HPLF_SLAB_TARGET_BYTES, PREFIX in *.
  destruct (Z.leb_spec (slab_mapping page) SIZE_MAX);
    [option_step|option_step; rewrite bool_decide_false by lia; done].
  change (via (hplf_size_align_up_pow2 sizeof_hplf_slab HPLF_PAYLOAD_ALIGNMENT)) with (Some 64).
  option_step. rewrite payload_offset_value. option_step. unfold PREFIX.
  rewrite via_size_add by (unfold is_size, SIZE_MAX, WORD in *; lia).
  destruct (Z.leb_spec (48 + capacity) SIZE_MAX);
    [option_step|option_step; rewrite bool_decide_false by lia; done].
  change HPLF_PAYLOAD_ALIGNMENT with (2 ^ 4) at 1. rewrite via_align_up by (unfold is_size; lia).
  fold (slab_stride capacity). change (2 ^ 4 - 1) with 15.
  destruct (Z.leb_spec (48 + capacity + 15) SIZE_MAX);
    [option_step|option_step; rewrite bool_decide_false by lia; done].
  change (round_up (48 + capacity) (2 ^ 4)) with (slab_stride capacity).
  destruct (Z.leb_spec (slab_mapping page) 64); [lia|]. rewrite wsub_small by lia.
  fold (slab_slots capacity page).
  destruct (Z.eqb_spec (slab_slots capacity page) 0); [rewrite bool_decide_false by lia; done|].
  assert (slab_slots capacity page <= slab_slots capacity page * slab_stride capacity) by nia.
  rewrite via_size_multiply by (unfold is_size; lia).
  destruct (Z.leb_spec (slab_slots capacity page * slab_stride capacity) SIZE_MAX); [option_step|lia].
  rewrite via_size_add by (unfold is_size; lia).
  destruct (Z.leb_spec (64 + slab_slots capacity page * slab_stride capacity) SIZE_MAX); [option_step|lia].
  case_bool; [lia|]. rewrite bool_decide_true by lia. done.
Qed.

Lemma slab_layout_compute_inv capacity page l :
  0 < capacity <= SIZE_MAX -> 0 < page <= SIZE_MAX ->
  via (hplf_slab_layout_compute capacity page) = Some l -> slab_layout_ok capacity page l.
Proof.
  intros ? ?. rewrite slab_layout_compute_eval by done.
  pose proof (slab_mapping_ge page ltac:(lia)). pose proof (slab_stride_ge capacity).
  pose proof (slab_slots_bounds capacity page ltac:(lia) ltac:(lia)).
  case_bool_decide; [|done]. intros [= <-].
  split; simpl; try lia; try done.
  - split; [apply round_up_divide|lia].
  - split; [by exists 4|done].
  - split; [apply round_up_divide|lia].
Qed.

(** For the capacities of the table and any page size below half the address
    range the computation succeeds, and a stride is exactly prefix plus capacity. *)
Lemma slab_layout_compute_class index capacity page :
  is_class index capacity -> 0 < page <= PTRDIFF_MAX ->
  slab_stride capacity = PREFIX + capacity /\ 0 < slab_slots capacity page /\ via (hplf_slab_layout_compute capacity page) =
  Some (SlabLayout (slab_mapping page) 64 PREFIX (PREFIX + capacity) (slab_slots capacity page) capacity).
Proof.
  intros [Hcap Hdvd]%is_class_capacity_bounds Hp.
  unfold HPLF_MAX_SMALL_SIZE, PTRDIFF_MAX in *.
  assert (Hs : slab_stride capacity = PREFIX + capacity).
  { apply round_up_id; [done|]. apply Z.divide_add_r; [by exists 3|done]. }
  pose proof (slab_mapping_ge page ltac:(lia)). unfold HPLF_SLAB_TARGET_BYTES in *.
  assert (0 < slab_slots capacity page).
  { apply Z.div_str_pos. rewrite Hs. unfold PREFIX. lia. }
  split; [done|]. split; [done|].
  rewrite slab_layout_compute_eval by (unfold SIZE_MAX, WORD; lia).
  rewrite bool_decide_true by (unfold SIZE_MAX, WORD, PREFIX in *; lia). by rewrite Hs.
Qed.
