(* ===== verification/Chain.v ===== *)
(** * Intrusive singly linked chains

    The predicate that a pointer heads a null-terminated chain of nodes, over any
    [next] field; used for free lists ([next_free] of blocks) and for the slab
    registry ([next] of slab headers). *)

From S2P Require Import Prelude SizeClass Memory.

Fixpoint chain (next : Z -> option Z) (p : Z) (l : list Z) : Prop :=
  match l with
  | [] => p = NULL
  | b :: l' => p = b /\ b <> NULL /\ exists q, next b = Some q /\ chain next q l'
  end.

(** [seg next p l q]: following [l] from [p] ends at the pointer [q]. *)
Fixpoint seg (next : Z -> option Z) (p : Z) (l : list Z) (q : Z) : Prop :=
  match l with
  | [] => p = q
  | b :: l' => p = b /\ b <> NULL /\ exists r, next b = Some r /\ seg next r l' q
  end.

Definition block_next (os : gmap Z object) (b : Z) : option Z := next_free <$> block_at os b.
Definition slab_next_of (os : gmap Z object) (a : Z) : option Z := slab_next <$> slab_at os a.

(** The fuel of a list traversal: a duplicate-free chain has at most one node
    per typed object, so running out of it means the list is cyclic. *)
Definition list_fuel (m : memory) : nat := Datatypes.S (size (objs m)).

Section chains.
Implicit Types (next : Z -> option Z) (p q b : Z) (l : list Z).

Lemma chain_nil next p : chain next p [] <-> p = NULL.
Proof. done. Qed.

Lemma chain_NULL next l : chain next NULL l -> l = [].
Proof. destruct l as [|b l]; [done|]. by intros (<- & ? & _). Qed.

Lemma chain_head next p l : chain next p l -> p <> NULL -> exists l', l = p :: l'.
Proof. destruct l as [|b l]; [done|]. intros (<- & _) _. by exists l. Qed.

Lemma chain_cons_inv next b l p :
  chain next p (b :: l) -> p = b /\ b <> NULL /\ exists q, next b = Some q /\ chain next q l.
Proof. done. Qed.

Lemma chain_seg next p l : chain next p l <-> seg next p l NULL.
Proof. revert p. induction l as [|b l IH]; intros p; simpl; [done|]. naive_solver. Qed.

Lemma seg_app next p l1 l2 q : seg next p (l1 ++ l2) q <-> exists r, seg next p l1 r /\ seg next r l2 q.
Proof.
  revert p. induction l1 as [|b l1 IH]; intros p; simpl.
  - naive_solver.
  - setoid_rewrite IH. naive_solver.
Qed.

Lemma chain_app next p l1 l2 : chain next p (l1 ++ l2) <-> exists r, seg next p l1 r /\ chain next r l2.
Proof. rewrite chain_seg, seg_app. by setoid_rewrite chain_seg. Qed.

Lemma seg_ext next next' p l q :
  seg next p l q -> (forall b, b ∈ l -> next' b = next b) -> seg next' p l q.
Proof.
  revert p. induction l as [|b l IH]; intros p; simpl; [done|].
  intros (-> & ? & r & Hr & Hs) Hext. split; [done|]. split; [done|]. exists r.
  rewrite Hext by left. split; [done|]. apply IH; [done|]. intros. apply Hext. by right.
Qed.

Lemma chain_ext next next' p l :
  chain next p l -> (forall b, b ∈ l -> next' b = next b) -> chain next' p l.
Proof. rewrite !chain_seg. apply seg_ext. Qed.

Lemma chain_functional next p l1 l2 : chain next p l1 -> chain next p l2 -> l1 = l2.
Proof.
  revert p l2. induction l1 as [|b l1 IH]; intros p [|b2 l2]; simpl.
  - done.
  - by intros -> (<- & ? & _).
  - by intros (<- & ? & _) ->.
  - intros (-> & ? & q & Hq & H1) (-> & ? & q' & Hq' & H2). simplify_eq. f_equal. by eapply IH.
Qed.

(** A terminated chain visits no node twice. *)
Lemma chain_NoDup next p l : chain next p l -> NoDup l.
Proof.
  revert p. induction l as [|b l IH]; intros p; [constructor|].
  intros (-> & Hb & q & Hq & Hl). constructor; [|by eapply IH].
  intros Hin. apply list_elem_of_split in Hin as (l1 & l2 & ->).
  apply chain_app in Hl as (r & Hs & Hc).
  assert (Hbig : chain next b (b :: l1 ++ b :: l2)).
  { simpl. split; [done|]. split; [done|]. exists q. split; [done|]. apply chain_app. by exists r. }
  destruct Hc as (-> & Hc).
  assert (Hsmall : chain next b (b :: l2)) by done.
  pose proof (chain_functional _ _ _ _ Hbig Hsmall) as Heq.
  apply (f_equal length) in Heq. simpl in Heq. rewrite length_app in Heq. simpl in Heq. lia.
Qed.

Lemma chain_elem_next next p l b : chain next p l -> b ∈ l -> b <> NULL /\ is_Some (next b).
Proof.
  revert p. induction l as [|c l IH]; intros p Hc Hb; [by apply not_elem_of_nil in Hb|].
  destruct Hc as (-> & ? & q & Hq & Hc). apply elem_of_cons in Hb as [->|Hb]; [|by eapply IH].
  split; [done|]. by exists q.
Qed.

(** The last node of a chain is the one whose [next] is null. *)
Lemma chain_snoc_inv next p l x :
  chain next p (l ++ [x]) -> seg next p l x /\ x <> NULL /\ next x = Some NULL.
Proof. intros (r & Hs & -> & ? & q & Hq & ->)%chain_app. done. Qed.

Lemma chain_snoc_intro next p l x q l2 :
  seg next p l x -> x <> NULL -> next x = Some q -> chain next q l2 -> chain next p (l ++ x :: l2).
Proof. intros. apply chain_app. exists x. split; [done|]. simpl. naive_solver. Qed.

Lemma chain_last next p l : chain next p l -> p <> NULL -> exists l0 x, l = l0 ++ [x].
Proof.
  intros Hc Hp. destruct (chain_head _ _ _ Hc Hp) as [l' ->].
  destruct (exists_last (l := p :: l')) as (l0 & x & ->); [done|]. by exists l0, x.
Qed.

Lemma NoDup_length_dom {V} (l : list Z) (m : gmap Z V) :
  NoDup l -> (forall b, b ∈ l -> is_Some (m !! b)) -> (length l <= size m)%nat.
Proof.
  intros Hnd Hin. rewrite <- size_dom, <- (size_list_to_set (C := gset Z)) by done.
  apply subseteq_size. intros b Hb. apply elem_of_dom, Hin. by apply elem_of_list_to_set in Hb.
Qed.
End chains.

Section block_chains.
Implicit Types (os : gmap Z object) (b p : Z) (l : list Z).

Lemma block_next_Some os b q :
  block_next os b = Some q <-> exists blk, os !! b = Some (OBlock blk) /\ next_free blk = q.
Proof. unfold block_next. rewrite fmap_Some. setoid_rewrite block_at_Some. naive_solver. Qed.

Lemma slab_next_Some os a q :
  slab_next_of os a = Some q <-> exists s, os !! a = Some (OSlab s) /\ slab_next s = q.
Proof. unfold slab_next_of. rewrite fmap_Some. setoid_rewrite slab_at_Some. naive_solver. Qed.

Lemma block_next_insert os p blk b :
  block_next (<[p := OBlock blk]> os) b = if decide (b = p) then Some (next_free blk) else block_next os b.
Proof. unfold block_next. rewrite block_at_insert. by case_decide. Qed.

Lemma slab_next_insert_block os p blk old b :
  os !! p = Some (OBlock old) -> slab_next_of (<[p := OBlock blk]> os) b = slab_next_of os b.
Proof.
  intros Hp. unfold slab_next_of, slab_at. rewrite lookup_insert. case_decide as Hb; [|done].
  subst. by rewrite Hp.
Qed.

Lemma block_chain_is_Some os p l b : chain (block_next os) p l -> b ∈ l -> is_Some (os !! b).
Proof.
  intros Hc Hb. destruct (chain_elem_next _ _ _ _ Hc Hb) as [_ [q Hq]].
  apply block_next_Some in Hq as (blk & -> & _). by eexists.
Qed.

Lemma slab_chain_is_Some os p l b : chain (slab_next_of os) p l -> b ∈ l -> is_Some (os !! b).
Proof.
  intros Hc Hb. destruct (chain_elem_next _ _ _ _ Hc Hb) as [_ [q Hq]].
  apply slab_next_Some in Hq as (s & -> & _). by eexists.
Qed.

Lemma block_chain_fuel m p l : chain (block_next (objs m)) p l -> (length l < list_fuel m)%nat.
Proof.
  intros Hc. unfold list_fuel. apply Nat.lt_succ_r, NoDup_length_dom; [by eapply chain_NoDup|].
  intros. by eapply block_chain_is_Some.
Qed.

Lemma slab_chain_fuel m p l : chain (slab_next_of (objs m)) p l -> (length l < list_fuel m)%nat.
Proof.
  intros Hc. unfold list_fuel. apply Nat.lt_succ_r, NoDup_length_dom; [by eapply chain_NoDup|].
  intros. by eapply slab_chain_is_Some.
Qed.

(** Relinking a node outside a chain leaves the chain alone. *)
Lemma block_chain_insert_ne os p l k blk :
  chain (block_next os) p l -> k ∉ l -> chain (block_next (<[k := OBlock blk]> os)) p l.
Proof.
  intros Hc Hk. eapply chain_ext; [done|]. intros b Hb. rewrite block_next_insert.
  by rewrite decide_False by congruence.
Qed.

Lemma slab_chain_insert_block os p l k blk old :
  os !! k = Some (OBlock old) ->
  chain (slab_next_of os) p l -> chain (slab_next_of (<[k := OBlock blk]> os)) p l.
Proof. intros Hk Hc. eapply chain_ext; [done|]. intros b _. by eapply slab_next_insert_block. Qed.
End block_chains.

(** A loop whose state carries the nodes still to visit. *)
Lemma wp_iterate_list {S A B} (body : A -> prog S (A + B)) (J : list Z -> A -> S -> Prop)
    (Q : B -> S -> Prop) fuel l a s :
  (forall l a s, J l a s ->
     wp (body a) (fun r s' => match r with
                              | inl a' => exists l', (length l' < length l)%nat /\ J l' a' s'
                              | inr b => Q b s'
                              end) s) ->
  (length l < fuel)%nat -> J l a s -> wp (iterate fuel body a) Q s.
Proof.
  intros Hbody Hf HJ.
  apply (wp_iterate body (fun n a s => exists l, length l = n /\ J l a s) Q fuel) with (n := length l);
    [|done|by exists l].
  intros n a' s' (l' & <- & HJ'). eapply wp_mono; [by apply Hbody|].
  intros [a''|b] s''; [|done]. intros (l'' & ? & ?). by eauto.
Qed.
