(* ===== verification/OsMemory.v ===== *)
(** * The operating-system layer (src/os_memory.h, src/os_memory.c)

    Page-size query, mapping and unmapping over [sysconf], [mmap] and [munmap],
    with the fault-injection counters of the testing build. The system calls are
    parameters (class [Platform]); what the code relies on is [PlatformLaws]. *)

From S2P Require Import Prelude CheckedMath SizeClass Memory.

(** ** Platform and build parameters *)

(** The build switch [HPLF_TESTING]. *)
Class Build := { HPLF_TESTING : bool }.

(** System calls; each receives the number of calls made before it, so a call may
    succeed at one time and fail at another. *)
Class Platform := {
  sysconf_pagesize : Z;
  sys_mmap : nat -> gmap Z Z -> Z -> Z + Z;   (* mappings, length: base or errno *)
  sys_munmap : nat -> Z -> Z -> option Z;     (* base, length: error number, if any *)
  sys_mutex_lock : nat -> Z;                  (* zero or an error number *)
  sys_mutex_unlock : nat -> Z
}.

(** Addresses handed to user space. *)
Definition ADDRESS_LIMIT : Z := 2 ^ 63.

Definition fresh_region `{Platform} (mappings : gmap Z Z) (base length : Z) : Prop :=
  0 < base /\ (sysconf_pagesize | base) /\ base + length <= ADDRESS_LIMIT /\
  map_Forall (fun b len => b + len <= base \/ base + length <= b) mappings.

(** Documented behaviour: a positive page size that is a multiple of the
    fundamental alignment; a successful anonymous [mmap] returns a page-aligned
    user-space region that overlaps no existing mapping; unlocking a mutex held by
    the caller succeeds. *)
Class PlatformLaws `{Platform} : Prop := {
  pagesize_positive : 0 < sysconf_pagesize <= PTRDIFF_MAX;
  pagesize_aligned : (16 | sysconf_pagesize);
  mmap_fresh t mappings length base :
    0 < length -> sys_mmap t mappings length = inl base -> fresh_region mappings base length;
  mutex_unlock_succeeds t : sys_mutex_unlock t = 0
}.

Definition EIO : Z := 5.
Definition EAGAIN : Z := 11.
Definition ENOMEM : Z := 12.
Definition EINVAL : Z := 22.

(** ** State *)

Record hplf_os_fault_state := FaultState {
  page_query_calls : Z;
  map_calls : Z;
  unmap_calls : Z;
  successful_maps : Z;
  successful_unmaps : Z;
  fail_page_query_on : Z;
  fail_map_on : Z;
  fail_unmap_on : Z
}.

Definition zero_faults : hplf_os_fault_state := FaultState 0 0 0 0 0 0 0 0.

(** The process state below the allocator: memory, [errno], the number of system
    calls made so far and the fault-injection counters. *)
Record machine := Machine {
  mem : memory;
  errno : Z;
  sys_calls : nat;
  faults : hplf_os_fault_state
}.

Definition set_mem (m : memory) (s : machine) : machine := Machine m (errno s) (sys_calls s) (faults s).
Definition put_errno (e : Z) (s : machine) : machine := Machine (mem s) e (sys_calls s) (faults s).
Definition put_faults (f : hplf_os_fault_state) (s : machine) : machine :=
  Machine (mem s) (errno s) (sys_calls s) f.
Definition count_call (s : machine) : machine :=
  Machine (mem s) (errno s) (Datatypes.S (sys_calls s)) (faults s).

Definition on_memory {A} (m : prog memory A) : prog machine A := zoom mem set_mem m.
Definition set_errno (e : Z) : prog machine unit := modify (put_errno e).

(** The time of a system call. *)
Definition tick : prog machine nat := t ← gets sys_calls; modify count_call;; mret t.

(** ** Fault injection (testing build) *)

(** An [_Atomic size_t] member of the fault state. *)
Record counter := Counter {
  cget : hplf_os_fault_state -> Z;
  cset : Z -> hplf_os_fault_state -> hplf_os_fault_state
}.

Definition c_page_query_calls := Counter page_query_calls (fun v f =>
  FaultState v (map_calls f) (unmap_calls f) (successful_maps f) (successful_unmaps f)
    (fail_page_query_on f) (fail_map_on f) (fail_unmap_on f)).
Definition c_map_calls := Counter map_calls (fun v f =>
  FaultState (page_query_calls f) v (unmap_calls f) (successful_maps f) (successful_unmaps f)
    (fail_page_query_on f) (fail_map_on f) (fail_unmap_on f)).
Definition c_unmap_calls := Counter unmap_calls (fun v f =>
  FaultState (page_query_calls f) (map_calls f) v (successful_maps f) (successful_unmaps f)
    (fail_page_query_on f) (fail_map_on f) (fail_unmap_on f)).
Definition c_successful_maps := Counter successful_maps (fun v f =>
  FaultState (page_query_calls f) (map_calls f) (unmap_calls f) v (successful_unmaps f)
    (fail_page_query_on f) (fail_map_on f) (fail_unmap_on f)).
Definition c_successful_unmaps := Counter successful_unmaps (fun v f =>
  FaultState (page_query_calls f) (map_calls f) (unmap_calls f) (successful_maps f) v
    (fail_page_query_on f) (fail_map_on f) (fail_unmap_on f)).
Definition c_fail_page_query_on := Counter fail_page_query_on (fun v f =>
  FaultState (page_query_calls f) (map_calls f) (unmap_calls f) (successful_maps f)
    (successful_unmaps f) v (fail_map_on f) (fail_unmap_on f)).
Definition c_fail_map_on := Counter fail_map_on (fun v f =>
  FaultState (page_query_calls f) (map_calls f) (unmap_calls f) (successful_maps f)
    (successful_unmaps f) (fail_page_query_on f) v (fail_unmap_on f)).
Definition c_fail_unmap_on := Counter fail_unmap_on (fun v f =>
  FaultState (page_query_calls f) (map_calls f) (unmap_calls f) (successful_maps f)
    (successful_unmaps f) (fail_page_query_on f) (fail_map_on f) v).

Definition atomic_load (c : counter) : prog machine Z := gets (fun s => cget c (faults s)).
Definition atomic_store (c : counter) (v : Z) : prog machine unit :=
  modify (fun s => put_faults (cset c v (faults s)) s).
Definition atomic_fetch_add (c : counter) (v : Z) : prog machine Z :=
  old ← atomic_load c; atomic_store c (wadd old v);; mret old.

Definition hplf_os_test_should_fail (calls failure_call : counter) : prog machine bool :=
  old ← atomic_fetch_add calls 1;
  failure ← atomic_load failure_call;
  mret (negb (failure =? 0) && (wadd old 1 =? failure)).

Definition hplf_os_test_faults_reset : prog machine unit :=
  atomic_store c_page_query_calls 0;;
  atomic_store c_map_calls 0;;
  atomic_store c_unmap_calls 0;;
  atomic_store c_successful_maps 0;;
  atomic_store c_successful_unmaps 0;;
  atomic_store c_fail_page_query_on 0;;
  atomic_store c_fail_map_on 0;;
  atomic_store c_fail_unmap_on 0.

Definition hplf_os_test_fail_page_query_on (call_number : Z) : prog machine unit :=
  atomic_store c_fail_page_query_on call_number.
Definition hplf_os_test_fail_map_on (call_number : Z) : prog machine unit :=
  atomic_store c_fail_map_on call_number.
Definition hplf_os_test_fail_unmap_on (call_number : Z) : prog machine unit :=
  atomic_store c_fail_unmap_on call_number.

Record hplf_os_test_counters := TestCounters {
  page_queries : Z;
  map_attempts : Z;
  unmap_attempts : Z;
  counted_maps : Z;
  counted_unmaps : Z
}.

Definition hplf_os_test_get_counters (counters : cell hplf_os_test_counters)
    : prog machine (cell hplf_os_test_counters) :=
  match counters with
  | Null => mret Null
  | Cell _ =>
      q ← atomic_load c_page_query_calls;
      m ← atomic_load c_map_calls;
      u ← atomic_load c_unmap_calls;
      sm ← atomic_load c_successful_maps;
      su ← atomic_load c_successful_unmaps;
      mret (Cell (Some (TestCounters q m u sm su)))
  end.

(** ** The operating-system interface *)

Record hplf_os_mapping := Mapping { os_base : Z; os_length : Z }.

Section os.
Context `{Build, Platform}.

(** [mmap(NULL, length, PROT_READ | PROT_WRITE, MAP_PRIVATE | MAP_ANONYMOUS, -1, 0)];
    [None] is [MAP_FAILED]. *)
Definition mmap (length : Z) : prog machine (option Z) :=
  t ← tick;
  s ← get;
  match sys_mmap t (maps (mem s)) length with
  | inl base => modify (fun s => set_mem (map_region base length (mem s)) s);; mret (Some base)
  | inr error => set_errno error;; mret None
  end.

(** [munmap] of one whole mapping; anything else is outside the model. *)
Definition munmap (base length : Z) : prog machine Z :=
  t ← tick;
  s ← get;
  demand (maps (mem s) !! base = Some length);;
  match sys_munmap t base length with
  | None => modify (fun s => set_mem (unmap_region base length (mem s)) s);; mret 0
  | Some error => set_errno error;; mret (-1)
  end.

(** [#ifdef HPLF_TESTING if (hplf_os_test_should_fail(...))]. *)
Definition injected_fault (calls failure_call : counter) : prog machine bool :=
  if HPLF_TESTING then hplf_os_test_should_fail calls failure_call else mret false.
Definition count_success (c : counter) : prog machine unit :=
  if HPLF_TESTING then atomic_fetch_add c 1;; mret tt else mret tt.

Definition hplf_os_page_size (page_size : cell Z) : prog machine (bool * cell Z) :=
  match page_size with
  | Null => set_errno EINVAL;; mret (false, page_size)
  | Cell _ =>
      fault ← injected_fault c_page_query_calls c_fail_page_query_on;
      if (fault : bool) then set_errno EIO;; mret (false, page_size)
      else
        let queried_page_size := sysconf_pagesize in
        if (queried_page_size <=? 0) || (SIZE_MAX <? queried_page_size) then
          set_errno EINVAL;; mret (false, page_size)
        else mret (true, Cell (Some queried_page_size))
  end.

Definition hplf_os_map (minimum_length : Z) (output : cell hplf_os_mapping)
    : prog machine (bool * cell hplf_os_mapping) :=
  match output with
  | Null => set_errno EINVAL;; mret (false, output)
  | Cell _ =>
      if minimum_length =? 0 then set_errno EINVAL;; mret (false, output)
      else
        page ← viaM hplf_os_page_size;
        match page with
        | None => mret (false, output)
        | Some page_size =>
            match via (hplf_size_round_up_multiple minimum_length page_size) with
            | None => set_errno ENOMEM;; mret (false, output)
            | Some mapping_length =>
                fault ← injected_fault c_map_calls c_fail_map_on;
                if (fault : bool) then set_errno ENOMEM;; mret (false, output)
                else
                  base ← mmap mapping_length;
                  match base with
                  | None => mret (false, output)
                  | Some base =>
                      count_success c_successful_maps;;
                      mret (true, Cell (Some (Mapping base mapping_length)))
                  end
            end
        end
  end.

(** [mapping] is [None] for a null pointer; the result carries the final contents
    of both objects. *)
Definition hplf_os_unmap (mapping : option hplf_os_mapping) (released_bytes : cell Z)
    : prog machine (bool * option hplf_os_mapping * cell Z) :=
  match mapping, released_bytes with
  | Some mp, Cell _ =>
      if (os_base mp =? NULL) || (os_length mp =? 0) then
        set_errno EINVAL;; mret (false, mapping, released_bytes)
      else
        let base := os_base mp in
        let length := os_length mp in
        fault ← injected_fault c_unmap_calls c_fail_unmap_on;
        if (fault : bool) then set_errno EIO;; mret (false, mapping, released_bytes)
        else
          r ← munmap base length;
          if negb (r =? 0) then mret (false, mapping, released_bytes)
          else
            count_success c_successful_unmaps;;
            mret (true, Some (Mapping NULL 0), Cell (Some length))
  | _, _ => set_errno EINVAL;; mret (false, mapping, released_bytes)
  end.
End os.

(** ** Specifications *)

Section specs.
Context `{Build, Platform, !PlatformLaws}.
Implicit Types (s : machine).

Lemma pagesize_gt0 : 0 < sysconf_pagesize.
Proof. apply pagesize_positive. Qed.

Lemma wp_tick (Q : nat -> machine -> Prop) s : Q (sys_calls s) (count_call s) -> wp tick Q s.
Proof. done. Qed.

Lemma wp_injected_fault calls failure (Q : bool -> machine -> Prop) s :
  (forall b s', mem s' = mem s -> (b = true -> HPLF_TESTING = true) -> Q b s') ->
  wp (injected_fault calls failure) Q s.
Proof. intros HQ. unfold injected_fault. destruct HPLF_TESTING eqn:E; by apply HQ. Qed.

Lemma wp_count_success c (Q : unit -> machine -> Prop) s :
  (forall s', mem s' = mem s -> errno s' = errno s -> sys_calls s' = sys_calls s -> Q tt s') ->
  wp (count_success c) Q s.
Proof. intros HQ. unfold count_success. destruct HPLF_TESTING; by apply HQ. Qed.

Lemma wp_os_page_size old s :
  wp (hplf_os_page_size (Cell old)) (fun r s' => mem s' = mem s /\
    match r with
    | (true, out) => out = Cell (Some sysconf_pagesize)
    | (false, out) => out = Cell old
    end) s.
Proof.
  unfold hplf_os_page_size. wp_steps. apply wp_injected_fault. intros [] s' Hm _; [done|].
  pose proof pagesize_positive. unfold PTRDIFF_MAX in *.
  destruct (Z.leb_spec sysconf_pagesize 0); [lia|].
  destruct (Z.ltb_spec SIZE_MAX sysconf_pagesize); [unfold SIZE_MAX, WORD in *; lia|]. done.
Qed.

(** A caller that passes a local for the page size. *)
Lemma wp_page_size (Q : option Z -> machine -> Prop) s :
  (forall s', mem s' = mem s -> Q None s' /\ Q (Some sysconf_pagesize) s') ->
  wp (viaM hplf_os_page_size) Q s.
Proof.
  intros HQ. wp_steps. eapply wp_mono; [apply wp_os_page_size|].
  intros [[] out] s' (Hm & ->); by apply HQ.
Qed.

(** What a successful mapping gives, relative to the memory before the call. *)
Definition newly_mapped (m m' : memory) (mp : hplf_os_mapping) : Prop :=
  0 < os_length mp /\
  fresh_region (maps m) (os_base mp) (os_length mp) /\
  m' = map_region (os_base mp) (os_length mp) m.

Lemma wp_os_map len old s :
  0 < len <= SIZE_MAX ->
  wp (hplf_os_map len (Cell old)) (fun r s' =>
    match r with
    | (true, out) => exists mp, out = Cell (Some mp) /\ os_length mp = round_up len sysconf_pagesize /\
                                newly_mapped (mem s) (mem s') mp
    | (false, out) => out = Cell old /\ mem s' = mem s
    end) s.
Proof.
  intros Hlen. unfold hplf_os_map. destruct (Z.eqb_spec len 0); [lia|].
  pose proof pagesize_positive as Hp. unfold PTRDIFF_MAX in *.
  pose proof (round_up_ge len sysconf_pagesize pagesize_gt0).
  wp_step. apply wp_page_size. intros s1 Hm1. split; [done|].
  rewrite via_round_up by (unfold is_size, SIZE_MAX, WORD in *; lia).
  case_bool; [|done]. wp_steps. apply wp_injected_fault. intros [] s2 Hm2 _.
  { wp_steps. split; [done|]. simpl. congruence. }
  wp_steps. unfold mmap. wp_steps. apply wp_tick. wp_steps.
  destruct (sys_mmap _ _ _) as [base|e] eqn:E; wp_steps.
  - apply wp_count_success. intros s3 Hm3 _ _. simpl in *. rewrite Hm2, Hm1 in *.
    exists (Mapping base (round_up len sysconf_pagesize)).
    split; [done|]. split; [done|]. split; [cbn [os_length]; lia|]. split; [|done].
    refine (mmap_fresh _ _ _ _ _ E). lia.
  - split; [done|]. simpl. congruence.
Qed.

(** Why an unmap request can fail: an injected fault or the kernel. *)
Definition unmap_can_fail : Prop :=
  HPLF_TESTING = true \/ exists t base len, is_Some (sys_munmap t base len).

(** Whether the unmap request made in state [s] fails: the fault injected at this
    request, or else the kernel's answer to this call. *)
Definition unmap_injected (s : machine) : bool :=
  HPLF_TESTING && negb (fail_unmap_on (faults s) =? 0) && (wadd (unmap_calls (faults s)) 1 =? fail_unmap_on (faults s)).
Definition unmap_fails (base len : Z) (s : machine) : bool :=
  unmap_injected s || bool_decide (is_Some (sys_munmap (sys_calls s) base len)).

Lemma unmap_fails_can base len s : unmap_fails base len s = true -> unmap_can_fail.
Proof.
  unfold unmap_fails, unmap_injected. intros [Hi|Hk]%orb_true_iff.
  - apply andb_true_iff in Hi as [[? _]%andb_true_iff _]. by left.
  - apply bool_decide_eq_true in Hk. right. by do 3 eexists.
Qed.

Lemma wp_injected_unmap (Q : bool -> machine -> Prop) s :
  (forall s', mem s' = mem s -> sys_calls s' = sys_calls s -> Q (unmap_injected s) s') ->
  wp (injected_fault c_unmap_calls c_fail_unmap_on) Q s.
Proof.
  intros HQ. unfold injected_fault, unmap_injected in *. destruct HPLF_TESTING; [|by apply HQ].
  unfold hplf_os_test_should_fail, atomic_fetch_add, atomic_load, atomic_store. wp_steps. by apply HQ.
Qed.

(** Unmapping succeeds exactly when this request does not fail. *)
Lemma wp_os_unmap_exact base len old s :
  maps (mem s) !! base = Some len -> base <> NULL -> len <> 0 ->
  wp (hplf_os_unmap (Some (Mapping base len)) (Cell old)) (fun r s' =>
    match r with
    | (true, mp, out) => mp = Some (Mapping NULL 0) /\ out = Cell (Some len) /\
                         mem s' = unmap_region base len (mem s) /\ unmap_fails base len s = false
    | (false, mp, out) => mp = Some (Mapping base len) /\ out = Cell old /\ mem s' = mem s /\
                          unmap_fails base len s = true
    end) s.
Proof.
  intros Hmap Hb Hl. unfold hplf_os_unmap. simpl.
  destruct (Z.eqb_spec base NULL); [done|]. destruct (Z.eqb_spec len 0); [done|]. simpl orb. cbn iota.
  wp_steps. apply wp_injected_unmap. intros s1 Hm1 Hc1. unfold unmap_fails. destruct (unmap_injected s).
  { wp_steps. by split_and!. }
  wp_steps. unfold munmap. wp_steps. apply wp_tick. wp_steps.
  { simpl. by rewrite Hm1. }
  rewrite Hc1. destruct (sys_munmap _ _ _) as [e|] eqn:E; wp_steps; simpl; wp_steps.
  - by split_and!.
  - apply wp_count_success. intros s2 Hm2 _ _. simpl in *. wp_steps.
    split_and!; [done|done| |done]. rewrite Hm2. simpl. by rewrite Hm1.
Qed.

Lemma wp_os_unmap base len old s :
  maps (mem s) !! base = Some len -> base <> NULL -> len <> 0 ->
  wp (hplf_os_unmap (Some (Mapping base len)) (Cell old)) (fun r s' =>
    match r with
    | (true, mp, out) => mp = Some (Mapping NULL 0) /\ out = Cell (Some len) /\
                         mem s' = unmap_region base len (mem s)
    | (false, mp, out) => mp = Some (Mapping base len) /\ out = Cell old /\ mem s' = mem s /\
                          unmap_can_fail
    end) s.
Proof.
  intros Hmap Hb Hl. eapply wp_mono; [by apply wp_os_unmap_exact|].
  intros [[[] mp] out] s'; [by intros (? & ? & ? & _)|]. intros (? & ? & ? & ?%unmap_fails_can). by split_and!.
Qed.

(** This page-size query, or this map request, is the one told to fail. *)
Definition query_injected (s : machine) : bool :=
  HPLF_TESTING && negb (fail_page_query_on (faults s) =? 0) &&
  (wadd (page_query_calls (faults s)) 1 =? fail_page_query_on (faults s)).
Definition map_injected (s : machine) : bool :=
  HPLF_TESTING && negb (fail_map_on (faults s) =? 0) && (wadd (map_calls (faults s)) 1 =? fail_map_on (faults s)).

(** After a page-size query. *)
Definition queried (s : machine) : machine :=
  if HPLF_TESTING
  then put_faults (cset c_page_query_calls (wadd (page_query_calls (faults s)) 1) (faults s)) s else s.

(** A map request fails at this call: its page-size query or the request is told to
    fail, or the system refuses the mapping. *)
Definition map_fails (len : Z) (s : machine) : Prop :=
  query_injected s = true \/ map_injected (queried s) = true \/
  exists e, sys_mmap (sys_calls s) (maps (mem s)) (round_up len sysconf_pagesize) = inr e.

Lemma queried_same s : mem (queried s) = mem s /\ sys_calls (queried s) = sys_calls s.
Proof. unfold queried. by destruct HPLF_TESTING. Qed.

Lemma test_should_fail_eq calls failure s :
  (forall v f, cget failure (cset calls v f) = cget failure f) ->
  hplf_os_test_should_fail calls failure s =
  Done (negb (cget failure (faults s) =? 0) && (wadd (cget calls (faults s)) 1 =? cget failure (faults s)))
       (put_faults (cset calls (wadd (cget calls (faults s)) 1) (faults s)) s).
Proof.
  intros Hf. unfold hplf_os_test_should_fail, atomic_fetch_add, atomic_load, atomic_store, gets, modify, mret, prog_ret, mbind, prog_bind.
  cbn [faults put_faults]. by rewrite Hf.
Qed.

Lemma via_page_size_exact s :
  viaM hplf_os_page_size s =
  if query_injected s then Done None (put_errno EIO (queried s)) else Done (Some sysconf_pagesize) (queried s).
Proof.
  pose proof pagesize_positive as Hp. unfold PTRDIFF_MAX in *.
  assert (Hok : (sysconf_pagesize <=? 0) || (SIZE_MAX <? sysconf_pagesize) = false).
  { apply orb_false_iff. split; [apply Z.leb_gt; lia|apply Z.ltb_ge; unfold SIZE_MAX, WORD; lia]. }
  unfold viaM, hplf_os_page_size, injected_fault, query_injected, queried. rewrite Hok. unfold mbind, prog_bind.
  destruct HPLF_TESTING; [|done]. rewrite test_should_fail_eq by done. cbn [andb cget c_fail_page_query_on c_page_query_calls].
  by destruct (negb _ && _).
Qed.

(** A request that fails has a reason. *)
Lemma os_map_refused len old s out s' :
  0 < len -> round_up len sysconf_pagesize <= SIZE_MAX ->
  hplf_os_map len (Cell old) s = Done (false, out) s' -> map_fails len s.
Proof.
  intros Hl Hr. pose proof pagesize_positive as Hp. unfold PTRDIFF_MAX in *.
  pose proof (round_up_ge len sysconf_pagesize pagesize_gt0). destruct (queried_same s) as [Em Ec].
  unfold map_fails, hplf_os_map. destruct (Z.eqb_spec len 0); [lia|].
  unfold mbind at 1, prog_bind at 1. rewrite via_page_size_exact. destruct (query_injected s); [by left|].
  rewrite via_round_up by (unfold is_size, SIZE_MAX, WORD in *; lia). case_bool; [|lia].
  set (q := queried s) in *. clearbody q.
  assert (Hcase : forall q', mem q' = mem q -> sys_calls q' = sys_calls q ->
    (base ← mmap (round_up len sysconf_pagesize);
     match base with
     | None => mret (false, Cell old)
     | Some base => count_success c_successful_maps;; mret (true, Cell (Some (Mapping base (round_up len sysconf_pagesize))))
     end) q' = Done (false, out) s' ->
    exists e, sys_mmap (sys_calls s) (maps (mem s)) (round_up len sysconf_pagesize) = inr e).
  { intros q' Em' Ec'. unfold mmap, tick, gets, modify, get, set_errno, mret, prog_ret, mbind, prog_bind. cbn [mem count_call].
    rewrite Em', Ec', Em, Ec. destruct (sys_mmap _ _ _) as [b|e]; [|by exists e].
    unfold count_success. by destruct HPLF_TESTING. }
  unfold injected_fault, map_injected. unfold mbind at 1, prog_bind at 1. destruct HPLF_TESTING.
  - rewrite test_should_fail_eq by done. cbn [andb cget c_fail_map_on c_map_calls]. destruct (negb _ && _); [by right; left|].
    intros E. right. right. by eapply Hcase; [| |exact E].
  - intros E. right. right. by eapply Hcase; [| |exact E].
Qed.

(** The exact outcome of a map request in a production build. *)
Lemma hplf_os_map_production len old s :
  HPLF_TESTING = false -> 0 < len -> round_up len sysconf_pagesize <= SIZE_MAX ->
  hplf_os_map len (Cell old) s =
  match sys_mmap (sys_calls s) (maps (mem s)) (round_up len sysconf_pagesize) with
  | inl base =>
      Done (true, Cell (Some (Mapping base (round_up len sysconf_pagesize))))
           (set_mem (map_region base (round_up len sysconf_pagesize) (mem s)) (count_call s))
  | inr error => Done (false, Cell old) (put_errno error (count_call s))
  end.
Proof.
  intros Ht Hl Hr. pose proof pagesize_positive as Hp. unfold PTRDIFF_MAX in *.
  pose proof (round_up_ge len sysconf_pagesize pagesize_gt0).
  unfold hplf_os_map. destruct (Z.eqb_spec len 0); [lia|].
  unfold viaM, hplf_os_page_size, injected_fault, count_success, mbind, prog_bind. rewrite Ht. cbn -[Z.mul Z.pow].
  destruct (Z.leb_spec sysconf_pagesize 0); [lia|].
  destruct (Z.ltb_spec SIZE_MAX sysconf_pagesize); [unfold SIZE_MAX, WORD in *; lia|]. cbn -[Z.mul Z.pow].
  rewrite via_round_up by (unfold is_size, SIZE_MAX, WORD in *; lia).
  case_bool; [|lia]. unfold mmap, tick, mbind, prog_bind. cbn -[Z.mul Z.pow]. by destruct (sys_mmap _ _ _).
Qed.
End specs.
