(* ===== verification/Slab.v ===== *)
(** * Slab creation (src/slab.c)

    [hplf_slab_create]: map a slab, write its header, carve it into slots whose
    prefixes are linked into a private free chain. *)

From S2P Require Import Prelude CheckedMath SizeClass Memory Layout Chain OsMemory.

Section slab_create.
Context `{Build, Platform}.

(** The slot loop from [index] on, [n] slots left; [bytes] is the mapping base. *)
Fixpoint slab_init_slots (n : nat) (index : Z) (layout : hplf_slab_layout) (bytes slab class_capacity : Z)
    (free_list : Z) : prog memory Z :=
  match n with
  | O => mret free_list
  | Datatypes.S n' =>
      let offset := wadd (sl_first_slot_offset layout) (wmul index (sl_slot_stride layout)) in
      let block := bytes + offset in
      create_object block
        (OBlock (Block (owner_small slab) free_list 0 class_capacity HPLF_BLOCK_SMALL));;
      slab_init_slots n' (index + 1) layout bytes slab class_capacity block
  end.

(** The slab header and the head of the free chain, [None] on failure. Both
    output pointers are non-null at every call site of the allocator. *)
Definition hplf_slab_create (class_index class_capacity : Z) (slab_output free_list_output : cell Z)
    : prog machine (bool * cell Z * cell Z) :=
  match slab_output, free_list_output with
  | Cell _, Cell _ =>
      page ← viaM hplf_os_page_size;
      match page with
      | None => mret (false, slab_output, free_list_output)
      | Some page_size =>
          match via (hplf_slab_layout_compute class_capacity page_size) with
          | None => set_errno ENOMEM;; mret (false, slab_output, free_list_output)
          | Some layout =>
              mapping ← viaM (hplf_os_map (sl_mapping_length layout));
              match mapping with
              | None => mret (false, slab_output, free_list_output)
              | Some mapping =>
                  let slab := os_base mapping in
                  on_memory (create_object slab
                    (OSlab (Slab NULL (os_base mapping) (os_length mapping)
                                 (sl_first_slot_offset layout) (sl_slot_stride layout)
                                 (sl_slot_count layout) class_capacity class_index)));;
                  free_list ← on_memory
                    (slab_init_slots (Z.to_nat (sl_slot_count layout)) 0 layout
                                     (os_base mapping) slab class_capacity NULL);
                  mret (true, Cell (Some slab), Cell (Some free_list))
              end
          end
      end
  | _, _ => set_errno EINVAL;; mret (false, slab_output, free_list_output)
  end.
End slab_create.

(** ** Specification of the slot loop *)

Definition slot_address (base first stride i : Z) : Z := base + first + i * stride.

Lemma slot_separate base first stride i j :
  0 < stride -> i <> j ->
  slot_address base first stride i + stride <= slot_address base first stride j \/
  slot_address base first stride j + stride <= slot_address base first stride i.
Proof. unfold slot_address. intros. assert (i + 1 <= j \/ j + 1 <= i) as [|] by lia; [left|right]; nia. Qed.

Lemma slot_address_inj base first stride i j :
  0 < stride -> slot_address base first stride i = slot_address base first stride j -> i = j.
Proof.
  intros ? E. destruct (Z.eq_dec i j) as [|Hne]; [done|].
  destruct (slot_separate base first stride i j ltac:(done) Hne); lia.
Qed.

Section slot_loop.
Context (layout : hplf_slab_layout) (base slab capacity : Z).

Abbreviation first := (sl_first_slot_offset layout).
Abbreviation stride := (sl_slot_stride layout).
Abbreviation slot := (slot_address base first stride).

Definition slot_block (next : Z) : hplf_block :=
  Block (owner_small slab) next 0 capacity HPLF_BLOCK_SMALL.

(** The slots still to be created are raw mapped storage. *)
Definition slots_raw (lo hi : Z) (m : memory) : Prop :=
  forall i, lo <= i < hi ->
    slot i mod alignof_object = 0 /\ mapped m (slot i) sizeof_hplf_block /\
    object_free (objs m) (slot i) sizeof_hplf_block.

Record slots_done (lo hi : Z) (free_list head : Z) (m m' : memory) : Prop := {
  sd_maps : maps m' = maps m;
  sd_bytes : bytes m' = bytes m;
  sd_head : head = if lo =? hi then free_list else slot (hi - 1);
  sd_slot : forall i, lo <= i < hi ->
    objs m' !! slot i = Some (OBlock (slot_block (if i =? lo then free_list else slot (i - 1))));
  sd_other : forall k, (forall i, lo <= i < hi -> k <> slot i) -> objs m' !! k = objs m !! k
}.

Lemma slots_raw_step lo hi m b :
  sizeof_hplf_block <= stride ->
  slots_raw lo hi m -> slots_raw (lo + 1) hi (set_objs <[slot lo := OBlock b]> m).
Proof.
  change sizeof_hplf_block with 48. intros Hs Hraw i Hi.
  destruct (Hraw i ltac:(lia)) as (? & ? & Hf). split_and!; [done..|].
  intros k o. simpl. rewrite lookup_insert. case_decide as Hk; [|by apply Hf].
  intros [= <-]. subst k. cbn [sizeof]. change sizeof_hplf_block with 48.
  pose proof (slot_separate base first stride lo i ltac:(lia) ltac:(lia)).
  unfold slot_address in *. nia.
Qed.

Lemma wp_slab_init_slots n lo free_list m :
  0 <= lo -> 0 <= first -> sizeof_hplf_block <= stride ->
  first + (lo + Z.of_nat n) * stride <= SIZE_MAX ->
  slots_raw lo (lo + Z.of_nat n) m ->
  wp (slab_init_slots n lo layout base slab capacity free_list)
     (fun head m' => slots_done lo (lo + Z.of_nat n) free_list head m m') m.
Proof.
  revert lo free_list m. induction n as [|n IH]; intros lo free_list m Hlo Hfirst Hs Hmax Hraw; simpl.
  - wp_steps. split; try done.
    + destruct (Z.eqb_spec lo (lo + Z.of_nat 0)); [done|lia].
    + intros i Hi. lia.
  - change sizeof_hplf_block with 48 in *.
    assert (0 <= lo * stride /\ lo * stride <= (lo + Z.of_nat (Datatypes.S n)) * stride) by nia.
    rewrite wmul_small, wadd_small by lia.
    replace (base + (first + lo * stride)) with (slot lo) by (unfold slot_address; lia).
    wp_step. destruct (Hraw lo ltac:(lia)) as (? & ? & Hf).
    apply wp_create_object; [done|done| |].
    { intros k o [_ Hk]%lookup_delete_Some. by apply Hf. }
    replace (lo + Z.of_nat (Datatypes.S n)) with (lo + 1 + Z.of_nat n) in * by lia.
    eapply wp_mono; [apply IH; try lia; by apply slots_raw_step|].
    intros head m' [Hmaps Hbytes Hhead Hslot Hother]. split; [done|done| | |].
    + rewrite Hhead. destruct (Z.eqb_spec lo (lo + 1 + Z.of_nat n)); [lia|].
      case_bool; [|done]. f_equal. lia.
    + intros i Hi. destruct (Z.eqb_spec i lo) as [->|Hne].
      * rewrite Hother; [simpl; by rewrite lookup_insert_eq|].
        intros j Hj E. apply slot_address_inj in E; lia.
      * rewrite Hslot by lia. case_bool; [|done]. do 4 f_equal. lia.
    + intros k Hk. rewrite Hother by (intros; apply Hk; lia). simpl.
      apply lookup_insert_ne. intros E. by apply (Hk lo); [lia|].
Qed.
End slot_loop.
