(* ===== verification/Arena.v ===== *)
(** * The arena: well-formed mappings, slabs and blocks

    The invariant shared by every allocator variant: each typed object is where
    its header says it is, each slab has its table layout and all its slots, each
    large block owns its mapping, and mappings never overlap. From it follow the
    spatial guarantees: extents of distinct objects are disjoint, so payloads are
    disjoint from one another and from all metadata. *)

From S2P Require Import Prelude CheckedMath SizeClass Memory Layout Chain OsMemory Slab.

(** ** Definitions *)

Definition slot_at (a : Z) (h : hplf_slab) (i : Z) : Z :=
  slot_address a (first_slot_offset h) (slot_stride h) i.

(** The bytes an object owns: its header and, for a block, its payload. *)
Definition extent (o : object) : Z :=
  match o with
  | OBlock b => PREFIX + capacity b
  | OSlab _ => sizeof_hplf_slab
  | ODescriptor _ => sizeof_hplf_cache_descriptor
  end.

Section arena.
Context `{Platform}.

Record slab_ok (m : memory) (a : Z) (h : hplf_slab) : Prop := {
  sk_base : mapping_base h = a;
  sk_map : maps m !! a = Some (mapping_length h);
  sk_class : is_class (class_index h) (class_capacity h);
  sk_length : mapping_length h = slab_mapping sysconf_pagesize;
  sk_first : first_slot_offset h = sizeof_hplf_slab;
  sk_stride : slot_stride h = PREFIX + class_capacity h;
  sk_count : slot_count h = slab_slots (class_capacity h) sysconf_pagesize;
  sk_slots : forall i, 0 <= i < slot_count h ->
    exists b, objs m !! slot_at a h i = Some (OBlock b) /\ owner b = owner_small a
}.

Record small_ok (m : memory) (k : Z) (b : hplf_block) (a : Z) (h : hplf_slab) (i : Z) : Prop := {
  sm_kind : kind b = HPLF_BLOCK_SMALL;
  sm_owner : owner b = owner_small a;
  sm_slab : objs m !! a = Some (OSlab h);
  sm_slot : k = slot_at a h i;
  sm_index : 0 <= i < slot_count h;
  sm_capacity : capacity b = class_capacity h;
  sm_requested : 0 <= requested_size b <= capacity b
}.

Record large_ok (m : memory) (k : Z) (b : hplf_block) : Prop := {
  lg_kind : kind b = HPLF_BLOCK_LARGE;
  lg_owner : owner b = owner_large k (PREFIX + capacity b);
  lg_map : maps m !! k = Some (PREFIX + capacity b);
  lg_requested : 0 < requested_size b <= capacity b
}.

Definition block_ok (m : memory) (k : Z) (b : hplf_block) : Prop :=
  (exists a h i, small_ok m k b a h i) \/ large_ok m k b.

Definition descriptor_ok (m : memory) (k : Z) (d : hplf_cache_descriptor) : Prop :=
  desc_mapping_base d = k /\ maps m !! k = Some (desc_mapping_length d) /\
  sizeof_hplf_cache_descriptor <= desc_mapping_length d.

Definition object_ok (m : memory) (k : Z) (o : object) : Prop :=
  match o with
  | OBlock b => block_ok m k b
  | OSlab h => slab_ok m k h
  | ODescriptor d => descriptor_ok m k d
  end.

Definition mapping_ok (base length : Z) : Prop :=
  0 < base /\ 0 < length /\ (sysconf_pagesize | base) /\ base + length <= ADDRESS_LIMIT.

Record arena_wf (m : memory) : Prop := {
  aw_objs : forall k o, objs m !! k = Some o -> object_ok m k o;
  aw_maps : forall base len, maps m !! base = Some len -> mapping_ok base len;
  aw_disjoint : forall b1 l1 b2 l2, maps m !! b1 = Some l1 -> maps m !! b2 = Some l2 ->
    b1 <> b2 -> b1 + l1 <= b2 \/ b2 + l2 <= b1
}.
End arena.

(** Free and live blocks: a block is live exactly when its [requested_size] is
    nonzero. *)
Definition free_in_class (os : gmap Z object) (c : Z) (b : Z) : Prop :=
  exists blk a h, os !! b = Some (OBlock blk) /\ kind blk = HPLF_BLOCK_SMALL /\
    requested_size blk = 0 /\ owner blk = owner_small a /\
    os !! a = Some (OSlab h) /\ class_index h = c.

Definition live_size (o : object) : option Z :=
  match o with
  | OBlock b => if requested_size b =? 0 then None else Some (requested_size b)
  | _ => None
  end.

(** The live blocks with their requested sizes. *)
Definition live (os : gmap Z object) : gmap Z Z := omap live_size os.

(** ** Spatial consequences *)

Section spatial.
Context `{Platform, !PlatformLaws}.
Implicit Types (m : memory).

(** The mapping an object lives in. *)
Definition home (k : Z) (o : object) : Z :=
  match o with
  | OBlock b => match owner b with owner_small a => a | owner_large base _ => base end
  | _ => k
  end.

Lemma slab_slot_bounds m a h i :
  slab_ok m a h -> 0 <= i < slot_count h ->
  a + sizeof_hplf_slab <= slot_at a h i /\ slot_at a h i + slot_stride h <= a + mapping_length h.
Proof.
  intros [] Hi. pose proof pagesize_gt0 as Hp.
  pose proof (is_class_capacity_bounds _ _ sk_class0) as [Hc Hd].
  pose proof (slab_slots_bounds (class_capacity h) sysconf_pagesize ltac:(lia) Hp) as [_ Hb].
  assert (Hs : slab_stride (class_capacity h) = slot_stride h).
  { rewrite sk_stride0. apply round_up_id; [done|]. apply Z.divide_add_r; [by exists 3|done]. }
  rewrite Hs, <- sk_count0, <- sk_length0 in Hb.
  unfold slot_at, slot_address. rewrite sk_first0. change sizeof_hplf_slab with 64.
  assert (0 < slot_stride h) by (rewrite sk_stride0; unfold PREFIX; lia). nia.
Qed.

Lemma object_home m k o :
  arena_wf m -> objs m !! k = Some o ->
  exists len, maps m !! home k o = Some len /\ home k o <= k /\ k + extent o <= home k o + len.
Proof.
  intros Hwf Hk. pose proof (aw_objs _ Hwf _ _ Hk) as Hok. destruct o as [b|h|d]; simpl in *.
  - destruct Hok as [(a & h & i & [])|[]].
    + pose proof (aw_objs _ Hwf _ _ sm_slab0) as Hs. simpl in Hs.
      pose proof (slab_slot_bounds _ _ _ _ Hs sm_index0) as [Hlo Hhi].
      rewrite sm_owner0. exists (mapping_length h). destruct Hs. split; [done|].
      rewrite sm_capacity0. change sizeof_hplf_slab with 64 in *. subst k. lia.
    + rewrite lg_owner0. eexists. split; [done|]. lia.
  - destruct Hok. exists (mapping_length h). split; [done|].
    pose proof (slab_mapping_ge sysconf_pagesize pagesize_gt0).
    change sizeof_hplf_slab with 64. unfold HPLF_SLAB_TARGET_BYTES in *. lia.
  - destruct Hok as (? & ? & ?). eexists. split; [done|]. lia.
Qed.

Lemma extent_pos m k o : arena_wf m -> objs m !! k = Some o -> sizeof o <= extent o.
Proof.
  intros Hwf Hk. pose proof (aw_objs _ Hwf _ _ Hk) as Hok. destruct o as [b|h|d]; simpl in *; [|lia..].
  change sizeof_hplf_block with 48. unfold PREFIX.
  destruct Hok as [(a & h & i & [])|[]]; lia.
Qed.

(** Two blocks of one slab occupy different slots. *)
Lemma small_extents_disjoint m k1 b1 k2 b2 a h1 h2 i1 i2 :
  small_ok m k1 b1 a h1 i1 -> small_ok m k2 b2 a h2 i2 -> slab_ok m a h1 -> k1 <> k2 ->
  k1 + PREFIX + capacity b1 <= k2 \/ k2 + PREFIX + capacity b2 <= k1.
Proof.
  intros [_ _ Ha1 -> Hi1 Hc1 _] [_ _ Ha2 -> Hi2 Hc2 _] Hs Hne.
  assert (h2 = h1) as -> by congruence.
  pose proof (is_class_capacity_bounds _ _ (sk_class _ _ _ Hs)) as [Hc _].
  pose proof (sk_stride _ _ _ Hs) as Hst. unfold PREFIX in *.
  assert (Hi : i1 <> i2) by congruence.
  pose proof (slot_separate a (first_slot_offset h1) (slot_stride h1) i1 i2 ltac:(lia) Hi).
  unfold slot_at in *. lia.
Qed.

(** An object is at the base of its mapping, or it is a slot block behind the
    slab header at that base. *)
Lemma home_inv m k o :
  arena_wf m -> objs m !! k = Some o ->
  home k o = k \/
  exists b h i, o = OBlock b /\ small_ok m k b (home k o) h i /\ slab_ok m (home k o) h /\
                home k o + sizeof_hplf_slab <= k.
Proof.
  intros Hwf Hk. pose proof (aw_objs _ Hwf _ _ Hk) as Hok. destruct o as [b|h|d]; [|by left..].
  destruct Hok as [(a & h & i & Hs)|Hl]; simpl.
  - right. rewrite (sm_owner _ _ _ _ _ _ Hs).
    pose proof (aw_objs _ Hwf _ _ (sm_slab _ _ _ _ _ _ Hs)) as Ha. simpl in Ha.
    exists b, h, i. split_and!; [done..|].
    rewrite (sm_slot _ _ _ _ _ _ Hs). by eapply slab_slot_bounds; [|eapply sm_index].
  - left. by rewrite (lg_owner _ _ _ Hl).
Qed.

Lemma same_home_disjoint m k1 o1 k2 o2 :
  arena_wf m -> objs m !! k1 = Some o1 -> objs m !! k2 = Some o2 ->
  home k1 o1 = home k2 o2 -> k1 <> k2 -> k1 + extent o1 <= k2 \/ k2 + extent o2 <= k1.
Proof.
  intros Hwf H1 H2 Hh Hne.
  destruct (home_inv _ _ _ Hwf H1) as [E1|(b1 & h1 & i1 & -> & S1 & K1 & L1)],
           (home_inv _ _ _ Hwf H2) as [E2|(b2 & h2 & i2 & -> & S2 & K2 & L2)].
  - congruence.
  - left. pose proof (sm_slab _ _ _ _ _ _ S2) as Hs. rewrite <- Hh, E1 in *.
    assert (o1 = OSlab h2) as -> by congruence. exact L2.
  - right. pose proof (sm_slab _ _ _ _ _ _ S1) as Hs. rewrite Hh, E2 in *.
    assert (o2 = OSlab h1) as -> by congruence. exact L1.
  - rewrite <- Hh in *.
    pose proof (small_extents_disjoint _ _ _ _ _ _ _ _ _ _ S1 S2 K1 Hne). simpl. lia.
Qed.

(** Extents of distinct objects never overlap. *)
Lemma extents_disjoint m k1 o1 k2 o2 :
  arena_wf m -> objs m !! k1 = Some o1 -> objs m !! k2 = Some o2 -> k1 <> k2 ->
  k1 + extent o1 <= k2 \/ k2 + extent o2 <= k1.
Proof.
  intros Hwf H1 H2 Hne. destruct (Z.eq_dec (home k1 o1) (home k2 o2)) as [E|E].
  { by eapply same_home_disjoint. }
  destruct (object_home _ _ _ Hwf H1) as (l1 & Hm1 & ? & ?).
  destruct (object_home _ _ _ Hwf H2) as (l2 & Hm2 & ? & ?).
  pose proof (aw_disjoint _ Hwf _ _ _ _ Hm1 Hm2 E). lia.
Qed.

(** A live or free block's payload can be accessed without touching metadata. *)
Lemma payload_accessible m k b n :
  arena_wf m -> objs m !! k = Some (OBlock b) -> 0 <= n <= capacity b ->
  accessible m (k + PREFIX) n.
Proof.
  intros Hwf Hk Hn. split.
  - destruct (object_home _ _ _ Hwf Hk) as (len & Hm & ? & Hhi). simpl extent in Hhi.
    unfold PREFIX in *. eapply mapped_intro; [done|lia..].
  - intros k' o' Hk'. unfold PREFIX. destruct (Z.eq_dec k' k) as [->|Hne].
    + simplify_eq. simpl. change sizeof_hplf_block with 48. lia.
    + pose proof (extents_disjoint _ _ _ _ _ Hwf Hk Hk' ltac:(done)).
      pose proof (extent_pos _ _ _ Hwf Hk'). simpl extent in *. unfold PREFIX in *. lia.
Qed.

(** Payloads of distinct blocks are disjoint, whatever their kinds. *)
Lemma payloads_disjoint m k1 b1 k2 b2 :
  arena_wf m -> objs m !! k1 = Some (OBlock b1) -> objs m !! k2 = Some (OBlock b2) -> k1 <> k2 ->
  k1 + PREFIX + capacity b1 <= k2 + PREFIX \/ k2 + PREFIX + capacity b2 <= k1 + PREFIX.
Proof.
  intros Hwf H1 H2 Hne. pose proof (extents_disjoint _ _ _ _ _ Hwf H1 H2 Hne).
  simpl in *. unfold PREFIX in *. lia.
Qed.

Lemma object_address_pos m k o : arena_wf m -> objs m !! k = Some o -> 0 < k.
Proof.
  intros Hwf Hk. destruct (object_home _ _ _ Hwf Hk) as (len & Hm & ? & _).
  destruct (aw_maps _ Hwf _ _ Hm) as (? & _). lia.
Qed.

Lemma block_not_NULL m k b : arena_wf m -> objs m !! k = Some (OBlock b) -> k <> NULL.
Proof. intros Hwf Hk. pose proof (object_address_pos _ _ _ Hwf Hk). unfold NULL. lia. Qed.

(** Every object, hence every payload, is aligned for any fundamental type. *)
Lemma object_aligned m k o : arena_wf m -> objs m !! k = Some o -> (HPLF_PAYLOAD_ALIGNMENT | k).
Proof.
  intros Hwf Hk.
  assert (Hbase : forall base len, maps m !! base = Some len -> (HPLF_PAYLOAD_ALIGNMENT | base)).
  { intros base len Hb. destruct (aw_maps _ Hwf _ _ Hb) as (_ & _ & Hd & _).
    etransitivity; [apply pagesize_aligned|done]. }
  destruct (home_inv _ _ _ Hwf Hk) as [E|(b & h & i & -> & S & K & _)].
  - destruct (object_home _ _ _ Hwf Hk) as (len & Hm & _). rewrite <- E. by eapply Hbase.
  - rewrite (sm_slot _ _ _ _ _ _ S). unfold slot_at, slot_address.
    rewrite (sk_first _ _ _ K), (sk_stride _ _ _ K).
    pose proof (is_class_capacity_bounds _ _ (sk_class _ _ _ K)) as [_ Hc].
    apply Z.divide_add_r; [apply Z.divide_add_r; [by eapply Hbase, sk_map|by exists 4]|].
    apply Z.divide_mul_r, Z.divide_add_r; [by exists 3|done].
Qed.

(** A freshly mapped region contains no object and is disjoint from every extent. *)
Lemma fresh_region_objects m base len k o :
  arena_wf m -> fresh_region (maps m) base len -> objs m !! k = Some o ->
  k + extent o <= base \/ base + len <= k.
Proof.
  intros Hwf (_ & _ & _ & Hd) Hk. destruct (object_home _ _ _ Hwf Hk) as (l & Hm & ? & ?).
  specialize (Hd _ _ Hm). simpl in Hd. lia.
Qed.
End spatial.

(** ** Preservation: what operations may do to the arena *)

Section preservation.
Context `{Platform, !PlatformLaws}.
Implicit Types (m : memory).

(** An object stays well formed when its mapping, the slab header at its home and,
    for a slab, its slots survive, whatever happens to the rest of memory. *)
Lemma object_ok_mono m m' k o :
  object_ok m k o ->
  (forall len, maps m !! home k o = Some len -> maps m' !! home k o = Some len) ->
  (forall h, objs m !! home k o = Some (OSlab h) ->
     exists q, objs m' !! home k o = Some (OSlab (set_slab_next q h))) ->
  (forall h i b, o = OSlab h -> 0 <= i < slot_count h ->
     objs m !! slot_at k h i = Some (OBlock b) ->
     exists b', objs m' !! slot_at k h i = Some (OBlock b') /\ owner b' = owner b) ->
  object_ok m' k o.
Proof.
  intros Hok Hmap Hslab Hslots. destruct o as [b|h|d]; simpl in *.
  - destruct Hok as [(a & h & i & S)|L].
    + left. rewrite (sm_owner _ _ _ _ _ _ S) in *.
      destruct (Hslab _ (sm_slab _ _ _ _ _ _ S)) as [q Hq].
      exists a, (set_slab_next q h), i. destruct S. by split.
    + right. rewrite (lg_owner _ _ _ L) in *. destruct L. split; auto.
  - destruct Hok. split; auto. intros i Hi. destruct (sk_slots0 i Hi) as (b & Hb & Ho).
    destruct (Hslots h i b eq_refl Hi Hb) as (b' & Hb' & Ho'). exists b'. by rewrite Ho'.
  - destruct Hok as (? & ? & ?). split; auto.
Qed.

Lemma arena_wf_ext m m' : arena_wf m -> maps m' = maps m -> objs m' = objs m -> arena_wf m'.
Proof.
  intros Hwf Hmaps Hobjs. split; rewrite ?Hmaps, ?Hobjs; [|apply Hwf..].
  intros k o Hk. eapply object_ok_mono; [by apply Hwf|by rewrite Hmaps| |].
  - intros h Hh. exists (slab_next h). rewrite Hobjs, Hh. by destruct h.
  - intros h i b _ _ Hb. exists b. by rewrite Hobjs.
Qed.

Lemma arena_wf_set_bytes f m : arena_wf m -> arena_wf (set_bytes f m).
Proof. intros. by eapply arena_wf_ext. Qed.

(** Fields of a block that never change while its mapping lives. *)
Definition same_block (b b' : hplf_block) : Prop :=
  owner b' = owner b /\ capacity b' = capacity b /\ kind b' = kind b.

Lemma arena_wf_update_block m k b b' :
  arena_wf m -> objs m !! k = Some (OBlock b) -> same_block b b' ->
  0 <= requested_size b' <= capacity b ->
  (kind b = HPLF_BLOCK_LARGE -> 0 < requested_size b') ->
  arena_wf (set_objs <[k := OBlock b']> m).
Proof.
  intros Hwf Hk (Ho & Hc & Hkind) Hr Hl. split; [|apply Hwf..].
  intros k' o' Hk'.
  assert (Hok : object_ok m k' o').
  { simpl in Hk'. rewrite lookup_insert in Hk'. case_decide; [|by apply Hwf]. simplify_eq.
    pose proof (aw_objs _ Hwf _ _ Hk) as [(a & h & i & S)|L]; simpl.
    - left. exists a, h, i. destruct S. split; congruence || lia.
    - right. destruct L. split; rewrite ?Hc, ?Ho, ?Hkind; auto. split; [auto|lia]. }
  eapply object_ok_mono; [done|done| |]; simpl.
  - intros h Hh. exists (slab_next h). rewrite lookup_insert_ne by congruence. rewrite Hh. by destruct h.
  - intros h i c _ _ Hi. rewrite lookup_insert. case_decide; [|by exists c].
    exists b'. split; [done|]. congruence.
Qed.

Lemma arena_wf_update_slab_next m a h q :
  arena_wf m -> objs m !! a = Some (OSlab h) ->
  arena_wf (set_objs <[a := OSlab (set_slab_next q h)]> m).
Proof.
  intros Hwf Ha. split; [|apply Hwf..]. intros k o Hk.
  assert (Hok : object_ok m k o).
  { simpl in Hk. rewrite lookup_insert in Hk. case_decide; [|by apply Hwf]. simplify_eq.
    pose proof (aw_objs _ Hwf _ _ Ha) as S. simpl in *. destruct S. by split. }
  eapply object_ok_mono; [done|done| |]; simpl.
  - intros h' Hh'. destruct (decide (a = home k o)) as [->|].
    + exists q. rewrite lookup_insert_eq. congruence.
    + exists (slab_next h'). rewrite lookup_insert_ne by done. rewrite Hh'. by destruct h'.
  - intros h' i c _ _ Hi. exists c. rewrite lookup_insert_ne by congruence. done.
Qed.

(** New storage: a fresh mapping whose objects are well formed. *)
Lemma arena_wf_extend m m' base len :
  arena_wf m -> fresh_region (maps m) base len -> 0 < len ->
  maps m' = <[base := len]> (maps m) ->
  (forall k o, objs m !! k = Some o -> objs m' !! k = Some o) ->
  (forall k o, objs m' !! k = Some o -> objs m !! k = Some o \/ object_ok m' k o) ->
  arena_wf m'.
Proof.
  intros Hwf Hf Hlen Hmaps Hold Hnew. destruct Hf as (Hb & Hd & Hlim & Hfree).
  assert (Hkeep : forall b l, maps m !! b = Some l -> b <> base /\ maps m' !! b = Some l).
  { intros b l Hm. assert (b <> base).
    { intros ->. specialize (Hfree _ _ Hm). simpl in Hfree.
      destruct (aw_maps _ Hwf _ _ Hm) as (_ & ? & _). lia. }
    split; [done|]. by rewrite Hmaps, lookup_insert_ne. }
  split.
  - intros k o Hk. destruct (Hnew _ _ Hk) as [Hk'|]; [|done].
    eapply object_ok_mono; [by apply Hwf|by intros l Hl; apply Hkeep| |].
    + intros h Hh. exists (slab_next h). rewrite (Hold _ _ Hh). by destruct h.
    + intros h i b _ _ Hb'. exists b. split; [by apply Hold|done].
  - intros b l. rewrite Hmaps, lookup_insert. case_decide; [|apply Hwf]. intros [= <-]. by subst.
  - intros b1 l1 b2 l2. rewrite Hmaps, !lookup_insert. intros H1 H2 Hne.
    destruct (decide (base = b1)), (decide (base = b2)); [congruence|..]; simplify_eq.
    + specialize (Hfree _ _ H2). simpl in Hfree. lia.
    + specialize (Hfree _ _ H1). simpl in Hfree. lia.
    + by eapply aw_disjoint.
Qed.

(** The objects inside a mapping are exactly those whose home it is. *)
Lemma inside_home m k o base len :
  arena_wf m -> objs m !! k = Some o -> maps m !! base = Some len ->
  inside base len k <-> home k o = base.
Proof.
  intros Hwf Hk Hb. destruct (object_home _ _ _ Hwf Hk) as (l & Hm & ? & ?).
  pose proof (extent_pos _ _ _ Hwf Hk). pose proof (sizeof_pos o). unfold inside. split.
  - intros Hi. destruct (Z.eq_dec (home k o) base) as [|E]; [done|].
    pose proof (aw_disjoint _ Hwf _ _ _ _ Hm Hb E). lia.
  - intros E. rewrite E in *. simplify_eq. lia.
Qed.

Lemma arena_wf_unmap m base len :
  arena_wf m -> maps m !! base = Some len -> arena_wf (unmap_region base len m).
Proof.
  intros Hwf Hb. split.
  - intros k o Hk. rewrite objs_unmap_region in Hk. case_decide as Hi; [done|].
    assert (Hh : home k o <> base) by (by intros E; apply Hi; eapply inside_home).
    assert (Hkeep : forall k' o', objs m !! k' = Some o' -> home k' o' <> base ->
                    objs (unmap_region base len m) !! k' = Some o').
    { intros k' o' Hk' Hne. rewrite objs_unmap_region, decide_False; [done|].
      intros Hi'. by apply (inside_home _ _ _ _ _ Hwf Hk' Hb) in Hi'. }
    eapply object_ok_mono; [by apply Hwf| | |].
    + intros l Hl. simpl. by rewrite lookup_delete_ne.
    + intros h Hs. exists (slab_next h). rewrite (Hkeep _ _ Hs) by done. by destruct h.
    + intros h i b -> Hi' Hs. exists b. split; [|done]. apply Hkeep; [done|].
      pose proof (aw_objs _ Hwf _ _ Hk) as K. simpl in K.
      destruct (sk_slots _ _ _ K i Hi') as (b' & Hb' & Ho). simplify_eq. simpl. by rewrite Ho.
  - intros b l. simpl. rewrite lookup_delete_Some. intros [_ ?]. by eapply aw_maps.
  - intros b1 l1 b2 l2. simpl. rewrite !lookup_delete_Some. intros [_ ?] [_ ?]. by eapply aw_disjoint.
Qed.
End preservation.

(** ** Live and free blocks under updates *)

Lemma lookup_live os k n :
  live os !! k = Some n <-> exists b, os !! k = Some (OBlock b) /\ requested_size b = n /\ n <> 0.
Proof.
  unfold live. rewrite lookup_omap_Some. unfold live_size. split.
  - intros ([b| |] & Hl & Hk); try done.
    destruct (Z.eqb_spec (requested_size b) 0); simplify_eq. by exists b.
  - intros (b & Hk & <- & Hn). exists (OBlock b). split; [|done].
    destruct (Z.eqb_spec (requested_size b) 0); congruence.
Qed.

Lemma lookup_live_None os k :
  live os !! k = None <-> forall b, os !! k = Some (OBlock b) -> requested_size b = 0.
Proof.
  rewrite eq_None_not_Some. split.
  - intros Hn b Hb. destruct (Z.eq_dec (requested_size b) 0); [done|]. destruct Hn.
    exists (requested_size b). apply lookup_live. by exists b.
  - intros Hz [n Hl]. apply lookup_live in Hl as (b & Hb & <- & Hne). by apply Hne, Hz.
Qed.

Lemma live_insert_block os k b :
  live (<[k := OBlock b]> os) =
  if requested_size b =? 0 then delete k (live os) else <[k := requested_size b]> (live os).
Proof. unfold live. rewrite omap_insert. simpl. by destruct (requested_size b =? 0). Qed.

Lemma live_insert_slab os a h h' :
  os !! a = Some (OSlab h) -> live (<[a := OSlab h']> os) = live os.
Proof.
  intros Ha. unfold live. rewrite omap_insert. simpl. apply delete_id.
  rewrite lookup_omap, Ha. done.
Qed.
