(* ===== verification/SlabSpec.v ===== *)
(** * What slab creation promises its callers

    The contract of [hplf_slab_create] in terms of the arena: a fresh, fully
    initialised slab with a private free chain of all its slots, nothing else
    changed; or nothing changed at all. *)

From S2P Require Import Prelude CheckedMath SizeClass Memory Layout Chain OsMemory Slab Arena.

(** The slots [n-1, ..., 0]: the order in which the slot loop links them. *)
Fixpoint slots_down (slot : Z -> Z) (n : nat) : list Z :=
  match n with
  | O => []
  | Datatypes.S n' => slot (Z.of_nat n') :: slots_down slot n'
  end.

Lemma elem_of_slots_down slot n b :
  b ∈ slots_down slot n <-> exists i, 0 <= i < Z.of_nat n /\ b = slot i.
Proof.
  induction n as [|n IH]; cbn [slots_down].
  - split; [by intros ?%not_elem_of_nil|]. intros (i & ? & _). lia.
  - rewrite elem_of_cons, IH. split.
    + intros [->|(i & ? & ->)]; [exists (Z.of_nat n)|exists i]; (split; [lia|done]).
    + intros (i & Hi & ->). destruct (Z.eq_dec i (Z.of_nat n)) as [->|]; [by left|right].
      exists i. split; [lia|done].
Qed.

Lemma length_slots_down slot n : length (slots_down slot n) = n.
Proof. induction n; simpl; congruence. Qed.

Lemma chain_slots_down next slot n :
  (forall i, 0 <= i < Z.of_nat n -> slot i <> NULL /\
     next (slot i) = Some (if i =? 0 then NULL else slot (i - 1))) ->
  chain next (if Z.of_nat n =? 0 then NULL else slot (Z.of_nat n - 1)) (slots_down slot n).
Proof.
  induction n as [|n IH]; intros Hn; [done|].
  destruct (Z.eqb_spec (Z.of_nat (Datatypes.S n)) 0); [lia|].
  replace (Z.of_nat (Datatypes.S n) - 1) with (Z.of_nat n) by lia.
  destruct (Hn (Z.of_nat n) ltac:(lia)) as [Hnull Hnext]. simpl.
  split; [done|]. split; [done|]. eexists. split; [exact Hnext|]. apply IH. intros. apply Hn. lia.
Qed.

Section contract.
Context `{Build, Platform, !PlatformLaws}.

Record slab_created (m m' : memory) (c a head : Z) (h : hplf_slab) (l : list Z) : Prop := {
  sc_wf : arena_wf m';
  sc_slab : objs m' !! a = Some (OSlab h);
  sc_next : slab_next h = NULL;
  sc_class : class_index h = c;
  sc_fresh : objs m !! a = None;
  sc_fresh_blocks : forall b, b ∈ l -> objs m !! b = None;
  sc_chain : chain (block_next (objs m')) head l;
  sc_count : Z.of_nat (length l) = slot_count h /\ l <> [];
  sc_free : forall b, b ∈ l -> exists blk, objs m' !! b = Some (OBlock blk) /\
    kind blk = HPLF_BLOCK_SMALL /\ owner blk = owner_small a /\ requested_size blk = 0;
  sc_old : forall k o, objs m !! k = Some o -> objs m' !! k = Some o;
  sc_new : forall k o, objs m' !! k = Some o -> objs m !! k = Some o \/ k = a \/ k ∈ l;
  sc_region : fresh_region (maps m) a (mapping_length h);
  sc_maps : maps m' = <[a := mapping_length h]> (maps m);
  sc_bytes : forall k, ~ inside a (mapping_length h) k -> byte_at m' k = byte_at m k
}.

Lemma slab_created_live m m' c a head h l :
  slab_created m m' c a head h l -> live (objs m') = live (objs m).
Proof.
  intros SC. apply map_eq. intros k. apply option_eq. intros n. rewrite !lookup_live. split.
  - intros (b & Hb & Hr & Hn). exists b. split; [|done].
    destruct (sc_new _ _ _ _ _ _ _ SC _ _ Hb) as [|[->|Hk]]; [done| |].
    + pose proof (sc_slab _ _ _ _ _ _ _ SC). congruence.
    + destruct (sc_free _ _ _ _ _ _ _ SC _ Hk) as (blk & ? & _ & _ & ?). congruence.
  - intros (b & Hb & ?). exists b. split; [|done]. by eapply sc_old.
Qed.

(** The header a successful creation writes. *)
Definition created_slab (a c cap : Z) : hplf_slab :=
  Slab NULL a (slab_mapping sysconf_pagesize) sizeof_hplf_slab (PREFIX + cap)
       (slab_slots cap sysconf_pagesize) cap c.

Definition created_layout (cap : Z) : hplf_slab_layout :=
  SlabLayout (slab_mapping sysconf_pagesize) sizeof_hplf_slab PREFIX (PREFIX + cap)
             (slab_slots cap sysconf_pagesize) cap.

Lemma created_layout_eval c cap :
  is_class c cap ->
  via (hplf_slab_layout_compute cap sysconf_pagesize) = Some (created_layout cap).
Proof. intros Hc. by apply (slab_layout_compute_class _ _ _ Hc), pagesize_positive. Qed.

(** Bounds of the created slots, inside the mapping and behind the header. *)
Lemma created_slot_bounds c cap base i :
  is_class c cap -> 0 <= i < slab_slots cap sysconf_pagesize ->
  base + sizeof_hplf_slab <= slot_address base sizeof_hplf_slab (PREFIX + cap) i /\
  slot_address base sizeof_hplf_slab (PREFIX + cap) i + (PREFIX + cap) <= base + slab_mapping sysconf_pagesize.
Proof.
  intros Hc Hi. pose proof (is_class_capacity_bounds _ _ Hc) as [Hcap _].
  destruct (slab_layout_compute_class _ _ _ Hc pagesize_positive) as (Hs & _ & _).
  pose proof (slab_slots_bounds cap sysconf_pagesize ltac:(lia) pagesize_gt0) as [_ Hb].
  rewrite Hs in Hb. unfold slot_address. change sizeof_hplf_slab with 64. unfold PREFIX in *. nia.
Qed.

Lemma mod8_of_16 k : (HPLF_PAYLOAD_ALIGNMENT | k) -> k mod alignof_object = 0.
Proof. intros [x ->]. unfold HPLF_PAYLOAD_ALIGNMENT, alignof_object. replace (x * 16) with (x * 2 * 8) by lia. apply Z.mod_mul. lia. Qed.

Lemma created_slot_aligned c cap base i :
  is_class c cap -> (HPLF_PAYLOAD_ALIGNMENT | base) ->
  slot_address base sizeof_hplf_slab (PREFIX + cap) i mod alignof_object = 0.
Proof.
  intros Hc Hb. pose proof (is_class_capacity_bounds _ _ Hc) as [_ Hd]. apply mod8_of_16. unfold slot_address.
  apply Z.divide_add_r; [apply Z.divide_add_r; [done|by exists 4]|].
  apply Z.divide_mul_r, Z.divide_add_r; [by exists 3|done].
Qed.

Lemma mapping_aligned m base len : fresh_region (maps m) base len -> (HPLF_PAYLOAD_ALIGNMENT | base).
Proof. intros (_ & ? & _). etransitivity; [apply pagesize_aligned|done]. Qed.

(** In a freshly mapped region the header can be written and the slots are raw. *)
Lemma fresh_header m base len :
  arena_wf m -> fresh_region (maps m) base len -> sizeof_hplf_slab <= len ->
  let m1 := map_region base len m in
  base mod alignof_object = 0 /\ mapped m1 base sizeof_hplf_slab /\
  object_free (delete base (objs m1)) base sizeof_hplf_slab.
Proof.
  intros Hwf Hf Hlen. cbn [map_region objs]. split_and!.
  - by eapply mod8_of_16, mapping_aligned.
  - eapply mapped_intro; [apply lookup_insert_eq|lia..].
  - intros k o [_ Hk]%lookup_delete_Some.
    pose proof (fresh_region_objects _ _ _ _ _ Hwf Hf Hk). pose proof (extent_pos _ _ _ Hwf Hk). lia.
Qed.

Lemma fresh_slots m base c cap :
  arena_wf m -> is_class c cap -> fresh_region (maps m) base (slab_mapping sysconf_pagesize) ->
  slots_raw (created_layout cap) base 0 (slab_slots cap sysconf_pagesize)
    (set_objs <[base := OSlab (created_slab base c cap)]>
              (map_region base (slab_mapping sysconf_pagesize) m)).
Proof.
  intros Hwf Hc Hf i Hi. cbn [created_layout sl_first_slot_offset sl_slot_stride].
  pose proof (created_slot_bounds _ _ base i Hc Hi) as [Hlo Hhi].
  pose proof (is_class_capacity_bounds _ _ Hc) as [Hcap _].
  change sizeof_hplf_block with 48. unfold PREFIX in *. split_and!.
  - by eapply created_slot_aligned, mapping_aligned.
  - eapply mapped_intro; [apply lookup_insert_eq| |]; change sizeof_hplf_slab with 64 in *; lia.
  - intros k o. simpl. rewrite lookup_insert. case_decide as Hk.
    + intros [= <-]. subst k. left. exact Hlo.
    + intros Hko. pose proof (fresh_region_objects _ _ _ _ _ Hwf Hf Hko).
      pose proof (extent_pos _ _ _ Hwf Hko). change sizeof_hplf_slab with 64 in *. lia.
Qed.

(** The memory after the slot loop, object by object. *)
Section after_loop.
Context (m m' : memory) (base c cap head : Z).
Context (Hwf : arena_wf m) (Hc : is_class c cap).
Context (Hf : fresh_region (maps m) base (slab_mapping sysconf_pagesize)).

Abbreviation count := (slab_slots cap sysconf_pagesize).
Abbreviation slot := (slot_address base sizeof_hplf_slab (PREFIX + cap)).
Abbreviation header := (created_slab base c cap).

Context (Hdone : slots_done (created_layout cap) base base cap 0 count NULL head
  (set_objs <[base := OSlab header]> (map_region base (slab_mapping sysconf_pagesize) m)) m').

Lemma created_count : 0 < count.
Proof. by destruct (slab_layout_compute_class _ _ _ Hc pagesize_positive) as (_ & ? & _). Qed.

Lemma created_slot_lookup i :
  0 <= i < count ->
  objs m' !! slot i = Some (OBlock (slot_block base cap (if i =? 0 then NULL else slot (i - 1)))).
Proof. intros. by apply (sd_slot _ _ _ _ _ _ _ _ _ _ Hdone). Qed.

Lemma created_header_lookup : objs m' !! base = Some (OSlab header).
Proof.
  rewrite (sd_other _ _ _ _ _ _ _ _ _ _ Hdone); [apply lookup_insert_eq|].
  intros i Hi E. pose proof (created_slot_bounds _ _ base i Hc Hi) as [Hlo _].
  cbn [created_layout sl_first_slot_offset sl_slot_stride] in E. change sizeof_hplf_slab with 64 in *. lia.
Qed.

Lemma region_fresh k : inside base (slab_mapping sysconf_pagesize) k -> objs m !! k = None.
Proof.
  intros Hi. destruct (objs m !! k) as [o|] eqn:Hk; [|done].
  pose proof (fresh_region_objects _ _ _ _ _ Hwf Hf Hk). pose proof (extent_pos _ _ _ Hwf Hk).
  pose proof (sizeof_pos o). unfold inside in Hi. lia.
Qed.

Lemma slot_inside i : 0 <= i < count -> inside base (slab_mapping sysconf_pagesize) (slot i).
Proof.
  intros Hi. pose proof (created_slot_bounds _ _ base i Hc Hi).
  pose proof (is_class_capacity_bounds _ _ Hc) as [Hcap _].
  unfold inside, PREFIX in *. change sizeof_hplf_slab with 64 in *. lia.
Qed.

Lemma base_inside : inside base (slab_mapping sysconf_pagesize) base.
Proof.
  pose proof (slab_mapping_ge sysconf_pagesize pagesize_gt0). unfold HPLF_SLAB_TARGET_BYTES in *.
  unfold inside. lia.
Qed.

Lemma created_other_lookup k :
  ~ inside base (slab_mapping sysconf_pagesize) k -> objs m' !! k = objs m !! k.
Proof.
  intros Hi. rewrite (sd_other _ _ _ _ _ _ _ _ _ _ Hdone).
  - apply lookup_insert_ne. intros <-. apply Hi, base_inside.
  - intros i Hr ->. by apply Hi, slot_inside.
Qed.

Lemma created_inv k o :
  objs m' !! k = Some o -> objs m !! k = Some o \/ k = base \/ exists i, 0 <= i < count /\ k = slot i.
Proof.
  intros Hk. destruct (Z.eq_dec k base) as [->|Hb]; [by right; left|].
  destruct (decide (Exists (fun i => k = slot i) (seqZ 0 count))) as [He|He].
  - apply Exists_exists in He as (i & Hi%elem_of_seqZ & ->). right. right. exists i. split; [lia|done].
  - left. rewrite (sd_other _ _ _ _ _ _ _ _ _ _ Hdone) in Hk.
    + simpl in Hk. by rewrite lookup_insert_ne in Hk by done.
    + intros i Hi ->. apply He, Exists_exists. exists i. split; [apply elem_of_seqZ; lia|done].
Qed.

Lemma created_old k o : objs m !! k = Some o -> objs m' !! k = Some o.
Proof.
  intros Hk. rewrite created_other_lookup; [done|]. intros Hi. apply region_fresh in Hi. congruence.
Qed.

Lemma created_maps : maps m' = <[base := slab_mapping sysconf_pagesize]> (maps m).
Proof. apply (sd_maps _ _ _ _ _ _ _ _ _ _ Hdone). Qed.

Lemma created_header_ok : slab_ok m' base header.
Proof.
  split; try done; [by rewrite created_maps, lookup_insert_eq|].
  intros i Hi. eexists. split; [by apply created_slot_lookup|done].
Qed.

Lemma created_slot_ok i b : 0 <= i < count -> block_ok m' (slot i) (slot_block base cap b).
Proof.
  intros Hi. left. exists base, header, i. pose proof (is_class_capacity_bounds _ _ Hc) as [Hcap _].
  split; try done; [apply created_header_lookup|]. simpl. lia.
Qed.

Lemma created_wf : arena_wf m'.
Proof.
  pose proof (slab_mapping_ge sysconf_pagesize pagesize_gt0). unfold HPLF_SLAB_TARGET_BYTES in *.
  eapply arena_wf_extend; [done|done|lia|apply created_maps|apply created_old|].
  intros k o Hk. destruct (created_inv _ _ Hk) as [|[->|(i & Hi & ->)]]; [by left|right..].
  - rewrite created_header_lookup in Hk. simplify_eq. apply created_header_ok.
  - rewrite created_slot_lookup in Hk by done. simplify_eq. by apply created_slot_ok.
Qed.

Lemma created_chain :
  chain (block_next (objs m')) head (slots_down slot (Z.to_nat count)).
Proof.
  pose proof created_count. pose proof (chain_slots_down (block_next (objs m')) slot (Z.to_nat count)) as Hch.
  rewrite Z2Nat.id in Hch by lia. rewrite (sd_head _ _ _ _ _ _ _ _ _ _ Hdone), (Z.eqb_sym 0).
  apply Hch. intros i Hi. split.
  - pose proof (slot_inside i Hi) as [Hin _]. destruct Hf as [? _]. unfold NULL. lia.
  - apply block_next_Some. eexists. split; [by apply created_slot_lookup|done].
Qed.

Lemma slots_done_created :
  slab_created m m' c base head header (slots_down slot (Z.to_nat count)).
Proof.
  pose proof created_count. split; try done.
  - apply created_wf.
  - apply created_header_lookup.
  - apply region_fresh, base_inside.
  - intros b (i & Hi & ->)%elem_of_slots_down. apply region_fresh, slot_inside. lia.
  - apply created_chain.
  - rewrite length_slots_down. split; [simpl; lia|].
    destruct (Z.to_nat count) eqn:E; [lia|done].
  - intros b (i & Hi & ->)%elem_of_slots_down. eexists.
    split; [apply created_slot_lookup; lia|done].
  - apply created_old.
  - intros k o Hk. destruct (created_inv _ _ Hk) as [|[|(i & Hi & ->)]]; [by left|by right; left|].
    right. right. apply elem_of_slots_down. exists i. split; [lia|done].
  - apply created_maps.
  - intros k Hk. unfold byte_at. rewrite (sd_bytes _ _ _ _ _ _ _ _ _ _ Hdone).
    change (byte_at (map_region base (slab_mapping sysconf_pagesize) m) k = byte_at m k).
    rewrite byte_at_map_region. by rewrite decide_False.
Qed.
End after_loop.

(** ** The contract *)

Lemma wp_slab_create c cap old1 old2 s :
  arena_wf (mem s) -> is_class c cap ->
  wp (hplf_slab_create c cap (Cell old1) (Cell old2)) (fun r s' =>
    match r with
    | (true, out1, out2) => exists a head h l,
        out1 = Cell (Some a) /\ out2 = Cell (Some head) /\
        slab_created (mem s) (mem s') c a head h l
    | (false, out1, out2) => out1 = Cell old1 /\ out2 = Cell old2 /\ mem s' = mem s
    end) s.
Proof.
  intros Hwf Hc. unfold hplf_slab_create. wp_step. apply wp_page_size.
  intros s1 Hm1. split; [done|].
  rewrite (created_layout_eval _ _ Hc). cbn [sl_mapping_length created_layout].
  pose proof (slab_mapping_ge sysconf_pagesize pagesize_gt0) as Hlen.
  pose proof pagesize_positive as Hp. unfold HPLF_SLAB_TARGET_BYTES, PTRDIFF_MAX in *.
  wp_steps. eapply wp_mono; [apply wp_os_map; unfold SIZE_MAX, WORD; lia|].
  intros [[] out] s2; [|intros [-> ?]; wp_steps; split_and!; congruence].
  intros (mp & -> & Hl & Hpos & Hfresh & Hm2). rewrite Hm1 in *.
  rewrite round_up_id in Hl by (apply pagesize_gt0 || apply round_up_divide).
  destruct mp as [base len]. cbn [os_base os_length] in *. subst len.
  unfold on_memory. wp_steps. rewrite Hm2.
  destruct (fresh_header _ _ _ Hwf Hfresh) as (? & ? & ?); [change sizeof_hplf_slab with 64; lia|].
  apply wp_create_object; [done..|]. wp_steps. cbn [mem set_mem].
  pose proof (created_count _ _ Hc) as Hcnt.
  pose proof (is_class_capacity_bounds _ _ Hc) as [Hcap _].
  assert (Hend : sizeof_hplf_slab + slab_slots cap sysconf_pagesize * (PREFIX + cap) <= slab_mapping sysconf_pagesize).
  { assert (Hi : 0 <= slab_slots cap sysconf_pagesize - 1 < slab_slots cap sysconf_pagesize) by lia.
    pose proof (created_slot_bounds _ _ 0 _ Hc Hi) as [_ Hhi].
    unfold slot_address in Hhi. lia. }
  eapply wp_mono.
  { apply wp_slab_init_slots; cbn [created_layout sl_first_slot_offset sl_slot_stride sl_slot_count];
      rewrite ?Z2Nat.id by lia; rewrite ?Z.add_0_l; try done;
      [change sizeof_hplf_block with 48; unfold PREFIX; lia|unfold SIZE_MAX, WORD; lia|by apply fresh_slots]. }
  intros head m' Hdone. cbn [sl_slot_count created_layout] in Hdone. rewrite Z2Nat.id, Z.add_0_l in Hdone by lia.
  wp_steps. exists base, head. do 2 eexists. split; [done|]. split; [done|].
  by apply slots_done_created.
Qed.

(** Where the payload of a created block lies. *)
Lemma created_payload m m' c cap a head h l k :
  slab_created m m' c a head h l -> is_class c cap -> k ∈ l ->
  (HPLF_PAYLOAD_ALIGNMENT | hplf_block_payload k) /\ accessible m' (hplf_block_payload k) cap /\
  a + sizeof_hplf_slab <= k /\ k + sizeof_hplf_block <= hplf_block_payload k /\
  (exists len, maps m' !! a = Some len /\ hplf_block_payload k + cap <= a + len) /\
  forall k' b', objs m' !! k' = Some (OBlock b') -> k' <> k ->
    hplf_block_payload k + cap <= hplf_block_payload k' \/ hplf_block_payload k' + capacity b' <= hplf_block_payload k.
Proof.
  intros SC Hc Hk. pose proof (sc_wf _ _ _ _ _ _ _ SC) as Hwf.
  destruct (sc_free _ _ _ _ _ _ _ SC _ Hk) as (b & Hb & Hkind & Ho & _).
  pose proof (aw_objs _ Hwf _ _ Hb) as [(a' & h' & i & S)|L]; [|destruct L; congruence].
  assert (a' = a) as -> by (pose proof (sm_owner _ _ _ _ _ _ S); congruence).
  assert (h' = h) as -> by (pose proof (sm_slab _ _ _ _ _ _ S); pose proof (sc_slab _ _ _ _ _ _ _ SC); congruence).
  pose proof (aw_objs _ Hwf _ _ (sc_slab _ _ _ _ _ _ _ SC)) as K. simpl in K.
  pose proof (sk_class _ _ _ K) as Hc'. rewrite (sc_class _ _ _ _ _ _ _ SC) in Hc'.
  assert (Hcap : capacity b = cap) by (rewrite (sm_capacity _ _ _ _ _ _ S); by eapply is_class_functional).
  destruct (slab_slot_bounds _ _ _ _ K (sm_index _ _ _ _ _ _ S)) as [Hlo Hhi].
  rewrite <- (sm_slot _ _ _ _ _ _ S) in *. rewrite (sk_stride _ _ _ K), <- (sm_capacity _ _ _ _ _ _ S), Hcap in Hhi.
  pose proof (is_class_capacity_bounds _ _ Hc) as [Hpos _].
  assert (Hpay : forall x o, objs m' !! x = Some o -> hplf_block_payload x = x + PREFIX).
  { intros x o Hx. apply hplf_block_payload_eq. pose proof (object_address_pos _ _ _ Hwf Hx). unfold NULL. lia. }
  rewrite (Hpay _ _ Hb). split_and!.
  - apply Z.divide_add_r; [by eapply object_aligned|by exists 3].
  - eapply payload_accessible; [done|done|lia].
  - done.
  - by change sizeof_hplf_block with PREFIX.
  - exists (mapping_length h). split; [apply K|lia].
  - intros k' b' Hk' Hne. rewrite (Hpay _ _ Hk'), <- Hcap. eapply payloads_disjoint; [done..|congruence].
Qed.
End contract.
