(* ===== verification/LockedAllocator.v ===== *)
(** * The allocator, locked variant (src/allocator.c without HPLF_VARIANT_CACHED_MUTEX)

    The whole public API of the baseline build: one registry mutex protects the
    slab registry and one free list per size class. Each function is the C
    function's body; the trim loop is shared with the cached variant. *)

From S2P Require Import Prelude CheckedMath SizeClass Memory Layout Chain OsMemory Slab.

(** ** State *)

Record hplf_allocator_state := AllocatorState {
  mach : machine;
  registry_held : bool;          (* registry_mutex is locked *)
  free_lists : list Z;           (* one head per size class *)
  slabs : Z                      (* head of the slab registry *)
}.

Definition set_mach (m : machine) (s : hplf_allocator_state) : hplf_allocator_state :=
  AllocatorState m (registry_held s) (free_lists s) (slabs s).
Definition set_held (h : bool) (s : hplf_allocator_state) : hplf_allocator_state :=
  AllocatorState (mach s) h (free_lists s) (slabs s).
Definition set_free_lists (l : list Z) (s : hplf_allocator_state) : hplf_allocator_state :=
  AllocatorState (mach s) (registry_held s) l (slabs s).
Definition set_slabs (p : Z) (s : hplf_allocator_state) : hplf_allocator_state :=
  AllocatorState (mach s) (registry_held s) (free_lists s) p.

Abbreviation memory_of s := (mem (mach s)).
Abbreviation objects_of s := (objs (mem (mach s))).

(** The static initialiser: empty lists, no slab, no memory mapped yet. *)
Definition initial_allocator_state : hplf_allocator_state :=
  AllocatorState (Machine empty_memory 0 0 zero_faults) false
                 (replicate (Z.to_nat HPLF_SIZE_CLASS_COUNT) NULL) NULL.

Definition on_machine {A} (m : prog machine A) : prog hplf_allocator_state A := zoom mach set_mach m.
Definition on_mem {A} (m : prog memory A) : prog hplf_allocator_state A := on_machine (on_memory m).
Definition set_errno_a (e : Z) : prog hplf_allocator_state unit := on_machine (set_errno e).

(** C array accesses: out of range is undefined. *)
Definition array_get (l : list Z) (i : Z) : option Z := if 0 <=? i then l !! Z.to_nat i else None.

Definition free_list_get (c : Z) : prog hplf_allocator_state Z :=
  s ← get; known (array_get (free_lists s) c).
Definition free_list_set (c head : Z) : prog hplf_allocator_state unit :=
  s ← get; known (array_get (free_lists s) c);; modify (set_free_lists (<[Z.to_nat c := head]> (free_lists s))).

(** A call with two uninitialised locals for its outputs. *)
Definition viaM2 {S A B} (f : cell A -> cell B -> prog S (bool * cell A * cell B)) : prog S (option (A * B)) :=
  r ← f (Cell None) (Cell None);
  match r with
  | (true, Cell (Some a), Cell (Some b)) => mret (Some (a, b))
  | (true, _, _) => undefined
  | (false, _, _) => mret None
  end.

Section allocator.
Context `{Build, Platform}.

(** [pthread_mutex_lock] of a default mutex: relocking it deadlocks. *)
Definition registry_lock : prog hplf_allocator_state Z :=
  s ← get;
  t ← on_machine tick;
  if registry_held s then diverges
  else if sys_mutex_lock t =? 0 then modify (set_held true);; mret 0
  else mret (sys_mutex_lock t).

Definition registry_unlock : prog hplf_allocator_state Z :=
  s ← get;
  t ← on_machine tick;
  demand (registry_held s = true);;
  if sys_mutex_unlock t =? 0 then modify (set_held false);; mret 0
  else mret (sys_mutex_unlock t).

(** ** hplf_malloc *)

(** The refill branch of [hplf_allocate_small]: a new slab becomes reachable and
    its chain becomes the class's free list. *)
Definition refill_class (class_index class_capacity : Z) : prog hplf_allocator_state (option Z) :=
  created ← on_machine (viaM2 (hplf_slab_create class_index class_capacity));
  match created with
  | None => registry_unlock;; set_errno_a ENOMEM;; mret None
  | Some (slab, new_free_list) =>
      registered ← gets slabs;
      on_mem (store_slab slab (set_slab_next registered));;
      modify (set_slabs slab);;
      free_list_set class_index new_free_list;;
      mret (Some new_free_list)
  end.

(** The end of [hplf_allocate_small]: take the head [block] of the class's list. *)
Definition pop_and_unlock (requested_size class_index block : Z) : prog hplf_allocator_state Z :=
  b ← on_mem (load_block block);
  free_list_set class_index (next_free b);;
  on_mem (store_block block (set_next_free NULL));;
  on_mem (store_block block (set_requested_size requested_size));;
  error ← registry_unlock;
  if negb (error =? 0) then set_errno_a error;; mret NULL
  else mret (hplf_block_payload block).

Definition hplf_allocate_small (requested_size class_index class_capacity : Z) : prog hplf_allocator_state Z :=
  error ← registry_lock;
  if negb (error =? 0) then set_errno_a error;; mret NULL
  else
    first ← free_list_get class_index;
    available ← (if first =? NULL then refill_class class_index class_capacity else mret (Some first));
    match available with
    | None => mret NULL
    | Some block => pop_and_unlock requested_size class_index block
    end.

Definition hplf_allocate_large (requested_size : Z) : prog machine Z :=
  page ← viaM hplf_os_page_size;
  match page with
  | None => set_errno ENOMEM;; mret NULL
  | Some page_size =>
      match via (hplf_large_layout_compute requested_size page_size) with
      | None => set_errno ENOMEM;; mret NULL
      | Some layout =>
          mapping ← viaM (hplf_os_map (large_mapping_length layout));
          match mapping with
          | None => set_errno ENOMEM;; mret NULL
          | Some mapping =>
              let block := os_base mapping in
              on_memory (create_object block
                (OBlock (Block (owner_large (os_base mapping) (os_length mapping)) NULL requested_size
                               (wsub (os_length mapping) (large_payload_offset layout))
                               HPLF_BLOCK_LARGE)));;
              mret (hplf_block_payload block)
          end
      end
  end.

Definition hplf_malloc (size : Z) : prog hplf_allocator_state Z :=
  if size =? 0 then mret NULL
  else if PTRDIFF_MAX <? size then set_errno_a ENOMEM;; mret NULL
  else
    match class_for size with
    | Some (class_index, class_capacity) => hplf_allocate_small size class_index class_capacity
    | None => on_machine (hplf_allocate_large size)
    end.

(** ** hplf_free *)

Definition free_large (b : hplf_block) : prog machine unit :=
  mapping ← known (owner_large_mapping b);
  hplf_os_unmap (Some (Mapping mapping.1 mapping.2)) (Cell None);;
  mret tt.

Definition free_small (block : Z) (b : hplf_block) : prog hplf_allocator_state unit :=
  slab ← known (owner_small_slab b);
  h ← on_mem (load_slab slab);
  error ← registry_lock;
  if error =? 0 then
    on_mem (store_block block (set_requested_size 0));;
    head ← free_list_get (class_index h);
    on_mem (store_block block (set_next_free head));;
    free_list_set (class_index h) block;;
    registry_unlock;;
    mret tt
  else mret tt.

Definition hplf_free (pointer : Z) : prog hplf_allocator_state unit :=
  saved_errno ← gets (fun s => errno (mach s));
  if pointer =? NULL then mret tt
  else
    let block := hplf_block_from_payload pointer in
    b ← on_mem (load_block block);
    match kind b with
    | HPLF_BLOCK_LARGE => on_machine (free_large b)
    | HPLF_BLOCK_SMALL => free_small block b
    end;;
    set_errno_a saved_errno.

(** ** hplf_calloc *)

Definition hplf_calloc (count size : Z) : prog hplf_allocator_state Z :=
  if (count =? 0) || (size =? 0) then mret NULL
  else
    match via (hplf_size_multiply count size) with
    | None => set_errno_a ENOMEM;; mret NULL
    | Some total_size =>
        pointer ← hplf_malloc total_size;
        (if negb (pointer =? NULL) then on_mem (memset pointer 0 total_size) else mret tt);;
        mret pointer
    end.

(** ** hplf_realloc *)

Definition hplf_realloc_can_retain (b : hplf_block) (requested_size : Z) : prog memory bool :=
  match kind b with
  | HPLF_BLOCK_SMALL =>
      match class_for requested_size with
      | Some (index, _) =>
          slab ← known (owner_small_slab b);
          h ← load_slab slab;
          mret (index =? class_index h)
      | None => mret false
      end
  | HPLF_BLOCK_LARGE =>
      match class_for requested_size with
      | Some _ => mret false
      | None => mret (requested_size <=? capacity b)
      end
  end.

Definition hplf_realloc (pointer size : Z) : prog hplf_allocator_state Z :=
  if pointer =? NULL then hplf_malloc size
  else if size =? 0 then hplf_free pointer;; mret NULL
  else if PTRDIFF_MAX <? size then set_errno_a ENOMEM;; mret NULL
  else
    let old_block := hplf_block_from_payload pointer in
    b ← on_mem (load_block old_block);
    retain ← on_mem (hplf_realloc_can_retain b size);
    if (retain : bool) then on_mem (store_block old_block (set_requested_size size));; mret pointer
    else
      replacement ← hplf_malloc size;
      if replacement =? NULL then mret NULL
      else
        b ← on_mem (load_block old_block);
        let copy_size := if requested_size b <? size then requested_size b else size in
        on_mem (memcpy replacement pointer copy_size);;
        hplf_free pointer;;
        mret replacement.

(** The locked baseline has no thread-local cache to publish. *)
Definition hplf_thread_flush : prog hplf_allocator_state unit := mret tt.

(** ** hplf_trim_quiescent *)

Definition free_count_step (slab : Z) (st : Z * Z) : prog memory (Z * Z + Z) :=
  let '(block, count) := st in
  if block =? NULL then mret (inr count)
  else
    b ← load_block block;
    a ← known (owner_small_slab b);
    mret (inl (next_free b, if a =? slab then wadd count 1 else count)).

Definition hplf_slab_free_count (slab : Z) (lists : list Z) : prog memory Z :=
  h ← load_slab slab;
  head ← known (array_get lists (class_index h));
  m ← get;
  iterate (list_fuel m) (free_count_step slab) (head, 0).

Definition detach_step (slab : Z) (st : Z * Z * Z) : prog memory (Z * Z * Z + Z * Z) :=
  let '(block, removed, remaining) := st in
  if block =? NULL then mret (inr (removed, remaining))
  else
    b ← load_block block;
    let next := next_free b in
    a ← known (owner_small_slab b);
    if a =? slab then store_block block (set_next_free removed);; mret (inl (next, block, remaining))
    else store_block block (set_next_free remaining);; mret (inl (next, removed, block)).

(** The removed chain and, through the output pointer, the remaining one. *)
Definition hplf_detach_slab_blocks (slab : Z) (lists : list Z) : prog memory (Z * Z) :=
  h ← load_slab slab;
  head ← known (array_get lists (class_index h));
  m ← get;
  iterate (list_fuel m) (detach_step slab) (head, NULL, NULL).

Definition join_step (tail : Z) : prog memory (Z + Z) :=
  b ← load_block tail;
  if next_free b =? NULL then mret (inr tail) else mret (inl (next_free b)).

Definition hplf_join_free_lists (first second : Z) : prog memory Z :=
  if first =? NULL then mret second
  else
    m ← get;
    tail ← iterate (list_fuel m) join_step first;
    store_block tail (set_next_free second);;
    mret first.

(** [struct hplf_slab **registry_link]: the registry head or a slab's [next]. *)
Inductive registry_link := link_head | link_next (slab : Z).

Definition read_link (link : registry_link) : prog hplf_allocator_state Z :=
  match link with
  | link_head => gets slabs
  | link_next slab => h ← on_mem (load_slab slab); mret (slab_next h)
  end.
Definition write_link (link : registry_link) (p : Z) : prog hplf_allocator_state unit :=
  match link with
  | link_head => modify (set_slabs p)
  | link_next slab => on_mem (store_slab slab (set_slab_next p))
  end.

(** The slab left its list and the registry: unmap it, or restore both. The
    walk continues from the same link, or from the restored slab's. *)
Definition trim_unmap (link : registry_link) (slab : Z) (h : hplf_slab) (removed remaining released_total : Z)
    : prog hplf_allocator_state (registry_link * Z) :=
  unmapped ← on_machine (hplf_os_unmap (Some (Mapping (mapping_base h) (mapping_length h))) (Cell None));
  match unmapped with
  | (true, _, Cell (Some released_bytes)) =>
      let new_total :=
        match via (hplf_size_add released_total released_bytes) with
        | Some total => total
        | None => SIZE_MAX
        end in
      mret (link, new_total)
  | (true, _, _) => undefined
  | (false, _, _) =>
      joined ← on_mem (hplf_join_free_lists removed remaining);
      free_list_set (class_index h) joined;;
      on_mem (store_slab slab (set_slab_next (slab_next h)));;
      write_link link slab;;
      mret (link_next slab, released_total)
  end.

(** One iteration of the registry walk, from [*registry_link != NULL] on; [h] is
    the header read at the top of the iteration. *)
Definition trim_step (st : registry_link * Z) : prog hplf_allocator_state (registry_link * Z + Z) :=
  let '(link, released_total) := st in
  slab ← read_link link;
  if slab =? NULL then mret (inr released_total)
  else
    h ← on_mem (load_slab slab);
    lists ← gets free_lists;
    count ← on_mem (hplf_slab_free_count slab lists);
    if negb (count =? slot_count h) then mret (inl (link_next slab, released_total))
    else
      chains ← on_mem (hplf_detach_slab_blocks slab lists);
      let '(removed, remaining) := chains in
      free_list_set (class_index h) remaining;;
      write_link link (slab_next h);;
      st' ← trim_unmap link slab h removed remaining released_total;
      mret (inl st').

Definition trim_registry : prog hplf_allocator_state Z :=
  s ← get;
  iterate (list_fuel (memory_of s)) trim_step (link_head, 0).

Definition hplf_trim_quiescent : prog hplf_allocator_state Z :=
  error ← registry_lock;
  if negb (error =? 0) then mret 0
  else
    released_total ← trim_registry;
    registry_unlock;;
    mret released_total.
End allocator.
