(* ===== verification/Scripted.v ===== *)
(** * A concrete platform

    An instance of [Platform] that satisfies [PlatformLaws] and computes: [mmap]
    returns the first page above every existing mapping. Which calls fail is a
    script, so the error paths can be executed too. The closed examples and the
    witnesses of the theorems run on it. *)

From S2P Require Import Prelude CheckedMath SizeClass Memory OsMemory.

(** Which system calls fail, by call number. *)
Record script := Script {
  mmap_fails : nat -> bool;
  munmap_fails : nat -> bool;
  lock_fails : nat -> bool
}.

Definition never : nat -> bool := fun _ => false.
Definition all_succeed : script := Script never never never.

Definition DEMO_PAGE : Z := 4096.

(** The first address above every mapping. *)
Definition top_of (mappings : gmap Z Z) : Z :=
  map_fold (fun base len acc => Z.max acc (base + len)) 65536 mappings.

Definition scripted_mmap (sc : script) (t : nat) (mappings : gmap Z Z) (length : Z) : Z + Z :=
  let base := round_up (top_of mappings) DEMO_PAGE in
  if mmap_fails sc t || (ADDRESS_LIMIT <? base + length) then inr ENOMEM else inl base.

#[export] Instance scripted_platform (sc : script) : Platform := {
  sysconf_pagesize := DEMO_PAGE;
  sys_mmap := scripted_mmap sc;
  sys_munmap t _ _ := if munmap_fails sc t then Some EINVAL else None;
  sys_mutex_lock t := if lock_fails sc t then EINVAL else 0;
  sys_mutex_unlock _ := 0
}.

Definition production_build : Build := {| HPLF_TESTING := false |}.
Definition testing_build : Build := {| HPLF_TESTING := true |}.

(** The result and the state of a run that ended. *)
Definition result_or {S A} (default : A) (o : outcome S A) : A :=
  match o with Done a _ => a | _ => default end.
Definition state_or {S A} (default : S) (o : outcome S A) : S :=
  match o with Done _ s => s | _ => default end.

Ltac size_bounds := unfold is_size, SIZE_MAX, PTRDIFF_MAX, WORD in *; lia.

(** ** The laws hold *)

Lemma top_of_spec mappings :
  65536 <= top_of mappings /\ map_Forall (fun b l => b + l <= top_of mappings) mappings.
Proof.
  unfold top_of.
  apply (map_fold_weak_ind (fun (acc : Z) (m : gmap Z Z) =>
    65536 <= acc /\ map_Forall (fun b l => b + l <= acc) m) (fun base len acc => Z.max acc (base + len))).
  - split; [lia|]. apply map_Forall_empty.
  - intros i x m acc Hi [Hlo Hall]. split; [lia|]. intros b l. rewrite lookup_insert.
    case_decide; [intros [= <-]; subst; simpl; lia|]. intros Hb. specialize (Hall _ _ Hb). simpl in Hall. lia.
Qed.

#[export] Instance scripted_laws (sc : script) : @PlatformLaws (scripted_platform sc).
Proof.
  split.
  - done.
  - by exists 256.
  - intros t mappings length base Hlen. simpl. unfold scripted_mmap.
    destruct (mmap_fails sc t); simpl; [done|].
    destruct (Z.ltb_spec ADDRESS_LIMIT (round_up (top_of mappings) DEMO_PAGE + length)); [done|].
    intros [= <-]. destruct (top_of_spec mappings) as [Hlo Hall].
    pose proof (round_up_ge (top_of mappings) DEMO_PAGE ltac:(done)).
    split; [lia|]. split; [apply round_up_divide|]. split; [lia|].
    intros b l Hb. specialize (Hall _ _ Hb). simpl in Hall. lia.
  - done.
Qed.
