(* ===== verification/CoreProperties.v ===== *)
(** * Properties of the arithmetic, layout, mapping and slab layers

    The theorems about the components below the allocator, with their witnesses. *)

From S2P Require Import Prelude CheckedMath SizeClass Memory Layout Chain OsMemory Slab Arena SlabSpec.
From S2P Require Import Scripted.

(** Every size of the table's range gets the least class that fits, every other
    size none. *)
Definition least_class (size : Z) (r : option (Z * Z)) : Prop :=
  match r with
  | Some (index, capacity) =>
      1 <= size <= HPLF_MAX_SMALL_SIZE /\ is_class index capacity /\ size <= capacity /\
      (forall i c, is_class i c -> size <= c -> index <= i) /\
      via (hplf_size_class_capacity index) = Some capacity
  | None => size = 0 \/ HPLF_MAX_SMALL_SIZE < size
  end.

#[local] Existing Instance production_build.
#[local] Instance core_platform : Platform := scripted_platform all_succeed.
#[local] Instance core_laws : PlatformLaws := scripted_laws all_succeed.

Definition start_machine : machine := Machine empty_memory 0 0 zero_faults.


Lemma empty_arena_wf : arena_wf empty_memory.
Proof. split; intros *; cbn; rewrite ?lookup_empty; done. Qed.

(** ** Arithmetic *)

(** C37: the addition and multiplication guards detect overflow exactly: they
    return the true sum or product when it fits a [size_t], and otherwise fail
    leaving the output object as it was. *)
Theorem checked_arithmetic_exact (left right : Z) (old : option Z) :
  is_size left -> is_size right ->
  hplf_size_add left right (Cell old) =
    (if left + right <=? SIZE_MAX then (true, Cell (Some (left + right))) else (false, Cell old)) /\
  hplf_size_multiply left right (Cell old) =
    (if left * right <=? SIZE_MAX then (true, Cell (Some (left * right))) else (false, Cell old)).
Proof. intros. split; [by apply hplf_size_add_spec|by apply hplf_size_multiply_spec]. Qed.

Lemma checked_arithmetic_exact_witness :
  hplf_size_add SIZE_MAX 1 (Cell None) = (false, Cell None) /\
  hplf_size_multiply SIZE_MAX 1 (Cell None) = (true, Cell (Some SIZE_MAX)).
Proof.
  destruct (checked_arithmetic_exact SIZE_MAX 1 None) as [Ha Hm]; [size_bounds|size_bounds|].
  split; [exact Ha|exact Hm].
Defined.

(** C38: for every value and every multiple, zero included, rounding up returns the
    least multiple not below the value and fails exactly for the multiple zero or
    when that multiple does not fit; the power-of-two variant agrees for powers of
    two, exactly when no intermediate sum overflows, and rejects every other
    alignment, zero included; both write nothing on failure and reject a null
    output. *)
Theorem rounding_exact (value multiple : Z) (old : option Z) :
  is_size value -> is_size multiple ->
  hplf_size_round_up_multiple value multiple (Cell old) =
    (if (0 <? multiple) && (round_up value multiple <=? SIZE_MAX) then (true, Cell (Some (round_up value multiple)))
     else (false, Cell old)) /\
  (0 < multiple -> (multiple | round_up value multiple) /\ value <= round_up value multiple /\
     forall w, (multiple | w) -> value <= w -> round_up value multiple <= w) /\
  (forall k, 0 <= k -> multiple = 2 ^ k ->
     hplf_size_align_up_pow2 value multiple (Cell old) =
       (if value + (multiple - 1) <=? SIZE_MAX then (true, Cell (Some (round_up value multiple))) else (false, Cell old))) /\
  ((forall k, 0 <= k -> multiple <> 2 ^ k) -> hplf_size_align_up_pow2 value multiple (Cell old) = (false, Cell old)) /\
  hplf_size_round_up_multiple value multiple Null = (false, Null) /\
  hplf_size_align_up_pow2 value multiple Null = (false, Null).
Proof.
  intros Hv Hm. pose proof Hm as [Hm0 Hm1]. split_and!; [| | | |done|done].
  - destruct (Z.ltb_spec 0 multiple); [by apply hplf_size_round_up_multiple_spec|].
    replace multiple with 0 by lia. apply hplf_size_round_up_multiple_zero.
  - intros Hpos. pose proof (round_up_ge value multiple Hpos). split_and!; [apply round_up_divide|lia|].
    intros w. apply round_up_least. lia.
  - intros k Hk ->. apply hplf_size_align_up_pow2_spec; [|done]. split; [done|].
    apply (Z.pow_lt_mono_r_iff 2); [lia|lia|]. unfold SIZE_MAX, WORD in *. lia.
  - by apply hplf_size_align_up_pow2_rejects.
Qed.

Lemma rounding_exact_witness :
  hplf_size_round_up_multiple 13 10 (Cell None) = (true, Cell (Some 20)) /\
  hplf_size_round_up_multiple 0 0 (Cell None) = (false, Cell None) /\
  hplf_size_align_up_pow2 0 0 (Cell None) = (false, Cell None).
Proof.
  split; [exact (proj1 (rounding_exact 13 10 None ltac:(size_bounds) ltac:(size_bounds)))|].
  destruct (rounding_exact 0 0 None ltac:(size_bounds) ltac:(size_bounds)) as (Hr & _ & _ & Ha & _).
  split; [exact Hr|]. apply Ha. intros k Hk. pose proof (Z.pow_pos_nonneg 2 k). lia.
Defined.

(** ** Size classes and layouts *)

(** C39: the class search returns the least class whose capacity holds the size,
    with that class's capacity, and refuses exactly zero and sizes above the
    largest capacity. *)
Theorem size_class_search_least (size : Z) : is_size size -> least_class size (class_for size).
Proof.
  intros Hs. destruct (class_for size) as [[index capacity]|] eqn:E; [|by apply class_for_None].
  destruct (class_for_inv _ _ _ Hs E) as [Hc Hle].
  pose proof (is_class_capacity_bounds _ _ Hc) as [Hcap _].
  assert (Hb : 1 <= size <= HPLF_MAX_SMALL_SIZE) by lia.
  destruct (class_for_small size Hb) as (i & c & E' & ? & ? & ?). simplify_eq.
  split_and!; try done; try lia. by apply via_size_class_capacity.
Qed.

Lemma size_class_search_least_witness : least_class 4097 (class_for 4097).
Proof. apply (size_class_search_least 4097). size_bounds. Defined.

(** C35: for every capacity and page size a slab layout that is computed fits its
    mapping: aligned first slot behind the header, aligned strides that hold
    prefix and capacity, as many slots as fit, page-multiple length; and for every
    class of the table and any page size the computation succeeds. *)
Theorem slab_layout_sound (capacity page : Z) :
  0 < capacity <= SIZE_MAX -> 0 < page <= PTRDIFF_MAX ->
  (forall l, via (hplf_slab_layout_compute capacity page) = Some l -> slab_layout_ok capacity page l) /\
  (forall index, is_class index capacity -> is_Some (via (hplf_slab_layout_compute capacity page))).
Proof.
  intros Hc Hp. split.
  - intros l. apply slab_layout_compute_inv; [done|]. unfold PTRDIFF_MAX, SIZE_MAX, WORD in *. lia.
  - intros index Hi. destruct (slab_layout_compute_class _ _ _ Hi Hp) as (_ & _ & ->). by eexists.
Qed.

Lemma slab_layout_sound_witness : is_Some (via (hplf_slab_layout_compute 4096 4096)).
Proof.
  apply (proj2 (slab_layout_sound 4096 4096 ltac:(size_bounds) ltac:(size_bounds)) 15).
  split; [split; [lia|reflexivity]|reflexivity].
Defined.

(** C36: a large layout is computed exactly when the request is nonzero and prefix
    plus request, rounded up to pages, fits a [size_t]; the mapping then holds
    prefix and request. *)
Theorem large_layout_exact (requested page : Z) :
  is_size requested -> 0 < page <= SIZE_MAX ->
  match via (hplf_large_layout_compute requested page) with
  | Some l => 0 < requested /\ large_payload_offset l = PREFIX /\ (page | large_mapping_length l) /\
              PREFIX + requested <= large_mapping_length l < PREFIX + requested + page /\
              large_mapping_length l <= SIZE_MAX
  | None => requested = 0 \/ SIZE_MAX < round_up (PREFIX + requested) page
  end.
Proof.
  intros Hr Hp. rewrite via_large_layout by done.
  pose proof (round_up_ge (PREFIX + requested) page ltac:(lia)). unfold is_size in Hr.
  destruct (Z.ltb_spec 0 requested); simpl; [|left; lia].
  destruct (Z.leb_spec (round_up (PREFIX + requested) page) SIZE_MAX); simpl; [|right; lia].
  split_and!; try done; try lia. apply round_up_divide.
Qed.

Lemma large_layout_exact_witness :
  match via (hplf_large_layout_compute 5000 4096) with
  | Some l => large_payload_offset l = PREFIX | None => False end.
Proof.
  pose proof (large_layout_exact 5000 4096 ltac:(size_bounds) ltac:(size_bounds)) as Hl.
  destruct (via (hplf_large_layout_compute 5000 4096)) eqn:E; [by apply Hl|].
  vm_compute in E. discriminate E.
Defined.

(** From a block to its payload and back is the identity, the payload is never
    null, and null maps to null both ways. *)
Theorem block_payload_inverse (block : Z) :
  0 < block ->
  hplf_block_payload block <> NULL /\ hplf_block_from_payload (hplf_block_payload block) = block /\
  hplf_block_payload NULL = NULL /\ hplf_block_from_payload NULL = NULL.
Proof. intros Hb. destruct (block_payload_roundtrip _ Hb). done. Qed.

Lemma block_payload_inverse_witness : hplf_block_from_payload (hplf_block_payload 65536) = 65536.
Proof. apply (block_payload_inverse 65536). lia. Defined.

(** ** Mappings and slabs *)

Section properties.
Context `{Build, Platform, !PlatformLaws}.

(** C40: a map request returns a whole number of pages in a region apart from
    every mapping and filled with zero bytes, or fails without touching memory or
    the output. *)
Theorem os_map_fresh_or_nothing (len : Z) (old : option hplf_os_mapping) (s : machine) :
  0 < len <= SIZE_MAX ->
  exists ok out s', hplf_os_map len (Cell old) s = Done (ok, out) s' /\
    if (ok : bool) then exists mp, out = Cell (Some mp) /\ os_length mp = round_up len sysconf_pagesize /\
      newly_mapped (mem s) (mem s') mp /\
      forall i, 0 <= i < os_length mp -> byte_at (mem s') (os_base mp + i) = 0
    else out = Cell old /\ mem s' = mem s.
Proof.
  intros Hl. destruct (wp_run _ _ _ (wp_os_map len old s Hl)) as ([ok out] & s' & E & Hpost).
  exists ok, out, s'. split; [done|]. destruct ok; [|done].
  destruct Hpost as (mp & -> & Hlen & Hnew). exists mp. split_and!; try done.
  intros i Hi. destruct Hnew as (_ & _ & ->). rewrite byte_at_map_region.
  rewrite decide_True; [done|]. unfold inside. lia.
Qed.

(** Unmapping a mapping removes exactly it and reports its length, or fails
    without touching memory, and only when a fault was injected or the kernel
    refused. *)
Theorem os_unmap_exact (base len : Z) (old : option Z) (s : machine) :
  maps (mem s) !! base = Some len -> base <> NULL -> len <> 0 ->
  exists ok mp out s', hplf_os_unmap (Some (Mapping base len)) (Cell old) s = Done (ok, mp, out) s' /\
    if (ok : bool) then mp = Some (Mapping NULL 0) /\ out = Cell (Some len) /\ mem s' = unmap_region base len (mem s)
    else mp = Some (Mapping base len) /\ out = Cell old /\ mem s' = mem s /\ unmap_can_fail.
Proof.
  intros Hm Hb Hl. destruct (wp_run _ _ _ (wp_os_unmap base len old s Hm Hb Hl)) as ([[ok mp] out] & s' & E & Hpost).
  exists ok, mp, out, s'. split; [done|]. by destruct ok.
Qed.

(** C33: creating a slab of a class adds one mapping whose header and slots are
    fully initialised, with a private chain through all its slots, each free; it
    keeps every old object and byte; or it fails leaving memory as it was. *)
Theorem slab_create_correct (c cap : Z) (s : machine) :
  arena_wf (mem s) -> is_class c cap ->
  exists ok out1 out2 s', hplf_slab_create c cap (Cell None) (Cell None) s = Done (ok, out1, out2) s' /\
    if (ok : bool) then exists a head h l, out1 = Cell (Some a) /\ out2 = Cell (Some head) /\
      slab_created (mem s) (mem s') c a head h l
    else mem s' = mem s.
Proof.
  intros Hwf Hc. destruct (wp_run _ _ _ (wp_slab_create c cap None None s Hwf Hc)) as ([[ok o1] o2] & s' & E & Hpost).
  exists ok, o1, o2, s'. split; [done|]. destruct ok; [done|]. apply Hpost.
Qed.

(** C34: the payloads of a new slab's blocks do not overlap one another, the payload of
    any other block, or any header or prefix; each holds the class's capacity inside
    the slab's mapping, behind the header, and is aligned for any fundamental type. *)
Theorem slab_payloads_separate (c cap : Z) (s s' : machine) (out1 out2 : cell Z) :
  arena_wf (mem s) -> is_class c cap ->
  hplf_slab_create c cap (Cell None) (Cell None) s = Done (true, out1, out2) s' ->
  exists a head l, out1 = Cell (Some a) /\ out2 = Cell (Some head) /\ chain (block_next (objs (mem s'))) head l /\
    forall k, k ∈ l ->
      (HPLF_PAYLOAD_ALIGNMENT | hplf_block_payload k) /\ accessible (mem s') (hplf_block_payload k) cap /\
      a + sizeof_hplf_slab <= k /\ k + sizeof_hplf_block <= hplf_block_payload k /\
      (exists len, maps (mem s') !! a = Some len /\ hplf_block_payload k + cap <= a + len) /\
      forall k' b', objs (mem s') !! k' = Some (OBlock b') -> k' <> k ->
        hplf_block_payload k + cap <= hplf_block_payload k' \/
        hplf_block_payload k' + capacity b' <= hplf_block_payload k.
Proof.
  intros Hwf Hc E. destruct (wp_done _ _ _ _ _ (wp_slab_create c cap None None s Hwf Hc) E) as (a & head & h & l & -> & -> & SC).
  exists a, head, l. split_and!; [done|done|by eapply sc_chain|]. intros k Hk. by eapply created_payload.
Qed.
End properties.

(** ** Witnesses on the scripted platform *)

Lemma os_map_fresh_or_nothing_witness :
  exists ok out s', hplf_os_map 10000 (Cell None) start_machine = Done (ok, out) s' /\
    if (ok : bool) then exists mp, out = Cell (Some mp) /\ os_length mp = round_up 10000 sysconf_pagesize /\
      newly_mapped (mem start_machine) (mem s') mp /\
      forall i, 0 <= i < os_length mp -> byte_at (mem s') (os_base mp + i) = 0
    else out = Cell None /\ mem s' = mem start_machine.
Proof. apply (os_map_fresh_or_nothing 10000 None start_machine). size_bounds. Defined.

Lemma os_unmap_exact_witness :
  exists ok mp out s', hplf_os_unmap (Some (Mapping 65536 8192)) (Cell None)
    (Machine (map_region 65536 8192 empty_memory) 0 0 zero_faults) = Done (ok, mp, out) s' /\
    if (ok : bool) then mp = Some (Mapping NULL 0) /\ out = Cell (Some 8192) /\
      mem s' = unmap_region 65536 8192 (map_region 65536 8192 empty_memory)
    else mp = Some (Mapping 65536 8192) /\ out = Cell None /\
      mem s' = map_region 65536 8192 empty_memory /\ unmap_can_fail.
Proof.
  apply (os_unmap_exact 65536 8192 None (Machine (map_region 65536 8192 empty_memory) 0 0 zero_faults));
    [reflexivity|done|done].
Defined.

Lemma slab_create_correct_witness :
  exists ok out1 out2 s', hplf_slab_create 3 64 (Cell None) (Cell None) start_machine = Done (ok, out1, out2) s' /\
    if (ok : bool) then exists a head h l, out1 = Cell (Some a) /\ out2 = Cell (Some head) /\
      slab_created (mem start_machine) (mem s') 3 a head h l
    else mem s' = mem start_machine.
Proof.
  apply (slab_create_correct 3 64 start_machine); [apply empty_arena_wf|].
  split; [split; [lia|reflexivity]|reflexivity].
Defined.

(** The memory after one slab of the class of 64 bytes was created. *)
Definition one_slab_run := hplf_slab_create 3 64 (Cell None) (Cell None) start_machine.
Definition one_slab : memory := mem (state_or start_machine one_slab_run).

Lemma slab_payloads_separate_witness :
  exists a head l, Cell (Some 65536) = Cell (Some a) /\ Cell (Some 130896) = Cell (Some head) /\
    chain (block_next (objs one_slab)) head l /\
    forall k, k ∈ l ->
      (HPLF_PAYLOAD_ALIGNMENT | hplf_block_payload k) /\ accessible one_slab (hplf_block_payload k) 64 /\
      a + sizeof_hplf_slab <= k /\ k + sizeof_hplf_block <= hplf_block_payload k /\
      (exists len, maps one_slab !! a = Some len /\ hplf_block_payload k + 64 <= a + len) /\
      forall k' b', objs one_slab !! k' = Some (OBlock b') -> k' <> k ->
        hplf_block_payload k + 64 <= hplf_block_payload k' \/ hplf_block_payload k' + capacity b' <= hplf_block_payload k.
Proof.
  apply (slab_payloads_separate 3 64 start_machine (state_or start_machine one_slab_run) (Cell (Some 65536)) (Cell (Some 130896)));
    [apply empty_arena_wf|split; [split; [lia|reflexivity]|reflexivity]|vm_compute; reflexivity].
Defined.
