(* ===== verification/FreeLists.v ===== *)
(** * Free lists and the slab registry

    The part of the invariant that links the free lists and the registry to the
    arena: the list of a class holds exactly the free blocks of that class, the
    registry holds exactly the slabs. Popping, pushing and adding a slab preserve
    it. Shared by the locked and the cached variants. *)

From S2P Require Import Prelude CheckedMath SizeClass Memory Layout Chain OsMemory Slab Arena SlabSpec.
From S2P Require Import LockedAllocator.

(** [head] heads a chain of exactly the free blocks of class [c]. *)
Definition class_list (os : gmap Z object) (head c : Z) (l : list Z) : Prop :=
  chain (block_next os) head l /\ forall b, b ∈ l <-> free_in_class os c b.

(** [head] heads a chain of exactly the slabs. *)
Definition registry_ok (os : gmap Z object) (head : Z) : Prop :=
  exists sl, chain (slab_next_of os) head sl /\
             forall a, a ∈ sl <-> exists h, os !! a = Some (OSlab h).

Record lists_inv `{Platform} (m : memory) (lists : list Z) (registry : Z) : Prop := {
  ls_arena : arena_wf m;
  ls_registry : registry_ok (objs m) registry;
  ls_length : Z.of_nat (length lists) = HPLF_SIZE_CLASS_COUNT;
  ls_lists : forall c head, array_get lists c = Some head -> exists l, class_list (objs m) head c l
}.

(** ** Arrays *)

Lemma array_get_Some l i v : array_get l i = Some v <-> 0 <= i /\ l !! Z.to_nat i = Some v.
Proof. unfold array_get. destruct (Z.leb_spec 0 i); naive_solver lia. Qed.

Lemma array_get_insert l i j v :
  0 <= i < Z.of_nat (length l) -> 
  array_get (<[Z.to_nat i := v]> l) j = if decide (i = j) then Some v else array_get l j.
Proof.
  intros Hi. unfold array_get. destruct (Z.leb_spec 0 j).
  - case_decide as E; [subst; apply list_lookup_insert_eq; lia|].
    apply list_lookup_insert_ne. lia.
  - by rewrite decide_False by lia.
Qed.

Lemma array_get_class lists c :
  Z.of_nat (length lists) = HPLF_SIZE_CLASS_COUNT -> 0 <= c < HPLF_SIZE_CLASS_COUNT ->
  exists head, array_get lists c = Some head.
Proof.
  intros Hl Hc. destruct (lookup_lt_is_Some_2 lists (Z.to_nat c)) as [h Hh]; [lia|].
  exists h. apply array_get_Some. split; [lia|done].
Qed.

Lemma array_get_range lists c head :
  Z.of_nat (length lists) = HPLF_SIZE_CLASS_COUNT -> array_get lists c = Some head ->
  0 <= c < HPLF_SIZE_CLASS_COUNT.
Proof. intros Hl [? Hh]%array_get_Some. apply lookup_lt_Some in Hh. lia. Qed.

(** ** Free blocks *)

Section free_blocks.
Implicit Types (os : gmap Z object).

Lemma free_in_class_functional os c1 c2 b : free_in_class os c1 b -> free_in_class os c2 b -> c1 = c2.
Proof. intros (x & a & h & ? & _ & _ & ? & ? & <-) (x' & a' & h' & ? & _ & _ & ? & ? & <-). congruence. Qed.

Lemma free_in_class_insert_ne os k b b' c x :
  os !! k = Some (OBlock b) -> x <> k ->
  free_in_class (<[k := OBlock b']> os) c x <-> free_in_class os c x.
Proof.
  intros Hk Hne. unfold free_in_class.
  split; intros (blk & a & h & Hx & ? & ? & ? & Ha & ?); exists blk, a, h; split_and!; try done.
  - by rewrite lookup_insert_ne in Hx.
  - rewrite lookup_insert in Ha. by case_decide.
  - by rewrite lookup_insert_ne.
  - rewrite lookup_insert_ne by congruence. done.
Qed.

Lemma free_in_class_insert_live os k b' c :
  requested_size b' <> 0 -> ~ free_in_class (<[k := OBlock b']> os) c k.
Proof. intros Hr (blk & a & h & Hk & _ & Hz & _). rewrite lookup_insert_eq in Hk. congruence. Qed.

Lemma free_in_class_insert_free os k b b' a h c :
  os !! k = Some (OBlock b) -> kind b' = HPLF_BLOCK_SMALL -> owner b' = owner_small a ->
  os !! a = Some (OSlab h) -> requested_size b' = 0 ->
  free_in_class (<[k := OBlock b']> os) c k <-> c = class_index h.
Proof.
  intros Hk Hkind Ho Ha Hr. assert (k <> a) by congruence. split.
  - intros (blk & a' & h' & Hk' & _ & _ & Ho' & Ha' & <-). rewrite lookup_insert_eq in Hk'. simplify_eq.
    rewrite Ho in Ho'. simplify_eq. rewrite lookup_insert_ne in Ha' by done. congruence.
  - intros ->. exists b', a, h. split_and!; try done; [apply lookup_insert_eq|].
    by rewrite lookup_insert_ne.
Qed.

Lemma free_in_class_update_slab os a h q c x :
  os !! a = Some (OSlab h) ->
  free_in_class (<[a := OSlab (set_slab_next q h)]> os) c x <-> free_in_class os c x.
Proof.
  intros Ha. unfold free_in_class. split; intros (blk & a' & h' & Hx & ? & ? & ? & Ha' & ?).
  - rewrite lookup_insert in Hx. case_decide; [done|]. rewrite lookup_insert in Ha'. case_decide.
    + simplify_eq. exists blk, a', h. done.
    + exists blk, a', h'. done.
  - destruct (decide (a = a')) as [->|].
    + exists blk, a', (set_slab_next q h). rewrite lookup_insert_ne by congruence.
      rewrite lookup_insert_eq. split_and!; try done. simpl. congruence.
    + exists blk, a', h'. by rewrite !lookup_insert_ne by congruence.
Qed.
End free_blocks.

(** ** Class lists under updates *)

Section class_lists.
Implicit Types (os : gmap Z object) (l : list Z).

Lemma class_list_NULL os c l : class_list os NULL c l -> l = [].
Proof. intros [Hc _]. by eapply chain_NULL. Qed.

(** Updating a block that is and stays outside the class keeps the list. *)
Lemma class_list_insert_other os k b b' head c l :
  os !! k = Some (OBlock b) -> k ∉ l -> ~ free_in_class (<[k := OBlock b']> os) c k ->
  class_list os head c l -> class_list (<[k := OBlock b']> os) head c l.
Proof.
  intros Hk Hl Hnf [Hch Hin]. split; [by apply block_chain_insert_ne|].
  intros x. destruct (Z.eq_dec x k) as [->|Hne]; [naive_solver|].
  rewrite (free_in_class_insert_ne _ _ _ _ _ _ Hk Hne). apply Hin.
Qed.

(** Popping: the head block leaves its class. *)
Lemma class_list_pop os k b b' c l :
  os !! k = Some (OBlock b) -> requested_size b' <> 0 ->
  class_list os k c (k :: l) -> class_list (<[k := OBlock b']> os) (next_free b) c l.
Proof.
  intros Hk Hr [(_ & Hnull & q & Hq & Hch) Hin].
  apply block_next_Some in Hq as (b0 & Hb0 & <-). simplify_eq.
  assert (Hnd : NoDup (k :: l)).
  { eapply (chain_NoDup (block_next os) k). simpl. split; [done|]. split; [done|].
    eexists. split; [|done]. apply block_next_Some. by eexists. }
  apply NoDup_cons in Hnd as [Hkl _].
  split; [by apply block_chain_insert_ne|]. intros x. destruct (Z.eq_dec x k) as [->|Hne].
  - split; [done|]. intros Hf. by apply free_in_class_insert_live in Hf.
  - rewrite (free_in_class_insert_ne _ _ _ _ _ _ Hk Hne), <- Hin, elem_of_cons. naive_solver.
Qed.

(** Pushing: a block that becomes free joins its class in front. *)
Lemma class_list_push os k b b' a h head l :
  os !! k = Some (OBlock b) -> k <> NULL -> kind b' = HPLF_BLOCK_SMALL -> owner b' = owner_small a ->
  os !! a = Some (OSlab h) -> requested_size b' = 0 -> next_free b' = head -> k ∉ l ->
  class_list os head (class_index h) l ->
  class_list (<[k := OBlock b']> os) k (class_index h) (k :: l).
Proof.
  intros Hk Hnull Hkind Ho Ha Hr Hn Hkl [Hch Hin]. split.
  - simpl. split; [done|]. split; [done|]. exists head. split.
    + rewrite block_next_insert, decide_True by done. by rewrite Hn.
    + by apply block_chain_insert_ne.
  - intros x. rewrite elem_of_cons. destruct (Z.eq_dec x k) as [->|Hne].
    + rewrite (free_in_class_insert_free _ _ _ _ _ _ _ Hk Hkind Ho Ha Hr). naive_solver.
    + rewrite (free_in_class_insert_ne _ _ _ _ _ _ Hk Hne), <- Hin. naive_solver.
Qed.

Lemma class_list_update_slab os a h q head c l :
  os !! a = Some (OSlab h) -> class_list os head c l ->
  class_list (<[a := OSlab (set_slab_next q h)]> os) head c l.
Proof.
  intros Ha [Hch Hin]. split.
  - eapply chain_ext; [done|]. intros b _. unfold block_next, block_at. rewrite lookup_insert.
    case_decide; [|done]. subst. by rewrite Ha.
  - intros x. by rewrite (free_in_class_update_slab _ _ _ _ _ _ Ha).
Qed.

Lemma registry_insert_block os k b b' head :
  os !! k = Some (OBlock b) -> registry_ok os head -> registry_ok (<[k := OBlock b']> os) head.
Proof.
  intros Hk (sl & Hch & Hin). exists sl. split; [by eapply slab_chain_insert_block|].
  intros a. rewrite Hin. rewrite lookup_insert. case_decide; [subst; rewrite Hk; naive_solver|done].
Qed.
End class_lists.

(** ** The invariant under the allocator's moves *)

Section moves.
Context `{Build, Platform, !PlatformLaws}.
Implicit Types (m : memory) (lists : list Z).

Lemma free_block_inv m c b :
  arena_wf m -> free_in_class (objs m) c b ->
  exists blk a h i, small_ok m b blk a h i /\ class_index h = c /\ requested_size blk = 0 /\
    objs m !! b = Some (OBlock blk) /\ is_class c (capacity blk).
Proof.
  intros Hwf (blk & a & h & Hb & Hk & Hr & Ho & Ha & <-).
  pose proof (aw_objs _ Hwf _ _ Hb) as [(a' & h' & i & S)|L]; [|destruct L; congruence].
  pose proof (sm_owner _ _ _ _ _ _ S) as Ho'. pose proof (sm_slab _ _ _ _ _ _ S) as Ha'.
  assert (a' = a) as -> by congruence. assert (h' = h) as -> by congruence.
  exists blk, a, h, i. split_and!; try done.
  rewrite (sm_capacity _ _ _ _ _ _ S). pose proof (aw_objs _ Hwf _ _ Ha). by eapply sk_class.
Qed.

(** The head of a nonempty list is a free block of the class. *)
Lemma class_list_head m c head l :
  arena_wf m -> class_list (objs m) head c l -> head <> NULL ->
  exists blk l', l = head :: l' /\ objs m !! head = Some (OBlock blk) /\ requested_size blk = 0 /\
    kind blk = HPLF_BLOCK_SMALL /\ is_class c (capacity blk).
Proof.
  intros Hwf [Hch Hin] Hne. destruct (chain_head _ _ _ Hch Hne) as [l' ->].
  assert (Hf : free_in_class (objs m) c head) by (apply Hin; left).
  destruct (free_block_inv _ _ _ Hwf Hf) as (blk & a & h & i & S & _ & ? & ? & ?).
  exists blk, l'. split_and!; try done. apply S.
Qed.

Definition popped (n : Z) (b : hplf_block) : hplf_block := set_requested_size n (set_next_free NULL b).

Lemma lists_inv_pop m lists registry c head n :
  lists_inv m lists registry -> array_get lists c = Some head -> head <> NULL ->
  (forall cap, is_class c cap -> 1 <= n <= cap) ->
  exists b, objs m !! head = Some (OBlock b) /\ requested_size b = 0 /\ is_class c (capacity b) /\
    lists_inv (set_objs <[head := OBlock (popped n b)]> m) (<[Z.to_nat c := next_free b]> lists) registry.
Proof.
  intros [Hwf Hreg Hlen Hls] Hget Hne Hn.
  destruct (Hls _ _ Hget) as [l Hl].
  destruct (class_list_head _ _ _ _ Hwf Hl Hne) as (b & l' & -> & Hb & Hz & Hk & Hcl).
  specialize (Hn _ Hcl). exists b. split_and!; [done..|]. split; simpl.
  - eapply arena_wf_update_block; [done|done|done|simpl; lia|simpl; lia].
  - by eapply registry_insert_block.
  - by rewrite length_insert.
  - intros c' head'. pose proof (array_get_range _ _ _ Hlen Hget).
    rewrite array_get_insert by lia. case_decide as E.
    + intros [= <-]. subst c'. exists l'. eapply class_list_pop; [done|simpl; lia|done].
    + intros Hget'. destruct (Hls _ _ Hget') as [l2 Hl2]. exists l2.
      eapply class_list_insert_other; [done| | |done].
      * intros Hin. apply Hl2 in Hin. apply E. eapply free_in_class_functional; [|done]. apply Hl. left.
      * apply free_in_class_insert_live. simpl. lia.
Qed.

Definition pushed (head : Z) (b : hplf_block) : hplf_block := set_next_free head (set_requested_size 0 b).

Lemma lists_inv_push m lists registry k b a h head :
  lists_inv m lists registry -> objs m !! k = Some (OBlock b) -> requested_size b <> 0 ->
  kind b = HPLF_BLOCK_SMALL -> owner b = owner_small a -> objs m !! a = Some (OSlab h) ->
  array_get lists (class_index h) = Some head ->
  lists_inv (set_objs <[k := OBlock (pushed head b)]> m) (<[Z.to_nat (class_index h) := k]> lists) registry.
Proof.
  intros [Hwf Hreg Hlen Hls] Hb Hr Hk Ho Ha Hget.
  assert (Hkn : k <> NULL) by (by eapply block_not_NULL).
  assert (Hout : forall c (l : list Z), (forall x, x ∈ l <-> free_in_class (objs m) c x) -> k ∉ l).
  { intros c l Hin Hkl. apply Hin in Hkl as (blk & ? & ? & ? & _ & ? & _). congruence. }
  pose proof (extent_pos _ _ _ Hwf Hb) as Hcap. simpl in Hcap. change sizeof_hplf_block with 48 in Hcap.
  split; simpl.
  - eapply arena_wf_update_block; [done|done|done|simpl; unfold PREFIX in *; lia|simpl; congruence].
  - by eapply registry_insert_block.
  - by rewrite length_insert.
  - intros c' head'. pose proof (array_get_range _ _ _ Hlen Hget).
    rewrite array_get_insert by lia. case_decide as E.
    + intros [= <-]. subst c'. destruct (Hls _ _ Hget) as [l Hl]. exists (k :: l).
      eapply class_list_push; try done. by eapply Hout, Hl.
    + intros Hget'. destruct (Hls _ _ Hget') as [l2 Hl2]. exists l2.
      eapply class_list_insert_other; [done|by eapply Hout, Hl2| |done].
      rewrite (free_in_class_insert_free _ k b (pushed head b) a h c' Hb) by done. congruence.
Qed.

(** The free blocks after a slab was created: its chain, and the old ones. *)
Lemma slab_created_free m m' c a head h l c' x :
  arena_wf m -> slab_created m m' c a head h l ->
  free_in_class (objs m') c' x <-> free_in_class (objs m) c' x \/ (c' = c /\ x ∈ l).
Proof.
  intros Hwf SC. split.
  - intros (blk & a' & h' & Hx & Hk & Hr & Ho & Ha & <-).
    destruct (sc_new _ _ _ _ _ _ _ SC _ _ Hx) as [Hold|[->|Hl]].
    + left. pose proof (aw_objs _ Hwf _ _ Hold) as [(a2 & h2 & i & S)|L]; [|destruct L; congruence].
      pose proof (sm_owner _ _ _ _ _ _ S). pose proof (sm_slab _ _ _ _ _ _ S) as Ha2.
      pose proof (sc_old _ _ _ _ _ _ _ SC _ _ Ha2).
      exists blk, a2, h2. split_and!; try done; congruence.
    + pose proof (sc_slab _ _ _ _ _ _ _ SC). congruence.
    + right. destruct (sc_free _ _ _ _ _ _ _ SC _ Hl) as (blk' & Hx' & _ & Ho' & _). simplify_eq.
      pose proof (sc_slab _ _ _ _ _ _ _ SC). pose proof (sc_class _ _ _ _ _ _ _ SC). split; [congruence|done].
  - intros [(blk & a' & h' & Hx & ? & ? & ? & Ha & ?)|[-> Hl]].
    + exists blk, a', h'. split_and!; try done; by eapply sc_old.
    + destruct (sc_free _ _ _ _ _ _ _ SC _ Hl) as (blk & ? & ? & ? & ?). exists blk, a, h.
      split_and!; try done; [by eapply sc_slab|by eapply sc_class].
Qed.

(** A created slab joins the registry in front. *)
Lemma registry_new_slab m m' registry c a head h l :
  registry_ok (objs m) registry -> slab_created m m' c a head h l ->
  registry_ok (<[a := OSlab (set_slab_next registry h)]> (objs m')) a.
Proof.
  intros Hreg SC. pose proof (sc_slab _ _ _ _ _ _ _ SC) as Ha. pose proof (sc_fresh _ _ _ _ _ _ _ SC) as Hfr.
  destruct Hreg as (sl & Hch & Hin). exists (a :: sl).
  assert (Hnot : a ∉ sl) by (intros [h' ?]%Hin; congruence). split.
  + pose proof (object_address_pos _ _ _ (sc_wf _ _ _ _ _ _ _ SC) Ha). simpl. split; [done|].
    split; [unfold NULL; lia|]. exists registry. split.
    * apply slab_next_Some. rewrite lookup_insert_eq. by eexists.
    * eapply chain_ext; [done|]. intros x Hx. unfold slab_next_of, slab_at.
      rewrite lookup_insert_ne by congruence. apply Hin in Hx as [h' Hh'].
      by rewrite (sc_old _ _ _ _ _ _ _ SC _ _ Hh'), Hh'.
  + intros x. rewrite elem_of_cons, Hin, lookup_insert. case_decide as E.
    * subst. split; [eauto|by left].
    * split.
      -- intros [->|[h' Hh']]; [done|]. exists h'. by eapply sc_old.
      -- intros [h' Hh']. right. exists h'. destruct (sc_new _ _ _ _ _ _ _ SC _ _ Hh') as [|[->|Hl]]; [done..|].
         destruct (sc_free _ _ _ _ _ _ _ SC _ Hl) as (? & ? & _). congruence.
Qed.

Lemma lists_inv_new_slab m m' lists registry c a head h l :
  lists_inv m lists registry -> array_get lists c = Some NULL ->
  slab_created m m' c a head h l ->
  lists_inv (set_objs <[a := OSlab (set_slab_next registry h)]> m') (<[Z.to_nat c := head]> lists) a.
Proof.
  intros [Hwf Hreg Hlen Hls] Hget SC.
  pose proof (sc_slab _ _ _ _ _ _ _ SC) as Ha. pose proof (sc_fresh _ _ _ _ _ _ _ SC) as Hfr.
  split; simpl.
  - eapply arena_wf_update_slab_next; [by eapply sc_wf|done].
  - by eapply registry_new_slab.
  - by rewrite length_insert.
  - intros c' head'. pose proof (array_get_range _ _ _ Hlen Hget).
    rewrite array_get_insert by lia. case_decide as E.
    + intros [= <-]. subst c'. exists l. apply class_list_update_slab; [done|].
      split; [by eapply sc_chain|]. intros x. rewrite (slab_created_free _ _ _ _ _ _ _ _ _ Hwf SC).
      destruct (Hls _ _ Hget) as [l0 Hl0]. pose proof (class_list_NULL _ _ _ Hl0) as ->.
      destruct Hl0 as [_ Hl0]. rewrite <- Hl0. rewrite elem_of_nil. naive_solver.
    + intros Hget'. destruct (Hls _ _ Hget') as [l2 [Hch2 Hin2]]. exists l2.
      apply class_list_update_slab; [done|]. split.
      * eapply chain_ext; [done|]. intros x Hx.
        pose proof (block_chain_is_Some _ _ _ _ Hch2 Hx) as [o Ho].
        unfold block_next, block_at. by rewrite (sc_old _ _ _ _ _ _ _ SC _ _ Ho), Ho.
      * intros x. rewrite Hin2, (slab_created_free _ _ _ _ _ _ _ _ _ Hwf SC). naive_solver.
Qed.
End moves.
