(* ===== verification/LockedSpec.v ===== *)
(** * The locked allocator meets its contract: allocation and release

    Total-correctness specifications of [hplf_malloc] and [hplf_free] of the
    locked variant against the invariant [locked_wf]. *)

From S2P Require Import Prelude CheckedMath SizeClass Memory Layout Chain OsMemory Slab Arena SlabSpec.
From S2P Require Import LockedAllocator FreeLists.

(** ** Effects on memory *)

(** Blocks live before and after keep their headers and their payload bytes. *)
Definition preserved (m m' : memory) : Prop :=
  forall k n, live (objs m) !! k = Some n -> live (objs m') !! k = Some n ->
    objs m' !! k = objs m !! k /\
    forall i, 0 <= i < n -> byte_at m' (k + PREFIX + i) = byte_at m (k + PREFIX + i).

(** [p] is the payload of a new live block of [n] requested bytes. *)
Record allocated (m m' : memory) (n p : Z) : Prop := {
  al_block : exists b, objs m' !! (p - PREFIX) = Some (OBlock b) /\ requested_size b = n /\
                       1 <= n <= capacity b /\ PREFIX < p;
  al_new : live (objs m) !! (p - PREFIX) = None;
  al_live : live (objs m') = <[p - PREFIX := n]> (live (objs m));
  al_preserved : preserved m m'
}.

(** The block at [k] is not live any more; nothing else changed. *)
Record released (m m' : memory) (k : Z) : Prop := {
  re_live : live (objs m') = delete k (live (objs m));
  re_preserved : preserved m m'
}.

Section spec.
Context `{Build, Platform, !PlatformLaws}.
Implicit Types (s : hplf_allocator_state) (m : memory).

Definition locked_wf s : Prop :=
  registry_held s = false /\ lists_inv (memory_of s) (free_lists s) (slabs s).

(** The allocator's data, as opposed to [errno], counters and the lock. *)
Definition same_core s s' : Prop :=
  memory_of s' = memory_of s /\ free_lists s' = free_lists s /\ slabs s' = slabs s.

Lemma preserved_refl m : preserved m m.
Proof. done. Qed.

(** ** Locks and small wrappers *)

(** The answer of the lock is that of this very call. *)
Lemma wp_registry_lock_exact (Q : Z -> hplf_allocator_state -> Prop) s :
  registry_held s = false ->
  (forall s', same_core s s' -> errno (mach s') = errno (mach s) ->
     registry_held s' = (sys_mutex_lock (sys_calls (mach s)) =? 0) -> Q (sys_mutex_lock (sys_calls (mach s))) s') ->
  wp registry_lock Q s.
Proof.
  intros Hh HQ. unfold registry_lock, on_machine, tick. wp_steps. rewrite Hh.
  destruct (Z.eqb_spec (sys_mutex_lock (sys_calls (mach s))) 0) as [E|E]; wp_steps; [rewrite E in HQ|]; by apply HQ.
Qed.

Lemma wp_registry_lock (Q : Z -> hplf_allocator_state -> Prop) s :
  registry_held s = false ->
  (forall s', same_core s s' -> registry_held s' = true -> Q 0 s') ->
  (forall s' t, same_core s s' -> registry_held s' = false -> errno (mach s') = errno (mach s) ->
     sys_mutex_lock t <> 0 -> Q (sys_mutex_lock t) s') ->
  wp registry_lock Q s.
Proof.
  intros Hh Hok Herr. apply wp_registry_lock_exact; [done|]. intros s' Hc He Hr.
  destruct (Z.eqb_spec (sys_mutex_lock (sys_calls (mach s))) 0) as [E|E]; [rewrite E; by apply Hok|by apply Herr].
Qed.

Lemma wp_registry_unlock (Q : Z -> hplf_allocator_state -> Prop) s :
  registry_held s = true ->
  (forall s', same_core s s' -> registry_held s' = false -> errno (mach s') = errno (mach s) -> Q 0 s') ->
  wp registry_unlock Q s.
Proof.
  intros Hh Hok. unfold registry_unlock, on_machine, tick. wp_steps; [done|].
  rewrite mutex_unlock_succeeds. simpl. wp_steps. by apply Hok.
Qed.

Lemma wp_free_list_get c head (Q : Z -> hplf_allocator_state -> Prop) s :
  array_get (free_lists s) c = Some head -> Q head s -> wp (free_list_get c) Q s.
Proof. intros. unfold free_list_get. wp_steps. by eapply wp_known. Qed.

Lemma wp_free_list_set c old head (Q : unit -> hplf_allocator_state -> Prop) s :
  array_get (free_lists s) c = Some old ->
  Q tt (set_free_lists (<[Z.to_nat c := head]> (free_lists s)) s) -> wp (free_list_set c head) Q s.
Proof. intros. unfold free_list_set. wp_steps. by eapply wp_known. Qed.

Lemma wp_on_mem {A} (p : prog memory A) (Q : A -> hplf_allocator_state -> Prop) s :
  wp p (fun a m => Q a (set_mach (set_mem m (mach s)) s)) (memory_of s) -> wp (on_mem p) Q s.
Proof. intros. unfold on_mem, on_machine, on_memory. by wp_steps. Qed.

Lemma wp_on_machine {A} (p : prog machine A) (Q : A -> hplf_allocator_state -> Prop) s :
  wp p (fun a t => Q a (set_mach t s)) (mach s) -> wp (on_machine p) Q s.
Proof. intros. unfold on_machine. by wp_steps. Qed.

Lemma wp_set_errno_a e (Q : unit -> hplf_allocator_state -> Prop) s :
  Q tt (set_mach (put_errno e (mach s)) s) -> wp (set_errno_a e) Q s.
Proof. done. Qed.

Lemma wp_viaM2 {S A B} (f : cell A -> cell B -> prog S (bool * cell A * cell B))
    (Q : option (A * B) -> S -> Prop) (t : S) :
  wp (f (Cell None) (Cell None)) (fun r t' => match r with
    | (true, Cell (Some a), Cell (Some b)) => Q (Some (a, b)) t'
    | (true, _, _) => False
    | (false, _, _) => Q None t'
    end) t ->
  wp (viaM2 f) Q t.
Proof.
  intros H2. apply wp_bind. eapply wp_mono; [exact H2|].
  intros [[[] [|[]]] [|[]]] s' Hq; done.
Qed.

Lemma set_objs_insert_twice (m : memory) k (x y : object) :
  set_objs <[k := x]> (set_objs <[k := y]> m) = set_objs <[k := x]> m.
Proof. unfold set_objs. simpl. by rewrite insert_insert_eq. Qed.

Lemma lookup_set_objs_eq (m : memory) k o : objs (set_objs <[k := o]> m) !! k = Some o.
Proof. apply lookup_insert_eq. Qed.

(** ** Effects of the moves *)

Lemma byte_at_set_objs f m a : byte_at (set_objs f m) a = byte_at m a.
Proof. done. Qed.

Lemma allocated_pop m k b n :
  arena_wf m -> objs m !! k = Some (OBlock b) -> requested_size b = 0 -> 1 <= n <= capacity b ->
  allocated m (set_objs <[k := OBlock (popped n b)]> m) n (k + PREFIX).
Proof.
  intros Hwf Hk Hz Hn. pose proof (object_address_pos _ _ _ Hwf Hk).
  split; replace (k + PREFIX - PREFIX) with k by lia.
  - exists (popped n b). split_and!; [apply lookup_insert_eq|done|simpl; lia..].
  - apply lookup_live_None. intros b' ?. congruence.
  - simpl. rewrite live_insert_block. simpl. by destruct (Z.eqb_spec n 0); [lia|].
  - intros k' n' Hl _. split; [|done]. simpl. rewrite lookup_insert_ne; [done|].
    intros ->. apply lookup_live in Hl as (b' & ? & <- & ?). congruence.
Qed.

Lemma released_push m k b head :
  objs m !! k = Some (OBlock b) -> released m (set_objs <[k := OBlock (pushed head b)]> m) k.
Proof.
  intros Hk. split.
  - simpl. by rewrite live_insert_block.
  - intros k' n' _ Hl. split; [|done]. simpl in *. rewrite live_insert_block in Hl. simpl in Hl.
    apply lookup_delete_Some in Hl as [? _]. by rewrite lookup_insert_ne.
Qed.

Lemma payload_not_inside m base len k n i :
  arena_wf m -> fresh_region (maps m) base len -> live (objs m) !! k = Some n -> 0 <= i < n ->
  ~ inside base len (k + PREFIX + i).
Proof.
  intros Hwf Hf (b & Hb & <- & _)%lookup_live Hi Hin.
  pose proof (fresh_region_objects _ _ _ _ _ Hwf Hf Hb) as Hd. simpl in Hd.
  assert (requested_size b <= capacity b).
  { pose proof (aw_objs _ Hwf _ _ Hb) as [(a & h & j & [])|[]]; lia. }
  unfold inside, PREFIX in *. lia.
Qed.

Lemma preserved_slab_created m m' c a head h l :
  arena_wf m -> slab_created m m' c a head h l -> preserved m m'.
Proof.
  intros Hwf SC k n Hl _. pose proof (sc_region _ _ _ _ _ _ _ SC) as Hf. split.
  - apply lookup_live in Hl as (b & Hb & _). rewrite Hb. by eapply sc_old.
  - intros i Hi. eapply sc_bytes; [done|]. by eapply payload_not_inside.
Qed.

Lemma preserved_trans_eq m1 m2 m3 :
  preserved m1 m2 -> preserved m2 m3 ->
  (forall k n, live (objs m1) !! k = Some n -> live (objs m3) !! k = Some n -> live (objs m2) !! k = Some n) ->
  preserved m1 m3.
Proof.
  intros H12 H23 Hmid k n Hl1 Hl3. pose proof (Hmid _ _ Hl1 Hl3) as Hl2.
  destruct (H12 _ _ Hl1 Hl2) as [E1 B1], (H23 _ _ Hl2 Hl3) as [E2 B2].
  split; [congruence|]. intros i Hi. by rewrite B2, B1.
Qed.

Lemma preserved_update_slab m a h h' :
  objs m !! a = Some (OSlab h) -> preserved m (set_objs <[a := OSlab h']> m).
Proof.
  intros Ha k n (b & Hb & _)%lookup_live _. split; [|done]. apply lookup_insert_ne. congruence.
Qed.

(** ** hplf_malloc *)

(** After a refill the list of the class is nonempty; a failed refill changed
    nothing and released the lock. *)
Lemma wp_refill_class c cap s :
  registry_held s = true -> lists_inv (memory_of s) (free_lists s) (slabs s) ->
  array_get (free_lists s) c = Some NULL -> is_class c cap ->
  wp (refill_class c cap) (fun r s' =>
    match r with
    | Some head => head <> NULL /\ registry_held s' = true /\
        lists_inv (memory_of s') (free_lists s') (slabs s') /\
        array_get (free_lists s') c = Some head /\
        live (objects_of s') = live (objects_of s) /\ preserved (memory_of s) (memory_of s')
    | None => same_core s s' /\ registry_held s' = false /\ errno (mach s') = ENOMEM
    end) s.
Proof.
  intros Hh Hinv Hget Hc. pose proof (ls_arena _ _ _ Hinv) as Hwf.
  unfold refill_class. wp_step. apply wp_on_machine, wp_viaM2.
  eapply wp_mono; [by apply wp_slab_create|].
  intros [[[] out1] out2] t.
  - intros (a & head & h & l & -> & -> & SC).
    pose proof (sc_slab _ _ _ _ _ _ _ SC) as Ha.
    wp_steps. apply wp_on_mem. eapply wp_store_slab; [by apply slab_at_Some|].
    wp_steps. eapply wp_free_list_set; [done|]. wp_steps. cbn.
    split_and!; [|done|by eapply lists_inv_new_slab| | |].
    + destruct (sc_count _ _ _ _ _ _ _ SC) as [_ Hl]. pose proof (sc_chain _ _ _ _ _ _ _ SC) as Hch.
      destruct l as [|b l]; [done|]. by destruct Hch as (-> & ? & _).
    + pose proof (array_get_range _ _ _ (ls_length _ _ _ Hinv) Hget). pose proof (ls_length _ _ _ Hinv).
      rewrite array_get_insert by lia. by rewrite decide_True.
    + rewrite (live_insert_slab _ _ h) by done. by eapply slab_created_live.
    + eapply preserved_trans_eq; [by eapply preserved_slab_created|by eapply preserved_update_slab|].
      intros k n Hl _. by rewrite (slab_created_live _ _ _ _ _ _ _ SC).
  - intros (-> & -> & Hm). wp_steps. apply wp_registry_unlock; [done|].
    intros s' (? & ? & ?) Hr _. wp_steps. apply wp_set_errno_a. wp_steps. cbn in *.
    split_and!; [|done|done]. split_and!; cbn; congruence.
Qed.

(** What a null result means. *)
Definition malloc_refused (n : Z) s s' : Prop :=
  same_core s s' /\
  ((n = 0 /\ errno (mach s') = errno (mach s)) \/ errno (mach s') = ENOMEM \/
   exists t, errno (mach s') = sys_mutex_lock t /\ sys_mutex_lock t <> 0).

Definition malloc_post (n : Z) s (p : Z) s' : Prop :=
  locked_wf s' /\
  ((p = NULL /\ malloc_refused n s s') \/
   (p <> NULL /\ allocated (memory_of s) (memory_of s') n p)).

Lemma locked_wf_core s s' :
  locked_wf s -> same_core s s' -> registry_held s' = false -> locked_wf s'.
Proof. intros [_ Hi] (Hm & Hf & Hs) Hh. split; [done|]. by rewrite Hm, Hf, Hs. Qed.

Lemma allocated_after m m1 m2 n p :
  live (objs m1) = live (objs m) -> preserved m m1 -> allocated m1 m2 n p -> allocated m m2 n p.
Proof.
  intros Hl Hp [Hb Hn Hlv Hpr]. split; [done|by rewrite <- Hl|by rewrite Hlv, Hl|].
  eapply preserved_trans_eq; [done|done|]. intros k x Hk _. by rewrite Hl.
Qed.

(** Taking the head of a nonempty list. *)
Lemma wp_pop_and_unlock n c block s :
  registry_held s = true -> lists_inv (memory_of s) (free_lists s) (slabs s) ->
  array_get (free_lists s) c = Some block -> block <> NULL ->
  (forall cap, is_class c cap -> 1 <= n <= cap) ->
  wp (pop_and_unlock n c block) (fun p s' =>
    locked_wf s' /\ p <> NULL /\ allocated (memory_of s) (memory_of s') n p) s.
Proof.
  intros Hh Hinv Hget Hne Hn. pose proof (ls_arena _ _ _ Hinv) as Hwf.
  destruct (lists_inv_pop _ _ _ _ _ _ Hinv Hget Hne Hn) as (b & Hb & Hz & Hcl & Hinv').
  unfold pop_and_unlock. wp_step. apply wp_on_mem.
  eapply wp_load_block; [by apply block_at_Some|]. wp_step.
  eapply wp_free_list_set; [done|]. wp_step. apply wp_on_mem.
  eapply wp_store_block; [by apply block_at_Some|]. wp_step. apply wp_on_mem.
  eapply wp_store_block; [apply block_at_Some, lookup_set_objs_eq|]. wp_step.
  apply wp_registry_unlock; [done|]. intros s' (Hm & Hf & Hs) Hr _. cbn in Hm, Hf, Hs.
  rewrite set_objs_insert_twice in Hm. simpl negb. cbn iota. wp_steps.
  pose proof (object_address_pos _ _ _ Hwf Hb). rewrite hplf_block_payload_eq by done.
  split; [|split].
  - split; [done|]. by rewrite Hm, Hf, Hs.
  - unfold PREFIX, NULL. lia.
  - rewrite Hm. apply allocated_pop; [done..|]. by apply Hn.
Qed.

Lemma wp_allocate_small n c cap s :
  locked_wf s -> is_class c cap -> 1 <= n <= cap ->
  wp (hplf_allocate_small n c cap) (malloc_post n s) s.
Proof.
  intros [Hh Hinv] Hc Hn.
  assert (Hcap : forall cap', is_class c cap' -> 1 <= n <= cap').
  { intros cap' Hc'. by rewrite (is_class_functional _ _ _ Hc' Hc). }
  unfold hplf_allocate_small. wp_step. apply wp_registry_lock; [done| |].
  2: { intros s1 t Hcore Hr He Ht. destruct (Z.eqb_spec (sys_mutex_lock t) 0); [done|]. simpl.
       wp_step. apply wp_set_errno_a. wp_steps. split; [|left; split; [done|]].
       - eapply (locked_wf_core s); [by split|exact Hcore|exact Hr].
       - split; [exact Hcore|]. right. right. by exists t. }
  intros s1 (Hm1 & Hf1 & Hs1) Hr1. simpl negb. cbn iota.
  destruct (array_get_class (free_lists s) c) as [first Hget]; [by eapply ls_length|by eapply is_class_index|].
  rewrite <- Hm1, <- Hf1, <- Hs1 in Hinv. rewrite <- Hf1 in Hget.
  wp_step. eapply wp_free_list_get; [done|]. wp_step.
  destruct (Z.eqb_spec first NULL) as [->|Hne].
  - eapply wp_mono; [by eapply wp_refill_class|]. intros [head|] s2.
    + intros (Hne & Hr2 & Hinv2 & Hget2 & Hl2 & Hp2).
      eapply wp_mono; [by eapply wp_pop_and_unlock|]. intros p s3 (Hwf3 & Hp3 & Hal).
      split; [done|]. right. split; [done|]. rewrite <- Hm1. by eapply allocated_after.
    + intros ((Hm2 & Hf2 & Hs2) & Hr2 & He2). wp_steps.
      assert (same_core s s2) by (split_and!; congruence).
      split; [|left; split; [done|split; [done|by right; left]]].
      split; [done|]. by rewrite Hm2, Hf2, Hs2.
  - wp_steps. eapply wp_mono; [by eapply wp_pop_and_unlock|]. intros p s3 (Hwf3 & Hp3 & Hal).
    split; [done|]. right. split; [done|]. by rewrite <- Hm1.
Qed.

(** A new large block leaves lists and registry alone. *)
Lemma lists_inv_new_large m lists registry base len b :
  lists_inv m lists registry -> fresh_region (maps m) base len -> 0 < len ->
  let m' := set_objs <[base := OBlock b]> (map_region base len m) in
  large_ok m' base b -> lists_inv m' lists registry.
Proof.
  intros [Hwf Hreg Hlen Hls] Hf Hpos m' Hok.
  assert (Hnone : objs m !! base = None).
  { destruct (objs m !! base) as [o|] eqn:E; [|done].
    pose proof (fresh_region_objects _ _ _ _ _ Hwf Hf E). pose proof (extent_pos _ _ _ Hwf E).
    pose proof (sizeof_pos o). lia. }
  assert (Hslab : forall a h, objs m' !! a = Some (OSlab h) <-> objs m !! a = Some (OSlab h)).
  { intros a h. cbn. rewrite lookup_insert. case_decide; [|done]. subst. rewrite Hnone. naive_solver. }
  split.
  - eapply arena_wf_extend; [done|done|done|done| |].
    + intros k o Hk. cbn. rewrite lookup_insert_ne by congruence. done.
    + intros k o. cbn. rewrite lookup_insert. case_decide; [|by left].
      intros [= <-]. subst k. right. by right.
  - destruct Hreg as (sl & Hch & Hin). exists sl. split; [|by setoid_rewrite Hslab].
    eapply chain_ext; [done|]. intros a [h Ha]%Hin. unfold slab_next_of, slab_at.
    by rewrite (proj2 (Hslab _ _) Ha), Ha.
  - done.
  - intros c head [l [Hch Hin]]%Hls. exists l. split.
    + eapply chain_ext; [done|]. intros x Hx. cbn. rewrite block_next_insert, decide_False; [done|].
      intros ->. pose proof (block_chain_is_Some _ _ _ _ Hch Hx) as [? ?]. congruence.
    + intros x. rewrite Hin. unfold free_in_class. split; intros (blk & a & h & Hx & ? & ? & ? & Ha & ?);
        exists blk, a, h; split_and!; try done.
      * cbn. rewrite lookup_insert_ne by congruence. done.
      * by apply Hslab.
      * cbn in Hx. rewrite lookup_insert in Hx. case_decide; [|done]. simplify_eq.
        destruct Hok. congruence.
      * by apply Hslab.
Qed.

Lemma allocated_large m base len n :
  arena_wf m -> fresh_region (maps m) base len -> 1 <= n -> PREFIX + n <= len ->
  let b := Block (owner_large base len) NULL n (len - PREFIX) HPLF_BLOCK_LARGE in
  allocated m (set_objs <[base := OBlock b]> (map_region base len m)) n (base + PREFIX).
Proof.
  intros Hwf Hf Hn Hlen b. pose proof Hf as (Hb & _). unfold PREFIX in *.
  assert (Hnone : objs m !! base = None).
  { destruct (objs m !! base) as [o|] eqn:E; [|done].
    pose proof (fresh_region_objects _ _ _ _ _ Hwf Hf E). pose proof (extent_pos _ _ _ Hwf E).
    pose proof (sizeof_pos o). lia. }
  split; unfold PREFIX; replace (base + 48 - 48) with base by lia.
  - exists b. split_and!; [apply lookup_insert_eq|done|simpl; lia..].
  - apply lookup_live_None. intros b' ?. congruence.
  - cbn [objs set_objs map_region]. rewrite live_insert_block. simpl. by destruct (Z.eqb_spec n 0); [lia|].
  - intros k x Hk _. split.
    + cbn. apply lookup_insert_ne. intros <-. apply lookup_live in Hk as (? & ? & _). congruence.
    + intros i Hi. rewrite byte_at_set_objs, byte_at_map_region.
      rewrite decide_False; [done|]. by eapply payload_not_inside.
Qed.

(** A large allocation on any well-formed arena: nothing, or one new mapping whose
    base holds the block. *)
Definition large_created (m m' : memory) (n p : Z) : Prop :=
  exists base len b, p = base + PREFIX /\ fresh_region (maps m) base len /\ 0 < len /\
    m' = set_objs <[base := OBlock b]> (map_region base len m) /\ large_ok m' base b /\ allocated m m' n p.

Lemma wp_allocate_large n (t : machine) :
  arena_wf (mem t) -> 1 <= n <= PTRDIFF_MAX ->
  wp (hplf_allocate_large n) (fun p t' =>
    (p = NULL /\ mem t' = mem t /\ errno t' = ENOMEM) \/ (p <> NULL /\ large_created (mem t) (mem t') n p)) t.
Proof.
  intros Hwf Hn. pose proof pagesize_positive as Hp.
  unfold hplf_allocate_large. wp_step. apply wp_page_size. intros t1 Hm1.
  split; [wp_step; unfold set_errno; wp_steps; by left|].
  unfold PTRDIFF_MAX in *.
  rewrite via_large_layout by (unfold is_size, SIZE_MAX, WORD; lia).
  destruct (Z.ltb_spec 0 n); [|lia]. rewrite andb_true_l.
  pose proof (round_up_ge (PREFIX + n) sysconf_pagesize pagesize_gt0) as Hr.
  pose proof (round_up_divide (PREFIX + n) sysconf_pagesize) as Hd.
  destruct (Z.leb_spec (round_up (PREFIX + n) sysconf_pagesize) SIZE_MAX);
    [|wp_step; unfold set_errno; wp_steps; by left].
  set (len := round_up (PREFIX + n) sysconf_pagesize) in *. unfold PREFIX in *.
  cbn [large_mapping_length large_payload_offset]. wp_steps.
  eapply wp_mono; [apply wp_os_map; lia|]. intros [[] out] t2.
  2: { intros [-> Hm2]. unfold set_errno. wp_steps. left. split_and!; [done|cbn; congruence|done]. }
  intros ([base l] & -> & Hl & Hnew). rewrite Hm1 in Hnew. destruct Hnew as (_ & Hf & Hm2).
  rewrite round_up_id in Hl by (done || apply pagesize_gt0). cbn [os_base os_length] in *. subst l.
  unfold on_memory. wp_steps. rewrite Hm2. rewrite wsub_small by (unfold SIZE_MAX, WORD in *; lia).
  pose proof Hf as (Hb & _).
  apply wp_create_object.
  - by eapply mod8_of_16, mapping_aligned.
  - eapply mapped_intro; [apply lookup_insert_eq|lia|]. cbn [sizeof]. change sizeof_hplf_block with 48. lia.
  - intros k o [_ Hk]%lookup_delete_Some. cbn [sizeof]. change sizeof_hplf_block with 48.
    pose proof (fresh_region_objects _ _ _ _ _ Hwf Hf Hk). pose proof (extent_pos _ _ _ Hwf Hk). lia.
  - wp_steps. rewrite hplf_block_payload_eq by (unfold NULL; lia). right. cbn [mem set_mem].
    split; [unfold PREFIX, NULL; lia|]. eexists base, len, _. split_and!; [done|done|lia|done| |].
    + assert (Hle : len = PREFIX + (len - 48)) by (unfold PREFIX; lia).
      split; cbn [kind owner capacity requested_size]; [done|by rewrite <- Hle|rewrite <- Hle; apply lookup_insert_eq|lia].
    + change 48 with PREFIX. apply allocated_large; [done|done|lia|unfold PREFIX; lia].
Qed.

(** Why a large request gets null: its page-size query is told to fail, its rounded
    length does not fit, or its map request fails, each in this call. *)
Definition large_refused n (t : machine) : Prop :=
  query_injected t = true \/ SIZE_MAX < round_up (PREFIX + n) sysconf_pagesize \/
  map_fails (round_up (PREFIX + n) sysconf_pagesize) (queried t).

Lemma allocate_large_refused n t t' :
  arena_wf (mem t) -> 1 <= n <= PTRDIFF_MAX -> hplf_allocate_large n t = Done NULL t' -> large_refused n t.
Proof.
  intros Hwf Hn. unfold large_refused. set (len := round_up (PREFIX + n) sysconf_pagesize).
  pose proof pagesize_positive as Hp. pose proof (round_up_ge (PREFIX + n) sysconf_pagesize pagesize_gt0) as Hr.
  fold len in Hr. assert (Hlen : round_up len sysconf_pagesize = len) by (apply round_up_id; [apply pagesize_gt0|apply round_up_divide]).
  assert (Hpos : 0 < len) by (unfold PREFIX in *; lia). destruct (queried_same t) as [Em _].
  unfold hplf_allocate_large. unfold mbind at 1, prog_bind at 1. rewrite via_page_size_exact.
  destruct (query_injected t); [by left|]. unfold PTRDIFF_MAX in *.
  rewrite via_large_layout by (unfold is_size, SIZE_MAX, WORD; lia). fold len.
  destruct (Z.ltb_spec 0 n); [|lia]. destruct (Z.leb_spec len SIZE_MAX); [|by right; left].
  cbn [andb large_mapping_length]. unfold viaM, mbind, prog_bind.
  destruct (wp_run _ _ _ (wp_os_map len None (queried t) ltac:(lia))) as ([ok out] & t2 & Eo & Ho). rewrite Eo.
  destruct ok; [|intros _; right; right; eapply os_map_refused, Eo; [done|by rewrite Hlen]].
  destruct Ho as ([b l] & -> & _ & _ & Hf & _). unfold mret, prog_ret, on_memory, zoom. cbn [os_base].
  match goal with |- context [create_object ?a ?o ?m] => destruct (create_object a o m); [|done..] end.
  intros [= E _]. exfalso. destruct Hf as [Hb _]. cbn [os_base] in Hb.
  rewrite hplf_block_payload_eq in E by (unfold NULL; lia). unfold PREFIX, NULL in *. lia.
Qed.

Lemma wp_malloc n s : locked_wf s -> is_size n -> wp (hplf_malloc n) (malloc_post n s) s.
Proof.
  intros Hwf [Hn Hmax]. unfold hplf_malloc.
  destruct (Z.eqb_spec n 0) as [->|Hn0].
  { wp_steps. split; [done|]. left. split; [done|]. split; [done|by left]. }
  destruct (Z.ltb_spec PTRDIFF_MAX n).
  { wp_step. apply wp_set_errno_a. wp_steps. split; [done|]. left. split; [done|]. split; [done|by right; left]. }
  destruct (class_for n) as [[c cap]|] eqn:E.
  - apply class_for_inv in E as [Hc Hcap]; [|done]. by eapply wp_allocate_small.
  - destruct Hwf as [Hh Hinv]. apply wp_on_machine.
    eapply wp_mono; [eapply wp_allocate_large; [apply Hinv|lia]|].
    intros p t [(-> & Hm & He)|(Hp & base & len & b & -> & Hf & Hl & Hm & Hok & Ha)].
    + split; [|left; split; [done|]].
      * split; [done|]. cbn. by rewrite Hm.
      * split; [done|]. right. by left.
    + split; [|by right]. split; [done|]. cbn. rewrite Hm in *. by eapply lists_inv_new_large.
Qed.

(** ** hplf_free *)

(** Unmapping a mapping whose base holds anything but a slab removes that object. *)
Lemma unmap_single m k o len :
  arena_wf m -> objs m !! k = Some o -> (forall h, o <> OSlab h) -> home k o = k -> maps m !! k = Some len ->
  forall k', objs (unmap_region k len m) !! k' = if decide (k' = k) then None else objs m !! k'.
Proof.
  intros Hwf Hk Hns Hhome Hmap k'. rewrite objs_unmap_region. destruct (objs m !! k') as [o'|] eqn:E; [|by repeat case_decide].
  assert (Hin : inside k len k' <-> k' = k).
  { rewrite (inside_home _ _ _ _ _ Hwf E Hmap). split; [|intros ->; by simplify_eq].
    intros Hh. destruct (home_inv _ _ _ Hwf E) as [|(b' & h & i & -> & S & K & _)]; [congruence|].
    pose proof (sm_slab _ _ _ _ _ _ S) as Hs. rewrite Hh, Hk in Hs. simplify_eq. by destruct (Hns h). }
  repeat case_decide; tauto || done.
Qed.

(** Releasing a large mapping: the block was the only object in it. *)
Lemma released_unmap m k b :
  arena_wf m -> objs m !! k = Some (OBlock b) -> large_ok m k b ->
  released m (unmap_region k (PREFIX + capacity b) m) k.
Proof.
  intros Hwf Hk L. pose proof (lg_map _ _ _ L) as Hmap.
  assert (Hobj : forall k', objs (unmap_region k (PREFIX + capacity b) m) !! k' =
                            if decide (k' = k) then None else objs m !! k').
  { eapply unmap_single; [done|done|done| |done]. simpl. by rewrite (lg_owner _ _ _ L). }
  split.
  - apply map_eq. intros k'. apply option_eq. intros n. rewrite lookup_delete_Some, !lookup_live, Hobj.
    case_decide; naive_solver.
  - intros k' n Hl Hl'. apply lookup_live in Hl' as (b' & Hb' & <- & _).
    pose proof Hb' as Hb2. rewrite Hobj in Hb2. case_decide as E; [done|]. split; [congruence|].
    intros i Hi. apply byte_at_unmap_region. intros Hins.
    pose proof (extents_disjoint _ _ _ _ _ Hwf Hk Hb2 ltac:(done)) as Hd. simpl in Hd.
    assert (requested_size b' <= capacity b').
    { pose proof (aw_objs _ Hwf _ _ Hb2) as [(a & h & j & [])|[]]; lia. }
    unfold inside, PREFIX in *. lia.
Qed.

Lemma lists_inv_unmap_large m lists registry k b :
  lists_inv m lists registry -> objs m !! k = Some (OBlock b) -> large_ok m k b ->
  lists_inv (unmap_region k (PREFIX + capacity b) m) lists registry.
Proof.
  intros [Hwf Hreg Hlen Hls] Hk L. pose proof (lg_map _ _ _ L) as Hmap.
  assert (Hkeep : forall k' o, k' <> k -> objs m !! k' = Some o ->
                  objs (unmap_region k (PREFIX + capacity b) m) !! k' = Some o).
  { intros k' o Hne Hk'. rewrite (unmap_single _ _ _ _ Hwf Hk); [by rewrite decide_False|done| |done].
    simpl. by rewrite (lg_owner _ _ _ L). }
  assert (Hsub : forall k' o, objs (unmap_region k (PREFIX + capacity b) m) !! k' = Some o ->
                 objs m !! k' = Some o).
  { intros k' o. rewrite objs_unmap_region. by case_decide. }
  split; [by apply arena_wf_unmap| |done|].
  - destruct Hreg as (sl & Hch & Hin). exists sl. split.
    + eapply chain_ext; [done|]. intros a [h Ha]%Hin. unfold slab_next_of, slab_at.
      by rewrite (Hkeep a (OSlab h)), Ha by congruence.
    + intros a. rewrite Hin. split; intros [h Ha]; exists h; [apply Hkeep; [congruence|done]|by apply Hsub].
  - intros c head [l [Hch Hin]]%Hls. exists l.
    assert (Hnk : forall x blk, objs m !! x = Some (OBlock blk) -> kind blk = HPLF_BLOCK_SMALL -> x <> k).
    { intros x blk Hx Hs ->. destruct L. congruence. }
    split.
    + eapply chain_ext; [done|]. intros x (blk & ? & ? & Hx & ? & _)%Hin. unfold block_next, block_at.
      by rewrite (Hkeep x (OBlock blk)), Hx by eauto.
    + intros x. rewrite Hin. split; intros (blk & a & h & Hx & ? & ? & ? & Ha & ?);
        exists blk, a, h; split_and!; try done; try (by apply Hsub).
      * apply Hkeep; eauto.
      * apply Hkeep; [congruence|done].
Qed.

(** Why a free can leave its block allocated: the lock or the unmap failed. *)
Definition free_can_fail : Prop := unmap_can_fail \/ exists t, sys_mutex_lock t <> 0.

(** Whether the free of the block at [k], called in state [s], fails: the lock call it
    makes for a small block, the unmap request it makes for a large one. *)
Definition free_fails (k : Z) s : Prop :=
  exists b, objects_of s !! k = Some (OBlock b) /\
    match kind b with
    | HPLF_BLOCK_SMALL => sys_mutex_lock (sys_calls (mach s)) <> 0
    | HPLF_BLOCK_LARGE => unmap_fails k (PREFIX + capacity b) (mach s) = true
    end.

Lemma free_fails_can k s : free_fails k s -> free_can_fail.
Proof.
  intros (b & _ & Hf). unfold free_can_fail. destruct (kind b); [right; by eexists|left; by eapply unmap_fails_can].
Qed.

Lemma free_fails_small k b s :
  objects_of s !! k = Some (OBlock b) -> kind b = HPLF_BLOCK_SMALL ->
  free_fails k s <-> sys_mutex_lock (sys_calls (mach s)) <> 0.
Proof.
  intros Hk Hs. split; [intros (b' & Hb & Hf)|intros Hf; exists b; by rewrite Hs]. simplify_eq. by rewrite Hs in Hf.
Qed.

Lemma free_fails_large k b s :
  objects_of s !! k = Some (OBlock b) -> kind b = HPLF_BLOCK_LARGE ->
  free_fails k s <-> unmap_fails k (PREFIX + capacity b) (mach s) = true.
Proof.
  intros Hk Hs. split; [intros (b' & Hb & Hf)|intros Hf; exists b; by rewrite Hs]. simplify_eq. by rewrite Hs in Hf.
Qed.

(** The block is released unless this call's lock or unmap fails. *)
Definition freed_unless_failed (k : Z) s s' : Prop :=
  (released (memory_of s) (memory_of s') k /\ ~ free_fails k s) \/ (memory_of s' = memory_of s /\ free_fails k s).

Definition free_post (k : Z) s s' : Prop :=
  locked_wf s' /\ errno (mach s') = errno (mach s) /\ freed_unless_failed k s s'.

Lemma wp_free_small k b a h s :
  locked_wf s -> objects_of s !! k = Some (OBlock b) -> requested_size b <> 0 ->
  kind b = HPLF_BLOCK_SMALL -> owner b = owner_small a -> objects_of s !! a = Some (OSlab h) ->
  wp (free_small k b) (fun _ s' => locked_wf s' /\ freed_unless_failed k s s') s.
Proof.
  intros Hwf Hk Hr Hkind Ho Ha. pose proof Hwf as [Hh Hinv]. unfold freed_unless_failed.
  pose proof (free_fails_small _ _ _ Hk Hkind) as Hfails.
  assert (Hci : 0 <= class_index h < HPLF_SIZE_CLASS_COUNT).
  { pose proof (aw_objs _ (ls_arena _ _ _ Hinv) _ _ Ha) as K. by eapply is_class_index, sk_class. }
  unfold free_small. wp_step. eapply wp_known; [unfold owner_small_slab; by rewrite Ho|].
  wp_step. apply wp_on_mem. eapply wp_load_slab; [by apply slab_at_Some|]. wp_step.
  apply wp_registry_lock_exact; [done|]. cbn [sys_calls mach set_mach set_mem].
  intros s1 Hc1 _ Hr1. pose proof Hc1 as (Hm1 & Hf1 & Hs1). cbn in Hm1, Hf1, Hs1, Hr1.
  destruct (Z.eqb_spec (sys_mutex_lock (sys_calls (mach s))) 0) as [Hz|Hz].
  2: { wp_steps. split; [by eapply (locked_wf_core s)|]. right. split; [apply Hc1|by apply Hfails]. }
  destruct (array_get_class (free_lists s) (class_index h)) as [head Hget]; [by eapply ls_length|done|].
  pose proof (lists_inv_push _ _ _ _ _ _ _ _ Hinv Hk Hr Hkind Ho Ha Hget) as Hinv'.
  wp_step. apply wp_on_mem. eapply wp_store_block; [rewrite Hm1; by apply block_at_Some|].
  wp_step. eapply wp_free_list_get; [cbn; by rewrite Hf1|].
  wp_step. apply wp_on_mem. eapply wp_store_block; [apply block_at_Some, lookup_set_objs_eq|].
  wp_step. eapply wp_free_list_set; [cbn; by rewrite Hf1|].
  wp_step. apply wp_registry_unlock; [done|]. intros s2 (Hm2 & Hf2 & Hs2) Hr2 _. cbn in Hm2, Hf2, Hs2.
  wp_steps. rewrite set_objs_insert_twice, Hm1 in Hm2. rewrite Hf1 in Hf2.
  split; [|left; split; [rewrite Hm2; by apply released_push|by intros ?%Hfails]].
  split; [done|]. rewrite Hm2, Hf2, Hs2, Hs1. exact Hinv'.
Qed.

Lemma wp_free_large k b (t : machine) :
  arena_wf (mem t) -> objs (mem t) !! k = Some (OBlock b) -> large_ok (mem t) k b ->
  wp (free_large b) (fun _ t' =>
    (mem t' = unmap_region k (PREFIX + capacity b) (mem t) /\ unmap_fails k (PREFIX + capacity b) t = false) \/
    (mem t' = mem t /\ unmap_fails k (PREFIX + capacity b) t = true)) t.
Proof.
  intros Hwf Hk L. pose proof (object_address_pos _ _ _ Hwf Hk) as Hpos. pose proof (lg_requested _ _ _ L).
  unfold free_large. wp_step.
  eapply wp_known; [unfold owner_large_mapping; by rewrite (lg_owner _ _ _ L)|]. cbn [fst snd].
  wp_step. eapply wp_mono; [apply wp_os_unmap_exact; [by eapply lg_map|unfold NULL; lia|unfold PREFIX; lia]|].
  intros [[[] mp] out] t' (_ & _ & Hm & Hf); wp_steps; [by left|by right].
Qed.

Lemma wp_free_large_locked k b s :
  locked_wf s -> objects_of s !! k = Some (OBlock b) -> large_ok (memory_of s) k b ->
  wp (on_machine (free_large b)) (fun _ s' => locked_wf s' /\ freed_unless_failed k s s') s.
Proof.
  intros [Hh Hinv] Hk L. pose proof (ls_arena _ _ _ Hinv) as Hwf. apply wp_on_machine.
  pose proof (free_fails_large _ _ _ Hk (lg_kind _ _ _ L)) as Hfails.
  eapply wp_mono; [by apply wp_free_large|]. intros _ t [[Hm Hf]|[Hm Hf]]; cbn.
  - split; [split; [done|]|left]; cbn; rewrite Hm; [by apply lists_inv_unmap_large|].
    split; [by apply released_unmap|]. rewrite Hfails, Hf. done.
  - split; [split; [done|]; cbn; by rewrite Hm|]. right. split; [done|by apply Hfails].
Qed.

Lemma live_block s p n :
  locked_wf s -> live (objects_of s) !! (p - PREFIX) = Some n ->
  exists b, objects_of s !! (p - PREFIX) = Some (OBlock b) /\ requested_size b = n /\ 1 <= n <= capacity b /\
    p <> NULL /\ hplf_block_from_payload p = p - PREFIX.
Proof.
  intros [_ Hinv] (b & Hb & <- & Hn)%lookup_live. pose proof (ls_arena _ _ _ Hinv) as Hwf.
  pose proof (object_address_pos _ _ _ Hwf Hb). unfold PREFIX, NULL in *.
  exists b. split_and!; try done; try lia; try (apply hplf_block_from_payload_eq; unfold NULL; lia).
  - pose proof (aw_objs _ Hwf _ _ Hb) as [(a & h & i & [])|[]]; lia.
  - pose proof (aw_objs _ Hwf _ _ Hb) as [(a & h & i & [])|[]]; lia.
Qed.

Lemma free_errno_post k s e :
  forall s1, locked_wf s1 /\ freed_unless_failed k s s1 ->
  e = errno (mach s) ->
  wp (set_errno_a e) (fun _ s' => free_post k s s') s1.
Proof. intros s1 [[Hh Hi] Hd] ->. by apply wp_set_errno_a. Qed.

Lemma wp_free p n s :
  locked_wf s -> live (objects_of s) !! (p - PREFIX) = Some n ->
  wp (hplf_free p) (fun _ s' => free_post (p - PREFIX) s s') s.
Proof.
  intros Hwf Hl. destruct (live_block _ _ _ Hwf Hl) as (b & Hb & Hr & Hn & Hp & Hfrom).
  unfold hplf_free. wp_steps. destruct (Z.eqb_spec p NULL); [done|]. rewrite Hfrom.
  wp_step. apply wp_on_mem. eapply wp_load_block; [by apply block_at_Some|].
  pose proof Hwf as [Hh Hinv].
  assert (Hsame : set_mach (set_mem (memory_of s) (mach s)) s = s) by (destruct s as [[]]; done).
  rewrite Hsame. wp_step.
  pose proof (aw_objs _ (ls_arena _ _ _ Hinv) _ _ Hb) as [(a & h & i & S)|L].
  - rewrite (sm_kind _ _ _ _ _ _ S).
    eapply wp_mono; [eapply wp_free_small; [done|done|lia|apply S|apply S|apply S]|].
    intros [] s1 H2. by apply free_errno_post.
  - rewrite (lg_kind _ _ _ L). eapply wp_mono; [by apply wp_free_large_locked|].
    intros [] s1 H2. by apply free_errno_post.
Qed.

Lemma wp_free_null s (Q : unit -> hplf_allocator_state -> Prop) : Q tt s -> wp (hplf_free NULL) Q s.
Proof. done. Qed.
End spec.
