(* ===== verification/LockedResize.v ===== *)
(** * The locked allocator meets its contract: zeroed allocation and resizing

    Total-correctness specifications of [hplf_calloc] and [hplf_realloc]. *)

From S2P Require Import Prelude CheckedMath SizeClass Memory Layout Chain OsMemory Slab Arena SlabSpec.
From S2P Require Import LockedAllocator FreeLists LockedSpec.

Section resize.
Context `{Build, Platform, !PlatformLaws}.
Implicit Types (s : hplf_allocator_state) (m : memory).

(** ** Writing bytes keeps the structure *)

Lemma lists_inv_set_bytes f m lists registry :
  lists_inv m lists registry -> lists_inv (set_bytes f m) lists registry.
Proof. intros [Hwf Hreg Hlen Hls]. split; [by apply arena_wf_set_bytes|done..]. Qed.

(** Filling a block's payload leaves every other payload alone. *)
Lemma preserved_put_bytes m k b l :
  arena_wf m -> objs m !! k = Some (OBlock b) -> Z.of_nat (length l) <= capacity b ->
  forall k' n i, k' <> k -> live (objs m) !! k' = Some n -> 0 <= i < n ->
    byte_at (set_bytes (put_bytes (k + PREFIX) l) m) (k' + PREFIX + i) = byte_at m (k' + PREFIX + i).
Proof.
  intros Hwf Hk Hl k' n i Hne (b' & Hb' & <- & _)%lookup_live Hi.
  rewrite byte_at_put, decide_False; [done|].
  pose proof (payloads_disjoint _ _ _ _ _ Hwf Hk Hb' ltac:(done)).
  assert (requested_size b' <= capacity b').
  { pose proof (aw_objs _ Hwf _ _ Hb') as [(a & h & j & [])|[]]; lia. }
  unfold PREFIX in *. lia.
Qed.

Lemma allocated_put_bytes m m1 n p l :
  arena_wf m1 -> allocated m m1 n p -> Z.of_nat (length l) <= n ->
  allocated m (set_bytes (put_bytes p l) m1) n p.
Proof.
  intros Hwf [Hb Hn Hl Hp] Hlen. split; [done..|].
  destruct Hb as (b & Hb & _ & ? & _). intros k x Hk Hk1.
  destruct (Hp _ _ Hk Hk1) as [Ho Hbytes]. split; [done|]. intros i Hi. rewrite <- Hbytes by done.
  replace p with (p - PREFIX + PREFIX) at 1 by lia.
  eapply (preserved_put_bytes _ _ _ _ Hwf Hb); [lia| |done|done]. intros ->. congruence.
Qed.

(** ** hplf_calloc *)

Definition calloc_post (count size : Z) s (p : Z) s' : Prop :=
  locked_wf s' /\
  ((p = NULL /\ same_core s s' /\
    (SIZE_MAX < count * size -> errno (mach s') = ENOMEM) /\
    (count * size <= SIZE_MAX -> malloc_refused (count * size) s s')) \/
   (p <> NULL /\ count * size <= SIZE_MAX /\
    allocated (memory_of s) (memory_of s') (count * size) p /\
    forall i, 0 <= i < count * size -> byte_at (memory_of s') (p + i) = 0)).

Lemma wp_memset p n s m :
  locked_wf s -> is_size n -> allocated m (memory_of s) n p ->
  wp (on_mem (memset p 0 n)) (fun _ s' => locked_wf s' /\ errno (mach s') = errno (mach s) /\
    allocated m (memory_of s') n p /\ forall i, 0 <= i < n -> byte_at (memory_of s') (p + i) = 0) s.
Proof.
  intros [Hh Hinv] [Hn0 _] Hal. pose proof (ls_arena _ _ _ Hinv) as Hwf.
  destruct (al_block _ _ _ _ Hal) as (b & Hb & Hr & Hn & Hp).
  assert (Hlen : Z.of_nat (length (replicate (Z.to_nat n) (0 mod 256))) = n).
  { rewrite length_replicate. lia. }
  apply wp_on_mem. unfold memset. apply wp_store_bytes.
  { rewrite Hlen. replace p with (p - PREFIX + PREFIX) by lia. eapply payload_accessible; [done|done|lia]. }
  cbn. split; [by split; [|apply lists_inv_set_bytes]|]. split; [done|]. split.
  - apply allocated_put_bytes; [done|done|lia].
  - intros i Hi. rewrite byte_at_put, decide_True by lia.
    rewrite lookup_replicate_2 by lia. done.
Qed.

Lemma wp_calloc count size s :
  locked_wf s -> is_size count -> is_size size -> wp (hplf_calloc count size) (calloc_post count size s) s.
Proof.
  intros Hwf Hc Hs. unfold hplf_calloc.
  destruct ((count =? 0) || (size =? 0)) eqn:E.
  { assert (Hz : count * size = 0).
    { apply orb_true_iff in E as [E|E]; apply Z.eqb_eq in E; subst; lia. }
    wp_steps. split; [done|]. left. split_and!; [done|done| |].
    - rewrite Hz. unfold SIZE_MAX, WORD. lia.
    - intros _. split; [done|]. left. by rewrite Hz. }
  rewrite via_size_multiply by done.
  destruct (Z.leb_spec (count * size) SIZE_MAX).
  2: { wp_step. apply wp_set_errno_a. wp_steps. split; [done|]. left.
       split_and!; [done|done|done|lia]. }
  wp_step. eapply wp_mono; [apply wp_malloc; [done|split; [unfold is_size in *; nia|done]]|].
  intros p s1 [Hwf1 [[-> Href]|[Hp Hal]]].
  - simpl. wp_steps. split; [done|]. left. split_and!; [done|apply Href|lia|done].
  - destruct (Z.eqb_spec p NULL); [done|]. simpl negb. cbn iota. wp_step.
    eapply wp_mono; [apply wp_memset; [done|unfold is_size in *; nia|done]|].
    intros [] s2 (Hwf2 & _ & Hal2 & Hz). wp_steps. split; [done|]. right. by split_and!.
Qed.

(** ** hplf_realloc *)

(** The block moved: the common prefix was copied, the old block was released (or,
    when releasing failed, is still allocated), everything else is untouched. *)
Record moved (m m' : memory) (k old_size q new_size : Z) : Prop := {
  mv_new : exists b, objs m' !! (q - PREFIX) = Some (OBlock b) /\ requested_size b = new_size /\
                     1 <= new_size <= capacity b;
  mv_fresh : live (objs m) !! (q - PREFIX) = None;
  mv_apart : q + new_size <= k + PREFIX \/ k + PREFIX + old_size <= q;
  mv_live : live (objs m') = delete k (<[q - PREFIX := new_size]> (live (objs m))) \/
            (live (objs m') = <[q - PREFIX := new_size]> (live (objs m)) /\ free_can_fail);
  mv_copied : forall i, 0 <= i < Z.min old_size new_size ->
    byte_at m' (q + i) = byte_at m (k + PREFIX + i);
  mv_preserved : preserved m m'
}.

(** The block was resized in place. *)
Record retained (m m' : memory) (k new_size : Z) : Prop := {
  rt_block : exists b, objs m' !! k = Some (OBlock b) /\ requested_size b = new_size /\
                       1 <= new_size <= capacity b;
  rt_live : live (objs m') = <[k := new_size]> (live (objs m));
  rt_bytes : forall a, byte_at m' a = byte_at m a;
  rt_others : forall k', k' <> k -> objs m' !! k' = objs m !! k'
}.

Definition realloc_post (p old_size size : Z) s (q : Z) s' : Prop :=
  locked_wf s' /\
  ((q = NULL /\ size <> 0 /\ malloc_refused size s s') \/
   (q = NULL /\ size = 0 /\ free_post (p - PREFIX) s s') \/
   (q = p /\ size <> 0 /\ retained (memory_of s) (memory_of s') (p - PREFIX) size) \/
   (q <> NULL /\ q <> p /\ size <> 0 /\ moved (memory_of s) (memory_of s') (p - PREFIX) old_size q size)).

(** Whether a block may keep its storage. *)
Definition can_retain (m : memory) (b : hplf_block) (size : Z) : Prop :=
  match kind b with
  | HPLF_BLOCK_SMALL => exists a h cap, owner b = owner_small a /\ objs m !! a = Some (OSlab h) /\
                                        class_for size = Some (class_index h, cap)
  | HPLF_BLOCK_LARGE => class_for size = None /\ size <= capacity b
  end.

Lemma wp_can_retain k b size m :
  arena_wf m -> objs m !! k = Some (OBlock b) ->
  wp (hplf_realloc_can_retain b size) (fun r m' => m' = m /\ (r = true <-> can_retain m b size)) m.
Proof.
  intros Hwf Hk. unfold hplf_realloc_can_retain, can_retain.
  pose proof (aw_objs _ Hwf _ _ Hk) as [(a & h & i & S)|L].
  - rewrite (sm_kind _ _ _ _ _ _ S). pose proof (sm_owner _ _ _ _ _ _ S) as Ho.
    pose proof (sm_slab _ _ _ _ _ _ S) as Ha. destruct (class_for size) as [[c cap]|].
    + wp_step. eapply wp_known; [unfold owner_small_slab; by rewrite Ho|]. wp_step.
      eapply wp_load_slab; [by apply slab_at_Some|]. wp_steps. split; [done|].
      rewrite Z.eqb_eq. split.
      * intros ->. by exists a, h, cap.
      * intros (a' & h' & cap' & ? & ? & ?). congruence.
    + wp_steps. split; [done|]. split; [done|]. by intros (? & ? & ? & _ & _ & ?).
  - rewrite (lg_kind _ _ _ L). destruct (class_for size) as [[c cap]|]; wp_steps; split; try done.
    + split; [done|]. by intros [? _].
    + rewrite Z.leb_le. naive_solver.
Qed.

Lemma can_retain_fits m k b size :
  arena_wf m -> objs m !! k = Some (OBlock b) -> is_size size -> size <> 0 ->
  can_retain m b size -> 1 <= size <= capacity b.
Proof.
  intros Hwf Hk Hs Hn. unfold can_retain. unfold is_size in Hs.
  pose proof (aw_objs _ Hwf _ _ Hk) as [(a & h & i & S)|L].
  - rewrite (sm_kind _ _ _ _ _ _ S). intros (a' & h' & cap & Ho & Ha & E).
    assert (a' = a) as -> by (pose proof (sm_owner _ _ _ _ _ _ S); congruence).
    assert (h' = h) as -> by (pose proof (sm_slab _ _ _ _ _ _ S); congruence).
    apply class_for_inv in E as [Hc Hle]; [|done].
    pose proof (aw_objs _ Hwf _ _ Ha) as K. simpl in K.
    rewrite (sm_capacity _ _ _ _ _ _ S), <- (is_class_functional _ _ _ Hc (sk_class _ _ _ K)). lia.
  - rewrite (lg_kind _ _ _ L). intros [_ ?]. lia.
Qed.

(** Changing the requested size of a live block. *)
Lemma lists_inv_resize m lists registry k b n :
  lists_inv m lists registry -> objs m !! k = Some (OBlock b) -> requested_size b <> 0 ->
  1 <= n <= capacity b ->
  lists_inv (set_objs <[k := OBlock (set_requested_size n b)]> m) lists registry.
Proof.
  intros [Hwf Hreg Hlen Hls] Hk Hr Hn. split; cbn.
  - eapply arena_wf_update_block; [done|done|done|simpl; lia|simpl; lia].
  - by eapply registry_insert_block.
  - done.
  - intros c head [l Hl]%Hls. exists l. eapply class_list_insert_other; [done| | |done].
    + intros (blk & ? & ? & ? & _ & ? & _)%Hl. congruence.
    + apply free_in_class_insert_live. simpl. lia.
Qed.

Lemma retained_resize m k b n :
  objs m !! k = Some (OBlock b) -> 1 <= n <= capacity b ->
  retained m (set_objs <[k := OBlock (set_requested_size n b)]> m) k n.
Proof.
  intros Hk Hn. split; cbn.
  - eexists. split; [apply lookup_insert_eq|]. simpl. split; [done|lia].
  - rewrite live_insert_block. simpl. by destruct (Z.eqb_spec n 0); [lia|].
  - done.
  - intros k' Hne. by rewrite lookup_insert_ne.
Qed.

(** The copy of [hplf_realloc]: from the old block's payload to the new one's. *)
Lemma wp_copy m p old_size q n c s :
  locked_wf s -> allocated m (memory_of s) n q -> live (objs m) !! (p - PREFIX) = Some old_size ->
  c = Z.min old_size n ->
  wp (on_mem (memcpy q p c)) (fun _ s' => locked_wf s' /\
    allocated m (memory_of s') n q /\
    forall i, 0 <= i < c -> byte_at (memory_of s') (q + i) = byte_at m (p + i)) s.
Proof.
  intros [Hh Hinv] Hal Hold ->. pose proof (ls_arena _ _ _ Hinv) as Hwf.
  pose proof Hal as [(bq & Hq & Hrq & Hnq & Hpq) Hnew Hl Hpres].
  assert (Hne : p - PREFIX <> q - PREFIX) by congruence.
  assert (Hl1 : live (objects_of s) !! (p - PREFIX) = Some old_size).
  { rewrite Hl. by rewrite lookup_insert_ne. }
  destruct (Hpres _ _ Hold Hl1) as [_ Hbytes].
  apply lookup_live in Hl1 as (bp & Hp & Hrp & Hn0).
  assert (Hcp : 0 < old_size <= capacity bp).
  { pose proof (aw_objs _ Hwf _ _ Hp) as [(a & h & j & [])|[]]; lia. }
  pose proof (payloads_disjoint _ _ _ _ _ Hwf Hp Hq ltac:(done)) as Hdisj.
  replace (p - PREFIX + PREFIX) with p in * by lia. replace (q - PREFIX + PREFIX) with q in * by lia.
  assert (Hlen : Z.of_nat (length (read_bytes (memory_of s) p (Z.min old_size n))) = Z.min old_size n).
  { apply length_read_bytes. lia. }
  apply wp_on_mem. unfold memcpy. wp_step. apply wp_demand; [lia|]. wp_step.
  apply wp_load_bytes.
  { replace p with (p - PREFIX + PREFIX) by lia. eapply payload_accessible; [done|done|lia]. }
  apply wp_store_bytes.
  { rewrite Hlen. replace q with (q - PREFIX + PREFIX) by lia. eapply payload_accessible; [done|done|lia]. }
  cbn. split; [by split; [|apply lists_inv_set_bytes]|]. split.
  - apply allocated_put_bytes; [done|done|lia].
  - intros i Hi. rewrite byte_at_put, decide_True by lia.
    rewrite lookup_read_bytes by lia. simpl. rewrite <- Hbytes by lia. f_equal. lia.
Qed.

(** Releasing the old block after the copy completes the move. *)
Lemma moved_after_free m m1 m2 k old_size q n :
  arena_wf m1 -> live (objs m) !! k = Some old_size -> allocated m m1 n q ->
  (forall i, 0 <= i < Z.min old_size n -> byte_at m1 (q + i) = byte_at m (k + PREFIX + i)) ->
  released m1 m2 k \/ (live (objs m2) = live (objs m1) /\ preserved m1 m2 /\ free_can_fail) ->
  moved m m2 k old_size q n.
Proof.
  intros Hwf Hk [(bq & Hq & Hrq & Hnq & Hpq) Hnew Hl Hpres] Hcopy Hcases.
  assert (Hne : k <> q - PREFIX) by congruence.
  assert (Hapart : q + n <= k + PREFIX \/ k + PREFIX + old_size <= q).
  { assert (Hlk : live (objs m1) !! k = Some old_size) by (by rewrite Hl, lookup_insert_ne).
    apply lookup_live in Hlk as (bk & Hbk & Hrk & _).
    pose proof (payloads_disjoint _ _ _ _ _ Hwf Hbk Hq Hne).
    assert (requested_size bk <= capacity bk).
    { pose proof (aw_objs _ Hwf _ _ Hbk) as [(x & y & j & [])|[]]; lia. }
    unfold PREFIX in *. lia. }
  assert (Hlq : live (objs m1) !! (q - PREFIX) = Some n) by (rewrite Hl; apply lookup_insert_eq).
  assert (Hpres2 : preserved m1 m2) by (destruct Hcases as [[_ ?]|(_ & ? & _)]; done).
  assert (Hlq' : live (objs m2) !! (q - PREFIX) = Some n).
  { destruct Hcases as [[-> _]|(-> & _)]; [by rewrite lookup_delete_ne|done]. }
  destruct (Hpres2 _ _ Hlq Hlq') as [Hobj Hbytes]. split; [exists bq; by rewrite Hobj|done|done| | |].
  - destruct Hcases as [[Hrl _]|(Hrl & _ & ?)]; [left|right; split; [|done]]; by rewrite Hrl, Hl.
  - intros i Hi. rewrite <- Hcopy by done. replace (q + i) with (q - PREFIX + PREFIX + i) by lia. apply Hbytes. lia.
  - eapply preserved_trans_eq; [done|done|]. intros k' x Hk' Hk2. rewrite Hl.
    rewrite lookup_insert_ne by congruence. done.
Qed.

Lemma malloc_refused_weaken n s s1 : malloc_refused n s s1 -> same_core s s1.
Proof. by intros [? _]. Qed.

Lemma wp_realloc_move p old_size size b s :
  locked_wf s -> live (objects_of s) !! (p - PREFIX) = Some old_size -> is_size size -> size <> 0 ->
  hplf_block_from_payload p = p - PREFIX -> requested_size b = old_size ->
  objects_of s !! (p - PREFIX) = Some (OBlock b) ->
  wp (replacement ← hplf_malloc size;
      if replacement =? NULL then mret NULL
      else
        b ← on_mem (load_block (hplf_block_from_payload p));
        let copy_size := if requested_size b <? size then requested_size b else size in
        on_mem (memcpy replacement p copy_size);;
        hplf_free p;;
        mret replacement)
     (realloc_post p old_size size s) s.
Proof.
  intros Hwf Hl Hs Hn Hfrom Hr Hb. wp_step.
  eapply wp_mono; [by apply wp_malloc|]. intros q s1 [Hwf1 [[-> Href]|[Hq Hal]]].
  { simpl. wp_steps. split; [done|]. left. done. }
  destruct (Z.eqb_spec q NULL); [done|]. rewrite Hfrom.
  pose proof Hal as [(bq & _ & _ & _ & ?) Hnew Hl1 Hpres].
  assert (Hne : p - PREFIX <> q - PREFIX) by congruence.
  assert (Hlp : live (objects_of s1) !! (p - PREFIX) = Some old_size) by (by rewrite Hl1, lookup_insert_ne).
  destruct (Hpres _ _ Hl Hlp) as [Hobj _].
  wp_step. apply wp_on_mem. eapply wp_load_block; [apply block_at_Some; by rewrite Hobj|].
  assert (Hsame : set_mach (set_mem (memory_of s1) (mach s1)) s1 = s1) by (destruct s1 as [[]]; done).
  rewrite Hsame. rewrite Hr. wp_step.
  eapply wp_mono; [eapply wp_copy; [done|done|done|]|].
  { destruct (Z.ltb_spec old_size size); lia. }
  intros [] s2 (Hwf2 & Hal2 & Hcopy). wp_step.
  assert (Hlp2 : live (objects_of s2) !! (p - PREFIX) = Some old_size).
  { rewrite (al_live _ _ _ _ Hal2). by rewrite lookup_insert_ne. }
  eapply wp_mono; [by eapply wp_free|]. intros [] s3 Hfree. wp_steps.
  split; [apply Hfree|]. right. right. right. split; [done|]. split; [intros ->; done|]. split; [done|].
  eapply moved_after_free; [apply Hwf2|done|done| |].
  2: { destruct Hfree as (_ & _ & [[Hrel _]|[Hm Hf%free_fails_can]]); [by left|right]. rewrite Hm. split_and!; [done|apply preserved_refl|done]. }
  intros i Hi. replace (p - PREFIX + PREFIX + i) with (p + i) by lia. apply Hcopy.
  destruct (Z.ltb_spec old_size size); lia.
Qed.

Lemma wp_realloc p old_size size s :
  locked_wf s -> live (objects_of s) !! (p - PREFIX) = Some old_size -> is_size size ->
  wp (hplf_realloc p size) (realloc_post p old_size size s) s.
Proof.
  intros Hwf Hl Hs. destruct (live_block _ _ _ Hwf Hl) as (b & Hb & Hr & Hn & Hp & Hfrom).
  unfold hplf_realloc. destruct (Z.eqb_spec p NULL); [done|].
  destruct (Z.eqb_spec size 0) as [->|Hs0].
  { wp_step. eapply wp_mono; [by eapply wp_free|]. intros [] s1 Hf. wp_steps.
    split; [apply Hf|]. right. left. done. }
  destruct (Z.ltb_spec PTRDIFF_MAX size).
  { wp_step. apply wp_set_errno_a. wp_steps. split; [done|]. left. split; [done|]. split; [done|].
    split; [done|]. right. by left. }
  rewrite Hfrom. wp_step. apply wp_on_mem. eapply wp_load_block; [by apply block_at_Some|].
  assert (Hsame : set_mach (set_mem (memory_of s) (mach s)) s = s) by (destruct s as [[]]; done).
  rewrite Hsame. pose proof Hwf as [Hh Hinv]. pose proof (ls_arena _ _ _ Hinv) as Hawf.
  wp_step. apply wp_on_mem. eapply wp_mono; [by eapply wp_can_retain|].
  intros retain m [-> Hret]. rewrite Hsame. destruct retain.
  - pose proof (can_retain_fits _ _ _ _ Hawf Hb Hs Hs0 (proj1 Hret eq_refl)).
    wp_step. apply wp_on_mem. eapply wp_store_block; [by apply block_at_Some|]. wp_steps.
    split; [split; [done|]|].
    + cbn. apply lists_inv_resize; [done|done|lia|lia].
    + right. right. left. split; [done|]. split; [done|]. cbn. by apply retained_resize.
  - rewrite <- Hfrom. by eapply wp_realloc_move.
Qed.

Lemma wp_realloc_null size s :
  locked_wf s -> is_size size -> wp (hplf_realloc NULL size) (malloc_post size s) s.
Proof. intros. by apply wp_malloc. Qed.
End resize.
