(* ===== verification/TrimLists.v ===== *)
(** * List surgery of the trim: counting, splitting and joining free lists

    Specifications of [hplf_slab_free_count], [hplf_detach_slab_blocks] and
    [hplf_join_free_lists] as list functions, with the frame that only the
    [next_free] links of the traversed free list change. *)

From S2P Require Import Prelude CheckedMath SizeClass Memory Layout Chain OsMemory Slab Arena SlabSpec.
From S2P Require Import LockedAllocator FreeLists.

(** ** Definitions *)

(** [b] is a slot of the slab at [a]. *)
Definition owned_by (os : gmap Z object) (a b : Z) : Prop :=
  exists blk, os !! b = Some (OBlock blk) /\ owner blk = owner_small a.

#[export] Instance owned_by_dec os a b : Decision (owned_by os a b).
Proof.
  destruct (os !! b) as [[blk| |]|] eqn:E.
  - destruct (decide (owner blk = owner_small a)) as [Ho|Ho].
    + left. by exists blk.
    + right. intros (blk' & ? & ?). congruence.
  - right. intros (blk' & ? & ?). congruence.
  - right. intros (blk' & ? & ?). congruence.
  - right. intros (blk' & ? & ?). congruence.
Defined.

(** Only [next_free] links of the blocks in [l] differ. *)
Record relinked (l : list Z) (m m' : memory) : Prop := {
  rl_maps : maps m' = maps m;
  rl_bytes : bytes m' = bytes m;
  rl_out : forall k, k ∉ l -> objs m' !! k = objs m !! k;
  rl_in : forall k, k ∈ l -> exists b q, objs m !! k = Some (OBlock b) /\
                                         objs m' !! k = Some (OBlock (set_next_free q b))
}.

Section relinking.
Context `{Platform, !PlatformLaws}.
Implicit Types (m : memory) (l : list Z).

Lemma relinked_refl l m :
  (forall k, k ∈ l -> exists b, objs m !! k = Some (OBlock b)) -> relinked l m m.
Proof.
  intros Hl. split; try done. intros k Hk. destruct (Hl _ Hk) as [b Hb].
  exists b, (next_free b). split; [done|]. rewrite Hb. by destruct b.
Qed.

Lemma relinked_block l m m' k b :
  relinked l m m' -> objs m !! k = Some (OBlock b) ->
  exists q, objs m' !! k = Some (OBlock (set_next_free q b)).
Proof.
  intros R Hk. destruct (decide (k ∈ l)) as [Hin|Hout].
  - destruct (rl_in _ _ _ R _ Hin) as (b' & q & Hb' & Hq). exists q. congruence.
  - exists (next_free b). rewrite (rl_out _ _ _ R _ Hout), Hk. by destruct b.
Qed.

Lemma relinked_block_inv l m m' k b' :
  relinked l m m' -> objs m' !! k = Some (OBlock b') ->
  exists b q, objs m !! k = Some (OBlock b) /\ b' = set_next_free q b.
Proof.
  intros R Hk. destruct (decide (k ∈ l)) as [Hin|Hout].
  - destruct (rl_in _ _ _ R _ Hin) as (b & q & Hb & Hq). exists b, q. split; congruence.
  - rewrite (rl_out _ _ _ R _ Hout) in Hk. exists b', (next_free b'). split; [done|]. by destruct b'.
Qed.

Lemma relinked_slab l m m' k h :
  relinked l m m' -> objs m' !! k = Some (OSlab h) <-> objs m !! k = Some (OSlab h).
Proof.
  intros R. destruct (decide (k ∈ l)) as [Hin|Hout].
  - destruct (rl_in _ _ _ R _ Hin) as (b & q & -> & ->). done.
  - by rewrite (rl_out _ _ _ R _ Hout).
Qed.

Lemma relinked_store l m m' k b q :
  relinked l m m' -> k ∈ l -> objs m' !! k = Some (OBlock b) ->
  relinked l m (set_objs <[k := OBlock (set_next_free q b)]> m').
Proof.
  intros R Hin Hk. destruct (relinked_block_inv _ _ _ _ _ R Hk) as (b0 & q0 & Hb0 & ->).
  split; cbn; [apply R|apply R| |].
  - intros k' Hout. rewrite lookup_insert_ne by congruence. by apply R.
  - intros k' Hin'. rewrite lookup_insert. case_decide; [|by apply R].
    subst. exists b0, q. by split.
Qed.

Lemma relinked_same_elements l l' m m' :
  (forall k, k ∈ l <-> k ∈ l') -> relinked l m m' -> relinked l' m m'.
Proof.
  intros Hl R. split; [apply R..| |].
  - intros k Hk. apply (rl_out _ _ _ R). by rewrite Hl.
  - intros k Hk. apply (rl_in _ _ _ R). by rewrite Hl.
Qed.

Lemma relinked_trans l m1 m2 m3 : relinked l m1 m2 -> relinked l m2 m3 -> relinked l m1 m3.
Proof.
  intros R1 R2. split.
  - by rewrite (rl_maps _ _ _ R2), (rl_maps _ _ _ R1).
  - by rewrite (rl_bytes _ _ _ R2), (rl_bytes _ _ _ R1).
  - intros k Hk. by rewrite (rl_out _ _ _ R2), (rl_out _ _ _ R1).
  - intros k Hk. destruct (rl_in _ _ _ R1 _ Hk) as (b & q & Hb & Hq).
    destruct (rl_in _ _ _ R2 _ Hk) as (b' & q' & Hb' & Hq'). exists b, q'. split; [done|].
    assert (b' = set_next_free q b) as -> by congruence. done.
Qed.

Lemma relinked_owned l m m' a k : relinked l m m' -> owned_by (objs m') a k <-> owned_by (objs m) a k.
Proof.
  intros R. split.
  - intros (b' & Hb' & Ho). destruct (relinked_block_inv _ _ _ _ _ R Hb') as (b & q & Hb & ->). by exists b.
  - intros (b & Hb & Ho). destruct (relinked_block _ _ _ _ _ R Hb) as (q & Hq). by eexists.
Qed.

(** Chains through untouched nodes survive. *)
Lemma relinked_block_chain l m m' p l2 :
  relinked l m m' -> (forall k, k ∈ l2 -> k ∉ l) ->
  chain (block_next (objs m)) p l2 -> chain (block_next (objs m')) p l2.
Proof.
  intros R Hd Hc. eapply chain_ext; [done|]. intros b Hb. unfold block_next, block_at.
  by rewrite (rl_out _ _ _ R) by auto.
Qed.

Lemma relinked_slab_next l m m' a : relinked l m m' -> slab_next_of (objs m') a = slab_next_of (objs m) a.
Proof.
  intros R. unfold slab_next_of, slab_at. destruct (decide (a ∈ l)) as [Hin|Hout].
  - by destruct (rl_in _ _ _ R _ Hin) as (b & q & -> & ->).
  - by rewrite (rl_out _ _ _ R).
Qed.
End relinking.

(** ** Counting *)

Section counting.
Implicit Types (m : memory) (l : list Z).

Definition owned_list (os : gmap Z object) (a : Z) (l : list Z) : list Z := filter (owned_by os a) l.
Definition other_list (os : gmap Z object) (a : Z) (l : list Z) : list Z := filter (fun b => ~ owned_by os a b) l.

Lemma elem_of_split os a l k : k ∈ reverse (owned_list os a l) ++ reverse (other_list os a l) <-> k ∈ l.
Proof.
  unfold owned_list, other_list. rewrite elem_of_app, !elem_of_reverse, !list_elem_of_filter.
  destruct (decide (owned_by os a k)); tauto.
Qed.

(** Every node of the list is a slot block. *)
Definition all_small (os : gmap Z object) (l : list Z) : Prop :=
  forall b, b ∈ l -> exists blk a, os !! b = Some (OBlock blk) /\ owner blk = owner_small a.

Lemma owned_test os a b blk x :
  os !! b = Some (OBlock blk) -> owner blk = owner_small x -> owned_by os a b <-> x = a.
Proof.
  intros Hb Ho. split.
  - intros (blk' & ? & ?). congruence.
  - intros ->. by exists blk.
Qed.

Lemma wp_free_count_loop m a head l :
  chain (block_next (objs m)) head l -> all_small (objs m) l ->
  wp (iterate (list_fuel m) (free_count_step a) (head, 0))
     (fun count m' => m' = m /\ count = Z.of_nat (length (owned_list (objs m) a l)) mod WORD) m.
Proof.
  intros Hc Hs.
  pose (J := fun (rest : list Z) (st : Z * Z) (m' : memory) => m' = m /\ exists front, l = front ++ rest /\
     chain (block_next (objs m)) st.1 rest /\ st.2 = Z.of_nat (length (owned_list (objs m) a front)) mod WORD).
  apply (wp_iterate_list _ J) with (l := l); [|by eapply block_chain_fuel|].
  - intros rest [p count] m' (-> & front & Hl & Hch & Hcnt). simpl in *.
    destruct (Z.eqb_spec p NULL) as [->|Hp].
    + apply chain_NULL in Hch as ->. rewrite app_nil_r in Hl. subst front. wp_steps. done.
    + destruct (chain_head _ _ _ Hch Hp) as [rest' ->]. destruct Hch as (_ & _ & q & Hq & Hch).
      destruct (Hs p) as (blk & x & Hb & Ho); [rewrite Hl; set_solver|].
      apply block_next_Some in Hq as (blk' & Hb' & <-). assert (blk' = blk) as -> by congruence.
      wp_step. eapply wp_load_block; [by apply block_at_Some|]. wp_step.
      eapply wp_known; [unfold owner_small_slab; by rewrite Ho|]. wp_steps. exists rest'. split; [simpl; lia|].
      split; [done|]. exists (front ++ [p]). split; [by rewrite <- app_assoc|]. split; [done|]. simpl.
      unfold owned_list in *. rewrite filter_app, length_app, filter_cons, filter_nil.
      pose proof (owned_test _ a _ _ _ Hb Ho) as Hiff.
      destruct (Z.eqb_spec x a) as [->|]; case_decide; try tauto; simpl.
      * rewrite Hcnt. unfold wadd. rewrite Zplus_mod_idemp_l. f_equal. lia.
      * rewrite Hcnt. f_equal. lia.
  - split; [done|]. exists []. done.
Qed.

(** ** Splitting *)

Lemma wp_detach_loop m a head l :
  chain (block_next (objs m)) head l -> all_small (objs m) l -> NoDup l ->
  wp (iterate (list_fuel m) (detach_step a) (head, NULL, NULL))
     (fun r m' => relinked l m m' /\
        chain (block_next (objs m')) r.1 (reverse (owned_list (objs m) a l)) /\
        chain (block_next (objs m')) r.2 (reverse (other_list (objs m) a l))) m.
Proof.
  intros Hc Hs Hnd.
  pose (J := fun (rest : list Z) (st : Z * Z * Z) (m' : memory) => relinked l m m' /\
     exists front, l = front ++ rest /\ chain (block_next (objs m')) st.1.1 rest /\
       chain (block_next (objs m')) st.1.2 (reverse (owned_list (objs m) a front)) /\
       chain (block_next (objs m')) st.2 (reverse (other_list (objs m) a front))).
  apply (wp_iterate_list _ J) with (l := l); [|by eapply block_chain_fuel|].
  2: { split; [apply relinked_refl|by exists []]. intros k (blk & ? & ? & _)%Hs. by exists blk. }
  intros rest [[p removed] remaining] m' (R & front & Hl & Hch & Hch1 & Hch2). simpl in *.
  destruct (Z.eqb_spec p NULL) as [->|Hp].
  { apply chain_NULL in Hch as ->. rewrite app_nil_r in Hl. subst front. by wp_steps. }
  destruct (chain_head _ _ _ Hch Hp) as [rest' ->]. destruct Hch as (_ & _ & q & Hq & Hch).
  assert (Hpl : p ∈ l) by (rewrite Hl; set_solver).
  destruct (Hs p Hpl) as (blk & x & Hb & Ho).
  apply block_next_Some in Hq as (blk' & Hb' & <-).
  assert (Ho' : owner blk' = owner_small x).
  { destruct (relinked_block_inv _ _ _ _ _ R Hb') as (b0 & q0 & Hb0 & ->). simpl. congruence. }
  rewrite Hl in Hnd. apply NoDup_app in Hnd as (_ & Hdis & [Hpr _]%NoDup_cons).
  assert (Hpf : p ∉ front) by (intros Hin; apply (Hdis _ Hin); left).
  assert (Hsub : forall (P : Z -> Prop) `{!forall y, Decision (P y)}, p ∉ reverse (filter P front)).
  { intros P ? Hin%elem_of_reverse%list_elem_of_filter. tauto. }
  wp_step. eapply wp_load_block; [by apply block_at_Some|]. wp_step.
  eapply wp_known; [unfold owner_small_slab; by rewrite Ho'|]. cbn iota.
  pose proof (owned_test _ a _ _ _ Hb Ho) as Hiff. unfold owned_list, other_list in *.
  destruct (Z.eqb_spec x a) as [->|Hx]; wp_step;
    (eapply wp_store_block; [by apply block_at_Some|]); wp_steps;
    exists rest'; (split; [simpl; lia|]); (split; [by apply relinked_store|]);
    exists (front ++ [p]); (split; [by rewrite <- app_assoc|]); cbn [fst snd set_objs objs];
    (split; [by apply block_chain_insert_ne|]);
    rewrite !filter_app, !filter_cons, !filter_nil; repeat (case_decide; try tauto);
    rewrite ?app_nil_r, ?reverse_snoc; ((split; [|by apply block_chain_insert_ne, Hsub]) ||
      (split; [by apply block_chain_insert_ne, Hsub|]));
    simpl; (split; [done|]); (split; [done|]); eexists; rewrite block_next_insert, decide_True by done;
    (split; [done|]); by apply block_chain_insert_ne, Hsub.
Qed.

(** ** Joining *)

Lemma wp_join m first second l1 l2 :
  chain (block_next (objs m)) first l1 -> chain (block_next (objs m)) second l2 ->
  (forall k, k ∈ l1 -> k ∉ l2) ->
  wp (hplf_join_free_lists first second) (fun head m' => relinked (l1 ++ l2) m m' /\
     chain (block_next (objs m')) head (l1 ++ l2)) m.
Proof.
  intros H1 H2 Hd. unfold hplf_join_free_lists.
  assert (Hblk : forall k, k ∈ l1 ++ l2 -> exists b, objs m !! k = Some (OBlock b)).
  { intros k [Hk|Hk]%elem_of_app.
    - destruct (chain_elem_next _ _ _ _ H1 Hk) as [_ [q (b & ? & _)%block_next_Some]]. by exists b.
    - destruct (chain_elem_next _ _ _ _ H2 Hk) as [_ [q (b & ? & _)%block_next_Some]]. by exists b. }
  destruct (Z.eqb_spec first NULL) as [->|Hf].
  { apply chain_NULL in H1 as ->. wp_steps. split; [by apply relinked_refl|done]. }
  destruct (chain_last _ _ _ H1 Hf) as (l0 & x & ->).
  destruct (chain_snoc_inv _ _ _ _ H1) as (Hseg & Hx & Hnx).
  wp_steps.
  eapply wp_mono with (P := fun tail m' => tail = x /\ m' = m).
  - pose (J := fun (rest : list Z) (p : Z) (m' : memory) => m' = m /\ chain (block_next (objs m)) p rest /\
       exists rest0, rest = rest0 ++ [x]).
    apply (wp_iterate_list _ J) with (l := l0 ++ [x]); [|by eapply block_chain_fuel|by split_and!; [|done|exists l0]].
    intros rest p m' (-> & Hch & rest0 & ->). unfold join_step.
    destruct rest0 as [|y rest0]; simpl in Hch; destruct Hch as (-> & _ & q & Hq & Hch);
      apply block_next_Some in Hq as (b & Hb & <-); wp_step; (eapply wp_load_block; [by apply block_at_Some|]).
    + rewrite Hch. simpl. by wp_steps.
    + destruct (Z.eqb_spec (next_free b) NULL) as [E|_].
      * rewrite E in Hch. apply chain_NULL in Hch. by destruct rest0.
      * wp_steps. exists (rest0 ++ [x]). split; [simpl; lia|]. split; [done|]. split; [done|]. by exists rest0.
  - intros tail m' [-> ->]. apply block_next_Some in Hnx as (b & Hb & _).
    wp_step. eapply wp_store_block; [by apply block_at_Some|]. wp_steps.
    assert (Hin : x ∈ (l0 ++ [x]) ++ l2) by set_solver.
    split; [apply relinked_store; [by apply relinked_refl|done|done]|]. cbn.
    rewrite <- app_assoc. simpl. eapply chain_snoc_intro; [|done| |].
    + eapply seg_ext; [done|]. intros y Hy. rewrite block_next_insert, decide_False; [done|].
      intros ->. pose proof (chain_NoDup _ _ _ H1) as (_ & Hdis & _)%NoDup_app. apply (Hdis _ Hy). left.
    + rewrite block_next_insert, decide_True by done. done.
    + apply block_chain_insert_ne; [done|]. apply Hd. set_solver.
Qed.
End counting.
