(* ===== verification/Trim.v ===== *)
(** * Trimming: memory effects of relinking and of releasing whole slabs

    The relations between the memory before and during a trim, on which the
    specification of the registry walk (TrimLoop.v) is built: objects change only
    in their link fields, and whole slabs without live blocks disappear. *)

From S2P Require Import Prelude CheckedMath SizeClass Memory Layout Chain OsMemory Slab Arena SlabSpec.
From S2P Require Import LockedAllocator FreeLists LockedSpec TrimLists.

(** ** Definitions *)

(** Two versions of an object that differ in links only; a live block's header
    does not change at all. *)
Inductive same_but_links : object -> object -> Prop :=
| same_block_header b q : (requested_size b <> 0 -> q = next_free b) ->
    same_but_links (OBlock b) (OBlock (set_next_free q b))
| same_slab_header h q : same_but_links (OSlab h) (OSlab (set_slab_next q h))
| same_descriptor d : same_but_links (ODescriptor d) (ODescriptor d).

Record rewired (m m' : memory) : Prop := {
  rw_maps : maps m' = maps m;
  rw_bytes : bytes m' = bytes m;
  rw_objs : forall k, option_Forall2 same_but_links (objs m !! k) (objs m' !! k)
}.

(** [m'] is [m] with links rewired and the slabs of [G], none of which had a live
    block, unmapped. *)
Record trimmed (G : list Z) (m m' : memory) : Prop := {
  tr_maps : forall k, maps m' !! k = if decide (k ∈ G) then None else maps m !! k;
  tr_gone : forall k o, objs m !! k = Some o -> home k o ∈ G -> objs m' !! k = None;
  tr_kept : forall k o, objs m !! k = Some o -> home k o ∉ G ->
    exists o', objs m' !! k = Some o' /\ same_but_links o o';
  tr_old : forall k, is_Some (objs m' !! k) -> is_Some (objs m !! k);
  tr_bytes : forall k, (forall g len, g ∈ G -> maps m !! g = Some len -> ~ inside g len k) ->
    byte_at m' k = byte_at m k;
  tr_slabs : forall g, g ∈ G -> exists h, objs m !! g = Some (OSlab h) /\
    forall k b, objs m !! k = Some (OBlock b) -> home k (OBlock b) = g -> requested_size b = 0
}.

Section same.
Implicit Types (m : memory).

Lemma same_but_links_refl o : same_but_links o o.
Proof.
  destruct o as [b|h|d]; [|(replace h with (set_slab_next (slab_next h) h) at 2 by (by destruct h)); constructor|constructor].
  replace b with (set_next_free (next_free b) b) at 2 by (by destruct b). by constructor.
Qed.

Lemma same_but_links_trans o1 o2 o3 : same_but_links o1 o2 -> same_but_links o2 o3 -> same_but_links o1 o3.
Proof.
  intros [b q Hq|h q|d] S2; inversion S2 as [b' q' Hq'|h' q'|]; subst; [|apply (same_slab_header h q')|constructor].
  apply (same_block_header b q'). simpl in Hq'. intros Hr. by rewrite Hq', Hq.
Qed.

Lemma same_but_links_home k o o' : same_but_links o o' -> home k o' = home k o.
Proof. by intros []. Qed.

Lemma same_but_links_live o o' : same_but_links o o' -> live_size o' = live_size o.
Proof. by intros []. Qed.

Lemma rewired_refl m : rewired m m.
Proof. split; [done..|]. intros k. destruct (objs m !! k); constructor. apply same_but_links_refl. Qed.

Lemma rewired_trans m1 m2 m3 : rewired m1 m2 -> rewired m2 m3 -> rewired m1 m3.
Proof.
  intros R1 R2. split.
  - by rewrite (rw_maps _ _ R2), (rw_maps _ _ R1).
  - by rewrite (rw_bytes _ _ R2), (rw_bytes _ _ R1).
  - intros k. pose proof (rw_objs _ _ R2 k) as F2. destruct (rw_objs _ _ R1 k) as [o1 o2 H1|]; inversion F2; constructor.
    by eapply same_but_links_trans.
Qed.

Lemma rewired_lookup m m' k o :
  rewired m m' -> objs m !! k = Some o -> exists o', objs m' !! k = Some o' /\ same_but_links o o'.
Proof. intros R Hk. pose proof (rw_objs _ _ R k) as F. rewrite Hk in F. inversion F; subst. by eexists. Qed.

Lemma rewired_lookup_inv m m' k o' :
  rewired m m' -> objs m' !! k = Some o' -> exists o, objs m !! k = Some o /\ same_but_links o o'.
Proof. intros R Hk. pose proof (rw_objs _ _ R k) as F. rewrite Hk in F. inversion F; subst. by eexists. Qed.

Lemma rewired_relinked l m m' :
  relinked l m m' -> (forall k b, k ∈ l -> objs m !! k = Some (OBlock b) -> requested_size b = 0) -> rewired m m'.
Proof.
  intros R Hz. split; [apply R..|]. intros k. destruct (decide (k ∈ l)) as [Hin|Hout].
  - destruct (rl_in _ _ _ R _ Hin) as (b & q & Hb & ->). rewrite Hb. constructor. constructor.
    intros Hne. by rewrite (Hz _ _ Hin Hb) in Hne.
  - rewrite (rl_out _ _ _ R _ Hout). destruct (objs m !! k); constructor. apply same_but_links_refl.
Qed.

Lemma rewired_slab m a h q : objs m !! a = Some (OSlab h) -> rewired m (set_objs <[a := OSlab (set_slab_next q h)]> m).
Proof.
  intros Ha. split; [done..|]. intros k. cbn. rewrite lookup_insert. case_decide.
  - subst. rewrite Ha. constructor. constructor.
  - destruct (objs m !! k); constructor. apply same_but_links_refl.
Qed.

Lemma rewired_free m m' c k : rewired m m' -> free_in_class (objs m') c k <-> free_in_class (objs m) c k.
Proof.
  intros R. split; intros (b & a & h & Hb & ? & ? & ? & Ha & ?).
  - destruct (rewired_lookup_inv _ _ _ _ R Hb) as (o & Ho & S). inversion S; subst.
    destruct (rewired_lookup_inv _ _ _ _ R Ha) as (o & Ho2 & S2). inversion S2; subst. by eexists _, a, _.
  - destruct (rewired_lookup _ _ _ _ R Hb) as (o & Ho & S). inversion S; subst.
    destruct (rewired_lookup _ _ _ _ R Ha) as (o & Ho2 & S2). inversion S2; subst. by eexists _, a, _.
Qed.
End same.

(** ** The arena during a trim *)

Section trimming.
Context `{Platform, !PlatformLaws}.
Implicit Types (m : memory) (G : list Z).

Lemma rewired_arena_wf m m' : arena_wf m -> rewired m m' -> arena_wf m'.
Proof.
  intros Hwf R. pose proof (rw_maps _ _ R) as Hmaps. split; rewrite ?Hmaps; [|apply Hwf..].
  intros k o' Hk. destruct (rewired_lookup_inv _ _ _ _ R Hk) as (o & Ho & S).
  pose proof (aw_objs _ Hwf _ _ Ho) as Hok.
  assert (Hok' : object_ok m k o').
  { destruct S as [b q _|h q|d]; simpl in *; [|destruct Hok; by split|done].
    destruct Hok as [(a & h & i & [])|[]]; [left; exists a, h, i|right]; by split. }
  eapply object_ok_mono; [done|by rewrite Hmaps| |].
  - intros h Hs. destruct (rewired_lookup _ _ _ _ R Hs) as (o2 & Ho2 & S2). inversion S2; subst. by eexists.
  - intros h i b _ _ Hb. destruct (rewired_lookup _ _ _ _ R Hb) as (o2 & Ho2 & S2). inversion S2; subst. by eexists.
Qed.

Lemma trimmed_refl m : trimmed [] m m.
Proof.
  split.
  - intros k. rewrite decide_False by (apply not_elem_of_nil). done.
  - by intros k o _ ?%not_elem_of_nil.
  - intros k o Hk _. exists o. split; [done|apply same_but_links_refl].
  - done.
  - done.
  - by intros g ?%not_elem_of_nil.
Qed.

Lemma trimmed_lookup_inv G m m' k o' :
  trimmed G m m' -> objs m' !! k = Some o' ->
  exists o, objs m !! k = Some o /\ (home k o ∉ G) /\ same_but_links o o'.
Proof.
  intros T Hk. destruct (tr_old _ _ _ T k) as [o Ho]; [by eexists|].
  destruct (decide (home k o ∈ G)) as [Hin|Hout].
  - rewrite (tr_gone _ _ _ T _ _ Ho Hin) in Hk. done.
  - exists o. destruct (tr_kept _ _ _ T _ _ Ho Hout) as (o2 & Ho2 & S).
    assert (o2 = o') as -> by congruence. done.
Qed.

Lemma trimmed_rewired G m m1 m2 : trimmed G m m1 -> rewired m1 m2 -> trimmed G m m2.
Proof.
  intros T R. split.
  - intros k. rewrite (rw_maps _ _ R). apply T.
  - intros k o Ho Hin. pose proof (tr_gone _ _ _ T _ _ Ho Hin) as Hn. pose proof (rw_objs _ _ R k) as F.
    rewrite Hn in F. by inversion F.
  - intros k o Ho Hout. destruct (tr_kept _ _ _ T _ _ Ho Hout) as (o1 & Ho1 & S1).
    destruct (rewired_lookup _ _ _ _ R Ho1) as (o2 & Ho2 & S2). exists o2. split; [done|].
    by eapply same_but_links_trans.
  - intros k [o2 Ho2]. destruct (rewired_lookup_inv _ _ _ _ R Ho2) as (o1 & Ho1 & _).
    apply (tr_old _ _ _ T). by eexists.
  - intros k Hk. unfold byte_at. rewrite (rw_bytes _ _ R). by apply (tr_bytes _ _ _ T).
  - apply T.
Qed.

(** Unmapping one more slab all of whose slots are free. *)
Lemma trimmed_unmap G m m' a h :
  trimmed G m m' -> arena_wf m' -> objs m' !! a = Some (OSlab h) ->
  (forall k b, objs m' !! k = Some (OBlock b) -> home k (OBlock b) = a -> requested_size b = 0) ->
  trimmed (a :: G) m (unmap_region a (mapping_length h) m').
Proof.
  intros T Hwf Ha Hfree. pose proof (aw_objs _ Hwf _ _ Ha) as K. simpl in K.
  pose proof (sk_map _ _ _ K) as Hmap.
  assert (HaG : a ∉ G).
  { destruct (trimmed_lookup_inv _ _ _ _ _ T Ha) as (o & _ & Hh & S). by inversion S; subst. }
  assert (Hkeep : forall k o', objs m' !! k = Some o' ->
            objs (unmap_region a (mapping_length h) m') !! k = if decide (home k o' = a) then None else Some o').
  { intros k o' Hk. rewrite objs_unmap_region, Hk. pose proof (inside_home _ _ _ _ _ Hwf Hk Hmap).
    repeat case_decide; tauto || done. }
  split.
  - intros k. simpl. destruct (Z.eq_dec k a) as [->|Hne].
    + rewrite lookup_delete_eq, decide_True; [done|left].
    + rewrite lookup_delete_ne by done. rewrite (tr_maps _ _ _ T).
      destruct (decide (k ∈ G)), (decide (k ∈ a :: G)); set_solver.
  - intros k o Ho Hin. destruct (objs m' !! k) as [o'|] eqn:E.
    + rewrite (Hkeep _ _ E). destruct (trimmed_lookup_inv _ _ _ _ _ T E) as (o2 & Ho2 & Hout & S).
      assert (o2 = o) as -> by congruence. rewrite (same_but_links_home _ _ _ S).
      rewrite decide_True; [done|]. set_solver.
    + rewrite objs_unmap_region, E. by case_decide.
  - intros k o Ho Hout. rewrite not_elem_of_cons in Hout. destruct Hout as [Hne Hout].
    destruct (tr_kept _ _ _ T _ _ Ho Hout) as (o' & Ho' & S). exists o'. split; [|done].
    rewrite (Hkeep _ _ Ho'), (same_but_links_home _ _ _ S). by rewrite decide_False.
  - intros k [o' Ho']. rewrite objs_unmap_region in Ho'. case_decide; [done|]. apply (tr_old _ _ _ T). by eexists.
  - intros k Hk. rewrite byte_at_unmap_region.
    + apply (tr_bytes _ _ _ T). intros g len Hg. apply Hk. by right.
    + pose proof (tr_maps _ _ _ T a) as Hm. rewrite decide_False in Hm by done. apply Hk; [left|congruence].
  - intros g [->|Hg]%elem_of_cons; [|by apply (tr_slabs _ _ _ T)].
    destruct (trimmed_lookup_inv _ _ _ _ _ T Ha) as (o & Ho & _ & S). inversion S; subst.
    eexists. split; [done|]. intros k b Hb Hh.
    destruct (tr_kept _ _ _ T _ _ Hb) as (o' & Ho' & S'); [by rewrite Hh|].
    inversion S'; subst. specialize (Hfree _ _ Ho'). simpl in *. auto.
Qed.

Lemma trimmed_live G m m' : trimmed G m m' -> live (objs m') = live (objs m).
Proof.
  intros T. apply map_eq. intros k. apply option_eq. intros n. rewrite !lookup_live. split.
  - intros (b' & Hb' & Hr & Hn). destruct (trimmed_lookup_inv _ _ _ _ _ T Hb') as (o & Ho & _ & S).
    inversion S; subst. by eexists.
  - intros (b & Hb & Hr & Hn). destruct (decide (home k (OBlock b) ∈ G)) as [Hin|Hout].
    + destruct (tr_slabs _ _ _ T _ Hin) as (h & _ & Hz). rewrite (Hz _ _ Hb eq_refl) in Hr. congruence.
    + destruct (tr_kept _ _ _ T _ _ Hb Hout) as (o' & Ho' & S). inversion S; subst. by eexists.
Qed.

Lemma trimmed_preserved G m m' : arena_wf m -> trimmed G m m' -> preserved m m'.
Proof.
  intros Hwf T k n (b & Hb & Hr & Hn)%lookup_live _.
  assert (Hout : home k (OBlock b) ∉ G).
  { intros Hin. destruct (tr_slabs _ _ _ T _ Hin) as (h & _ & Hz). rewrite (Hz _ _ Hb eq_refl) in Hr. congruence. }
  split.
  - destruct (tr_kept _ _ _ T _ _ Hb Hout) as (o' & Ho' & S). rewrite Ho', Hb. inversion S as [b0 q Hq| |]; subst.
    rewrite Hq by done. by destruct b.
  - intros i Hi. apply (tr_bytes _ _ _ T). intros g len Hg Hmap Hins.
    destruct (object_home _ _ _ Hwf Hb) as (len' & Hm' & Hlo & Hhi). simpl extent in Hhi.
    assert (requested_size b <= capacity b).
    { pose proof (aw_objs _ Hwf _ _ Hb) as [(x & y & j & [])|[]]; lia. }
    assert (Hne : g <> home k (OBlock b)) by congruence.
    pose proof (aw_disjoint _ Hwf _ _ _ _ Hmap Hm' Hne). unfold inside, PREFIX in *. lia.
Qed.

(** The free blocks that survive are exactly the old ones that are still there. *)
Lemma trimmed_free G m m' c b :
  arena_wf m -> trimmed G m m' ->
  free_in_class (objs m') c b <-> free_in_class (objs m) c b /\ is_Some (objs m' !! b).
Proof.
  intros Hwf T. split.
  - intros (blk' & a & h' & Hb' & ? & ? & ? & Ha' & ?). split; [|by eexists].
    destruct (trimmed_lookup_inv _ _ _ _ _ T Hb') as (o & Ho & _ & S). inversion S; subst.
    destruct (trimmed_lookup_inv _ _ _ _ _ T Ha') as (o & Ho2 & _ & S2). inversion S2; subst.
    by eexists _, a, _.
  - intros [(blk & a & h & Hb & ? & ? & Hown & Ha & ?) [o' Ho']].
    destruct (trimmed_lookup_inv _ _ _ _ _ T Ho') as (o & Ho & Hout & S).
    assert (o = OBlock blk) as -> by congruence. simpl in Hout. rewrite Hown in Hout.
    destruct (tr_kept _ _ _ T _ _ Ha Hout) as (o2 & Ho2 & S2). inversion S; subst. inversion S2; subst.
    by eexists _, a, _.
Qed.
End trimming.
