(* ===== verification/TrimLoop.v ===== *)
(** * Trimming: the registry walk

    Specification of [trim_registry], shared by the variants: given free lists
    that hold some of the free blocks, the walk unmaps exactly slabs all of whose
    slots are on their class's list, keeps every other slab, and leaves lists and
    registry consistent. A failed unmap restores both structures. *)

From S2P Require Import Prelude CheckedMath SizeClass Memory Layout Chain OsMemory Slab Arena SlabSpec.
From S2P Require Import LockedAllocator FreeLists LockedSpec TrimLists Trim.

(** ** Definitions *)

(** The link the walk stands at after visiting and keeping the slabs [pre]. *)
Definition link_at (pre : list Z) : registry_link :=
  match last pre with None => link_head | Some a => link_next a end.

(** The addresses of all slots of a slab. *)
Definition slab_addresses (a : Z) (h : hplf_slab) : list Z := slot_at a h <$> seqZ 0 (slot_count h).

(** The lists hold the blocks of [F] that still exist. *)
Definition lists_hold (F : Z -> Z -> Prop) (m : memory) (lists : list Z) : Prop :=
  forall c head, array_get lists c = Some head -> exists l, chain (block_next (objs m)) head l /\
    forall b, b ∈ l <-> F c b /\ is_Some (objs m !! b).

(** The slab [a] has a slot that is on no list. *)
Definition kept (F : Z -> Z -> Prop) (m : memory) (a : Z) : Prop :=
  exists h i, objs m !! a = Some (OSlab h) /\ 0 <= i < slot_count h /\
    ~ F (class_index h) (slot_at a h i).

(** The state of the walk: [pre] is visited and kept, [suf] is to visit, the slabs
    of [G] are unmapped. *)
Record trim_inv `{Build, Platform} (m0 : memory) (F : Z -> Z -> Prop) (pre suf G : list Z) (total : Z)
    (s : hplf_allocator_state) : Prop := {
  ti_held : registry_held s = true;
  ti_arena : arena_wf (memory_of s);
  ti_length : Z.of_nat (length (free_lists s)) = HPLF_SIZE_CLASS_COUNT;
  ti_trimmed : trimmed G m0 (memory_of s);
  ti_nodup : NoDup G;
  ti_lists : lists_hold F (memory_of s) (free_lists s);
  ti_chain : chain (slab_next_of (objects_of s)) (slabs s) (pre ++ suf);
  ti_slabs : forall a, a ∈ pre ++ suf <-> exists h, objects_of s !! a = Some (OSlab h);
  ti_kept : forall a, a ∈ pre -> kept F m0 a \/ unmap_can_fail;
  ti_untouched : forall k o, objs m0 !! k = Some o -> (forall c, ~ F c k) -> (forall h, o <> OSlab h) ->
    objects_of s !! k = Some o;
  ti_total : total = Z.min SIZE_MAX (Z.of_nat (length G) * slab_mapping sysconf_pagesize)
}.

(** ** Links *)

Section links.
Implicit Types (s : hplf_allocator_state) (pre suf : list Z).

Lemma link_at_snoc pre a : link_at (pre ++ [a]) = link_next a.
Proof. unfold link_at. by rewrite last_snoc. Qed.

Lemma list_snoc_cases pre : pre = [] \/ exists pre0 x, pre = pre0 ++ [x].
Proof. destruct pre as [|y pre]; [by left|]. right. destruct (exists_last (l := y :: pre)) as (l0 & x & ->); [done|]. by exists l0, x. Qed.

Lemma wp_on_mem' {A} (p : prog memory A) (Q : A -> hplf_allocator_state -> Prop) s :
  wp p (fun a m => forall s', s' = set_mach (set_mem m (mach s)) s -> Q a s') (memory_of s) -> wp (on_mem p) Q s.
Proof. intros Hw. apply wp_on_mem. eapply wp_mono; [exact Hw|]. intros a m HQ. by apply HQ. Qed.

Lemma set_mem_same s : set_mach (set_mem (memory_of s) (mach s)) s = s.
Proof. by destruct s as [[]]. Qed.

Lemma wp_read_link pre suf (Q : Z -> hplf_allocator_state -> Prop) s :
  chain (slab_next_of (objects_of s)) (slabs s) (pre ++ suf) ->
  (forall p, chain (slab_next_of (objects_of s)) p suf -> Q p s) ->
  wp (read_link (link_at pre)) Q s.
Proof.
  intros Hc HQ. destruct (list_snoc_cases pre) as [->|(pre0 & x & ->)].
  - simpl. wp_steps. by apply HQ.
  - rewrite link_at_snoc. rewrite <- app_assoc in Hc. apply chain_app in Hc as (r & _ & -> & _ & q & Hq & Hc).
    apply slab_next_Some in Hq as (h & Hh & <-). simpl. wp_step. apply wp_on_mem.
    eapply wp_load_slab; [by apply slab_at_Some|]. wp_steps. rewrite set_mem_same. by apply HQ.
Qed.

Lemma wp_write_link pre suf p suf' (Q : unit -> hplf_allocator_state -> Prop) s :
  chain (slab_next_of (objects_of s)) (slabs s) (pre ++ suf) ->
  chain (slab_next_of (objects_of s)) p suf' -> (forall a, a ∈ pre -> a ∉ suf') ->
  (forall s', registry_held s' = registry_held s -> free_lists s' = free_lists s ->
     rewired (memory_of s) (memory_of s') -> (forall k, k ∉ pre -> objects_of s' !! k = objects_of s !! k) ->
     chain (slab_next_of (objects_of s')) (slabs s') (pre ++ suf') -> Q tt s') ->
  wp (write_link (link_at pre) p) Q s.
Proof.
  intros Hc Hc' Hd HQ. pose proof (chain_NoDup _ _ _ Hc) as Hnd.
  destruct (list_snoc_cases pre) as [->|(pre0 & x & ->)].
  - simpl. wp_steps. apply HQ; try done. apply rewired_refl.
  - rewrite link_at_snoc. rewrite <- !app_assoc in *. simpl in Hnd. apply NoDup_app in Hnd as (_ & Hnd & _).
    apply chain_app in Hc as (r & Hs & -> & Hx & q & Hq & Hc).
    apply slab_next_Some in Hq as (h & Hh & <-). simpl. apply wp_on_mem.
    eapply wp_store_slab; [by apply slab_at_Some|]. cbn.
    assert (Hext : forall b, b <> x -> slab_next_of (<[x := OSlab (set_slab_next p h)]> (objects_of s)) b =
                             slab_next_of (objects_of s) b).
    { intros b Hb. unfold slab_next_of, slab_at. by rewrite lookup_insert_ne. }
    apply HQ; [done..|by apply rewired_slab| |].
    + intros k Hk. cbn. apply lookup_insert_ne. set_solver.
    + simpl. eapply chain_snoc_intro; [|done| |].
      * eapply seg_ext; [done|]. intros b Hb. apply Hext. intros ->. apply (Hnd _ Hb). left.
      * cbn. unfold slab_next_of, slab_at. by rewrite lookup_insert_eq.
      * eapply chain_ext; [done|]. intros b Hb. apply Hext. intros ->. apply (Hd x); [set_solver|done].
Qed.
End links.

(** ** Slots of a slab on a list *)

Section slots.
Context `{Platform, !PlatformLaws}.
Implicit Types (m : memory) (l : list Z).

Lemma slot_count_bound m a h : arena_wf m -> objs m !! a = Some (OSlab h) -> 0 <= slot_count h < WORD.
Proof.
  intros Hwf Ha. pose proof (aw_objs _ Hwf _ _ Ha) as K. simpl in K.
  pose proof (is_class_capacity_bounds _ _ (sk_class _ _ _ K)) as [Hc _].
  assert (Hge : 0 <= slot_count h).
  { rewrite (sk_count _ _ _ K). apply slab_slots_bounds; [lia|apply pagesize_gt0]. }
  split; [done|]. destruct (Z.eq_dec (slot_count h) 0) as [->|]; [done|].
  pose proof (slab_slot_bounds _ _ _ (slot_count h - 1) K ltac:(lia)) as [_ Hhi].
  destruct (aw_maps _ Hwf _ _ (sk_map _ _ _ K)) as (? & ? & _ & Hlim).
  unfold slot_at, slot_address in Hhi. rewrite (sk_stride _ _ _ K), (sk_first _ _ _ K) in Hhi.
  change sizeof_hplf_slab with 64 in Hhi. change WORD with (2 ^ 64). unfold PREFIX, ADDRESS_LIMIT in *. nia.
Qed.

Lemma slab_addresses_length m a h :
  arena_wf m -> objs m !! a = Some (OSlab h) -> Z.of_nat (length (slab_addresses a h)) = slot_count h.
Proof.
  intros Hwf Ha. pose proof (slot_count_bound _ _ _ Hwf Ha). unfold slab_addresses.
  rewrite length_fmap, length_seqZ. lia.
Qed.

Lemma slab_addresses_NoDup m a h :
  arena_wf m -> objs m !! a = Some (OSlab h) -> NoDup (slab_addresses a h).
Proof.
  intros Hwf Ha. pose proof (aw_objs _ Hwf _ _ Ha) as K. simpl in K.
  pose proof (is_class_capacity_bounds _ _ (sk_class _ _ _ K)) as [Hc _]. pose proof (sk_stride _ _ _ K) as Hs.
  apply NoDup_fmap_2_strong; [|apply NoDup_seqZ]. intros i j _ _. unfold slot_at, slot_address, PREFIX in *. nia.
Qed.

Lemma elem_of_slab_addresses a h b :
  b ∈ slab_addresses a h <-> exists i, b = slot_at a h i /\ 0 <= i < slot_count h.
Proof.
  unfold slab_addresses. rewrite list_elem_of_fmap. setoid_rewrite elem_of_seqZ.
  split; intros (i & ? & ?); exists i; split; done || lia.
Qed.

Lemma owned_slot m a h b :
  arena_wf m -> objs m !! a = Some (OSlab h) -> owned_by (objs m) a b -> b ∈ slab_addresses a h.
Proof.
  intros Hwf Ha (blk & Hb & Ho). apply elem_of_slab_addresses.
  pose proof (aw_objs _ Hwf _ _ Hb) as [(a' & h' & i & S)|[]]; [|congruence].
  assert (a' = a) as -> by (pose proof (sm_owner _ _ _ _ _ _ S); congruence).
  assert (h' = h) as -> by (pose proof (sm_slab _ _ _ _ _ _ S); congruence).
  exists i. split; [apply S|apply S].
Qed.

Lemma owned_submseteq m a h l :
  arena_wf m -> objs m !! a = Some (OSlab h) -> NoDup l -> owned_list (objs m) a l ⊆+ slab_addresses a h.
Proof.
  intros Hwf Ha Hnd. apply NoDup_submseteq; [by apply NoDup_filter|].
  intros b [Hb _]%list_elem_of_filter. by eapply owned_slot.
Qed.

Lemma owned_count_bound m a h l :
  arena_wf m -> objs m !! a = Some (OSlab h) -> NoDup l ->
  0 <= Z.of_nat (length (owned_list (objs m) a l)) <= slot_count h.
Proof.
  intros Hwf Ha Hnd. rewrite <- (slab_addresses_length _ _ _ Hwf Ha).
  pose proof (submseteq_length _ _ (owned_submseteq _ _ _ _ Hwf Ha Hnd)). lia.
Qed.

(** The pigeonhole step of the trim: a full count means every slot is listed. *)
Lemma owned_count_full m a h l :
  arena_wf m -> objs m !! a = Some (OSlab h) -> NoDup l ->
  Z.of_nat (length (owned_list (objs m) a l)) = slot_count h ->
  forall b, b ∈ slab_addresses a h -> b ∈ l.
Proof.
  intros Hwf Ha Hnd Hlen b Hb. rewrite <- (slab_addresses_length _ _ _ Hwf Ha) in Hlen.
  assert (Hp : owned_list (objs m) a l ≡ₚ slab_addresses a h).
  { apply submseteq_length_Permutation; [by eapply owned_submseteq|lia]. }
  rewrite <- Hp in Hb. by apply list_elem_of_filter in Hb as [_ ?].
Qed.

Lemma owned_count_missing m a h l :
  arena_wf m -> objs m !! a = Some (OSlab h) -> NoDup l ->
  Z.of_nat (length (owned_list (objs m) a l)) <> slot_count h ->
  exists i, 0 <= i < slot_count h /\ (slot_at a h i ∉ l).
Proof.
  intros Hwf Ha Hnd Hlen. destruct (decide (Forall (fun b => b ∈ l) (slab_addresses a h))) as [Hall|Hnot].
  - exfalso. rewrite Forall_forall in Hall. apply Hlen. rewrite <- (slab_addresses_length _ _ _ Hwf Ha).
    f_equal. apply Nat.le_antisymm; [by apply submseteq_length; eapply owned_submseteq|].
    apply submseteq_length, NoDup_submseteq; [by eapply slab_addresses_NoDup|].
    intros b Hb. apply list_elem_of_filter. split; [|by apply Hall].
    apply elem_of_slab_addresses in Hb as (i & -> & Hi).
    pose proof (aw_objs _ Hwf _ _ Ha) as K. destruct (sk_slots _ _ _ K i Hi) as (blk & ? & ?). by exists blk.
  - apply not_Forall_Exists, Exists_exists in Hnot as (b & Hb & Hn); [|apply _].
    apply elem_of_slab_addresses in Hb as (i & -> & Hi). by exists i.
Qed.
End slots.

(** ** One iteration of the walk *)

Section walk.
Context `{Build, Platform, !PlatformLaws}.
Context (m0 : memory) (F : Z -> Z -> Prop).
Context (Hwf0 : arena_wf m0) (HF : forall c b, F c b -> free_in_class (objs m0) c b).
Implicit Types (s : hplf_allocator_state) (m : memory) (pre suf G l lists : list Z).

Lemma listed_free m G c b :
  trimmed G m0 m -> F c b -> is_Some (objs m !! b) -> free_in_class (objs m) c b.
Proof. intros T HFb Hs. apply (trimmed_free _ _ _ _ _ Hwf0 T). auto. Qed.

Lemma listed_small m G c l :
  trimmed G m0 m -> (forall b, b ∈ l <-> F c b /\ is_Some (objs m !! b)) -> all_small (objs m) l.
Proof.
  intros T Hl b [HFb Hs]%Hl. destruct (listed_free _ _ _ _ T HFb Hs) as (blk & a & h & ? & ? & ? & ? & _).
  by exists blk, a.
Qed.

(** What is left of an object after a slab's mapping went away. *)
Lemma unmap_slab_lookup m a h k o :
  arena_wf m -> objs m !! a = Some (OSlab h) -> objs m !! k = Some o ->
  objs (unmap_region a (mapping_length h) m) !! k = if decide (home k o = a) then None else Some o.
Proof.
  intros Hwf Ha Hk. pose proof (aw_objs _ Hwf _ _ Ha) as K. simpl in K.
  rewrite objs_unmap_region, Hk. pose proof (inside_home _ _ _ _ _ Hwf Hk (sk_map _ _ _ K)).
  repeat case_decide; tauto || done.
Qed.

(** The class of [a]'s free list was split: [removed] holds [a]'s slots. *)
Record detached (m m1 : memory) lists (a : Z) (h : hplf_slab) l (removed remaining : Z) : Prop := {
  dt_head : exists head, array_get lists (class_index h) = Some head /\ chain (block_next (objs m)) head l;
  dt_listed : forall b, b ∈ l <-> F (class_index h) b /\ is_Some (objs m !! b);
  dt_full : forall b, b ∈ slab_addresses a h -> b ∈ l;
  dt_relinked : relinked l m m1;
  dt_removed : chain (block_next (objs m1)) removed (reverse (owned_list (objs m) a l));
  dt_remaining : chain (block_next (objs m1)) remaining (reverse (other_list (objs m) a l))
}.

(** The state after the slab was taken off its list and off the registry. *)
Record unlinked pre suf (a : Z) (h : hplf_slab) l (removed remaining : Z) s m1 s2 : Prop := {
  un_detached : detached (memory_of s) m1 (free_lists s) a h l removed remaining;
  un_held : registry_held s2 = true;
  un_lists : free_lists s2 = <[Z.to_nat (class_index h) := remaining]> (free_lists s);
  un_rewired : rewired m1 (memory_of s2);
  un_frame : forall k, k ∉ pre -> objects_of s2 !! k = objs m1 !! k;
  un_chain : chain (slab_next_of (objects_of s2)) (slabs s2) (pre ++ suf)
}.

Lemma detached_rewired m m1 lists a h l removed remaining G :
  trimmed G m0 m -> detached m m1 lists a h l removed remaining -> rewired m m1.
Proof.
  intros T D. eapply rewired_relinked; [by eapply dt_relinked|].
  intros k b Hk Hb. apply (dt_listed _ _ _ _ _ _ _ _ D) in Hk as [HFk Hs].
  destruct (listed_free _ _ _ _ T HFk Hs) as (blk & ? & ? & ? & ? & ? & _). congruence.
Qed.

Lemma class_index_range m a h :
  arena_wf m -> objs m !! a = Some (OSlab h) -> 0 <= class_index h < HPLF_SIZE_CLASS_COUNT.
Proof. intros Hwf Ha. pose proof (aw_objs _ Hwf _ _ Ha) as K. by eapply is_class_index, sk_class. Qed.

(** The walk's reading of the class list and its count. *)
Lemma wp_free_count pre suf G total s a h :
  trim_inv m0 F pre (a :: suf) G total s -> objects_of s !! a = Some (OSlab h) ->
  wp (hplf_slab_free_count a (free_lists s)) (fun count m => m = memory_of s /\
    exists head l, array_get (free_lists s) (class_index h) = Some head /\
      chain (block_next (objects_of s)) head l /\
      (forall b, b ∈ l <-> F (class_index h) b /\ is_Some (objects_of s !! b)) /\
      count = Z.of_nat (length (owned_list (objects_of s) a l))) (memory_of s).
Proof.
  intros I Ha. pose proof (ti_arena _ _ _ _ _ _ _ I) as Hwf.
  destruct (array_get_class (free_lists s) (class_index h)) as [head Hget];
    [by eapply ti_length|by eapply class_index_range|].
  destruct (ti_lists _ _ _ _ _ _ _ I _ _ Hget) as (l & Hch & Hl).
  unfold hplf_slab_free_count. wp_step. eapply wp_load_slab; [by apply slab_at_Some|]. wp_step.
  eapply wp_known; [done|]. wp_steps.
  eapply wp_mono; [eapply (wp_free_count_loop _ a _ l); [done|]; eapply listed_small; [by eapply ti_trimmed|done]|].
  intros count m (-> & ->). split; [done|]. exists head, l. split_and!; [done..|].
  apply Z.mod_small. pose proof (slot_count_bound _ _ _ Hwf Ha).
  pose proof (owned_count_bound _ _ _ l Hwf Ha (chain_NoDup _ _ _ Hch)). lia.
Qed.

Lemma wp_detach pre suf G total s a h head l :
  trim_inv m0 F pre (a :: suf) G total s -> objects_of s !! a = Some (OSlab h) ->
  array_get (free_lists s) (class_index h) = Some head -> chain (block_next (objects_of s)) head l ->
  (forall b, b ∈ l <-> F (class_index h) b /\ is_Some (objects_of s !! b)) ->
  Z.of_nat (length (owned_list (objects_of s) a l)) = slot_count h ->
  wp (hplf_detach_slab_blocks a (free_lists s)) (fun chains m1 =>
    detached (memory_of s) m1 (free_lists s) a h l chains.1 chains.2) (memory_of s).
Proof.
  intros I Ha Hget Hch Hl Hcount. pose proof (ti_arena _ _ _ _ _ _ _ I) as Hwf.
  pose proof (chain_NoDup _ _ _ Hch) as Hnd.
  unfold hplf_detach_slab_blocks. wp_step. eapply wp_load_slab; [by apply slab_at_Some|]. wp_step.
  eapply wp_known; [done|]. wp_steps.
  eapply wp_mono; [eapply (wp_detach_loop _ a _ l); [done| |done]; eapply listed_small; [by eapply ti_trimmed|done]|].
  intros [removed remaining] m1 (R & Hr1 & Hr2). split; [by exists head|done| |done..].
  by eapply owned_count_full.
Qed.

(** Facts common to both outcomes of the unmap. *)
Section unlinked_facts.
Context (pre suf G : list Z) (total : Z) s (a : Z) (h : hplf_slab) (l : list Z) (removed remaining : Z) (m1 : memory) s2.
Context (I : trim_inv m0 F pre (a :: suf) G total s) (Ha : objects_of s !! a = Some (OSlab h)).
Context (U : unlinked pre suf a h l removed remaining s m1 s2).

Lemma unlinked_relinked : relinked l (memory_of s) m1.
Proof. eapply dt_relinked, un_detached, U. Qed.

Lemma unlinked_slab_frame x h' : x ∉ pre -> objects_of s2 !! x = Some (OSlab h') <-> objects_of s !! x = Some (OSlab h').
Proof. intros Hx. rewrite (un_frame _ _ _ _ _ _ _ _ _ _ U _ Hx). apply (relinked_slab _ _ _ _ _ unlinked_relinked). Qed.

Lemma unlinked_rewired : rewired (memory_of s) (memory_of s2).
Proof.
  eapply rewired_trans; [|by eapply un_rewired].
  eapply detached_rewired; [by eapply ti_trimmed|by eapply un_detached].
Qed.

Lemma unlinked_arena : arena_wf (memory_of s2).
Proof. eapply rewired_arena_wf; [by eapply ti_arena|apply unlinked_rewired]. Qed.

Lemma unlinked_NoDup : NoDup (pre ++ a :: suf).
Proof. eapply chain_NoDup, ti_chain, I. Qed.

Lemma unlinked_slab : objects_of s2 !! a = Some (OSlab h).
Proof.
  apply unlinked_slab_frame; [|done]. pose proof unlinked_NoDup as (_ & Hd & _)%NoDup_app.
  intros Hin. apply (Hd _ Hin). left.
Qed.

Lemma unlinked_slabs x : x ∈ pre ++ a :: suf <-> exists h', objects_of s2 !! x = Some (OSlab h').
Proof.
  rewrite (ti_slabs _ _ _ _ _ _ _ I). split; intros [h' Hx].
  - destruct (rewired_lookup _ _ _ _ unlinked_rewired Hx) as (o & Ho & S). inversion S; subst. by eexists.
  - destruct (rewired_lookup_inv _ _ _ _ unlinked_rewired Hx) as (o & Ho & S). inversion S; subst. by eexists.
Qed.

(** Blocks are not registry nodes, so chains of blocks survive the unlinking. *)
Lemma unlinked_block_frame b blk : objs m1 !! b = Some (OBlock blk) -> objects_of s2 !! b = Some (OBlock blk).
Proof.
  intros Hb. rewrite (un_frame _ _ _ _ _ _ _ _ _ _ U); [done|]. intros Hin.
  assert (Hs : b ∈ pre ++ a :: suf) by (apply elem_of_app; by left).
  apply (ti_slabs _ _ _ _ _ _ _ I) in Hs as [h' Hs].
  apply (relinked_slab _ _ _ _ _ unlinked_relinked) in Hs. congruence.
Qed.

Lemma unlinked_chain p l' : chain (block_next (objs m1)) p l' -> chain (block_next (objects_of s2)) p l'.
Proof.
  intros Hc. eapply chain_ext; [done|]. intros b Hb.
  destruct (chain_elem_next _ _ _ _ Hc Hb) as [_ [q Hq]]. rewrite Hq. apply block_next_Some in Hq as (blk & Hblk & <-).
  apply block_next_Some. exists blk. split; [by apply unlinked_block_frame|done].
Qed.

Lemma unlinked_is_Some b : is_Some (objects_of s2 !! b) <-> is_Some (objects_of s !! b).
Proof.
  split; intros [o Ho].
  - destruct (rewired_lookup_inv _ _ _ _ unlinked_rewired Ho) as (? & ? & _). by eexists.
  - destruct (rewired_lookup _ _ _ _ unlinked_rewired Ho) as (? & ? & _). by eexists.
Qed.

(** A listed block of [s2] is a slot of [a] exactly when it was on [a]'s part. *)
Lemma unlinked_home c b o :
  F c b -> objects_of s2 !! b = Some o -> home b o = a <-> owned_by (objects_of s) a b.
Proof.
  intros HFb Ho.
  destruct (rewired_lookup_inv _ _ _ _ unlinked_rewired Ho) as (o1 & Ho1 & S).
  rewrite (same_but_links_home _ _ _ S).
  destruct (listed_free _ _ _ _ (ti_trimmed _ _ _ _ _ _ _ I) HFb ltac:(by eexists)) as (blk & x & hx & Hb & _ & _ & Hx & _).
  assert (o1 = OBlock blk) as -> by congruence. simpl. rewrite Hx. symmetry. by eapply owned_test.
Qed.

Lemma owned_class c b : F c b -> owned_by (objects_of s) a b -> c = class_index h.
Proof.
  intros HFb (blk & Hb & Ho).
  destruct (listed_free _ _ _ _ (ti_trimmed _ _ _ _ _ _ _ I) HFb ltac:(by eexists)) as (blk' & x & hx & Hb' & _ & _ & Hx & Hhx & <-).
  assert (blk' = blk) as -> by congruence. assert (x = a) as -> by congruence.
  assert (hx = h) as -> by congruence. done.
Qed.

(** The lists of [s2]: the class of [a] lost [a]'s slots, the others are intact. *)
Lemma unlinked_lists c head :
  array_get (free_lists s2) c = Some head -> exists l', chain (block_next (objects_of s2)) head l' /\
    forall b, b ∈ l' <-> F c b /\ is_Some (objects_of s !! b) /\ ~ owned_by (objects_of s) a b.
Proof.
  pose proof (un_detached _ _ _ _ _ _ _ _ _ _ U) as D.
  rewrite (un_lists _ _ _ _ _ _ _ _ _ _ U), array_get_insert.
  2: { rewrite (ti_length _ _ _ _ _ _ _ I). eapply class_index_range; [by eapply ti_arena|done]. }
  case_decide as E.
  - intros [= <-]. eexists. split; [eapply unlinked_chain, dt_remaining, D|]. intros b.
    rewrite elem_of_reverse. unfold other_list. rewrite list_elem_of_filter.
    rewrite (dt_listed _ _ _ _ _ _ _ _ D), E. tauto.
  - intros (l' & Hch & Hl')%(ti_lists _ _ _ _ _ _ _ I). exists l'.
    assert (Hno : forall b, b ∈ l' -> ~ owned_by (objects_of s) a b).
    { intros b [HFb _]%Hl' Ho. apply E. symmetry. by eapply owned_class. }
    split; [|intros b; rewrite Hl'; specialize (Hno b); rewrite Hl' in Hno; tauto].
    apply unlinked_chain. eapply relinked_block_chain; [apply unlinked_relinked| |done].
    intros b [HFb Hs]%Hl' Hb. apply E. apply (dt_listed _ _ _ _ _ _ _ _ D) in Hb as [HFb' _].
    eapply free_in_class_functional; by apply HF.
Qed.

(** Every slot of [a] is free. *)
Lemma unlinked_all_free k b :
  objects_of s2 !! k = Some (OBlock b) -> home k (OBlock b) = a -> requested_size b = 0.
Proof.
  intros Hk Hh. pose proof (un_detached _ _ _ _ _ _ _ _ _ _ U) as D. pose proof unlinked_arena as Hwf.
  assert (How : owned_by (objects_of s2) a k).
  { destruct (home_inv _ _ _ Hwf Hk) as [E|(b' & h' & i & E & S & _)].
    - rewrite Hh in E. rewrite <- E, unlinked_slab in Hk. done.
    - rewrite Hh in S. exists b'. split; [congruence|apply S]. }
  assert (Hl : k ∈ l).
  { eapply (dt_full _ _ _ _ _ _ _ _ D), owned_slot; [done| |done]. apply unlinked_slab. }
  apply (dt_listed _ _ _ _ _ _ _ _ D) in Hl as [HFk Hs].
  pose proof (listed_free _ _ _ _ (ti_trimmed _ _ _ _ _ _ _ I) HFk Hs) as Hf.
  apply (rewired_free _ _ _ _ unlinked_rewired) in Hf as (blk & _ & _ & Hb & _ & Hz & _). congruence.
Qed.

Lemma unlinked_fresh_gone : a ∉ G.
Proof.
  destruct (trimmed_lookup_inv _ _ _ _ _ (ti_trimmed _ _ _ _ _ _ _ I) Ha) as (o & _ & Hout & S).
  by inversion S; subst.
Qed.

(** Whatever is neither listed nor a slab is unaffected, and is no slot of [a]. *)
Lemma unlinked_untouched k o :
  objs m0 !! k = Some o -> (forall c, ~ F c k) -> (forall h', o <> OSlab h') ->
  objects_of s2 !! k = Some o /\ (k ∉ l) /\ (k ∉ pre ++ [a]) /\ home k o <> a.
Proof.
  intros Hk Hno Hns. pose proof (ti_untouched _ _ _ _ _ _ _ I _ _ Hk Hno Hns) as Hks.
  pose proof (un_detached _ _ _ _ _ _ _ _ _ _ U) as D.
  assert (Hl : k ∉ l) by (intros [HFk _]%(dt_listed _ _ _ _ _ _ _ _ D); by apply (Hno _ HFk)).
  assert (Hpre : k ∉ pre ++ [a]).
  { intros Hin. assert (Hin' : k ∈ pre ++ a :: suf) by set_solver.
    apply (ti_slabs _ _ _ _ _ _ _ I) in Hin' as [h' Hh']. apply (Hns h'). congruence. }
  assert (Hk2 : objects_of s2 !! k = Some o).
  { rewrite (un_frame _ _ _ _ _ _ _ _ _ _ U) by set_solver. by rewrite (rl_out _ _ _ unlinked_relinked _ Hl). }
  split_and!; [done..|]. intros Hh. pose proof unlinked_arena as Hwf.
  destruct (home_inv _ _ _ Hwf Hk2) as [E|(b' & h' & i & -> & S & _)].
  - apply Hpre. rewrite <- Hh, E. apply elem_of_app. right. left.
  - rewrite Hh in S. apply Hl. eapply (dt_full _ _ _ _ _ _ _ _ D), owned_slot; [done|apply unlinked_slab|].
    exists b'. split; [done|apply S].
Qed.

(** A successful unmap: the slab is gone. *)
Lemma inv_unmapped s3 :
  registry_held s3 = true -> free_lists s3 = free_lists s2 -> slabs s3 = slabs s2 ->
  memory_of s3 = unmap_region a (mapping_length h) (memory_of s2) ->
  trim_inv m0 F pre suf (a :: G) (Z.min SIZE_MAX (Z.of_nat (length (a :: G)) * slab_mapping sysconf_pagesize)) s3.
Proof.
  intros Hh3 Hf3 Hs3 Hm3. pose proof unlinked_arena as Hwf2. pose proof unlinked_slab as Ha2.
  pose proof unlinked_NoDup as Hnd. rewrite <- Permutation_middle in Hnd. apply NoDup_cons in Hnd as [Ha_out _].
  pose proof (aw_objs _ Hwf2 _ _ Ha2) as K. simpl in K.
  assert (Hkeep : forall k o, objects_of s2 !! k = Some o ->
    objects_of s3 !! k = if decide (home k o = a) then None else Some o).
  { intros k o Hk. rewrite Hm3. by apply unmap_slab_lookup. }
  assert (Hold : forall k o, objects_of s3 !! k = Some o -> objects_of s2 !! k = Some o /\ home k o <> a).
  { intros k o Hk. rewrite Hm3, objs_unmap_region in Hk. case_decide; [done|]. split; [done|].
    pose proof (Hkeep _ _ Hk) as Hk3. rewrite Hm3, objs_unmap_region in Hk3. repeat case_decide; done || congruence. }
  split; rewrite ?Hf3, ?Hs3.
  - done.
  - rewrite Hm3. eapply arena_wf_unmap; [done|apply K].
  - rewrite (un_lists _ _ _ _ _ _ _ _ _ _ U), length_insert. apply I.
  - rewrite Hm3. apply trimmed_unmap; [|done|done|apply unlinked_all_free].
    eapply trimmed_rewired; [apply I|apply unlinked_rewired].
  - apply NoDup_cons. split; [apply unlinked_fresh_gone|apply I].
  - intros c head Hget. destruct (unlinked_lists _ _ Hget) as (l' & Hch & Hl').
    assert (Hmem : forall b, b ∈ l' -> objects_of s3 !! b = objects_of s2 !! b).
    { intros b Hb. destruct (block_chain_is_Some _ _ _ _ Hch Hb) as [o Ho]. apply Hl' in Hb as (HFb & _ & Hno).
      rewrite (Hkeep _ _ Ho), Ho, decide_False; [done|]. by rewrite (unlinked_home _ _ _ HFb Ho). }
    exists l'. split.
    + eapply chain_ext; [done|]. intros b Hb. unfold block_next, block_at. by rewrite Hmem.
    + intros b. split.
      * intros Hb. split; [by apply Hl'|]. rewrite (Hmem _ Hb). by eapply block_chain_is_Some.
      * intros [HFb [o Ho]]. apply Hold in Ho as [Ho Hh]. apply Hl'. split; [done|]. split.
        -- apply unlinked_is_Some. by eexists.
        -- by rewrite <- (unlinked_home _ _ _ HFb Ho).
  - eapply chain_ext; [by eapply un_chain|]. intros x Hx. unfold slab_next_of, slab_at.
    assert (Hin : x ∈ pre ++ a :: suf) by set_solver. apply unlinked_slabs in Hin as [h' Hh'].
    rewrite (Hkeep _ _ Hh'), Hh', decide_False; [done|]. simpl. congruence.
  - intros x. split.
    + intros Hx. assert (Hin : x ∈ pre ++ a :: suf) by set_solver. apply unlinked_slabs in Hin as [h' Hh'].
      exists h'. rewrite (Hkeep _ _ Hh'), decide_False; [done|]. simpl. congruence.
    + intros [h' Hx]. apply Hold in Hx as [Hx Hne]. simpl in Hne.
      assert (Hin : x ∈ pre ++ a :: suf) by (apply unlinked_slabs; by eexists). set_solver.
  - apply I.
  - intros k o Hk Hno Hns. destruct (unlinked_untouched _ _ Hk Hno Hns) as (Hk2 & _ & _ & Hh).
    rewrite (Hkeep _ _ Hk2). by rewrite decide_False.
  - done.
Qed.

(** A failed unmap: the detached slots are joined back in front and the slab is
    linked again where it was. *)
Lemma inv_restored joined s5 m3 :
  relinked l (memory_of s2) m3 ->
  chain (block_next (objs m3)) joined (reverse (owned_list (objects_of s) a l) ++ reverse (other_list (objects_of s) a l)) ->
  unmap_can_fail -> registry_held s5 = true ->
  free_lists s5 = <[Z.to_nat (class_index h) := joined]> (free_lists s2) ->
  rewired m3 (memory_of s5) -> (forall k, k ∉ pre ++ [a] -> objects_of s5 !! k = objs m3 !! k) ->
  chain (slab_next_of (objects_of s5)) (slabs s5) (pre ++ a :: suf) ->
  trim_inv m0 F (pre ++ [a]) suf G total s5.
Proof.
  intros R Hj Hfail Hh5 Hf5 W Hframe Hc5. pose proof (un_detached _ _ _ _ _ _ _ _ _ _ U) as D.
  assert (Hrw : rewired (memory_of s) (memory_of s5)).
  { eapply rewired_trans; [apply unlinked_rewired|]. eapply rewired_trans; [|exact W].
    eapply rewired_relinked; [done|]. intros k b Hk Hb. apply (dt_listed _ _ _ _ _ _ _ _ D) in Hk as [HFk Hs].
    pose proof (listed_free _ _ _ _ (ti_trimmed _ _ _ _ _ _ _ I) HFk Hs) as Hf.
    apply (rewired_free _ _ _ _ unlinked_rewired) in Hf as (blk & _ & _ & Hb' & _ & Hz & _). congruence. }
  assert (Hsome : forall b, is_Some (objects_of s5 !! b) <-> is_Some (objects_of s !! b)).
  { intros b. split; intros [o Ho].
    - destruct (rewired_lookup_inv _ _ _ _ Hrw Ho) as (? & ? & _). by eexists.
    - destruct (rewired_lookup _ _ _ _ Hrw Ho) as (? & ? & _). by eexists. }
  assert (Hslabs : forall x, x ∈ pre ++ a :: suf <-> exists h', objects_of s5 !! x = Some (OSlab h')).
  { intros x. rewrite (ti_slabs _ _ _ _ _ _ _ I). split; intros [h' Hx].
    - destruct (rewired_lookup _ _ _ _ Hrw Hx) as (o & Ho & S). inversion S; subst. by eexists.
    - destruct (rewired_lookup_inv _ _ _ _ Hrw Hx) as (o & Ho & S). inversion S; subst. by eexists. }
  assert (Hchain : forall p l', chain (block_next (objs m3)) p l' -> chain (block_next (objects_of s5)) p l').
  { intros p l' Hc. eapply chain_ext; [done|]. intros b Hb. unfold block_next, block_at. rewrite Hframe; [done|].
    intros Hin. assert (Hs : b ∈ pre ++ a :: suf) by set_solver. apply Hslabs in Hs as [h' Hs].
    destruct (chain_elem_next _ _ _ _ Hc Hb) as [_ [q (blk & Hblk & _)%block_next_Some]].
    destruct (rewired_lookup_inv _ _ _ _ W Hs) as (o & Ho & S). inversion S; subst. congruence. }
  split; rewrite ?Hf5, <- ?app_assoc; simpl app.
  - done.
  - eapply rewired_arena_wf; [apply I|done].
  - rewrite length_insert, (un_lists _ _ _ _ _ _ _ _ _ _ U), length_insert. apply I.
  - eapply trimmed_rewired; [apply I|done].
  - apply I.
  - intros c head. rewrite (un_lists _ _ _ _ _ _ _ _ _ _ U), list_insert_insert_eq.
    rewrite array_get_insert.
    2: { rewrite (ti_length _ _ _ _ _ _ _ I). eapply class_index_range; [by eapply ti_arena|done]. }
    case_decide as E.
    + intros [= <-]. eexists. split; [by apply Hchain|]. intros b.
      rewrite elem_of_app, !elem_of_reverse. unfold owned_list, other_list. rewrite !list_elem_of_filter.
      rewrite Hsome, <- E, (dt_listed _ _ _ _ _ _ _ _ D). destruct (decide (owned_by (objects_of s) a b)); tauto.
    + intros Hget. assert (Hget2 : array_get (free_lists s2) c = Some head).
      { rewrite (un_lists _ _ _ _ _ _ _ _ _ _ U), array_get_insert; [by rewrite decide_False|].
        rewrite (ti_length _ _ _ _ _ _ _ I). eapply class_index_range; [by eapply ti_arena|done]. }
      destruct (unlinked_lists _ _ Hget2) as (l' & Hch & Hl'). exists l'. split.
      * apply Hchain. eapply relinked_block_chain; [done| |done]. intros b [HFb _]%Hl' Hb. apply E.
        apply (dt_listed _ _ _ _ _ _ _ _ D) in Hb as [HFb' _]. eapply free_in_class_functional; by apply HF.
      * intros b. rewrite Hl', Hsome. split; [tauto|]. intros [HFb Hs]. split_and!; try done.
        intros Ho. apply E. symmetry. by eapply owned_class.
  - done.
  - done.
  - intros x [Hx|Hx%list_elem_of_singleton]%elem_of_app; [by apply I|by right].
  - intros k o Hk Hno Hns. destruct (unlinked_untouched _ _ Hk Hno Hns) as (Hk2 & Hl & Hpre & _).
    rewrite Hframe by done. by rewrite (rl_out _ _ _ R _ Hl).
  - apply I.
Qed.
End unlinked_facts.

(** ** The whole walk *)

(** The running total saturates at [SIZE_MAX]. *)
Lemma saturating_total n step :
  0 <= n -> 0 < step <= SIZE_MAX ->
  match via (hplf_size_add (Z.min SIZE_MAX (n * step)) step) with Some t => t | None => SIZE_MAX end =
  Z.min SIZE_MAX ((n + 1) * step).
Proof.
  intros Hn Hs. rewrite via_size_add by (unfold is_size, SIZE_MAX, WORD in *; nia).
  case_bool; nia.
Qed.

Definition walk_continues suf (r : registry_link * Z) s' : Prop :=
  exists G' pre' total', r = (link_at pre', total') /\ trim_inv m0 F pre' suf G' total' s'.

Lemma wp_trim_unmap pre suf G total s a h l removed remaining m1 s2 :
  trim_inv m0 F pre (a :: suf) G total s -> objects_of s !! a = Some (OSlab h) ->
  unlinked pre suf a h l removed remaining s m1 s2 ->
  chain (slab_next_of (objects_of s2)) (slab_next h) suf ->
  wp (trim_unmap (link_at pre) a h removed remaining total) (walk_continues suf) s2.
Proof.
  intros I Ha U Hsuf. pose proof (unlinked_arena _ _ _ _ _ _ _ _ _ _ _ _ I U) as Hwf2.
  pose proof (unlinked_slab _ _ _ _ _ _ _ _ _ _ _ _ I Ha U) as Ha2.
  pose proof (aw_objs _ Hwf2 _ _ Ha2) as K. simpl in K.
  destruct (aw_maps _ Hwf2 _ _ (sk_map _ _ _ K)) as (Hb0 & Hl0 & _ & Hlim).
  unfold trim_unmap. rewrite (sk_base _ _ _ K). wp_step. apply wp_on_machine.
  eapply wp_mono; [apply wp_os_unmap; [by apply K|unfold NULL; lia|lia]|]. intros [[[] mp] out] t.
  - intros (_ & -> & Hm). wp_steps. exists (a :: G), pre. eexists. split; [done|].
    rewrite (ti_total _ _ _ _ _ _ _ I), (sk_length _ _ _ K).
    rewrite saturating_total; [|lia|unfold ADDRESS_LIMIT, SIZE_MAX, WORD in *; rewrite <- (sk_length _ _ _ K); lia].
    replace (Z.of_nat (length G) + 1) with (Z.of_nat (length (a :: G))) by (simpl; lia).
    eapply inv_unmapped; [done..|exact (un_held _ _ _ _ _ _ _ _ _ _ U)|done|done|done].
  - intros (_ & _ & Hm & Hfail). pose proof (un_detached _ _ _ _ _ _ _ _ _ _ U) as D.
    wp_step. apply wp_on_mem. cbn [mach set_mach]. rewrite Hm. eapply wp_mono; [eapply wp_join|].
    + eapply unlinked_chain; [done|done|by eapply dt_removed].
    + eapply unlinked_chain; [done|done|by eapply dt_remaining].
    + intros k. rewrite !elem_of_reverse. unfold owned_list, other_list. rewrite !list_elem_of_filter. tauto.
    + intros joined m3 [R Hj]. wp_step.
      destruct (array_get_class (free_lists s2) (class_index h)) as [old Hold].
      { rewrite (un_lists _ _ _ _ _ _ _ _ _ _ U), length_insert. apply I. }
      { eapply class_index_range; [exact Hwf2|exact Ha2]. }
      eapply wp_free_list_set; [exact Hold|]. wp_step. apply wp_on_mem. cbn [mach set_mach set_free_lists mem set_mem].
      assert (Ha3 : objs m3 !! a = Some (OSlab h)) by (by apply (relinked_slab _ _ _ _ _ R)).
      eapply wp_store_slab; [by apply slab_at_Some|].
      assert (Hsame : set_objs <[a := OSlab (set_slab_next (slab_next h) h)]> m3 = m3).
      { replace (set_slab_next (slab_next h) h) with h by (by destruct h).
        unfold set_objs. rewrite insert_id by done. by destruct m3. }
      rewrite Hsame. wp_step. cbn [mach set_mach mem set_mem].
      pose proof (unlinked_NoDup _ _ _ _ _ _ I) as Hnd.
      eapply (wp_write_link pre suf a (a :: suf)); cbn [mach set_mach set_free_lists mem set_mem slabs].
      * eapply chain_ext; [by eapply un_chain|]. intros x _. by eapply relinked_slab_next.
      * simpl. split; [done|]. split; [unfold NULL; lia|]. exists (slab_next h). split.
        -- apply slab_next_Some. by exists h.
        -- eapply chain_ext; [done|]. intros x _. by eapply relinked_slab_next.
      * intros x Hx. by apply NoDup_app in Hnd as (_ & Hd & _); apply Hd.
      * intros s' Hh' Hf' Hrw Hfr Hc'. cbn in Hh', Hf', Hrw, Hfr. wp_steps.
        exists G, (pre ++ [a]), total. split; [by rewrite link_at_snoc|].
        eapply inv_restored; [done|done|done| |exact Hj|done|by rewrite Hh'; eapply un_held|exact Hf'|exact Hrw| |done].
        -- eapply relinked_same_elements; [|exact R]. intros k. apply elem_of_split.
        -- intros k Hk. apply Hfr. set_solver.
Qed.

Lemma trim_inv_keep pre suf G total s a h l :
  trim_inv m0 F pre (a :: suf) G total s -> objects_of s !! a = Some (OSlab h) -> NoDup l ->
  (forall b, b ∈ l <-> F (class_index h) b /\ is_Some (objects_of s !! b)) ->
  Z.of_nat (length (owned_list (objects_of s) a l)) <> slot_count h ->
  trim_inv m0 F (pre ++ [a]) suf G total s.
Proof.
  intros I Ha Hnd Hl Hcount. pose proof (ti_arena _ _ _ _ _ _ _ I) as Hwf.
  destruct I as [? ? ? T ? ? Hc Hsl Hk ? ?]. split; rewrite <- ?app_assoc; try done.
  intros x [Hx|Hx%list_elem_of_singleton]%elem_of_app; [auto|]. subst x. left.
  destruct (owned_count_missing _ _ _ _ Hwf Ha Hnd Hcount) as (i & Hi & Hnot).
  destruct (trimmed_lookup_inv _ _ _ _ _ T Ha) as (o & Ho & _ & S). inversion S; subst. simpl in *.
  eexists _, i. split; [done|]. split; [done|]. intros HFi. apply Hnot, Hl. split; [done|].
  pose proof (aw_objs _ Hwf _ _ Ha) as K. destruct (sk_slots _ _ _ K i Hi) as (b & Hb & _). by eexists.
Qed.

Lemma wp_trim_step pre suf G total s :
  trim_inv m0 F pre suf G total s ->
  wp (trim_step (link_at pre, total)) (fun r s' =>
    match r with
    | inl st => exists suf', (length suf' < length suf)%nat /\ walk_continues suf' st s'
    | inr total' => total' = total /\ suf = [] /\ s' = s
    end) s.
Proof.
  intros I. pose proof (ti_chain _ _ _ _ _ _ _ I) as Hc. unfold trim_step. wp_step.
  eapply wp_read_link; [done|]. intros p Hp. destruct (Z.eqb_spec p NULL) as [->|Hne].
  { apply chain_NULL in Hp as ->. by wp_steps. }
  destruct (chain_head _ _ _ Hp Hne) as [suf' ->]. destruct Hp as (_ & _ & next & Hnext & Hsuf).
  apply slab_next_Some in Hnext as (h & Ha & <-).
  wp_step. apply wp_on_mem. eapply wp_load_slab; [by apply slab_at_Some|]. rewrite set_mem_same. wp_steps.
  apply wp_on_mem. eapply wp_mono; [by eapply wp_free_count|].
  intros count m (-> & head & l & Hget & Hch & Hl & ->). rewrite set_mem_same.
  destruct (Z.eqb_spec (Z.of_nat (length (owned_list (objects_of s) p l))) (slot_count h)) as [Hfull|Hmiss].
  2: { simpl. wp_steps. exists suf'. split; [simpl; lia|]. exists G, (pre ++ [p]), total.
       split; [by rewrite link_at_snoc|]. eapply trim_inv_keep; [done|done|by eapply chain_NoDup|done|done]. }
  simpl negb. cbn iota. wp_step. apply wp_on_mem. eapply wp_mono; [by eapply wp_detach|].
  intros [removed remaining] m1 D. simpl in D. pose proof (dt_relinked _ _ _ _ _ _ _ _ D) as R.
  wp_step. eapply wp_free_list_set; [exact Hget|]. wp_step.
  pose proof (chain_NoDup _ _ _ Hc) as Hnd.
  eapply (wp_write_link pre (p :: suf') _ suf'); cbn [mach set_mach set_free_lists mem set_mem slabs].
  - eapply chain_ext; [done|]. intros x _. by eapply relinked_slab_next.
  - eapply chain_ext; [done|]. intros x _. by eapply relinked_slab_next.
  - intros x Hx Hx'. apply NoDup_app in Hnd as (_ & Hd & _). apply (Hd _ Hx). by right.
  - intros s2 Hh2 Hf2 Hrw Hfr Hc2. cbn in Hh2, Hf2, Hrw, Hfr. wp_step.
    assert (U : unlinked pre suf' p h l removed remaining s m1 s2).
    { split; [done| |done|done|done|done]. rewrite Hh2. by apply I. }
    eapply wp_mono; [eapply wp_trim_unmap; [done|done|done|]|].
    + eapply chain_ext; [done|]. intros x Hx. unfold slab_next_of, slab_at. rewrite Hfr.
      * by apply (relinked_slab_next _ _ _ x R).
      * intros Hx'. apply NoDup_app in Hnd as (_ & Hd & _). apply (Hd _ Hx'). by right.
    + intros st s3 Hst. wp_steps. exists suf'. split; [simpl; lia|done].
Qed.

(** The walk starts from lists that hold [F] and a registry of all slabs. *)
Lemma trim_inv_begin s :
  memory_of s = m0 -> registry_held s = true -> registry_ok (objects_of s) (slabs s) ->
  Z.of_nat (length (free_lists s)) = HPLF_SIZE_CLASS_COUNT -> lists_hold F m0 (free_lists s) ->
  exists sl, trim_inv m0 F [] sl [] 0 s.
Proof.
  intros <- Hh (sl & Hch & Hsl) Hlen Hl. exists sl. split; try done.
  - apply trimmed_refl.
  - constructor.
  - by intros a ?%not_elem_of_nil.
Qed.

(** From a state that holds lists and registry the walk ends with every slab
    visited. *)
Lemma wp_trim_registry sl s :
  trim_inv m0 F [] sl [] 0 s ->
  wp trim_registry (fun total s' => exists pre G, trim_inv m0 F pre [] G total s') s.
Proof.
  intros I. pose proof (slab_chain_fuel _ _ _ (ti_chain _ _ _ _ _ _ _ I)) as Hfuel.
  unfold trim_registry. wp_step. wp_step.
  apply (wp_iterate_list trim_step (fun suf st s' => walk_continues suf st s')) with (l := sl);
    [|done|by exists [], [], 0].
  intros suf st s' (G & pre & total & -> & I'). eapply wp_mono; [exact (wp_trim_step _ _ _ _ _ I')|].
  intros [st|total'] s''; [done|]. intros (-> & -> & ->). by exists pre, G.
Qed.
End walk.
