(* ===== verification/LockedTrim.v ===== *)
(** * The locked allocator meets its contract: trimming

    [hplf_trim_quiescent] of the locked variant releases exactly slabs without a
    live block, returns the bytes released, touches no live block, and leaves a
    slab without live block behind only when an unmap can fail. *)

From S2P Require Import Prelude CheckedMath SizeClass Memory Layout Chain OsMemory Slab Arena SlabSpec.
From S2P Require Import LockedAllocator FreeLists LockedSpec TrimLists Trim TrimLoop.

(** Some block of the slab at [a] is live. *)
Definition has_live_block (os : gmap Z object) (a : Z) : Prop :=
  exists k b, os !! k = Some (OBlock b) /\ owner b = owner_small a /\ requested_size b <> 0.

Section trim.
Context `{Build, Platform, !PlatformLaws}.
Implicit Types (s : hplf_allocator_state).

(** The slabs [G] were released, for [total] bytes. *)
Definition trim_released (G : list Z) (total : Z) (m m' : memory) : Prop :=
  NoDup G /\ trimmed G m m' /\
  total = Z.min SIZE_MAX (Z.of_nat (length G) * slab_mapping sysconf_pagesize) /\
  (forall a h, objs m' !! a = Some (OSlab h) -> has_live_block (objs m') a \/ unmap_can_fail).

Definition trim_post s (total : Z) s' : Prop :=
  locked_wf s' /\ live (objects_of s') = live (objects_of s) /\ preserved (memory_of s) (memory_of s') /\
  ((total = 0 /\ same_core s s' /\ exists t, sys_mutex_lock t <> 0) \/
   exists G, trim_released G total (memory_of s) (memory_of s')).

Lemma lists_hold_all m lists registry :
  lists_inv m lists registry -> lists_hold (free_in_class (objs m)) m lists.
Proof.
  intros Hinv c head [l [Hch Hl]]%(ls_lists _ _ _ Hinv). exists l. split; [done|].
  intros b. rewrite Hl. split; [|tauto]. intros Hf. split; [done|]. destruct Hf as (blk & ? & ? & ? & _). by eexists.
Qed.

Lemma trim_inv_start s :
  registry_held s = true -> lists_inv (memory_of s) (free_lists s) (slabs s) ->
  exists sl, trim_inv (memory_of s) (free_in_class (objects_of s)) [] sl [] 0 s.
Proof.
  intros Hh Hinv. apply trim_inv_begin; try done; try apply Hinv. by eapply lists_hold_all.
Qed.

Lemma trim_inv_finish m0 pre G total s :
  arena_wf m0 -> trim_inv m0 (free_in_class (objs m0)) pre [] G total s ->
  lists_inv (memory_of s) (free_lists s) (slabs s).
Proof.
  intros Hwf0 I. pose proof (ti_trimmed _ _ _ _ _ _ _ I) as T. split; [apply I| |apply I|].
  - exists pre. pose proof (ti_chain _ _ _ _ _ _ _ I) as Hc. pose proof (ti_slabs _ _ _ _ _ _ _ I) as Hs.
    rewrite app_nil_r in *. done.
  - intros c head (l & Hch & Hl)%(ti_lists _ _ _ _ _ _ _ I). exists l. split; [done|].
    intros b. rewrite Hl. symmetry. exact (trimmed_free _ _ _ _ _ Hwf0 T).
Qed.

(** A slot that is not free is live, and stays so. *)
Lemma kept_live G m m' a h :
  arena_wf m -> trimmed G m m' -> objs m' !! a = Some (OSlab h) ->
  kept (free_in_class (objs m)) m a -> has_live_block (objs m') a.
Proof.
  intros Hwf T Ha' (h0 & i & Ha & Hi & Hnot). pose proof (aw_objs _ Hwf _ _ Ha) as K. simpl in K.
  destruct (sk_slots _ _ _ K i Hi) as (b & Hb & Ho).
  assert (Hr : requested_size b <> 0).
  { intros Hz. apply Hnot. exists b, a, h0. split_and!; try done.
    pose proof (aw_objs _ Hwf _ _ Hb) as [(x & y & j & [])|[]]; [done|congruence]. }
  destruct (trimmed_lookup_inv _ _ _ _ _ T Ha') as (o & Ho2 & Hout & _).
  destruct (tr_kept _ _ _ T _ _ Hb) as (o' & Ho' & S).
  { simpl. rewrite Ho. assert (o = OSlab h0) as -> by congruence. done. }
  inversion S; subst. by eexists _, _.
Qed.

Lemma trim_inv_released m0 pre G total s :
  arena_wf m0 -> trim_inv m0 (free_in_class (objs m0)) pre [] G total s ->
  trim_released G total m0 (memory_of s).
Proof.
  intros Hwf0 I. split; [apply I|]. split; [apply I|]. split; [apply I|].
  intros a h Ha. pose proof (ti_slabs _ _ _ _ _ _ _ I a) as Hsl. rewrite app_nil_r in Hsl.
  destruct (ti_kept _ _ _ _ _ _ _ I a) as [Hk|]; [apply Hsl; by eexists| |by right].
  left. eapply kept_live; [done|by eapply ti_trimmed|done|done].
Qed.

Lemma wp_trim_quiescent s : locked_wf s -> wp hplf_trim_quiescent (trim_post s) s.
Proof.
  intros Hwf. pose proof Hwf as [Hh Hinv]. pose proof (ls_arena _ _ _ Hinv) as Harena.
  unfold hplf_trim_quiescent. wp_step. apply wp_registry_lock; [done| |].
  2: { intros s1 t Hcore Hr _ Ht. destruct (Z.eqb_spec (sys_mutex_lock t) 0); [done|]. simpl. wp_steps.
       pose proof Hcore as (Hm & _). split; [by eapply locked_wf_core|]. rewrite Hm. split; [done|].
       split; [apply preserved_refl|]. left. split; [done|]. split; [done|]. by exists t. }
  intros s1 (Hm1 & Hf1 & Hs1) Hr1. simpl negb. cbn iota. wp_step.
  rewrite <- Hm1, <- Hf1, <- Hs1 in Hinv. rewrite <- Hm1 in Harena.
  destruct (trim_inv_start _ Hr1 Hinv) as [sl I].
  eapply wp_mono; [eapply wp_trim_registry; [done| |exact I]; done|].
  intros total s2 (pre & G & I2). wp_step. apply wp_registry_unlock; [by eapply ti_held|].
  intros s3 (Hm3 & Hf3 & Hs3) Hr3 _. wp_steps.
  pose proof (trim_inv_finish _ _ _ _ _ Harena I2) as Hinv2.
  pose proof (trim_inv_released _ _ _ _ _ Harena I2) as Hrel.
  rewrite <- Hm3, <- Hf3, <- Hs3 in Hinv2. rewrite <- Hm3, Hm1 in Hrel. rewrite Hm1 in Harena.
  pose proof Hrel as (_ & T & _). split; [by split|]. split; [by eapply trimmed_live|].
  split; [by eapply trimmed_preserved|]. right. by exists G.
Qed.
End trim.
