(* ===== verification/HeapSpec.v ===== *)
(** * The abstract heap and the allocator interface

    What the public API (include/hplf/allocator.h) promises to a client: a finite
    map from payload pointers to their contents, with an allowed transition for
    every call. An implementation provides the operations of class [Allocator] and
    the laws of [AllocatorLaws]; the refinement theorem below is proved against
    the interface, each allocator variant discharges it. *)

From S2P Require Import Prelude CheckedMath SizeClass Memory Layout OsMemory Slab Arena LockedAllocator.
From S2P Require Import FreeLists LockedSpec LockedResize.

(** ** The abstract machine *)

(** Live allocations: payload pointer to contents. *)
Abbreviation heap := (gmap Z (list Z)).

Inductive heap_op :=
| op_malloc (n : Z)
| op_calloc (count size : Z)
| op_realloc (p n : Z)
| op_free (p : Z)
| op_thread_flush
| op_trim
| op_write (p offset : Z) (data : list Z)      (* the client fills its block *)
| op_read (p offset n : Z).

Inductive heap_result :=
| res_pointer (p : Z)
| res_size (n : Z)
| res_bytes (data : list Z)
| res_unit.

(** What the client must respect. *)
Definition live_or_null (h : heap) (p : Z) : Prop := p = NULL \/ is_Some (h !! p).

Definition op_valid (h : heap) (o : heap_op) : Prop :=
  match o with
  | op_malloc n => is_size n
  | op_calloc count size => is_size count /\ is_size size
  | op_realloc p n => is_size n /\ live_or_null h p
  | op_free p => live_or_null h p
  | op_thread_flush | op_trim => True
  | op_write p offset data => exists l, h !! p = Some l /\ 0 <= offset /\
      offset + Z.of_nat (length data) <= Z.of_nat (length l)
  | op_read p offset n => exists l, h !! p = Some l /\ 0 <= offset /\ 0 <= n /\
      offset + n <= Z.of_nat (length l)
  end.

(** A block of [n >= 1] bytes at [p]: nonnull, aligned for any type, apart from
    every live block. *)
Definition placed (h : heap) (p n : Z) : Prop :=
  0 < p /\ (HPLF_PAYLOAD_ALIGNMENT | p) /\ 1 <= n /\ h !! p = None /\
  forall q l, h !! q = Some l -> p + n <= q \/ q + Z.of_nat (length l) <= p.

Definition sized (l : list Z) (n : Z) : Prop := Z.of_nat (length l) = n.

(** [data] written at [offset]. *)
Definition splice (l : list Z) (offset : Z) (data : list Z) : list Z :=
  list_inserts (Z.to_nat offset) data l.

(** The contents kept by a resize from [l] to [l']. *)
Definition same_prefix (l l' : list Z) : Prop :=
  let n := (length l `min` length l')%nat in take n l' = take n l.

(** The allowed transitions; with [leak], releasing may have no effect. *)
Inductive heap_step (leak : Prop) (h : heap) : heap_op -> heap_result -> heap -> Prop :=
| step_malloc n p l : placed h p n -> sized l n ->
    heap_step leak h (op_malloc n) (res_pointer p) (<[p := l]> h)
| step_malloc_null n : heap_step leak h (op_malloc n) (res_pointer NULL) h
| step_calloc count size p : placed h p (count * size) -> count * size <= SIZE_MAX ->
    heap_step leak h (op_calloc count size) (res_pointer p)
      (<[p := replicate (Z.to_nat (count * size)) 0]> h)
| step_calloc_null count size : heap_step leak h (op_calloc count size) (res_pointer NULL) h
| step_realloc_null_new n p l : placed h p n -> sized l n ->
    heap_step leak h (op_realloc NULL n) (res_pointer p) (<[p := l]> h)
| step_realloc_refused p n : p = NULL \/ n <> 0 -> heap_step leak h (op_realloc p n) (res_pointer NULL) h
| step_realloc_free p : p <> NULL -> heap_step leak h (op_realloc p 0) (res_pointer NULL) (delete p h)
| step_realloc_free_leak p : p <> NULL -> leak -> heap_step leak h (op_realloc p 0) (res_pointer NULL) h
| step_realloc_in_place p n l l' : h !! p = Some l -> placed (delete p h) p n -> sized l' n -> same_prefix l l' ->
    heap_step leak h (op_realloc p n) (res_pointer p) (<[p := l']> h)
| step_realloc_move p n l q l' : h !! p = Some l -> placed h q n -> sized l' n -> same_prefix l l' ->
    heap_step leak h (op_realloc p n) (res_pointer q) (delete p (<[q := l']> h))
| step_realloc_move_leak p n l q l' : h !! p = Some l -> placed h q n -> sized l' n -> same_prefix l l' -> leak ->
    heap_step leak h (op_realloc p n) (res_pointer q) (<[q := l']> h)
| step_free p : p <> NULL -> heap_step leak h (op_free p) res_unit (delete p h)
| step_free_leak p : p <> NULL -> leak -> heap_step leak h (op_free p) res_unit h
| step_free_null : heap_step leak h (op_free NULL) res_unit h
| step_flush : heap_step leak h op_thread_flush res_unit h
| step_trim n : heap_step leak h op_trim (res_size n) h
| step_write p offset data l : h !! p = Some l ->
    heap_step leak h (op_write p offset data) res_unit (<[p := splice l offset data]> h)
| step_read p offset n l : h !! p = Some l ->
    heap_step leak h (op_read p offset n) (res_bytes (take (Z.to_nat n) (drop (Z.to_nat offset) l))) h.

(** A history: the operations of a client with their results, latest first. *)
Abbreviation history := (list (heap_op * heap_result)).

(** The histories and heaps an adaptive client can see: every operation is the one
    the client chooses after the history so far. *)
Inductive heap_trace (leak : Prop) (client : history -> heap_op) : history -> heap -> Prop :=
| trace_start : heap_trace leak client [] ∅
| trace_step hist h r h' : heap_trace leak client hist h -> heap_step leak h (client hist) r h' ->
    heap_trace leak client ((client hist, r) :: hist) h'.

(** ** The heap a memory implements *)

Definition heap_of (m : memory) : heap :=
  kmap (Z.add PREFIX) (map_imap (fun k n => Some (read_bytes m (PREFIX + k) n)) (live (objs m))).

(** The abstract content did not change. *)
Definition unchanged (m m' : memory) : Prop := live (objs m') = live (objs m) /\ preserved m m'.

(** ** The interface of an allocator *)

Class Allocator (St : Type) := {
  alloc_memory : St -> memory;
  alloc_malloc : Z -> prog St Z;
  alloc_calloc : Z -> Z -> prog St Z;
  alloc_realloc : Z -> Z -> prog St Z;
  alloc_free : Z -> prog St unit;
  alloc_flush : prog St unit;
  alloc_trim : prog St Z;
  alloc_store : Z -> list Z -> prog St unit;
  alloc_load : Z -> Z -> prog St (list Z)
}.

Definition new_or_null `{Allocator St} (n : Z) (s : St) (p : Z) (s' : St) : Prop :=
  (p = NULL /\ unchanged (alloc_memory s) (alloc_memory s')) \/
  (p <> NULL /\ allocated (alloc_memory s) (alloc_memory s') n p).

Definition released_or_leaked `{Build, Platform, Allocator St} (p : Z) (s s' : St) : Prop :=
  released (alloc_memory s) (alloc_memory s') (p - PREFIX) \/
  (unchanged (alloc_memory s) (alloc_memory s') /\ free_can_fail).

Definition resized `{Build, Platform, Allocator St} (p old_size n : Z) (s : St) (q : Z) (s' : St) : Prop :=
  (q = NULL /\ n <> 0 /\ unchanged (alloc_memory s) (alloc_memory s')) \/
  (q = NULL /\ n = 0 /\ released_or_leaked p s s') \/
  (q = p /\ n <> 0 /\ retained (alloc_memory s) (alloc_memory s') (p - PREFIX) n) \/
  (q <> NULL /\ n <> 0 /\ moved (alloc_memory s) (alloc_memory s') (p - PREFIX) old_size q n).

(** The laws, relative to an invariant of the implementation. *)
Class AllocatorLaws `{Build, Platform, Allocator St} (wf : St -> Prop) : Prop := {
  law_arena s : wf s -> arena_wf (alloc_memory s);
  law_malloc n s : wf s -> is_size n ->
    wp (alloc_malloc n) (fun p s' => wf s' /\ new_or_null n s p s') s;
  law_calloc count size s : wf s -> is_size count -> is_size size ->
    wp (alloc_calloc count size) (fun p s' => wf s' /\ new_or_null (count * size) s p s' /\
      (p <> NULL -> count * size <= SIZE_MAX /\
         forall i, 0 <= i < count * size -> byte_at (alloc_memory s') (p + i) = 0)) s;
  law_realloc_null n s : wf s -> is_size n ->
    wp (alloc_realloc NULL n) (fun p s' => wf s' /\ new_or_null n s p s') s;
  law_realloc p old_size n s : wf s -> live (objs (alloc_memory s)) !! (p - PREFIX) = Some old_size -> is_size n ->
    wp (alloc_realloc p n) (fun q s' => wf s' /\ resized p old_size n s q s') s;
  law_free_null s : wf s ->
    wp (alloc_free NULL) (fun _ s' => wf s' /\ unchanged (alloc_memory s) (alloc_memory s')) s;
  law_free p n s : wf s -> live (objs (alloc_memory s)) !! (p - PREFIX) = Some n ->
    wp (alloc_free p) (fun _ s' => wf s' /\ released_or_leaked p s s') s;
  law_flush s : wf s ->
    wp alloc_flush (fun _ s' => wf s' /\ unchanged (alloc_memory s) (alloc_memory s')) s;
  law_trim s : wf s ->
    wp alloc_trim (fun _ s' => wf s' /\ unchanged (alloc_memory s) (alloc_memory s')) s;
  law_store a l s : wf s -> accessible (alloc_memory s) a (Z.of_nat (length l)) ->
    wp (alloc_store a l) (fun _ s' => wf s' /\ alloc_memory s' = set_bytes (put_bytes a l) (alloc_memory s)) s;
  law_load a n s : wf s -> accessible (alloc_memory s) a n ->
    wp (alloc_load a n) (fun l s' => wf s' /\ alloc_memory s' = alloc_memory s /\
      l = read_bytes (alloc_memory s) a n) s
}.

(** One operation of a client on an implementation. *)
Definition run_op `{Allocator St} (o : heap_op) : prog St heap_result :=
  match o with
  | op_malloc n => p ← alloc_malloc n; mret (res_pointer p)
  | op_calloc count size => p ← alloc_calloc count size; mret (res_pointer p)
  | op_realloc p n => q ← alloc_realloc p n; mret (res_pointer q)
  | op_free p => alloc_free p;; mret res_unit
  | op_thread_flush => alloc_flush;; mret res_unit
  | op_trim => n ← alloc_trim; mret (res_size n)
  | op_write p offset data => alloc_store (p + offset) data;; mret res_unit
  | op_read p offset n => l ← alloc_load (p + offset) n; mret (res_bytes l)
  end.

(** An adaptive client that makes [n] calls, each chosen from the history. *)
Fixpoint play `{Allocator St} (client : history -> heap_op) (n : nat) (hist : history) : prog St history :=
  match n with
  | O => mret hist
  | Datatypes.S n' => r ← run_op (client hist); play client n' ((client hist, r) :: hist)
  end.

(** The client never breaks the API's rules, whatever results the rules allow. *)
Definition respectful (leak : Prop) (client : history -> heap_op) : Prop :=
  forall hist h, heap_trace leak client hist h -> op_valid h (client hist).

(** ** Heap transitions from memory transitions *)

Section heap_lemmas.
Context `{Build, Platform, !PlatformLaws}.
Implicit Types (m : memory) (h : heap).

#[local] Instance add_prefix_inj : Inj (=) (=) (Z.add PREFIX).
Proof. intros x y. lia. Qed.

Lemma heap_of_lookup m p :
  heap_of m !! p = (fun n => read_bytes m p n) <$> live (objs m) !! (p - PREFIX).
Proof.
  unfold heap_of. replace p with (PREFIX + (p - PREFIX)) at 1 by lia.
  rewrite (lookup_kmap (Z.add PREFIX)), map_lookup_imap. destruct (live (objs m) !! (p - PREFIX)); simpl; [|done].
  by replace (PREFIX + (p - PREFIX)) with p by lia.
Qed.

Lemma heap_of_Some m p l :
  heap_of m !! p = Some l <-> exists n, live (objs m) !! (p - PREFIX) = Some n /\ l = read_bytes m p n.
Proof. rewrite heap_of_lookup, fmap_Some. naive_solver. Qed.

Lemma live_requested_size m k n :
  arena_wf m -> live (objs m) !! k = Some n ->
  exists b, objs m !! k = Some (OBlock b) /\ requested_size b = n /\ 1 <= n <= capacity b.
Proof.
  intros Hwf (b & Hb & Hr & Hn)%lookup_live. exists b. split_and!; try done;
    pose proof (aw_objs _ Hwf _ _ Hb) as [(x & y & j & [])|[]]; lia.
Qed.

Lemma heap_of_sized m p l n :
  arena_wf m -> live (objs m) !! (p - PREFIX) = Some n -> heap_of m !! p = Some l ->
  sized l n /\ 1 <= n.
Proof.
  intros Hwf Hn Hl. destruct (live_requested_size _ _ _ Hwf Hn) as (b & _ & _ & ?).
  rewrite heap_of_lookup, Hn in Hl. simplify_eq/=. split; [apply length_read_bytes|]; lia.
Qed.

Lemma read_bytes_ext m m' p n :
  (forall i, 0 <= i < n -> byte_at m' (p + i) = byte_at m (p + i)) -> read_bytes m' p n = read_bytes m p n.
Proof.
  intros Hb. unfold read_bytes. apply list_fmap_ext. intros i x Hx.
  apply lookup_seqZ in Hx as [-> Hi]. apply Hb. lia.
Qed.

(** The contents of a block whose bytes are preserved. *)
Lemma preserved_contents m m' p n :
  preserved m m' -> live (objs m) !! (p - PREFIX) = Some n -> live (objs m') !! (p - PREFIX) = Some n ->
  read_bytes m' p n = read_bytes m p n.
Proof.
  intros Hp Hl Hl'. destruct (Hp _ _ Hl Hl') as [_ Hb]. apply read_bytes_ext. intros i Hi.
  replace (p + i) with (p - PREFIX + PREFIX + i) by lia. by apply Hb.
Qed.

Lemma heap_of_unchanged m m' : unchanged m m' -> heap_of m' = heap_of m.
Proof.
  intros [Hl Hp]. apply map_eq. intros p. rewrite !heap_of_lookup, Hl.
  destruct (live (objs m) !! (p - PREFIX)) as [n|] eqn:E; simpl; [|done].
  f_equal. eapply preserved_contents; [done|done|by rewrite Hl].
Qed.

Lemma unchanged_refl m : unchanged m m.
Proof. split; [done|apply preserved_refl]. Qed.

Lemma heap_of_allocated m m' n p :
  allocated m m' n p -> heap_of m' = <[p := read_bytes m' p n]> (heap_of m).
Proof.
  intros [_ Hn Hl Hp]. apply map_eq. intros q. rewrite lookup_insert, !heap_of_lookup, Hl. case_decide as E.
  - subst. by rewrite lookup_insert_eq.
  - rewrite lookup_insert_ne by lia.
    destruct (live (objs m) !! (q - PREFIX)) as [x|] eqn:Ex; simpl; [|done].
    f_equal. eapply preserved_contents; [done|done|]. rewrite Hl. rewrite lookup_insert_ne by lia. done.
Qed.

Lemma heap_of_released m m' p : released m m' (p - PREFIX) -> heap_of m' = delete p (heap_of m).
Proof.
  intros [Hl Hp]. apply map_eq. intros q. rewrite lookup_delete, !heap_of_lookup, Hl. case_decide as E.
  - subst. by rewrite lookup_delete_eq.
  - rewrite lookup_delete_ne by lia.
    destruct (live (objs m) !! (q - PREFIX)) as [x|] eqn:Ex; simpl; [|done].
    f_equal. eapply preserved_contents; [done|done|]. rewrite Hl. rewrite lookup_delete_ne by lia. done.
Qed.

Lemma payload_aligned m p b :
  arena_wf m -> objs m !! (p - PREFIX) = Some (OBlock b) -> (HPLF_PAYLOAD_ALIGNMENT | p).
Proof.
  intros Hwf Hb. pose proof (object_aligned _ _ _ Hwf Hb) as Ha.
  replace p with (p - PREFIX + PREFIX) by lia. apply Z.divide_add_r; [done|by exists 3].
Qed.

(** A new block is placed apart from everything the client still holds. *)
Lemma placed_new m m' p n :
  arena_wf m -> arena_wf m' -> live (objs m) !! (p - PREFIX) = None ->
  live (objs m') !! (p - PREFIX) = Some n ->
  (forall k x, live (objs m) !! k = Some x -> exists b b', objs m !! k = Some (OBlock b) /\
     requested_size b = x /\ objs m' !! k = Some (OBlock b') /\ capacity b' = capacity b) ->
  placed (heap_of m) p n.
Proof.
  intros Hwf Hwf' Hnone Hlive Hcap.
  destruct (live_requested_size _ _ _ Hwf' Hlive) as (b & Hb & Hr & Hn).
  pose proof (object_address_pos _ _ _ Hwf' Hb). unfold PREFIX in *.
  split; [lia|]. split; [by eapply payload_aligned|]. split; [lia|]. split.
  { rewrite heap_of_lookup. unfold PREFIX. by rewrite Hnone. }
  intros q l Hq. apply heap_of_Some in Hq as (x & Hx & ->).
  destruct (live_requested_size _ _ _ Hwf Hx) as (b0 & Hb0 & Hr0 & Hn0).
  destruct (Hcap _ _ Hx) as (b1 & b' & Hb1 & _ & Hb' & Hc).
  assert (b1 = b0) as -> by congruence. unfold PREFIX in *.
  rewrite length_read_bytes by lia.
  assert (Hne : p - 48 <> q - 48) by congruence.
  pose proof (payloads_disjoint _ _ _ _ _ Hwf' Hb Hb' Hne). unfold PREFIX in *. lia.
Qed.

Lemma preserved_headers m m' :
  preserved m m' -> (forall k x, live (objs m) !! k = Some x -> live (objs m') !! k = Some x) ->
  forall k x, live (objs m) !! k = Some x -> exists b b', objs m !! k = Some (OBlock b) /\
     requested_size b = x /\ objs m' !! k = Some (OBlock b') /\ capacity b' = capacity b.
Proof.
  intros Hp Hl k x Hk. destruct (Hp _ _ Hk (Hl _ _ Hk)) as [Ho _].
  apply lookup_live in Hk as (b & Hb & Hr & _). exists b, b. by rewrite Ho.
Qed.

Lemma allocated_placed m m' n p :
  arena_wf m -> arena_wf m' -> allocated m m' n p -> placed (heap_of m) p n.
Proof.
  intros Hwf Hwf' [_ Hn Hl Hp]. eapply placed_new; [done|done|done|by rewrite Hl, lookup_insert_eq|].
  apply preserved_headers; [done|]. intros k x Hk. rewrite Hl. by rewrite lookup_insert_ne by congruence.
Qed.

Lemma allocated_sized m m' n p : arena_wf m' -> allocated m m' n p -> sized (read_bytes m' p n) n.
Proof.
  intros Hwf' [(b & _ & _ & ? & _) _ _ _]. apply length_read_bytes. lia.
Qed.

Lemma same_prefix_bytes m m' p q n n' :
  0 <= n -> 0 <= n' -> (forall i, 0 <= i < Z.min n n' -> byte_at m' (q + i) = byte_at m (p + i)) ->
  same_prefix (read_bytes m p n) (read_bytes m' q n').
Proof.
  intros Hn Hn' Hb. unfold same_prefix, read_bytes. rewrite !length_fmap, !length_seqZ.
  apply list_eq. intros i. destruct (decide (i < Z.to_nat n `min` Z.to_nat n')%nat) as [Hi|Hi].
  - rewrite !lookup_take_lt, !list_lookup_fmap by done.
    rewrite !(proj2 (lookup_seqZ 0 _ i (Z.of_nat i))) by lia. simpl. rewrite Hb by lia. done.
  - rewrite !lookup_take_ge by lia. done.
Qed.

(** In-place resize. *)
Lemma heap_of_retained m m' p n :
  retained m m' (p - PREFIX) n -> heap_of m' = <[p := read_bytes m' p n]> (heap_of m).
Proof.
  intros [_ Hl Hb _]. apply map_eq. intros q. rewrite lookup_insert, !heap_of_lookup, Hl. case_decide as E.
  - subst. by rewrite lookup_insert_eq.
  - rewrite lookup_insert_ne by lia. destruct (live (objs m) !! (q - PREFIX)); simpl; [|done].
    f_equal. apply read_bytes_ext. auto.
Qed.

(** Relocation, with or without the release of the old block. *)
Lemma heap_of_moved m m' p old_size q n :
  moved m m' (p - PREFIX) old_size q n -> live (objs m) !! (p - PREFIX) = Some old_size ->
  heap_of m' = delete p (<[q := read_bytes m' q n]> (heap_of m)) \/
  (heap_of m' = <[q := read_bytes m' q n]> (heap_of m) /\ free_can_fail).
Proof.
  intros M Hp. pose proof (mv_preserved _ _ _ _ _ _ M) as Hpres. pose proof (mv_fresh _ _ _ _ _ _ M) as Hf.
  assert (Hcase : forall (k : Z) x, k <> p -> k <> q -> live (objs m) !! (k - PREFIX) = Some x ->
    live (objs m') !! (k - PREFIX) = Some x -> read_bytes m' k x = read_bytes m k x).
  { intros k x _ _ Hx Hx'. by eapply preserved_contents. }
  destruct (mv_live _ _ _ _ _ _ M) as [Hl|[Hl Hfail]]; [left|right; split; [|done]];
    apply map_eq; intros k; rewrite ?lookup_delete, lookup_insert, !heap_of_lookup, Hl.
  - case_decide as E1; [subst; by rewrite lookup_delete_eq|].
    rewrite lookup_delete_ne by lia. case_decide as E2; [subst; by rewrite lookup_insert_eq|].
    rewrite lookup_insert_ne by lia. destruct (live (objs m) !! (k - PREFIX)) as [x|] eqn:Ex; simpl; [|done].
    f_equal. apply Hcase; [done..|]. rewrite Hl, lookup_delete_ne, lookup_insert_ne by lia. done.
  - case_decide as E2; [subst; by rewrite lookup_insert_eq|].
    rewrite lookup_insert_ne by lia. destruct (live (objs m) !! (k - PREFIX)) as [x|] eqn:Ex; simpl; [|done].
    f_equal. eapply preserved_contents; [done|done|]. rewrite Hl, lookup_insert_ne by lia. done.
Qed.
End heap_lemmas.
