(* ===== verification/HeapRefinement.v ===== *)
(** * Every implementation of the interface refines the abstract heap

    Proved once against [AllocatorLaws]: each client operation on an
    implementation is an allowed transition of the abstract heap, hence every run
    of a respectful client terminates without undefined behaviour and its history
    is a trace of the abstract heap. Invariants of the abstract heap follow by
    induction on traces. *)

From S2P Require Import Prelude CheckedMath SizeClass Memory Layout OsMemory Slab Arena LockedAllocator.
From S2P Require Import FreeLists LockedSpec LockedResize HeapSpec.

(** ** The abstract heap's own invariant *)

(** Live blocks are nonempty, aligned, nonnull and pairwise disjoint. *)
Definition heap_wf (h : heap) : Prop :=
  (forall p l, h !! p = Some l -> 0 < p /\ (HPLF_PAYLOAD_ALIGNMENT | p) /\ 1 <= Z.of_nat (length l)) /\
  (forall p l q l', h !! p = Some l -> h !! q = Some l' -> p <> q ->
     p + Z.of_nat (length l) <= q \/ q + Z.of_nat (length l') <= p).

Section refinement.
Context `{Build, Platform, !PlatformLaws, Allocator St} {wf : St -> Prop} `{!AllocatorLaws wf}.
Implicit Types (s : St) (h : heap).

Abbreviation heap_at s := (heap_of (alloc_memory s)).
Abbreviation step s o r s' := (heap_step free_can_fail (heap_at s) o r (heap_at s')).

(** A block of the heap is a live block of the memory, within its capacity. *)
Lemma heap_block s p l :
  wf s -> heap_at s !! p = Some l ->
  exists b, objs (alloc_memory s) !! (p - PREFIX) = Some (OBlock b) /\
    l = read_bytes (alloc_memory s) p (requested_size b) /\ 1 <= requested_size b <= capacity b /\
    live (objs (alloc_memory s)) !! (p - PREFIX) = Some (requested_size b) /\
    Z.of_nat (length l) = requested_size b.
Proof.
  intros Hwf (n & Hn & ->)%heap_of_Some.
  destruct (live_requested_size _ _ _ (law_arena _ Hwf) Hn) as (b & Hb & <- & ?).
  exists b. split_and!; try done; try lia. apply length_read_bytes. lia.
Qed.

Lemma heap_block_accessible s p l offset n :
  wf s -> heap_at s !! p = Some l -> 0 <= offset -> offset + n <= Z.of_nat (length l) ->
  accessible (alloc_memory s) (p + offset) n.
Proof.
  intros Hwf Hl Ho Hn. destruct (heap_block _ _ _ Hwf Hl) as (b & Hb & _ & Hc & _ & Hlen).
  assert (Hacc : accessible (alloc_memory s) p (requested_size b)).
  { pose proof (payload_accessible _ _ _ (requested_size b) (law_arena _ Hwf) Hb ltac:(lia)) as Ha.
    by replace (p - PREFIX + PREFIX) with p in Ha by lia. }
  eapply accessible_sub; [done|lia|lia].
Qed.

Lemma new_block_step n s p s' :
  wf s -> wf s' -> allocated (alloc_memory s) (alloc_memory s') n p ->
  placed (heap_at s) p n /\ sized (read_bytes (alloc_memory s') p n) n /\
  heap_at s' = <[p := read_bytes (alloc_memory s') p n]> (heap_at s).
Proof.
  intros Hwf Hwf' Hal. split_and!.
  - eapply allocated_placed; [by apply law_arena|by apply law_arena|done].
  - eapply allocated_sized; [by apply law_arena|done].
  - by apply heap_of_allocated.
Qed.

Lemma malloc_step n s p s' :
  wf s -> wf s' -> new_or_null n s p s' -> step s (op_malloc n) (res_pointer p) s'.
Proof.
  intros Hwf Hwf' [[-> Hu]|[_ Hal]].
  - rewrite (heap_of_unchanged _ _ Hu). constructor.
  - destruct (new_block_step _ _ _ _ Hwf Hwf' Hal) as (Hp & Hs & ->). by constructor.
Qed.

Lemma realloc_null_step n s p s' :
  wf s -> wf s' -> new_or_null n s p s' -> step s (op_realloc NULL n) (res_pointer p) s'.
Proof.
  intros Hwf Hwf' [[-> Hu]|[_ Hal]].
  - rewrite (heap_of_unchanged _ _ Hu). constructor. by left.
  - destruct (new_block_step _ _ _ _ Hwf Hwf' Hal) as (Hp & Hs & ->). by constructor.
Qed.

Lemma read_bytes_zero m p n :
  (forall i, 0 <= i < n -> byte_at m (p + i) = 0) -> read_bytes m p n = replicate (Z.to_nat n) 0.
Proof.
  intros Hz. unfold read_bytes. apply list_eq. intros i. rewrite list_lookup_fmap.
  destruct (decide (i < Z.to_nat n)%nat) as [Hi|Hi].
  - rewrite (proj2 (lookup_seqZ 0 n i (Z.of_nat i))) by lia. simpl.
    rewrite lookup_replicate_2 by done. by rewrite Hz by lia.
  - rewrite !lookup_ge_None_2 by (rewrite ?length_replicate, ?length_seqZ; lia). done.
Qed.

Lemma calloc_step count size s p s' :
  wf s -> wf s' -> new_or_null (count * size) s p s' ->
  (p <> NULL -> count * size <= SIZE_MAX /\
     forall i, 0 <= i < count * size -> byte_at (alloc_memory s') (p + i) = 0) ->
  step s (op_calloc count size) (res_pointer p) s'.
Proof.
  intros Hwf Hwf' [[-> Hu]|[Hp Hal]] Hz.
  - rewrite (heap_of_unchanged _ _ Hu). constructor.
  - destruct (Hz Hp) as [Hmax Hzero]. destruct (new_block_step _ _ _ _ Hwf Hwf' Hal) as (Hpl & Hs & ->).
    rewrite (read_bytes_zero _ _ _ Hzero). by constructor.
Qed.

Lemma moved_placed s s' p old_size q n :
  wf s -> wf s' -> live (objs (alloc_memory s)) !! (p - PREFIX) = Some old_size ->
  q <> NULL -> n <> 0 -> moved (alloc_memory s) (alloc_memory s') (p - PREFIX) old_size q n ->
  placed (heap_at s) q n.
Proof.
  intros Hwf Hwf' Hold Hq Hn M. pose proof (law_arena _ Hwf) as Ha. pose proof (law_arena _ Hwf') as Ha'.
  destruct (mv_new _ _ _ _ _ _ M) as (b & Hb & Hr & Hc). pose proof (mv_fresh _ _ _ _ _ _ M) as Hf.
  pose proof (object_address_pos _ _ _ Ha' Hb) as Hpos. unfold PREFIX in Hpos.
  split; [lia|]. split; [by eapply payload_aligned|]. split; [lia|]. split.
  { by rewrite heap_of_lookup, Hf. }
  intros k l (x & Hx & ->)%heap_of_Some.
  destruct (live_requested_size _ _ _ Ha Hx) as (b0 & Hb0 & Hr0 & Hn0).
  rewrite length_read_bytes by lia. destruct (Z.eq_dec k p) as [->|Hne].
  - assert (x = old_size) as -> by congruence. pose proof (mv_apart _ _ _ _ _ _ M). unfold PREFIX in *. lia.
  - assert (Hne' : q - PREFIX <> k - PREFIX) by congruence.
    assert (Hx' : live (objs (alloc_memory s')) !! (k - PREFIX) = Some x).
    { destruct (mv_live _ _ _ _ _ _ M) as [->|[-> _]];
        rewrite ?lookup_delete_ne, lookup_insert_ne by lia; done. }
    destruct (mv_preserved _ _ _ _ _ _ M _ _ Hx Hx') as [Ho _].
    rewrite Hb0 in Ho. pose proof (payloads_disjoint _ _ _ _ _ Ha' Hb Ho Hne'). unfold PREFIX in *. lia.
Qed.

Lemma retained_placed s s' p old_size n :
  wf s -> wf s' -> live (objs (alloc_memory s)) !! (p - PREFIX) = Some old_size ->
  retained (alloc_memory s) (alloc_memory s') (p - PREFIX) n -> placed (delete p (heap_at s)) p n.
Proof.
  intros Hwf Hwf' Hold R. pose proof (law_arena _ Hwf) as Ha. pose proof (law_arena _ Hwf') as Ha'.
  destruct (rt_block _ _ _ _ R) as (b & Hb & Hr & Hc).
  pose proof (object_address_pos _ _ _ Ha' Hb) as Hpos. unfold PREFIX in Hpos.
  split; [lia|]. split; [by eapply payload_aligned|]. split; [lia|]. split; [apply lookup_delete_eq|].
  intros k l [Hne Hk]%lookup_delete_Some. apply heap_of_Some in Hk as (x & Hx & ->).
  destruct (live_requested_size _ _ _ Ha Hx) as (b0 & Hb0 & Hr0 & Hn0).
  rewrite length_read_bytes by lia. assert (Hne' : p - PREFIX <> k - PREFIX) by lia.
  rewrite <- (rt_others _ _ _ _ R) in Hb0 by done.
  pose proof (payloads_disjoint _ _ _ _ _ Ha' Hb Hb0 Hne'). unfold PREFIX in *. lia.
Qed.

Lemma realloc_step p old_size n s q s' :
  wf s -> wf s' -> live (objs (alloc_memory s)) !! (p - PREFIX) = Some old_size -> is_size n ->
  resized p old_size n s q s' -> step s (op_realloc p n) (res_pointer q) s'.
Proof.
  intros Hwf Hwf' Hl Hs Hres. pose proof (law_arena _ Hwf) as Ha.
  destruct (live_requested_size _ _ _ Ha Hl) as (b & Hb & Hr & Hc).
  pose proof (object_address_pos _ _ _ Ha Hb) as Hpos.
  assert (Hp : p <> NULL) by (unfold PREFIX, NULL in *; lia).
  assert (Hlook : heap_at s !! p = Some (read_bytes (alloc_memory s) p old_size)) by (by rewrite heap_of_lookup, Hl).
  assert (Hn0 : 0 <= n) by apply Hs.
  destruct Hres as [(-> & Hn & Hu)|[(-> & -> & [Hrel|[Hu Hleak]])|[(-> & Hn & R)|(Hq & Hn & M)]]].
  - rewrite (heap_of_unchanged _ _ Hu). constructor. by right.
  - rewrite (heap_of_released _ _ _ Hrel). by constructor.
  - rewrite (heap_of_unchanged _ _ Hu). by constructor.
  - rewrite (heap_of_retained _ _ _ _ R). econstructor; [done|by eapply retained_placed|by apply length_read_bytes|].
    apply same_prefix_bytes; [lia|done|]. intros i _. apply R.
  - pose proof (moved_placed _ _ _ _ _ _ Hwf Hwf' Hl Hq Hn M) as Hpl.
    assert (Hpre : same_prefix (read_bytes (alloc_memory s) p old_size) (read_bytes (alloc_memory s') q n)).
    { apply same_prefix_bytes; [lia|done|]. intros i Hi. rewrite (mv_copied _ _ _ _ _ _ M) by done. f_equal. lia. }
    destruct (heap_of_moved _ _ _ _ _ _ M Hl) as [->|[-> Hleak]];
      econstructor; try done; by apply length_read_bytes.
Qed.

Lemma splice_bytes m p n offset data :
  0 <= offset -> offset + Z.of_nat (length data) <= n ->
  read_bytes (set_bytes (put_bytes (p + offset) data) m) p n = splice (read_bytes m p n) offset data.
Proof.
  intros Ho Hlen. unfold splice. apply list_eq. intros i.
  assert (Hlr : forall m', length (read_bytes m' p n) = Z.to_nat n).
  { intros m'. unfold read_bytes. by rewrite length_fmap, length_seqZ. }
  destruct (decide (i < Z.to_nat n)%nat) as [Hi|Hi].
  2: { rewrite !lookup_ge_None_2; [done|rewrite length_inserts, Hlr; lia|rewrite Hlr; lia]. }
  rewrite lookup_read_bytes by done. rewrite byte_at_put. case_decide as Hin.
  - rewrite list_lookup_inserts by (rewrite ?Hlr; lia).
    replace (Z.to_nat (p + Z.of_nat i - (p + offset))) with (i - Z.to_nat offset)%nat by lia.
    destruct (lookup_lt_is_Some_2 data (i - Z.to_nat offset)) as [v Hv]; [lia|]. by rewrite Hv.
  - assert (Hcase : (i < Z.to_nat offset)%nat \/ (Z.to_nat offset + length data <= i)%nat) by lia.
    destruct Hcase as [Hc|Hc].
    + rewrite list_lookup_inserts_lt by done. by rewrite lookup_read_bytes.
    + rewrite list_lookup_inserts_ge by done. by rewrite lookup_read_bytes.
Qed.

Lemma write_step s s' p offset data l :
  wf s -> heap_at s !! p = Some l -> 0 <= offset -> offset + Z.of_nat (length data) <= Z.of_nat (length l) ->
  alloc_memory s' = set_bytes (put_bytes (p + offset) data) (alloc_memory s) ->
  step s (op_write p offset data) res_unit s'.
Proof.
  intros Hwf Hl Ho Hlen Hm. destruct (heap_block _ _ _ Hwf Hl) as (b & Hb & Hlb & Hc & Hlive & Hsz).
  assert (E : heap_at s' = <[p := splice l offset data]> (heap_at s)).
  { rewrite Hm. apply map_eq. intros q. rewrite lookup_insert, !heap_of_lookup. cbn [objs set_bytes].
    case_decide as Eq.
    - subst q. rewrite Hlive. simpl. rewrite splice_bytes by lia. by rewrite Hlb.
    - destruct (live (objs (alloc_memory s)) !! (q - PREFIX)) as [n|] eqn:Hq; simpl; [|done]. f_equal.
      destruct (live_requested_size _ _ _ (law_arena _ Hwf) Hq) as (b' & Hb' & Hr' & Hc').
      apply read_bytes_ext. intros i Hi. rewrite byte_at_put, decide_False; [done|].
      assert (Hne : p - PREFIX <> q - PREFIX) by lia.
      pose proof (payloads_disjoint _ _ _ _ _ (law_arena _ Hwf) Hb Hb' Hne). unfold PREFIX in *. lia. }
  rewrite E. by constructor.
Qed.

Lemma read_slice m p n offset k :
  0 <= offset -> 0 <= k -> offset + k <= n ->
  read_bytes m (p + offset) k = take (Z.to_nat k) (drop (Z.to_nat offset) (read_bytes m p n)).
Proof.
  intros Ho Hk Hlen. apply list_eq. intros i. destruct (decide (i < Z.to_nat k)%nat) as [Hi|Hi].
  - rewrite lookup_take_lt, lookup_drop by done. rewrite !lookup_read_bytes by lia. do 2 f_equal. lia.
  - rewrite lookup_take_ge by lia. apply lookup_ge_None_2.
    unfold read_bytes. rewrite length_fmap, length_seqZ. lia.
Qed.

Lemma read_step s s' p offset n l :
  wf s -> heap_at s !! p = Some l -> 0 <= offset -> 0 <= n -> offset + n <= Z.of_nat (length l) ->
  alloc_memory s' = alloc_memory s ->
  step s (op_read p offset n) (res_bytes (read_bytes (alloc_memory s) (p + offset) n)) s'.
Proof.
  intros Hwf Hl Ho Hn Hlen ->. destruct (heap_block _ _ _ Hwf Hl) as (b & Hb & Hlb & Hc & Hlive & Hsz).
  rewrite (read_slice _ p (requested_size b)) by lia. rewrite <- Hlb. by constructor.
Qed.

(** A pointer the client may pass is null or a live block. *)
Lemma live_pointer s p :
  wf s -> is_Some (heap_at s !! p) ->
  exists n, live (objs (alloc_memory s)) !! (p - PREFIX) = Some n /\ p <> NULL.
Proof.
  intros Hwf [l Hl]. destruct (heap_block _ _ _ Hwf Hl) as (b & Hb & _ & _ & Hlive & _).
  exists (requested_size b). split; [done|].
  pose proof (object_address_pos _ _ _ (law_arena _ Hwf) Hb). unfold PREFIX, NULL in *. lia.
Qed.

Lemma wp_run_op o s :
  wf s -> op_valid (heap_at s) o -> wp (run_op o) (fun r s' => wf s' /\ step s o r s') s.
Proof.
  intros Hwf Hv. destruct o as [n|count size|p n|p| | |p offset data|p offset n]; simpl in *; wp_step.
  - eapply wp_mono; [by apply law_malloc|]. intros p s' [Hwf' Hp]. wp_step. split; [done|]. by apply malloc_step.
  - destruct Hv. eapply wp_mono; [by apply law_calloc|]. intros p s' (Hwf' & Hp & Hz). wp_step.
    split; [done|]. by apply calloc_step.
  - destruct Hv as [Hs [->|Hl]].
    + eapply wp_mono; [by apply law_realloc_null|]. intros q s' [Hwf' Hq]. wp_step. split; [done|].
      by apply realloc_null_step.
    + destruct (live_pointer _ _ Hwf Hl) as (x & Hx & _).
      eapply wp_mono; [by eapply law_realloc|]. intros q s' [Hwf' Hq]. wp_step. split; [done|].
      by eapply realloc_step.
  - destruct Hv as [->|Hl].
    + eapply wp_mono; [by apply law_free_null|]. intros [] s' [Hwf' Hu]. wp_step. split; [done|].
      rewrite (heap_of_unchanged _ _ Hu). apply step_free_null.
    + destruct (live_pointer _ _ Hwf Hl) as (x & Hx & Hp).
      eapply wp_mono; [by eapply law_free|]. intros [] s' [Hwf' [Hrel|[Hu Hleak]]]; wp_step; (split; [done|]).
      * rewrite (heap_of_released _ _ _ Hrel). by constructor.
      * rewrite (heap_of_unchanged _ _ Hu). by constructor.
  - eapply wp_mono; [by apply law_flush|]. intros [] s' [Hwf' Hu]. wp_step. split; [done|].
    rewrite (heap_of_unchanged _ _ Hu). constructor.
  - eapply wp_mono; [by apply law_trim|]. intros n s' [Hwf' Hu]. wp_step. split; [done|].
    rewrite (heap_of_unchanged _ _ Hu). constructor.
  - destruct Hv as (l & Hl & Ho & Hlen). eapply wp_mono; [apply law_store; [done|by eapply heap_block_accessible]|].
    intros [] s' [Hwf' Hm]. wp_step. split; [done|]. by eapply write_step.
  - destruct Hv as (l & Hl & Ho & Hn & Hlen). eapply wp_mono; [apply law_load; [done|by eapply heap_block_accessible]|].
    intros data s' (Hwf' & Hm & ->). wp_step. split; [done|]. by eapply read_step.
Qed.

(** The client's whole run. *)
Lemma wp_play client n hist s :
  respectful free_can_fail client -> wf s -> heap_trace free_can_fail client hist (heap_at s) ->
  wp (play client n hist) (fun hist' s' => wf s' /\ heap_trace free_can_fail client hist' (heap_at s') /\
    length hist' = (n + length hist)%nat) s.
Proof.
  intros Hc. revert hist s. induction n as [|n IH]; intros hist s Hwf Ht; simpl; [done|].
  pose proof (Hc _ _ Ht) as Hv. wp_step. eapply wp_mono; [by apply wp_run_op|].
  intros r s' [Hwf' Hstep]. eapply wp_mono; [apply IH; [done|by econstructor]|].
  intros hist' s'' (? & ? & Hlen). split_and!; [done..|]. rewrite Hlen. simpl. lia.
Qed.
End refinement.

(** ** Invariants of the abstract heap *)

Lemma heap_wf_empty : heap_wf ∅.
Proof. split; intros p l; intros *; by rewrite lookup_empty. Qed.

Lemma heap_wf_insert h p l : heap_wf h -> placed h p (Z.of_nat (length l)) -> heap_wf (<[p := l]> h).
Proof.
  intros [H1 H2] (Hp & Ha & Hl & Hn & Hd). split.
  - intros q x. rewrite lookup_insert. case_decide; [intros [= <-]; by subst|apply H1].
  - intros q x q' x'. rewrite !lookup_insert. repeat case_decide; intros; simplify_eq.
    + by apply Hd.
    + destruct (Hd q x); [done|right; done|left; done].
    + by eapply H2.
Qed.

Lemma heap_wf_delete h p : heap_wf h -> heap_wf (delete p h).
Proof.
  intros [H1 H2]. split.
  - intros q x [_ Hq]%lookup_delete_Some. by eapply H1.
  - intros q x q' x' [_ Hq]%lookup_delete_Some [_ Hq']%lookup_delete_Some. by eapply H2.
Qed.

(** Replacing the contents by contents that need no more room. *)
Lemma heap_wf_shrink h p l l' :
  heap_wf h -> h !! p = Some l -> 1 <= Z.of_nat (length l') <= Z.of_nat (length l) -> heap_wf (<[p := l']> h).
Proof.
  intros [H1 H2] Hp Hl. split.
  - intros q x. rewrite lookup_insert. case_decide as E; [|apply H1]. intros [= <-]. subst q.
    destruct (H1 _ _ Hp) as (? & ? & _). split_and!; [done..|lia].
  - intros q x q' x'. rewrite !lookup_insert. repeat case_decide; intros Hq Hq' Hne; simplify_eq.
    + pose proof (H2 _ _ _ _ Hp Hq' ltac:(done)). lia.
    + pose proof (H2 _ _ _ _ Hq Hp ltac:(done)). lia.
    + by eapply H2.
Qed.

Lemma length_splice l offset data : length (splice l offset data) = length l.
Proof. apply length_inserts. Qed.

(** Allowed transitions keep the heap well formed. *)
Lemma heap_step_wf leak h o r h' : heap_wf h -> heap_step leak h o r h' -> heap_wf h'.
Proof.
  intros Hwf Hs.
  destruct Hs as [n p l Hp Hl| |count size p Hp Hm| |n p l Hp Hl| | | |p n l l' Hh Hp Hl _
    |p n l q l' Hh Hp Hl _|p n l q l' Hh Hp Hl _ _| | | | | |p offset data l Hh|]; try done.
  - apply heap_wf_insert; [done|]. by rewrite Hl.
  - apply heap_wf_insert; [done|]. rewrite length_replicate. destruct Hp as (? & ? & ? & ?).
    rewrite Z2Nat.id by lia. done.
  - apply heap_wf_insert; [done|]. by rewrite Hl.
  - by apply heap_wf_delete.
  - rewrite <- insert_delete_eq. apply heap_wf_insert; [by apply heap_wf_delete|]. by rewrite Hl.
  - apply heap_wf_delete, heap_wf_insert; [done|]. by rewrite Hl.
  - apply heap_wf_insert; [done|]. by rewrite Hl.
  - by apply heap_wf_delete.
  - eapply heap_wf_shrink; [done|done|]. rewrite length_splice. destruct Hwf as [H1 _].
    destruct (H1 _ _ Hh) as (_ & _ & ?). lia.
Qed.

Lemma heap_trace_wf leak client hist h : heap_trace leak client hist h -> heap_wf h.
Proof. induction 1; [apply heap_wf_empty|by eapply heap_step_wf]. Qed.
