(* ===== verification/LockedApi.v ===== *)
(** * The locked allocator as an implementation of the interface

    The locked variant discharges [AllocatorLaws] with the invariant [locked_wf],
    which its initial state satisfies. *)

From S2P Require Import Prelude CheckedMath SizeClass Memory Layout Chain OsMemory Slab Arena SlabSpec.
From S2P Require Import LockedAllocator FreeLists LockedSpec LockedResize TrimLists Trim TrimLoop LockedTrim.
From S2P Require Import HeapSpec HeapRefinement.

(** ** Definitions *)

Section locked.
Context `{Build, Platform}.

#[export] Instance locked_allocator : Allocator hplf_allocator_state := {
  alloc_memory s := memory_of s;
  alloc_malloc := hplf_malloc;
  alloc_calloc := hplf_calloc;
  alloc_realloc := hplf_realloc;
  alloc_free := hplf_free;
  alloc_flush := hplf_thread_flush;
  alloc_trim := hplf_trim_quiescent;
  alloc_store a l := on_mem (store_bytes a l);
  alloc_load a n := on_mem (load_bytes a n)
}.
End locked.

(** ** The laws *)

Section laws.
Context `{Build, Platform, !PlatformLaws}.
Implicit Types (s : hplf_allocator_state).

Lemma lookup_replicate_NULL c head : array_get (free_lists initial_allocator_state) c = Some head -> head = NULL.
Proof. by intros [_ [-> _]%lookup_replicate]%array_get_Some. Qed.

Lemma initial_locked_wf : locked_wf initial_allocator_state.
Proof.
  split; [done|]. split.
  - split; intros *; cbn; rewrite ?lookup_empty; done.
  - exists []. split; [done|]. intros a. cbn. setoid_rewrite lookup_empty. set_solver.
  - done.
  - intros c head ->%lookup_replicate_NULL. exists []. split; [done|]. intros b. split; [by intros ?%not_elem_of_nil|].
    intros (blk & ? & ? & Hb & _). cbn in Hb. by rewrite lookup_empty in Hb.
Qed.

Lemma same_core_unchanged s s' : same_core s s' -> unchanged (memory_of s) (memory_of s').
Proof. intros (-> & _). apply unchanged_refl. Qed.

Lemma malloc_post_law n s p s' : malloc_post n s p s' -> locked_wf s' /\ new_or_null n s p s'.
Proof.
  intros [Hwf [[-> [Hcore _]]|[Hp Hal]]]; (split; [done|]).
  - left. split; [done|]. by apply same_core_unchanged.
  - right. done.
Qed.

Lemma free_post_law p s s' : free_post (p - PREFIX) s s' -> locked_wf s' /\ released_or_leaked p s s'.
Proof.
  intros (Hwf & _ & Hcase). split; [done|]. destruct Hcase as [[Hrel _]|[Hm Hf%free_fails_can]]; [by left|]. right.
  split; [|done]. cbn. rewrite Hm. apply unchanged_refl.
Qed.

Lemma realloc_post_law p old_size n s q s' :
  realloc_post p old_size n s q s' -> locked_wf s' /\ resized p old_size n s q s'.
Proof.
  intros [Hwf [(-> & Hn & [Hcore _])|[(-> & Hn & Hf)|[(-> & Hn & R)|(Hq & _ & Hn & M)]]]]; (split; [done|]).
  - left. split_and!; [done..|]. by apply same_core_unchanged.
  - right. left. split_and!; [done..|]. by apply free_post_law.
  - right. right. left. done.
  - right. right. right. done.
Qed.

#[export] Instance locked_laws : AllocatorLaws locked_wf.
Proof.
  split; cbn [alloc_memory alloc_malloc alloc_calloc alloc_realloc alloc_free alloc_flush alloc_trim
              alloc_store alloc_load locked_allocator].
  - intros s [_ Hinv]. apply Hinv.
  - intros n s Hwf Hn. eapply wp_mono; [by apply wp_malloc|]. intros p s'. apply malloc_post_law.
  - intros count size s Hwf Hc Hs. eapply wp_mono; [by apply wp_calloc|].
    intros p s' [Hwf' [(-> & Hcore & _)|(Hp & Hm & Hal & Hz)]]; (split; [done|]).
    + split; [|done]. left. split; [done|]. by apply same_core_unchanged.
    + split; [by right|]. done.
  - intros n s Hwf Hn. eapply wp_mono; [by apply wp_realloc_null|]. intros p s'. apply malloc_post_law.
  - intros p old_size n s Hwf Hl Hn. eapply wp_mono; [by eapply wp_realloc|]. intros q s'. apply realloc_post_law.
  - intros s Hwf. apply wp_free_null. split; [done|apply unchanged_refl].
  - intros p n s Hwf Hl. eapply wp_mono; [by eapply wp_free|]. intros [] s'. apply free_post_law.
  - intros s Hwf. apply wp_ret. split; [done|apply unchanged_refl].
  - intros s Hwf. eapply wp_mono; [by apply wp_trim_quiescent|]. intros n s' (Hwf' & Hl & Hp & _). done.
  - intros a l s [Hh Hinv] Hacc. apply wp_on_mem, wp_store_bytes; [done|]. cbn. split; [|done].
    split; [done|]. by apply lists_inv_set_bytes.
  - intros a n s Hwf Hacc. apply wp_on_mem, wp_load_bytes; [done|]. rewrite set_mem_same. done.
Qed.

End laws.
