(* ===== verification/LockedProperties.v ===== *)
(** * Properties of the locked allocator

    The theorems about the public API of the locked variant, each with a closed
    witness on the scripted platform of Scripted.v. *)

From S2P Require Import Prelude CheckedMath SizeClass Memory Layout Chain OsMemory Slab Arena SlabSpec.
From S2P Require Import LockedAllocator Scripted FreeLists LockedSpec LockedResize TrimLists Trim TrimLoop.
From S2P Require Import LockedTrim HeapSpec HeapRefinement LockedApi.

#[local] Existing Instance production_build.
#[local] Instance demo_platform : Platform := scripted_platform all_succeed.
#[local] Instance demo_laws : PlatformLaws := scripted_laws all_succeed.

(** ** Concrete runs for the witnesses *)

(** One 3000-byte block is allocated. *)
Definition demo_run : outcome hplf_allocator_state Z := hplf_malloc 3000 initial_allocator_state.
Definition demo_state : hplf_allocator_state := state_or initial_allocator_state demo_run.
Definition demo_pointer : Z := result_or NULL demo_run.

(** A client that allocates, frees what it got and then trims for ever. *)
Definition demo_client (hist : history) : heap_op :=
  match hist with
  | [] => op_malloc 3000
  | [(op_malloc _, res_pointer p)] => op_free p
  | _ => op_trim
  end.

Lemma demo_state_wf : locked_wf demo_state.
Proof.
  assert (Hs : is_size 3000) by (unfold is_size, SIZE_MAX, WORD; lia).
  destruct (wp_run _ _ _ (wp_malloc 3000 _ initial_locked_wf Hs)) as (p & s & E & Hwf & _).
  unfold demo_state, demo_run. by rewrite E.
Qed.

Lemma demo_live : live (objects_of demo_state) !! (demo_pointer - PREFIX) = Some 3000.
Proof. by vm_compute. Qed.

Lemma demo_client_respectful leak : respectful leak demo_client.
Proof.
  intros hist h Ht. destruct Ht as [|hist h r h' Ht Hs]; [simpl; size_bounds|].
  destruct Ht as [|hist h r0 h0 Ht Hs0].
  - simpl in *. inversion Hs; subst; simpl; [right; rewrite lookup_insert_eq; by eexists|by left].
  - assert (E : demo_client ((demo_client ((demo_client hist, r0) :: hist), r) :: (demo_client hist, r0) :: hist) = op_trim).
    { simpl. repeat case_match; done. }
    by rewrite E.
Qed.

(** ** The properties *)

Section properties.
Context `{Build, Platform, !PlatformLaws}.
Implicit Types (s : hplf_allocator_state).

(** C2: from the initial state, every run of a client that respects the API's
    rules terminates without undefined behaviour, and the calls and results it
    sees are a trace of the abstract heap: new blocks are nonnull, aligned and
    disjoint from every live block, calloc returns zeroes, realloc keeps the common
    prefix, and what a client wrote is what it reads. *)
Theorem locked_refines_heap (client : history -> heap_op) (n : nat) :
  respectful free_can_fail client ->
  exists hist s', play client n [] initial_allocator_state = Done hist s' /\
    locked_wf s' /\ heap_trace free_can_fail client hist (heap_of (memory_of s')) /\ length hist = n.
Proof.
  intros Hc. apply wp_run. eapply wp_mono; [apply wp_play; [exact Hc|apply initial_locked_wf|constructor]|].
  intros hist s' (? & ? & Hlen). rewrite Nat.add_0_r in Hlen. done.
Qed.

(** C7: in every state a client's run reaches, the live blocks are nonempty,
    nonnull, aligned for any fundamental type and pairwise disjoint. *)
Theorem locked_blocks_disjoint (client : history -> heap_op) (n : nat) hist s' :
  respectful free_can_fail client -> play client n [] initial_allocator_state = Done hist s' ->
  heap_wf (heap_of (memory_of s')).
Proof.
  intros Hc E. eapply heap_trace_wf.
  exact (proj1 (proj2 (wp_done _ _ _ _ _ (wp_play client n [] _ Hc initial_locked_wf (trace_start _ _)) E))).
Qed.


(** C29: freeing a live block preserves [errno] and every other live block. The block
    is released, and nothing else, unless it is small and this call's own lock of the
    registry fails, or large and this call's own unmap request fails; then, and only
    then, memory is as it was. *)
Theorem hplf_free_correct (p n : Z) s :
  locked_wf s -> live (objects_of s) !! (p - PREFIX) = Some n ->
  exists s', hplf_free p s = Done tt s' /\ free_post (p - PREFIX) s s'.
Proof.
  intros Hwf Hl. destruct (wp_run _ _ _ (wp_free _ _ _ Hwf Hl)) as ([] & s' & E & Hpost). by exists s'.
Qed.

(** C31: a zeroed request fails without effect when the product overflows (with
    [ENOMEM]) or when the underlying allocation is refused, and otherwise returns
    a new block of [count * size] zero bytes. *)
Theorem hplf_calloc_correct (count size : Z) s :
  locked_wf s -> is_size count -> is_size size ->
  exists p s', hplf_calloc count size s = Done p s' /\ calloc_post count size s p s'.
Proof. intros. apply wp_run. by apply wp_calloc. Qed.

(** C30: resizing a live block either fails leaving everything unchanged, frees it
    (size zero), grows or shrinks it in place without touching a byte, or moves it:
    the common prefix is copied to a new disjoint block and the old one is
    released. *)
Theorem hplf_realloc_correct (p old_size size : Z) s :
  locked_wf s -> live (objects_of s) !! (p - PREFIX) = Some old_size -> is_size size ->
  exists q s', hplf_realloc p size s = Done q s' /\ realloc_post p old_size size s q s'.
Proof. intros. apply wp_run. by apply wp_realloc. Qed.

End properties.

(** ** Witnesses *)

Lemma locked_refines_heap_witness :
  respectful free_can_fail demo_client /\
  exists hist s', play demo_client 4 [] initial_allocator_state = Done hist s' /\
    locked_wf s' /\ heap_trace free_can_fail demo_client hist (heap_of (memory_of s')) /\ length hist = 4%nat.
Proof.
  split; [apply demo_client_respectful|]. exact (locked_refines_heap demo_client 4 (demo_client_respectful _)).
Defined.

Definition demo_play := play demo_client 2 [] initial_allocator_state.

Lemma locked_blocks_disjoint_witness :
  heap_wf (heap_of (memory_of (state_or initial_allocator_state demo_play))).
Proof.
  eapply (locked_blocks_disjoint demo_client 2 (result_or [] demo_play)); [apply demo_client_respectful|].
  vm_compute. reflexivity.
Defined.


Lemma hplf_free_correct_witness :
  live (objects_of demo_state) !! (demo_pointer - PREFIX) = Some 3000 /\
  exists s', hplf_free demo_pointer demo_state = Done tt s' /\ free_post (demo_pointer - PREFIX) demo_state s'.
Proof.
  split; [apply demo_live|].
  apply (hplf_free_correct demo_pointer 3000 demo_state); [apply demo_state_wf|apply demo_live].
Defined.

Lemma hplf_calloc_correct_witness :
  exists p s', hplf_calloc 25 40 demo_state = Done p s' /\ calloc_post 25 40 demo_state p s'.
Proof. apply (hplf_calloc_correct 25 40 demo_state); [apply demo_state_wf|size_bounds|size_bounds]. Defined.

Lemma hplf_realloc_correct_witness :
  exists q s', hplf_realloc demo_pointer 100 demo_state = Done q s' /\
    realloc_post demo_pointer 3000 100 demo_state q s'.
Proof.
  apply (hplf_realloc_correct demo_pointer 3000 100 demo_state); [apply demo_state_wf|apply demo_live|size_bounds].
Defined.

