(* ===== verification/TransferList.v ===== *)
(** * Transfer lists (src/transfer_list.h)

    The private list descriptors that move free blocks between thread caches and
    the shared transfers: first node, last node and count. A descriptor is a local
    variable of its user, so it is a value passed to and returned from the
    operations; the links it owns are in memory. *)

From S2P Require Import Prelude SizeClass Memory Layout Chain OsMemory Slab Arena LockedAllocator TrimLists.

(** ** The code *)

Record hplf_transfer_list := TransferList {
  tl_first : Z;
  tl_last : Z;
  tl_count : Z
}.

Definition hplf_transfer_list_clear : hplf_transfer_list := TransferList NULL NULL 0.

(** The counting loop: current node, last node seen, nodes counted. *)
Definition from_chain_step (st : Z * Z * Z) : prog memory (Z * Z * Z + Z * Z) :=
  let '(block, last, count) := st in
  if block =? NULL then mret (inr (last, count))
  else
    b ← load_block block;
    mret (inl (next_free b, block, wadd count 1)).

Definition hplf_transfer_list_from_chain (first : Z) : prog memory hplf_transfer_list :=
  m ← get;
  r ← iterate (list_fuel m) from_chain_step (first, NULL, 0);
  mret (TransferList first r.1 r.2).

(** [while (--taken != 0) last = last->next_free]. *)
Definition take_step (st : Z * Z) : prog memory (Z * Z + Z) :=
  let '(last, taken) := st in
  let taken := wsub taken 1 in
  if taken =? 0 then mret (inr last)
  else
    b ← load_block last;
    mret (inl (next_free b, taken)).

(** The new source and the output. *)
Definition hplf_transfer_list_take_prefix (source : hplf_transfer_list) (maximum_count : Z)
    : prog memory (hplf_transfer_list * hplf_transfer_list) :=
  if (tl_first source =? NULL) || (maximum_count =? 0) then mret (source, hplf_transfer_list_clear)
  else
    let taken := if tl_count source <? maximum_count then tl_count source else maximum_count in
    m ← get;
    last ← iterate (list_fuel m) take_step (tl_first source, taken);
    b ← load_block last;
    let rest := next_free b in
    store_block last (set_next_free NULL);;
    mret (TransferList rest (if rest =? NULL then NULL else tl_last source) (wsub (tl_count source) taken),
          TransferList (tl_first source) last taken).

(** ** What a descriptor describes *)

Definition last_or_NULL (l : list Z) : Z := default NULL (last l).

(** The nodes reachable from the descriptor and its count. *)
Record describes_prefix (os : gmap Z object) (t : hplf_transfer_list) (l : list Z) : Prop := {
  dp_chain : chain (block_next os) (tl_first t) l;
  dp_count : tl_count t = Z.of_nat (length l)
}.

(** A complete descriptor: also the last node is right. *)
Record describes (os : gmap Z object) (t : hplf_transfer_list) (l : list Z) : Prop := {
  de_prefix : describes_prefix os t l;
  de_last : tl_last t = last_or_NULL l
}.

Section specs.
Implicit Types (m : memory) (l : list Z) (t : hplf_transfer_list).

Lemma describes_clear os : describes os hplf_transfer_list_clear [].
Proof. done. Qed.

Lemma describes_nil_iff os t l : describes_prefix os t l -> tl_first t = NULL <-> l = [].
Proof.
  intros [Hc _]. split; [|by intros ->]. intros E. rewrite E in Hc. by eapply chain_NULL.
Qed.

Lemma describes_last os t l : describes os t l -> l <> [] -> exists l0, l = l0 ++ [tl_last t].
Proof.
  intros [_ ->] Hne. destruct (exists_last Hne) as (l0 & x & ->). exists l0.
  unfold last_or_NULL. by rewrite last_snoc.
Qed.

Lemma describes_chain_eq os os' t l :
  (forall k, k ∈ l -> os' !! k = os !! k) -> describes os t l -> describes os' t l.
Proof.
  intros Ho [[Hc Hn] Hl]. split; [split; [|done]|done]. eapply chain_ext; [done|].
  intros b Hb. unfold block_next, block_at. by rewrite Ho.
Qed.

Lemma wp_from_chain m first l :
  chain (block_next (objs m)) first l -> Z.of_nat (length l) <= SIZE_MAX ->
  wp (hplf_transfer_list_from_chain first) (fun t m' => m' = m /\ tl_first t = first /\ describes (objs m) t l) m.
Proof.
  intros Hc Hlen. unfold hplf_transfer_list_from_chain. wp_steps.
  pose (J := fun (rest : list Z) (st : Z * Z * Z) (m' : memory) => m' = m /\ exists front, l = front ++ rest /\
     chain (block_next (objs m)) st.1.1 rest /\ st.1.2 = last_or_NULL front /\ st.2 = Z.of_nat (length front)).
  eapply wp_mono with (P := fun r m' => m' = m /\ r.1 = last_or_NULL l /\ r.2 = Z.of_nat (length l)).
  - apply (wp_iterate_list _ J) with (l := l); [|by eapply block_chain_fuel|split; [done|]; by exists []].
    intros rest [[p last] count] m' (-> & front & Hl & Hch & Hlast & Hcnt). simpl in *.
    destruct (Z.eqb_spec p NULL) as [->|Hp].
    + apply chain_NULL in Hch as ->. rewrite app_nil_r in Hl. subst front. by wp_steps.
    + destruct (chain_head _ _ _ Hch Hp) as [rest' ->]. destruct Hch as (_ & _ & q & Hq & Hch).
      apply block_next_Some in Hq as (b & Hb & <-). wp_step. eapply wp_load_block; [by apply block_at_Some|].
      wp_steps. exists rest'. split; [simpl; lia|]. split; [done|]. exists (front ++ [p]).
      split; [by rewrite <- app_assoc|]. split; [done|]. simpl.
      assert (Hle : (length front + 1 <= length l)%nat) by (rewrite Hl, length_app; simpl; lia).
      unfold last_or_NULL. rewrite last_snoc, length_app. simpl. split; [done|].
      rewrite Hcnt, wadd_small by lia. lia.
  - intros [last count] m' (-> & Hr1 & Hr2). simpl in *. subst. by wp_steps.
Qed.

(** The walk to the last node of a prefix of [n >= 1] nodes. *)
Lemma wp_take_walk m p l1 x l2 :
  chain (block_next (objs m)) p ((l1 ++ [x]) ++ l2) -> Z.of_nat (length (l1 ++ [x])) <= SIZE_MAX ->
  wp (iterate (list_fuel m) take_step (p, Z.of_nat (length (l1 ++ [x])))) (fun last m' => m' = m /\ last = x) m.
Proof.
  intros Hc Hlen. pose proof (block_chain_fuel _ _ _ Hc) as Hfuel. rewrite length_app in Hfuel.
  pose (J := fun (rest : list Z) (st : Z * Z) (m' : memory) => m' = m /\ exists rest0, rest = rest0 ++ [x] /\
     chain (block_next (objs m)) st.1 (rest ++ l2) /\ st.2 = Z.of_nat (length rest) /\ st.2 <= SIZE_MAX).
  apply (wp_iterate_list _ J) with (l := l1 ++ [x]); [|lia|split; [done|]; by exists l1].
  intros rest [p' taken] m' (-> & rest0 & -> & Hch & Hcnt & Hmax). simpl in Hcnt, Hmax, Hch. unfold take_step.
  rewrite length_app in Hcnt. simpl in Hcnt. rewrite wsub_small by lia.
  destruct rest0 as [|y rest0]; simpl in *.
  - destruct Hch as (-> & _). subst taken. simpl. by wp_steps.
  - destruct Hch as (-> & _ & q & Hq & Hch). apply block_next_Some in Hq as (b & Hb & <-).
    destruct (Z.eqb_spec (taken - 1) 0); [lia|]. wp_step. eapply wp_load_block; [by apply block_at_Some|].
    wp_steps. exists (rest0 ++ [x]). split; [simpl; lia|]. split; [done|]. exists rest0. simpl.
    split_and!; try done; [|lia]. rewrite length_app. simpl. lia.
Qed.

Lemma last_or_NULL_app l1 l2 : l2 <> [] -> last_or_NULL (l1 ++ l2) = last_or_NULL l2.
Proof. intros Hne. destruct (exists_last Hne) as (l0 & x & ->). unfold last_or_NULL. by rewrite app_assoc, !last_snoc. Qed.

Record took_prefix m m' t t' out l l1 l2 (maximum : Z) : Prop := {
  tp_split : l = l1 ++ l2;
  tp_length : Z.of_nat (length l1) = Z.min (Z.of_nat (length l)) maximum;
  tp_out : describes (objs m') out l1;
  tp_rest : describes_prefix (objs m') t' l2;
  tp_last : tl_last t = last_or_NULL l -> tl_last t' = last_or_NULL l2;
  tp_relinked : relinked l1 m m'
}.

Lemma took_nothing m t l :
  describes_prefix (objs m) t l -> 
  forall maximum, Z.min (Z.of_nat (length l)) maximum = 0 ->
  took_prefix m m t t hplf_transfer_list_clear l [] l maximum.
Proof.
  intros Hd maximum Hz. split; try done. apply relinked_refl. by intros k ?%not_elem_of_nil.
Qed.

Lemma wp_take_prefix m t l maximum :
  describes_prefix (objs m) t l -> Z.of_nat (length l) <= SIZE_MAX -> 0 <= maximum ->
  wp (hplf_transfer_list_take_prefix t maximum) (fun r m' => exists l1 l2,
    took_prefix m m' t r.1 r.2 l l1 l2 maximum) m.
Proof.
  intros Hd Hlen Hmax. pose proof Hd as [Hc Hn]. unfold hplf_transfer_list_take_prefix.
  destruct (Z.eqb_spec (tl_first t) NULL) as [E|E].
  { apply (describes_nil_iff _ _ _ Hd) in E as ->. wp_steps. exists [], []. apply took_nothing; [done|simpl; lia]. }
  destruct (Z.eqb_spec maximum 0) as [->|Hm]; simpl.
  { wp_steps. exists [], l. apply took_nothing; [done|lia]. }
  set (taken := if tl_count t <? maximum then tl_count t else maximum).
  assert (Htaken : taken = Z.min (Z.of_nat (length l)) maximum).
  { unfold taken. rewrite Hn. destruct (Z.ltb_spec (Z.of_nat (length l)) maximum); lia. }
  assert (Hne : (0 < length l)%nat) by (destruct l; [simpl in Hc; congruence|simpl; lia]).
  assert (Hsplit : exists l1 x l2, l = (l1 ++ [x]) ++ l2 /\ Z.of_nat (length (l1 ++ [x])) = taken).
  { destruct (exists_last (l := take (Z.to_nat taken) l)) as (l1 & x & Hx).
    - intros Hnil. apply (f_equal length) in Hnil. rewrite length_take in Hnil. simpl in Hnil. lia.
    - exists l1, x, (drop (Z.to_nat taken) l). rewrite <- Hx, take_drop. split; [done|].
      rewrite length_take. lia. }
  destruct Hsplit as (l1 & x & l2 & -> & Hl1). wp_step.
  rewrite <- Hl1. wp_step. wp_step. eapply wp_mono; [eapply wp_take_walk; [done|lia]|]. intros last m' [-> ->].
  pose proof (chain_NoDup _ _ _ Hc) as Hnd. apply NoDup_app in Hnd as (Hnd1 & Hd12 & _).
  apply NoDup_app in Hnd1 as (_ & Hx1 & _).
  pose proof Hc as Hc2. rewrite <- app_assoc in Hc2.
  apply chain_app in Hc2 as (r & Hseg & Hr & Hx & q & Hq & Hc2). subst r. simpl in Hc2.
  apply block_next_Some in Hq as (b & Hb & <-).
  wp_step. eapply wp_load_block; [by apply block_at_Some|]. wp_step.
  eapply wp_store_block; [by apply block_at_Some|]. wp_steps. simpl.
  rewrite length_app in Hn, Hlen.
  exists (l1 ++ [x]), l2. split; simpl.
  - done.
  - rewrite !length_app in *. simpl length in *. lia.
  - split; [split; [|done]|by unfold last_or_NULL; rewrite last_snoc].
    simpl. eapply chain_snoc_intro; [|done| |done].
    + eapply seg_ext; [done|]. intros y Hy. rewrite block_next_insert, decide_False; [done|].
      intros ->. apply (Hx1 _ Hy). left.
    + by rewrite block_next_insert, decide_True.
  - split; simpl.
    + apply block_chain_insert_ne; [done|]. apply Hd12. set_solver.
    + rewrite Hn. rewrite !length_app in *. simpl length in *. rewrite wsub_small by lia. lia.
  - intros Hlast. destruct (Z.eqb_spec (next_free b) NULL) as [E2|E2].
    + rewrite E2 in Hc2. by apply chain_NULL in Hc2 as ->.
    + rewrite Hlast. apply last_or_NULL_app. intros ->. simpl in Hc2. congruence.
  - apply relinked_store; [apply relinked_refl|set_solver|done]. intros k Hk.
    assert (Hk' : k ∈ (l1 ++ [x]) ++ l2) by set_solver.
    destruct (chain_elem_next _ _ _ _ Hc Hk') as [_ [q (b0 & Hb0 & _)%block_next_Some]]. by exists b0.
Qed.
End specs.
