(* ===== verification/ThreadCache.v ===== *)
(** * Thread caches (src/thread_cache.h, src/thread_cache.c)

    The bounded per-thread cache: one list, one count per class and the total of
    cached slot bytes. A cache is the first member of its descriptor, so a pointer
    to it is the descriptor's address; its fields are in memory. *)

From S2P Require Import Prelude CheckedMath SizeClass Memory Layout Chain OsMemory Slab Arena LockedAllocator.
From S2P Require Import TrimLists TransferList.

Definition HPLF_CACHE_CLASS_BLOCK_LIMIT : Z := 32.
Definition HPLF_CACHE_TOTAL_BYTES_LIMIT : Z := 64 * 1024.
Definition HPLF_CACHE_REFILL_LIMIT : Z := 16.

Record hplf_thread_cache_snapshot_t := CacheSnapshot {
  snap_counts : list Z;
  snap_list_lengths : list Z;
  snap_total_slot_bytes : Z;
  snap_computed_slot_bytes : Z
}.

(** ** Fields *)

Definition set_desc_cache (c : hplf_thread_cache) (d : hplf_cache_descriptor) : hplf_cache_descriptor :=
  Descriptor c (desc_mapping_base d) (desc_mapping_length d).
Definition set_cache_head (i p : Z) (c : hplf_thread_cache) : hplf_thread_cache :=
  ThreadCache (<[Z.to_nat i := p]> (cache_heads c)) (cache_counts c) (total_slot_bytes c).
Definition set_cache_count (i n : Z) (c : hplf_thread_cache) : hplf_thread_cache :=
  ThreadCache (cache_heads c) (<[Z.to_nat i := n]> (cache_counts c)) (total_slot_bytes c).
Definition set_total_slot_bytes (n : Z) (c : hplf_thread_cache) : hplf_thread_cache :=
  ThreadCache (cache_heads c) (cache_counts c) n.

Definition load_cache (cache : Z) : prog memory hplf_thread_cache :=
  d ← load_descriptor cache; mret (desc_cache d).
Definition modify_cache (cache : Z) (f : hplf_thread_cache -> hplf_thread_cache) : prog memory unit :=
  store_descriptor cache (fun d => set_desc_cache (f (desc_cache d)) d).

Definition cache_head (cache i : Z) : prog memory Z :=
  c ← load_cache cache; known (array_get (cache_heads c) i).
Definition cache_count (cache i : Z) : prog memory Z :=
  c ← load_cache cache; known (array_get (cache_counts c) i).
Definition cache_total (cache : Z) : prog memory Z :=
  c ← load_cache cache; mret (total_slot_bytes c).

(** Adding to a count and to the total, with wrap-around. *)
Definition adjust_cache (cache i count_delta bytes_delta : Z) : prog memory unit :=
  n ← cache_count cache i;
  modify_cache cache (set_cache_count i (wadd n count_delta));;
  t ← cache_total cache;
  modify_cache cache (set_total_slot_bytes (wadd t bytes_delta)).

Definition retire_cache (cache i count_delta bytes_delta : Z) : prog memory unit :=
  n ← cache_count cache i;
  modify_cache cache (set_cache_count i (wsub n count_delta));;
  t ← cache_total cache;
  modify_cache cache (set_total_slot_bytes (wsub t bytes_delta)).

(** ** Operations *)

Definition zeroed_cache : hplf_thread_cache :=
  ThreadCache (replicate (Z.to_nat HPLF_SIZE_CLASS_COUNT) NULL)
              (replicate (Z.to_nat HPLF_SIZE_CLASS_COUNT) 0) 0.

Definition hplf_thread_cache_initialize (cache : Z) : prog memory unit :=
  modify_cache cache (fun _ => zeroed_cache).

Definition hplf_thread_cache_take (cache class_index class_capacity : Z) : prog memory Z :=
  if HPLF_SIZE_CLASS_COUNT <=? class_index then mret NULL
  else
    block ← cache_head cache class_index;
    if block =? NULL then mret NULL
    else
      b ← load_block block;
      modify_cache cache (set_cache_head class_index (next_free b));;
      store_block block (set_next_free NULL);;
      retire_cache cache class_index 1 class_capacity;;
      mret block.

Definition hplf_thread_cache_store (cache class_index class_capacity block : Z) : prog memory unit :=
  head ← cache_head cache class_index;
  store_block block (set_next_free head);;
  modify_cache cache (set_cache_head class_index block);;
  adjust_cache cache class_index 1 class_capacity.

(** The list is consumed: the result is the caller's descriptor afterwards. *)
Definition hplf_thread_cache_restore (cache class_index class_capacity : Z) (l : hplf_transfer_list)
    : prog memory hplf_transfer_list :=
  if tl_first l =? NULL then mret l
  else
    head ← cache_head cache class_index;
    store_block (tl_last l) (set_next_free head);;
    modify_cache cache (set_cache_head class_index (tl_first l));;
    adjust_cache cache class_index (tl_count l) (wmul (tl_count l) class_capacity);;
    mret hplf_transfer_list_clear.

Definition hplf_thread_cache_refill (cache class_index class_capacity : Z) (available : hplf_transfer_list)
    : prog memory hplf_transfer_list :=
  n ← cache_count cache class_index;
  let class_space := wsub HPLF_CACHE_CLASS_BLOCK_LIMIT n in
  t ← cache_total cache;
  demand (class_capacity <> 0);;
  let byte_space := wsub HPLF_CACHE_TOTAL_BYTES_LIMIT t / class_capacity in
  let limit := if class_space <? HPLF_CACHE_REFILL_LIMIT then class_space else HPLF_CACHE_REFILL_LIMIT in
  let limit := if byte_space <? limit then byte_space else limit in
  r ← hplf_transfer_list_take_prefix available limit;
  let '(available, accepted) := r in
  hplf_thread_cache_restore cache class_index class_capacity accepted;;
  mret available.

(** The boolean result and the output list. *)
Definition hplf_thread_cache_extract_class (cache class_index maximum_count : Z)
    : prog memory (bool * hplf_transfer_list) :=
  match via (hplf_size_class_capacity class_index) with
  | None => mret (false, hplf_transfer_list_clear)
  | Some class_capacity =>
      if maximum_count =? 0 then mret (false, hplf_transfer_list_clear)
      else
        head ← cache_head cache class_index;
        if head =? NULL then mret (false, hplf_transfer_list_clear)
        else
          n ← cache_count cache class_index;
          r ← hplf_transfer_list_take_prefix (TransferList head NULL n) maximum_count;
          let '(available, output) := r in
          modify_cache cache (set_cache_head class_index (tl_first available));;
          retire_cache cache class_index (tl_count output) (wmul (tl_count output) class_capacity);;
          mret (true, output)
  end.

(** [for (index = 0; index < COUNT; ++index) if (counts[index] != 0) ...]. *)
Definition eviction_scan_step (cache : Z) (index : Z) : prog memory (Z + option (Z * Z)) :=
  if HPLF_SIZE_CLASS_COUNT <=? index then mret (inr None)
  else
    n ← cache_count cache index;
    if n =? 0 then mret (inl (index + 1)) else mret (inr (Some (index, n))).

(** The result, the class written to the output pointer and the output list. *)
Definition hplf_thread_cache_extract_eviction (cache current_class : Z) (class_output : cell Z)
    : prog memory (bool * cell Z * hplf_transfer_list) :=
  n ← cache_count cache current_class;
  if HPLF_CACHE_CLASS_BLOCK_LIMIT <? n then
    r ← hplf_thread_cache_extract_class cache current_class (wsub n HPLF_CACHE_CLASS_BLOCK_LIMIT);
    mret (r.1, Cell (Some current_class), r.2)
  else
    t ← cache_total cache;
    if t <=? HPLF_CACHE_TOTAL_BYTES_LIMIT then mret (false, class_output, hplf_transfer_list_clear)
    else
      n ← cache_count cache current_class;
      if negb (n =? 0) then
        r ← hplf_thread_cache_extract_class cache current_class n;
        mret (r.1, Cell (Some current_class), r.2)
      else
        found ← iterate (Datatypes.S (Z.to_nat HPLF_SIZE_CLASS_COUNT)) (eviction_scan_step cache) 0;
        match found with
        | Some (index, n) =>
            r ← hplf_thread_cache_extract_class cache index n;
            mret (r.1, Cell (Some index), r.2)
        | None => mret (false, class_output, hplf_transfer_list_clear)
        end.

(** Counting the nodes of one list, for the snapshots. *)
Definition count_step (st : Z * Z) : prog memory (Z * Z + Z) :=
  let '(block, n) := st in
  if block =? NULL then mret (inr n)
  else b ← load_block block; mret (inl (next_free b, wadd n 1)).
Definition count_list (head : Z) : prog memory Z :=
  m ← get; iterate (list_fuel m) count_step (head, 0).

(** The loop over the classes from [index] on; accumulates counts, lengths, the
    computed total and whether they match so far. *)
Fixpoint snapshot_classes (n : nat) (index cache : Z) (counts lengths : list Z) (computed_total : Z)
    (counts_match : bool) : prog memory (option (list Z * list Z * Z * bool)) :=
  match n with
  | O => mret (Some (counts, lengths, computed_total, counts_match))
  | Datatypes.S n' =>
      block ← cache_head cache index;
      match via (hplf_size_class_capacity index) with
      | None => mret None
      | Some class_capacity =>
          count ← cache_count cache index;
          length ← count_list block;
          snapshot_classes n' (index + 1) cache (counts ++ [count]) (lengths ++ [length])
            (wadd computed_total (wmul length class_capacity))
            (if negb (count =? length) then false else counts_match)
      end
  end.

(** The result and the snapshot, whose fields stay partial when a capacity lookup
    fails, which it cannot for the indices of the loop. *)
Definition hplf_thread_cache_snapshot (cache : Z) : prog memory (bool * option hplf_thread_cache_snapshot_t) :=
  r ← snapshot_classes (Z.to_nat HPLF_SIZE_CLASS_COUNT) 0 cache [] [] 0 true;
  match r with
  | None => mret (false, None)
  | Some (counts, lengths, computed_total, counts_match) =>
      t ← cache_total cache;
      mret (counts_match && (computed_total =? t), Some (CacheSnapshot counts lengths t computed_total))
  end.
