(* ===== verification/CachedState.v ===== *)
(** * State of the cached variant and its mutex transfers (src/transfer_mutex.c)

    The cached build (HPLF_VARIANT_CACHED_MUTEX): the registry state of
    src/allocator.c, which has no free lists in this build, the shared transfer
    heads under their own mutex, the process-wide key of the thread caches and the
    thread-local variables of every thread. Operations take the calling thread
    [self]; whole API calls of different threads interleave in any order. *)

From S2P Require Import Prelude CheckedMath SizeClass Memory Layout Chain OsMemory Slab Arena LockedAllocator.
From S2P Require Import TrimLists TransferList ThreadCache.

(** ** Threads library parameters *)

(** Results of the pthread calls, by the number of system calls made before. *)
Class Pthreads := {
  sys_transfer_lock : nat -> Z;        (* pthread_mutex_lock on the transfer mutex *)
  sys_once : nat -> Z;                 (* pthread_once *)
  sys_key_create : nat -> Z;           (* pthread_key_create *)
  sys_setspecific : nat -> Z           (* pthread_setspecific *)
}.

(** Locking the statically initialised transfer mutex, which its holder never
    relocks, succeeds; src/transfer_mutex.c ignores the result. *)
Class PthreadLaws `{Pthreads} : Prop := {
  transfer_lock_succeeds t : sys_transfer_lock t = 0
}.

(** ** State *)

Inductive hplf_cache_lifecycle_state :=
| HPLF_CACHE_UNINITIALIZED
| HPLF_CACHE_ACTIVE
| HPLF_CACHE_UNCACHED.

#[export] Instance hplf_cache_lifecycle_state_eq_dec : EqDecision hplf_cache_lifecycle_state.
Proof. solve_decision. Defined.

Record hplf_cached_test_stats := CachedStats {
  local_hits : Z;
  shared_refills : Z;
  slab_misses : Z;
  published_blocks : Z
}.

Definition zero_cached_stats : hplf_cached_test_stats := CachedStats 0 0 0 0.

(** The thread-local variables of one thread; [key_value] is its value of the
    cache key. *)
Record thread_state := ThreadState {
  current_descriptor : Z;
  current_state : hplf_cache_lifecycle_state;
  key_value : Z;
  cached_test_stats : hplf_cached_test_stats
}.

Definition initial_thread : thread_state := ThreadState NULL HPLF_CACHE_UNINITIALIZED NULL zero_cached_stats.

Record hplf_lifecycle_stats := LifecycleStats {
  key_create_attempts : Z;
  descriptor_map_attempts : Z;
  descriptor_maps : Z;
  descriptor_unmaps : Z;
  descriptor_bytes_mapped : Z;
  descriptor_bytes_unmapped : Z;
  registration_attempts : Z;
  registration_failures : Z;
  destructor_calls : Z;
  active_descriptors : Z;
  fail_descriptor_map_at : Z;
  fail_registration_at : Z;
  fail_key_create : Z
}.

Definition zero_lifecycle_stats : hplf_lifecycle_stats := LifecycleStats 0 0 0 0 0 0 0 0 0 0 0 0 0.

Record cached_allocator := CachedAllocator {
  base : hplf_allocator_state;      (* machine, registry mutex and slabs; no free lists *)
  transfers_held : bool;            (* transfers.mutex is locked *)
  transfer_heads : list Z;          (* transfers.heads *)
  cache_key_done : bool;            (* cache_key_once has run *)
  cache_key_error : Z;
  threads : gmap nat thread_state;
  lifecycle_stats : hplf_lifecycle_stats
}.

Definition set_base (b : hplf_allocator_state) (s : cached_allocator) : cached_allocator :=
  CachedAllocator b (transfers_held s) (transfer_heads s) (cache_key_done s) (cache_key_error s)
    (threads s) (lifecycle_stats s).
Definition set_transfers_held (h : bool) (s : cached_allocator) : cached_allocator :=
  CachedAllocator (base s) h (transfer_heads s) (cache_key_done s) (cache_key_error s)
    (threads s) (lifecycle_stats s).
Definition set_transfer_heads (l : list Z) (s : cached_allocator) : cached_allocator :=
  CachedAllocator (base s) (transfers_held s) l (cache_key_done s) (cache_key_error s)
    (threads s) (lifecycle_stats s).
Definition set_key (done : bool) (error : Z) (s : cached_allocator) : cached_allocator :=
  CachedAllocator (base s) (transfers_held s) (transfer_heads s) done error
    (threads s) (lifecycle_stats s).
Definition set_threads (f : gmap nat thread_state -> gmap nat thread_state) (s : cached_allocator)
    : cached_allocator :=
  CachedAllocator (base s) (transfers_held s) (transfer_heads s) (cache_key_done s) (cache_key_error s)
    (f (threads s)) (lifecycle_stats s).
Definition set_lifecycle (f : hplf_lifecycle_stats -> hplf_lifecycle_stats) (s : cached_allocator)
    : cached_allocator :=
  CachedAllocator (base s) (transfers_held s) (transfer_heads s) (cache_key_done s) (cache_key_error s)
    (threads s) (f (lifecycle_stats s)).

Abbreviation c_mem s := (mem (mach (base s))).
Abbreviation c_objs s := (objs (mem (mach (base s)))).

Definition thread_of (self : nat) (s : cached_allocator) : thread_state :=
  default initial_thread (threads s !! self).
Definition update_thread (self : nat) (f : thread_state -> thread_state) : prog cached_allocator unit :=
  modify (fun s => set_threads <[self := f (thread_of self s)]> s).

Definition set_current (descriptor : Z) (st : hplf_cache_lifecycle_state) (t : thread_state) : thread_state :=
  ThreadState descriptor st (key_value t) (cached_test_stats t).
Definition set_current_state (st : hplf_cache_lifecycle_state) (t : thread_state) : thread_state :=
  ThreadState (current_descriptor t) st (key_value t) (cached_test_stats t).
Definition set_key_value (v : Z) (t : thread_state) : thread_state :=
  ThreadState (current_descriptor t) (current_state t) v (cached_test_stats t).
Definition set_stats (f : hplf_cached_test_stats -> hplf_cached_test_stats) (t : thread_state) : thread_state :=
  ThreadState (current_descriptor t) (current_state t) (key_value t) (f (cached_test_stats t)).

(** The static initialisers. *)
Definition initial_cached_state : cached_allocator :=
  CachedAllocator (AllocatorState (Machine empty_memory 0 0 zero_faults) false [] NULL) false
    (replicate (Z.to_nat HPLF_SIZE_CLASS_COUNT) NULL) false 0 ∅ zero_lifecycle_stats.

Definition on_base {A} (p : prog hplf_allocator_state A) : prog cached_allocator A := zoom base set_base p.
Definition on_c_machine {A} (p : prog machine A) : prog cached_allocator A := on_base (on_machine p).
Definition on_c_mem {A} (p : prog memory A) : prog cached_allocator A := on_c_machine (on_memory p).
Definition set_errno_c (e : Z) : prog cached_allocator unit := on_c_machine (set_errno e).

(** ** src/transfer_mutex.c *)

Section transfers.
Context `{Build, Platform, Pthreads}.

(** The result of the lock is ignored; only a success holds the mutex. *)
Definition transfers_lock : prog cached_allocator unit :=
  s ← get;
  t ← on_c_machine tick;
  if transfers_held s then diverges
  else if sys_transfer_lock t =? 0 then modify (set_transfers_held true) else mret tt.

Definition transfers_unlock : prog cached_allocator unit :=
  s ← get;
  t ← on_c_machine tick;
  demand (transfers_held s = true);;
  if sys_mutex_unlock t =? 0 then modify (set_transfers_held false) else mret tt.

Definition transfer_head (class_index : Z) : prog cached_allocator Z :=
  s ← get; known (array_get (transfer_heads s) class_index).
Definition set_transfer_head (class_index p : Z) : prog cached_allocator unit :=
  s ← get; known (array_get (transfer_heads s) class_index);;
  modify (set_transfer_heads (<[Z.to_nat class_index := p]> (transfer_heads s))).

(** The caller's descriptor afterwards. *)
Definition hplf_transfer_mutex_publish (class_index : Z) (l : hplf_transfer_list)
    : prog cached_allocator hplf_transfer_list :=
  if tl_first l =? NULL then mret l
  else
    transfers_lock;;
    head ← transfer_head class_index;
    on_c_mem (store_block (tl_last l) (set_next_free head));;
    set_transfer_head class_index (tl_first l);;
    transfers_unlock;;
    mret hplf_transfer_list_clear.

Definition hplf_transfer_mutex_detach (class_index : Z) : prog cached_allocator hplf_transfer_list :=
  transfers_lock;;
  first ← transfer_head class_index;
  set_transfer_head class_index NULL;;
  transfers_unlock;;
  on_c_mem (hplf_transfer_list_from_chain first).

Fixpoint transfer_counts (n : nat) (index : Z) : prog cached_allocator (list Z) :=
  match n with
  | O => mret []
  | Datatypes.S n' =>
      head ← transfer_head index;
      count ← on_c_mem (count_list head);
      rest ← transfer_counts n' (index + 1);
      mret (count :: rest)
  end.

Definition hplf_transfer_mutex_snapshot : prog cached_allocator (list Z) :=
  transfers_lock;;
  counts ← transfer_counts (Z.to_nat HPLF_SIZE_CLASS_COUNT) 0;
  transfers_unlock;;
  mret counts.
End transfers.
