(* ===== verification/Lifecycle.v ===== *)
(** * Thread-cache lifecycle (src/thread_cache_lifecycle.h, .c)

    Acquiring, flushing and destroying the calling thread's cache descriptor:
    once-only key creation, the descriptor's mapping, registration with the key,
    and the destructor that publishes every cached block before it unmaps the
    descriptor. Any setup failure makes the thread permanently uncached. *)

From S2P Require Import Prelude CheckedMath SizeClass Memory Layout Chain OsMemory Slab Arena LockedAllocator.
From S2P Require Import TrimLists TransferList ThreadCache CachedState.

(** ** Test statistics of the testing build *)

(** One atomic counter of [test_stats]. *)
Record stat := Stat {
  stat_get : hplf_lifecycle_stats -> Z;
  stat_put : Z -> hplf_lifecycle_stats -> hplf_lifecycle_stats
}.

Definition s_key_create_attempts := Stat key_create_attempts (fun v s =>
  LifecycleStats v (descriptor_map_attempts s) (descriptor_maps s) (descriptor_unmaps s)
    (descriptor_bytes_mapped s) (descriptor_bytes_unmapped s) (registration_attempts s)
    (registration_failures s) (destructor_calls s) (active_descriptors s)
    (fail_descriptor_map_at s) (fail_registration_at s) (fail_key_create s)).
Definition s_descriptor_map_attempts := Stat descriptor_map_attempts (fun v s =>
  LifecycleStats (key_create_attempts s) v (descriptor_maps s) (descriptor_unmaps s)
    (descriptor_bytes_mapped s) (descriptor_bytes_unmapped s) (registration_attempts s)
    (registration_failures s) (destructor_calls s) (active_descriptors s)
    (fail_descriptor_map_at s) (fail_registration_at s) (fail_key_create s)).
Definition s_descriptor_maps := Stat descriptor_maps (fun v s =>
  LifecycleStats (key_create_attempts s) (descriptor_map_attempts s) v (descriptor_unmaps s)
    (descriptor_bytes_mapped s) (descriptor_bytes_unmapped s) (registration_attempts s)
    (registration_failures s) (destructor_calls s) (active_descriptors s)
    (fail_descriptor_map_at s) (fail_registration_at s) (fail_key_create s)).
Definition s_descriptor_unmaps := Stat descriptor_unmaps (fun v s =>
  LifecycleStats (key_create_attempts s) (descriptor_map_attempts s) (descriptor_maps s) v
    (descriptor_bytes_mapped s) (descriptor_bytes_unmapped s) (registration_attempts s)
    (registration_failures s) (destructor_calls s) (active_descriptors s)
    (fail_descriptor_map_at s) (fail_registration_at s) (fail_key_create s)).
Definition s_descriptor_bytes_mapped := Stat descriptor_bytes_mapped (fun v s =>
  LifecycleStats (key_create_attempts s) (descriptor_map_attempts s) (descriptor_maps s)
    (descriptor_unmaps s) v (descriptor_bytes_unmapped s) (registration_attempts s)
    (registration_failures s) (destructor_calls s) (active_descriptors s)
    (fail_descriptor_map_at s) (fail_registration_at s) (fail_key_create s)).
Definition s_descriptor_bytes_unmapped := Stat descriptor_bytes_unmapped (fun v s =>
  LifecycleStats (key_create_attempts s) (descriptor_map_attempts s) (descriptor_maps s)
    (descriptor_unmaps s) (descriptor_bytes_mapped s) v (registration_attempts s)
    (registration_failures s) (destructor_calls s) (active_descriptors s)
    (fail_descriptor_map_at s) (fail_registration_at s) (fail_key_create s)).
Definition s_registration_attempts := Stat registration_attempts (fun v s =>
  LifecycleStats (key_create_attempts s) (descriptor_map_attempts s) (descriptor_maps s)
    (descriptor_unmaps s) (descriptor_bytes_mapped s) (descriptor_bytes_unmapped s) v
    (registration_failures s) (destructor_calls s) (active_descriptors s)
    (fail_descriptor_map_at s) (fail_registration_at s) (fail_key_create s)).
Definition s_registration_failures := Stat registration_failures (fun v s =>
  LifecycleStats (key_create_attempts s) (descriptor_map_attempts s) (descriptor_maps s)
    (descriptor_unmaps s) (descriptor_bytes_mapped s) (descriptor_bytes_unmapped s)
    (registration_attempts s) v (destructor_calls s) (active_descriptors s)
    (fail_descriptor_map_at s) (fail_registration_at s) (fail_key_create s)).
Definition s_destructor_calls := Stat destructor_calls (fun v s =>
  LifecycleStats (key_create_attempts s) (descriptor_map_attempts s) (descriptor_maps s)
    (descriptor_unmaps s) (descriptor_bytes_mapped s) (descriptor_bytes_unmapped s)
    (registration_attempts s) (registration_failures s) v (active_descriptors s)
    (fail_descriptor_map_at s) (fail_registration_at s) (fail_key_create s)).
Definition s_active_descriptors := Stat active_descriptors (fun v s =>
  LifecycleStats (key_create_attempts s) (descriptor_map_attempts s) (descriptor_maps s)
    (descriptor_unmaps s) (descriptor_bytes_mapped s) (descriptor_bytes_unmapped s)
    (registration_attempts s) (registration_failures s) (destructor_calls s) v
    (fail_descriptor_map_at s) (fail_registration_at s) (fail_key_create s)).
Definition s_fail_descriptor_map_at := Stat fail_descriptor_map_at (fun v s =>
  LifecycleStats (key_create_attempts s) (descriptor_map_attempts s) (descriptor_maps s)
    (descriptor_unmaps s) (descriptor_bytes_mapped s) (descriptor_bytes_unmapped s)
    (registration_attempts s) (registration_failures s) (destructor_calls s) (active_descriptors s)
    v (fail_registration_at s) (fail_key_create s)).
Definition s_fail_registration_at := Stat fail_registration_at (fun v s =>
  LifecycleStats (key_create_attempts s) (descriptor_map_attempts s) (descriptor_maps s)
    (descriptor_unmaps s) (descriptor_bytes_mapped s) (descriptor_bytes_unmapped s)
    (registration_attempts s) (registration_failures s) (destructor_calls s) (active_descriptors s)
    (fail_descriptor_map_at s) v (fail_key_create s)).
Definition s_fail_key_create := Stat fail_key_create (fun v s =>
  LifecycleStats (key_create_attempts s) (descriptor_map_attempts s) (descriptor_maps s)
    (descriptor_unmaps s) (descriptor_bytes_mapped s) (descriptor_bytes_unmapped s)
    (registration_attempts s) (registration_failures s) (destructor_calls s) (active_descriptors s)
    (fail_descriptor_map_at s) (fail_registration_at s) v).

Definition stat_load (c : stat) : prog cached_allocator Z := gets (fun s => stat_get c (lifecycle_stats s)).
Definition stat_store (c : stat) (v : Z) : prog cached_allocator unit := modify (set_lifecycle (stat_put c v)).
Definition stat_add (c : stat) (v : Z) : prog cached_allocator unit :=
  old ← stat_load c; stat_store c (wadd old v).
Definition stat_sub (c : stat) (v : Z) : prog cached_allocator unit :=
  old ← stat_load c; stat_store c (wsub old v).

Section lifecycle.
Context `{Build, Platform, Pthreads}.

(** [HPLF_TEST_INCREMENT] and [HPLF_TEST_ADD]. *)
Definition test_add (c : stat) (v : Z) : prog cached_allocator unit :=
  if HPLF_TESTING then stat_add c v else mret tt.
Definition test_increment (c : stat) : prog cached_allocator unit := test_add c 1.

(** ** Descriptors *)

Fixpoint flush_classes (n : nat) (class_index descriptor published : Z) : prog cached_allocator Z :=
  match n with
  | O => mret published
  | Datatypes.S n' =>
      r ← on_c_mem (hplf_thread_cache_extract_class descriptor class_index SIZE_MAX);
      match r with
      | (true, l) =>
          hplf_transfer_mutex_publish class_index l;;
          flush_classes n' (class_index + 1) descriptor (wadd published (tl_count l))
      | (false, _) => flush_classes n' (class_index + 1) descriptor published
      end
  end.

Definition flush_descriptor (descriptor : Z) : prog cached_allocator Z :=
  flush_classes (Z.to_nat HPLF_SIZE_CLASS_COUNT) 0 descriptor 0.

Definition release_descriptor (descriptor : Z) (count_destructor : bool) : prog cached_allocator unit :=
  if descriptor =? NULL then mret tt
  else
    (if count_destructor then test_increment s_destructor_calls else mret tt);;
    flush_descriptor descriptor;;
    d ← on_c_mem (load_descriptor descriptor);
    r ← on_c_machine (munmap (desc_mapping_base d) (desc_mapping_length d));
    if r =? 0 then
      test_increment s_descriptor_unmaps;;
      test_add s_descriptor_bytes_unmapped (desc_mapping_length d);;
      if HPLF_TESTING then stat_sub s_active_descriptors 1 else mret tt
    else mret tt.

(** The key's destructor, called with the exiting thread's key value. *)
Definition destroy_descriptor (self : nat) (descriptor : Z) : prog cached_allocator unit :=
  if descriptor =? NULL then mret tt
  else
    update_thread self (set_current NULL HPLF_CACHE_UNCACHED);;
    release_descriptor descriptor true.

Definition create_cache_key : prog cached_allocator unit :=
  test_increment s_key_create_attempts;;
  fail ← (if HPLF_TESTING then stat_load s_fail_key_create else mret 0);
  if negb (fail =? 0) then modify (fun s => set_key (cache_key_done s) EAGAIN s)
  else
    t ← on_c_machine tick;
    modify (fun s => set_key (cache_key_done s) (sys_key_create t) s).

(** [pthread_once]: on success the initialiser has run exactly once. *)
Definition pthread_once_key : prog cached_allocator Z :=
  t ← on_c_machine tick;
  if negb (sys_once t =? 0) then mret (sys_once t)
  else
    s ← get;
    if cache_key_done s then mret 0
    else create_cache_key;; modify (fun s => set_key true (cache_key_error s) s);; mret 0.

Definition pthread_setspecific_key (self : nat) (value : Z) : prog cached_allocator Z :=
  t ← on_c_machine tick;
  if negb (sys_setspecific t =? 0) then mret (sys_setspecific t)
  else update_thread self (set_key_value value);; mret 0.

Definition map_descriptor : prog cached_allocator Z :=
  if sysconf_pagesize <=? 0 then mret NULL
  else
    match via (hplf_size_round_up_multiple sizeof_hplf_cache_descriptor sysconf_pagesize) with
    | None => mret NULL
    | Some mapping_length =>
        test_increment s_descriptor_map_attempts;;
        attempt ← stat_load s_descriptor_map_attempts;
        fail_at ← stat_load s_fail_descriptor_map_at;
        if HPLF_TESTING && (attempt =? fail_at) then mret NULL
        else
          mapping ← on_c_machine (mmap mapping_length);
          match mapping with
          | None => mret NULL
          | Some mapping =>
              (* the fields are assigned on zero-filled storage *)
              on_c_mem (create_object mapping (ODescriptor (Descriptor zeroed_cache mapping mapping_length)));;
              on_c_mem (hplf_thread_cache_initialize mapping);;
              test_increment s_descriptor_maps;;
              test_add s_descriptor_bytes_mapped mapping_length;;
              test_increment s_active_descriptors;;
              mret mapping
          end
    end.

(** ** The interface used by the allocator *)

(** The registration of a mapped descriptor with the key; zero is success. *)
Definition register_descriptor (self : nat) (descriptor : Z) : prog cached_allocator Z :=
  test_increment s_registration_attempts;;
  attempt ← stat_load s_registration_attempts;
  fail_at ← stat_load s_fail_registration_at;
  if HPLF_TESTING && (attempt =? fail_at) then mret EAGAIN
  else pthread_setspecific_key self descriptor.

Definition hplf_cache_acquire (self : nat) : prog cached_allocator Z :=
  th ← gets (thread_of self);
  match current_state th with
  | HPLF_CACHE_ACTIVE => mret (current_descriptor th)
  | HPLF_CACHE_UNCACHED => mret NULL
  | HPLF_CACHE_UNINITIALIZED =>
      registration_error ← pthread_once_key;
      key_error ← gets cache_key_error;
      if negb (registration_error =? 0) || negb (key_error =? 0) then
        update_thread self (set_current_state HPLF_CACHE_UNCACHED);; mret NULL
      else
        descriptor ← map_descriptor;
        if descriptor =? NULL then
          update_thread self (set_current_state HPLF_CACHE_UNCACHED);; mret NULL
        else
          registration_error ← register_descriptor self descriptor;
          if negb (registration_error =? 0) then
            test_increment s_registration_failures;;
            update_thread self (set_current_state HPLF_CACHE_UNCACHED);;
            release_descriptor descriptor false;;
            mret NULL
          else
            update_thread self (set_current descriptor HPLF_CACHE_ACTIVE);;
            mret descriptor
  end.

Definition hplf_cache_current (self : nat) : prog cached_allocator Z :=
  th ← gets (thread_of self);
  if decide (current_state th = HPLF_CACHE_ACTIVE) then mret (current_descriptor th) else mret NULL.

Definition hplf_cache_flush_current (self : nat) : prog cached_allocator Z :=
  th ← gets (thread_of self);
  if decide (current_state th = HPLF_CACHE_ACTIVE) then flush_descriptor (current_descriptor th) else mret 0.

Definition hplf_cache_state (self : nat) : prog cached_allocator hplf_cache_lifecycle_state :=
  gets (fun s => current_state (thread_of self s)).

(** What the threads library does when a thread exits: a nonnull key value is
    cleared and handed to the destructor. *)
Definition thread_exit (self : nat) : prog cached_allocator unit :=
  th ← gets (thread_of self);
  if key_value th =? NULL then mret tt
  else
    update_thread self (set_key_value NULL);;
    destroy_descriptor self (key_value th).

(** ** Test functions *)

Definition hplf_cache_lifecycle_test_reset : prog cached_allocator unit :=
  stat_store s_key_create_attempts 0;;
  stat_store s_descriptor_map_attempts 0;;
  stat_store s_descriptor_maps 0;;
  stat_store s_descriptor_unmaps 0;;
  stat_store s_descriptor_bytes_mapped 0;;
  stat_store s_descriptor_bytes_unmapped 0;;
  stat_store s_registration_attempts 0;;
  stat_store s_registration_failures 0;;
  stat_store s_destructor_calls 0;;
  stat_store s_active_descriptors 0;;
  stat_store s_fail_descriptor_map_at 0;;
  stat_store s_fail_registration_at 0;;
  stat_store s_fail_key_create 0.

Definition hplf_cache_lifecycle_test_fail_key_create : prog cached_allocator unit :=
  stat_store s_fail_key_create 1.
Definition hplf_cache_lifecycle_test_fail_descriptor_map (attempt : Z) : prog cached_allocator unit :=
  stat_store s_fail_descriptor_map_at attempt.
Definition hplf_cache_lifecycle_test_fail_registration (attempt : Z) : prog cached_allocator unit :=
  stat_store s_fail_registration_at attempt.

(** The ten reported counters, in the order of the struct. *)
Definition hplf_cache_lifecycle_test_get : prog cached_allocator (list Z) :=
  a ← stat_load s_key_create_attempts;
  b ← stat_load s_descriptor_map_attempts;
  c ← stat_load s_descriptor_maps;
  d ← stat_load s_descriptor_unmaps;
  e ← stat_load s_descriptor_bytes_mapped;
  f ← stat_load s_descriptor_bytes_unmapped;
  g ← stat_load s_registration_attempts;
  h ← stat_load s_registration_failures;
  i ← stat_load s_destructor_calls;
  j ← stat_load s_active_descriptors;
  mret [a; b; c; d; e; f; g; h; i; j].

Definition hplf_cache_lifecycle_test_teardown_current (self : nat) : prog cached_allocator bool :=
  th ← gets (thread_of self);
  if decide (current_state th = HPLF_CACHE_ACTIVE) then
    error ← pthread_setspecific_key self NULL;
    if negb (error =? 0) then mret false
    else
      update_thread self (set_current NULL HPLF_CACHE_UNCACHED);;
      release_descriptor (current_descriptor th) true;;
      mret true
  else mret false.
End lifecycle.
