(* ===== verification/CachedAllocator.v ===== *)
(** * The allocator, cached variant (src/allocator.c with HPLF_VARIANT_CACHED_MUTEX)

    The same public API on thread caches backed by the mutex transfers. Each
    function takes the calling thread; the parts the variants share (large blocks,
    the retain test, the registry walk of the trim) are the definitions of
    LockedAllocator.v. *)

From S2P Require Import Prelude CheckedMath SizeClass Memory Layout Chain OsMemory Slab Arena LockedAllocator.
From S2P Require Import TrimLists TransferList ThreadCache CachedState Lifecycle.

Section cached.
Context `{Build, Platform, Pthreads}.

(** [cached_test_stats.field += n] of the testing build. *)
Definition count_stat (self : nat) (f : hplf_cached_test_stats -> hplf_cached_test_stats)
    : prog cached_allocator unit :=
  if HPLF_TESTING then update_thread self (set_stats f) else mret tt.

Definition add_local_hits (s : hplf_cached_test_stats) :=
  CachedStats (wadd (local_hits s) 1) (shared_refills s) (slab_misses s) (published_blocks s).
Definition add_shared_refills (s : hplf_cached_test_stats) :=
  CachedStats (local_hits s) (wadd (shared_refills s) 1) (slab_misses s) (published_blocks s).
Definition add_slab_misses (s : hplf_cached_test_stats) :=
  CachedStats (local_hits s) (shared_refills s) (wadd (slab_misses s) 1) (published_blocks s).
Definition add_published (n : Z) (s : hplf_cached_test_stats) :=
  CachedStats (local_hits s) (shared_refills s) (slab_misses s) (wadd (published_blocks s) n).

(** ** hplf_malloc *)

(** The empty recheck under the registry lock, then slab creation: [None] when the
    allocation fails. *)
Definition recheck_or_create (self : nat) (class_index class_capacity : Z)
    : prog cached_allocator (option hplf_transfer_list) :=
  available ← hplf_transfer_mutex_detach class_index;
  if tl_first available =? NULL then
    created ← on_c_machine (viaM2 (hplf_slab_create class_index class_capacity));
    match created with
    | None => on_base registry_unlock;; set_errno_c ENOMEM;; mret None
    | Some (slab, new_free_list) =>
        registered ← gets (fun s => slabs (base s));
        on_c_mem (store_slab slab (set_slab_next registered));;
        on_base (modify (set_slabs slab));;
        available ← on_c_mem (hplf_transfer_list_from_chain new_free_list);
        count_stat self add_slab_misses;;
        on_base registry_unlock;;
        mret (Some available)
    end
  else
    count_stat self add_shared_refills;;
    on_base registry_unlock;;
    mret (Some available).

(** The blocks available for a refill: the shared ones, or a new slab's. *)
Definition refill_available (self : nat) (class_index class_capacity : Z)
    : prog cached_allocator (option hplf_transfer_list) :=
  available ← hplf_transfer_mutex_detach class_index;
  if tl_first available =? NULL then
    error ← on_base registry_lock;
    if negb (error =? 0) then set_errno_c error;; mret None
    else recheck_or_create self class_index class_capacity
  else
    count_stat self add_shared_refills;;
    mret (Some available).

(** Refill the cache and take from it, or take one block directly. *)
Definition take_refilled (cache class_index class_capacity : Z) (available : hplf_transfer_list)
    : prog cached_allocator (Z * hplf_transfer_list) :=
  r ← (if negb (cache =? NULL) then
         available ← on_c_mem (hplf_thread_cache_refill cache class_index class_capacity available);
         block ← on_c_mem (hplf_thread_cache_take cache class_index class_capacity);
         mret (block, available)
       else mret (NULL, available));
  let '(block, available) := r in
  if block =? NULL then
    d ← on_c_mem (hplf_transfer_list_take_prefix available 1);
    mret (tl_first d.2, d.1)
  else mret (block, available).

(** Publish what is left and hand the block to the client. *)
Definition publish_and_return (self : nat) (requested_size class_index block : Z) (available : hplf_transfer_list)
    : prog cached_allocator Z :=
  if block =? NULL then
    hplf_transfer_mutex_publish class_index available;;
    set_errno_c ENOMEM;;
    mret NULL
  else
    count_stat self (add_published (tl_count available));;
    hplf_transfer_mutex_publish class_index available;;
    on_c_mem (store_block block (set_requested_size requested_size));;
    mret (hplf_block_payload block).

Definition hplf_allocate_small (self : nat) (requested_size class_index class_capacity : Z)
    : prog cached_allocator Z :=
  cache ← hplf_cache_acquire self;
  block ← (if negb (cache =? NULL) then on_c_mem (hplf_thread_cache_take cache class_index class_capacity)
           else mret NULL);
  if negb (block =? NULL) then
    count_stat self add_local_hits;;
    on_c_mem (store_block block (set_requested_size requested_size));;
    mret (hplf_block_payload block)
  else
    refilled ← refill_available self class_index class_capacity;
    match refilled with
    | None => mret NULL
    | Some available =>
        r ← take_refilled cache class_index class_capacity available;
        let '(block, available) := r in
        publish_and_return self requested_size class_index block available
    end.

Definition hplf_malloc (self : nat) (size : Z) : prog cached_allocator Z :=
  if size =? 0 then mret NULL
  else if PTRDIFF_MAX <? size then set_errno_c ENOMEM;; mret NULL
  else
    match class_for size with
    | Some (class_index, class_capacity) => hplf_allocate_small self size class_index class_capacity
    | None => on_c_machine (hplf_allocate_large size)
    end.

(** ** hplf_free *)

(** One round of the eviction loop: [inr] when nothing is left to evict. *)
Definition eviction_step (self : nat) (cache class_index : Z) (_ : unit) : prog cached_allocator (unit + unit) :=
  r ← on_c_mem (hplf_thread_cache_extract_eviction cache class_index (Cell None));
  match r with
  | (true, Cell (Some eviction_class), eviction) =>
      count_stat self (add_published (tl_count eviction));;
      hplf_transfer_mutex_publish eviction_class eviction;;
      mret (inl tt)
  | (true, _, _) => undefined
  | (false, _, _) => mret (inr tt)
  end.

(** Every round empties one class or ends the loop after the limit holds, so one
    more round than classes plus the first and last is enough. *)
Definition EVICTION_FUEL : nat := Z.to_nat HPLF_SIZE_CLASS_COUNT + 4.

Definition free_small (self : nat) (block : Z) (b : hplf_block) : prog cached_allocator unit :=
  slab ← known (owner_small_slab b);
  h ← on_c_mem (load_slab slab);
  let class_index := class_index h in
  cache ← hplf_cache_acquire self;
  let class_capacity := capacity b in
  on_c_mem (store_block block (set_requested_size 0));;
  if cache =? NULL then
    on_c_mem (store_block block (set_next_free NULL));;
    count_stat self (add_published 1);;
    hplf_transfer_mutex_publish class_index (TransferList block block 1);;
    mret tt
  else
    on_c_mem (hplf_thread_cache_store cache class_index class_capacity block);;
    iterate EVICTION_FUEL (eviction_step self cache class_index) tt.

Definition hplf_free (self : nat) (pointer : Z) : prog cached_allocator unit :=
  saved_errno ← gets (fun s => errno (mach (base s)));
  if pointer =? NULL then mret tt
  else
    let block := hplf_block_from_payload pointer in
    b ← on_c_mem (load_block block);
    match kind b with
    | HPLF_BLOCK_LARGE => on_c_machine (free_large b)
    | HPLF_BLOCK_SMALL => free_small self block b
    end;;
    set_errno_c saved_errno.

(** ** hplf_calloc and hplf_realloc *)

Definition hplf_calloc (self : nat) (count size : Z) : prog cached_allocator Z :=
  if (count =? 0) || (size =? 0) then mret NULL
  else
    match via (hplf_size_multiply count size) with
    | None => set_errno_c ENOMEM;; mret NULL
    | Some total_size =>
        pointer ← hplf_malloc self total_size;
        (if negb (pointer =? NULL) then on_c_mem (memset pointer 0 total_size) else mret tt);;
        mret pointer
    end.

Definition hplf_realloc (self : nat) (pointer size : Z) : prog cached_allocator Z :=
  if pointer =? NULL then hplf_malloc self size
  else if size =? 0 then hplf_free self pointer;; mret NULL
  else if PTRDIFF_MAX <? size then set_errno_c ENOMEM;; mret NULL
  else
    let old_block := hplf_block_from_payload pointer in
    b ← on_c_mem (load_block old_block);
    retain ← on_c_mem (hplf_realloc_can_retain b size);
    if (retain : bool) then on_c_mem (store_block old_block (set_requested_size size));; mret pointer
    else
      replacement ← hplf_malloc self size;
      if replacement =? NULL then mret NULL
      else
        b ← on_c_mem (load_block old_block);
        let copy_size := if requested_size b <? size then requested_size b else size in
        on_c_mem (memcpy replacement pointer copy_size);;
        hplf_free self pointer;;
        mret replacement.

Definition hplf_thread_flush (self : nat) : prog cached_allocator unit :=
  published ← hplf_cache_flush_current self;
  count_stat self (add_published published).

(** ** hplf_trim_quiescent *)

Fixpoint detach_all (n : nat) (index : Z) : prog cached_allocator (list hplf_transfer_list) :=
  match n with
  | O => mret []
  | Datatypes.S n' =>
      detached ← hplf_transfer_mutex_detach index;
      rest ← detach_all n' (index + 1);
      mret (detached :: rest)
  end.

(** The final loop of the trim: recompute each class's descriptor and publish it. *)
Fixpoint publish_chains (index : Z) (heads : list Z) : prog cached_allocator unit :=
  match heads with
  | [] => mret tt
  | head :: heads' =>
      l ← on_c_mem (hplf_transfer_list_from_chain head);
      hplf_transfer_mutex_publish index l;;
      publish_chains (index + 1) heads'
  end.

(** The registry walk on the local array [lists] instead of the state's. *)
Definition trim_local (lists : list Z) : prog cached_allocator (Z * list Z) :=
  zoom (fun s => set_free_lists lists (base s)) (fun b s => set_base (set_free_lists (free_lists (base s)) b) s)
    (released_total ← trim_registry;
     final ← gets free_lists;
     mret (released_total, final)).

Definition hplf_trim_quiescent (self : nat) : prog cached_allocator Z :=
  error ← on_base registry_lock;
  if negb (error =? 0) then mret 0
  else
    detached ← detach_all (Z.to_nat HPLF_SIZE_CLASS_COUNT) 0;
    r ← trim_local (tl_first <$> detached);
    let '(released_total, lists) := r in
    publish_chains 0 lists;;
    on_base registry_unlock;;
    mret released_total.

(** ** Test statistics and snapshot *)

Definition hplf_cached_test_stats_reset (self : nat) : prog cached_allocator unit :=
  update_thread self (set_stats (fun _ => zero_cached_stats)).
Definition hplf_cached_test_stats_get (self : nat) : prog cached_allocator hplf_cached_test_stats :=
  gets (fun s => cached_test_stats (thread_of self s)).

(** One slab of the membership search: [inr] when it decides. *)
Definition belongs_step (block : Z) (b : hplf_block) (slab : Z) : prog memory (Z + bool) :=
  if slab =? NULL then mret (inr false)
  else
    h ← load_slab slab;
    let first := slab + first_slot_offset h in
    a ← known (owner_small_slab b);
    if negb (a =? slab) || (block <? first) then mret (inl (slab_next h))
    else
      let offset := block - first in
      demand (slot_stride h <> 0);;
      if (offset mod slot_stride h =? 0) && (offset / slot_stride h <? slot_count h) then mret (inr true)
      else mret (inl (slab_next h)).

Definition hplf_cached_block_belongs_to_registry (registry block : Z) : prog memory bool :=
  b ← load_block block;
  m ← get;
  iterate (list_fuel m) (belongs_step block b) registry.

Definition occurrences_step (candidate : Z) (st : Z * Z) : prog memory (Z * Z + Z) :=
  let '(block, n) := st in
  if block =? NULL then mret (inr n)
  else b ← load_block block; mret (inl (next_free b, if block =? candidate then wadd n 1 else n)).

Fixpoint hplf_cached_block_occurrences (candidate occurrences : Z) (heads : list Z) : prog memory Z :=
  match heads with
  | [] => mret occurrences
  | head :: heads' =>
      m ← get;
      n ← iterate (list_fuel m) (occurrences_step candidate) (head, occurrences);
      hplf_cached_block_occurrences candidate n heads'
  end.

(** The test of one free block: kind, registry, class, and its occurrences in the
    shared lists and, for a cached block, in the local ones. *)
Definition free_block_valid (registry class_index block : Z) (heads : list Z) (expected : Z)
    (local_heads : option (list Z)) : prog memory bool :=
  b ← load_block block;
  if decide (kind b = HPLF_BLOCK_SMALL) then
    belongs ← hplf_cached_block_belongs_to_registry registry block;
    if (belongs : bool) then
      a ← known (owner_small_slab b);
      h ← load_slab a;
      if negb (Memory.class_index h =? class_index) then mret false
      else
        n ← hplf_cached_block_occurrences block 0 heads;
        if negb (n =? expected) then mret false
        else
          match local_heads with
          | None => mret true
          | Some local_heads =>
              k ← hplf_cached_block_occurrences block 0 local_heads;
              mret (k =? 1)
          end
    else mret false
  else mret false.

(** Walking one list: nodes traversed and whether all were valid. *)
Definition check_step (valid : Z -> prog memory bool) (st : Z * Z * bool) : prog memory (Z * Z * bool + Z * bool) :=
  let '(block, traversed, unique) := st in
  if block =? NULL then mret (inr (traversed, unique))
  else
    ok ← valid block;
    b ← load_block block;
    mret (inl (next_free b, wadd traversed 1, if (ok : bool) then unique else false)).

Definition check_list (valid : Z -> prog memory bool) (head : Z) (unique : bool) : prog memory (Z * bool) :=
  m ← get; iterate (list_fuel m) (check_step valid) (head, 0, unique).

(** The loop over the classes: shared blocks so far, whether the transfer counts
    match and whether every free block is unique. *)
Fixpoint snapshot_lists (index : Z) (registry : Z) (heads local_heads : list Z) (lists : list hplf_transfer_list)
    (todo : list (Z * Z)) (shared : Z) (counts_match unique : bool) : prog memory (Z * bool * bool) :=
  match todo, lists with
  | (head, local) :: todo', l :: lists' =>
      r ← check_list (fun b => free_block_valid registry index b heads 0 (Some local_heads)) local unique;
      r ← check_list (fun b => free_block_valid registry index b heads 1 None) head r.2;
      let '(traversed, unique) := r in
      snapshot_lists (index + 1) registry heads local_heads lists' todo' (wadd shared traversed)
        (if negb (traversed =? tl_count l) then false else counts_match) unique
  | _, _ => mret (shared, counts_match, unique)
  end.

(** The registry's slabs and their slots. *)
Definition registry_step (st : Z * Z * Z) : prog memory (Z * Z * Z + Z * Z) :=
  let '(slab, n, slots) := st in
  if slab =? NULL then mret (inr (n, slots))
  else h ← load_slab slab; mret (inl (slab_next h, wadd n 1, wadd slots (slot_count h))).

Record hplf_cached_test_snapshot_t := CachedSnapshot {
  cs_slab_count : Z;
  cs_total_slots : Z;
  cs_shared_free_blocks : Z;
  cs_current_local_blocks : Z;
  cs_current_local_bytes : Z;
  cs_live_blocks : Z;
  cs_cache_counts_match : bool;
  cs_transfer_counts_match : bool;
  cs_unique_free_blocks : bool
}.

Fixpoint publish_all (index : Z) (lists : list hplf_transfer_list) : prog cached_allocator unit :=
  match lists with
  | [] => mret tt
  | l :: lists' => hplf_transfer_mutex_publish index l;; publish_all (index + 1) lists'
  end.

(** The calling thread's part: whether its cache is consistent, its counts and
    bytes, and its list heads. *)
Definition snapshot_local (self : nat) : prog cached_allocator (bool * Z * Z * list Z) :=
  cache ← hplf_cache_current self;
  if cache =? NULL then mret (true, 0, 0, replicate (Z.to_nat HPLF_SIZE_CLASS_COUNT) NULL)
  else
    r ← on_c_mem (hplf_thread_cache_snapshot cache);
    c ← on_c_mem (load_cache cache);
    match r with
    | (ok, Some local) =>
        mret (ok, foldl wadd 0 (snap_counts local), snap_total_slot_bytes local, cache_heads c)
    | (ok, None) => mret (ok, 0, 0, cache_heads c)
    end.

(** [None] when the registry lock fails; the function then returns false with the
    snapshot only partly written. *)
Definition hplf_cached_test_snapshot (self : nat) : prog cached_allocator (option (bool * hplf_cached_test_snapshot_t)) :=
  r ← snapshot_local self;
  let '(cache_match, local_blocks, local_bytes, local_heads) := r in
  error ← on_base registry_lock;
  if negb (error =? 0) then mret None
  else
    lists ← detach_all (Z.to_nat HPLF_SIZE_CLASS_COUNT) 0;
    let heads := tl_first <$> lists in
    registry ← gets (fun s => slabs (base s));
    m ← gets (fun s => c_mem s);
    counted ← on_c_mem (iterate (list_fuel m) registry_step (registry, 0, 0));
    let '(slab_count, total_slots) := counted in
    checked ← on_c_mem (snapshot_lists 0 registry heads local_heads lists (zip heads local_heads) 0 true true);
    let '(shared, counts_match, unique) := checked in
    let impossible := (total_slots <? shared) || (wsub total_slots shared <? local_blocks) in
    let live := if impossible then 0 else wsub (wsub total_slots shared) local_blocks in
    let unique := if impossible then false else unique in
    publish_all 0 lists;;
    on_base registry_unlock;;
    mret (Some (negb impossible && cache_match && counts_match && unique,
                CachedSnapshot slab_count total_slots shared local_blocks local_bytes live
                               cache_match counts_match unique)).
End cached.
