(* ===== verification/Pool.v ===== *)
(** * The pool of free blocks of the cached variant

    Every free block is in exactly one place: a shared transfer list, a thread
    cache, or the hands of a running operation. Operations of the cached variant
    move blocks between places; they change links of free blocks and the contents
    of cache descriptors and nothing else. *)

From S2P Require Import Prelude CheckedMath SizeClass Memory Layout Chain OsMemory Slab Arena SlabSpec.
From S2P Require Import LockedAllocator FreeLists LockedSpec TrimLists Trim TransferList ThreadCache HeapSpec.

(** ** Definitions *)

(** Two versions of an object that differ in links or cache contents only. *)
Inductive same_but_lists : object -> object -> Prop :=
| lists_block b q : (requested_size b <> 0 -> q = next_free b) ->
    same_but_lists (OBlock b) (OBlock (set_next_free q b))
| lists_slab h : same_but_lists (OSlab h) (OSlab h)
| lists_descriptor d c : same_but_lists (ODescriptor d) (ODescriptor (set_desc_cache c d)).

Record reshuffled (m m' : memory) : Prop := {
  rs_maps : maps m' = maps m;
  rs_bytes : bytes m' = bytes m;
  rs_objs : forall k, option_Forall2 same_but_lists (objs m !! k) (objs m' !! k)
}.

(** Exactly the links of the blocks [S] and the caches of the descriptors [D]
    may have changed. *)
Record reworked (S D : list Z) (m m' : memory) : Prop := {
  wk_maps : maps m' = maps m;
  wk_bytes : bytes m' = bytes m;
  wk_out : forall k, k ∉ S -> k ∉ D -> objs m' !! k = objs m !! k;
  wk_blocks : forall k, k ∈ S -> exists b q, objs m !! k = Some (OBlock b) /\
                                             objs m' !! k = Some (OBlock (set_next_free q b));
  wk_caches : forall k, k ∈ D -> exists d c, objs m !! k = Some (ODescriptor d) /\
                                             objs m' !! k = Some (ODescriptor (set_desc_cache c d))
}.

(** The contents of one cache: its blocks by class. *)
Abbreviation cache_contents := (Z -> list Z).

Definition kupd (K : cache_contents) (i : Z) (l : list Z) : cache_contents :=
  fun j => if decide (j = i) then l else K j.

Definition class_table : list (Z * Z) := Eval vm_compute in zip (seqZ 0 16) size_class_capacities.

Definition cached_bytes (K : cache_contents) : Z :=
  foldr (fun '(i, cap) acc => Z.of_nat (length (K i)) * cap + acc) 0 class_table.

(** The fields of a cache describe [K]; counts and total are exact modulo the
    word size. *)
Record cache_ok (os : gmap Z object) (c : hplf_thread_cache) (K : cache_contents) : Prop := {
  co_heads : Z.of_nat (length (cache_heads c)) = HPLF_SIZE_CLASS_COUNT;
  co_counts : Z.of_nat (length (cache_counts c)) = HPLF_SIZE_CLASS_COUNT;
  co_list : forall i head, array_get (cache_heads c) i = Some head -> chain (block_next os) head (K i);
  co_count : forall i n, array_get (cache_counts c) i = Some n -> n = Z.of_nat (length (K i)) mod WORD;
  co_total : total_slot_bytes c = cached_bytes K mod WORD;
  co_disjoint : forall i j b, 0 <= i < HPLF_SIZE_CLASS_COUNT -> 0 <= j < HPLF_SIZE_CLASS_COUNT ->
    b ∈ K i -> b ∈ K j -> i = j
}.

Definition cache_at (os : gmap Z object) (d : Z) (K : cache_contents) : Prop :=
  exists dsc, os !! d = Some (ODescriptor dsc) /\ cache_ok os (desc_cache dsc) K.

(** The limits every cache respects between operations. *)
Definition within_limits (K : cache_contents) : Prop :=
  (forall i, 0 <= i < HPLF_SIZE_CLASS_COUNT -> Z.of_nat (length (K i)) <= HPLF_CACHE_CLASS_BLOCK_LIMIT) /\
  cached_bytes K <= HPLF_CACHE_TOTAL_BYTES_LIMIT.

(** ** Reworking and reshuffling *)

Section rework.
Implicit Types (m : memory) (S D : list Z).

Lemma same_but_lists_refl o : same_but_lists o o.
Proof.
  destruct o as [b|h|d].
  - replace b with (set_next_free (next_free b) b) at 2 by (by destruct b). by constructor.
  - constructor.
  - replace d with (set_desc_cache (desc_cache d) d) at 2 by (by destruct d). constructor.
Qed.

Lemma same_but_lists_trans o1 o2 o3 : same_but_lists o1 o2 -> same_but_lists o2 o3 -> same_but_lists o1 o3.
Proof.
  intros [b q Hq|h|d c] S2; inversion S2 as [b' q' Hq'|h'|d' c']; subst; [|constructor|apply (lists_descriptor d c')].
  apply (lists_block b q'). simpl in Hq'. intros Hr. by rewrite Hq', Hq.
Qed.

Lemma same_but_lists_home k o o' : same_but_lists o o' -> home k o' = home k o.
Proof. by intros []. Qed.

Lemma reshuffled_refl m : reshuffled m m.
Proof. split; [done..|]. intros k. destruct (objs m !! k); constructor. apply same_but_lists_refl. Qed.

Lemma reshuffled_trans m1 m2 m3 : reshuffled m1 m2 -> reshuffled m2 m3 -> reshuffled m1 m3.
Proof.
  intros R1 R2. split.
  - by rewrite (rs_maps _ _ R2), (rs_maps _ _ R1).
  - by rewrite (rs_bytes _ _ R2), (rs_bytes _ _ R1).
  - intros k. pose proof (rs_objs _ _ R2 k) as F2. destruct (rs_objs _ _ R1 k) as [o1 o2 H1|]; inversion F2; constructor.
    by eapply same_but_lists_trans.
Qed.

Lemma reshuffled_lookup m m' k o :
  reshuffled m m' -> objs m !! k = Some o -> exists o', objs m' !! k = Some o' /\ same_but_lists o o'.
Proof. intros R Hk. pose proof (rs_objs _ _ R k) as F. rewrite Hk in F. inversion F; subst. by eexists. Qed.

Lemma reshuffled_lookup_inv m m' k o' :
  reshuffled m m' -> objs m' !! k = Some o' -> exists o, objs m !! k = Some o /\ same_but_lists o o'.
Proof. intros R Hk. pose proof (rs_objs _ _ R k) as F. rewrite Hk in F. inversion F; subst. by eexists. Qed.

Lemma reshuffled_slab m m' a h : reshuffled m m' -> objs m' !! a = Some (OSlab h) <-> objs m !! a = Some (OSlab h).
Proof.
  intros R. split; intros Ha.
  - destruct (reshuffled_lookup_inv _ _ _ _ R Ha) as (o & Ho & Hs). by inversion Hs; subst.
  - destruct (reshuffled_lookup _ _ _ _ R Ha) as (o & Ho & Hs). by inversion Hs; subst.
Qed.

Lemma reshuffled_free m m' c k :
  reshuffled m m' -> free_in_class (objs m') c k <-> free_in_class (objs m) c k.
Proof.
  intros R. split; intros (b & a & h & Hb & ? & ? & ? & Ha & ?).
  - destruct (reshuffled_lookup_inv _ _ _ _ R Hb) as (o & Ho & Hs). inversion Hs; subst.
    eexists _, a, h. split_and!; try done. by apply (reshuffled_slab _ _ _ _ R).
  - destruct (reshuffled_lookup _ _ _ _ R Hb) as (o & Ho & Hs). inversion Hs; subst.
    eexists _, a, h. split_and!; try done. by apply (reshuffled_slab _ _ _ _ R).
Qed.

Lemma reshuffled_descriptor m m' d :
  reshuffled m m' -> (exists dsc, objs m' !! d = Some (ODescriptor dsc)) <-> exists dsc, objs m !! d = Some (ODescriptor dsc).
Proof.
  intros R. split; intros [dsc Hd].
  - destruct (reshuffled_lookup_inv _ _ _ _ R Hd) as (o & Ho & Hs). inversion Hs; subst. by eexists.
  - destruct (reshuffled_lookup _ _ _ _ R Hd) as (o & Ho & Hs). inversion Hs; subst. by eexists.
Qed.

Lemma reshuffled_unchanged m m' : reshuffled m m' -> unchanged m m'.
Proof.
  intros R. assert (Hlive : live (objs m') = live (objs m)).
  { apply map_eq. intros k. apply option_eq. intros n. rewrite !lookup_live. split.
    - intros (b & Hb & ? & ?). destruct (reshuffled_lookup_inv _ _ _ _ R Hb) as (o & Ho & Hs).
      inversion Hs; subst. by eexists.
    - intros (b & Hb & ? & ?). destruct (reshuffled_lookup _ _ _ _ R Hb) as (o & Ho & Hs).
      inversion Hs; subst. by eexists. }
  split; [done|]. intros k n (b & Hb & Hr & Hn)%lookup_live _. split.
  - destruct (reshuffled_lookup _ _ _ _ R Hb) as (o & Ho & Hs). rewrite Ho, Hb. inversion Hs as [b0 q Hq| |]; subst.
    rewrite Hq by done. by destruct b.
  - intros i _. unfold byte_at. by rewrite (rs_bytes _ _ R).
Qed.

Lemma registry_reshuffled m m' head : reshuffled m m' -> registry_ok (objs m) head -> registry_ok (objs m') head.
Proof.
  intros R (sl & Hch & Hin). exists sl. split.
  - eapply chain_ext; [done|]. intros a [h Ha]%Hin. unfold slab_next_of, slab_at.
    by rewrite (proj2 (reshuffled_slab _ _ _ _ R) Ha), Ha.
  - intros a. rewrite Hin. by setoid_rewrite (reshuffled_slab _ _ _ _ R).
Qed.

Lemma reworked_refl S m : (forall k, k ∈ S -> exists b, objs m !! k = Some (OBlock b)) -> reworked S [] m m.
Proof.
  intros HS. split; try done; [|by intros k ?%not_elem_of_nil]. intros k Hk. destruct (HS _ Hk) as [b Hb].
  exists b, (next_free b). split; [done|]. rewrite Hb. by destruct b.
Qed.

Lemma reworked_relinked S m m' : relinked S m m' -> reworked S [] m m'.
Proof.
  intros R. split; [apply R..| | |].
  - intros k Hk _. by apply R.
  - apply R.
  - by intros k ?%not_elem_of_nil.
Qed.

Lemma reworked_block S D m m' k b :
  reworked S D m m' -> objs m !! k = Some (OBlock b) -> exists q, objs m' !! k = Some (OBlock (set_next_free q b)).
Proof.
  intros R Hk. destruct (decide (k ∈ S)) as [HS|HS].
  - destruct (wk_blocks _ _ _ _ R _ HS) as (b' & q & Hb' & Hq). exists q. congruence.
  - assert (HD : k ∉ D). { intros HD. destruct (wk_caches _ _ _ _ R _ HD) as (? & ? & ? & _). congruence. }
    exists (next_free b). rewrite (wk_out _ _ _ _ R _ HS HD), Hk. by destruct b.
Qed.

Lemma reworked_descriptor S D m m' k d :
  reworked S D m m' -> objs m !! k = Some (ODescriptor d) -> exists c, objs m' !! k = Some (ODescriptor (set_desc_cache c d)).
Proof.
  intros R Hk. destruct (decide (k ∈ D)) as [HD|HD].
  - destruct (wk_caches _ _ _ _ R _ HD) as (d' & c & Hd' & Hc). exists c. congruence.
  - assert (HS : k ∉ S). { intros HS. destruct (wk_blocks _ _ _ _ R _ HS) as (? & ? & ? & _). congruence. }
    exists (desc_cache d). rewrite (wk_out _ _ _ _ R _ HS HD), Hk. by destruct d.
Qed.

Lemma reworked_trans S1 S2 D1 D2 m1 m2 m3 :
  reworked S1 D1 m1 m2 -> reworked S2 D2 m2 m3 -> reworked (S1 ++ S2) (D1 ++ D2) m1 m3.
Proof.
  intros R1 R2. split.
  - by rewrite (wk_maps _ _ _ _ R2), (wk_maps _ _ _ _ R1).
  - by rewrite (wk_bytes _ _ _ _ R2), (wk_bytes _ _ _ _ R1).
  - intros k HS HD. rewrite (wk_out _ _ _ _ R2), (wk_out _ _ _ _ R1); set_solver.
  - intros k HS. assert (Hb : exists b, objs m1 !! k = Some (OBlock b)).
    { destruct (decide (k ∈ S1)) as [H1|H1].
      - destruct (wk_blocks _ _ _ _ R1 _ H1) as (b & _ & ? & _). by exists b.
      - assert (H2 : k ∈ S2) by set_solver. destruct (wk_blocks _ _ _ _ R2 _ H2) as (b & q & Hb & _).
        destruct (objs m1 !! k) as [[b1|h|d]|] eqn:E; [by exists b1| | |].
        + assert (HD : k ∉ D1). { intros HD. destruct (wk_caches _ _ _ _ R1 _ HD) as (? & ? & ? & _). congruence. }
          rewrite (wk_out _ _ _ _ R1 _ H1 HD) in Hb. congruence.
        + destruct (reworked_descriptor _ _ _ _ _ _ R1 E) as [c Hc]. congruence.
        + assert (HD : k ∉ D1). { intros HD. destruct (wk_caches _ _ _ _ R1 _ HD) as (? & ? & ? & _). congruence. }
          rewrite (wk_out _ _ _ _ R1 _ H1 HD) in Hb. congruence. }
    destruct Hb as [b Hb]. destruct (reworked_block _ _ _ _ _ _ R1 Hb) as [q1 Hq1].
    destruct (reworked_block _ _ _ _ _ _ R2 Hq1) as [q2 Hq2]. by exists b, q2.
  - intros k HD. assert (Hd : exists d, objs m1 !! k = Some (ODescriptor d)).
    { destruct (decide (k ∈ D1)) as [H1|H1].
      - destruct (wk_caches _ _ _ _ R1 _ H1) as (d & _ & ? & _). by exists d.
      - assert (H2 : k ∈ D2) by set_solver. destruct (wk_caches _ _ _ _ R2 _ H2) as (d & c & Hd & _).
        destruct (objs m1 !! k) as [[b1|h|d1]|] eqn:E; [| |by exists d1|].
        + destruct (reworked_block _ _ _ _ _ _ R1 E) as [q Hq]. congruence.
        + assert (HS : k ∉ S1). { intros HS. destruct (wk_blocks _ _ _ _ R1 _ HS) as (? & ? & ? & _). congruence. }
          rewrite (wk_out _ _ _ _ R1 _ HS H1) in Hd. congruence.
        + assert (HS : k ∉ S1). { intros HS. destruct (wk_blocks _ _ _ _ R1 _ HS) as (? & ? & ? & _). congruence. }
          rewrite (wk_out _ _ _ _ R1 _ HS H1) in Hd. congruence. }
    destruct Hd as [d Hd]. destruct (reworked_descriptor _ _ _ _ _ _ R1 Hd) as [c1 Hc1].
    destruct (reworked_descriptor _ _ _ _ _ _ R2 Hc1) as [c2 Hc2]. by exists d, c2.
Qed.

Lemma reworked_mono S S' D D' m m' :
  reworked S D m m' -> (forall k, k ∈ S -> k ∈ S') -> (forall k, k ∈ D -> k ∈ D') ->
  (forall k, k ∈ S' -> exists b, objs m !! k = Some (OBlock b)) ->
  (forall k, k ∈ D' -> exists d, objs m !! k = Some (ODescriptor d)) -> reworked S' D' m m'.
Proof.
  intros R HS HD HB HC. split; [apply R..| | |].
  - intros k Hk1 Hk2. apply (wk_out _ _ _ _ R); auto.
  - intros k Hk. destruct (HB _ Hk) as [b Hb]. destruct (reworked_block _ _ _ _ _ _ R Hb) as [q Hq]. by exists b, q.
  - intros k Hk. destruct (HC _ Hk) as [d Hd]. destruct (reworked_descriptor _ _ _ _ _ _ R Hd) as [c Hc]. by exists d, c.
Qed.

Lemma reworked_store_link m k b q :
  objs m !! k = Some (OBlock b) -> reworked [k] [] m (set_objs <[k := OBlock (set_next_free q b)]> m).
Proof.
  intros Hk. split; try done; cbn.
  - intros k' Hne _. rewrite lookup_insert_ne; [done|]. set_solver.
  - intros k' ->%list_elem_of_singleton. exists b, q. by rewrite lookup_insert_eq.
  - by intros k' ?%not_elem_of_nil.
Qed.

Lemma reworked_store_cache m d dsc c :
  objs m !! d = Some (ODescriptor dsc) -> reworked [] [d] m (set_objs <[d := ODescriptor (set_desc_cache c dsc)]> m).
Proof.
  intros Hd. split; try done; cbn.
  - intros k' _ Hne. rewrite lookup_insert_ne; [done|]. set_solver.
  - by intros k' ?%not_elem_of_nil.
  - intros k' ->%list_elem_of_singleton. exists dsc, c. by rewrite lookup_insert_eq.
Qed.

Lemma reshuffled_reworked S D m m' :
  reworked S D m m' -> (forall k b, k ∈ S -> objs m !! k = Some (OBlock b) -> requested_size b = 0) -> reshuffled m m'.
Proof.
  intros R Hz. split; [apply R..|]. intros k. destruct (decide (k ∈ S)) as [HS|HS]; [|destruct (decide (k ∈ D)) as [HD|HD]].
  - destruct (wk_blocks _ _ _ _ R _ HS) as (b & q & Hb & ->). rewrite Hb. constructor. constructor.
    intros Hne. by rewrite (Hz _ _ HS Hb) in Hne.
  - destruct (wk_caches _ _ _ _ R _ HD) as (d & c & Hd & ->). rewrite Hd. constructor. constructor.
  - rewrite (wk_out _ _ _ _ R _ HS HD). destruct (objs m !! k); constructor. apply same_but_lists_refl.
Qed.
End rework.

Section rework_arena.
Context `{Platform, !PlatformLaws}.

Lemma reshuffled_arena_wf m m' : arena_wf m -> reshuffled m m' -> arena_wf m'.
Proof.
  intros Hwf R. pose proof (rs_maps _ _ R) as Hmaps. split; rewrite ?Hmaps; [|apply Hwf..].
  intros k o' Hk. destruct (reshuffled_lookup_inv _ _ _ _ R Hk) as (o & Ho & Hs).
  pose proof (aw_objs _ Hwf _ _ Ho) as Hok.
  assert (Hok' : object_ok m k o').
  { destruct Hs as [b q _|h|d c]; simpl in *; [|done|done].
    destruct Hok as [(a & h & i & [])|[]]; [left; exists a, h, i|right]; by split. }
  eapply object_ok_mono; [done|by rewrite Hmaps| |].
  - intros h Hsl. exists (slab_next h). rewrite (proj2 (reshuffled_slab _ _ _ _ R) Hsl). by destruct h.
  - intros h i b _ _ Hb. destruct (reshuffled_lookup _ _ _ _ R Hb) as (o2 & Ho2 & Hs2). inversion Hs2; subst. by eexists.
Qed.

(** A list of distinct objects is shorter than the address space. *)
Lemma objects_length m l :
  arena_wf m -> NoDup l -> (forall k, k ∈ l -> is_Some (objs m !! k)) -> Z.of_nat (length l) <= SIZE_MAX.
Proof.
  intros Hwf Hnd Hin. assert (Hsub : l ⊆+ seqZ 0 ADDRESS_LIMIT).
  { apply NoDup_submseteq; [done|]. intros k Hk. destruct (Hin _ Hk) as [o Ho]. apply elem_of_seqZ.
    destruct (object_home _ _ _ Hwf Ho) as (len & Hm & ? & ?). pose proof (object_address_pos _ _ _ Hwf Ho).
    pose proof (extent_pos _ _ _ Hwf Ho). pose proof (sizeof_pos o).
    destruct (aw_maps _ Hwf _ _ Hm) as (_ & _ & _ & Hlim). unfold ADDRESS_LIMIT in *. lia. }
  apply submseteq_length in Hsub. rewrite length_seqZ in Hsub.
  unfold ADDRESS_LIMIT, SIZE_MAX, WORD in *. lia.
Qed.
End rework_arena.

(** ** Cache contents *)

Section contents.
Implicit Types (K : cache_contents) (os : gmap Z object).

Lemma kupd_eq K i l : kupd K i l i = l.
Proof. unfold kupd. by rewrite decide_True. Qed.

Lemma kupd_ne K i j l : j <> i -> kupd K i l j = K j.
Proof. intros. unfold kupd. by rewrite decide_False. Qed.

Lemma cached_bytes_ext K K' : (forall i, 0 <= i < HPLF_SIZE_CLASS_COUNT -> length (K' i) = length (K i)) ->
  cached_bytes K' = cached_bytes K.
Proof. intros HK. unfold cached_bytes, class_table. cbn -[Z.mul Z.add Z.of_nat length].
  rewrite !HK by (unfold HPLF_SIZE_CLASS_COUNT; lia). done. Qed.

Lemma cached_bytes_kupd i cap : is_class i cap -> forall K l,
  cached_bytes (kupd K i l) = cached_bytes K + (Z.of_nat (length l) - Z.of_nat (length (K i))) * cap.
Proof.
  revert i cap. apply (is_class_ind (fun i cap => forall K l, cached_bytes (kupd K i l) =
    cached_bytes K + (Z.of_nat (length l) - Z.of_nat (length (K i))) * cap)).
  change (zip (seqZ 0 16) size_class_capacities) with class_table.
  unfold cached_bytes, kupd, class_table.
  repeat (constructor; [intros K l; cbn -[Z.mul Z.add Z.of_nat length];
    repeat (case_decide; try (exfalso; lia)); lia|]). constructor.
Qed.

Lemma cached_bytes_nonneg K : 0 <= cached_bytes K.
Proof. unfold cached_bytes, class_table. cbn -[Z.mul Z.add Z.of_nat length]. lia. Qed.

Lemma cache_ok_frame os os' c K :
  cache_ok os c K -> (forall i b, 0 <= i < HPLF_SIZE_CLASS_COUNT -> b ∈ K i -> os' !! b = os !! b) -> cache_ok os' c K.
Proof.
  intros C Hf. split; [apply C|apply C| |apply C|apply C|apply C].
  intros i head Hi. eapply chain_ext; [by eapply co_list|]. intros b Hb. unfold block_next, block_at.
  rewrite (Hf i) by (done || by eapply array_get_range, Hi; eapply co_heads). done.
Qed.

Lemma cache_at_frame os os' d K :
  cache_at os d K -> os' !! d = os !! d ->
  (forall i b, 0 <= i < HPLF_SIZE_CLASS_COUNT -> b ∈ K i -> os' !! b = os !! b) -> cache_at os' d K.
Proof. intros (dsc & Hd & C) E Hf. exists dsc. split; [congruence|]. by eapply cache_ok_frame. Qed.

(** The blocks of a cache are objects. *)
Lemma cache_at_block os d K i b :
  cache_at os d K -> 0 <= i < HPLF_SIZE_CLASS_COUNT -> b ∈ K i -> b <> NULL /\ exists blk, os !! b = Some (OBlock blk).
Proof.
  intros (dsc & Hd & C) Hi Hb. destruct (array_get_class _ _ (co_heads _ _ _ C) Hi) as [head Hh].
  destruct (chain_elem_next _ _ _ _ (co_list _ _ _ C _ _ Hh) Hb) as [? [q (blk & ? & _)%block_next_Some]].
  split; [done|]. by exists blk.
Qed.
End contents.
