(* ===== verification/ThreadCacheSpec.v ===== *)
(** * Specifications of the thread-cache operations

    Each operation of src/thread_cache.c as a move of blocks between the cache's
    lists and a private list, with the counters exact. *)

From S2P Require Import Prelude CheckedMath SizeClass Memory Layout Chain OsMemory Slab Arena SlabSpec.
From S2P Require Import LockedAllocator FreeLists LockedSpec TrimLists Trim TransferList ThreadCache HeapSpec Pool.

(** ** Fields *)

Section fields.
Implicit Types (m : memory) (K : cache_contents).

Definition with_cache (d : Z) (dsc : hplf_cache_descriptor) (c : hplf_thread_cache) (m : memory) : memory :=
  set_objs <[d := ODescriptor (set_desc_cache c dsc)]> m.

Lemma with_cache_twice d dsc c1 c2 m : with_cache d dsc c2 (with_cache d dsc c1 m) = with_cache d dsc c2 m.
Proof. unfold with_cache, set_objs. simpl. by rewrite insert_insert_eq. Qed.

Lemma with_cache_lookup d dsc c m : objs (with_cache d dsc c m) !! d = Some (ODescriptor (set_desc_cache c dsc)).
Proof. apply lookup_insert_eq. Qed.

Lemma wp_load_cache d dsc (Q : hplf_thread_cache -> memory -> Prop) m :
  objs m !! d = Some (ODescriptor dsc) -> Q (desc_cache dsc) m -> wp (load_cache d) Q m.
Proof. intros Hd HQ. unfold load_cache. wp_step. eapply wp_load_descriptor; [by apply descriptor_at_Some|]. by wp_steps. Qed.

Lemma wp_modify_cache d dsc f (Q : unit -> memory -> Prop) m :
  objs m !! d = Some (ODescriptor dsc) -> Q tt (with_cache d dsc (f (desc_cache dsc)) m) -> wp (modify_cache d f) Q m.
Proof. intros Hd HQ. unfold modify_cache. eapply wp_store_descriptor; [by apply descriptor_at_Some|]. done. Qed.

Lemma wp_cache_head d dsc i head (Q : Z -> memory -> Prop) m :
  objs m !! d = Some (ODescriptor dsc) -> array_get (cache_heads (desc_cache dsc)) i = Some head ->
  Q head m -> wp (cache_head d i) Q m.
Proof. intros Hd Hi HQ. unfold cache_head. wp_step. eapply wp_load_cache; [done|]. by eapply wp_known. Qed.

Lemma wp_cache_count d dsc i n (Q : Z -> memory -> Prop) m :
  objs m !! d = Some (ODescriptor dsc) -> array_get (cache_counts (desc_cache dsc)) i = Some n ->
  Q n m -> wp (cache_count d i) Q m.
Proof. intros Hd Hi HQ. unfold cache_count. wp_step. eapply wp_load_cache; [done|]. by eapply wp_known. Qed.

Lemma wp_cache_total d dsc (Q : Z -> memory -> Prop) m :
  objs m !! d = Some (ODescriptor dsc) -> Q (total_slot_bytes (desc_cache dsc)) m -> wp (cache_total d) Q m.
Proof. intros Hd HQ. unfold cache_total. wp_step. eapply wp_load_cache; [done|]. by wp_steps. Qed.

Lemma wp_adjust_cache d dsc i n dn db (Q : unit -> memory -> Prop) m :
  objs m !! d = Some (ODescriptor dsc) -> array_get (cache_counts (desc_cache dsc)) i = Some n ->
  Q tt (with_cache d dsc (ThreadCache (cache_heads (desc_cache dsc))
          (<[Z.to_nat i := wadd n dn]> (cache_counts (desc_cache dsc)))
          (wadd (total_slot_bytes (desc_cache dsc)) db)) m) ->
  wp (adjust_cache d i dn db) Q m.
Proof.
  intros Hd Hi HQ. unfold adjust_cache. wp_step. eapply wp_cache_count; [done|done|]. wp_step.
  eapply wp_modify_cache; [done|]. wp_step. eapply wp_cache_total; [apply with_cache_lookup|].
  wp_steps. eapply wp_modify_cache; [apply with_cache_lookup|].
  change (set_desc_cache ?c (set_desc_cache _ ?x)) with (set_desc_cache c x).
  match goal with |- Q tt (with_cache d ?x ?c (with_cache d dsc ?c0 m)) =>
    change (with_cache d x c (with_cache d dsc c0 m)) with (with_cache d dsc c (with_cache d dsc c0 m)) end.
  by rewrite with_cache_twice.
Qed.

Lemma wp_retire_cache d dsc i n dn db (Q : unit -> memory -> Prop) m :
  objs m !! d = Some (ODescriptor dsc) -> array_get (cache_counts (desc_cache dsc)) i = Some n ->
  Q tt (with_cache d dsc (ThreadCache (cache_heads (desc_cache dsc))
          (<[Z.to_nat i := wsub n dn]> (cache_counts (desc_cache dsc)))
          (wsub (total_slot_bytes (desc_cache dsc)) db)) m) ->
  wp (retire_cache d i dn db) Q m.
Proof.
  intros Hd Hi HQ. unfold retire_cache. wp_step. eapply wp_cache_count; [done|done|]. wp_step.
  eapply wp_modify_cache; [done|]. wp_step. eapply wp_cache_total; [apply with_cache_lookup|].
  wp_steps. eapply wp_modify_cache; [apply with_cache_lookup|].
  match goal with |- Q tt (with_cache d ?x ?c (with_cache d dsc ?c0 m)) =>
    change (with_cache d x c (with_cache d dsc c0 m)) with (with_cache d dsc c (with_cache d dsc c0 m)) end.
  by rewrite with_cache_twice.
Qed.

(** Replacing the list of one class, with its counters. *)
Lemma cache_ok_update os os' c K i cap head l n total :
  cache_ok os c K -> is_class i cap ->
  chain (block_next os') head l -> n = Z.of_nat (length l) mod WORD ->
  total = cached_bytes (kupd K i l) mod WORD ->
  (forall j b, 0 <= j < HPLF_SIZE_CLASS_COUNT -> j <> i -> b ∈ K j -> os' !! b = os !! b /\ b ∉ l) ->
  cache_ok os' (ThreadCache (<[Z.to_nat i := head]> (cache_heads c)) (<[Z.to_nat i := n]> (cache_counts c)) total)
    (kupd K i l).
Proof.
  intros C Hc Hch Hn Ht Hf. pose proof (is_class_index _ _ Hc) as Hi.
  pose proof (co_heads _ _ _ C) as Hh. pose proof (co_counts _ _ _ C) as Hcn. split; simpl.
  - by rewrite length_insert.
  - by rewrite length_insert.
  - intros j head'. rewrite array_get_insert by lia. case_decide as E; [intros [= <-]; subst; by rewrite kupd_eq|].
    intros Hj. rewrite kupd_ne by done. eapply chain_ext; [by eapply co_list|]. intros b Hb.
    unfold block_next, block_at. pose proof (array_get_range _ _ _ Hh Hj).
    by rewrite (proj1 (Hf j b ltac:(done) ltac:(congruence) Hb)).
  - intros j n'. rewrite array_get_insert by lia. case_decide as E; [intros [= <-]; subst j; by rewrite kupd_eq|].
    intros Hj. rewrite kupd_ne by done. by eapply co_count.
  - done.
  - intros j1 j2 b Hj1 Hj2 Hb1 Hb2. destruct (Z.eq_dec j1 i) as [->|N1], (Z.eq_dec j2 i) as [->|N2]; try done.
    + rewrite kupd_eq in Hb1. rewrite kupd_ne in Hb2 by done. by destruct (Hf j2 b Hj2 N2 Hb2).
    + rewrite kupd_eq in Hb2. rewrite kupd_ne in Hb1 by done. by destruct (Hf j1 b Hj1 N1 Hb1).
    + rewrite !kupd_ne in * by done. by eapply co_disjoint.
Qed.

(** Head and count of a class that the cache holds. *)
Lemma cache_class os c K i :
  cache_ok os c K -> 0 <= i < HPLF_SIZE_CLASS_COUNT ->
  exists head, array_get (cache_heads c) i = Some head /\
    array_get (cache_counts c) i = Some (Z.of_nat (length (K i)) mod WORD) /\ chain (block_next os) head (K i).
Proof.
  intros C Hi. destruct (array_get_class _ _ (co_heads _ _ _ C) Hi) as [head Hh].
  destruct (array_get_class _ _ (co_counts _ _ _ C) Hi) as [n Hn]. exists head.
  pose proof (co_count _ _ _ C _ _ Hn). subst n. split_and!; [done..|]. by eapply co_list.
Qed.

Lemma wadd_mod x y : wadd (x mod WORD) y = (x + y) mod WORD.
Proof. unfold wadd. by rewrite Zplus_mod_idemp_l. Qed.

Lemma wadd_mod_r x y : wadd (x mod WORD) (y mod WORD) = (x + y) mod WORD.
Proof. unfold wadd. by rewrite <- Zplus_mod. Qed.

Lemma wsub_mod x y : wsub (x mod WORD) y = (x - y) mod WORD.
Proof. unfold wsub. by rewrite Zminus_mod_idemp_l. Qed.

Lemma wsub_mod_r x y : wsub (x mod WORD) (y mod WORD) = (x - y) mod WORD.
Proof. unfold wsub. by rewrite <- Zminus_mod. Qed.
End fields.

(** ** Operations *)

Section operations.
Implicit Types (m : memory) (K : cache_contents).

(** Replacing a link and the cache of the same memory. *)
Lemma reworked_link_cache m d dsc c k b q m' :
  objs m !! d = Some (ODescriptor dsc) -> objs m !! k = Some (OBlock b) ->
  maps m' = maps m -> bytes m' = bytes m ->
  objs m' = <[d := ODescriptor (set_desc_cache c dsc)]> (<[k := OBlock (set_next_free q b)]> (objs m)) ->
  reworked [k] [d] m m'.
Proof.
  intros Hd Hk Hmaps Hbytes Ho. assert (Hne : d <> k) by congruence. split; [done|done|..]; rewrite Ho.
  - intros x Hx1 Hx2. rewrite !lookup_insert_ne by set_solver. done.
  - intros x ->%list_elem_of_singleton. exists b, q. rewrite lookup_insert_ne by done. by rewrite lookup_insert_eq.
  - intros x ->%list_elem_of_singleton. exists dsc, c. by rewrite lookup_insert_eq.
Qed.

Lemma wp_cache_take d K i cap b l m :
  cache_at (objs m) d K -> is_class i cap -> K i = b :: l ->
  wp (hplf_thread_cache_take d i cap) (fun r m' => r = b /\ reworked [b] [d] m m' /\
    cache_at (objs m') d (kupd K i l) /\ block_next (objs m') b = Some NULL) m.
Proof.
  intros Hca Hcl HKi. pose proof Hca as (dsc & Hd & C). pose proof (is_class_index _ _ Hcl) as Hi.
  destruct (cache_class _ _ _ _ C Hi) as (head & Hh & Hn & Hch). rewrite HKi in Hch, Hn.
  destruct (cache_at_block _ _ _ i b Hca Hi) as [Hb0 (blk & Hb)]; [rewrite HKi; left|].
  pose proof Hch as (-> & _ & q & Hq & Hch'). apply block_next_Some in Hq as (blk' & Hblk' & <-).
  assert (blk' = blk) as -> by congruence. clear Hblk'.
  pose proof (chain_NoDup _ _ _ Hch) as [Hbl _]%NoDup_cons.
  assert (Hne : d <> b) by congruence.
  unfold hplf_thread_cache_take. destruct (Z.leb_spec HPLF_SIZE_CLASS_COUNT i); [lia|].
  wp_step. eapply wp_cache_head; [done|done|]. destruct (Z.eqb_spec b NULL); [done|].
  wp_step. eapply wp_load_block; [by apply block_at_Some|]. wp_step. eapply wp_modify_cache; [done|].
  wp_step. eapply (wp_store_block _ blk); [apply block_at_Some; cbn; by rewrite lookup_insert_ne|].
  wp_step. eapply wp_retire_cache; [cbn; rewrite lookup_insert_ne by done; apply lookup_insert_eq|exact Hn|].
  wp_steps. split; [done|].
  assert (Hobj : forall c1 c2, objs (with_cache d (set_desc_cache c1 dsc) c2 (set_objs <[b:=OBlock (set_next_free NULL blk)]>
      (with_cache d dsc c1 m))) =
      <[d := ODescriptor (set_desc_cache c2 dsc)]> (<[b := OBlock (set_next_free NULL blk)]> (objs m))).
  { intros c1 c2. cbn. rewrite (insert_insert_ne _ b d) by done. by rewrite insert_insert_eq. }
  split; [by eapply reworked_link_cache; [exact Hd|exact Hb|done|done|apply Hobj]|].
  rewrite Hobj. split.
  - eexists. split; [apply lookup_insert_eq|]. cbn [desc_cache set_desc_cache cache_heads cache_counts set_cache_head total_slot_bytes].
    assert (Hframe : forall k, k <> d -> k <> b ->
      <[d := ODescriptor (set_desc_cache (ThreadCache (cache_heads (desc_cache dsc)) (cache_counts (desc_cache dsc)) 0) dsc)]>
        (<[b := OBlock (set_next_free NULL blk)]> (objs m)) !! k = objs m !! k).
    { intros k H1 H2. by rewrite !lookup_insert_ne. }
    eapply cache_ok_update; [exact C|exact Hcl| | | |].
    + eapply chain_ext; [done|]. intros k Hk. unfold block_next, block_at.
      destruct (cache_at_block _ _ _ i k Hca Hi) as [_ (bk & Hbk)]; [rewrite HKi; by right|].
      rewrite !lookup_insert_ne by congruence. done.
    + cbn [length]. rewrite wsub_mod. f_equal. lia.
    + rewrite (cached_bytes_kupd _ _ Hcl), (co_total _ _ _ C), wsub_mod, HKi. cbn [length]. f_equal. lia.
    + intros j k Hj Hji Hk. destruct (cache_at_block _ _ _ j k Hca Hj Hk) as [_ (bk & Hbk)].
      assert (Hkb : k <> b).
      { intros ->. apply Hji. eapply (co_disjoint _ _ _ C); [done|done|done|rewrite HKi; left]. }
      split; [rewrite !lookup_insert_ne by congruence; done|].
      intros Hkl. apply Hji. eapply (co_disjoint _ _ _ C); [done|done|done|rewrite HKi; by right].
  - apply block_next_Some. eexists. rewrite lookup_insert_ne by done. by rewrite lookup_insert_eq.
Qed.

Lemma wp_cache_take_empty d K i cap m :
  cache_at (objs m) d K -> is_class i cap -> K i = [] ->
  wp (hplf_thread_cache_take d i cap) (fun r m' => r = NULL /\ m' = m) m.
Proof.
  intros (dsc & Hd & C) Hcl HKi. pose proof (is_class_index _ _ Hcl) as Hi.
  destruct (cache_class _ _ _ _ C Hi) as (head & Hh & Hn & Hch). rewrite HKi in Hch.
  simpl in Hch. subst head. unfold hplf_thread_cache_take. destruct (Z.leb_spec HPLF_SIZE_CLASS_COUNT i); [lia|].
  wp_step. eapply wp_cache_head; [done|done|]. by wp_steps.
Qed.

Lemma wp_cache_store d K i cap b blk m :
  cache_at (objs m) d K -> is_class i cap -> objs m !! b = Some (OBlock blk) -> b <> NULL ->
  (forall j, 0 <= j < HPLF_SIZE_CLASS_COUNT -> b ∉ K j) ->
  wp (hplf_thread_cache_store d i cap b) (fun _ m' => reworked [b] [d] m m' /\
    cache_at (objs m') d (kupd K i (b :: K i))) m.
Proof.
  intros Hca Hcl Hb Hnull Hout. pose proof Hca as (dsc & Hd & C). pose proof (is_class_index _ _ Hcl) as Hi.
  destruct (cache_class _ _ _ _ C Hi) as (head & Hh & Hn & Hch). assert (Hne : d <> b) by congruence.
  unfold hplf_thread_cache_store. wp_step. eapply wp_cache_head; [done|done|]. wp_step.
  eapply wp_store_block; [by apply block_at_Some|]. wp_step.
  eapply (wp_modify_cache _ dsc); [cbn; by rewrite lookup_insert_ne|].
  eapply wp_adjust_cache; [apply with_cache_lookup|exact Hn|].
  match goal with |- context [with_cache d (set_desc_cache ?c1 dsc) ?c2 _] =>
    assert (Hobj : objs (with_cache d (set_desc_cache c1 dsc) c2 (with_cache d dsc c1
      (set_objs <[b:=OBlock (set_next_free head blk)]> m))) =
      <[d := ODescriptor (set_desc_cache c2 dsc)]> (<[b := OBlock (set_next_free head blk)]> (objs m)))
      by (cbn; by rewrite insert_insert_eq) end.
  split; [by eapply reworked_link_cache; [exact Hd|exact Hb|done|done|apply Hobj]|].
  rewrite Hobj. eexists. split; [apply lookup_insert_eq|].
  cbn [desc_cache set_desc_cache cache_heads cache_counts set_cache_head total_slot_bytes].
  eapply cache_ok_update; [exact C|exact Hcl| | | |].
  - simpl. split; [done|]. split; [done|]. exists head. split.
    + apply block_next_Some. eexists. rewrite lookup_insert_ne by done. by rewrite lookup_insert_eq.
    + eapply chain_ext; [done|]. intros k Hk. unfold block_next, block_at.
      destruct (cache_at_block _ _ _ i k Hca Hi Hk) as [_ (bk & Hbk)].
      assert (k <> b) by (intros ->; by apply (Hout i Hi)). rewrite !lookup_insert_ne by congruence. done.
  - cbn [length]. rewrite wadd_mod. f_equal. lia.
  - rewrite (cached_bytes_kupd _ _ Hcl), (co_total _ _ _ C), wadd_mod. cbn [length]. f_equal. lia.
  - intros j k Hj Hji Hk. destruct (cache_at_block _ _ _ j k Hca Hj Hk) as [_ (bk & Hbk)].
    assert (k <> b) by (intros ->; by apply (Hout j Hj)).
    split; [rewrite !lookup_insert_ne by congruence; done|]. intros [->|Hkl]%elem_of_cons; [done|].
    apply Hji. by eapply (co_disjoint _ _ _ C).
Qed.

Lemma cache_at_ext os d K K' : cache_at os d K -> (forall i, K' i = K i) -> cache_at os d K'.
Proof.
  intros (dsc & Hd & C) HK. exists dsc. split; [done|]. split; try apply C.
  - intros i head Hi. rewrite HK. by eapply co_list.
  - intros i n Hn. rewrite HK. by eapply co_count.
  - rewrite (co_total _ _ _ C). f_equal. apply cached_bytes_ext. intros i _. by rewrite HK.
  - intros i j b Hi Hj. rewrite !HK. by eapply co_disjoint.
Qed.

Lemma reworked_then_cache S m m1 d dsc c :
  reworked S [] m m1 -> objs m1 !! d = Some (ODescriptor dsc) -> reworked S [d] m (with_cache d dsc c m1).
Proof.
  intros R Hd. pose proof (reworked_trans _ _ _ _ _ _ _ R (reworked_store_cache _ _ _ c Hd)) as R2.
  by rewrite app_nil_r in R2.
Qed.

Lemma describes_block os t l b : describes os t l -> b ∈ l -> b <> NULL /\ exists blk, os !! b = Some (OBlock blk).
Proof.
  intros [[Hc _] _] Hb. destruct (chain_elem_next _ _ _ _ Hc Hb) as [? [q (blk & ? & _)%block_next_Some]].
  split; [done|]. by exists blk.
Qed.

Lemma describes_blocks os t l : describes os t l -> forall k, k ∈ l -> exists b, os !! k = Some (OBlock b).
Proof. intros D k Hk. by destruct (describes_block _ _ _ _ D Hk). Qed.

Lemma wp_cache_restore d K i cap t l m :
  cache_at (objs m) d K -> is_class i cap -> describes (objs m) t l ->
  (forall j b, 0 <= j < HPLF_SIZE_CLASS_COUNT -> b ∈ l -> b ∉ K j) ->
  wp (hplf_thread_cache_restore d i cap t) (fun _ m' => reworked l [d] m m' /\
    cache_at (objs m') d (kupd K i (l ++ K i))) m.
Proof.
  intros Hca Hcl Hdes Hout. pose proof Hca as (dsc & Hd & C). pose proof (is_class_index _ _ Hcl) as Hi.
  unfold hplf_thread_cache_restore. pose proof (describes_nil_iff _ _ _ (de_prefix _ _ _ Hdes)) as Hnil.
  destruct (Z.eqb_spec (tl_first t) NULL) as [E|E].
  { apply Hnil in E as ->. wp_steps. split.
    - eapply reworked_mono; [apply (reworked_refl []); by intros k ?%not_elem_of_nil|done|by intros k ?%not_elem_of_nil| |].
      + by intros k ?%not_elem_of_nil.
      + intros k ->%list_elem_of_singleton. by exists dsc.
    - eapply cache_at_ext; [done|]. intros j. unfold kupd. by case_decide; subst. }
  destruct (describes_last _ _ _ Hdes) as [l0 Hl0]; [by intros ?%Hnil|].
  destruct (cache_class _ _ _ _ C Hi) as (head & Hh & Hn & Hch).
  pose proof (de_prefix _ _ _ Hdes) as [Hchl Hcount]. set (x := tl_last t) in *.
  assert (Hxl : x ∈ l) by (rewrite Hl0; set_solver).
  destruct (describes_block _ _ _ _ Hdes Hxl) as [Hx0 [bx Hbx]]. assert (Hne : d <> x) by congruence.
  wp_step. eapply wp_cache_head; [done|done|]. wp_step.
  eapply wp_store_block; [by apply block_at_Some|]. wp_step.
  eapply (wp_modify_cache _ dsc); [cbn; by rewrite lookup_insert_ne|]. wp_step.
  eapply wp_adjust_cache; [apply with_cache_lookup|exact Hn|]. wp_steps.
  match goal with |- context [with_cache d (set_desc_cache ?c1 dsc) ?c2 _] =>
    assert (Hobj : objs (with_cache d (set_desc_cache c1 dsc) c2 (with_cache d dsc c1
      (set_objs <[x:=OBlock (set_next_free head bx)]> m))) =
      <[d := ODescriptor (set_desc_cache c2 dsc)]> (<[x := OBlock (set_next_free head bx)]> (objs m)))
      by (cbn; by rewrite insert_insert_eq) end.
  split.
  { eapply reworked_mono; [by eapply reworked_link_cache; [exact Hd|exact Hbx|done|done|apply Hobj]| |done| |].
    - by intros k ->%list_elem_of_singleton.
    - by apply describes_blocks with (t := t).
    - intros k ->%list_elem_of_singleton. by exists dsc. }
  rewrite Hobj. eexists. split; [apply lookup_insert_eq|].
  cbn [desc_cache set_desc_cache cache_heads cache_counts set_cache_head total_slot_bytes].
  pose proof (chain_NoDup _ _ _ Hchl) as Hnd. rewrite Hl0 in Hnd. apply NoDup_app in Hnd as (_ & Hnd & _).
  assert (Hframe : forall o k b, objs m !! k = Some (OBlock b) -> k <> x ->
    <[d:=ODescriptor o]> (<[x:=OBlock (set_next_free head bx)]> (objs m)) !! k = objs m !! k).
  { intros o k b Hk Hkx. rewrite !lookup_insert_ne by congruence. done. }
  eapply cache_ok_update; [exact C|exact Hcl| | | |].
  - rewrite Hl0 in Hchl. destruct (chain_snoc_inv _ _ _ _ Hchl) as (Hseg & _ & _).
    rewrite Hl0, <- app_assoc. simpl. eapply chain_snoc_intro; [|done| |].
    + eapply seg_ext; [exact Hseg|]. intros k Hk. unfold block_next, block_at.
      destruct (describes_block _ _ _ k Hdes) as [_ [b Hb]]; [rewrite Hl0; set_solver|].
      rewrite (Hframe _ _ _ Hb); [done|]. intros ->. apply (Hnd _ Hk). left.
    + apply block_next_Some. eexists. rewrite lookup_insert_ne by done. rewrite lookup_insert_eq. split; [done|]. reflexivity.
    + eapply chain_ext; [done|]. intros k Hk. unfold block_next, block_at.
      destruct (cache_at_block _ _ _ i k Hca Hi Hk) as [_ (bk & Hbk)].
      rewrite (Hframe _ _ _ Hbk); [done|]. intros ->. by apply (Hout i x Hi Hxl).
  - rewrite Hcount, wadd_mod, length_app. f_equal. lia.
  - rewrite (cached_bytes_kupd _ _ Hcl), (co_total _ _ _ C), Hcount, length_app. unfold wmul.
    rewrite wadd_mod_r. f_equal. lia.
  - intros j k Hj Hji Hk. destruct (cache_at_block _ _ _ j k Hca Hj Hk) as [_ (bk & Hbk)].
    split; [rewrite (Hframe _ _ _ Hbk); [done|]; intros ->; by apply (Hout j x Hj Hxl)|].
    intros [Hkl|Hkl]%elem_of_app; [by apply (Hout j k Hj Hkl)|]. apply Hji. by eapply (co_disjoint _ _ _ C).
Qed.

(** Extraction of a prefix of one class. *)
Definition extracted (d : Z) K (i maximum : Z) m (r : bool * hplf_transfer_list) m' : Prop :=
  (r = (false, hplf_transfer_list_clear) /\ m' = m /\ (K i = [] \/ maximum = 0)) \/
  (exists l1 l2, r.1 = true /\ K i = l1 ++ l2 /\ l1 <> [] /\
     Z.of_nat (length l1) = Z.min (Z.of_nat (length (K i))) maximum /\
     describes (objs m') r.2 l1 /\ reworked l1 [d] m m' /\ cache_at (objs m') d (kupd K i l2)).

Lemma wp_cache_extract d K i cap maximum m :
  cache_at (objs m) d K -> is_class i cap -> 0 <= maximum -> Z.of_nat (length (K i)) <= SIZE_MAX ->
  wp (hplf_thread_cache_extract_class d i maximum) (extracted d K i maximum m) m.
Proof.
  intros Hca Hcl Hmax Hlen. pose proof Hca as (dsc & Hd & C). pose proof (is_class_index _ _ Hcl) as Hi.
  destruct (cache_class _ _ _ _ C Hi) as (head & Hh & Hn & Hch).
  rewrite Z.mod_small in Hn by (unfold SIZE_MAX in Hlen; lia).
  unfold hplf_thread_cache_extract_class. rewrite (via_size_class_capacity _ _ Hcl).
  destruct (Z.eqb_spec maximum 0); [wp_steps; left; by split_and!; [done|done|right]|].
  wp_step. eapply wp_cache_head; [done|done|]. destruct (Z.eqb_spec head NULL) as [->|Hh0].
  { apply chain_NULL in Hch. wp_steps. left. by split_and!; [done|done|left]. }
  wp_step. eapply wp_cache_count; [done|exact Hn|]. wp_step.
  eapply wp_mono; [apply (wp_take_prefix m _ (K i)); [by split|done|done]|].
  intros [available output] m1 (l1 & l2 & T). cbn [fst snd] in T.
  pose proof (tp_relinked _ _ _ _ _ _ _ _ _ T) as R. pose proof (tp_split _ _ _ _ _ _ _ _ _ T) as Hsp.
  pose proof (tp_out _ _ _ _ _ _ _ _ _ T) as Hout. pose proof (tp_rest _ _ _ _ _ _ _ _ _ T) as [Hrest _].
  pose proof (tp_length _ _ _ _ _ _ _ _ _ T) as Hl1.
  assert (Hd1 : objs m1 !! d = Some (ODescriptor dsc)).
  { rewrite (rl_out _ _ _ R); [done|]. intros Hin.
    destruct (cache_at_block _ _ _ i d Hca Hi) as [_ (b & Hb)]; [rewrite Hsp; set_solver|]. congruence. }
  wp_step. eapply wp_modify_cache; [done|]. wp_step.
  eapply wp_retire_cache; [apply with_cache_lookup|exact Hn|]. wp_steps. right.
  exists l1, l2. cbn [fst snd].
  match goal with |- context [with_cache d (set_desc_cache ?c1 dsc) ?c2 _] =>
    change (with_cache d (set_desc_cache c1 dsc) c2 (with_cache d dsc c1 m1))
      with (with_cache d dsc c2 (with_cache d dsc c1 m1)); rewrite with_cache_twice end.
  assert (Hblk : forall k, k ∈ l1 ++ l2 -> exists b, objs m1 !! k = Some (OBlock b)).
  { intros k Hk. destruct (cache_at_block _ _ _ i k Hca Hi) as [_ (b & Hb)]; [by rewrite Hsp|].
    destruct (relinked_block _ _ _ _ _ R Hb) as [q Hq]. by eexists. }
  assert (Hframe : forall o k, k ∈ l1 ++ l2 -> <[d:=ODescriptor o]> (objs m1) !! k = objs m1 !! k).
  { intros o k Hk. destruct (Hblk _ Hk). rewrite lookup_insert_ne by congruence. done. }
  split_and!; [done|done| |done| | |].
  - intros ->. destruct (K i) as [|x Ki] eqn:EK; [simpl in Hch; congruence|]. simpl in Hl1. lia.
  - eapply describes_chain_eq; [|exact Hout]. intros k Hk. cbn. apply Hframe. set_solver.
  - apply reworked_then_cache; [by apply reworked_relinked|done].
  - eexists. split; [apply with_cache_lookup|].
    cbn [desc_cache set_desc_cache cache_heads cache_counts set_cache_head total_slot_bytes].
    destruct Hout as [[_ Hoc] _].
    eapply cache_ok_update; [exact C|exact Hcl| | | |].
    + eapply chain_ext; [exact Hrest|]. intros k Hk. unfold block_next, block_at. cbn. rewrite Hframe; [done|set_solver].
    + rewrite Hoc, Hsp, length_app. unfold wsub. f_equal. lia.
    + rewrite (cached_bytes_kupd _ _ Hcl), (co_total _ _ _ C), Hoc, Hsp, length_app. unfold wmul.
      rewrite wsub_mod_r. f_equal. lia.
    + intros j k Hj Hji Hk. assert (Hkl : k ∉ K i) by (intros Hk'; apply Hji; by eapply (co_disjoint _ _ _ C)).
      rewrite Hsp in Hkl. split; [|set_solver]. cbn.
      destruct (cache_at_block _ _ _ j k Hca Hj Hk) as [_ (bk & Hbk)].
      rewrite lookup_insert_ne by congruence. apply (rl_out _ _ _ R). set_solver.
Qed.

(** ** Refill *)

(** How many blocks a refill of class [i] may add. *)
Definition refill_limit K (i cap : Z) : Z :=
  Z.min (Z.min (HPLF_CACHE_CLASS_BLOCK_LIMIT - Z.of_nat (length (K i))) HPLF_CACHE_REFILL_LIMIT)
        ((HPLF_CACHE_TOTAL_BYTES_LIMIT - cached_bytes K) / cap).

Lemma refill_limit_nonneg K i cap : is_class i cap -> within_limits K -> 0 <= refill_limit K i cap.
Proof.
  intros Hcl [Hn Hb]. pose proof (Hn i (is_class_index _ _ Hcl)). pose proof (is_class_capacity_bounds _ _ Hcl).
  unfold refill_limit, HPLF_CACHE_REFILL_LIMIT.
  assert (0 <= (HPLF_CACHE_TOTAL_BYTES_LIMIT - cached_bytes K) / cap) by (apply Z.div_pos; lia). lia.
Qed.

Lemma refill_limits K i cap l1 :
  is_class i cap -> within_limits K -> Z.of_nat (length l1) <= refill_limit K i cap ->
  within_limits (kupd K i (l1 ++ K i)).
Proof.
  intros Hcl [Hn Hb] Hl. pose proof (is_class_capacity_bounds _ _ Hcl) as [Hc _]. unfold refill_limit in Hl. split.
  - intros j Hj. destruct (Z.eq_dec j i) as [->|Hne]; [|rewrite kupd_ne by done; auto].
    rewrite kupd_eq, length_app. lia.
  - rewrite (cached_bytes_kupd _ _ Hcl), length_app.
    assert (Hdiv : cap * ((HPLF_CACHE_TOTAL_BYTES_LIMIT - cached_bytes K) / cap) <= HPLF_CACHE_TOTAL_BYTES_LIMIT - cached_bytes K)
      by (apply Z.mul_div_le; lia).
    set (q := (HPLF_CACHE_TOTAL_BYTES_LIMIT - cached_bytes K) / cap) in *.
    replace (Z.of_nat (length l1 + length (K i)) - Z.of_nat (length (K i))) with (Z.of_nat (length l1)) by lia.
    assert (Z.of_nat (length l1) * cap <= q * cap) by (apply Z.mul_le_mono_nonneg_r; lia). lia.
Qed.

(** The code computes that limit. *)
Lemma refill_limit_eval K i cap n t :
  is_class i cap -> within_limits K -> n = Z.of_nat (length (K i)) mod WORD -> t = cached_bytes K mod WORD ->
  (let class_space := wsub HPLF_CACHE_CLASS_BLOCK_LIMIT n in
   let byte_space := wsub HPLF_CACHE_TOTAL_BYTES_LIMIT t / cap in
   let limit := if class_space <? HPLF_CACHE_REFILL_LIMIT then class_space else HPLF_CACHE_REFILL_LIMIT in
   if byte_space <? limit then byte_space else limit) = refill_limit K i cap.
Proof.
  intros Hcl [Hn Hb] -> ->. pose proof (Hn i (is_class_index _ _ Hcl)). pose proof (cached_bytes_nonneg K).
  unfold refill_limit, HPLF_CACHE_CLASS_BLOCK_LIMIT, HPLF_CACHE_TOTAL_BYTES_LIMIT, HPLF_CACHE_REFILL_LIMIT in *.
  rewrite !Z.mod_small by (unfold WORD; lia). rewrite !wsub_small by (unfold SIZE_MAX, WORD; lia). cbv zeta.
  destruct (Z.ltb_spec (32 - Z.of_nat (length (K i))) 16); case_bool; lia.
Qed.

Lemma wp_cache_refill d K i cap t l m :
  cache_at (objs m) d K -> is_class i cap -> within_limits K -> describes (objs m) t l ->
  Z.of_nat (length l) <= SIZE_MAX ->
  (forall j b, 0 <= j < HPLF_SIZE_CLASS_COUNT -> b ∈ l -> b ∉ K j) ->
  wp (hplf_thread_cache_refill d i cap t) (fun t' m' => exists l1 l2, l = l1 ++ l2 /\
    Z.of_nat (length l1) = Z.min (Z.of_nat (length l)) (refill_limit K i cap) /\
    describes (objs m') t' l2 /\ reworked l1 [d] m m' /\ cache_at (objs m') d (kupd K i (l1 ++ K i)) /\
    within_limits (kupd K i (l1 ++ K i))) m.
Proof.
  intros Hca Hcl Hlim Hdes Hlen Hout. pose proof Hca as (dsc & Hd & C). pose proof (is_class_index _ _ Hcl) as Hi.
  destruct (cache_class _ _ _ _ C Hi) as (head & _ & Hn & _). pose proof (is_class_capacity_bounds _ _ Hcl) as [Hcap _].
  unfold hplf_thread_cache_refill. wp_step. eapply wp_cache_count; [done|exact Hn|]. wp_step.
  eapply wp_cache_total; [done|]. rewrite (co_total _ _ _ C). wp_step. apply wp_demand; [lia|].
  pose proof (refill_limit_eval K i cap _ _ Hcl Hlim eq_refl eq_refl) as E. cbv zeta in E. rewrite E. clear E.
  pose proof (refill_limit_nonneg _ _ _ Hcl Hlim) as Hnn.
  wp_step. eapply wp_mono; [apply (wp_take_prefix m t l); [apply Hdes|done|done]|].
  intros [available accepted] m1 (l1 & l2 & T). cbn [fst snd] in T.
  pose proof (tp_relinked _ _ _ _ _ _ _ _ _ T) as R. pose proof (tp_split _ _ _ _ _ _ _ _ _ T) as Hsp.
  pose proof (tp_length _ _ _ _ _ _ _ _ _ T) as Hl1. pose proof (reworked_relinked _ _ _ R) as W.
  assert (Hca1 : cache_at (objs m1) d K).
  { eapply cache_at_frame; [exact Hca|..].
    - apply (rl_out _ _ _ R). intros Hin. destruct (describes_block _ _ _ d Hdes) as [_ (b & Hb)]; [set_solver|]. congruence.
    - intros j b Hj Hb. apply (rl_out _ _ _ R). intros Hin. apply (Hout j b Hj); [set_solver|done]. }
  wp_step. eapply wp_mono; [eapply (wp_cache_restore d K i cap accepted l1); [exact Hca1|exact Hcl|apply T|]|].
  { intros j b Hj Hb. apply Hout; [done|set_solver]. }
  intros _ m2 [W2 Hca2]. wp_steps. exists l1, l2.
  assert (Hblk : forall k, k ∈ l1 ++ l2 -> exists b, objs m !! k = Some (OBlock b)).
  { intros k Hk. rewrite <- Hsp in Hk. by destruct (describes_block _ _ _ k Hdes Hk). }
  split_and!; [done|done| | |done|].
  - eapply describes_chain_eq; [|split; [apply T|apply T, Hdes]].
    intros k Hk. apply (wk_out _ _ _ _ W2).
    + destruct Hdes as [[Hch _] _]. apply chain_NoDup in Hch. rewrite Hsp in Hch.
      apply NoDup_app in Hch as (_ & Hdis & _). intros Hk1. by apply (Hdis k).
    + intros ->%list_elem_of_singleton. destruct Hca1 as (? & Hd1 & _).
      destruct (Hblk d) as [b Hb]; [set_solver|]. congruence.
  - eapply reworked_mono; [exact (reworked_trans _ _ _ _ _ _ _ W W2)|set_solver|set_solver| |].
    + intros k Hk. apply Hblk. set_solver.
    + intros k ->%list_elem_of_singleton. by exists dsc.
  - apply (refill_limits _ _ _ _ Hcl Hlim). lia.
Qed.

(** ** Eviction *)

(** What one round of eviction does, for the class just stored to: nothing within the
    limits; otherwise it takes the excess of that class, or, over the total limit,
    the whole class, or, when the class is empty, the whole of the first nonempty
    class in ascending order. *)
Definition evicted (d : Z) K (current : Z) (m : memory) (r : bool * cell Z * hplf_transfer_list) (m' : memory) : Prop :=
  (exists out, r = (false, out, hplf_transfer_list_clear) /\ m' = m /\
     Z.of_nat (length (K current)) <= HPLF_CACHE_CLASS_BLOCK_LIMIT /\ cached_bytes K <= HPLF_CACHE_TOTAL_BYTES_LIMIT) \/
  (exists c cap l1 l2, r.1 = (true, Cell (Some c)) /\ is_class c cap /\ K c = l1 ++ l2 /\ l1 <> [] /\
     describes (objs m') r.2 l1 /\ reworked l1 [d] m m' /\ cache_at (objs m') d (kupd K c l2) /\
     ((c = current /\ HPLF_CACHE_CLASS_BLOCK_LIMIT < Z.of_nat (length (K current)) /\
        Z.of_nat (length l2) = HPLF_CACHE_CLASS_BLOCK_LIMIT) \/
      (Z.of_nat (length (K current)) <= HPLF_CACHE_CLASS_BLOCK_LIMIT /\ HPLF_CACHE_TOTAL_BYTES_LIMIT < cached_bytes K /\
         l2 = [] /\ ((c = current /\ K current <> []) \/ (K current = [] /\ forall j, 0 <= j < c -> K j = []))))).

(** Some class of a cache that holds bytes is not empty. *)
Lemma cached_bytes_nonempty K : 0 < cached_bytes K -> exists j, 0 <= j < HPLF_SIZE_CLASS_COUNT /\ K j <> [].
Proof.
  intros Hpos. destruct (decide (Forall (fun j => K j = []) (seqZ 0 HPLF_SIZE_CLASS_COUNT))) as [Hall|Hne].
  - exfalso. assert (cached_bytes K = cached_bytes (fun _ => [])) as E.
    { apply cached_bytes_ext. intros j Hj. rewrite Forall_forall in Hall. rewrite Hall; [done|]. by apply elem_of_seqZ. }
    rewrite E in Hpos. vm_compute in Hpos. done.
  - apply not_Forall_Exists, Exists_exists in Hne as (j & Hj%elem_of_seqZ & ?); [|apply _]. by exists j.
Qed.

(** The scan finds the first nonempty class. *)
Lemma wp_eviction_scan d K m :
  cache_at (objs m) d K -> (forall j, 0 <= j < HPLF_SIZE_CLASS_COUNT -> Z.of_nat (length (K j)) <= SIZE_MAX) ->
  (exists j, 0 <= j < HPLF_SIZE_CLASS_COUNT /\ K j <> []) ->
  wp (iterate (Datatypes.S (Z.to_nat HPLF_SIZE_CLASS_COUNT)) (eviction_scan_step d) 0) (fun r m' => m' = m /\
    exists c, r = Some (c, Z.of_nat (length (K c))) /\ 0 <= c < HPLF_SIZE_CLASS_COUNT /\ K c <> [] /\
      forall j, 0 <= j < c -> K j = []) m.
Proof.
  intros (dsc & Hd & C) Hlen (j0 & Hj0 & Hne0).
  apply (wp_iterate (eviction_scan_step d)
    (fun n a s => s = m /\ 0 <= a <= j0 /\ n = Z.to_nat (HPLF_SIZE_CLASS_COUNT - a) /\ forall j, 0 <= j < a -> K j = [])) with
    (n := Z.to_nat HPLF_SIZE_CLASS_COUNT); [|lia|split_and!; [done|lia|lia|f_equal; lia|lia]].
  intros n a s (-> & Ha & -> & Hbelow). unfold eviction_scan_step. destruct (Z.leb_spec HPLF_SIZE_CLASS_COUNT a); [lia|].
  assert (Hi : 0 <= a < HPLF_SIZE_CLASS_COUNT) by lia.
  destruct (cache_class _ _ _ _ C Hi) as (head & _ & Hn & _).
  rewrite Z.mod_small in Hn by (specialize (Hlen _ Hi); unfold SIZE_MAX in Hlen; lia).
  wp_step. eapply wp_cache_count; [done|exact Hn|].
  destruct (Z.eqb_spec (Z.of_nat (length (K a))) 0) as [Hz|Hz]; wp_steps.
  - assert (a <> j0). { intros ->. apply Hne0. destruct (K j0); [done|]. simpl in Hz. lia. }
    assert (Hz' : K a = []) by (destruct (K a); [done|simpl in Hz; lia]).
    exists (Z.to_nat (HPLF_SIZE_CLASS_COUNT - (a + 1))). split_and!; [lia|done|lia|lia|done|].
    intros j Hj. destruct (Z.eq_dec j a) as [->|]; [done|apply Hbelow; lia].
  - split; [done|]. exists a. split_and!; [done|lia|lia| |done]. intros E. by rewrite E in Hz.
Qed.

Lemma extracted_all d K c m r m' :
  K c <> [] -> extracted d K c (Z.of_nat (length (K c))) m r m' ->
  exists l1, r.1 = true /\ K c = l1 ++ [] /\ l1 <> [] /\
    describes (objs m') r.2 l1 /\ reworked l1 [d] m m' /\ cache_at (objs m') d (kupd K c []).
Proof.
  intros Hne [(_ & _ & [?|Hz])|(l1 & l2 & Hr & Hsp & Hn1 & Hlen & Hdes & W & Hca)]; [done| |].
  - destruct (K c); [done|]. simpl in Hz. lia.
  - assert (l2 = []) as ->. { rewrite Hsp, length_app in Hlen. destruct l2; [done|]. simpl in Hlen. lia. }
    exists l1. by split_and!.
Qed.

Lemma wp_cache_evict d K current cap out m :
  cache_at (objs m) d K -> is_class current cap ->
  (forall j, 0 <= j < HPLF_SIZE_CLASS_COUNT -> Z.of_nat (length (K j)) <= SIZE_MAX) ->
  cached_bytes K <= SIZE_MAX ->
  wp (hplf_thread_cache_extract_eviction d current out) (evicted d K current m) m.
Proof.
  intros Hca Hcl Hlen Hbytes. pose proof Hca as (dsc & Hd & C). pose proof (is_class_index _ _ Hcl) as Hi.
  destruct (cache_class _ _ _ _ C Hi) as (head & _ & Hn & _). pose proof (Hlen _ Hi) as Hle.
  rewrite Z.mod_small in Hn by (unfold SIZE_MAX in *; lia).
  pose proof (co_total _ _ _ C) as Ht. pose proof (cached_bytes_nonneg K).
  rewrite Z.mod_small in Ht by (unfold SIZE_MAX in *; lia).
  unfold hplf_thread_cache_extract_eviction. wp_step. eapply wp_cache_count; [done|exact Hn|].
  destruct (Z.ltb_spec HPLF_CACHE_CLASS_BLOCK_LIMIT (Z.of_nat (length (K current)))) as [Hex|Hex].
  - rewrite wsub_small by (unfold HPLF_CACHE_CLASS_BLOCK_LIMIT in *; lia). wp_step.
    eapply wp_mono; [eapply (wp_cache_extract d K current cap); [done|done|lia|done]|].
    intros [ok l] m' [(_ & _ & [Hnil|?])|(l1 & l2 & Hr & Hsp & Hn1 & Hlen1 & Hdes & W & Hca')]; [|lia|].
    { rewrite Hnil in Hex. simpl in Hex. unfold HPLF_CACHE_CLASS_BLOCK_LIMIT in Hex. lia. }
    cbn [fst] in Hr. subst ok. wp_steps. right. exists current, cap, l1, l2. split_and!; try done.
    left. split_and!; [done|done|]. rewrite Hsp, length_app in Hlen1, Hex. unfold HPLF_CACHE_CLASS_BLOCK_LIMIT in *. lia.
  - wp_step. eapply wp_cache_total; [done|]. rewrite Ht.
    destruct (Z.leb_spec (cached_bytes K) HPLF_CACHE_TOTAL_BYTES_LIMIT); [wp_steps; left; by exists out|].
    wp_step. eapply wp_cache_count; [done|exact Hn|].
    destruct (Z.eqb_spec (Z.of_nat (length (K current))) 0) as [Hz|Hz]; cbn [negb].
    + wp_step. eapply wp_mono; [apply wp_eviction_scan; [done|done|]|].
      { apply cached_bytes_nonempty. unfold HPLF_CACHE_TOTAL_BYTES_LIMIT in *. lia. }
      intros r m0 (-> & c & -> & Hc & Hne & Hbelow). destruct (is_class_lookup _ Hc) as [capc Hcc].
      wp_step. eapply wp_mono; [eapply (wp_cache_extract d K c capc); [done|done|lia|auto]|].
      intros [ok l] m' Hx. destruct (extracted_all _ _ _ _ _ _ Hne Hx) as (l1 & Hr & Hsp & Hn1 & Hdes & W & Hca').
      cbn [fst] in Hr. subst ok. wp_steps. right. exists c, capc, l1, []. split_and!; try done. right.
        split_and!; try done. right. split; [|done]. destruct (K current); [done|]. simpl in Hz. lia.
    + wp_step. eapply wp_mono; [eapply (wp_cache_extract d K current cap); [done|done|lia|done]|].
      intros [ok l] m' Hx. assert (Hne : K current <> []) by (intros E; by rewrite E in Hz).
      destruct (extracted_all _ _ _ _ _ _ Hne Hx) as (l1 & Hr & Hsp & Hn1 & Hdes & W & Hca').
      cbn [fst] in Hr. subst ok. wp_steps. right. exists current, cap, l1, []. split_and!; try done. right.
        split_and!; try done. by left.
Qed.
End operations.
