(* ===== verification/Placement.v ===== *)
(** * Where the free blocks of the cached variant are

    A placement assigns to every place (the shared transfer list, one thread's
    cache, or the hands of the running operation) and class a list of blocks. The
    invariant [pool_inv] says that the free blocks are exactly the placed ones,
    each in one place, and that every list in memory is the chain the placement
    says. Moves between places, and blocks entering and leaving the pool, keep it. *)

From S2P Require Import Prelude CheckedMath SizeClass Memory Layout Chain OsMemory Slab Arena SlabSpec.
From S2P Require Import LockedAllocator FreeLists LockedSpec TrimLists Trim TransferList ThreadCache HeapSpec Pool.
From S2P Require Import CachedState ThreadCacheSpec.

(** ** Definitions *)

Inductive place :=
| in_transfer           (* the shared list of the class *)
| in_cache (d : Z)      (* the cache of the descriptor at [d] *)
| in_hand               (* a private list of the running operation *)
| in_grasp.             (* the single block it hands out or takes in *)

#[export] Instance place_eq_dec : EqDecision place.
Proof. solve_decision. Defined.

Abbreviation placement := (place -> Z -> list Z).

Definition pset (P : placement) (x : place) (c : Z) (l : list Z) : placement :=
  fun y i => if decide (y = x /\ i = c) then l else P y i.

(** The blocks of [F], by class, are exactly the placed ones, each placed once. *)
Record partition (F : Z -> Z -> Prop) (P : placement) : Prop := {
  pt_exact : forall c b, F c b <-> exists x, b ∈ P x c;
  pt_unique : forall x y c b, b ∈ P x c -> b ∈ P y c -> x = y;
  pt_nodup : forall x c, NoDup (P x c)
}.

Definition thread_in (ths : gmap nat thread_state) (t : nat) : thread_state := default initial_thread (ths !! t).

(** Threads with an active cache have distinct, registered descriptors. *)
Record threads_ok (os : gmap Z object) (ths : gmap nat thread_state) : Prop := {
  th_active : forall t, current_state (thread_in ths t) = HPLF_CACHE_ACTIVE ->
    current_descriptor (thread_in ths t) <> NULL /\
    key_value (thread_in ths t) = current_descriptor (thread_in ths t) /\
    exists dsc, os !! current_descriptor (thread_in ths t) = Some (ODescriptor dsc);
  th_inactive : forall t, current_state (thread_in ths t) <> HPLF_CACHE_ACTIVE -> key_value (thread_in ths t) = NULL;
  th_distinct : forall t1 t2, current_state (thread_in ths t1) = HPLF_CACHE_ACTIVE ->
    current_state (thread_in ths t2) = HPLF_CACHE_ACTIVE ->
    current_descriptor (thread_in ths t1) = current_descriptor (thread_in ths t2) -> t1 = t2
}.

Record pool_inv `{Platform} (m : memory) (registry : Z) (heads : list Z) (P : placement) : Prop := {
  pi_arena : arena_wf m;
  pi_registry : registry_ok (objs m) registry;
  pi_heads : Z.of_nat (length heads) = HPLF_SIZE_CLASS_COUNT;
  pi_transfer : forall c head, array_get heads c = Some head -> chain (block_next (objs m)) head (P in_transfer c);
  pi_cache : forall d dsc, objs m !! d = Some (ODescriptor dsc) -> cache_ok (objs m) (desc_cache dsc) (P (in_cache d));
  pi_absent : forall d c, (forall dsc, objs m !! d <> Some (ODescriptor dsc)) -> P (in_cache d) c = [];
  pi_free : partition (free_in_class (objs m)) P
}.

(** Every cache is within its limits. *)
Definition limited (P : placement) : Prop := forall d, within_limits (P (in_cache d)).

(** The running operation holds nothing. *)
Definition hands_empty (P : placement) : Prop := forall c, P in_hand c = [] /\ P in_grasp c = [].

(** ** Placements *)

Section placements.
Implicit Types (P : placement) (F : Z -> Z -> Prop) (x y : place).

Lemma pset_eq P x c l : pset P x c l x c = l.
Proof. unfold pset. by rewrite decide_True. Qed.

Lemma pset_ne P x c l y i : ~ (y = x /\ i = c) -> pset P x c l y i = P y i.
Proof. intros. unfold pset. by rewrite decide_False. Qed.

Lemma pset_place P x c l y i : y <> x -> pset P x c l y i = P y i.
Proof. intros. apply pset_ne. by intros [? _]. Qed.

Lemma pset_cache P d c l i : pset P (in_cache d) c l (in_cache d) i = kupd (P (in_cache d)) c l i.
Proof. unfold pset, kupd. repeat case_decide; naive_solver. Qed.

Lemma partition_class F P x c b : partition F P -> b ∈ P x c -> F c b.
Proof. intros H Hb. apply (pt_exact _ _ H). by exists x. Qed.

(** Blocks of one class redistributed between two places. *)
Lemma partition_move F P x y c lx ly :
  x <> y -> lx ++ ly ≡ₚ P x c ++ P y c -> partition F P -> partition F (pset (pset P x c lx) y c ly).
Proof.
  intros Hxy Hp [He Hu Hn].
  assert (Hcases : forall z i, (z = x /\ i = c /\ pset (pset P x c lx) y c ly z i = lx) \/
                          (z = y /\ i = c /\ pset (pset P x c lx) y c ly z i = ly) \/
                          (~ ((z = x \/ z = y) /\ i = c) /\ pset (pset P x c lx) y c ly z i = P z i)).
  { intros z i. unfold pset. repeat case_decide; naive_solver. }
  assert (Hin : forall b, b ∈ lx \/ b ∈ ly <-> b ∈ P x c \/ b ∈ P y c).
  { intros b. rewrite <- !elem_of_app. by rewrite Hp. }
  assert (Hnd : NoDup (lx ++ ly)).
  { rewrite Hp. apply NoDup_app. split_and!; [apply Hn| |apply Hn]. intros b H1 H2. by apply Hxy, (Hu _ _ _ _ H1 H2). }
  apply NoDup_app in Hnd as (Hnx & Hdis & Hny). split.
  - intros i b. rewrite He. split.
    + intros [z Hz]. destruct (decide ((z = x \/ z = y) /\ i = c)) as [[Hz' ->]|Hne].
      * assert (Hb : b ∈ lx \/ b ∈ ly) by (apply Hin; destruct Hz' as [->| ->]; auto). destruct Hb as [Hb|Hb].
        -- exists x. destruct (Hcases x c) as [(_ & _ & ->)|[(? & _)|[[] _]]]; done || naive_solver.
        -- exists y. by rewrite pset_eq.
      * exists z. destruct (Hcases z i) as [(? & ? & _)|[(? & ? & _)|[_ ->]]]; naive_solver.
    + intros [z Hz]. destruct (Hcases z i) as [(-> & -> & E)|[(-> & -> & E)|[_ E]]]; rewrite E in Hz.
      * destruct (proj1 (Hin b)) as [?|?]; [by left|by exists x|by exists y].
      * destruct (proj1 (Hin b)) as [?|?]; [by right|by exists x|by exists y].
      * by exists z.
  - intros z1 z2 i b.
    assert (Hold : forall z, (b ∈ P x c \/ b ∈ P y c) -> b ∈ P z c -> z = x \/ z = y).
    { intros z [?|?] ?; [left|right]; by eapply Hu. }
    destruct (Hcases z1 i) as [(-> & Hi & E1)|[(-> & Hi & E1)|[N1 E1]]], (Hcases z2 i) as [(-> & Hi2 & E2)|[(-> & Hi2 & E2)|[N2 E2]]];
      try subst i; rewrite ?E1, ?E2; intros H1 H2; try done.
    + by destruct (Hdis b H1).
    + exfalso. apply N2. split; [|done]. eapply Hold; [apply Hin; by left|done].
    + by destruct (Hdis b H2).
    + exfalso. apply N2. split; [|done]. eapply Hold; [apply Hin; by right|done].
    + exfalso. apply N1. split; [|done]. eapply Hold; [apply Hin; by left|done].
    + exfalso. apply N1. split; [|done]. eapply Hold; [apply Hin; by right|done].
    + by eapply Hu.
  - intros z i. destruct (Hcases z i) as [(_ & _ & ->)|[(_ & _ & ->)|[_ ->]]]; auto.
Qed.

(** New blocks arrive in one place. *)
Lemma partition_enter F F' P x c l :
  (forall i b, F' i b <-> F i b \/ (i = c /\ b ∈ l)) -> NoDup l -> (forall b, b ∈ l -> ~ F c b) ->
  partition F P -> partition F' (pset P x c (l ++ P x c)).
Proof.
  intros HF Hnd Hnew [He Hu Hn].
  assert (Hno : forall z b, b ∈ l -> b ∉ P z c). { intros z b Hb Hz. apply (Hnew _ Hb), He. by exists z. }
  split.
  - intros i b. rewrite HF, He. split.
    + intros [[z Hz]|[-> Hb]].
      * exists z. unfold pset. case_decide as E; [destruct E as [-> ->]; set_solver|done].
      * exists x. rewrite pset_eq. set_solver.
    + intros [z Hz]. unfold pset in Hz. case_decide as E; [|left; by exists z]. destruct E as [-> ->].
      apply elem_of_app in Hz as [?|?]; [by right|left; by exists x].
  - intros z1 z2 i b. unfold pset.
    destruct (decide (z1 = x /\ i = c)) as [[-> Hi]|N1], (decide (z2 = x /\ i = c)) as [[-> Hi2]|N2]; subst; [done|..].
    + intros [Hb|Hb]%elem_of_app H2; [by destruct (Hno z2 b Hb)|by eapply Hu].
    + intros H1 [Hb|Hb]%elem_of_app; [by destruct (Hno z1 b Hb)|by eapply Hu].
    + apply Hu.
  - intros z i. unfold pset. case_decide; [|done]. apply NoDup_app. split_and!; [done| |done]. auto.
Qed.

(** A block leaves the place that holds only it. *)
Lemma partition_leave F F' P x c b :
  (forall i k, F' i k <-> F i k /\ k <> b) -> (forall i, F i b -> i = c) -> P x c = [b] ->
  partition F P -> partition F' (pset P x c []).
Proof.
  intros HF Hc Hx [He Hu Hn]. split.
  - intros i k. rewrite HF, He. split.
    + intros [[z Hz] Hk]. exists z. unfold pset. case_decide as E; [|done]. destruct E as [-> ->].
      rewrite Hx in Hz. set_solver.
    + intros [z Hz]. unfold pset in Hz. case_decide as E; [by apply not_elem_of_nil in Hz|]. split; [by exists z|].
      intros ->. apply E. assert (i = c) as -> by (apply Hc, He; by exists z). split; [|done].
      eapply Hu; [exact Hz|]. rewrite Hx. left.
  - intros z1 z2 i k. unfold pset.
    destruct (decide (z1 = x /\ i = c)), (decide (z2 = x /\ i = c)); try (by intros ?%not_elem_of_nil); try (by intros ? ?%not_elem_of_nil).
    apply Hu.
  - intros z i. unfold pset. case_decide; [constructor|done].
Qed.

Lemma partition_ext F F' P P' :
  (forall c b, F' c b <-> F c b) -> (forall x c, P' x c = P x c) -> partition F P -> partition F' P'.
Proof.
  intros HF HP [He Hu Hn]. split.
  - intros c b. rewrite HF, He. by setoid_rewrite HP.
  - intros x y c b. rewrite !HP. apply Hu.
  - intros x c. rewrite HP. apply Hn.
Qed.
End placements.

(** ** The invariant under moves *)

Definition private (x : place) : Prop := x = in_hand \/ x = in_grasp.

Section moves.
Context `{Platform, !PlatformLaws}.
Implicit Types (m : memory) (P : placement) (x y z : place) (S D l : list Z).

Lemma pool_block m registry heads P x c b :
  pool_inv m registry heads P -> b ∈ P x c ->
  exists blk, objs m !! b = Some (OBlock blk) /\ requested_size blk = 0 /\ kind blk = HPLF_BLOCK_SMALL /\
    is_class c (capacity blk).
Proof.
  intros I Hb. pose proof (partition_class _ _ _ _ _ (pi_free _ _ _ _ I) Hb) as Hf.
  destruct (free_block_inv _ _ _ (pi_arena _ _ _ _ I) Hf) as (blk & a & h & i & S0 & _ & Hr & Hblk & Hc).
  exists blk. split_and!; try done. apply S0.
Qed.

Lemma pool_lists_disjoint m registry heads P x y c c' b :
  pool_inv m registry heads P -> b ∈ P x c -> b ∈ P y c' -> x = y /\ c = c'.
Proof.
  intros I H1 H2. pose proof (pi_free _ _ _ _ I) as Hp.
  assert (c = c') as <-.
  { eapply free_in_class_functional; by eapply (partition_class _ P). }
  split; [|done]. by eapply pt_unique.
Qed.

Lemma pool_length m registry heads P x c :
  pool_inv m registry heads P -> Z.of_nat (length (P x c)) <= SIZE_MAX.
Proof.
  intros I. eapply (objects_length m); [apply I|apply (pt_nodup _ _ (pi_free _ _ _ _ I))|].
  intros k Hk. destruct (pool_block _ _ _ _ _ _ _ I Hk) as (blk & -> & _). by eexists.
Qed.

Lemma pool_cache_at m registry heads P d dsc :
  pool_inv m registry heads P -> objs m !! d = Some (ODescriptor dsc) -> cache_at (objs m) d (P (in_cache d)).
Proof. intros I Hd. exists dsc. split; [done|]. by apply (pi_cache _ _ _ _ I). Qed.

(** Placed blocks of one class, or all blocks of [S], are free blocks. *)
Lemma pool_reshuffled m m' registry heads P S D :
  pool_inv m registry heads P -> reworked S D m m' -> (forall k, k ∈ S -> exists x c, k ∈ P x c) -> reshuffled m m'.
Proof.
  intros I R HS. eapply reshuffled_reworked; [exact R|]. intros k b Hk Hb.
  destruct (HS _ Hk) as (x & c & Hx). destruct (pool_block _ _ _ _ _ _ _ I Hx) as (blk & ? & ? & _). congruence.
Qed.

Lemma pool_rework m m' registry heads heads' P P' S D :
  pool_inv m registry heads P -> reworked S D m m' -> (forall k, k ∈ S -> exists x c, k ∈ P x c) ->
  partition (free_in_class (objs m)) P' -> length heads' = length heads ->
  (forall c head, array_get heads' c = Some head ->
     (array_get heads c = Some head /\ P' in_transfer c = P in_transfer c /\ forall k, k ∈ S -> k ∉ P in_transfer c) \/
     chain (block_next (objs m')) head (P' in_transfer c)) ->
  (forall d, d ∈ D -> cache_at (objs m') d (P' (in_cache d))) ->
  (forall d, d ∉ D -> (forall c, P' (in_cache d) c = P (in_cache d) c) /\ forall c k, k ∈ S -> k ∉ P (in_cache d) c) ->
  pool_inv m' registry heads' P'.
Proof.
  intros I R HS Hpart Hlen Htr HD Hout. pose proof (pool_reshuffled _ _ _ _ _ _ _ I R HS) as Rs.
  assert (HSb : forall k, k ∈ S -> exists b, objs m !! k = Some (OBlock b)).
  { intros k (x & c & Hx)%HS. destruct (pool_block _ _ _ _ _ _ _ I Hx) as (blk & ? & _). by exists blk. }
  assert (HDd : forall k, k ∈ D -> exists dsc, objs m !! k = Some (ODescriptor dsc)).
  { intros k Hk. destruct (wk_caches _ _ _ _ R _ Hk) as (dsc & ? & ? & _). by exists dsc. }
  assert (Hframe : forall x c k, k ∈ P x c -> k ∉ S -> objs m' !! k = objs m !! k).
  { intros x c k Hk Hk'. apply (wk_out _ _ _ _ R); [done|]. intros [dsc Hd]%HDd.
    destruct (pool_block _ _ _ _ _ _ _ I Hk) as (blk & ? & _). congruence. }
  split.
  - eapply reshuffled_arena_wf; [apply I|done].
  - eapply registry_reshuffled; [done|apply I].
  - rewrite Hlen. apply I.
  - intros c head Hh. destruct (Htr _ _ Hh) as [(Hold & -> & Hno)|?]; [|done].
    eapply chain_ext; [by eapply (pi_transfer _ _ _ _ I)|]. intros k Hk. unfold block_next, block_at.
    rewrite (Hframe in_transfer c); [done|done|]. intros Hk'. by apply (Hno _ Hk').
  - intros d dsc Hd. destruct (decide (d ∈ D)) as [Hin|Hin].
    + destruct (HD _ Hin) as (dsc' & Hd' & C). congruence.
    + destruct (Hout _ Hin) as [HP Hno].
      assert (Hd0 : objs m !! d = Some (ODescriptor dsc)).
      { rewrite <- Hd. symmetry. apply (wk_out _ _ _ _ R); [|done]. intros [b Hb]%HSb.
        destruct (reworked_block _ _ _ _ _ _ R Hb) as [q Hq]. congruence. }
      assert (Hca : cache_at (objs m') d (P' (in_cache d))).
      { eapply cache_at_ext; [|exact HP]. eapply cache_at_frame; [by eapply pool_cache_at|congruence|].
        intros i b _ Hb. eapply Hframe; [done|]. intros Hb'. by apply (Hno i b Hb'). }
      destruct Hca as (dsc' & Hd' & C). congruence.
  - intros d c Hd. assert (Hd0 : forall dsc, objs m !! d <> Some (ODescriptor dsc)).
    { intros dsc Hdsc. destruct (reworked_descriptor _ _ _ _ _ _ R Hdsc) as [c' Hc']. by apply (Hd _ Hc'). }
    destruct (decide (d ∈ D)) as [(dsc & Hdsc)%HDd|Hin]; [by apply Hd0 in Hdsc|].
    destruct (Hout _ Hin) as [-> _]. by apply (pi_absent _ _ _ _ I).
  - eapply partition_ext; [|done|exact Hpart]. intros c b. by apply reshuffled_free.
Qed.

(** Between a private place and one cache. *)
Lemma pool_cache_move m m' registry heads P S d z c lc lz :
  pool_inv m registry heads P -> private z -> reworked S [d] m m' ->
  (forall k, k ∈ S -> k ∈ P (in_cache d) c \/ k ∈ P z c) ->
  lc ++ lz ≡ₚ P (in_cache d) c ++ P z c -> cache_at (objs m') d (kupd (P (in_cache d)) c lc) ->
  pool_inv m' registry heads (pset (pset P (in_cache d) c lc) z c lz).
Proof.
  intros I Hz R HS Hp Hca. assert (Hzt : z <> in_transfer /\ forall d', z <> in_cache d') by (destruct Hz as [->| ->]; done).
  destruct Hzt as [Hzt Hzc].
  assert (Hno : forall y c' k, k ∈ S -> y <> in_cache d -> y <> z -> k ∉ P y c').
  { intros y c' k Hk H1 H2 Hy. destruct (HS _ Hk) as [Hk'|Hk'];
      by destruct (pool_lists_disjoint _ _ _ _ _ _ _ _ _ I Hk' Hy) as [<- _]. }
  eapply (pool_rework _ _ _ _ _ _ _ S [d]); [exact I|exact R| |apply partition_move; [done|done|apply I]|done|..].
  - intros k [Hk|Hk]%HS; by eexists _, _.
  - intros c' head Hh. left. split; [done|]. rewrite !pset_place by done. split; [done|].
    intros k Hk. by apply Hno.
  - intros d' ->%list_elem_of_singleton. eapply cache_at_ext; [exact Hca|]. intros i.
    rewrite pset_place by done. apply pset_cache.
  - intros d' Hd'. assert (Hne : in_cache d' <> in_cache d) by (intros [= ->]; set_solver). split.
    + intros c'. by rewrite !pset_place by done.
    + intros c' k Hk. by apply Hno.
Qed.

(** Between a private place and the shared list. *)
Lemma pool_transfer_move m m' registry heads P S z c head old lt lz :
  pool_inv m registry heads P -> private z -> array_get heads c = Some old -> reworked S [] m m' ->
  (forall k, k ∈ S -> k ∈ P in_transfer c \/ k ∈ P z c) ->
  lt ++ lz ≡ₚ P in_transfer c ++ P z c -> chain (block_next (objs m')) head lt ->
  pool_inv m' registry (<[Z.to_nat c := head]> heads) (pset (pset P in_transfer c lt) z c lz).
Proof.
  intros I Hz Hget R HS Hp Hch.
  assert (Hzt : z <> in_transfer /\ forall d', z <> in_cache d') by (destruct Hz as [->| ->]; done).
  destruct Hzt as [Hzt Hzc].
  assert (Hc : 0 <= c < Z.of_nat (length heads)).
  { apply array_get_Some in Hget as [? ?%lookup_lt_Some]. lia. }
  eapply (pool_rework _ _ _ _ _ _ _ S []); [exact I|exact R| |apply partition_move; [done|done|apply I]|by rewrite length_insert|..].
  - intros k [Hk|Hk]%HS; by eexists _, _.
  - intros c' head'. rewrite array_get_insert by done. rewrite pset_place by done. case_decide as E.
    + intros [= <-]. subst c'. right. by rewrite pset_eq.
    + intros Hh. left. split; [done|]. rewrite pset_ne by (intros [_ ->]; done). split; [done|].
      intros k Hk Ht. destruct (HS _ Hk) as [Hk'|Hk'];
        by destruct (pool_lists_disjoint _ _ _ _ _ _ _ _ _ I Hk' Ht) as [? ?].
  - by intros d ?%not_elem_of_nil.
  - intros d _. split; [intros c'; by rewrite !pset_place by done|]. intros c' k Hk Hd.
    destruct (HS _ Hk) as [Hk'|Hk']; destruct (pool_lists_disjoint _ _ _ _ _ _ _ _ _ I Hk' Hd) as [? _]; [done|by eapply Hzc].
Qed.

(** Between the two private places. *)
Lemma pool_private_move m m' registry heads P S c lh lg :
  pool_inv m registry heads P -> reworked S [] m m' ->
  (forall k, k ∈ S -> k ∈ P in_hand c \/ k ∈ P in_grasp c) ->
  lh ++ lg ≡ₚ P in_hand c ++ P in_grasp c ->
  pool_inv m' registry heads (pset (pset P in_hand c lh) in_grasp c lg).
Proof.
  intros I R HS Hp.
  assert (Hno : forall y c' k, k ∈ S -> ~ private y -> k ∉ P y c').
  { intros y c' k Hk Hy Hk2. apply Hy. destruct (HS _ Hk) as [Hk'|Hk'];
      destruct (pool_lists_disjoint _ _ _ _ _ _ _ _ _ I Hk' Hk2) as [<- _]; [by left|by right]. }
  eapply (pool_rework _ _ _ _ _ _ _ S []); [exact I|exact R| |apply partition_move; [done|done|apply I]|done|..].
  - intros k [Hk|Hk]%HS; by eexists _, _.
  - intros c' head Hh. left. split; [done|]. rewrite !pset_place by done. split; [done|].
    intros k Hk. apply Hno; [done|]. by intros [?|?].
  - by intros d ?%not_elem_of_nil.
  - intros d _. split; [intros c'; by rewrite !pset_place by done|]. intros c' k Hk. apply Hno; [done|]. by intros [?|?].
Qed.

Lemma pool_ext m registry heads P P' :
  pool_inv m registry heads P -> (forall x c, P' x c = P x c) -> pool_inv m registry heads P'.
Proof.
  intros [Ha Hr Hh Ht Hc Hab Hf] HP. split; try done.
  - intros c head. rewrite HP. apply Ht.
  - intros d dsc Hd. destruct (cache_at_ext (objs m) d (P (in_cache d)) (P' (in_cache d))) as (dsc' & Hd' & C).
    + exists dsc. split; [done|]. by apply Hc.
    + intros i. apply HP.
    + congruence.
  - intros d c. rewrite HP. apply Hab.
  - by eapply partition_ext.
Qed.

Lemma thread_in_insert ths self th t : thread_in (<[self := th]> ths) t = if decide (t = self) then th else thread_in ths t.
Proof. unfold thread_in. rewrite lookup_insert. repeat case_decide; naive_solver. Qed.

Lemma threads_ok_objs os os' ths :
  threads_ok os ths ->
  (forall t dsc, current_state (thread_in ths t) = HPLF_CACHE_ACTIVE ->
     os !! current_descriptor (thread_in ths t) = Some (ODescriptor dsc) ->
     exists dsc', os' !! current_descriptor (thread_in ths t) = Some (ODescriptor dsc')) ->
  threads_ok os' ths.
Proof.
  intros [Ha Hi Hd] Hos. split; try done. intros t Hst. destruct (Ha _ Hst) as (? & ? & dsc & Hdsc).
  split_and!; eauto.
Qed.

(** One thread changes its variables. *)
Lemma threads_ok_update os ths self th :
  threads_ok os ths ->
  (current_state th = HPLF_CACHE_ACTIVE -> current_descriptor th <> NULL /\ key_value th = current_descriptor th /\
     (exists dsc, os !! current_descriptor th = Some (ODescriptor dsc)) /\
     forall t, t <> self -> current_state (thread_in ths t) = HPLF_CACHE_ACTIVE ->
       current_descriptor (thread_in ths t) <> current_descriptor th) ->
  (current_state th <> HPLF_CACHE_ACTIVE -> key_value th = NULL) ->
  threads_ok os (<[self := th]> ths).
Proof.
  intros [Ha Hi Hd] Hact Hin. split.
  - intros t. rewrite thread_in_insert. case_decide; [|apply Ha]. intros Hst. by destruct (Hact Hst) as (? & ? & ? & _).
  - intros t. rewrite thread_in_insert. case_decide; auto.
  - intros t1 t2. rewrite !thread_in_insert. repeat case_decide; subst; try done; [| |apply Hd].
    + intros Hst Hst2 E. destruct (Hact Hst) as (_ & _ & _ & Hno). by destruct (Hno t2).
    + intros Hst2 Hst E. destruct (Hact Hst) as (_ & _ & _ & Hno). by destruct (Hno t1).
Qed.

Lemma threads_ok_reshuffled m m' ths : threads_ok (objs m) ths -> reshuffled m m' -> threads_ok (objs m') ths.
Proof. intros T R. eapply threads_ok_objs; [done|]. intros t dsc _ Hd. apply (reshuffled_descriptor _ _ _ R). by exists dsc. Qed.
End moves.
