(* ===== verification/PoolSteps.v ===== *)
(** * Blocks and storage entering and leaving the pool

    The invariant [pool_inv] when a block is handed to a client or taken back,
    when new storage is mapped (a slab, a large block, a cache descriptor) and when
    a large block or an empty descriptor is unmapped. *)

From S2P Require Import Prelude CheckedMath SizeClass Memory Layout Chain OsMemory Slab Arena SlabSpec.
From S2P Require Import LockedAllocator FreeLists LockedSpec TrimLists Trim TransferList ThreadCache HeapSpec Pool.
From S2P Require Import CachedState ThreadCacheSpec Placement.

(** The lists of the pool that are chains in memory. *)
Definition same_lists (P P' : placement) : Prop :=
  forall x c, ~ private x -> P' x c = P x c.

Lemma same_lists_pset P x c l : private x -> same_lists P (pset P x c l).
Proof. intros Hx y i Hy. rewrite pset_place; [done|]. by intros ->. Qed.

Lemma transfer_not_private : ~ private in_transfer.
Proof. by intros [?|?]. Qed.
Lemma cache_not_private d : ~ private (in_cache d).
Proof. by intros [?|?]. Qed.

#[export] Hint Resolve transfer_not_private cache_not_private : hplf.

Section steps.
Context `{Build, Platform, !PlatformLaws}.
Implicit Types (m : memory) (P : placement).

(** ** One block changes its header *)

Lemma pool_store_block m registry heads P P' k b b' :
  pool_inv m registry heads P -> objs m !! k = Some (OBlock b) -> same_block b b' ->
  0 <= requested_size b' <= capacity b -> (kind b = HPLF_BLOCK_LARGE -> 0 < requested_size b') ->
  same_lists P P' -> (forall x c, ~ private x -> k ∉ P x c) ->
  partition (free_in_class (<[k := OBlock b']> (objs m))) P' ->
  pool_inv (set_objs <[k := OBlock b']> m) registry heads P'.
Proof.
  intros I Hk Hs Hr Hl HP Hno Hpart. split; cbn.
  - eapply arena_wf_update_block; [apply I|done|done|done|done].
  - eapply registry_insert_block; [done|apply I].
  - apply I.
  - intros c head Hh. rewrite HP by auto with hplf. apply block_chain_insert_ne; [by eapply (pi_transfer _ _ _ _ I)|].
    apply Hno. auto with hplf.
  - intros d dsc Hd. assert (Hne : d <> k) by (intros ->; by rewrite lookup_insert_eq in Hd).
    rewrite lookup_insert_ne in Hd by done.
    destruct (cache_at_ext (<[k := OBlock b']> (objs m)) d (P (in_cache d)) (P' (in_cache d))) as (dsc' & Hd' & C).
    + eapply cache_at_frame; [by eapply pool_cache_at|by rewrite lookup_insert_ne|]. intros i x _ Hx.
      rewrite lookup_insert_ne; [done|]. intros ->. by apply (Hno (in_cache d) i); [auto with hplf|].
    + intros i. apply HP. auto with hplf.
    + rewrite lookup_insert_ne in Hd' by done. congruence.
  - intros d c Hd. rewrite HP by auto with hplf. apply (pi_absent _ _ _ _ I). intros dsc Hdsc. apply (Hd dsc).
    rewrite lookup_insert_ne by congruence. done.
  - done.
Qed.

(** The grasped block becomes live. *)
Lemma pool_leave m registry heads P c k b n :
  pool_inv m registry heads P -> P in_grasp c = [k] -> objs m !! k = Some (OBlock b) -> 1 <= n <= capacity b ->
  pool_inv (set_objs <[k := OBlock (set_requested_size n b)]> m) registry heads (pset P in_grasp c []).
Proof.
  intros I Hg Hk Hn. assert (Hin : k ∈ P in_grasp c) by (rewrite Hg; left).
  destruct (pool_block _ _ _ _ _ _ _ I Hin) as (b0 & Hb0 & Hz & Hkind & Hcl). assert (b0 = b) as -> by congruence.
  eapply pool_store_block; [exact I|exact Hk|done|simpl; lia|simpl; lia|apply same_lists_pset; by right| |].
  - intros x i Hx Hi. apply Hx. destruct (pool_lists_disjoint _ _ _ _ _ _ _ _ _ I Hin Hi) as [<- _]. by right.
  - eapply partition_leave; [| |exact Hg|apply I].
    + intros i b0. destruct (Z.eq_dec b0 k) as [->|Hne].
      * split; [|by intros [_ ?]]. intros Hf. exfalso. revert Hf. apply free_in_class_insert_live. simpl. lia.
      * rewrite (free_in_class_insert_ne _ _ _ _ _ _ Hk Hne). naive_solver.
    + intros i Hi. eapply free_in_class_functional; [exact Hi|]. by eapply partition_class; [apply I|].
Qed.

(** A live small block comes back. *)
Lemma pool_enter m registry heads P k b a h :
  pool_inv m registry heads P -> objs m !! k = Some (OBlock b) -> requested_size b <> 0 ->
  kind b = HPLF_BLOCK_SMALL -> owner b = owner_small a -> objs m !! a = Some (OSlab h) ->
  P in_grasp (class_index h) = [] ->
  pool_inv (set_objs <[k := OBlock (set_requested_size 0 b)]> m) registry heads (pset P in_grasp (class_index h) [k]).
Proof.
  intros I Hk Hr Hkind Ho Ha Hg. pose proof (pi_arena _ _ _ _ I) as Hwf.
  assert (Hnot : forall x c, k ∉ P x c).
  { intros x c Hx. destruct (pool_block _ _ _ _ _ _ _ I Hx) as (b0 & ? & ? & _). congruence. }
  pose proof (extent_pos _ _ _ Hwf Hk) as Hcap. simpl in Hcap. change sizeof_hplf_block with 48 in Hcap.
  eapply pool_store_block; [exact I|exact Hk|done|simpl; unfold PREFIX in *; lia|simpl; congruence
    |apply same_lists_pset; by right|intros x c _; apply Hnot|].
  pose proof (partition_enter (free_in_class (objs m)) (free_in_class (<[k := OBlock (set_requested_size 0 b)]> (objs m)))
    P in_grasp (class_index h) [k]) as Hpart.
  rewrite Hg, app_nil_r in Hpart. apply Hpart; [| |intros x ->%list_elem_of_singleton|apply I].
  - intros i x. rewrite list_elem_of_singleton. destruct (Z.eq_dec x k) as [->|Hne].
    + rewrite (free_in_class_insert_free _ _ _ _ _ _ _ Hk) by done. split; [by right|]. intros [Hf|[-> _]]; [|done].
      destruct Hf as (b0 & ? & ? & ? & _ & ? & _). congruence.
    + rewrite (free_in_class_insert_ne _ _ _ _ _ _ Hk Hne). naive_solver.
  - by apply NoDup_singleton.
  - intros (b0 & ? & ? & ? & _ & ? & _). congruence.
Qed.

(** ** New storage *)

Lemma zeroed_get (v i x : Z) : array_get (replicate (Z.to_nat HPLF_SIZE_CLASS_COUNT) v) i = Some x -> x = v.
Proof. by intros [_ [-> _]%lookup_replicate]%array_get_Some. Qed.

Lemma zeroed_cache_ok os K : (forall i, K i = []) -> cache_ok os zeroed_cache K.
Proof.
  intros HK. assert (E : cached_bytes K = cached_bytes (fun _ => [])) by (apply cached_bytes_ext; intros i _; by rewrite HK).
  split; try done.
  - intros i head Hh. rewrite HK. simpl in *. by apply zeroed_get in Hh.
  - intros i n Hn. rewrite HK. simpl in *. by apply zeroed_get in Hn.
  - rewrite E. done.
  - intros i j b _ _. rewrite HK. by intros ?%not_elem_of_nil.
Qed.

Lemma pool_grow m m' registry registry' heads P P' :
  pool_inv m registry heads P -> arena_wf m' ->
  (forall k o, objs m !! k = Some o -> (forall h, o <> OSlab h) -> objs m' !! k = Some o) ->
  (forall d dsc, objs m' !! d = Some (ODescriptor dsc) -> objs m !! d = Some (ODescriptor dsc) \/
     (objs m !! d = None /\ desc_cache dsc = zeroed_cache)) ->
  registry_ok (objs m') registry' -> same_lists P P' -> partition (free_in_class (objs m')) P' ->
  pool_inv m' registry' heads P'.
Proof.
  intros I Hwf Hold Hnew Hreg HP Hpart.
  assert (Hframe : forall x c k, k ∈ P x c -> objs m' !! k = objs m !! k).
  { intros x c k Hk. destruct (pool_block _ _ _ _ _ _ _ I Hk) as (b & Hb & _). rewrite Hb. by apply Hold. }
  split; [done|done|apply I| | | |done].
  - intros c head Hh. rewrite HP by auto with hplf. eapply chain_ext; [by eapply (pi_transfer _ _ _ _ I)|].
    intros k Hk. unfold block_next, block_at. by rewrite (Hframe _ _ _ Hk).
  - intros d dsc Hd. destruct (Hnew _ _ Hd) as [Hd0|[Hd0 ->]].
    + destruct (cache_at_ext (objs m') d (P (in_cache d)) (P' (in_cache d))) as (dsc' & Hd' & C).
      * eapply cache_at_frame; [by eapply pool_cache_at|congruence|]. intros i b _ Hb. by eapply Hframe.
      * intros i. apply HP. auto with hplf.
      * congruence.
    + apply zeroed_cache_ok. intros i. rewrite HP by auto with hplf. apply (pi_absent _ _ _ _ I). congruence.
  - intros d c Hd. rewrite HP by auto with hplf. apply (pi_absent _ _ _ _ I). intros dsc Hdsc.
    apply (Hd dsc). by apply Hold.
Qed.

(** An object without slots in a fresh region. *)
Lemma region_base_free m base len : arena_wf m -> fresh_region (maps m) base len -> 0 < len -> objs m !! base = None.
Proof.
  intros Hwf Hf Hlen. destruct (objs m !! base) as [o|] eqn:E; [|done].
  pose proof (fresh_region_objects _ _ _ _ _ Hwf Hf E). pose proof (extent_pos _ _ _ Hwf E). pose proof (sizeof_pos o). lia.
Qed.

Lemma pool_new_object m registry heads P base len o :
  pool_inv m registry heads P -> fresh_region (maps m) base len -> 0 < len ->
  let m' := set_objs <[base := o]> (map_region base len m) in
  object_ok m' base o -> (forall h, o <> OSlab h) -> (forall d, o = ODescriptor d -> desc_cache d = zeroed_cache) ->
  (forall c, ~ free_in_class (objs m') c base) ->
  pool_inv m' registry heads P.
Proof.
  intros I Hf Hlen m' Hok Hns Hz Hnf. pose proof (pi_arena _ _ _ _ I) as Hwf.
  pose proof (region_base_free _ _ _ Hwf Hf Hlen) as Hnone.
  assert (Hold : forall k o', objs m !! k = Some o' -> objs m' !! k = Some o').
  { intros k o' Hk. cbn. rewrite lookup_insert_ne by congruence. done. }
  assert (Hslab : forall a h, objs m' !! a = Some (OSlab h) <-> objs m !! a = Some (OSlab h)).
  { intros a h. split; [|apply Hold]. cbn. rewrite lookup_insert. case_decide; [|done]. intros [= E]. by destruct (Hns h). }
  eapply pool_grow; [exact I| | | | |done|].
  - eapply arena_wf_extend; [done|done|done|done|done|]. intros k o'. cbn. rewrite lookup_insert.
    case_decide; [|by left]. intros [= <-]. subst k. by right.
  - intros k o' Hk _. by apply Hold.
  - intros d dsc. cbn. rewrite lookup_insert. case_decide; [|by left]. intros [= ->]. subst d. right. split; [done|]. by apply Hz.
  - destruct (pi_registry _ _ _ _ I) as (sl & Hch & Hin). exists sl. split; [|by setoid_rewrite Hslab].
    eapply chain_ext; [done|]. intros a [h Ha]%Hin. unfold slab_next_of, slab_at.
    by rewrite (proj2 (Hslab _ _) Ha), Ha.
  - eapply partition_ext; [|done|apply I]. intros c k. split.
    + intros Hfk. assert (Hne : k <> base) by (intros ->; by apply (Hnf c)).
      destruct Hfk as (b & a & h & Hb & ? & ? & ? & Ha%Hslab & ?). exists b, a, h. split_and!; try done.
      cbn in Hb. by rewrite lookup_insert_ne in Hb.
    + intros (b & a & h & Hb & ? & ? & ? & Ha & ?). exists b, a, h. split_and!; auto.
Qed.

(** A created and registered slab: its slots join the hand. *)
Lemma pool_new_slab m m' registry heads P c a head h l :
  pool_inv m registry heads P -> slab_created m m' c a head h l -> P in_hand c = [] ->
  pool_inv (set_objs <[a := OSlab (set_slab_next registry h)]> m') a heads (pset P in_hand c l).
Proof.
  intros I SC Hh. pose proof (pi_arena _ _ _ _ I) as Hwf. pose proof (sc_slab _ _ _ _ _ _ _ SC) as Ha.
  assert (Hnone : objs m !! a = None) by apply SC.
  assert (Hold : forall k o, objs m !! k = Some o -> objs (set_objs <[a := OSlab (set_slab_next registry h)]> m') !! k = Some o).
  { intros k o Hk. cbn. rewrite lookup_insert_ne by congruence. by eapply (sc_old _ _ _ _ _ _ _ SC). }
  eapply pool_grow; [exact I| | | | |apply same_lists_pset; by left|].
  - eapply arena_wf_update_slab_next; [apply SC|done].
  - intros k o Hk _. by apply Hold.
  - intros d dsc. cbn. rewrite lookup_insert. case_decide; [done|]. intros Hd. left.
    destruct (sc_new _ _ _ _ _ _ _ SC _ _ Hd) as [?|[->|Hl]]; [done|done|].
    destruct (sc_free _ _ _ _ _ _ _ SC _ Hl) as (b & ? & _). congruence.
  - eapply registry_new_slab; [apply I|exact SC].
  - eapply partition_ext; [|done|].
    + intros c' b. by apply (free_in_class_update_slab _ _ _ registry).
    + pose proof (partition_enter (free_in_class (objs m)) (free_in_class (objs m')) P in_hand c l) as Hpart.
      rewrite Hh, app_nil_r in Hpart. apply Hpart; [| | |apply I].
      * intros i b. apply (slab_created_free _ _ _ _ _ _ _ _ _ Hwf SC).
      * eapply chain_NoDup, SC.
      * intros b Hb (blk & ? & ? & Hblk & _). pose proof (sc_fresh_blocks _ _ _ _ _ _ _ SC _ Hb). congruence.
Qed.

(** ** Storage that goes away *)

(** The mapping of an object that is not a slab and holds no free block. *)
Lemma pool_unmap m registry heads P k o len :
  pool_inv m registry heads P -> objs m !! k = Some o -> (forall h, o <> OSlab h) -> home k o = k ->
  maps m !! k = Some len -> (forall x c, k ∉ P x c) -> (forall c, P (in_cache k) c = []) ->
  pool_inv (unmap_region k len m) registry heads P.
Proof.
  intros I Hk Hns Hhome Hmap Hno Hempty. pose proof (pi_arena _ _ _ _ I) as Hwf.
  pose proof (unmap_single _ _ _ _ Hwf Hk Hns Hhome Hmap) as Hobj.
  assert (Hkeep : forall k' o', k' <> k -> objs m !! k' = Some o' -> objs (unmap_region k len m) !! k' = Some o').
  { intros k' o' Hne Hk'. rewrite Hobj. by rewrite decide_False. }
  assert (Hsub : forall k' o', objs (unmap_region k len m) !! k' = Some o' -> k' <> k /\ objs m !! k' = Some o').
  { intros k' o'. rewrite Hobj. by case_decide. }
  assert (Hslab : forall a h, objs (unmap_region k len m) !! a = Some (OSlab h) <-> objs m !! a = Some (OSlab h)).
  { intros a h. split; [apply Hsub|]. intros Ha. apply Hkeep; [|done]. intros ->. rewrite Hk in Ha. simplify_eq. by destruct (Hns h). }
  assert (Hframe : forall x c b, b ∈ P x c -> objs (unmap_region k len m) !! b = objs m !! b).
  { intros x c b Hb. rewrite Hobj, decide_False; [done|]. intros ->. by apply (Hno x c). }
  split; [by apply arena_wf_unmap| |apply I| | | |].
  - destruct (pi_registry _ _ _ _ I) as (sl & Hch & Hin). exists sl. split; [|by setoid_rewrite Hslab].
    eapply chain_ext; [done|]. intros a [h Ha]%Hin. unfold slab_next_of, slab_at.
    by rewrite (proj2 (Hslab _ _) Ha), Ha.
  - intros c head Hh. eapply chain_ext; [by eapply (pi_transfer _ _ _ _ I)|]. intros b Hb. unfold block_next, block_at.
    by rewrite (Hframe _ _ _ Hb).
  - intros d dsc [Hne Hd]%Hsub. eapply cache_ok_frame; [by apply (pi_cache _ _ _ _ I)|]. intros i b _ Hb. by eapply Hframe.
  - intros d c Hd. destruct (Z.eq_dec d k) as [->|Hne]; [apply Hempty|]. apply (pi_absent _ _ _ _ I).
    intros dsc Hdsc. apply (Hd dsc). by apply Hkeep.
  - eapply partition_ext; [|done|apply I]. intros c b. split.
    + intros (blk & a & h & Hb & ? & ? & ? & Ha & ?). exists blk, a, h. split_and!; try done; by apply Hsub.
    + intros Hf. pose proof Hf as (blk & a & h & Hb & ? & ? & ? & Ha & ?). exists blk, a, h. split_and!; try done; [|by apply Hslab].
      apply Hkeep; [|done]. intros ->. apply (pt_exact _ _ (pi_free _ _ _ _ I)) in Hf as [x Hx]. by apply (Hno x c).
Qed.
End steps.
