(* ===== verification/TransferSpec.v ===== *)
(** * Specifications of the mutex transfers

    The invariant of the whole cached state, and publish and detach
    (src/transfer_mutex.c) as moves between the running operation's hands and the
    shared lists. *)

From S2P Require Import Prelude CheckedMath SizeClass Memory Layout Chain OsMemory Slab Arena SlabSpec.
From S2P Require Import LockedAllocator FreeLists LockedSpec TrimLists Trim TransferList ThreadCache HeapSpec Pool.
From S2P Require Import CachedState ThreadCacheSpec Placement PoolSteps.

(** ** Definitions *)

Record cached_inv `{Platform} (P : placement) (s : cached_allocator) : Prop := {
  cv_transfers : transfers_held s = false;
  cv_pool : pool_inv (c_mem s) (slabs (base s)) (transfer_heads s) P;
  cv_threads : threads_ok (c_objs s) (threads s)
}.

(** Only links of free blocks and contents of caches differ, and the shared heads. *)
Record shuffled (s s' : cached_allocator) : Prop := {
  sh_mem : reshuffled (c_mem s) (c_mem s');
  sh_threads : threads s' = threads s;
  sh_slabs : slabs (base s') = slabs (base s);
  sh_held : registry_held (base s') = registry_held (base s)
}.

Definition with_c_mem (m : memory) (s : cached_allocator) : cached_allocator :=
  set_base (set_mach (set_mem m (mach (base s))) (base s)) s.
Definition ticked (s : cached_allocator) : cached_allocator :=
  set_base (set_mach (count_call (mach (base s))) (base s)) s.

Section frames.
Implicit Types (s : cached_allocator).

Lemma shuffled_refl s : shuffled s s.
Proof. split; [apply reshuffled_refl|done..]. Qed.

Lemma shuffled_trans s1 s2 s3 : shuffled s1 s2 -> shuffled s2 s3 -> shuffled s1 s3.
Proof.
  intros A B. split; [eapply reshuffled_trans; [apply A|apply B]|..].
  - by rewrite (sh_threads _ _ B), (sh_threads _ _ A).
  - by rewrite (sh_slabs _ _ B), (sh_slabs _ _ A).
  - by rewrite (sh_held _ _ B), (sh_held _ _ A).
Qed.

Lemma shuffled_mem s m : reshuffled (c_mem s) m -> shuffled s (with_c_mem m s).
Proof. by split. Qed.

Lemma wp_on_base {A} (p : prog hplf_allocator_state A) (Q : A -> cached_allocator -> Prop) s :
  wp p (fun a b => Q a (set_base b s)) (base s) -> wp (on_base p) Q s.
Proof. intros. unfold on_base. by wp_steps. Qed.

Lemma wp_on_c_machine {A} (p : prog machine A) (Q : A -> cached_allocator -> Prop) s :
  wp p (fun a t => Q a (set_base (set_mach t (base s)) s)) (mach (base s)) -> wp (on_c_machine p) Q s.
Proof. intros. unfold on_c_machine. apply wp_on_base, wp_on_machine. done. Qed.

Lemma wp_on_c_mem {A} (p : prog memory A) (Q : A -> cached_allocator -> Prop) s :
  wp p (fun a m => Q a (with_c_mem m s)) (c_mem s) -> wp (on_c_mem p) Q s.
Proof. intros. unfold on_c_mem, on_memory. apply wp_on_c_machine. by wp_steps. Qed.

Lemma with_c_mem_same s : with_c_mem (c_mem s) s = s.
Proof. by destruct s as [[[]]]. Qed.

Lemma wp_set_errno_c e (Q : unit -> cached_allocator -> Prop) s :
  Q tt (set_base (set_mach (put_errno e (mach (base s))) (base s)) s) -> wp (set_errno_c e) Q s.
Proof. done. Qed.

Lemma wp_update_thread self f (Q : unit -> cached_allocator -> Prop) s :
  Q tt (set_threads <[self := f (thread_of self s)]> s) -> wp (update_thread self f) Q s.
Proof. done. Qed.
End frames.

(** ** Publish and detach *)

Section transfers.
Context `{Build, Platform, !PlatformLaws, Pthreads, !PthreadLaws}.
Implicit Types (s : cached_allocator) (P : placement).

Lemma wp_transfers_lock (Q : unit -> cached_allocator -> Prop) s :
  transfers_held s = false -> Q tt (set_transfers_held true (ticked s)) -> wp transfers_lock Q s.
Proof.
  intros Hh HQ. unfold transfers_lock. wp_step. wp_step. wp_step. apply wp_on_c_machine, wp_tick.
  rewrite Hh, transfer_lock_succeeds. cbn [Z.eqb]. by wp_steps.
Qed.

Lemma wp_transfers_unlock (Q : unit -> cached_allocator -> Prop) s :
  transfers_held s = true -> Q tt (set_transfers_held false (ticked s)) -> wp transfers_unlock Q s.
Proof.
  intros Hh HQ. unfold transfers_unlock. wp_step. wp_step. wp_step. apply wp_on_c_machine, wp_tick.
  wp_step. apply wp_demand; [done|]. rewrite mutex_unlock_succeeds. cbn [Z.eqb]. by wp_steps.
Qed.

Lemma wp_transfer_head c head (Q : Z -> cached_allocator -> Prop) s :
  array_get (transfer_heads s) c = Some head -> Q head s -> wp (transfer_head c) Q s.
Proof. intros. unfold transfer_head. wp_steps. by eapply wp_known. Qed.

Lemma wp_set_transfer_head c old p (Q : unit -> cached_allocator -> Prop) s :
  array_get (transfer_heads s) c = Some old ->
  Q tt (set_transfer_heads (<[Z.to_nat c := p]> (transfer_heads s)) s) -> wp (set_transfer_head c p) Q s.
Proof. intros. unfold set_transfer_head. wp_steps. by eapply wp_known. Qed.

(** The pool after a change of memory and heads. *)
Lemma cached_inv_intro P P' s s' :
  cached_inv P s -> transfers_held s' = false -> reshuffled (c_mem s) (c_mem s') -> threads s' = threads s ->
  pool_inv (c_mem s') (slabs (base s')) (transfer_heads s') P' -> cached_inv P' s'.
Proof.
  intros V Ht R Hth I. split; [done|done|]. rewrite Hth. eapply threads_ok_reshuffled; [apply V|done].
Qed.

Lemma cached_inv_ext P P' s : cached_inv P s -> (forall x c, P' x c = P x c) -> cached_inv P' s.
Proof. intros V HP. split; [apply V| |apply V]. eapply pool_ext; [apply V|done]. Qed.

(** The shared list of a class, as it is in memory. *)
Definition shared_list (s : cached_allocator) (c : Z) (l : list Z) : Prop :=
  exists head, array_get (transfer_heads s) c = Some head /\ chain (block_next (c_objs s)) head l.

Lemma shared_list_functional s c l1 l2 : shared_list s c l1 -> shared_list s c l2 -> l1 = l2.
Proof. intros (h1 & E1 & C1) (h2 & E2 & C2). simplify_eq. by eapply chain_functional. Qed.

Definition published_to (P : placement) (z : place) (c : Z) : placement :=
  pset (pset P in_transfer c (P z c ++ P in_transfer c)) z c [].

Lemma pool_get_head s P c :
  cached_inv P s -> 0 <= c < HPLF_SIZE_CLASS_COUNT ->
  exists head, array_get (transfer_heads s) c = Some head /\ chain (block_next (c_objs s)) head (P in_transfer c).
Proof.
  intros V Hc. destruct (array_get_class (transfer_heads s) c) as [head Hh]; [apply V|done|].
  exists head. split; [done|]. eapply pi_transfer; [apply V|done].
Qed.

Lemma pool_shared_list s P c : cached_inv P s -> 0 <= c < HPLF_SIZE_CLASS_COUNT -> shared_list s c (P in_transfer c).
Proof. apply pool_get_head. Qed.

(** Publishing writes only the link of the last published block. *)
Lemma wp_publish_frame P z c t s :
  cached_inv P s -> private z -> 0 <= c < HPLF_SIZE_CLASS_COUNT -> describes (c_objs s) t (P z c) ->
  wp (hplf_transfer_mutex_publish c t) (fun t' s' =>
    t' = hplf_transfer_list_clear /\ shuffled s s' /\ cached_inv (published_to P z c) s' /\
    forall k, k ∉ P z c -> c_objs s' !! k = c_objs s !! k) s.
Proof.
  intros V Hz Hc Hdes. pose proof (cv_pool _ _ V) as I. unfold hplf_transfer_mutex_publish.
  destruct (Z.eqb_spec (tl_first t) NULL) as [E|E].
  { pose proof E as Hnil. apply (describes_nil_iff _ _ _ (de_prefix _ _ _ Hdes)) in Hnil. wp_steps.
    destruct Hdes as [[_ Hn] Hl]. rewrite Hnil in *. split_and!.
    - destruct t. cbn in *. by subst.
    - apply shuffled_refl.
    - eapply cached_inv_ext; [exact V|]. intros x i. unfold published_to, pset.
      repeat case_decide; destruct_and?; subst; rewrite ?Hnil; done.
    - done. }
  assert (Hne : P z c <> []) by (intros Hn; by apply (describes_nil_iff _ _ _ (de_prefix _ _ _ Hdes)) in Hn).
  destruct (describes_last _ _ _ Hdes Hne) as [l0 Hl0].
  destruct (pool_get_head _ _ _ V Hc) as (head & Hget & Hch).
  assert (Hlast : tl_last t ∈ P z c) by (rewrite Hl0; set_solver).
  destruct (pool_block _ _ _ _ _ _ _ I Hlast) as (b & Hb & _).
  wp_step. apply wp_transfers_lock; [apply V|]. wp_step. eapply wp_transfer_head; [done|].
  wp_step. apply wp_on_c_mem. eapply wp_store_block; [by apply block_at_Some|].
  wp_step. eapply wp_set_transfer_head; [done|]. wp_step. apply wp_transfers_unlock; [done|]. wp_steps.
  pose proof (reworked_store_link _ _ _ head Hb) as R.
  assert (Rs : reshuffled (c_mem s) (set_objs <[tl_last t := OBlock (set_next_free head b)]> (c_mem s))).
  { eapply pool_reshuffled; [exact I|exact R|]. intros k ->%list_elem_of_singleton. by exists z, c. }
  split; [done|]. split; [by split|]. split; [|intros k Hk; cbn; apply lookup_insert_ne; congruence].
  eapply cached_inv_intro; [exact V|done|exact Rs|done|].
  change (pool_inv (set_objs <[tl_last t := OBlock (set_next_free head b)]> (c_mem s)) (slabs (base s))
    (<[Z.to_nat c := tl_first t]> (transfer_heads s)) (published_to P z c)).
  eapply pool_transfer_move; [exact I|done|done|exact R| | |].
  - intros k ->%list_elem_of_singleton. by right.
  - rewrite app_nil_r. apply Permutation_app_comm.
  - pose proof (dp_chain _ _ _ (de_prefix _ _ _ Hdes)) as Hchz. rewrite Hl0 in *.
    destruct (chain_snoc_inv _ _ _ _ Hchz) as (Hseg & Hx0 & _). rewrite <- app_assoc.
    assert (Hnd : NoDup (l0 ++ [tl_last t])) by (by eapply chain_NoDup).
    apply NoDup_app in Hnd as (_ & Hdis & _). cbn [set_objs objs]. eapply chain_snoc_intro; [|done| |].
    + eapply seg_ext; [exact Hseg|]. intros k Hk. rewrite block_next_insert, decide_False; [done|].
      intros ->. apply (Hdis _ Hk). left.
    + by rewrite block_next_insert, decide_True.
    + apply block_chain_insert_ne; [done|]. intros Hin.
      assert (Hz' : z = in_transfer); [|destruct Hz; congruence].
      rewrite <- Hl0 in Hlast. by eapply (pool_lists_disjoint _ _ _ _ _ _ _ _ _ I Hlast).
Qed.

Lemma wp_publish P z c t s :
  cached_inv P s -> private z -> 0 <= c < HPLF_SIZE_CLASS_COUNT -> describes (c_objs s) t (P z c) ->
  wp (hplf_transfer_mutex_publish c t) (fun t' s' =>
    t' = hplf_transfer_list_clear /\ shuffled s s' /\ cached_inv (published_to P z c) s') s.
Proof.
  intros V Hz Hc Hdes. eapply wp_mono; [by apply (wp_publish_frame P z)|]. by intros t' s' (? & ? & ? & _).
Qed.

(** After the head was taken, the chain is private. *)
Definition detached_from (P : placement) (c : Z) : placement :=
  pset (pset P in_transfer c []) in_hand c (P in_transfer c).

Lemma wp_detach_list P c s :
  cached_inv P s -> P in_hand c = [] -> 0 <= c < HPLF_SIZE_CLASS_COUNT ->
  wp (hplf_transfer_mutex_detach c) (fun t s' =>
    describes (c_objs s') t (P in_transfer c) /\ shuffled s s' /\ c_mem s' = c_mem s /\
    cached_inv (detached_from P c) s') s.
Proof.
  intros V Hh Hc. pose proof (cv_pool _ _ V) as I. unfold hplf_transfer_mutex_detach, detached_from.
  destruct (pool_get_head _ _ _ V Hc) as (head & Hget & Hch).
  wp_step. apply wp_transfers_lock; [apply V|]. wp_step. eapply wp_transfer_head; [done|].
  wp_step. eapply wp_set_transfer_head; [done|]. wp_step. apply wp_transfers_unlock; [done|].
  apply wp_on_c_mem. cbn [c_mem base mach set_base set_mach]. eapply wp_mono.
  { eapply (wp_from_chain _ head (P in_transfer c)); [exact Hch|by eapply pool_length]. }
  intros t m' (-> & _ & Hdes). split; [exact Hdes|]. split; [split; [apply reshuffled_refl|done..]|]. split; [done|].
  eapply cached_inv_intro; [exact V|done|apply reshuffled_refl|done|].
  cbn. eapply (pool_transfer_move _ _ _ _ _ []); [exact I|by left|exact Hget|apply reworked_refl; by intros k ?%not_elem_of_nil|..].
  - by intros k ?%not_elem_of_nil.
  - by rewrite Hh, app_nil_r.
  - done.
Qed.
End transfers.
