(* ===== verification/LifecycleSpec.v ===== *)
(** * Specifications of the thread-cache lifecycle

    Flushing a cache publishes every cached block; acquiring a cache maps and
    registers an empty descriptor or leaves the thread uncached; destroying a
    descriptor publishes its blocks before it is unmapped
    (src/thread_cache_lifecycle.c). *)

From S2P Require Import Prelude CheckedMath SizeClass Memory Layout Chain OsMemory Slab Arena SlabSpec.
From S2P Require Import LockedAllocator FreeLists LockedSpec TrimLists Trim TransferList ThreadCache HeapSpec Pool.
From S2P Require Import CachedState Lifecycle ThreadCacheSpec Placement PoolSteps TransferSpec.

(** ** Effects *)

(** Nothing but counters, system-call count and error numbers changed. *)
Record quiet (s s' : cached_allocator) : Prop := {
  qu_mem : c_mem s' = c_mem s;
  qu_slabs : slabs (base s') = slabs (base s);
  qu_held : registry_held (base s') = registry_held (base s);
  qu_transfers : transfers_held s' = transfers_held s;
  qu_heads : transfer_heads s' = transfer_heads s;
  qu_threads : threads s' = threads s
}.

(** The abstract content and the registry lock are as before. *)
Record discreet (s s' : cached_allocator) : Prop := {
  di_mem : unchanged (c_mem s) (c_mem s');
  di_held : registry_held (base s') = registry_held (base s)
}.

Section effects.
Context `{Build, Platform, !PlatformLaws}.
Implicit Types (s : cached_allocator) (m : memory).

Lemma unchanged_trans m1 m2 m3 : unchanged m1 m2 -> unchanged m2 m3 -> unchanged m1 m3.
Proof.
  intros [L1 P1] [L2 P2]. split; [congruence|]. eapply preserved_trans_eq; [done|done|].
  intros k n Hk _. by rewrite L1.
Qed.

Lemma quiet_refl s : quiet s s.
Proof. done. Qed.

Lemma quiet_trans s1 s2 s3 : quiet s1 s2 -> quiet s2 s3 -> quiet s1 s3.
Proof. intros [] []. split; congruence. Qed.

Lemma quiet_discreet s s' : quiet s s' -> discreet s s'.
Proof. intros Q. split; [rewrite (qu_mem _ _ Q); apply unchanged_refl|apply Q]. Qed.

Lemma shuffled_discreet s s' : shuffled s s' -> discreet s s'.
Proof. intros Q. split; [by apply reshuffled_unchanged, Q|apply Q]. Qed.

Lemma discreet_refl s : discreet s s.
Proof. split; [apply unchanged_refl|done]. Qed.

Lemma discreet_trans s1 s2 s3 : discreet s1 s2 -> discreet s2 s3 -> discreet s1 s3.
Proof. intros [] []. split; [by eapply unchanged_trans|congruence]. Qed.

Lemma cached_inv_quiet P s s' : cached_inv P s -> quiet s s' -> cached_inv P s'.
Proof.
  intros V Q. split.
  - rewrite (qu_transfers _ _ Q). apply V.
  - rewrite (qu_mem _ _ Q), (qu_slabs _ _ Q), (qu_heads _ _ Q). apply V.
  - rewrite (qu_mem _ _ Q), (qu_threads _ _ Q). apply V.
Qed.

(** Bytes of live blocks are outside any region that holds no block. *)
Lemma unchanged_map_object m base len o :
  arena_wf m -> fresh_region (maps m) base len -> 0 < len -> (forall b, o <> OBlock b) ->
  unchanged m (set_objs <[base := o]> (map_region base len m)).
Proof.
  intros Hwf Hf Hlen Hnb. pose proof (region_base_free _ _ _ Hwf Hf Hlen) as Hnone.
  assert (Hblk : forall k b, objs (set_objs <[base := o]> (map_region base len m)) !! k = Some (OBlock b) <->
                        objs m !! k = Some (OBlock b)).
  { intros k b. cbn. rewrite lookup_insert. case_decide; [|done]. subst. rewrite Hnone. split; [|done].
    intros [= ->]. by destruct (Hnb b). }
  split.
  - apply map_eq. intros k. apply option_eq. intros n. rewrite !lookup_live. by setoid_rewrite Hblk.
  - intros k n Hk _. split.
    + apply lookup_live in Hk as (b & Hb & _). by rewrite (proj2 (Hblk _ _) Hb), Hb.
    + intros i Hi. change (byte_at (map_region base len m) (k + PREFIX + i) = byte_at m (k + PREFIX + i)).
      rewrite byte_at_map_region, decide_False; [done|]. by eapply payload_not_inside.
Qed.

Lemma unchanged_unmap_descriptor m d dsc :
  arena_wf m -> objs m !! d = Some (ODescriptor dsc) -> unchanged m (unmap_region d (desc_mapping_length dsc) m).
Proof.
  intros Hwf Hd. pose proof (aw_objs _ Hwf _ _ Hd) as (_ & Hmap & Hsize). simpl in *.
  assert (Hobj : forall k', objs (unmap_region d (desc_mapping_length dsc) m) !! k' =
                            if decide (k' = d) then None else objs m !! k').
  { by eapply unmap_single. }
  assert (Hblk : forall k b, objs (unmap_region d (desc_mapping_length dsc) m) !! k = Some (OBlock b) <->
                        objs m !! k = Some (OBlock b)).
  { intros k b. rewrite Hobj. case_decide; [|done]. subst. rewrite Hd. done. }
  split.
  - apply map_eq. intros k. apply option_eq. intros n. rewrite !lookup_live. by setoid_rewrite Hblk.
  - intros k n (b & Hb & Hr & Hn)%lookup_live _. split; [by rewrite (proj2 (Hblk _ _) Hb), Hb|].
    intros i Hi. apply byte_at_unmap_region. intros Hins.
    assert (Hne : home k (OBlock b) <> d).
    { destruct (object_home _ _ _ Hwf Hb) as (len & Hm & _).
      intros E. pose proof (aw_objs _ Hwf _ _ Hb) as [(a & h & j & S)|L]; simpl in E.
      - rewrite (sm_owner _ _ _ _ _ _ S) in E. pose proof (sm_slab _ _ _ _ _ _ S). congruence.
      - rewrite (lg_owner _ _ _ L) in E. congruence. }
    destruct (object_home _ _ _ Hwf Hb) as (len & Hm & Hlo & Hhi).
    pose proof (aw_disjoint _ Hwf _ _ _ _ Hm Hmap Hne) as Hdis. simpl extent in Hhi.
    assert (requested_size b <= capacity b).
    { pose proof (aw_objs _ Hwf _ _ Hb) as [(a & h & j & [])|[]]; lia. }
    unfold inside, PREFIX in *. lia.
Qed.

(** ** System calls and counters *)

Lemma wp_mmap len (Q : option Z -> machine -> Prop) (t : machine) :
  0 < len ->
  (forall base t', fresh_region (maps (mem t)) base len -> mem t' = map_region base len (mem t) -> Q (Some base) t') ->
  (forall t', mem t' = mem t -> Q None t') -> wp (mmap len) Q t.
Proof.
  intros Hlen HS HN. unfold mmap. wp_steps. apply wp_tick. wp_steps. cbn.
  destruct (sys_mmap _ _ _) as [base|e] eqn:E.
  - wp_steps. apply HS; [by eapply mmap_fresh|done].
  - unfold set_errno. wp_steps. by apply HN.
Qed.

Lemma wp_munmap base len (Q : Z -> machine -> Prop) (t : machine) :
  maps (mem t) !! base = Some len ->
  (forall t', mem t' = unmap_region base len (mem t) -> Q 0 t') ->
  (forall t', mem t' = mem t -> unmap_can_fail -> Q (-1) t') -> wp (munmap base len) Q t.
Proof.
  intros Hmap HS HN. unfold munmap. wp_steps. apply wp_tick. wp_steps; [done|]. cbn.
  destruct (sys_munmap _ _ _) as [e|] eqn:E.
  - unfold set_errno. wp_steps. apply HN; [done|]. right. by do 3 eexists.
  - wp_steps. by apply HS.
Qed.

Lemma wp_test_add c v (Q : unit -> cached_allocator -> Prop) s :
  (forall s', quiet s s' -> Q tt s') -> wp (test_add c v) Q s.
Proof. intros HQ. unfold test_add, stat_add, stat_load, stat_store. destruct HPLF_TESTING; wp_steps; by apply HQ. Qed.

Lemma wp_stat_load c (Q : Z -> cached_allocator -> Prop) s : (forall v, Q v s) -> wp (stat_load c) Q s.
Proof. intros HQ. unfold stat_load. wp_steps. apply HQ. Qed.
End effects.

(** ** Flushing *)

(** The classes from [from] on of the cache at [d] moved to the shared lists. *)
Definition flushed (P : placement) (d from : Z) : placement := fun x i =>
  if decide (from <= i < HPLF_SIZE_CLASS_COUNT) then
    if decide (x = in_transfer) then P (in_cache d) i ++ P in_transfer i
    else if decide (x = in_cache d) then [] else P x i
  else P x i.

(** How many blocks that moves. *)
Definition cached_blocks (K : cache_contents) (from : Z) : Z :=
  foldr (fun i acc => Z.of_nat (length (K i)) + acc) 0 (seqZ from (HPLF_SIZE_CLASS_COUNT - from)).

Section flush.
Context `{Build, Platform, !PlatformLaws, Pthreads, !PthreadLaws}.
Implicit Types (s : cached_allocator) (P : placement).

Definition has_descriptor (m : memory) (d : Z) : Prop := exists dsc, objs m !! d = Some (ODescriptor dsc).

(** Extraction of a whole class into the hand. *)
Lemma wp_extract_to_hand P d i cap s :
  cached_inv P s -> has_descriptor (c_mem s) d -> is_class i cap -> P in_hand i = [] ->
  wp (on_c_mem (hplf_thread_cache_extract_class d i SIZE_MAX)) (fun r s' =>
    shuffled s s' /\ has_descriptor (c_mem s') d /\
    ((r = (false, hplf_transfer_list_clear) /\ P (in_cache d) i = [] /\ cached_inv P s') \/
     (r.1 = true /\ describes (c_objs s') r.2 (P (in_cache d) i) /\
      cached_inv (pset (pset P (in_cache d) i []) in_hand i (P (in_cache d) i)) s'))) s.
Proof.
  intros V [dsc Hd] Hcl Hh. pose proof (cv_pool _ _ V) as I. pose proof (pool_cache_at _ _ _ _ _ _ I Hd) as Hca.
  pose proof (pool_length _ _ _ _ (in_cache d) i I) as Hlen. apply wp_on_c_mem.
  eapply wp_mono; [eapply (wp_cache_extract d (P (in_cache d)) i cap); [done|done|unfold SIZE_MAX, WORD; lia|done]|].
  intros r m' [(-> & -> & [HK|Hz])|(l1 & l2 & Hr & Hsp & Hne & Hl1 & Hdes & R & Hca')]; [| |].
  - rewrite with_c_mem_same. split; [apply shuffled_refl|]. split; [by exists dsc|]. by left.
  - exfalso. unfold SIZE_MAX, WORD in Hz. lia.
  - assert (l2 = []) as ->. { rewrite Hsp, length_app in *. destruct l2; [done|]. simpl length in *. lia. }
    rewrite app_nil_r in Hsp. subst l1.
    assert (Rs : reshuffled (c_mem s) m').
    { eapply pool_reshuffled; [exact I|exact R|]. intros k Hk. by eexists _, _. }
    split; [by apply shuffled_mem|]. split; [destruct Hca' as (dsc' & ? & _); by exists dsc'|].
    right. split; [done|]. split; [exact Hdes|].
    eapply cached_inv_intro; [exact V|apply V|exact Rs|done|]. cbn.
    eapply pool_cache_move; [exact I|by left|exact R| | |exact Hca'].
    + intros k Hk. by left.
    + by rewrite Hh, app_nil_r.
Qed.

Lemma flushed_step P d i x c :
  P in_hand i = [] -> 0 <= i < HPLF_SIZE_CLASS_COUNT ->
  flushed (published_to (pset (pset P (in_cache d) i []) in_hand i (P (in_cache d) i)) in_hand i) d (i + 1) x c =
  flushed P d i x c.
Proof.
  intros Hh Hi. unfold flushed, published_to, pset. destruct (Z.eq_dec c i) as [->|Hne].
  - rewrite decide_False by lia. rewrite (decide_True (P := i <= i < HPLF_SIZE_CLASS_COUNT)) by lia.
    repeat case_decide; destruct_and?; simplify_eq; naive_solver.
  - assert (E : forall y, decide (y = x /\ c = i) = decide (y = x /\ c = i)) by done.
    destruct (decide (i <= c < HPLF_SIZE_CLASS_COUNT)).
    + rewrite (decide_True (P := i + 1 <= c < HPLF_SIZE_CLASS_COUNT)) by lia.
      repeat case_decide; destruct_and?; simplify_eq; done.
    + rewrite (decide_False (P := i + 1 <= c < HPLF_SIZE_CLASS_COUNT)) by lia.
      repeat case_decide; destruct_and?; simplify_eq; done.
Qed.

Lemma flushed_skip P d i x c :
  P (in_cache d) i = [] -> flushed P d (i + 1) x c = flushed P d i x c.
Proof.
  intros HK. unfold flushed. destruct (Z.eq_dec c i) as [->|Hne].
  - rewrite decide_False by lia. case_decide; [|done]. repeat case_decide; subst; rewrite ?HK; done.
  - repeat case_decide; try lia; done.
Qed.

Lemma flushed_end P d x c : flushed P d HPLF_SIZE_CLASS_COUNT x c = P x c.
Proof. unfold flushed. by rewrite decide_False by lia. Qed.

Lemma cached_blocks_step K i :
  0 <= i < HPLF_SIZE_CLASS_COUNT -> cached_blocks K i = Z.of_nat (length (K i)) + cached_blocks K (i + 1).
Proof.
  intros Hi. unfold cached_blocks. rewrite seqZ_cons by lia. simpl.
  do 3 f_equal; lia.
Qed.

Lemma cached_blocks_ext K K' from :
  (forall i, from <= i -> length (K' i) = length (K i)) -> cached_blocks K' from = cached_blocks K from.
Proof.
  intros HK. unfold cached_blocks. assert (Hin : forall i, i ∈ seqZ from (HPLF_SIZE_CLASS_COUNT - from) -> from <= i)
    by (intros i ?%elem_of_seqZ; lia).
  induction (seqZ from _) as [|i l IH]; [done|]. simpl. rewrite HK by (apply Hin; left). rewrite IH; [done|].
  intros j Hj. apply Hin. by right.
Qed.

Lemma wp_flush_classes n : forall d i published P s,
  cached_inv P s -> has_descriptor (c_mem s) d -> (forall c, P in_hand c = []) ->
  0 <= i -> i + Z.of_nat n = HPLF_SIZE_CLASS_COUNT -> is_size published ->
  wp (flush_classes n i d published) (fun r s' => shuffled s s' /\ has_descriptor (c_mem s') d /\
    cached_inv (flushed P d i) s' /\ r = (published + cached_blocks (P (in_cache d)) i) mod WORD) s.
Proof.
  induction n as [|n IH]; intros d i published P s V Hd Hh Hi Hn Hp; simpl.
  { wp_steps. assert (i = HPLF_SIZE_CLASS_COUNT) as -> by lia. split; [apply shuffled_refl|]. split; [done|]. split.
    - eapply cached_inv_ext; [exact V|]. intros x c. apply flushed_end.
    - unfold is_size, SIZE_MAX in Hp. change (cached_blocks _ _) with 0. rewrite Z.add_0_r, Z.mod_small; [done|lia]. }
  assert (Hic : 0 <= i < HPLF_SIZE_CLASS_COUNT) by lia. destruct (is_class_lookup _ Hic) as [cap Hcl].
  wp_step. eapply wp_mono; [by eapply wp_extract_to_hand|].
  intros [ok l] s1 (S1 & Hd1 & [(E & HK & V1)|(Hr & Hdes & V1)]).
  - simplify_eq. eapply wp_mono; [eapply (IH d (i + 1) published P s1); [done|done|done|lia|lia|done]|].
    intros r s2 (S2 & Hd2 & V2 & ->). split; [by eapply shuffled_trans|]. split; [done|]. split.
    + eapply cached_inv_ext; [exact V2|]. intros x c. symmetry. by apply flushed_skip.
    + rewrite (cached_blocks_step _ i) by done. rewrite HK. done.
  - cbn [fst snd] in *. subst ok. wp_step.
    eapply wp_mono; [eapply (wp_publish _ in_hand i l s1); [exact V1|by left|done|by rewrite pset_eq]|].
    intros t' s2 (_ & S2 & V2).
    assert (Hd2 : has_descriptor (c_mem s2) d) by (apply (reshuffled_descriptor _ _ _ (sh_mem _ _ S2)), Hd1).
    pose proof (dp_count _ _ _ (de_prefix _ _ _ Hdes)) as Hcount.
    eapply wp_mono; [eapply (IH d (i + 1) _ _ s2); [exact V2|done| |lia|lia|apply wadd_range]|].
    { intros c. unfold published_to, pset. repeat case_decide; destruct_and?; simplify_eq; done || apply Hh. }
    intros r s3 (S3 & Hd3 & V3 & ->). split; [eapply shuffled_trans; [done|by eapply shuffled_trans]|]. split; [done|]. split.
    + eapply cached_inv_ext; [exact V3|]. intros x c. symmetry. by apply flushed_step.
    + rewrite (cached_blocks_step _ i) by done. unfold wadd. rewrite Zplus_mod_idemp_l, Hcount.
      f_equal. rewrite <- Z.add_assoc. do 2 f_equal. apply cached_blocks_ext. intros j Hj.
      unfold published_to, pset. repeat case_decide; destruct_and?; simplify_eq; done || lia.
Qed.

Lemma wp_flush_descriptor d P s :
  cached_inv P s -> has_descriptor (c_mem s) d -> (forall c, P in_hand c = []) ->
  wp (flush_descriptor d) (fun r s' => shuffled s s' /\ has_descriptor (c_mem s') d /\
    cached_inv (flushed P d 0) s' /\ r = cached_blocks (P (in_cache d)) 0 mod WORD) s.
Proof.
  intros V Hd Hh. unfold flush_descriptor. eapply wp_mono; [eapply wp_flush_classes; [done|done|done|done|done|done]|].
  intros r s' (? & ? & ? & ->). done.
Qed.
End flush.

(** ** Releasing a descriptor *)

Section lifecycle.
Context `{Build, Platform, !PlatformLaws, Pthreads, !PthreadLaws}.
Implicit Types (s : cached_allocator) (P : placement).

(** No thread's active cache is the one at [d]. *)
Definition unused (ths : gmap nat thread_state) (d : Z) : Prop :=
  forall t, current_state (thread_in ths t) = HPLF_CACHE_ACTIVE -> current_descriptor (thread_in ths t) <> d.

Lemma threads_ok_unmap m d len ths :
  arena_wf m -> threads_ok (objs m) ths -> unused ths d -> 
  (forall k, objs (unmap_region d len m) !! k = if decide (k = d) then None else objs m !! k) ->
  threads_ok (objs (unmap_region d len m)) ths.
Proof.
  intros Hwf T Hu Hobj. eapply threads_ok_objs; [exact T|]. intros t dsc Hst Hd. exists dsc.
  rewrite Hobj, decide_False; [done|]. by apply Hu.
Qed.

(** The descriptor's storage is gone unless an unmap can fail. *)
Definition descriptor_gone (d : Z) s : Prop := ~ has_descriptor (c_mem s) d \/ unmap_can_fail.

Lemma descriptor_gone_quiet d s s' : descriptor_gone d s -> quiet s s' -> descriptor_gone d s'.
Proof. intros G Q. unfold descriptor_gone. by rewrite (qu_mem _ _ Q). Qed.

(** The end of [release_descriptor]: unmapping an empty descriptor. *)
Lemma wp_unmap_descriptor P d dsc s (Q : Z -> cached_allocator -> Prop) :
  cached_inv P s -> c_objs s !! d = Some (ODescriptor dsc) -> unused (threads s) d ->
  (forall c, P (in_cache d) c = []) ->
  (forall r s', cached_inv P s' -> discreet s s' -> threads s' = threads s -> slabs (base s') = slabs (base s) ->
     descriptor_gone d s' -> Q r s') ->
  wp (on_c_machine (munmap (desc_mapping_base dsc) (desc_mapping_length dsc))) Q s.
Proof.
  intros V Hd Hu HP HQ. pose proof (cv_pool _ _ V) as I. pose proof (pi_arena _ _ _ _ I) as Hwf.
  pose proof (aw_objs _ Hwf _ _ Hd) as (Hb & Hmap & Hsize). simpl in *. rewrite Hb.
  pose proof (unmap_single _ _ _ _ Hwf Hd ltac:(done) eq_refl Hmap) as Hobj.
  apply wp_on_c_machine, wp_munmap; [done| |].
  - intros t' Hm. apply HQ; [|split; [|done]|done|done|].
    + split; cbn; [apply V| |]; rewrite Hm.
      * eapply pool_unmap; [exact I|exact Hd|done|done|done| |done].
        intros x c Hx. destruct (pool_block _ _ _ _ _ _ _ I Hx) as (b & ? & _). congruence.
      * eapply threads_ok_unmap; [done|apply V|done|done].
    + cbn. rewrite Hm. by apply unchanged_unmap_descriptor.
    + left. intros [dsc' Hdsc']. cbn in Hdsc'. rewrite Hm, Hobj, decide_True in Hdsc' by done. done.
  - intros t' Hm Hfail. assert (quiet s (set_base (set_mach t' (base s)) s)) by (split; done).
    apply HQ; [by eapply cached_inv_quiet|by apply quiet_discreet|done|done|by right].
Qed.

Lemma pool_absent_range P s c :
  cached_inv P s -> ~ (0 <= c < HPLF_SIZE_CLASS_COUNT) -> forall x, P x c = [].
Proof.
  intros V Hc x. destruct (P x c) as [|b l] eqn:E; [done|]. exfalso.
  destruct (pool_block _ _ _ _ x c b (cv_pool _ _ V)) as (blk & _ & _ & _ & Hcl); [rewrite E; left|].
  by apply is_class_index in Hcl.
Qed.

Lemma flushed_empty P s d c : cached_inv P s -> flushed P d 0 (in_cache d) c = [].
Proof.
  intros V. unfold flushed. case_decide as Hc.
  - rewrite decide_False by done. by rewrite decide_True.
  - by eapply pool_absent_range.
Qed.

Lemma flushed_other P d x c : x <> in_transfer -> x <> in_cache d -> flushed P d 0 x c = P x c.
Proof. intros. unfold flushed. case_decide; [|done]. by rewrite !decide_False. Qed.

Lemma wp_release_descriptor P d counted s :
  cached_inv P s -> has_descriptor (c_mem s) d -> d <> NULL -> unused (threads s) d -> (forall c, P in_hand c = []) ->
  wp (release_descriptor d counted) (fun _ s' =>
    cached_inv (flushed P d 0) s' /\ discreet s s' /\ threads s' = threads s /\ slabs (base s') = slabs (base s) /\
    descriptor_gone d s') s.
Proof.
  intros V Hd Hd0 Hu Hh. unfold release_descriptor. destruct (Z.eqb_spec d NULL); [done|].
  set (Q1 := fun (_ : unit) s' => quiet s s'). wp_step.
  eapply wp_mono with (P := Q1).
  { destruct counted; [|by apply wp_ret]. by apply wp_test_add. }
  intros [] s1 Q. pose proof (cached_inv_quiet _ _ _ V Q) as V1.
  rewrite <- (qu_mem _ _ Q) in Hd. rewrite <- (qu_threads _ _ Q) in Hu.
  wp_step. eapply wp_mono; [by apply (wp_flush_descriptor d P s1)|].
  intros r s2 (S2 & [dsc Hdsc] & V2 & _). rewrite <- (sh_threads _ _ S2) in Hu.
  wp_step. apply wp_on_c_mem. eapply wp_load_descriptor; [by apply descriptor_at_Some|]. rewrite with_c_mem_same.
  wp_step. eapply wp_unmap_descriptor; [exact V2|exact Hdsc|exact Hu|intros c; by eapply flushed_empty|].
  intros r' s3 V3 D3 Hth3 Hsl3 G3.
  assert (D : discreet s s3).
  { eapply discreet_trans; [by apply quiet_discreet|]. eapply discreet_trans; [by apply shuffled_discreet|done]. }
  assert (Hth : threads s3 = threads s) by (rewrite Hth3, (sh_threads _ _ S2); apply Q).
  assert (Hsl : slabs (base s3) = slabs (base s)) by (rewrite Hsl3, (sh_slabs _ _ S2); apply Q).
  assert (Hend : forall s4, quiet s3 s4 -> cached_inv (flushed P d 0) s4 /\ discreet s s4 /\ threads s4 = threads s /\
    slabs (base s4) = slabs (base s) /\ descriptor_gone d s4).
  { intros s4 Q4. split_and!; [by eapply cached_inv_quiet|by eapply discreet_trans, quiet_discreet| | |].
    - by rewrite (qu_threads _ _ Q4).
    - by rewrite (qu_slabs _ _ Q4).
    - by eapply descriptor_gone_quiet. }
  destruct (r' =? 0); [|wp_steps; by apply Hend].
  wp_step. apply wp_test_add. intros s4 Q4. wp_step. apply wp_test_add. intros s5 Q5.
  assert (Q35 : quiet s3 s5) by (by eapply quiet_trans).
  destruct HPLF_TESTING; [|wp_steps; by apply Hend]. unfold stat_sub, stat_load, stat_store. wp_steps. apply Hend.
  eapply quiet_trans; [exact Q35|done].
Qed.

(** ** Thread exit *)

(** One thread's variables change, nothing else. *)
Lemma cached_inv_thread P s self th :
  cached_inv P s -> threads_ok (c_objs s) (<[self := th]> (threads s)) -> cached_inv P (set_threads <[self := th]> s).
Proof. intros V T. split; [apply V|apply V|exact T]. Qed.

Lemma thread_of_in self s : thread_of self s = thread_in (threads s) self.
Proof. done. Qed.

Lemma threads_ok_uncache os ths self th :
  threads_ok os ths -> current_state th = HPLF_CACHE_UNCACHED -> key_value th = NULL -> threads_ok os (<[self := th]> ths).
Proof. intros T Hst Hk. eapply threads_ok_update; [done|by rewrite Hst|done]. Qed.

Lemma unused_after ths os self th d :
  threads_ok os ths -> current_state (thread_in ths self) = HPLF_CACHE_ACTIVE ->
  d = current_descriptor (thread_in ths self) -> current_state th <> HPLF_CACHE_ACTIVE ->
  unused (<[self := th]> ths) d.
Proof.
  intros T Hst -> Hth t. rewrite thread_in_insert. case_decide as E; [done|]. intros Hst' Heq.
  apply E. by eapply (th_distinct _ _ T).
Qed.

Lemma active_key os ths self :
  threads_ok os ths -> key_value (thread_in ths self) <> NULL -> current_state (thread_in ths self) = HPLF_CACHE_ACTIVE.
Proof.
  intros T Hk. destruct (decide (current_state (thread_in ths self) = HPLF_CACHE_ACTIVE)); [done|].
  exfalso. apply Hk. by apply (th_inactive _ _ T).
Qed.

(** The thread gave up its cache, nothing else changed. *)
Record gave_up (self : nat) s s' : Prop := {
  gu_mem : c_mem s' = c_mem s;
  gu_slabs : slabs (base s') = slabs (base s);
  gu_held : registry_held (base s') = registry_held (base s);
  gu_transfers : transfers_held s' = transfers_held s;
  gu_heads : transfer_heads s' = transfer_heads s;
  gu_threads : exists th, threads s' = <[self := th]> (threads s) /\
    current_state th = HPLF_CACHE_UNCACHED /\ key_value th = NULL
}.

(** The release of the cache a thread gave up. *)
Definition abandoned_by P (self : nat) s s' : Prop :=
  cached_inv (flushed P (current_descriptor (thread_of self s)) 0) s' /\ discreet s s' /\
  slabs (base s') = slabs (base s) /\ key_value (thread_of self s') = NULL /\
  current_state (thread_of self s') = HPLF_CACHE_UNCACHED /\
  descriptor_gone (current_descriptor (thread_of self s)) s'.

Lemma wp_abandon P self s s1 :
  cached_inv P s -> (forall c, P in_hand c = []) -> current_state (thread_of self s) = HPLF_CACHE_ACTIVE ->
  gave_up self s s1 ->
  wp (release_descriptor (current_descriptor (thread_of self s)) true) (fun _ s' => abandoned_by P self s s') s1.
Proof.
  intros V Hh Hst U. pose proof (cv_threads _ _ V) as T. destruct (th_active _ _ T _ Hst) as (Hd0 & Hk & Hd).
  destruct (gu_threads _ _ _ U) as (th & Hths & Hth & Hkey).
  assert (V1 : cached_inv P s1).
  { split; [rewrite (gu_transfers _ _ _ U); apply V| |].
    - rewrite (gu_mem _ _ _ U), (gu_slabs _ _ _ U), (gu_heads _ _ _ U). apply V.
    - rewrite Hths, (gu_mem _ _ _ U). by apply threads_ok_uncache. }
  eapply wp_mono; [eapply (wp_release_descriptor P _ true s1); [exact V1| |done| |done]|].
  - by rewrite (gu_mem _ _ _ U).
  - rewrite Hths. eapply unused_after; [exact T|exact Hst|done|by rewrite Hth].
  - intros [] s3 (V3 & D3 & Hth3 & Hsl3 & G3). split_and!; [exact V3| |by rewrite Hsl3; apply U| | |exact G3].
    + destruct D3 as [D1 D2]. rewrite (gu_mem _ _ _ U) in D1. rewrite (gu_held _ _ _ U) in D2. by split.
    + by rewrite thread_of_in, Hth3, Hths, thread_in_insert, decide_True.
    + by rewrite thread_of_in, Hth3, Hths, thread_in_insert, decide_True.
Qed.

Lemma wp_thread_exit P self s :
  cached_inv P s -> (forall c, P in_hand c = []) ->
  wp (thread_exit self) (fun _ s' =>
    (key_value (thread_of self s) = NULL /\ s' = s) \/
    (current_state (thread_of self s) = HPLF_CACHE_ACTIVE /\ abandoned_by P self s s')) s.
Proof.
  intros V Hh. unfold thread_exit. wp_step. wp_step. destruct (Z.eqb_spec (key_value (thread_of self s)) NULL) as [E|E].
  { wp_steps. by left. }
  pose proof (cv_threads _ _ V) as T. pose proof (active_key _ _ _ T E) as Hst.
  destruct (th_active _ _ T _ Hst) as (Hd0 & Hk & _).
  wp_step. apply wp_update_thread. rewrite thread_of_in, Hk. unfold destroy_descriptor.
  destruct (Z.eqb_spec (current_descriptor (thread_in (threads s) self)) NULL); [done|]. wp_step. apply wp_update_thread.
  eapply wp_mono; [eapply (wp_abandon P self s); [exact V|done|exact Hst|]|by intros [] s' ?; right].
  split; try done. eexists. split; [|split].
  - cbn. rewrite insert_insert_eq. done.
  - done.
  - rewrite thread_of_in. cbn. by rewrite thread_in_insert, decide_True.
Qed.

(** Tearing the current cache down explicitly. *)
Lemma wp_teardown P self s :
  cached_inv P s -> (forall c, P in_hand c = []) ->
  wp (hplf_cache_lifecycle_test_teardown_current self) (fun r s' =>
    (r = false /\ quiet s s') \/
    (r = true /\ current_state (thread_of self s) = HPLF_CACHE_ACTIVE /\ abandoned_by P self s s')) s.
Proof.
  intros V Hh. unfold hplf_cache_lifecycle_test_teardown_current. wp_step. wp_step.
  case_decide as Hst; [|wp_steps; left; by split]. unfold pthread_setspecific_key.
  wp_step. wp_step. apply wp_on_c_machine, wp_tick.
  destruct (Z.eqb_spec (sys_setspecific (sys_calls (mach (base s)))) 0) as [E|E]; cbn [negb].
  2: { wp_step. destruct (Z.eqb_spec (sys_setspecific (sys_calls (mach (base s)))) 0); [done|]. wp_steps. left. by split. }
  wp_step. apply wp_update_thread. wp_step. cbn [Z.eqb negb].
  wp_step. apply wp_update_thread. wp_step.
  eapply wp_mono; [eapply (wp_abandon P self s); [exact V|done|exact Hst|]|intros [] s' ?; wp_steps; by right].
  split; try done. eexists. split; [|split].
  - cbn. rewrite insert_insert_eq. done.
  - done.
  - rewrite thread_of_in. cbn. by rewrite thread_in_insert, decide_True.
Qed.

(** ** Acquiring a cache *)

Lemma wp_pthread_once (Q : Z -> cached_allocator -> Prop) s :
  (forall r s', quiet s s' -> Q r s') -> wp pthread_once_key Q s.
Proof.
  intros HQ. unfold pthread_once_key. wp_step. apply wp_on_c_machine, wp_tick.
  destruct (negb _); [wp_step; by apply HQ|]. wp_steps. destruct (cache_key_done _); [wp_step; by apply HQ|].
  unfold create_cache_key. wp_steps. apply wp_test_add. intros s1 Q1. wp_step.
  eapply (wp_mono _ (fun (_ : Z) s' => quiet s s')).
  { destruct HPLF_TESTING; [apply wp_stat_load; intros v|wp_steps]; (eapply quiet_trans; [|exact Q1]); done. }
  intros fail s2 Q2. destruct (negb _).
  - wp_steps. apply HQ. eapply quiet_trans; [exact Q2|done].
  - wp_step. apply wp_on_c_machine, wp_tick. wp_steps. apply HQ. eapply quiet_trans; [exact Q2|done].
Qed.

(** What a successful mapping gives: an empty cache no thread uses yet. *)
Definition new_descriptor P s (d : Z) : Prop :=
  d <> NULL /\ has_descriptor (c_mem s) d /\ unused (threads s) d /\ forall c, P (in_cache d) c = [].

Record extended P s s' : Prop := {
  ex_inv : cached_inv P s';
  ex_discreet : discreet s s';
  ex_threads : threads s' = threads s;
  ex_slabs : slabs (base s') = slabs (base s)
}.

Lemma extended_quiet P s s' : cached_inv P s -> quiet s s' -> extended P s s'.
Proof. intros V Q. split; [by eapply cached_inv_quiet|by apply quiet_discreet|apply Q..]. Qed.

Lemma extended_trans P s1 s2 s3 : extended P s1 s2 -> extended P s2 s3 -> extended P s1 s3.
Proof.
  intros A B. split; [apply B|eapply discreet_trans; [apply A|apply B]|..].
  - by rewrite (ex_threads _ _ _ B), (ex_threads _ _ _ A).
  - by rewrite (ex_slabs _ _ _ B), (ex_slabs _ _ _ A).
Qed.

Lemma new_descriptor_quiet P s s' d : new_descriptor P s d -> quiet s s' -> new_descriptor P s' d.
Proof. intros (? & ? & ? & ?) Q. split; [done|]. by rewrite (qu_mem _ _ Q), (qu_threads _ _ Q). Qed.

(** The mapped and initialised descriptor. *)
Lemma extended_descriptor P s base0 len (t' : machine) :
  cached_inv P s -> fresh_region (maps (c_mem s)) base0 len -> sizeof_hplf_cache_descriptor <= len ->
  mem t' = set_objs <[base0 := ODescriptor (Descriptor zeroed_cache base0 len)]> (map_region base0 len (c_mem s)) ->
  let s' := set_base (set_mach t' (base s)) s in extended P s s' /\ new_descriptor P s' base0.
Proof.
  intros V Hf Hlen Hm s'. pose proof (cv_pool _ _ V) as I. pose proof (pi_arena _ _ _ _ I) as Hwf.
  change sizeof_hplf_cache_descriptor with 280 in Hlen.
  pose proof (region_base_free _ _ _ Hwf Hf ltac:(lia)) as Hnone.
  assert (Hab : forall c, P (in_cache base0) c = []) by (intros c; apply (pi_absent _ _ _ _ I); congruence).
  assert (Hu : unused (threads s) base0).
  { intros t Hst E. destruct (th_active _ _ (cv_threads _ _ V) _ Hst) as (_ & _ & dsc & Hd). congruence. }
  split; [split|].
  - split; [apply V| |]; cbn; rewrite Hm.
    + eapply pool_new_object; [exact I|exact Hf|lia| |done|by intros d [= <-]|].
      * simpl. split; [done|]. split; [apply lookup_insert_eq|]. exact Hlen.
      * intros c (b & ? & ? & Hb & _). cbn in Hb. by rewrite lookup_insert_eq in Hb.
    + eapply threads_ok_objs; [apply V|]. intros t dsc _ Hd. exists dsc. cbn. rewrite lookup_insert_ne by congruence. done.
  - split; [|done]. cbn. rewrite Hm. apply unchanged_map_object; [done|done|lia|done].
  - done.
  - done.
  - split; [destruct Hf; unfold NULL; lia|]. split; [|done]. cbn. rewrite Hm. eexists. apply lookup_insert_eq.
Qed.

Lemma descriptor_layout : round_up sizeof_hplf_cache_descriptor sysconf_pagesize <= SIZE_MAX /\
  sizeof_hplf_cache_descriptor <= round_up sizeof_hplf_cache_descriptor sysconf_pagesize.
Proof.
  pose proof pagesize_positive as Hp. pose proof (round_up_ge sizeof_hplf_cache_descriptor sysconf_pagesize pagesize_gt0).
  change sizeof_hplf_cache_descriptor with 280 in *. unfold SIZE_MAX, PTRDIFF_MAX, WORD in *. lia.
Qed.

Lemma wp_map_descriptor P s :
  cached_inv P s -> wp map_descriptor (fun d s' => extended P s s' /\ (d = NULL \/ new_descriptor P s' d)) s.
Proof.
  intros V. pose proof pagesize_positive as Hp. destruct descriptor_layout as [Hmax Hge]. unfold map_descriptor.
  destruct (Z.leb_spec sysconf_pagesize 0); [lia|]. unfold PTRDIFF_MAX in Hp.
  rewrite via_round_up by (change sizeof_hplf_cache_descriptor with 280; unfold is_size, SIZE_MAX, WORD; lia).
  destruct (Z.leb_spec (round_up sizeof_hplf_cache_descriptor sysconf_pagesize) SIZE_MAX); [|lia].
  set (len := round_up sizeof_hplf_cache_descriptor sysconf_pagesize) in *.
  wp_step. apply wp_test_add. intros s1 Q1. wp_step. apply wp_stat_load. intros at0. wp_step. apply wp_stat_load. intros fail.
  pose proof (extended_quiet _ _ _ V Q1) as X1. destruct (HPLF_TESTING && _); [wp_steps; split; [done|by left]|].
  pose proof (ex_inv _ _ _ X1) as V1. wp_step. apply wp_on_c_machine, wp_mmap.
  { change sizeof_hplf_cache_descriptor with 280 in Hge. lia. }
  2: { intros t' Hm. wp_steps. split; [|by left]. eapply extended_trans; [exact X1|].
       apply extended_quiet; [done|]. split; done. }
  intros base0 t' Hf Hm. pose proof (pi_arena _ _ _ _ (cv_pool _ _ V1)) as Hwf1.
  wp_step. apply wp_on_c_mem, wp_create_object; cbn.
  - by eapply mod8_of_16, mapping_aligned.
  - rewrite Hm. eapply mapped_intro; [apply lookup_insert_eq|lia|]. cbn [sizeof]. lia.
  - intros k o [_ Hk]%lookup_delete_Some. rewrite Hm in Hk. cbn in Hk. cbn [sizeof].
    pose proof (fresh_region_objects _ _ _ _ _ Hwf1 Hf Hk). pose proof (extent_pos _ _ _ Hwf1 Hk). pose proof (sizeof_pos o). lia.
  - wp_step. apply wp_on_c_mem. unfold hplf_thread_cache_initialize. eapply wp_modify_cache; [cbn; apply lookup_insert_eq|].
    set (t2 := set_mem (set_objs <[base0 := ODescriptor (Descriptor zeroed_cache base0 len)]>
      (map_region base0 len (c_mem s1))) t').
    match goal with |- wp _ _ ?x => assert (Hs2 : x = set_base (set_mach t2 (base s1)) s1) end.
    { unfold t2, with_c_mem, with_cache, set_desc_cache. cbn. rewrite Hm. unfold set_objs. cbn. by rewrite insert_insert_eq. }
    rewrite Hs2. clear Hs2.
    destruct (extended_descriptor P s1 base0 len t2 V1 Hf ltac:(lia) eq_refl) as [X2 N2].
    wp_step. apply wp_test_add. intros s3 Q3. wp_step. apply wp_test_add. intros s4 Q4. wp_step. apply wp_test_add. intros s5 Q5.
    assert (Q35 : quiet (set_base (set_mach t2 (base s1)) s1) s5) by (eapply quiet_trans; [exact Q3|by eapply quiet_trans]).
    wp_steps. split; [|right; by eapply new_descriptor_quiet].
    eapply extended_trans; [exact X1|]. eapply extended_trans; [exact X2|]. apply extended_quiet; [apply X2|done].
Qed.

(** [d] is null and the thread has no cache, or the thread's cache is [d]. *)
Definition cache_of (self : nat) s (d : Z) : Prop :=
  (d = NULL /\ current_state (thread_of self s) = HPLF_CACHE_UNCACHED) \/
  (d <> NULL /\ current_state (thread_of self s) = HPLF_CACHE_ACTIVE /\ current_descriptor (thread_of self s) = d /\
   has_descriptor (c_mem s) d).

Record acquired P (self : nat) s (d : Z) s' : Prop := {
  ac_inv : cached_inv P s';
  ac_discreet : discreet s s';
  ac_slabs : slabs (base s') = slabs (base s);
  ac_cache : cache_of self s' d
}.

(** Setting the thread's state to uncached while it was uninitialized. *)
Lemma uncached_after P self s s' :
  extended P s s' -> current_state (thread_of self s) = HPLF_CACHE_UNINITIALIZED ->
  let s2 := set_threads <[self := set_current_state HPLF_CACHE_UNCACHED (thread_of self s')]> s' in
  acquired P self s NULL s2 /\ forall d, unused (threads s') d -> unused (threads s2) d.
Proof.
  intros X Hst s2. pose proof (ex_inv _ _ _ X) as V'.
  assert (Hst' : current_state (thread_in (threads s') self) = HPLF_CACHE_UNINITIALIZED) by (by rewrite (ex_threads _ _ _ X)).
  split; [split|].
  - apply cached_inv_thread; [done|]. apply threads_ok_uncache; [apply V'|done|]. simpl.
    apply (th_inactive _ _ (cv_threads _ _ V')). by rewrite Hst'.
  - destruct (ex_discreet _ _ _ X). by split.
  - apply X.
  - left. split; [done|]. rewrite thread_of_in. unfold s2. cbn. by rewrite thread_in_insert, decide_True.
  - intros d Hu t. unfold s2. cbn. rewrite thread_in_insert. case_decide; [done|apply Hu].
Qed.

Lemma wp_register self d (Q : Z -> cached_allocator -> Prop) s :
  (forall r s', r <> 0 -> quiet s s' -> Q r s') ->
  (forall s1, quiet s s1 -> Q 0 (set_threads <[self := set_key_value d (thread_of self s1)]> s1)) ->
  wp (register_descriptor self d) Q s.
Proof.
  intros HF HS. unfold register_descriptor. wp_step. apply wp_test_add. intros s1 Q1. wp_step. apply wp_stat_load. intros v.
  wp_step. apply wp_stat_load. intros w. destruct (HPLF_TESTING && _); [wp_step; by apply HF|].
  unfold pthread_setspecific_key. wp_step. apply wp_on_c_machine, wp_tick.
  destruct (Z.eqb_spec (sys_setspecific (sys_calls (mach (base s1)))) 0) as [E|E]; cbn [negb].
  - wp_step. apply wp_update_thread. wp_steps. apply HS. eapply quiet_trans; [exact Q1|done].
  - wp_step. apply HF; [done|]. eapply quiet_trans; [exact Q1|done].
Qed.

(** A registered descriptor becomes the thread's cache. *)
Lemma acquired_active P self s s1 d :
  extended P s s1 -> new_descriptor P s1 d ->
  let s2 := set_threads <[self := set_key_value d (thread_of self s1)]> s1 in
  let s3 := set_threads <[self := set_current d HPLF_CACHE_ACTIVE (thread_of self s2)]> s2 in
  acquired P self s d s3.
Proof.
  intros X (Hd0 & Hd & Hu & HP) s2 s3. pose proof (ex_inv _ _ _ X) as V.
  set (th := ThreadState d HPLF_CACHE_ACTIVE d (cached_test_stats (thread_in (threads s1) self))).
  assert (Hths : threads s3 = <[self := th]> (threads s1)).
  { unfold s3, s2. cbn. rewrite insert_insert_eq. f_equal. rewrite thread_of_in. cbn.
    rewrite thread_in_insert, decide_True by done. done. }
  split.
  - split; [apply V|apply V|]. rewrite Hths. change (c_objs s3) with (c_objs s1).
    eapply threads_ok_update; [apply V| |done]. intros _. simpl. split_and!; [done|done|exact Hd|]. intros t _ Hst. by apply Hu.
  - destruct (ex_discreet _ _ _ X). by split.
  - apply X.
  - right. rewrite thread_of_in, Hths, thread_in_insert, decide_True by done. split_and!; done.
Qed.

Lemma flushed_unchanged P s d x c : cached_inv P s -> (forall i, P (in_cache d) i = []) -> P x c = flushed P d 0 x c.
Proof.
  intros V HP. unfold flushed. case_decide; [|done]. repeat case_decide; subst; rewrite ?HP; done.
Qed.

Lemma wp_cache_acquire P self s :
  cached_inv P s -> (forall c, P in_hand c = []) -> wp (hplf_cache_acquire self) (fun d s' => acquired P self s d s') s.
Proof.
  intros V Hh. unfold hplf_cache_acquire. wp_step. wp_step.
  assert (Hsame : forall d, cache_of self s d -> acquired P self s d s).
  { intros d Hc. split; [done|apply discreet_refl|done|done]. }
  destruct (current_state (thread_of self s)) eqn:Hst.
  2: { wp_step. apply Hsame. right. destruct (th_active _ _ (cv_threads _ _ V) _ Hst) as (? & _ & ?). done. }
  2: { wp_step. apply Hsame. by left. }
  wp_step. apply wp_pthread_once. intros r s1 Q1. pose proof (extended_quiet _ _ _ V Q1) as X1. wp_step. wp_step.
  destruct (negb (r =? 0) || _).
  { wp_step. apply wp_update_thread. wp_steps. by apply uncached_after. }
  wp_step. eapply wp_mono; [apply wp_map_descriptor, X1|]. intros d s2 [X2 Hd].
  pose proof (extended_trans _ _ _ _ X1 X2) as X. destruct (Z.eqb_spec d NULL) as [->|Hd0].
  { wp_step. apply wp_update_thread. wp_steps. by apply uncached_after. }
  destruct Hd as [?|N]; [done|]. wp_step. apply wp_register.
  - intros r' s3 Hr Q3. destruct (Z.eqb_spec r' 0); [done|]. cbn [negb].
    wp_step. apply wp_test_add. intros s4 Q4. assert (Q24 : quiet s2 s4) by (by eapply quiet_trans).
    pose proof (new_descriptor_quiet _ _ _ _ N Q24) as N4.
    assert (X4 : extended P s s4) by (eapply extended_trans; [exact X|]; apply extended_quiet; [apply X2|done]).
    wp_step. apply wp_update_thread. destruct (uncached_after P self s s4 X4 Hst) as [A5 Hu5].
    destruct N4 as (_ & Hd4 & Hu4 & HP4). wp_step.
    eapply wp_mono; [eapply (wp_release_descriptor P d false); [apply A5|exact Hd4|done|by apply Hu5|done]|].
    intros [] s6 (V6 & D6 & Hth6 & Hsl6 & _). wp_steps. split.
    + eapply cached_inv_ext; [exact V6|]. intros x c. by eapply flushed_unchanged; [apply V|].
    + eapply discreet_trans; [apply A5|done].
    + rewrite Hsl6. apply A5.
    + left. split; [done|]. rewrite thread_of_in, Hth6. destruct (ac_cache _ _ _ _ _ A5) as [[_ ?]|[? _]]; done.
  - intros s3 Q3. simpl negb. cbn iota. wp_step. apply wp_update_thread. wp_steps. apply acquired_active.
    + eapply extended_trans; [exact X|]. apply extended_quiet; [apply X2|done].
    + by eapply new_descriptor_quiet.
Qed.

(** ** Flushing the current thread *)

Lemma wp_flush_current P self s :
  cached_inv P s -> (forall c, P in_hand c = []) ->
  wp (hplf_cache_flush_current self) (fun r s' => shuffled s s' /\
    (current_state (thread_of self s) = HPLF_CACHE_ACTIVE ->
       cached_inv (flushed P (current_descriptor (thread_of self s)) 0) s' /\
       r = cached_blocks (P (in_cache (current_descriptor (thread_of self s)))) 0 mod WORD) /\
    (current_state (thread_of self s) <> HPLF_CACHE_ACTIVE -> s' = s /\ r = 0)) s.
Proof.
  intros V Hh. unfold hplf_cache_flush_current. wp_step. wp_step.
  destruct (decide (current_state (thread_of self s) = HPLF_CACHE_ACTIVE)) as [Hst|Hst].
  - destruct (th_active _ _ (cv_threads _ _ V) _ Hst) as (_ & _ & Hd).
    eapply wp_mono; [by eapply wp_flush_descriptor|]. intros r s' (S & _ & V' & ->). split_and!; done.
  - wp_step. split; [apply shuffled_refl|]. done.
Qed.
End lifecycle.
