(* ===== verification/CacheAcquire.v ===== *)
(** * When acquiring a cache succeeds

    The exact outcome of a thread's first [hplf_cache_acquire]
    (src/thread_cache_lifecycle.c): it yields a descriptor exactly when the once-only
    creation of the key, the mapping of the descriptor and its registration all
    succeed, each at its own call into the platform. *)

From S2P Require Import Prelude CheckedMath SizeClass Memory Layout Chain OsMemory Slab Arena SlabSpec.
From S2P Require Import LockedAllocator FreeLists LockedSpec TrimLists Trim TransferList ThreadCache HeapSpec Pool.
From S2P Require Import CachedState Lifecycle ThreadCacheSpec Placement PoolSteps TransferSpec LifecycleSpec.

(** ** The calls of an acquisition *)

Section calls.
Context `{Build, Platform, Pthreads}.
Implicit Types (s : cached_allocator).

Abbreviation calls s := (sys_calls (mach (base s))).

(** Injected faults of the testing build. *)
Definition key_fault s : bool := HPLF_TESTING && negb (fail_key_create (lifecycle_stats s) =? 0).
Definition map_fault s : bool :=
  HPLF_TESTING && (wadd (descriptor_map_attempts (lifecycle_stats s)) 1 =? fail_descriptor_map_at (lifecycle_stats s)).
Definition registration_fault s : bool :=
  HPLF_TESTING && (wadd (registration_attempts (lifecycle_stats s)) 1 =? fail_registration_at (lifecycle_stats s)).

(** The error of the key once [pthread_once] returned, and the calls made by then. *)
Definition key_error_of s : Z :=
  if cache_key_done s then cache_key_error s
  else if key_fault s then EAGAIN else sys_key_create (S (calls s)).
Definition calls_after_key s : nat :=
  if cache_key_done s || key_fault s then S (calls s) else S (S (calls s)).

Definition descriptor_length : Z := round_up sizeof_hplf_cache_descriptor sysconf_pagesize.

(** Every step of acquiring a cache in state [s] succeeds, with a descriptor at [d]. *)
Record acquires s (d : Z) : Prop := {
  aq_once : sys_once (calls s) = 0;
  aq_key : key_error_of s = 0;
  aq_no_map_fault : map_fault s = false;
  aq_map : sys_mmap (calls_after_key s) (maps (c_mem s)) descriptor_length = inl d;
  aq_no_registration_fault : registration_fault s = false;
  aq_registered : sys_setspecific (S (calls_after_key s)) = 0
}.
End calls.

(** ** Partial correctness

    What holds of the result if the program is defined; that it is, is proved
    separately. *)

Definition wlp {S A} (m : prog S A) (Q : A -> S -> Prop) (s : S) : Prop := forall a s', m s = Done a s' -> Q a s'.

Section wlp_rules.
Context {S A B : Type}.
Implicit Types (s : S).

Lemma wlp_bind (m : prog S A) (f : A -> prog S B) (Q : B -> S -> Prop) s :
  wlp m (fun a s1 => wlp (f a) Q s1) s -> wlp (m ≫= f) Q s.
Proof. intros Hm b s' E. unfold mbind, prog_bind in E. destruct (m s) as [a s1| |] eqn:Em; [|done..]. by eapply Hm. Qed.

Lemma wlp_wp (m : prog S A) (Q : A -> S -> Prop) s : wp m Q s -> wlp m Q s.
Proof. intros W a s' E. by eapply wp_done. Qed.

Lemma wlp_ret (a : A) (Q : A -> S -> Prop) s : Q a s -> wlp (mret a) Q s.
Proof. by intros HQ a' s' [= <- <-]. Qed.

Lemma wlp_any (m : prog S A) (Q : A -> S -> Prop) s : (forall a s', Q a s') -> wlp m Q s.
Proof. by intros HQ a s' _. Qed.

Lemma wp_wlp (m : prog S A) (P Q : A -> S -> Prop) s : wp m P s -> wlp m Q s -> wp m (fun a s' => P a s' /\ Q a s') s.
Proof. unfold wp, wlp. intros HP HQ. destruct (m s); naive_solver. Qed.
End wlp_rules.

Section outcome.
Context `{Build, Platform, !PlatformLaws, Pthreads}.
Implicit Types (s : cached_allocator).

Abbreviation calls s := (sys_calls (mach (base s))).

Lemma wlp_on_c_mem {A} (p : prog memory A) (Q : A -> cached_allocator -> Prop) s :
  (forall a m, Q a (with_c_mem m s)) -> wlp (on_c_mem p) Q s.
Proof.
  intros HQ a s' E. unfold on_c_mem, on_c_machine, on_base, on_machine, on_memory, zoom in E.
  destruct (p (c_mem s)); [|done..]. injection E as <- <-. apply HQ.
Qed.

(** One count more. *)
Definition counted (c : stat) (v : Z) s : cached_allocator :=
  if HPLF_TESTING then set_lifecycle (stat_put c (wadd (stat_get c (lifecycle_stats s)) v)) s else s.

Lemma wp_counted c v (Q : unit -> cached_allocator -> Prop) s : Q tt (counted c v s) -> wp (test_add c v) Q s.
Proof.
  intros HQ. unfold counted, test_add, stat_add, stat_load, stat_store in *. destruct HPLF_TESTING; by wp_steps.
Qed.

(** Where an acquisition stands before its mapping: [k] calls were made. *)
Record underway (k : nat) s s' : Prop := {
  uw_calls : calls s' = k;
  uw_mem : c_mem s' = c_mem s;
  uw_map_fault : map_fault s' = map_fault s;
  uw_registration_fault : registration_fault s' = registration_fault s
}.

Lemma wp_once_outcome s :
  wp pthread_once_key (fun r s' => r = sys_once (calls s) /\
    (r = 0 -> cache_key_error s' = key_error_of s /\ underway (calls_after_key s) s s')) s.
Proof.
  unfold pthread_once_key, key_error_of, calls_after_key, key_fault. wp_step. apply wp_on_c_machine, wp_tick.
  destruct (Z.eqb_spec (sys_once (calls s)) 0) as [E|E]; cbn [negb]; [|wp_steps; by split].
  wp_steps. cbn. destruct (cache_key_done s) eqn:Ed; cbn [orb]; [wp_steps; by split_and!|].
  unfold create_cache_key, test_increment. wp_step. wp_step. apply wp_counted. unfold counted. wp_step.
  destruct HPLF_TESTING eqn:Et; cbn [andb orb]; [unfold stat_load; wp_step|wp_step]; cbn -[wadd].
  - destruct (negb _); cbn [orb]; [wp_steps; cbn -[wadd]; by split_and!|].
    wp_step. apply wp_on_c_machine, wp_tick. wp_steps. cbn -[wadd]. by split_and!.
  - wp_step. apply wp_on_c_machine, wp_tick. wp_steps. cbn -[wadd]. by split_and!.
Qed.

Lemma wlp_map_outcome k s s1 :
  underway k s s1 ->
  wlp map_descriptor (fun d s' => (d = NULL /\ (map_fault s = true \/
        exists e, sys_mmap k (maps (c_mem s)) descriptor_length = inr e)) \/
     (d <> NULL /\ map_fault s = false /\ sys_mmap k (maps (c_mem s)) descriptor_length = inl d /\
      calls s' = S k /\ registration_fault s' = registration_fault s)) s1.
Proof.
  intros [Hk Hm Hmf Hrf]. pose proof pagesize_positive as Hp. destruct descriptor_layout as [Hmax Hge].
  assert (Hpos : 0 < descriptor_length) by (unfold descriptor_length; change sizeof_hplf_cache_descriptor with 280 in *; lia).
  unfold map_descriptor. destruct (Z.leb_spec sysconf_pagesize 0); [lia|]. unfold PTRDIFF_MAX in Hp.
  rewrite via_round_up by (change sizeof_hplf_cache_descriptor with 280; unfold is_size, SIZE_MAX, WORD; lia).
  fold descriptor_length in *. destruct (Z.leb_spec descriptor_length SIZE_MAX); [|lia].
  apply wlp_bind, wlp_wp, wp_counted, wlp_bind, wlp_wp. unfold stat_load. wp_step.
  apply wlp_bind, wlp_wp. wp_step.
  match goal with |- wlp (if ?b then _ else _) _ _ => assert (Eb : b = map_fault s) end.
  { rewrite <- Hmf. unfold map_fault, counted. destruct HPLF_TESTING; done. }
  rewrite Eb. clear Eb. destruct (map_fault s); [apply wlp_ret; by left; split; [|left]|].
  set (s2 := counted _ _ s1). assert (Hs2 : calls s2 = k /\ c_mem s2 = c_mem s /\ registration_fault s2 = registration_fault s).
  { unfold s2, counted, registration_fault in *. by destruct HPLF_TESTING. }
  destruct Hs2 as (Hk2 & Hm2 & Hr2). clearbody s2.
  apply wlp_bind, wlp_wp, wp_on_c_machine. unfold mmap. wp_step. apply wp_tick. wp_steps. cbn.
  rewrite Hk2, Hm2. destruct (sys_mmap k (maps (c_mem s)) descriptor_length) as [d|e] eqn:E.
  2: { wp_step. wp_steps. apply wlp_ret. left. split; [done|]. right. by exists e. }
  pose proof (mmap_fresh _ _ _ _ Hpos E) as (Hd & _). wp_steps.
  apply wlp_bind, wlp_on_c_mem. intros [] m1. apply wlp_bind, wlp_on_c_mem. intros [] m2.
  do 3 (apply wlp_bind, wlp_wp, wp_counted). apply wlp_ret. right. split_and!; [unfold NULL; lia|done|done| |].
  - unfold counted. destruct HPLF_TESTING; cbn; by rewrite Hk2.
  - rewrite <- Hr2. unfold counted, registration_fault. by destruct HPLF_TESTING.
Qed.

Lemma wlp_register_outcome self d k s s1 :
  calls s1 = S k -> registration_fault s1 = registration_fault s ->
  wlp (register_descriptor self d) (fun r _ =>
    (r = 0 /\ registration_fault s = false /\ sys_setspecific (S k) = 0) \/
    (r <> 0 /\ (registration_fault s = true \/ sys_setspecific (S k) <> 0))) s1.
Proof.
  intros Hk Hr. unfold register_descriptor, test_increment. apply wlp_bind, wlp_wp, wp_counted.
  apply wlp_bind, wlp_wp. unfold stat_load. wp_step. apply wlp_bind, wlp_wp. wp_step.
  match goal with |- wlp (if ?b then _ else _) _ _ => assert (Eb : b = registration_fault s) end.
  { rewrite <- Hr. unfold registration_fault, counted. destruct HPLF_TESTING; done. }
  rewrite Eb. clear Eb. destruct (registration_fault s).
  { apply wlp_ret. right. split; [done|by left]. }
  apply wlp_wp. unfold pthread_setspecific_key. wp_step. apply wp_on_c_machine, wp_tick.
  assert (Hc : calls (counted s_registration_attempts 1 s1) = S k) by (unfold counted; by destruct HPLF_TESTING).
  rewrite Hc. destruct (Z.eqb_spec (sys_setspecific (S k)) 0) as [E|E]; cbn [negb].
  - wp_step. apply wp_update_thread. wp_steps. by left.
  - wp_steps. right. split; [done|by right].
Qed.

(** The first request of a thread: a descriptor exactly when every step succeeds. *)
Lemma wlp_acquire_outcome self s :
  current_state (thread_of self s) = HPLF_CACHE_UNINITIALIZED ->
  wlp (hplf_cache_acquire self) (fun d _ => (d <> NULL /\ acquires s d) \/ (d = NULL /\ forall d', ~ acquires s d')) s.
Proof.
  intros Hst. unfold hplf_cache_acquire. apply wlp_bind, wlp_wp. wp_step. rewrite Hst.
  apply wlp_bind. eapply wlp_wp, wp_mono; [apply wp_once_outcome|]. intros r s1 [-> Hk].
  apply wlp_bind, wlp_wp. wp_step.
  destruct (Z.eqb_spec (sys_once (calls s)) 0) as [E|E]; cbn [negb orb].
  2: { apply wlp_bind, wlp_any. intros _ s2. apply wlp_ret. right. split; [done|]. by intros d' []. }
  destruct (Hk E) as [-> U]. destruct (Z.eqb_spec (key_error_of s) 0) as [Ek|Ek]; cbn [negb orb].
  2: { apply wlp_bind, wlp_any. intros _ s2. apply wlp_ret. right. split; [done|]. by intros d' []. }
  apply wlp_bind. intros d s2 Em.
  destruct (wlp_map_outcome _ _ _ U d s2 Em) as [(-> & Hf)|(Hd & Hmf & Hmap & Hc & Hr)].
  { apply wlp_bind, wlp_any. intros _ s3. apply wlp_ret. right. split; [done|]. intros d' []. destruct Hf as [|[e He]]; congruence. }
  destruct (Z.eqb_spec d NULL); [done|]. apply wlp_bind. intros r s3 Er.
  destruct (wlp_register_outcome self d _ s _ Hc Hr r s3 Er) as [(-> & Hrf & Hset)|(Hr0 & Hrf)].
  - apply wlp_bind, wlp_any. intros _ s4. apply wlp_ret. left. by split; [|split].
  - destruct (Z.eqb_spec r 0); [done|]. cbn [negb]. do 3 (apply wlp_bind, wlp_any; intros _ ?). apply wlp_ret.
    right. split; [done|]. intros d' []. destruct Hrf; congruence.
Qed.
End outcome.
