(* ===== verification/CachedSpec.v ===== *)
(** * The cached allocator meets its contract: allocation

    The invariant [cached_wf] of the cached variant between API calls, and the
    total-correctness specification of [hplf_malloc]: a block from the thread's
    cache, from the shared list, from a new slab, or a large mapping. *)

From S2P Require Import Prelude CheckedMath SizeClass Memory Layout Chain OsMemory Slab Arena SlabSpec.
From S2P Require Import LockedAllocator FreeLists LockedSpec TrimLists Trim TransferList ThreadCache HeapSpec Pool.
From S2P Require Import CachedState Lifecycle CachedAllocator ThreadCacheSpec Placement PoolSteps TransferSpec LifecycleSpec.
From S2P Require Import CacheAcquire.

(** ** Definitions *)

(** What the operation's hands hold: [lh] and [lg] of class [c], nothing else. *)
Definition hands (P : placement) (c : Z) (lh lg : list Z) : Prop :=
  P in_hand c = lh /\ P in_grasp c = lg /\ forall i, i <> c -> P in_hand i = [] /\ P in_grasp i = [].

Definition cached_wf `{Platform} (s : cached_allocator) : Prop :=
  registry_held (base s) = false /\ exists P, cached_inv P s /\ limited P /\ hands_empty P.

(** Only statistics of threads changed. *)
Record tallied (s s' : cached_allocator) : Prop := {
  ta_base : base s' = base s;
  ta_transfers : transfers_held s' = transfers_held s;
  ta_heads : transfer_heads s' = transfer_heads s;
  ta_threads : forall t, current_descriptor (thread_of t s') = current_descriptor (thread_of t s) /\
    current_state (thread_of t s') = current_state (thread_of t s) /\ key_value (thread_of t s') = key_value (thread_of t s)
}.

(** The registry lock was taken or released, errno may differ. *)
Record relocked (s s' : cached_allocator) : Prop := {
  rl_mem : c_mem s' = c_mem s;
  rl_slabs : slabs (base s') = slabs (base s);
  rl_transfers : transfers_held s' = transfers_held s;
  rl_heads : transfer_heads s' = transfer_heads s;
  rl_threads : threads s' = threads s
}.

(** Every thread has the cache it had. *)
Definition same_threads (s s' : cached_allocator) : Prop := forall t,
  current_state (thread_of t s') = current_state (thread_of t s) /\
  current_descriptor (thread_of t s') = current_descriptor (thread_of t s).

(** ** Where a small block comes from *)

(** The cached blocks of class [c] of the thread whose cache is [d], if it has one,
    and the placement with other ones. *)
Definition own_list (P : placement) (d c : Z) : list Z := if d =? NULL then [] else P (in_cache d) c.
Definition in_own (P : placement) (d c : Z) (l : list Z) : placement := if d =? NULL then P else pset P (in_cache d) c l.

(** The whole shared list, or the blocks of a new slab, in hand. *)
Definition supplying (P : placement) (c : Z) (l : list Z) : placement := pset (pset P in_transfer c []) in_hand c l.

(** [b] grasped, [l1] in the thread's cache and [l2] left in hand. *)
Definition grasping (P : placement) (d c b : Z) (l1 l2 : list Z) : placement :=
  pset (pset (in_own P d c l1) in_hand c l2) in_grasp c [b].

(** Only the thread's cache and the shared list of class [c] differ. *)
Definition replaced (P : placement) (d c : Z) (l1 l2 : list Z) : placement := in_own (pset P in_transfer c l2) d c l1.

(** The registry has one slab more, whose slots are exactly [l], free blocks that
    were in no list before. *)
Record new_slab (P : placement) (c : Z) (s s' : cached_allocator) (l : list Z) : Prop := {
  ns_header : exists h, c_objs s' !! slabs (base s') = Some (OSlab h) /\ slab_next h = slabs (base s) /\
    class_index h = c /\ Z.of_nat (length l) = slot_count h;
  ns_slots : forall b, b ∈ l -> exists blk, c_objs s' !! b = Some (OBlock blk) /\ owner blk = owner_small (slabs (base s'));
  ns_fresh : forall b x i, b ∈ l -> b ∉ P x i
}.

(** The blocks [l] of a refill: the shared list, or a new slab when that was empty. *)
Definition supply (P : placement) (c : Z) (s s' : cached_allocator) (l : list Z) : Prop :=
  (P in_transfer c = l /\ slabs (base s') = slabs (base s)) \/ (P in_transfer c = [] /\ new_slab P c s s' l).

(** Of [l], the first is handed out and the cache keeps [l1], as many of the next as
    its limits allow. *)
Definition refill_share (P : placement) (d c cap : Z) (l l1 : list Z) : Prop :=
  Z.of_nat (length l1) =
  if d =? NULL then 0 else Z.max 0 (Z.min (Z.of_nat (length l)) (refill_limit (P (in_cache d)) c cap) - 1).

(** ** Hands *)

Section hands.
Implicit Types (P : placement).

Lemma hands_of_empty P c : hands_empty P -> hands P c [] [].
Proof. intros HP. split_and!; [apply HP|apply HP|]. intros i _. apply HP. Qed.

Lemma empty_of_hands P c : hands P c [] [] -> hands_empty P.
Proof. intros (? & ? & ?) i. destruct (Z.eq_dec i c) as [->|]; auto. Qed.

Lemma hands_pset_hand P c lh lg l : hands P c lh lg -> hands (pset P in_hand c l) c l lg.
Proof.
  intros (? & ? & Ho). split_and!; [apply pset_eq|by rewrite pset_place|].
  intros i Hi. rewrite pset_ne by naive_solver. rewrite pset_place by done. by apply Ho.
Qed.

Lemma hands_pset_grasp P c lh lg l : hands P c lh lg -> hands (pset P in_grasp c l) c lh l.
Proof.
  intros (? & ? & Ho). split_and!; [by rewrite pset_place|apply pset_eq|].
  intros i Hi. rewrite (pset_ne _ _ _ _ in_grasp) by naive_solver. rewrite pset_place by done. by apply Ho.
Qed.

Lemma hands_pset_other P c lh lg x i l : ~ private x -> hands P c lh lg -> hands (pset P x i l) c lh lg.
Proof.
  intros Hx (? & ? & Ho). assert (in_hand <> x /\ in_grasp <> x) as [? ?].
  { split; intros <-; apply Hx; [by left|by right]. }
  split_and!; [by rewrite pset_place..|]. intros j Hj. rewrite !pset_place by done. by apply Ho.
Qed.

Lemma within_limits_ext K K' : (forall i, K' i = K i) -> within_limits K -> within_limits K'.
Proof.
  intros HK [Hn Hb]. split; [intros i Hi; rewrite HK; auto|]. rewrite (cached_bytes_ext K K'); [done|].
  intros i _. by rewrite HK.
Qed.

Lemma limited_pset P x c l : (forall d, x <> in_cache d) -> limited P -> limited (pset P x c l).
Proof. intros Hx HP d. eapply within_limits_ext; [|apply (HP d)]. intros i. rewrite pset_place; [done|]. intros E; by apply (Hx d). Qed.

Lemma limited_pset_cache P d c l : within_limits (kupd (P (in_cache d)) c l) -> limited P -> limited (pset P (in_cache d) c l).
Proof.
  intros Hl HP d'. destruct (Z.eq_dec d' d) as [->|Hne].
  - eapply within_limits_ext; [|exact Hl]. intros i. apply pset_cache.
  - eapply within_limits_ext; [|apply (HP d')]. intros i. rewrite pset_place; [done|]. congruence.
Qed.

Lemma within_limits_shrink K c cap l :
  is_class c cap -> within_limits K -> (length l <= length (K c))%nat -> within_limits (kupd K c l).
Proof.
  intros Hcl [Hn Hb] Hl. pose proof (is_class_capacity_bounds _ _ Hcl). split.
  - intros j Hj. destruct (Z.eq_dec j c) as [->|]; [rewrite kupd_eq|rewrite kupd_ne by done; auto].
    specialize (Hn _ Hj). lia.
  - rewrite (cached_bytes_kupd _ _ Hcl). nia.
Qed.

Lemma limited_ext P P' : (forall x c, P' x c = P x c) -> limited P -> limited P'.
Proof. intros HP HL d. eapply within_limits_ext; [|apply HL]. intros i. apply HP. Qed.
End hands.

#[export] Hint Resolve hands_of_empty hands_pset_hand hands_pset_grasp hands_pset_other : hplf.

(** ** Small effects *)

Section effects.
Context `{Build, Platform, !PlatformLaws, Pthreads, !PthreadLaws}.
Implicit Types (s : cached_allocator) (m : memory) (P : placement).

Lemma allocated_request m k b n :
  arena_wf m -> objs m !! k = Some (OBlock b) -> requested_size b = 0 -> 1 <= n <= capacity b ->
  allocated m (set_objs <[k := OBlock (set_requested_size n b)]> m) n (k + PREFIX).
Proof.
  intros Hwf Hk Hz Hn. pose proof (object_address_pos _ _ _ Hwf Hk).
  split; replace (k + PREFIX - PREFIX) with k by lia.
  - exists (set_requested_size n b). split_and!; [apply lookup_insert_eq|done|simpl; lia..].
  - apply lookup_live_None. intros b' ?. congruence.
  - simpl. rewrite live_insert_block. simpl. by destruct (Z.eqb_spec n 0); [lia|].
  - intros k' n' Hl _. split; [|done]. simpl. rewrite lookup_insert_ne; [done|].
    intros ->. apply lookup_live in Hl as (b' & ? & <- & ?). congruence.
Qed.

Lemma released_request m k b :
  objs m !! k = Some (OBlock b) -> released m (set_objs <[k := OBlock (set_requested_size 0 b)]> m) k.
Proof.
  intros Hk. split.
  - simpl. by rewrite live_insert_block.
  - intros k' n' _ Hl. split; [|done]. simpl in *. rewrite live_insert_block in Hl. simpl in Hl.
    apply lookup_delete_Some in Hl as [? _]. by rewrite lookup_insert_ne.
Qed.

Lemma allocated_unchanged m m1 m2 n p : unchanged m m1 -> allocated m1 m2 n p -> allocated m m2 n p.
Proof. intros [Hl Hp]. by apply allocated_after. Qed.

Lemma released_around m m1 m2 m3 k : unchanged m m1 -> released m1 m2 k -> unchanged m2 m3 -> released m m3 k.
Proof.
  intros [L1 P1] [L2 P2] [L3 P3]. split; [by rewrite L3, L2, L1|].
  eapply preserved_trans_eq; [exact P1| |by intros x n Hx _; rewrite L1].
  eapply preserved_trans_eq; [exact P2|exact P3|]. intros x n _ Hx. by rewrite <- L3.
Qed.

Lemma cached_inv_tallied P s s' : cached_inv P s -> tallied s s' -> cached_inv P s'.
Proof.
  intros V [Hb Ht Hh Hth]. split; [by rewrite Ht; apply V|rewrite Hb, Hh; apply V|]. rewrite Hb.
  destruct (cv_threads _ _ V) as [Ta Ti Td]. split.
  - intros t. destruct (Hth t) as (E1 & E2 & E3). rewrite !thread_of_in in *. rewrite E1, E2, E3. apply Ta.
  - intros t. destruct (Hth t) as (E1 & E2 & E3). rewrite !thread_of_in in *. rewrite E2, E3. apply Ti.
  - intros t1 t2. destruct (Hth t1) as (E1 & E2 & _), (Hth t2) as (E3 & E4 & _). rewrite !thread_of_in in *.
    rewrite E1, E2, E3, E4. apply Td.
Qed.

Lemma tallied_discreet s s' : tallied s s' -> discreet s s'.
Proof. intros T. split; rewrite (ta_base _ _ T); [apply unchanged_refl|done]. Qed.

Lemma wp_count_stat self f (Q : unit -> cached_allocator -> Prop) s :
  (forall s', tallied s s' -> Q tt s') -> wp (count_stat self f) Q s.
Proof.
  intros HQ. unfold count_stat. destruct HPLF_TESTING; [apply wp_update_thread|apply wp_ret; by apply HQ].
  apply HQ. split; try done. intros t. rewrite !thread_of_in. cbn. rewrite thread_in_insert. by case_decide; subst.
Qed.

Lemma cached_inv_relocked P s s' : cached_inv P s -> relocked s s' -> cached_inv P s'.
Proof.
  intros V R. split.
  - rewrite (rl_transfers _ _ R). apply V.
  - rewrite (rl_mem _ _ R), (rl_slabs _ _ R), (rl_heads _ _ R). apply V.
  - rewrite (rl_mem _ _ R), (rl_threads _ _ R). apply V.
Qed.

Lemma relocked_trans s1 s2 s3 : relocked s1 s2 -> relocked s2 s3 -> relocked s1 s3.
Proof. intros [] []. split; congruence. Qed.

Lemma wp_c_registry_lock_exact (Q : Z -> cached_allocator -> Prop) s :
  registry_held (base s) = false ->
  (forall s', relocked s s' -> registry_held (base s') = (sys_mutex_lock (sys_calls (mach (base s))) =? 0) ->
     sys_calls (mach (base s')) = Datatypes.S (sys_calls (mach (base s))) -> Q (sys_mutex_lock (sys_calls (mach (base s)))) s') ->
  wp (on_base registry_lock) Q s.
Proof.
  intros Hh HQ. apply wp_on_base. unfold registry_lock, on_machine, tick. wp_steps. rewrite Hh.
  destruct (Z.eqb_spec (sys_mutex_lock (sys_calls (mach (base s)))) 0) as [E|E]; wp_steps; [rewrite E in HQ|]; by apply HQ.
Qed.

Lemma wp_c_registry_unlock (Q : Z -> cached_allocator -> Prop) s :
  registry_held (base s) = true ->
  (forall s', relocked s s' -> registry_held (base s') = false -> Q 0 s') -> wp (on_base registry_unlock) Q s.
Proof.
  intros Hh Hok. apply wp_on_base, wp_registry_unlock; [done|]. intros b (Hm & _ & Hs) Hr _. apply Hok; [by split|done].
Qed.

Lemma wp_c_registry_unlock_exact (Q : Z -> cached_allocator -> Prop) s :
  registry_held (base s) = true ->
  (forall s', relocked s s' -> registry_held (base s') = false -> mach (base s') = count_call (mach (base s)) -> Q 0 s') ->
  wp (on_base registry_unlock) Q s.
Proof.
  intros Hh Hok. apply wp_on_base. unfold registry_unlock, on_machine, tick. wp_steps; [done|].
  rewrite mutex_unlock_succeeds. cbn [Z.eqb]. wp_steps. by apply Hok.
Qed.

(** *** Threads *)

Lemma same_threads_refl s : same_threads s s.
Proof. by intros t. Qed.

Lemma same_threads_trans s1 s2 s3 : same_threads s1 s2 -> same_threads s2 s3 -> same_threads s1 s3.
Proof. intros T1 T2 t. destruct (T1 t), (T2 t). split; congruence. Qed.

Lemma same_threads_eq s s' : threads s' = threads s -> same_threads s s'.
Proof. intros E t. by rewrite !thread_of_in, E. Qed.

Lemma same_threads_tallied s s' : tallied s s' -> same_threads s s'.
Proof. intros T t. by destruct (ta_threads _ _ T t) as (-> & -> & _). Qed.

Lemma cache_of_same self d s s' :
  same_threads s s' -> (has_descriptor (c_mem s) d -> has_descriptor (c_mem s') d) -> cache_of self s d -> cache_of self s' d.
Proof.
  intros Hth Hd [[? ?]|(? & ? & ? & ?)]; destruct (Hth self) as [E1 E2]; [left|right]; rewrite E1, ?E2; auto.
Qed.

Lemma wlp_acquire_settled self s :
  current_state (thread_of self s) <> HPLF_CACHE_UNINITIALIZED -> wlp (hplf_cache_acquire self) (fun _ s' => s' = s) s.
Proof.
  intros Hst. unfold hplf_cache_acquire. apply wlp_bind, wlp_wp. wp_step.
  destruct (current_state (thread_of self s)); [done|by apply wlp_ret..].
Qed.
End effects.

#[export] Hint Resolve same_threads_refl same_threads_tallied : hplf.

(** ** Refilling *)

Section refill.
Context `{Build, Platform, !PlatformLaws, Pthreads, !PthreadLaws}.
Implicit Types (s : cached_allocator) (m : memory) (P : placement).

Definition keeps_descriptors m m' : Prop := forall d, has_descriptor m d -> has_descriptor m' d.

Lemma keeps_reshuffled m m' : reshuffled m m' -> keeps_descriptors m m'.
Proof. intros R d Hd. by apply (reshuffled_descriptor _ _ _ R). Qed.

(** The effect every step of an allocation has. *)
Record unobtrusive s s' : Prop := {
  un_mem : unchanged (c_mem s) (c_mem s');
  un_descriptors : keeps_descriptors (c_mem s) (c_mem s');
  un_threads : same_threads s s'
}.

Lemma unobtrusive_trans s1 s2 s3 : unobtrusive s1 s2 -> unobtrusive s2 s3 -> unobtrusive s1 s3.
Proof. intros [] []. split; [by eapply unchanged_trans| |by eapply same_threads_trans]. intros d Hd. auto. Qed.

Lemma unobtrusive_mem s s' : c_mem s' = c_mem s -> same_threads s s' -> unobtrusive s s'.
Proof. intros E T. split; rewrite ?E; [apply unchanged_refl| |done]. by intros d. Qed.

Lemma unobtrusive_tallied s s' : tallied s s' -> unobtrusive s s'.
Proof. intros T. apply unobtrusive_mem; [by rewrite (ta_base _ _ T)|auto with hplf]. Qed.

Lemma unobtrusive_relocked s s' : relocked s s' -> unobtrusive s s'.
Proof. intros R. apply unobtrusive_mem; [apply R|]. apply same_threads_eq, R. Qed.

Lemma unobtrusive_shuffled s s' : shuffled s s' -> unobtrusive s s'.
Proof.
  intros R. split; [apply reshuffled_unchanged, R|apply keeps_reshuffled, R|]. apply same_threads_eq, R.
Qed.

(** *** The supply, as the state goes on *)

(** Slab headers stay, and blocks stay with their slabs. *)
Definition keeps_owners m m' : Prop :=
  (forall a h, objs m !! a = Some (OSlab h) -> objs m' !! a = Some (OSlab h)) /\
  (forall k b, objs m !! k = Some (OBlock b) -> exists b', objs m' !! k = Some (OBlock b') /\ owner b' = owner b).

Lemma keeps_owners_reshuffled m m' : reshuffled m m' -> keeps_owners m m'.
Proof.
  intros R. split; [intros a h; apply (reshuffled_slab _ _ _ _ R)|]. intros k b Hk.
  destruct (reshuffled_lookup _ _ _ _ R Hk) as (o & Ho & Hs). inversion Hs; subst. by eexists.
Qed.

Lemma keeps_owners_request m k b n :
  objs m !! k = Some (OBlock b) -> keeps_owners m (set_objs <[k := OBlock (set_requested_size n b)]> m).
Proof.
  intros Hk. split; cbn.
  - intros a h Ha. by rewrite lookup_insert_ne by congruence.
  - intros k' b' Hk'. destruct (Z.eq_dec k' k) as [->|]; [rewrite lookup_insert_eq; simplify_eq; by eexists|].
    rewrite lookup_insert_ne by done. by exists b'.
Qed.

Lemma keeps_owners_trans m1 m2 m3 : keeps_owners m1 m2 -> keeps_owners m2 m3 -> keeps_owners m1 m3.
Proof. intros [A1 B1] [A2 B2]. split; [auto|]. intros k b Hk. destruct (B1 _ _ Hk) as (b1 & Hb1 & E1).
  destruct (B2 _ _ Hb1) as (b2 & ? & ?). exists b2. split; [done|congruence]. Qed.

Lemma supply_later P c s s1 s' l :
  supply P c s s1 l -> slabs (base s') = slabs (base s1) -> keeps_owners (c_mem s1) (c_mem s') -> supply P c s s' l.
Proof.
  intros [[HP Hs]|[HP [(h & Hh & Hrest) Hb Hf]]] E [KS KB]; [left; by rewrite E|right]. split; [done|]. split; rewrite ?E.
  - exists h. split; [by apply KS|done].
  - intros b Hin. destruct (Hb _ Hin) as (blk & Hblk & Ho). destruct (KB _ _ Hblk) as (blk' & ? & E'). exists blk'. split; [done|congruence].
  - done.
Qed.

Lemma supply_earlier P c s s1 s' l : slabs (base s1) = slabs (base s) -> supply P c s1 s' l -> supply P c s s' l.
Proof. intros E [[HP Hs]|[HP [Hh Hb Hf]]]; [left; by rewrite <- E|right]. split; [done|]. split; by rewrite <- ?E. Qed.

Lemma supplying_hands P c l : hands P c [] [] -> hands (supplying P c l) c l [].
Proof. intros Hh. unfold supplying. eapply hands_pset_hand, hands_pset_other; [auto with hplf|exact Hh]. Qed.

Lemma supplying_cache P c l d i : supplying P c l (in_cache d) i = P (in_cache d) i.
Proof. unfold supplying. by rewrite !pset_place. Qed.

Lemma refill_limit_ext K K' c cap : (forall i, K' i = K i) -> refill_limit K' c cap = refill_limit K c cap.
Proof. intros HK. unfold refill_limit. rewrite HK, (cached_bytes_ext K K'); [done|]. intros i _. by rewrite HK. Qed.

Lemma limited_supplying P c l : limited P -> limited (supplying P c l).
Proof. intros HL d. eapply within_limits_ext; [|apply HL]. intros i. apply supplying_cache. Qed.

Lemma supplying_nothing P c x i : hands P c [] [] -> P in_transfer c = [] -> P x i = detached_from P c x i.
Proof.
  intros (Hh & _) Ht. unfold detached_from, pset. repeat case_decide; destruct_and?; subst; rewrite ?Hh, ?Ht; done.
Qed.

(** A new slab in place: the registry and its chain. *)
Lemma new_slab_in_place P s (t' : machine) c a head h l :
  cached_inv P s -> P in_hand c = [] -> slab_created (c_mem s) (mem t') c a head h l ->
  let m' := set_objs <[a := OSlab (set_slab_next (slabs (base s)) h)]> (mem t') in
  unchanged (c_mem s) m' /\ keeps_descriptors (c_mem s) m' /\ chain (block_next (objs m')) head l /\
  pool_inv m' a (transfer_heads s) (pset P in_hand c l) /\ threads_ok (objs m') (threads s).
Proof.
  intros V Hh SC m'. pose proof (cv_pool _ _ V) as I. pose proof (sc_slab _ _ _ _ _ _ _ SC) as Ha.
  assert (Hold : forall k o, c_objs s !! k = Some o -> objs m' !! k = Some o).
  { intros k o Hk. cbn. pose proof (sc_fresh _ _ _ _ _ _ _ SC). rewrite lookup_insert_ne by congruence. by eapply sc_old. }
  split_and!.
  - split; cbn.
    + rewrite (live_insert_slab _ _ h) by done. by eapply slab_created_live.
    + eapply preserved_trans_eq; [eapply preserved_slab_created; [apply I|exact SC]|by eapply preserved_update_slab|].
      intros k n Hl _. by rewrite (slab_created_live _ _ _ _ _ _ _ SC).
  - intros d [dsc Hd]. exists dsc. by apply Hold.
  - eapply chain_ext; [apply SC|]. intros b Hb. unfold block_next, block_at. cbn.
    destruct (sc_free _ _ _ _ _ _ _ SC _ Hb) as (blk & Hblk & _). rewrite lookup_insert_ne by congruence. done.
  - by eapply pool_new_slab.
  - eapply threads_ok_objs; [apply V|]. intros t dsc _ Hd. exists dsc. by apply Hold.
Qed.

(** The blocks found or created for a refill are in the hand. *)
Definition supplied P c s (t : hplf_transfer_list) s' : Prop :=
  exists l, l <> [] /\ supply P c s s' l /\ cached_inv (supplying P c l) s' /\ describes (c_objs s') t l.

(** Nothing was left to hand out: the lock was refused, or the new slab, by the last
    calls made. *)
Definition refused_by c cap s' : Prop :=
  (exists t, sys_calls (mach (base s')) = Datatypes.S t /\ sys_mutex_lock t <> 0 /\
     errno (mach (base s')) = sys_mutex_lock t) \/
  (exists t t' o1 o2, hplf_slab_create c cap (Cell None) (Cell None) t = Done (false, o1, o2) t' /\
     mach (base s') = put_errno ENOMEM (count_call t')).

Definition refill_post P c cap s (r : option hplf_transfer_list) s' : Prop :=
  registry_held (base s') = false /\ unobtrusive s s' /\
  match r with
  | Some t => supplied P c s t s'
  | None => cached_inv P s' /\ P in_transfer c = [] /\ refused_by c cap s'
  end.

Lemma refill_post_after P c cap s s1 r s' :
  unobtrusive s s1 -> slabs (base s1) = slabs (base s) -> refill_post P c cap s1 r s' -> refill_post P c cap s r s'.
Proof.
  intros U E (? & ? & Hr). split; [done|]. split; [by eapply unobtrusive_trans|]. destruct r; [|done].
  destruct Hr as (l & ? & ? & ? & ?). exists l. split_and!; try done. by eapply supply_earlier.
Qed.

(** What was detached is the supply. *)
Lemma supplied_detached P c s t s1 s' :
  P in_transfer c <> [] -> describes (c_objs s1) t (P in_transfer c) ->
  cached_inv (detached_from P c) s' -> c_mem s' = c_mem s1 -> slabs (base s') = slabs (base s) ->
  supplied P c s t s'.
Proof. intros Hne Hdes V' Hm Hs. exists (P in_transfer c). split_and!; [done|by left|done|by rewrite Hm]. Qed.

Lemma wp_create_and_register self P c cap s :
  cached_inv P s -> hands P c [] [] -> P in_transfer c = [] -> registry_held (base s) = true -> is_class c cap ->
  wp (created ← on_c_machine (viaM2 (hplf_slab_create c cap));
      match created with
      | None => on_base registry_unlock;; set_errno_c ENOMEM;; mret None
      | Some (slab, new_free_list) =>
          registered ← gets (fun s => slabs (base s));
          on_c_mem (store_slab slab (set_slab_next registered));;
          on_base (modify (set_slabs slab));;
          available ← on_c_mem (hplf_transfer_list_from_chain new_free_list);
          count_stat self add_slab_misses;;
          on_base registry_unlock;;
          mret (Some available)
      end) (refill_post P c cap s) s.
Proof.
  intros V Hh Ht Hheld Hcl. pose proof (cv_pool _ _ V) as I. wp_step. apply wp_on_c_machine, wp_viaM2.
  eapply wp_mono; [apply wp_wlp; [apply wp_slab_create; [apply I|done]|by intros ? ? E; exact E]|].
  intros [[[] out1] out2] t' [HR E].
  2: { destruct HR as (-> & -> & Hm). wp_step. apply wp_c_registry_unlock_exact; [done|]. intros s1 R1 Hr1 Hm1. wp_step.
       apply wp_set_errno_c. wp_steps. split; [done|].
       assert (R : relocked s s1) by (eapply relocked_trans; [|exact R1]; split; done).
       split; [eapply unobtrusive_trans; [by apply unobtrusive_relocked|by apply unobtrusive_mem; [|auto with hplf]]|].
       split; [|split; [done|]].
       - eapply cached_inv_relocked; [exact V|]. eapply relocked_trans; [exact R|]. by split.
       - right. exists (mach (base s)), t', (Cell None), (Cell None). split; [exact E|]. cbn. by rewrite Hm1. }
  destruct HR as (a & head & h & l & -> & -> & SC). pose proof (sc_slab _ _ _ _ _ _ _ SC) as Ha.
  destruct (new_slab_in_place _ _ _ _ _ _ _ _ V (proj1 Hh) SC) as (Hun & Hkeep & Hch & I' & T').
  set (m' := set_objs <[a := OSlab (set_slab_next (slabs (base s)) h)]> (mem t')) in *.
  wp_steps. apply wp_on_c_mem. eapply wp_store_slab; [by apply slab_at_Some|].
  wp_step. apply wp_on_base. wp_step. wp_step. apply wp_on_c_mem.
  pose proof (pool_length _ _ _ _ in_hand c I') as Hlen. rewrite pset_eq in Hlen.
  eapply wp_mono; [by eapply (wp_from_chain m' head l)|]. intros t m2 (-> & _ & Hdes).
  match goal with |- wp _ _ ?x => set (s2 := x) end.
  assert (V2 : cached_inv (pset P in_hand c l) s2) by (split; [apply V|exact I'|exact T']).
  wp_step. apply wp_count_stat. intros s3 T3. wp_step.
  apply wp_c_registry_unlock; [by rewrite (ta_base _ _ T3)|]. intros s4 R4 Hr4. wp_steps. split; [done|].
  assert (Hm4 : c_mem s4 = m') by (rewrite (rl_mem _ _ R4), (ta_base _ _ T3); done).
  assert (Hs4 : slabs (base s4) = a) by (rewrite (rl_slabs _ _ R4), (ta_base _ _ T3); done).
  assert (Hth : same_threads s s4).
  { eapply (same_threads_trans _ s2); [by apply same_threads_eq|]. eapply same_threads_trans; [by apply same_threads_tallied|].
    apply same_threads_eq, R4. }
  split; [by split; rewrite ?Hm4|]. exists l. split_and!.
  - apply SC.
  - right. split; [done|]. split; rewrite ?Hs4, ?Hm4.
    + exists (set_slab_next (slabs (base s)) h). cbn. rewrite lookup_insert_eq. split_and!; [done|done|apply SC|apply SC].
    + intros b Hb. destruct (sc_free _ _ _ _ _ _ _ SC _ Hb) as (blk & Hblk & _ & Ho & _). exists blk. split; [|done].
      cbn. by rewrite lookup_insert_ne by congruence.
    + intros b x i Hb Hx. destruct (pool_block _ _ _ _ _ _ _ I Hx) as (blk & Hblk & _).
      pose proof (sc_fresh_blocks _ _ _ _ _ _ _ SC _ Hb). congruence.
  - eapply cached_inv_ext; [eapply cached_inv_relocked; [by eapply cached_inv_tallied|exact R4]|].
    intros x i. unfold supplying, pset. repeat case_decide; destruct_and?; subst; done.
  - by rewrite Hm4.
Qed.

Lemma wp_recheck_or_create self P c cap s :
  cached_inv P s -> hands P c [] [] -> registry_held (base s) = true -> is_class c cap ->
  wp (recheck_or_create self c cap) (refill_post P c cap s) s.
Proof.
  intros V Hh Hheld Hcl. pose proof (is_class_index _ _ Hcl) as Hc. unfold recheck_or_create. wp_step.
  eapply wp_mono; [exact (wp_detach_list P c s V (proj1 Hh) Hc)|]. intros t s1 (Hdes & S1 & Hm1 & V1).
  pose proof (describes_nil_iff _ _ _ (de_prefix _ _ _ Hdes)) as Hnil.
  destruct (Z.eqb_spec (tl_first t) NULL) as [E|E].
  - apply Hnil in E. assert (V1' : cached_inv P s1).
    { eapply cached_inv_ext; [exact V1|]. intros x i. by apply supplying_nothing. }
    eapply wp_mono; [apply wp_create_and_register; [exact V1'|done|done|by rewrite (sh_held _ _ S1)|done]|].
    intros r s'. apply refill_post_after; [by apply unobtrusive_shuffled|apply S1].
  - wp_step. apply wp_count_stat. intros s2 T2. wp_step.
    apply wp_c_registry_unlock; [by rewrite (ta_base _ _ T2), (sh_held _ _ S1)|]. intros s3 R3 Hr3. wp_steps.
    assert (Hm3 : c_mem s3 = c_mem s1) by (rewrite (rl_mem _ _ R3), (ta_base _ _ T2); done).
    split; [done|]. split.
    { eapply unobtrusive_trans; [by apply unobtrusive_shuffled|]. eapply unobtrusive_trans; [by apply unobtrusive_tallied|].
      by apply unobtrusive_relocked. }
    eapply supplied_detached; [by rewrite <- Hnil|exact Hdes| |done|].
    + eapply cached_inv_relocked; [|exact R3]. by eapply cached_inv_tallied.
    + by rewrite (rl_slabs _ _ R3), (ta_base _ _ T2), (sh_slabs _ _ S1).
Qed.

Lemma wp_refill_available self P c cap s :
  cached_inv P s -> hands P c [] [] -> registry_held (base s) = false -> is_class c cap ->
  wp (refill_available self c cap) (refill_post P c cap s) s.
Proof.
  intros V Hh Hheld Hcl. pose proof (is_class_index _ _ Hcl) as Hc. unfold refill_available. wp_step.
  eapply wp_mono; [exact (wp_detach_list P c s V (proj1 Hh) Hc)|]. intros t s1 (Hdes & S1 & Hm1 & V1).
  pose proof (describes_nil_iff _ _ _ (de_prefix _ _ _ Hdes)) as Hnil.
  destruct (Z.eqb_spec (tl_first t) NULL) as [E|E].
  - apply Hnil in E. assert (V1' : cached_inv P s1).
    { eapply cached_inv_ext; [exact V1|]. intros x i. by apply supplying_nothing. }
    wp_step. apply wp_c_registry_lock_exact; [by rewrite (sh_held _ _ S1)|]. intros s2 R2 Hr2 Hc2.
    assert (U2 : unobtrusive s s2).
    { eapply unobtrusive_trans; [by apply unobtrusive_shuffled|by apply unobtrusive_relocked]. }
    destruct (Z.eqb_spec (sys_mutex_lock (sys_calls (mach (base s1)))) 0) as [El|El]; cbn [negb].
    + eapply wp_mono; [apply wp_recheck_or_create; [by eapply cached_inv_relocked|done|done|done]|].
      intros r s'. apply refill_post_after; [exact U2|]. by rewrite (rl_slabs _ _ R2), (sh_slabs _ _ S1).
    + wp_step. apply wp_set_errno_c. wp_steps. split; [done|].
      split; [eapply unobtrusive_trans; [exact U2|by apply unobtrusive_mem; [|auto with hplf]]|]. split; [|split; [done|]].
      * eapply cached_inv_relocked; [exact V1'|]. eapply relocked_trans; [exact R2|]. by split.
      * left. exists (sys_calls (mach (base s1))). split; [exact Hc2|]. done.
  - wp_step. apply wp_count_stat. intros s2 T2. wp_steps.
    split; [by rewrite (ta_base _ _ T2), (sh_held _ _ S1)|]. split.
    { eapply unobtrusive_trans; [by apply unobtrusive_shuffled|by apply unobtrusive_tallied]. }
    eapply supplied_detached; [by rewrite <- Hnil|exact Hdes|by eapply cached_inv_tallied|by rewrite (ta_base _ _ T2)|].
    by rewrite (ta_base _ _ T2), (sh_slabs _ _ S1).
Qed.
End refill.

(** ** Allocating *)

Section allocate.
Context `{Build, Platform, !PlatformLaws, Pthreads, !PthreadLaws}.
Implicit Types (s : cached_allocator) (m : memory) (P : placement).

(** One block is grasped, the cache has its share, the rest of the supply is in the hand. *)
Definition grasped P d c cap l s (r : Z * hplf_transfer_list) s' : Prop :=
  exists l1 l2, l = r.1 :: l1 ++ l2 /\ refill_share P d c cap l l1 /\
    (let P' := grasping P d c r.1 l1 l2 in cached_inv P' s' /\ limited P' /\ hands P' c l2 [r.1]) /\
    describes (c_objs s') r.2 l2 /\ r.1 <> NULL /\ shuffled s s'.

Lemma cached_inv_mem P P' s m :
  cached_inv P s -> reshuffled (c_mem s) m -> pool_inv m (slabs (base s)) (transfer_heads s) P' ->
  cached_inv P' (with_c_mem m s).
Proof. intros V R I. eapply cached_inv_intro; [exact V|apply V|exact R|done|exact I]. Qed.

(** Taking one block from the hand. *)
Lemma wp_take_direct P c l t s :
  cached_inv P s -> limited P -> hands P c l [] -> l <> [] -> describes (c_objs s) t l ->
  wp (d ← on_c_mem (hplf_transfer_list_take_prefix t 1); mret (tl_first d.2, d.1)) (fun r s' => exists l2, l = r.1 :: l2 /\
    (let P' := pset (pset P in_hand c l2) in_grasp c [r.1] in cached_inv P' s' /\ limited P' /\ hands P' c l2 [r.1]) /\
    describes (c_objs s') r.2 l2 /\ r.1 <> NULL /\ shuffled s s') s.
Proof.
  intros V HL Hh Hne Hdes. pose proof (cv_pool _ _ V) as I. destruct Hh as (Hhand & Hgrasp & Hoth).
  pose proof (pool_length _ _ _ _ in_hand c I) as Hlen. rewrite Hhand in Hlen.
  wp_step. apply wp_on_c_mem. eapply wp_mono; [apply (wp_take_prefix _ t l 1); [apply Hdes|done|lia]|].
  intros [t' out] m' (l1 & l2 & T). cbn [fst snd] in T. wp_step.
  pose proof (tp_split _ _ _ _ _ _ _ _ _ T) as Hsp. pose proof (tp_length _ _ _ _ _ _ _ _ _ T) as Hl1.
  pose proof (reworked_relinked _ _ _ (tp_relinked _ _ _ _ _ _ _ _ _ T)) as R.
  assert (Hone : exists b, l1 = [b]).
  { destruct l as [|x l]; [done|]. simpl in Hl1. destruct l1 as [|b [|]]; simpl in Hl1; [lia|by exists b|lia]. }
  destruct Hone as [b ->]. destruct (tp_out _ _ _ _ _ _ _ _ _ T) as [[Hch _] _]. destruct Hch as (Hb & Hb0 & _).
  assert (HS : forall k, k ∈ [b] -> exists x i, k ∈ P x i).
  { intros k Hk. exists in_hand, c. rewrite Hhand, Hsp. set_solver. }
  pose proof (pool_reshuffled _ _ _ _ _ _ _ I R HS) as Rs.
  exists l2. cbn [fst snd]. rewrite Hb. split; [done|]. cbv zeta. split_and!.
  - eapply cached_inv_mem; [exact V|exact Rs|]. eapply pool_private_move; [exact I|exact R| |].
    + intros k Hk. left. rewrite Hhand, Hsp. set_solver.
    + rewrite Hhand, Hgrasp, app_nil_r, Hsp. apply Permutation_app_comm.
  - apply limited_pset; [done|]. by apply limited_pset.
  - eapply hands_pset_grasp, hands_pset_hand. by split_and!.
  - split; [apply T|apply (tp_last _ _ _ _ _ _ _ _ _ T), Hdes].
  - done.
  - by apply shuffled_mem.
Qed.

Lemma pool_cache_disjoint P s z d c : 
  cached_inv P s -> private z -> forall j b, 0 <= j < HPLF_SIZE_CLASS_COUNT -> b ∈ P z c -> b ∉ P (in_cache d) j.
Proof.
  intros V Hz j b _ Hb Hb'. destruct (pool_lists_disjoint _ _ _ _ _ _ _ _ _ (cv_pool _ _ V) Hb Hb') as [E _].
  destruct Hz; congruence.
Qed.

(** Taking the first cached block of a class. *)
Lemma wp_take_cached P d c cap b l lh s :
  cached_inv P s -> limited P -> hands P c lh [] -> has_descriptor (c_mem s) d -> is_class c cap ->
  P (in_cache d) c = b :: l ->
  wp (on_c_mem (hplf_thread_cache_take d c cap)) (fun r s' => r = b /\ b <> NULL /\ shuffled s s' /\
    let P' := pset (pset P (in_cache d) c l) in_grasp c [b] in
    cached_inv P' s' /\ limited P' /\ hands P' c lh [b] /\
    (forall k, k <> b -> (exists blk, c_objs s !! k = Some (OBlock blk)) -> c_objs s' !! k = c_objs s !! k)) s.
Proof.
  intros V HL Hh [dsc Hd] Hcl HK. pose proof (cv_pool _ _ V) as I. pose proof (pool_cache_at _ _ _ _ _ _ I Hd) as Hca.
  apply wp_on_c_mem. eapply wp_mono; [by eapply wp_cache_take|]. intros r m' (-> & R & Hca' & _).
  assert (Hb : b ∈ P (in_cache d) c) by (rewrite HK; left).
  assert (HS : forall k, k ∈ [b] -> exists x i, k ∈ P x i) by (intros k ->%list_elem_of_singleton; by eexists _, _).
  pose proof (pool_reshuffled _ _ _ _ _ _ _ I R HS) as Rs.
  destruct (cache_at_block _ _ _ c b Hca (is_class_index _ _ Hcl) Hb) as [Hb0 _].
  split; [done|]. split; [done|]. split; [by apply shuffled_mem|]. cbv zeta. split_and!.
  - eapply cached_inv_mem; [exact V|exact Rs|]. eapply pool_cache_move; [exact I|by right|exact R| | |done].
    + intros k ->%list_elem_of_singleton. by left.
    + destruct Hh as (_ & -> & _). rewrite HK, app_nil_r. symmetry. apply Permutation_cons_append.
  - apply limited_pset; [done|]. apply limited_pset_cache; [|done].
    eapply within_limits_shrink; [done|apply HL|]. rewrite HK. simpl. lia.
  - eapply hands_pset_grasp, hands_pset_other; [auto with hplf|exact Hh].
  - intros k Hk [blk Hblk]. apply (wk_out _ _ _ _ R); [set_solver|]. intros ->%list_elem_of_singleton. congruence.
Qed.

Lemma wp_refill_cache P d c cap l t s :
  cached_inv P s -> limited P -> hands P c l [] -> has_descriptor (c_mem s) d -> is_class c cap ->
  describes (c_objs s) t l -> P (in_cache d) c = [] ->
  wp (on_c_mem (hplf_thread_cache_refill d c cap t)) (fun t' s' => exists l1 l2, l = l1 ++ l2 /\
    Z.of_nat (length l1) = Z.min (Z.of_nat (length l)) (refill_limit (P (in_cache d)) c cap) /\
    shuffled s s' /\ has_descriptor (c_mem s') d /\
    (let P' := pset (pset P (in_cache d) c l1) in_hand c l2 in cached_inv P' s' /\ limited P' /\ hands P' c l2 []) /\
    describes (c_objs s') t' l2) s.
Proof.
  intros V HL Hh [dsc Hd] Hcl Hdes HK. pose proof (cv_pool _ _ V) as I. pose proof (pool_cache_at _ _ _ _ _ _ I Hd) as Hca.
  pose proof (pool_length _ _ _ _ in_hand c I) as Hlen. pose proof Hh as (Hhand & _). rewrite Hhand in Hlen.
  apply wp_on_c_mem. eapply wp_mono; [eapply (wp_cache_refill d (P (in_cache d)) c cap t l); [done|done|apply HL|done|done|]|].
  { intros j b Hj Hb. rewrite <- Hhand in Hb. by eapply pool_cache_disjoint; [exact V|by left| |exact Hb]. }
  intros t' m' (l1 & l2 & Hsp & Hl1 & Hdes' & R & Hca' & HL'). rewrite HK, app_nil_r in *.
  assert (HS : forall k, k ∈ l1 -> exists x i, k ∈ P x i).
  { intros k Hk. exists in_hand, c. rewrite Hhand, Hsp. set_solver. }
  pose proof (pool_reshuffled _ _ _ _ _ _ _ I R HS) as Rs.
  exists l1, l2. split; [done|]. split; [done|]. split; [by apply shuffled_mem|].
  split; [destruct Hca' as (dsc' & ? & _); by exists dsc'|]. split; [|exact Hdes']. cbv zeta. split; [|split].
  - eapply cached_inv_mem; [exact V|exact Rs|]. eapply pool_cache_move; [exact I|by left|exact R| | |done].
    + intros k Hk. right. rewrite Hhand, Hsp. set_solver.
    + by rewrite HK, Hhand, Hsp.
  - apply limited_pset; [done|]. by apply limited_pset_cache.
  - eapply hands_pset_hand, hands_pset_other; [auto with hplf|exact Hh].
Qed.

(** The cache had no room: the block is taken from the hand after all. *)
Lemma grasped_ext P P' d c cap l l1 l2 (r : Z * hplf_transfer_list) s s' :
  (forall x i, grasping P d c r.1 l1 l2 x i = P' x i) ->
  l = r.1 :: l1 ++ l2 -> refill_share P d c cap l l1 ->
  cached_inv P' s' /\ limited P' /\ hands P' c l2 [r.1] -> describes (c_objs s') r.2 l2 -> r.1 <> NULL ->
  shuffled s s' -> grasped P d c cap l s r s'.
Proof.
  intros HP -> Hsh (V & HL & E1 & E2 & E3) ? ? ?. exists l1, l2. split; [done|]. split; [done|]. split; [|done]. cbv zeta.
  split; [by eapply cached_inv_ext|]. split; [by eapply limited_ext|]. split_and!; rewrite ?HP; [done..|].
  intros i Hi. rewrite !HP. by apply E3.
Qed.

Lemma grasping_direct P d c b l2 x i :
  d <> NULL -> grasping P d c b [] l2 x i =
  pset (pset (pset (pset P (in_cache d) c []) in_hand c (b :: l2)) in_hand c l2) in_grasp c [b] x i.
Proof.
  intros Hd. unfold grasping, in_own, pset. destruct (Z.eqb_spec d NULL); [done|].
  repeat case_decide; naive_solver.
Qed.

Lemma grasping_cached P d c b l1 l2 x i :
  d <> NULL -> grasping P d c b l1 l2 x i =
  pset (pset (pset (pset P (in_cache d) c (b :: l1)) in_hand c l2) (in_cache d) c l1) in_grasp c [b] x i.
Proof.
  intros Hd. unfold grasping, in_own, pset. destruct (Z.eqb_spec d NULL); [done|].
  repeat case_decide; naive_solver.
Qed.

Lemma wp_take_after_refill P d c cap l t' l1 l2 s s1 :
  hands P c l [] -> l <> [] -> is_class c cap -> d <> NULL -> P (in_cache d) c = [] -> l = l1 ++ l2 ->
  Z.of_nat (length l1) = Z.min (Z.of_nat (length l)) (refill_limit (P (in_cache d)) c cap) ->
  (let P' := pset (pset P (in_cache d) c l1) in_hand c l2 in cached_inv P' s1 /\ limited P' /\ hands P' c l2 []) ->
  has_descriptor (c_mem s1) d -> describes (c_objs s1) t' l2 -> shuffled s s1 ->
  wp (on_c_mem (hplf_thread_cache_take d c cap)) (fun block s' =>
    wp (if block =? NULL then
          d ← on_c_mem (hplf_transfer_list_take_prefix t' 1); mret (tl_first d.2, d.1)
        else mret (block, t')) (grasped P d c cap l s) s') s1.
Proof.
  intros Hh Hne Hcl Hd0 HK Hsp Hl1 (V1 & HL1 & Hh1) Hd1 Hdes1 S1. pose proof Hh1 as (Hhand1 & _).
  set (P1 := pset (pset P (in_cache d) c l1) in_hand c l2) in *.
  assert (HK1 : P1 (in_cache d) c = l1) by (unfold P1; rewrite pset_place by done; apply pset_eq).
  destruct l1 as [|b l1].
  - eapply wp_mono with (P := fun r s' => r = NULL /\ s' = s1).
    { destruct Hd1 as [dsc Hdsc]. apply wp_on_c_mem. eapply wp_mono.
      - eapply wp_cache_take_empty; [eapply pool_cache_at; [apply V1|done]|done|done].
      - intros r m' [-> ->]. by rewrite with_c_mem_same. }
    intros r s2 [-> ->]. simpl Z.eqb. cbn iota. simpl in Hsp. subst l2.
    eapply wp_mono; [by eapply wp_take_direct|]. intros r s' (l2 & Hl & HP & Hdes & Hb0 & S2).
    eapply (grasped_ext _ _ _ _ _ _ []); [|exact Hl| |exact HP|exact Hdes|exact Hb0|by eapply shuffled_trans].
    + intros x i. unfold P1. rewrite Hl. by apply grasping_direct.
    + unfold refill_share. destruct (Z.eqb_spec d NULL); [done|]. simpl length in *. lia.
  - eapply wp_mono; [by eapply wp_take_cached|]. intros r s2 (-> & Hb0 & S2 & V2 & HL2 & Hh2 & Hfr).
    destruct (Z.eqb_spec b NULL); [done|]. wp_step.
    eapply (grasped_ext _ _ _ _ _ _ l1 l2); [|exact Hsp| |by split_and!| |done|by eapply shuffled_trans].
    + intros x i. by apply grasping_cached.
    + unfold refill_share. destruct (Z.eqb_spec d NULL); [done|]. simpl length in *. lia.
    + eapply describes_chain_eq; [|exact Hdes1]. intros k Hk.
      destruct (describes_block _ _ _ k Hdes1 Hk) as [_ Hblk]. apply Hfr; [|done]. intros ->.
      rewrite <- Hhand1 in Hk. assert (Hb : b ∈ P1 (in_cache d) c) by (rewrite HK1; left).
      destruct (pool_lists_disjoint _ _ _ _ _ _ _ _ _ (cv_pool _ _ V1) Hk Hb) as [? _]. done.
Qed.

Lemma wp_take_refilled P d c cap l t s :
  cached_inv P s -> limited P -> hands P c l [] -> l <> [] -> describes (c_objs s) t l -> is_class c cap ->
  (d = NULL \/ (d <> NULL /\ has_descriptor (c_mem s) d /\ P (in_cache d) c = [])) ->
  wp (take_refilled d c cap t) (grasped P d c cap l s) s.
Proof.
  intros V HL Hh Hne Hdes Hcl Hd. unfold take_refilled. destruct Hd as [->|(Hd0 & Hd & HK)].
  { wp_steps. cbn [Z.eqb negb NULL]. wp_steps. simpl Z.eqb. cbn iota.
    eapply wp_mono; [by eapply wp_take_direct|]. intros r s' (l2 & Hl & HP & Hdes' & Hb0 & S').
    by eapply (grasped_ext _ _ _ _ _ _ []). }
  destruct (Z.eqb_spec d NULL); [done|]. cbn [negb]. wp_step. wp_step.
  eapply wp_mono; [by eapply wp_refill_cache|]. intros t' s1 (l1 & l2 & Hsp & Hl1 & S1 & Hd1 & HP1 & Hdes1).
  wp_step. eapply wp_mono; [by eapply (wp_take_after_refill P d c cap l t' l1 l2 s s1)|]. intros r s' W. wp_step. exact W.
Qed.
End allocate.

(** ** hplf_malloc *)

(** What a null result means. *)
Definition cached_refused (n : Z) (s s' : cached_allocator) `{Platform} : Prop :=
  unchanged (c_mem s) (c_mem s') /\
  ((n = 0 /\ errno (mach (base s')) = errno (mach (base s))) \/ errno (mach (base s')) = ENOMEM \/
   exists t, errno (mach (base s')) = sys_mutex_lock t /\ sys_mutex_lock t <> 0).

Definition cached_malloc_post `{Platform} (n : Z) (s : cached_allocator) (p : Z) (s' : cached_allocator) : Prop :=
  cached_wf s' /\
  ((p = NULL /\ cached_refused n s s') \/ (p <> NULL /\ allocated (c_mem s) (c_mem s') n p)).

(** [d] is the calling thread's cache or null: the one it had, or, if this was its
    first call, a new one exactly when acquiring it succeeds. *)
Definition cache_during `{Build, Platform, Pthreads} (self : nat) (s s' : cached_allocator) (d : Z) : Prop :=
  cache_of self s' d /\
  if decide (current_state (thread_of self s) = HPLF_CACHE_UNINITIALIZED)
  then (d <> NULL /\ acquires s d) \/ (d = NULL /\ forall d', ~ acquires s d') else cache_of self s d.

(** The block handed out is the first of the thread's cache; when that has none, the
    first of the shared list; when that is empty, the first of a new slab. A refill
    leaves the cache its share [l1] and publishes the rest [l2]. *)
Inductive small_origin `{Platform} (P : placement) (d c cap b : Z) (l1 l2 : list Z) (s s' : cached_allocator) : Prop :=
| from_cache : own_list P d c = b :: l1 -> l2 = P in_transfer c -> slabs (base s') = slabs (base s) ->
    small_origin P d c cap b l1 l2 s s'
| from_refill : own_list P d c = [] -> supply P c s s' (b :: l1 ++ l2) -> refill_share P d c cap (b :: l1 ++ l2) l1 ->
    small_origin P d c cap b l1 l2 s s'.

Definition small_served `{Build, Platform, Pthreads} (self : nat) (c cap b : Z) (s s' : cached_allocator) : Prop :=
  exists P d l1 l2, cached_inv P s /\ limited P /\ hands_empty P /\ cache_during self s s' d /\
    small_origin P d c cap b l1 l2 s s' /\ cached_inv (replaced P d c l1 l2) s'.

(** Both lists of the class were empty and no slab could be made; every list is as it was. *)
Definition small_refused `{Build, Platform, Pthreads} (self : nat) (c cap : Z) (s s' : cached_allocator) : Prop :=
  exists P d, cached_inv P s /\ hands_empty P /\ cache_during self s s' d /\ own_list P d c = [] /\
    P in_transfer c = [] /\ refused_by c cap s' /\ cached_inv P s'.

(** A mapping of its own, or no memory for one. *)
Definition large_served `{Build, Platform} (n : Z) (s : cached_allocator) (p : Z) (s' : cached_allocator) : Prop :=
  exists t, s' = set_base (set_mach t (base s)) s /\
    ((p = NULL /\ mem t = c_mem s /\ errno t = ENOMEM /\ large_refused n (mach (base s))) \/
     (p <> NULL /\ large_created (c_mem s) (mem t) n p)).

(** What a request of [n] bytes is served from, by its size. *)
Definition malloc_source `{Build, Platform, Pthreads} (self : nat) (n : Z) (s : cached_allocator) (p : Z) (s' : cached_allocator) : Prop :=
  if n =? 0 then p = NULL /\ s' = s
  else if PTRDIFF_MAX <? n then p = NULL /\ s' = set_base (set_mach (put_errno ENOMEM (mach (base s))) (base s)) s
  else match class_for n with
  | Some (c, cap) => if p =? NULL then small_refused self c cap s s' else small_served self c cap (p - PREFIX) s s'
  | None => large_served n s p s'
  end.

Section malloc.
Context `{Build, Platform, !PlatformLaws, Pthreads, !PthreadLaws}.
Implicit Types (s : cached_allocator) (m : memory) (P : placement).

Lemma threads_ok_store_block m k b b' ths :
  threads_ok (objs m) ths -> objs m !! k = Some (OBlock b) -> threads_ok (<[k := OBlock b']> (objs m)) ths.
Proof.
  intros T Hk. eapply threads_ok_objs; [exact T|]. intros t dsc _ Hd. exists dsc.
  rewrite lookup_insert_ne by congruence. done.
Qed.

(** What the last steps of an allocation keep. *)
Record inert s s' : Prop := {
  in_unobtrusive : unobtrusive s s';
  in_slabs : slabs (base s') = slabs (base s);
  in_owners : keeps_owners (c_mem s) (c_mem s')
}.

Lemma inert_shuffled s s' : shuffled s s' -> inert s s'.
Proof. intros S. split; [by apply unobtrusive_shuffled|apply S|apply keeps_owners_reshuffled, S]. Qed.

Lemma inert_tallied s s' : tallied s s' -> inert s s'.
Proof.
  intros T. split; [by apply unobtrusive_tallied|by rewrite (ta_base _ _ T)|].
  rewrite (ta_base _ _ T). apply keeps_owners_reshuffled, reshuffled_refl.
Qed.

Lemma inert_trans s1 s2 s3 : inert s1 s2 -> inert s2 s3 -> inert s1 s3.
Proof. intros [] []. split; [by eapply unobtrusive_trans|congruence|by eapply keeps_owners_trans]. Qed.

(** The block [b] became the client's, the free blocks are placed as in [F]. *)
Record handed (F : placement) (b n : Z) s (p : Z) s' : Prop := {
  hd_result : p = b + PREFIX /\ p <> NULL;
  hd_held : registry_held (base s') = false;
  hd_inv : cached_inv F s' /\ limited F /\ hands_empty F;
  hd_allocated : allocated (c_mem s) (c_mem s') n p;
  hd_threads : same_threads s s';
  hd_descriptors : keeps_descriptors (c_mem s) (c_mem s');
  hd_slabs : slabs (base s') = slabs (base s);
  hd_owners : keeps_owners (c_mem s) (c_mem s')
}.

Lemma handed_after F b n s s1 p s' : inert s s1 -> handed F b n s1 p s' -> handed F b n s p s'.
Proof.
  intros [[Hun Hk Hth] Hs Ho] []. split; try done.
  - by eapply allocated_unchanged.
  - by eapply same_threads_trans.
  - intros d Hd. auto.
  - congruence.
  - by eapply keeps_owners_trans.
Qed.

(** The grasped block goes to the client. *)
Lemma wp_hand_out P c cap b n s :
  cached_inv P s -> limited P -> hands P c [] [b] -> registry_held (base s) = false -> is_class c cap -> 1 <= n <= cap ->
  wp (on_c_mem (store_block b (set_requested_size n));; mret (hplf_block_payload b)) (handed (pset P in_grasp c []) b n s) s.
Proof.
  intros V HL Hh Hheld Hcl Hn. pose proof (cv_pool _ _ V) as I. pose proof (pi_arena _ _ _ _ I) as Hwf.
  pose proof Hh as (_ & Hgrasp & _). assert (Hin : b ∈ P in_grasp c) by (rewrite Hgrasp; left).
  destruct (pool_block _ _ _ _ _ _ _ I Hin) as (blk & Hb & Hz & _ & Hcb).
  rewrite (is_class_functional _ _ _ Hcl Hcb) in Hn. pose proof (object_address_pos _ _ _ Hwf Hb).
  wp_step. apply wp_on_c_mem. eapply wp_store_block; [by apply block_at_Some|]. wp_steps.
  rewrite hplf_block_payload_eq by (unfold NULL; lia). split; try done.
  - unfold PREFIX, NULL. lia.
  - split; [|split; [by apply limited_pset|eapply empty_of_hands, hands_pset_grasp, Hh]].
    split; [apply V|by eapply pool_leave|]. eapply threads_ok_store_block; [apply V|exact Hb].
  - by apply allocated_request.
  - intros d [dsc Hd]. exists dsc. cbn. by rewrite lookup_insert_ne by congruence.
  - by apply keeps_owners_request.
Qed.

Lemma wp_publish_and_return self P c cap lh b t n s :
  cached_inv P s -> limited P -> hands P c lh [b] -> describes (c_objs s) t lh -> b <> NULL ->
  registry_held (base s) = false -> is_class c cap -> 1 <= n <= cap ->
  wp (publish_and_return self n c b t) (handed (pset (published_to P in_hand c) in_grasp c []) b n s) s.
Proof.
  intros V HL Hh Hdes Hb0 Hheld Hcl Hn. unfold publish_and_return. destruct (Z.eqb_spec b NULL); [done|].
  wp_step. apply wp_count_stat. intros s1 T1. pose proof (cached_inv_tallied _ _ _ V T1) as V1.
  pose proof Hh as (Hhand & _). rewrite <- Hhand in Hdes. wp_step.
  eapply wp_mono; [eapply (wp_publish P in_hand c t s1); [exact V1|by left|by eapply is_class_index|by rewrite (ta_base _ _ T1)]|].
  intros t' s2 (_ & S2 & V2). eapply wp_mono; [eapply (wp_hand_out (published_to P in_hand c) c cap b n s2); [exact V2| | | |done|done]|].
  - apply limited_pset; [done|]. by apply limited_pset.
  - eapply hands_pset_hand, hands_pset_other; [auto with hplf|exact Hh].
  - by rewrite (sh_held _ _ S2), (ta_base _ _ T1).
  - intros p s3 Hd. eapply handed_after; [|exact Hd]. eapply inert_trans; [by apply inert_tallied|by apply inert_shuffled].
Qed.

(** Where the blocks of a refill are in the end. *)
Lemma replaced_after P d c b l l1 l2 x i :
  hands_empty P ->
  replaced P d c l1 l2 x i = pset (published_to (grasping (supplying P c l) d c b l1 l2) in_hand c) in_grasp c [] x i.
Proof.
  intros He. destruct (He i) as [Eh Eg].
  assert (Ei : forall Q l', pset Q in_hand c l' in_hand c = l' /\ pset Q in_hand c l' in_transfer c = Q in_transfer c).
  { intros Q l'. split; [apply pset_eq|by apply pset_place]. }
  assert (Et : in_own (supplying P c l) d c l1 in_transfer c = []).
  { unfold in_own, supplying. destruct (d =? NULL); unfold pset; repeat case_decide; naive_solver. }
  unfold replaced, published_to, grasping. rewrite (pset_place _ in_grasp _ _ in_hand), (pset_place _ in_grasp _ _ in_transfer) by done.
  rewrite !(proj1 (Ei _ _)), !(proj2 (Ei _ _)), Et, app_nil_r. unfold in_own, supplying.
  destruct (Z.eqb_spec d NULL); unfold pset; repeat case_decide; naive_solver.
Qed.

(** A small allocation of the thread whose cache is [d], once that is known. *)
Definition small_post P (self : nat) (d c cap n : Z) s (p : Z) s' : Prop :=
  cached_wf s' /\ same_threads s s' /\ keeps_descriptors (c_mem s) (c_mem s') /\
  ((p = NULL /\ own_list P d c = [] /\ P in_transfer c = [] /\ refused_by c cap s' /\ cached_inv P s' /\
      unchanged (c_mem s) (c_mem s')) \/
   (p <> NULL /\ allocated (c_mem s) (c_mem s') n p /\ exists l1 l2,
      small_origin P d c cap (p - PREFIX) l1 l2 s s' /\ cached_inv (replaced P d c l1 l2) s')).

(** After the cache had no block of the class. *)
Lemma wp_allocate_slow self P d c cap n s :
  cached_inv P s -> limited P -> hands_empty P -> registry_held (base s) = false -> is_class c cap -> 1 <= n <= cap ->
  (d = NULL \/ (d <> NULL /\ has_descriptor (c_mem s) d /\ P (in_cache d) c = [])) ->
  wp (refilled ← refill_available self c cap;
      match refilled with
      | None => mret NULL
      | Some available =>
          r ← take_refilled d c cap available;
          let '(block, available) := r in publish_and_return self n c block available
      end) (small_post P self d c cap n s) s.
Proof.
  intros V HL He Hheld Hcl Hn Hd. pose proof (hands_of_empty _ c He) as Hh.
  assert (Hown : own_list P d c = []).
  { unfold own_list. destruct Hd as [->|(? & _ & ->)]; [done|]. by destruct (Z.eqb_spec d NULL). }
  wp_step. eapply wp_mono; [by eapply wp_refill_available|]. intros [t|] s1 (Hheld1 & U1 & Hr).
  - destruct Hr as (l & Hne & Hsup & V1 & Hdes1). wp_step.
    eapply wp_mono; [apply (wp_take_refilled _ d c cap l t s1 V1 (limited_supplying _ _ _ HL) (supplying_hands _ _ _ Hh) Hne Hdes1 Hcl)|].
    + destruct Hd as [?|(? & ? & HK)]; [by left|right]. split_and!; [done|by apply (un_descriptors _ _ U1)|by rewrite supplying_cache].
    + intros [b t'] s2 (l1 & l2 & Hl & Hsh & (V2 & HL2 & Hh2) & Hdes2 & Hb0 & S2). cbn [fst snd] in *.
      eapply wp_mono; [eapply wp_publish_and_return; try done; by rewrite (sh_held _ _ S2)|]. intros p s3 Hd3.
      pose proof (handed_after _ _ _ _ _ _ _ (inert_shuffled _ _ S2) Hd3) as []. destruct hd_result0 as [Hp Hp0].
      destruct hd_inv0 as (V3 & HL3 & He3). split; [split; [done|by eexists]|]. split; [eapply same_threads_trans; [apply U1|done]|].
      split; [intros k Hk; apply hd_descriptors0; by apply (un_descriptors _ _ U1)|]. right. split; [done|].
      split; [eapply allocated_unchanged; [apply U1|done]|]. exists l1, l2. split.
      * replace (p - PREFIX) with b by lia. apply from_refill; [done| |].
        -- rewrite <- Hl. by eapply supply_later.
        -- rewrite <- Hl. unfold refill_share in *. rewrite Hsh. by erewrite refill_limit_ext by (intros; apply supplying_cache).
      * eapply cached_inv_ext; [exact V3|]. intros x i. by apply replaced_after.
  - destruct Hr as (V1 & Ht & Href). wp_step. split; [split; [done|by exists P]|]. split; [apply U1|]. split; [apply U1|].
    left. split_and!; try done. apply U1.
Qed.

(** The thread's cache has a block of the class. *)
Lemma wp_allocate_fast self P d c cap b l n s :
  cached_inv P s -> limited P -> hands_empty P -> registry_held (base s) = false -> is_class c cap -> 1 <= n <= cap ->
  has_descriptor (c_mem s) d -> d <> NULL -> P (in_cache d) c = b :: l ->
  wp (on_c_mem (hplf_thread_cache_take d c cap)) (fun r s1 => r = b /\ r <> NULL /\
    wp (count_stat self add_local_hits;; on_c_mem (store_block r (set_requested_size n));; mret (hplf_block_payload r))
       (small_post P self d c cap n s) s1) s.
Proof.
  intros V HL He Hheld Hcl Hn Hd Hd0 HK. pose proof (hands_of_empty _ c He) as Hh.
  eapply wp_mono; [by eapply (wp_take_cached P d c cap b l [])|]. intros r s2 (-> & Hb0 & S2 & V2 & HL2 & Hh2 & _).
  split; [done|]. split; [done|]. wp_step. apply wp_count_stat. intros s3 T3.
  eapply wp_mono; [eapply (wp_hand_out _ c cap b n s3); [by eapply cached_inv_tallied|exact HL2|exact Hh2| |done|done]|].
  { by rewrite (ta_base _ _ T3), (sh_held _ _ S2). }
  intros p s4 Hd4. assert (Hin : inert s s3) by (eapply inert_trans; [by apply inert_shuffled|by apply inert_tallied]).
  pose proof (handed_after _ _ _ _ _ _ _ Hin Hd4) as []. destruct hd_result0 as [Hp Hp0]. destruct hd_inv0 as (V4 & HL4 & He4).
  split; [split; [done|by eexists]|]. split; [done|]. split; [done|]. right. split; [done|]. split; [done|].
  exists l, (P in_transfer c). split.
  - replace (p - PREFIX) with b by lia. apply from_cache; [|done|done]. unfold own_list. by destruct (Z.eqb_spec d NULL).
  - eapply cached_inv_ext; [exact V4|]. intros x i. specialize (He i). unfold replaced, in_own, pset.
    destruct (Z.eqb_spec d NULL); [done|]. repeat case_decide; naive_solver.
Qed.

(** What a thread's first request gives, and that a later one changes nothing. *)
Definition first_or_settled self s (d : Z) s1 : Prop :=
  if decide (current_state (thread_of self s) = HPLF_CACHE_UNINITIALIZED)
  then (d <> NULL /\ acquires s d) \/ (d = NULL /\ forall d', ~ acquires s d') else s1 = s.

Lemma wlp_first_or_settled self s : wlp (hplf_cache_acquire self) (first_or_settled self s) s.
Proof. unfold first_or_settled. case_decide; [by apply wlp_acquire_outcome|by apply wlp_acquire_settled]. Qed.

(** What a small allocation gives once the thread's cache is known. *)
Lemma small_post_source self P d c cap n s s1 p s' :
  cached_inv P s -> limited P -> hands_empty P -> cached_inv P s1 -> discreet s s1 -> slabs (base s1) = slabs (base s) ->
  cache_of self s1 d -> first_or_settled self s d s1 ->
  small_post P self d c cap n s1 p s' ->
  cached_malloc_post n s p s' /\ (if p =? NULL then small_refused self c cap s s' else small_served self c cap (p - PREFIX) s s').
Proof.
  intros V HL He V1 D1 Hs1 Hc1 Hset (Hwf & Hth & Hk & Hpost).
  assert (Hc : cache_during self s s' d).
  { split; [eapply cache_of_same; [exact Hth|apply Hk|done]|]. unfold first_or_settled in Hset.
    case_decide; [done|by subst]. }
  destruct Hpost as [(-> & Ho & Ht & Href & V' & Hun)|(Hp & Hal & l1 & l2 & Hor & V')].
  - split; [|simpl Z.eqb; exists P, d; by split_and!]. split; [done|]. left. split; [done|].
    split; [eapply unchanged_trans; [apply D1|done]|]. right. destruct Href as [(t & _ & ? & ?)|(t & t' & o1 & o2 & _ & Hm)].
    + right. by exists t.
    + left. by rewrite Hm.
  - split; [split; [done|]; right; split; [done|]; eapply allocated_unchanged; [apply D1|done]|].
    destruct (Z.eqb_spec p NULL); [done|]. exists P, d, l1, l2. split_and!; try done.
    destruct Hor as [Ho Ht Hsl|Ho Hsup Hsh]; [apply from_cache; [done|done|congruence]|].
    apply from_refill; [done|by eapply supply_earlier|done].
Qed.

Lemma wp_cached_allocate_small self n c cap s :
  cached_wf s -> is_class c cap -> 1 <= n <= cap ->
  wp (hplf_allocate_small self n c cap) (fun p s' => cached_malloc_post n s p s' /\
    if p =? NULL then small_refused self c cap s s' else small_served self c cap (p - PREFIX) s s') s.
Proof.
  intros (Hheld & P & V & HL & He) Hcl Hn. unfold hplf_allocate_small. wp_step.
  eapply wp_mono; [apply wp_wlp; [apply wp_cache_acquire; [exact V|intros i; apply He]|apply wlp_first_or_settled]|].
  intros d s1 [A Hset]. pose proof (ac_inv _ _ _ _ _ A) as V1. pose proof (ac_discreet _ _ _ _ _ A) as D1.
  assert (Hheld1 : registry_held (base s1) = false) by (by rewrite (di_held _ _ D1)).
  assert (Hfin : forall p s', small_post P self d c cap n s1 p s' -> cached_malloc_post n s p s' /\
    if p =? NULL then small_refused self c cap s s' else small_served self c cap (p - PREFIX) s s').
  { intros p s' Hp. eapply small_post_source; try done; apply A. }
  destruct (ac_cache _ _ _ _ _ A) as [[-> _]|(Hd0 & _ & _ & Hd)].
  { wp_steps. cbn [Z.eqb negb NULL]. wp_steps. cbn [Z.eqb negb NULL]. eapply wp_mono; [|exact Hfin]. eapply wp_allocate_slow; try done. by left. }
  destruct (Z.eqb_spec d NULL); [done|]. cbn [negb]. wp_step.
  destruct (P (in_cache d) c) as [|b l] eqn:HK.
  - eapply wp_mono with (P := fun r s' => r = NULL /\ s' = s1).
    { pose proof Hd as [dsc Hdsc]. apply wp_on_c_mem. eapply wp_mono.
      - eapply wp_cache_take_empty; [eapply pool_cache_at; [apply V1|done]|done|done].
      - intros r m' [-> ->]. by rewrite with_c_mem_same. }
    intros r s2 [-> ->]. simpl Z.eqb. cbn [negb]. eapply wp_mono; [|exact Hfin]. eapply wp_allocate_slow; try done. by right.
  - eapply wp_mono; [by eapply (wp_allocate_fast self P d c cap b l n s1)|].
    intros r s2 (-> & Hb0 & W). destruct (Z.eqb_spec b NULL); [done|]. cbn [negb]. eapply wp_mono; [exact W|exact Hfin].
Qed.

(** A large block from fresh storage. *)
Lemma cached_wf_large s n p (t : machine) :
  cached_wf s -> large_created (c_mem s) (mem t) n p -> cached_wf (set_base (set_mach t (base s)) s).
Proof.
  intros (Hheld & P & V & HL & He) (base0 & len & b & _ & Hf & Hlen & Hm & Hok & _). split; [done|].
  exists P. split; [|done]. split; [apply V| |]; cbn; rewrite Hm in *.
  - eapply pool_new_object; [apply V|exact Hf|exact Hlen|by right|done|done|].
    intros c (b' & ? & ? & Hb' & Hk & _). cbn in Hb'. rewrite lookup_insert_eq in Hb'. simplify_eq. destruct Hok. congruence.
  - eapply threads_ok_objs; [apply V|]. intros t0 dsc _ Hd. exists dsc. cbn. rewrite lookup_insert_ne; [done|].
    intros E2. rewrite <- E2 in Hd. pose proof (region_base_free _ _ _ (pi_arena _ _ _ _ (cv_pool _ _ V)) Hf Hlen). congruence.
Qed.

Lemma cached_wf_arena s : cached_wf s -> arena_wf (c_mem s).
Proof. intros (_ & P & V & _). apply V. Qed.

Lemma cached_wf_quiet s s' : cached_wf s -> quiet s s' -> cached_wf s'.
Proof.
  intros (Hheld & P & V & HL & He) Q. split; [by rewrite (qu_held _ _ Q)|]. exists P. split; [by eapply cached_inv_quiet|done].
Qed.

(** The request and what it is served from. *)
Lemma wp_cached_malloc_source self n s :
  cached_wf s -> is_size n ->
  wp (hplf_malloc self n) (fun p s' => cached_malloc_post n s p s' /\ malloc_source self n s p s') s.
Proof.
  intros Hwf [Hn Hmax]. unfold hplf_malloc, malloc_source. destruct (Z.eqb_spec n 0) as [->|Hn0].
  { wp_steps. split; [|done]. split; [done|]. left. split; [done|]. split; [apply unchanged_refl|by left]. }
  destruct (Z.ltb_spec PTRDIFF_MAX n).
  { wp_step. apply wp_set_errno_c. wp_steps. split; [|done]. split; [by eapply cached_wf_quiet|]. left. split; [done|].
    split; [apply unchanged_refl|by right; left]. }
  destruct (class_for n) as [[c cap]|] eqn:E.
  - apply class_for_inv in E as [Hc Hcap]; [|done]. by eapply wp_cached_allocate_small.
  - apply wp_on_c_machine.
    eapply wp_mono; [apply wp_wlp; [apply wp_allocate_large; [by apply cached_wf_arena|lia]|intros ? ? E'; exact E']|].
    intros p t [[(-> & Hm & Herr)|[Hp Hl]] E'].
    + split; [|exists t; split; [done|left; split_and!; [done..|eapply allocate_large_refused, E'; [by apply cached_wf_arena|lia]]]].
      split; [eapply cached_wf_quiet; [done|by split]|]. left. split; [done|]. split; [|by right; left].
      cbn. rewrite Hm. apply unchanged_refl.
    + split; [|exists t; split; [done|by right]]. split; [by eapply cached_wf_large|]. right. split; [done|].
      by destruct Hl as (? & ? & ? & ? & ? & ? & ? & ? & ?).
Qed.

Lemma wp_cached_malloc self n s :
  cached_wf s -> is_size n -> wp (hplf_malloc self n) (cached_malloc_post n s) s.
Proof. intros Hwf Hn. eapply wp_mono; [by apply wp_cached_malloc_source|]. by intros p s' [? _]. Qed.
End malloc.
