(* ===== verification/TrimAccount.v ===== *)
(** * Where every block is after a trim of the cached variant

    A trim of src/allocator.c releases only slabs all of whose slots were on the
    shared lists, leaves on the shared lists exactly the blocks of the other slabs that
    were there, and changes no thread's cache. *)

From S2P Require Import Prelude CheckedMath SizeClass Memory Layout Chain OsMemory Slab Arena SlabSpec.
From S2P Require Import LockedAllocator FreeLists LockedSpec TrimLists Trim TrimLoop TransferList ThreadCache HeapSpec Pool.
From S2P Require Import CachedState Lifecycle CachedAllocator ThreadCacheSpec Placement PoolSteps TransferSpec LifecycleSpec.
From S2P Require Import CachedSpec.

(** ** Definitions *)

(** No descriptor changed, and every cache holds what it held, in the same order. *)
Record caches_kept (m m' : memory) : Prop := {
  ck_descriptors : forall d dsc, objs m' !! d = Some (ODescriptor dsc) <-> objs m !! d = Some (ODescriptor dsc);
  ck_caches : forall d K, cache_at (objs m) d K -> cache_at (objs m') d K
}.

(** The block at [k] belongs to a slab of [G]. *)
Definition in_slabs (G : list Z) (os : gmap Z object) (k : Z) : Prop := exists g, g ∈ G /\ owned_by os g k.

(** Every slot of a slab of [G] was on a shared list, and each shared list afterwards
    holds exactly the blocks it held that belong to no slab of [G]. *)
Record shared_trimmed (G : list Z) (s s' : cached_allocator) : Prop := {
  st_released : forall g k, g ∈ G -> owned_by (c_objs s) g k ->
    exists c l, 0 <= c < HPLF_SIZE_CLASS_COUNT /\ shared_list s c l /\ k ∈ l;
  st_lists : forall c, 0 <= c < HPLF_SIZE_CLASS_COUNT -> exists l l', shared_list s c l /\ shared_list s' c l' /\
    forall k, k ∈ l' <-> k ∈ l /\ ~ in_slabs G (c_objs s) k
}.

(** ** The lists *)

Section account.
Context `{Build, Platform, !PlatformLaws}.
Implicit Types (s : cached_allocator) (m : memory) (P Q : placement).

(** A small block survives exactly when its slab does. *)
Lemma trimmed_survives G m0 m1 m2 k b a :
  trimmed G m0 m1 -> reshuffled m1 m2 -> objs m0 !! k = Some (OBlock b) -> owner b = owner_small a ->
  is_Some (objs m2 !! k) <-> ~ in_slabs G (objs m0) k.
Proof.
  intros T R Hk Ho. assert (Hhome : home k (OBlock b) = a) by (simpl; by rewrite Ho).
  assert (Hin : in_slabs G (objs m0) k <-> a ∈ G).
  { split; [intros (g & Hg & b' & Hb' & Ho'); by assert (g = a) as -> by congruence|]. intros Ha. exists a. split; [done|]. by exists b. }
  rewrite Hin. split.
  - intros [o Ho2] Ha. destruct (reshuffled_lookup_inv _ _ _ _ R Ho2) as (o1 & Ho1 & _).
    rewrite (tr_gone _ _ _ T _ _ Hk) in Ho1; [done|by rewrite Hhome].
  - intros Ha. destruct (tr_kept _ _ _ T _ _ Hk) as (o1 & Ho1 & _); [by rewrite Hhome|].
    destruct (reshuffled_lookup _ _ _ _ R Ho1) as (o2 & Ho2 & _). by exists o2.
Qed.

Section trimmed_pool.
Context (P Q : placement) (G : list Z) (s s' : cached_allocator) (m1 : memory).
Context (V : cached_inv P s) (V' : cached_inv Q s') (He : hands_empty P) (He' : hands_empty Q).
Context (T : trimmed G (c_mem s) m1) (R : reshuffled m1 (c_mem s')).
Context (HQ : forall d c, Q (in_cache d) c = P (in_cache d) c).

Lemma free_after c k : free_in_class (c_objs s') c k <-> free_in_class (c_objs s) c k /\ is_Some (c_objs s' !! k).
Proof.
  rewrite (reshuffled_free _ _ _ _ R), (trimmed_free _ _ _ _ _ (pi_arena _ _ _ _ (cv_pool _ _ V)) T).
  assert (E : is_Some (objs m1 !! k) <-> is_Some (c_objs s' !! k)); [|by rewrite E].
  split; intros [o Ho]; [destruct (reshuffled_lookup _ _ _ _ R Ho) as (? & ? & _)|destruct (reshuffled_lookup_inv _ _ _ _ R Ho) as (? & ? & _)];
    by eexists.
Qed.

(** A free block is on a shared list or in a cache, before and after. *)
Lemma free_place_of P0 os c k :
  partition (free_in_class os) P0 -> hands_empty P0 -> free_in_class os c k ->
  k ∈ P0 in_transfer c \/ exists d, k ∈ P0 (in_cache d) c.
Proof.
  intros Hp Hh Hf. apply (pt_exact _ _ Hp) in Hf as [x Hx]. destruct (Hh c) as [E1 E2].
  destruct x as [|d| |]; [by left|right; by exists d|rewrite E1 in Hx|rewrite E2 in Hx]; by apply not_elem_of_nil in Hx.
Qed.

Lemma cached_survives d c k : k ∈ P (in_cache d) c -> is_Some (c_objs s' !! k).
Proof.
  rewrite <- HQ. intros Hk. destruct (pool_block _ _ _ _ _ _ _ (cv_pool _ _ V') Hk) as (b & Hb & _). by exists (OBlock b).
Qed.

Lemma shared_after c k : k ∈ Q in_transfer c <-> k ∈ P in_transfer c /\ is_Some (c_objs s' !! k).
Proof.
  pose proof (pi_free _ _ _ _ (cv_pool _ _ V)) as Hp. pose proof (pi_free _ _ _ _ (cv_pool _ _ V')) as Hp'. split.
  - intros Hk. pose proof (partition_class _ _ _ _ _ Hp' Hk) as Hf. apply free_after in Hf as [Hf Hs]. split; [|done].
    destruct (free_place_of _ _ _ _ Hp He Hf) as [|[d Hd]]; [done|]. rewrite <- HQ in Hd.
    by pose proof (pt_unique _ _ Hp' _ _ _ _ Hk Hd).
  - intros [Hk Hs]. pose proof (partition_class _ _ _ _ _ Hp Hk) as Hf. pose proof (proj2 (free_after c k) (conj Hf Hs)) as Hf'.
    destruct (free_place_of _ _ _ _ Hp' He' Hf') as [|[d Hd]]; [done|]. rewrite HQ in Hd.
    by pose proof (pt_unique _ _ Hp _ _ _ _ Hk Hd).
Qed.

Lemma trimmed_shared : shared_trimmed G s s'.
Proof.
  pose proof (pi_arena _ _ _ _ (cv_pool _ _ V)) as Hwf. split.
  - intros g k Hg (b & Hb & Ho). destruct (tr_slabs _ _ _ T _ Hg) as (h & Hslab & Hz).
    assert (Hf : free_in_class (c_objs s) (class_index h) k).
    { exists b, g, h. split_and!; try done; [|by apply (Hz k); [|simpl; rewrite Ho]].
      pose proof (aw_objs _ Hwf _ _ Hb) as [(x & y & j & [])|[]]; [done|congruence]. }
    pose proof (class_index_range _ _ _ Hwf Hslab) as Hc.
    destruct (free_place_of _ _ _ _ (pi_free _ _ _ _ (cv_pool _ _ V)) He Hf) as [Hk|[d Hd]].
    + exists (class_index h), (P in_transfer (class_index h)). split_and!; [lia|lia|by apply pool_shared_list|done].
    + exfalso. apply cached_survives in Hd. apply (trimmed_survives _ _ _ _ _ _ _ T R Hb Ho) in Hd. apply Hd.
      exists g. split; [done|]. by exists b.
  - intros c Hc. exists (P in_transfer c), (Q in_transfer c). split_and!; [by apply pool_shared_list..|].
    intros k. rewrite shared_after. split; intros [Hk Hs]; (split; [done|]);
      destruct (partition_class _ _ _ _ _ (pi_free _ _ _ _ (cv_pool _ _ V)) Hk) as (b & a & h & Hb & _ & _ & Ho & _);
      by apply (trimmed_survives _ _ _ _ _ _ _ T R Hb Ho).
Qed.

(** *** The caches *)

Context (F : forall k o, c_objs s !! k = Some o -> (forall c, k ∉ P in_transfer c) -> (forall h, o <> OSlab h) ->
  c_objs s' !! k = Some o).

Lemma cached_elsewhere d c k : k ∈ P (in_cache d) c -> forall c', k ∉ P in_transfer c'.
Proof. intros Hk c' Hk'. by destruct (pool_lists_disjoint _ _ _ _ _ _ _ _ _ (cv_pool _ _ V) Hk Hk'). Qed.

Lemma descriptor_kept d dsc : c_objs s !! d = Some (ODescriptor dsc) -> c_objs s' !! d = Some (ODescriptor dsc).
Proof.
  intros Hd. apply F; [done| |done]. intros c Hk.
  destruct (pool_block _ _ _ _ _ _ _ (cv_pool _ _ V) Hk) as (b & Hb & _). congruence.
Qed.

Lemma trimmed_caches : caches_kept (c_mem s) (c_mem s').
Proof.
  split.
  - intros d dsc. split; [|apply descriptor_kept]. intros Hd.
    destruct (reshuffled_lookup_inv _ _ _ _ R Hd) as (o1 & Ho1 & S1). inversion S1 as [| |dsc1 ?]; subst.
    destruct (trimmed_lookup_inv _ _ _ _ _ T Ho1) as (o0 & Ho0 & _ & S0). inversion S0; subst.
    apply descriptor_kept in Ho0 as Hd'. congruence.
  - intros d K (dsc & Hd & C). exists dsc. split; [by apply descriptor_kept|]. eapply cache_ok_frame; [exact C|].
    intros i k Hi Hk. destruct (cache_class _ _ _ _ C Hi) as (head & Hh & _ & Hch).
    pose proof (co_list _ _ _ (pi_cache _ _ _ _ (cv_pool _ _ V) _ _ Hd) _ _ Hh) as Hch'.
    rewrite (chain_functional _ _ _ _ Hch Hch') in Hk.
    destruct (pool_block _ _ _ _ _ _ _ (cv_pool _ _ V) Hk) as (b & Hb & _). rewrite Hb.
    apply F; [done|by eapply cached_elsewhere|done].
Qed.
End trimmed_pool.
End account.
