(* ===== verification/CachedFree.v ===== *)
(** * The cached allocator meets its contract: release

    Total-correctness specification of [hplf_free]: the block joins the thread's
    cache, whose limits the eviction loop restores by publishing blocks, or goes to
    the shared list, or its mapping is released. *)

From S2P Require Import Prelude CheckedMath SizeClass Memory Layout Chain OsMemory Slab Arena SlabSpec.
From S2P Require Import LockedAllocator FreeLists LockedSpec TrimLists Trim TransferList ThreadCache HeapSpec Pool.
From S2P Require Import CachedState Lifecycle CachedAllocator ThreadCacheSpec Placement PoolSteps TransferSpec LifecycleSpec.
From S2P Require Import CachedSpec.

(** A cache right after a store to class [c], then during the eviction loop; [n]
    bounds the rounds left. *)
Record overfull (K : cache_contents) (c : Z) (n : nat) : Prop := {
  of_others : forall j, 0 <= j < HPLF_SIZE_CLASS_COUNT -> j <> c -> Z.of_nat (length (K j)) <= HPLF_CACHE_CLASS_BLOCK_LIMIT;
  of_bytes : cached_bytes (kupd K c []) <= HPLF_CACHE_TOTAL_BYTES_LIMIT;
  of_class : Z.of_nat (length (K c)) <= HPLF_CACHE_CLASS_BLOCK_LIMIT + 1;
  of_rounds : (n < 2)%nat -> Z.of_nat (length (K c)) <= HPLF_CACHE_CLASS_BLOCK_LIMIT;
  of_last : n = O -> K c = []
}.

Section overfull.
Implicit Types (K : cache_contents).

Lemma overfull_store K c cap b :
  is_class c cap -> within_limits K -> overfull (kupd K c (b :: K c)) c 2.
Proof.
  intros Hcl [Hn Hb]. pose proof (is_class_capacity_bounds _ _ Hcl). split; try lia.
  - intros j Hj Hne. rewrite kupd_ne by done. auto.
  - rewrite (cached_bytes_kupd _ _ Hcl), (cached_bytes_kupd _ _ Hcl), kupd_eq. simpl length. nia.
  - rewrite kupd_eq. simpl. pose proof (Hn c (is_class_index _ _ Hcl)). lia.
Qed.

(** The loop ends within limits. *)
Lemma overfull_done K c n :
  overfull K c n -> Z.of_nat (length (K c)) <= HPLF_CACHE_CLASS_BLOCK_LIMIT ->
  cached_bytes K <= HPLF_CACHE_TOTAL_BYTES_LIMIT -> within_limits K.
Proof.
  intros O Hc Hb. split; [|done]. intros j Hj. destruct (Z.eq_dec j c) as [->|Hne]; [done|]. by apply (of_others _ _ _ O).
Qed.

Lemma overfull_bytes K c cap n : is_class c cap -> overfull K c n -> cached_bytes K <= SIZE_MAX.
Proof.
  intros Hcl O. pose proof (of_bytes _ _ _ O) as Hb. pose proof (of_class _ _ _ O). rewrite (cached_bytes_kupd _ _ Hcl) in Hb.
  pose proof (is_class_capacity_bounds _ _ Hcl) as [Hc _].
  unfold SIZE_MAX, WORD, HPLF_CACHE_TOTAL_BYTES_LIMIT, HPLF_CACHE_CLASS_BLOCK_LIMIT, HPLF_MAX_SMALL_SIZE in *.
  simpl length in Hb. nia.
Qed.

Lemma cached_bytes_emptied K c cap : is_class c cap -> K c = [] -> cached_bytes (kupd K c []) = cached_bytes K.
Proof. intros Hcl HK. rewrite (cached_bytes_kupd _ _ Hcl), HK. lia. Qed.

(** A round that evicts only from class [c] leaves fewer rounds. *)
Lemma overfull_trimmed K c cap n l2 :
  is_class c cap -> overfull K c n -> HPLF_CACHE_CLASS_BLOCK_LIMIT < Z.of_nat (length (K c)) ->
  Z.of_nat (length l2) = HPLF_CACHE_CLASS_BLOCK_LIMIT -> (1 < n)%nat /\ overfull (kupd K c l2) c 1.
Proof.
  intros Hcl O Hgt Hl. assert (Hn : (1 < n)%nat).
  { destruct (decide (1 < n)%nat) as [|Hn]; [done|]. pose proof (of_rounds _ _ _ O ltac:(lia)). lia. }
  split; [done|]. pose proof (of_bytes _ _ _ O) as Hb. split; try done.
  - intros j Hj Hne. rewrite kupd_ne by done. by apply (of_others _ _ _ O).
  - rewrite (cached_bytes_kupd _ _ Hcl) in Hb. rewrite !(cached_bytes_kupd _ _ Hcl), kupd_eq. simpl length in *. lia.
  - rewrite kupd_eq. lia.
  - rewrite kupd_eq. lia.
Qed.

Lemma overfull_emptied K c cap n :
  is_class c cap -> overfull K c n -> HPLF_CACHE_TOTAL_BYTES_LIMIT < cached_bytes K ->
  K c <> [] /\ (0 < n)%nat /\ overfull (kupd K c []) c 0.
Proof.
  intros Hcl O Hgt. pose proof (of_bytes _ _ _ O) as Hb.
  assert (Hne : K c <> []).
  { intros HK. rewrite (cached_bytes_emptied _ _ _ Hcl HK) in Hb. lia. }
  split; [done|]. split; [destruct n; [|lia]; by destruct Hne; apply (of_last _ _ _ O)|]. split; rewrite ?kupd_eq; try done.
  - intros j Hj Hnj. rewrite kupd_ne by done. by apply (of_others _ _ _ O).
  - rewrite (cached_bytes_emptied _ _ _ Hcl); [done|apply kupd_eq].
Qed.

Lemma overfull_ext K K' c n : (forall i, K' i = K i) -> overfull K c n -> overfull K' c n.
Proof.
  intros HK [Ho Hb Hc Hr Hl]. split; rewrite ?HK; try done.
  - intros j Hj Hne. rewrite HK. auto.
  - rewrite (cached_bytes_ext (kupd K c []) (kupd K' c [])); [done|]. intros i _. unfold kupd. case_decide; [done|by rewrite HK].
Qed.
End overfull.

(** ** The eviction loop *)

Section free.
Context `{Build, Platform, !PlatformLaws, Pthreads, !PthreadLaws}.
Implicit Types (s : cached_allocator) (m : memory) (P : placement).

(** Everything but the cache at [d] is within limits. *)
Definition limited_but (d : Z) P : Prop := forall d', d' <> d -> within_limits (P (in_cache d')).

Lemma limited_but_done d P : limited_but d P -> within_limits (P (in_cache d)) -> limited P.
Proof. intros HL HK d'. destruct (Z.eq_dec d' d) as [->|]; auto. Qed.

(** The state of the loop; [s0] is its start. *)
Definition evicting s0 d c (n : nat) s : Prop :=
  exists P, cached_inv P s /\ hands_empty P /\ limited_but d P /\ has_descriptor (c_mem s) d /\
    overfull (P (in_cache d)) c n /\ unchanged (c_mem s0) (c_mem s) /\ registry_held (base s) = registry_held (base s0).

(** One class's evicted blocks are published. *)
Lemma wp_publish_evicted self P d ec capc l1 l2 t s s1 c n s0 :
  cached_inv P s -> hands_empty P -> limited_but d P -> is_class ec capc ->
  P (in_cache d) ec = l1 ++ l2 -> describes (c_objs s1) t l1 -> reworked l1 [d] (c_mem s) (c_mem s1) ->
  cache_at (c_objs s1) d (kupd (P (in_cache d)) ec l2) -> s1 = with_c_mem (c_mem s1) s ->
  overfull (kupd (P (in_cache d)) ec l2) c n -> unchanged (c_mem s0) (c_mem s) ->
  registry_held (base s) = registry_held (base s0) ->
  wp (count_stat self (add_published (tl_count t));; hplf_transfer_mutex_publish ec t;; mret (inl tt : unit + unit))
     (fun r s' => r = inl tt /\ evicting s0 d c n s') s1.
Proof.
  intros V He HL Hcl Hsp Hdes R Hca Es1 HO Hun Hheld. pose proof (cv_pool _ _ V) as I.
  assert (HS : forall k, k ∈ l1 -> exists x i, k ∈ P x i).
  { intros k Hk. exists (in_cache d), ec. rewrite Hsp. set_solver. }
  pose proof (pool_reshuffled _ _ _ _ _ _ _ I R HS) as Rs.
  set (P1 := pset (pset P (in_cache d) ec l2) in_hand ec l1).
  assert (V1 : cached_inv P1 s1).
  { rewrite Es1. eapply cached_inv_mem; [exact V|exact Rs|]. eapply pool_cache_move; [exact I|by left|exact R| | |exact Hca].
    - intros k Hk. left. rewrite Hsp. set_solver.
    - destruct (He ec) as [-> _]. rewrite Hsp, app_nil_r. apply Permutation_app_comm. }
  wp_step. apply wp_count_stat. intros s2 T2. wp_step.
  eapply wp_mono; [eapply (wp_publish P1 in_hand ec t s2); [by eapply cached_inv_tallied|by left|by eapply is_class_index|]|].
  { rewrite (ta_base _ _ T2). unfold P1. by rewrite pset_eq. }
  intros t' s3 (_ & S3 & V3). wp_step. split; [done|]. exists (published_to P1 in_hand ec).
  assert (Hcache : forall d' i, published_to P1 in_hand ec (in_cache d') i = pset P (in_cache d) ec l2 (in_cache d') i).
  { intros d' i. unfold published_to, P1. by do 3 (rewrite pset_place by done). }
  assert (Hs1 : c_mem s2 = c_mem s1) by (by rewrite (ta_base _ _ T2)).
  split_and!.
  - exact V3.
  - eapply empty_of_hands, hands_pset_hand, hands_pset_other; [auto with hplf|]. eapply hands_pset_hand, hands_pset_other; [auto with hplf|].
    by apply hands_of_empty.
  - intros d' Hd'. eapply within_limits_ext; [|apply (HL d' Hd')]. intros i. rewrite Hcache, pset_place; [done|]. congruence.
  - apply (reshuffled_descriptor _ _ _ (sh_mem _ _ S3)). rewrite Hs1. destruct Hca as (dsc & ? & _). by exists dsc.
  - eapply overfull_ext; [|exact HO]. intros i. rewrite Hcache. apply pset_cache.
  - eapply unchanged_trans; [exact Hun|]. eapply unchanged_trans; [by apply reshuffled_unchanged|].
    rewrite <- Hs1. by apply reshuffled_unchanged, S3.
  - rewrite (sh_held _ _ S3), (ta_base _ _ T2), Es1. exact Hheld.
Qed.

Lemma wp_eviction_step self d c cap n s0 s :
  is_class c cap -> evicting s0 d c n s ->
  wp (eviction_step self d c tt) (fun r s' => match r with
    | inl _ => exists n', (n' < n)%nat /\ evicting s0 d c n' s'
    | inr _ => exists P, cached_inv P s' /\ hands_empty P /\ limited P /\ unchanged (c_mem s0) (c_mem s') /\
                 registry_held (base s') = registry_held (base s0)
    end) s.
Proof.
  intros Hcl (P & V & He & HL & [dsc Hd] & HO & Hun & Hheld). pose proof (cv_pool _ _ V) as I.
  pose proof (pool_cache_at _ _ _ _ _ _ I Hd) as Hca. unfold eviction_step. wp_step. apply wp_on_c_mem.
  eapply wp_mono; [eapply (wp_cache_evict d (P (in_cache d)) c cap); [done|done| |by eapply overfull_bytes]|].
  { intros j _. by eapply pool_length. }
  intros [[ok out] t] m' [(out' & E & -> & Hn & Hb)|(ec & capc & l1 & l2 & Hr & Hcle & Hsp & Hne & Hdes & R & Hca' & Hcase)].
  { simplify_eq. rewrite with_c_mem_same. wp_step. exists P. split_and!; try done.
    eapply limited_but_done; [done|]. by eapply overfull_done. }
  cbn [fst snd] in *. simplify_eq.
  assert (Hnext : exists n', (n' < n)%nat /\ overfull (kupd (P (in_cache d)) ec l2) c n').
  { destruct Hcase as [(-> & Hgt & Hl)|(_ & Hgt & -> & Hec)].
    - destruct (overfull_trimmed _ _ _ _ _ Hcl HO Hgt Hl). by exists 1%nat.
    - destruct (overfull_emptied _ _ _ _ Hcl HO Hgt) as (Hnc & ? & ?). destruct Hec as [[-> _]|[? _]]; [|done]. by exists O. }
  destruct Hnext as (n' & Hn' & HO').
  eapply wp_mono; [eapply (wp_publish_evicted self P d ec capc l1 l2 t s (with_c_mem m' s) c n' s0); try done|].
  intros r s' [-> HE]. by exists n'.
Qed.

Lemma wp_evict_loop self d c cap s0 s :
  is_class c cap -> evicting s0 d c 2 s ->
  wp (iterate EVICTION_FUEL (eviction_step self d c) tt) (fun _ s' => exists P, cached_inv P s' /\ hands_empty P /\
    limited P /\ unchanged (c_mem s0) (c_mem s') /\ registry_held (base s') = registry_held (base s0)) s.
Proof.
  intros Hcl HE. apply (wp_iterate (eviction_step self d c) (fun n _ s => evicting s0 d c n s)) with (n := 2%nat).
  - intros n [] s' HE'. eapply wp_mono; [by eapply wp_eviction_step|]. by intros [[]|[]] s''.
  - vm_compute. lia.
  - done.
Qed.
End free.

(** ** hplf_free *)

(** Whether the free of the block at [k], called in state [s], leaves the block as it
    is: only for a large block, when this call's unmap request fails. *)
Definition free_leaks `{Build, Platform} (k : Z) (s : cached_allocator) : Prop :=
  exists b, c_objs s !! k = Some (OBlock b) /\ kind b = HPLF_BLOCK_LARGE /\
    unmap_fails k (PREFIX + capacity b) (mach (base s)) = true.

Lemma free_leaks_can `{Build, Platform} k s : free_leaks k s -> unmap_can_fail.
Proof. intros (b & _ & _ & Hf). by eapply unmap_fails_can. Qed.

(** The block, and nothing else, is released, unless this call leaks it. *)
Definition cached_free_post `{Build, Platform} (k : Z) (s s' : cached_allocator) : Prop :=
  cached_wf s' /\ errno (mach (base s')) = errno (mach (base s)) /\
  ((released (c_mem s) (c_mem s') k /\ ~ free_leaks k s) \/ (c_mem s' = c_mem s /\ free_leaks k s)).

Section release.
Context `{Build, Platform, !PlatformLaws, Pthreads, !PthreadLaws}.
Implicit Types (s : cached_allocator) (m : memory) (P : placement).

(** The block was marked free and is in the grasp. *)
Record returned P s0 s k c : Prop := {
  rn_inv : cached_inv P s;
  rn_hands : hands P c [] [k];
  rn_limited : limited P;
  rn_held : registry_held (base s) = false;
  rn_block : exists b, c_objs s !! k = Some (OBlock b) /\ is_class c (capacity b);
  rn_released : released (c_mem s0) (c_mem s) k
}.

Definition release_done s0 k s' : Prop := cached_wf s' /\ released (c_mem s0) (c_mem s') k.

(** Without a cache: straight to the shared list. *)
Lemma wp_free_uncached self P s0 s k c :
  returned P s0 s k c ->
  wp (on_c_mem (store_block k (set_next_free NULL));; count_stat self (add_published 1);;
      hplf_transfer_mutex_publish c (TransferList k k 1);; mret tt) (fun _ s' => release_done s0 k s') s.
Proof.
  intros [V Hh HL Hheld (b & Hb & Hcl) Hrel]. pose proof (cv_pool _ _ V) as I. pose proof Hh as (Hhand & Hgrasp & _).
  pose proof (reworked_store_link _ _ _ NULL Hb) as R.
  assert (HS : forall x, x ∈ [k] -> exists y i, x ∈ P y i).
  { intros x Hx. exists in_grasp, c. by rewrite Hgrasp. }
  pose proof (pool_reshuffled _ _ _ _ _ _ _ I R HS) as Rs.
  wp_step. apply wp_on_c_mem. eapply wp_store_block; [by apply block_at_Some|].
  set (P1 := pset (pset P in_hand c []) in_grasp c [k]).
  assert (Hh1 : hands P1 c [] [k]) by (by eapply hands_pset_grasp, hands_pset_hand).
  assert (V1 : cached_inv P1 (with_c_mem (set_objs <[k := OBlock (set_next_free NULL b)]> (c_mem s)) s)).
  { eapply cached_inv_mem; [exact V|exact Rs|]. eapply pool_private_move; [exact I|exact R| |by rewrite Hhand, Hgrasp].
    intros x Hx. right. by rewrite Hgrasp. }
  wp_step. apply wp_count_stat. intros s2 T2. wp_step.
  eapply wp_mono; [eapply (wp_publish P1 in_grasp c _ s2); [by eapply cached_inv_tallied|by right|by eapply is_class_index|]|].
  { rewrite (ta_base _ _ T2). destruct Hh1 as (_ & -> & _). split; [|done]. split; [|done]. cbn. split; [done|].
    split; [eapply block_not_NULL; [apply I|exact Hb]|]. exists NULL. by rewrite block_next_insert, decide_True. }
  intros t' s3 (_ & S3 & V3). wp_steps. split.
  - split; [by rewrite (sh_held _ _ S3), (ta_base _ _ T2)|]. eexists. split; [exact V3|]. split.
    + unfold published_to, P1. do 4 (apply limited_pset; [done|]). done.
    + eapply empty_of_hands, hands_pset_grasp, hands_pset_other; [auto with hplf|exact Hh1].
  - eapply released_around; [apply unchanged_refl|exact Hrel|]. eapply unchanged_trans; [by apply reshuffled_unchanged|].
    pose proof (reshuffled_unchanged _ _ (sh_mem _ _ S3)) as U. by rewrite (ta_base _ _ T2) in U.
Qed.

(** With a cache: stored there, then the limits are restored. *)
Lemma wp_free_cached self P s0 s k c cap d :
  returned P s0 s k c -> is_class c cap -> has_descriptor (c_mem s) d ->
  wp (on_c_mem (hplf_thread_cache_store d c cap k);; iterate EVICTION_FUEL (eviction_step self d c) tt)
     (fun _ s' => release_done s0 k s') s.
Proof.
  intros [V Hh HL Hheld (b & Hb & Hcb) Hrel] Hcl [dsc Hd]. pose proof (cv_pool _ _ V) as I.
  pose proof Hh as (Hhand & Hgrasp & _). pose proof (pool_cache_at _ _ _ _ _ _ I Hd) as Hca.
  wp_step. apply wp_on_c_mem. eapply wp_mono.
  { eapply (wp_cache_store d (P (in_cache d)) c cap k b); [done|done|done|eapply block_not_NULL; [apply I|exact Hb]|].
    intros j Hj. eapply pool_cache_disjoint; [exact V|by right|done|]. rewrite Hgrasp. left. }
  intros _ m' [R Hca'].
  assert (HS : forall x, x ∈ [k] -> exists y i, x ∈ P y i).
  { intros x Hx. exists in_grasp, c. by rewrite Hgrasp. }
  pose proof (pool_reshuffled _ _ _ _ _ _ _ I R HS) as Rs.
  set (P1 := pset (pset P (in_cache d) c (k :: P (in_cache d) c)) in_grasp c []).
  assert (HE : evicting s d c 2 (with_c_mem m' s)).
  { exists P1. split_and!.
    - eapply cached_inv_mem; [exact V|exact Rs|]. eapply pool_cache_move; [exact I|by right|exact R| | |exact Hca'].
      + intros x Hx. right. by rewrite Hgrasp.
      + rewrite Hgrasp, app_nil_r. apply Permutation_cons_append.
    - eapply empty_of_hands, hands_pset_grasp, hands_pset_other; [auto with hplf|exact Hh].
    - intros d' Hd'. eapply within_limits_ext; [|apply (HL d')]. intros i. unfold P1. rewrite !pset_place; congruence.
    - destruct Hca' as (dsc' & ? & _). by exists dsc'.
    - eapply overfull_ext; [|by eapply overfull_store; [exact Hcl|apply (HL d)]]. intros i. unfold P1.
      rewrite pset_place by done. apply pset_cache.
    - by apply reshuffled_unchanged.
    - done. }
  eapply wp_mono; [by eapply wp_evict_loop|]. intros [] s3 (P3 & V3 & He3 & HL3 & U3 & Hheld3). split.
  - split; [by rewrite Hheld3|by exists P3].
  - eapply released_around; [apply unchanged_refl|exact Hrel|exact U3].
Qed.

(** Marking the block free. *)
Lemma returned_request P s0 s k b a h c :
  cached_inv P s -> limited P -> hands_empty P -> registry_held (base s) = false ->
  c_objs s !! k = Some (OBlock b) -> requested_size b <> 0 -> small_ok (c_mem s) k b a h c ->
  unchanged (c_mem s0) (c_mem s) ->
  returned (pset P in_grasp (class_index h) [k]) s0
    (with_c_mem (set_objs <[k := OBlock (set_requested_size 0 b)]> (c_mem s)) s) k (class_index h).
Proof.
  intros V HL He Hheld Hb Hr S Hun. pose proof (cv_pool _ _ V) as I. split.
  - split; [apply V| |].
    + cbn. eapply pool_enter; [exact I|exact Hb|done|apply S|apply S|apply S|apply He].
    + cbn. eapply threads_ok_store_block; [apply V|exact Hb].
  - eapply hands_pset_grasp. by apply hands_of_empty.
  - by apply limited_pset.
  - exact Hheld.
  - exists (set_requested_size 0 b). cbn. split; [apply lookup_insert_eq|].
    rewrite (sm_capacity _ _ _ _ _ _ S). eapply sk_class.
    pose proof (aw_objs _ (pi_arena _ _ _ _ I) _ _ (sm_slab _ _ _ _ _ _ S)) as K. exact K.
  - eapply released_around; [exact Hun|by apply released_request|apply unchanged_refl].
Qed.

Lemma wp_cached_free_small self k b a h i s :
  cached_wf s -> c_objs s !! k = Some (OBlock b) -> requested_size b <> 0 -> small_ok (c_mem s) k b a h i ->
  wp (free_small self k b) (fun _ s' => release_done s k s') s.
Proof.
  intros (Hheld & P & V & HL & He) Hb Hr S. pose proof (pi_arena _ _ _ _ (cv_pool _ _ V)) as Hwf.
  pose proof (aw_objs _ Hwf _ _ (sm_slab _ _ _ _ _ _ S)) as K. simpl in K.
  assert (Hcl : is_class (class_index h) (capacity b)) by (rewrite (sm_capacity _ _ _ _ _ _ S); apply K).
  unfold free_small. wp_step. eapply wp_known; [unfold owner_small_slab; by rewrite (sm_owner _ _ _ _ _ _ S)|].
  wp_step. apply wp_on_c_mem. eapply wp_load_slab; [apply slab_at_Some, S|]. rewrite with_c_mem_same.
  wp_step. eapply wp_mono; [apply wp_cache_acquire; [exact V|intros c; apply He]|]. intros d s1 A.
  pose proof (ac_inv _ _ _ _ _ A) as V1. pose proof (ac_discreet _ _ _ _ _ A) as [U1 Hh1].
  assert (Hlive : live (c_objs s) !! k = Some (requested_size b)) by (apply lookup_live; by exists b).
  assert (Hb1 : c_objs s1 !! k = Some (OBlock b)).
  { destruct U1 as [L1 P1]. destruct (P1 _ _ Hlive) as [E _]; [by rewrite L1|]. congruence. }
  pose proof (pi_arena _ _ _ _ (cv_pool _ _ V1)) as Hwf1.
  pose proof (aw_objs _ Hwf1 _ _ Hb1) as [(a1 & h1 & i1 & S1)|L]; [|destruct L, S; congruence].
  assert (Hci : class_index h1 = class_index h).
  { pose proof (aw_objs _ Hwf1 _ _ (sm_slab _ _ _ _ _ _ S1)) as K1. simpl in K1.
    eapply is_class_capacity_inj; [apply (sk_class _ _ _ K1)|]. by rewrite <- (sm_capacity _ _ _ _ _ _ S1). }
  pose proof (returned_request P s s1 k b a1 h1 i1 V1 HL He ltac:(by rewrite Hh1) Hb1 Hr S1 U1) as Hret. rewrite Hci in Hret.
  wp_step. apply wp_on_c_mem. eapply wp_store_block; [by apply block_at_Some|].
  destruct (ac_cache _ _ _ _ _ A) as [[-> _]|(Hd0 & _ & _ & [dsc Hd])].
  - simpl Z.eqb. cbn iota. by eapply wp_free_uncached.
  - destruct (Z.eqb_spec d NULL); [done|]. eapply wp_free_cached; [exact Hret|exact Hcl|].
    exists dsc. cbn. rewrite lookup_insert_ne by congruence. done.
Qed.

(** Unmapping a large block. *)
Lemma cached_wf_free_large s k b (t : machine) :
  cached_wf s -> c_objs s !! k = Some (OBlock b) -> large_ok (c_mem s) k b ->
  mem t = unmap_region k (PREFIX + capacity b) (c_mem s) -> cached_wf (set_base (set_mach t (base s)) s).
Proof.
  intros (Hheld & P & V & HL & He) Hb L Hm. split; [done|]. exists P. split; [|done].
  pose proof (cv_pool _ _ V) as I. pose proof (lg_map _ _ _ L) as Hmap.
  assert (Hhome : home k (OBlock b) = k) by (simpl; by rewrite (lg_owner _ _ _ L)).
  split; [apply V| |]; cbn; rewrite Hm.
  - eapply pool_unmap; [exact I|exact Hb|done|done|done| |].
    + intros x c Hx. destruct (pool_block _ _ _ _ _ _ _ I Hx) as (b' & ? & _ & ? & _). destruct L. congruence.
    + intros c. apply (pi_absent _ _ _ _ I). congruence.
  - eapply threads_ok_objs; [apply V|]. intros t0 dsc _ Hd. exists dsc.
    rewrite (unmap_single _ _ _ _ (pi_arena _ _ _ _ I) Hb ltac:(done) Hhome Hmap), decide_False; [done|]. congruence.
Qed.

Lemma wp_cached_free_large s k b :
  cached_wf s -> c_objs s !! k = Some (OBlock b) -> large_ok (c_mem s) k b ->
  wp (on_c_machine (free_large b)) (fun _ s' => cached_wf s' /\
    ((released (c_mem s) (c_mem s') k /\ ~ free_leaks k s) \/ (c_mem s' = c_mem s /\ free_leaks k s))) s.
Proof.
  intros Hwf Hb L. pose proof (cached_wf_arena _ Hwf) as Ha. apply wp_on_c_machine.
  eapply wp_mono; [by apply wp_free_large|]. intros [] t [[Hm Hf]|[Hm Hf]].
  - split; [by eapply cached_wf_free_large|]. left. cbn. rewrite Hm. split; [by apply released_unmap|].
    intros (b' & Hb' & _ & Hf'). simplify_eq. congruence.
  - split; [by eapply cached_wf_quiet|]. right. split; [done|]. exists b. split_and!; [done|apply L|done].
Qed.

Lemma cached_live_block s p n :
  cached_wf s -> live (c_objs s) !! (p - PREFIX) = Some n ->
  exists b, c_objs s !! (p - PREFIX) = Some (OBlock b) /\ requested_size b = n /\ 1 <= n <= capacity b /\
    p <> NULL /\ hplf_block_from_payload p = p - PREFIX.
Proof.
  intros Hwf Hl. pose proof (cached_wf_arena _ Hwf) as Ha.
  destruct (live_requested_size _ _ _ Ha Hl) as (b & Hb & Hr & Hn). pose proof (object_address_pos _ _ _ Ha Hb).
  exists b. unfold PREFIX, NULL in *. split_and!; try done; try lia. apply hplf_block_from_payload_eq. unfold NULL. lia.
Qed.

Lemma wp_cached_free self p n s :
  cached_wf s -> live (c_objs s) !! (p - PREFIX) = Some n ->
  wp (hplf_free self p) (fun _ s' => cached_free_post (p - PREFIX) s s') s.
Proof.
  intros Hwf Hl. destruct (cached_live_block _ _ _ Hwf Hl) as (b & Hb & Hr & Hn & Hp & Hfrom).
  unfold hplf_free. wp_steps. destruct (Z.eqb_spec p NULL); [done|]. rewrite Hfrom.
  wp_step. apply wp_on_c_mem. eapply wp_load_block; [by apply block_at_Some|]. rewrite with_c_mem_same. wp_step.
  eapply wp_mono with (P := fun _ s' => cached_wf s' /\
    ((released (c_mem s) (c_mem s') (p - PREFIX) /\ ~ free_leaks (p - PREFIX) s) \/
     (c_mem s' = c_mem s /\ free_leaks (p - PREFIX) s))).
  - pose proof (aw_objs _ (cached_wf_arena _ Hwf) _ _ Hb) as [(a & h & i & S)|L].
    + rewrite (sm_kind _ _ _ _ _ _ S). eapply wp_mono; [eapply wp_cached_free_small; [done|done|lia|done]|].
      intros [] s1 [? ?]. split; [done|]. left. split; [done|].
      intros (b' & Hb' & Hk & _). simplify_eq. pose proof (sm_kind _ _ _ _ _ _ S). congruence.
    + rewrite (lg_kind _ _ _ L). by apply wp_cached_free_large.
  - intros [] s1 [Hwf1 Hcase]. apply wp_set_errno_c. split; [by eapply cached_wf_quiet|]. split; [done|exact Hcase].
Qed.

Lemma wp_cached_free_null self s (Q : unit -> cached_allocator -> Prop) : Q tt s -> wp (hplf_free self NULL) Q s.
Proof. done. Qed.
End release.
