(* ===== verification/CachedResize.v ===== *)
(** * The cached allocator meets its contract: zeroed allocation and resizing

    Total-correctness specifications of [hplf_calloc] and [hplf_realloc] in the
    cached variant. *)

From S2P Require Import Prelude CheckedMath SizeClass Memory Layout Chain OsMemory Slab Arena SlabSpec.
From S2P Require Import LockedAllocator FreeLists LockedSpec LockedResize TrimLists Trim TransferList ThreadCache HeapSpec Pool.
From S2P Require Import CachedState Lifecycle CachedAllocator ThreadCacheSpec Placement PoolSteps TransferSpec LifecycleSpec.
From S2P Require Import CachedSpec CachedFree.

(** ** Postconditions *)

Definition cached_calloc_post `{Platform} (count size : Z) (s : cached_allocator) (p : Z) (s' : cached_allocator) : Prop :=
  cached_wf s' /\
  ((p = NULL /\ unchanged (c_mem s) (c_mem s') /\ (SIZE_MAX < count * size -> errno (mach (base s')) = ENOMEM) /\
    (count * size <= SIZE_MAX -> cached_refused (count * size) s s')) \/
   (p <> NULL /\ count * size <= SIZE_MAX /\ allocated (c_mem s) (c_mem s') (count * size) p /\
    forall i, 0 <= i < count * size -> byte_at (c_mem s') (p + i) = 0)).

Definition cached_realloc_post `{Build, Platform} (p old_size size : Z) (s : cached_allocator) (q : Z)
    (s' : cached_allocator) : Prop :=
  cached_wf s' /\
  ((q = NULL /\ size <> 0 /\ cached_refused size s s') \/
   (q = NULL /\ size = 0 /\ cached_free_post (p - PREFIX) s s') \/
   (q = p /\ size <> 0 /\ retained (c_mem s) (c_mem s') (p - PREFIX) size) \/
   (q <> NULL /\ q <> p /\ size <> 0 /\ moved (c_mem s) (c_mem s') (p - PREFIX) old_size q size)).

Section resize.
Context `{Build, Platform, !PlatformLaws, Pthreads, !PthreadLaws}.
Implicit Types (s : cached_allocator) (m : memory) (P : placement).

(** Writing bytes keeps the structure. *)
Lemma pool_inv_set_bytes f m registry heads P :
  pool_inv m registry heads P -> pool_inv (set_bytes f m) registry heads P.
Proof. intros [Hwf Hr Hh Ht Hc Ha Hf]. split; try done. by apply arena_wf_set_bytes. Qed.

Lemma cached_wf_set_bytes f s : cached_wf s -> cached_wf (with_c_mem (set_bytes f (c_mem s)) s).
Proof.
  intros (Hheld & P & V & HL & He). split; [done|]. exists P. split; [|done]. split; [apply V| |apply V].
  apply pool_inv_set_bytes, V.
Qed.

(** ** hplf_calloc *)

Lemma wp_cached_memset p n s m :
  cached_wf s -> is_size n -> allocated m (c_mem s) n p ->
  wp (on_c_mem (memset p 0 n)) (fun _ s' => cached_wf s' /\ allocated m (c_mem s') n p /\
    forall i, 0 <= i < n -> byte_at (c_mem s') (p + i) = 0) s.
Proof.
  intros Hwf [Hn0 _] Hal. pose proof (cached_wf_arena _ Hwf) as Ha.
  destruct (al_block _ _ _ _ Hal) as (b & Hb & Hr & Hn & Hp).
  assert (Hlen : Z.of_nat (length (replicate (Z.to_nat n) (0 mod 256))) = n) by (rewrite length_replicate; lia).
  apply wp_on_c_mem. unfold memset. apply wp_store_bytes.
  { rewrite Hlen. replace p with (p - PREFIX + PREFIX) by lia. eapply payload_accessible; [done|done|lia]. }
  split; [by apply cached_wf_set_bytes|]. split.
  - apply allocated_put_bytes; [done|done|lia].
  - intros i Hi. cbn. rewrite byte_at_put, decide_True by lia. rewrite lookup_replicate_2 by lia. done.
Qed.

Lemma wp_cached_calloc self count size s :
  cached_wf s -> is_size count -> is_size size ->
  wp (hplf_calloc self count size) (cached_calloc_post count size s) s.
Proof.
  intros Hwf Hc Hs. unfold hplf_calloc. destruct ((count =? 0) || (size =? 0)) eqn:E.
  { assert (Hz : count * size = 0) by (apply orb_true_iff in E as [E|E]; apply Z.eqb_eq in E; subst; lia).
    wp_steps. split; [done|]. left. split_and!; [done|apply unchanged_refl| |].
    - rewrite Hz. unfold SIZE_MAX, WORD. lia.
    - intros _. split; [apply unchanged_refl|]. left. by rewrite Hz. }
  rewrite via_size_multiply by done. destruct (Z.leb_spec (count * size) SIZE_MAX).
  2: { wp_step. apply wp_set_errno_c. wp_steps. split; [by eapply cached_wf_quiet|]. left.
       split_and!; [done|apply unchanged_refl|done|lia]. }
  wp_step. eapply wp_mono; [apply wp_cached_malloc; [done|split; [unfold is_size in *; nia|done]]|].
  intros p s1 [Hwf1 [[-> Href]|[Hp Hal]]].
  - simpl. wp_steps. split; [done|]. left. split_and!; [done|apply Href|lia|done].
  - destruct (Z.eqb_spec p NULL); [done|]. simpl negb. cbn iota. wp_step.
    eapply wp_mono; [apply wp_cached_memset; [done|unfold is_size in *; nia|done]|].
    intros [] s2 (Hwf2 & Hal2 & Hz). wp_steps. split; [done|]. right. by split_and!.
Qed.

(** ** hplf_realloc *)

(** Changing the requested size of a live block. *)
Lemma cached_wf_resize s k b n :
  cached_wf s -> c_objs s !! k = Some (OBlock b) -> requested_size b <> 0 -> 1 <= n <= capacity b ->
  cached_wf (with_c_mem (set_objs <[k := OBlock (set_requested_size n b)]> (c_mem s)) s).
Proof.
  intros (Hheld & P & V & HL & He) Hk Hr Hn. pose proof (cv_pool _ _ V) as I. split; [done|]. exists P. split; [|done].
  assert (Hnot : forall x c, k ∉ P x c).
  { intros x c Hx. destruct (pool_block _ _ _ _ _ _ _ I Hx) as (b' & ? & ? & _). congruence. }
  split; [apply V| |].
  - cbn. eapply pool_store_block; [exact I|exact Hk|done|simpl; lia|simpl; lia|done|intros x c _; apply Hnot|].
    eapply partition_ext; [|done|apply I]. intros c x. destruct (Z.eq_dec x k) as [->|Hne].
    + split; intros Hf; exfalso.
      * revert Hf. apply free_in_class_insert_live. simpl. lia.
      * destruct Hf as (b' & ? & ? & ? & _ & ? & _). congruence.
    + by apply free_in_class_insert_ne with (b := b).
  - cbn. eapply threads_ok_store_block; [apply V|exact Hk].
Qed.

(** The copy: from the old block's payload to the new one's. *)
Lemma wp_cached_copy m p old_size q n c s :
  cached_wf s -> allocated m (c_mem s) n q -> live (objs m) !! (p - PREFIX) = Some old_size -> c = Z.min old_size n ->
  wp (on_c_mem (memcpy q p c)) (fun _ s' => cached_wf s' /\ allocated m (c_mem s') n q /\
    forall i, 0 <= i < c -> byte_at (c_mem s') (q + i) = byte_at m (p + i)) s.
Proof.
  intros Hwf0 Hal Hold ->. pose proof (cached_wf_arena _ Hwf0) as Hwf.
  pose proof Hal as [(bq & Hq & Hrq & Hnq & Hpq) Hnew Hl Hpres].
  assert (Hne : p - PREFIX <> q - PREFIX) by congruence.
  assert (Hl1 : live (c_objs s) !! (p - PREFIX) = Some old_size) by (by rewrite Hl, lookup_insert_ne).
  destruct (Hpres _ _ Hold Hl1) as [_ Hbytes].
  destruct (live_requested_size _ _ _ Hwf Hl1) as (bp & Hp & Hrp & Hcp).
  pose proof (payloads_disjoint _ _ _ _ _ Hwf Hp Hq ltac:(done)) as Hdisj.
  replace (p - PREFIX + PREFIX) with p in * by lia. replace (q - PREFIX + PREFIX) with q in * by lia.
  assert (Hlen : Z.of_nat (length (read_bytes (c_mem s) p (Z.min old_size n))) = Z.min old_size n)
    by (apply length_read_bytes; lia).
  apply wp_on_c_mem. unfold memcpy. wp_step. apply wp_demand; [lia|]. wp_step. apply wp_load_bytes.
  { replace p with (p - PREFIX + PREFIX) by lia. eapply payload_accessible; [done|done|lia]. }
  apply wp_store_bytes.
  { rewrite Hlen. replace q with (q - PREFIX + PREFIX) by lia. eapply payload_accessible; [done|done|lia]. }
  split; [by apply cached_wf_set_bytes|]. split.
  - apply allocated_put_bytes; [done|done|lia].
  - intros i Hi. cbn. rewrite byte_at_put, decide_True by lia. rewrite lookup_read_bytes by lia. simpl.
    rewrite <- Hbytes by lia. f_equal. lia.
Qed.

Lemma wp_cached_realloc_move self p old_size size b s :
  cached_wf s -> live (c_objs s) !! (p - PREFIX) = Some old_size -> is_size size -> size <> 0 ->
  hplf_block_from_payload p = p - PREFIX -> requested_size b = old_size ->
  c_objs s !! (p - PREFIX) = Some (OBlock b) ->
  wp (replacement ← hplf_malloc self size;
      if replacement =? NULL then mret NULL
      else
        b ← on_c_mem (load_block (hplf_block_from_payload p));
        let copy_size := if requested_size b <? size then requested_size b else size in
        on_c_mem (memcpy replacement p copy_size);;
        hplf_free self p;;
        mret replacement) (cached_realloc_post p old_size size s) s.
Proof.
  intros Hwf Hl Hs Hn Hfrom Hr Hb. wp_step. eapply wp_mono; [by apply wp_cached_malloc|].
  intros q s1 [Hwf1 [[-> Href]|[Hq Hal]]]; [simpl; wp_steps; split; [done|]; by left|].
  destruct (Z.eqb_spec q NULL); [done|]. rewrite Hfrom. pose proof Hal as [_ Hnew Hl1 Hpres].
  assert (Hne : p - PREFIX <> q - PREFIX) by congruence.
  assert (Hlp : live (c_objs s1) !! (p - PREFIX) = Some old_size) by (by rewrite Hl1, lookup_insert_ne).
  destruct (Hpres _ _ Hl Hlp) as [Hobj _].
  wp_step. apply wp_on_c_mem. eapply wp_load_block; [apply block_at_Some; by rewrite Hobj|]. rewrite with_c_mem_same, Hr.
  wp_step. eapply wp_mono; [eapply wp_cached_copy; [done|done|done|]|].
  { destruct (Z.ltb_spec old_size size); lia. }
  intros [] s2 (Hwf2 & Hal2 & Hcopy). wp_step.
  assert (Hlp2 : live (c_objs s2) !! (p - PREFIX) = Some old_size) by (by rewrite (al_live _ _ _ _ Hal2), lookup_insert_ne).
  eapply wp_mono; [by eapply wp_cached_free|]. intros [] s3 Hfree. wp_steps. split; [apply Hfree|].
  right. right. right. split; [done|]. split; [intros ->; done|]. split; [done|].
  eapply moved_after_free; [by apply cached_wf_arena|done|done| |].
  - intros i Hi. replace (p - PREFIX + PREFIX + i) with (p + i) by lia. apply Hcopy.
    destruct (Z.ltb_spec old_size size); lia.
  - destruct Hfree as (_ & _ & [[Hrel _]|[Hm Hf%free_leaks_can]]); [by left|right]. rewrite Hm.
    split_and!; [done|apply preserved_refl|by left].
Qed.

Lemma wp_cached_realloc self p old_size size s :
  cached_wf s -> live (c_objs s) !! (p - PREFIX) = Some old_size -> is_size size ->
  wp (hplf_realloc self p size) (cached_realloc_post p old_size size s) s.
Proof.
  intros Hwf Hl Hs. destruct (cached_live_block _ _ _ Hwf Hl) as (b & Hb & Hr & Hn & Hp & Hfrom).
  unfold hplf_realloc. destruct (Z.eqb_spec p NULL); [done|]. destruct (Z.eqb_spec size 0) as [->|Hs0].
  { wp_step. eapply wp_mono; [by eapply wp_cached_free|]. intros [] s1 Hf. wp_steps. split; [apply Hf|]. right. by left. }
  destruct (Z.ltb_spec PTRDIFF_MAX size).
  { wp_step. apply wp_set_errno_c. wp_steps. split; [by eapply cached_wf_quiet|]. left. split; [done|]. split; [done|].
    split; [apply unchanged_refl|]. right. by left. }
  pose proof (cached_wf_arena _ Hwf) as Ha. rewrite Hfrom. wp_step. apply wp_on_c_mem.
  eapply wp_load_block; [by apply block_at_Some|]. rewrite with_c_mem_same.
  wp_step. apply wp_on_c_mem. eapply wp_mono; [by eapply wp_can_retain|]. intros retain m [-> Hret]. rewrite with_c_mem_same.
  destruct retain; [|rewrite <- Hfrom; by eapply wp_cached_realloc_move].
  pose proof (can_retain_fits _ _ _ _ Ha Hb Hs Hs0 (proj1 Hret eq_refl)).
  wp_step. apply wp_on_c_mem. eapply wp_store_block; [by apply block_at_Some|]. wp_steps.
  split; [apply cached_wf_resize; [done|done|lia|lia]|]. right. right. left. split; [done|]. split; [done|].
  by apply retained_resize.
Qed.
End resize.
