(* ===== verification/CachedTrim.v ===== *)
(** * The cached allocator meets its contract: trimming

    [hplf_trim_quiescent] of the cached variant takes every shared list, releases
    the slabs all of whose slots were on them, and publishes the other blocks
    again. Slabs with a live block or a block in a thread's cache stay. *)

From S2P Require Import Prelude CheckedMath SizeClass Memory Layout Chain OsMemory Slab Arena SlabSpec.
From S2P Require Import LockedAllocator FreeLists LockedSpec TrimLists Trim TrimLoop LockedTrim TransferList ThreadCache HeapSpec Pool.
From S2P Require Import CachedState Lifecycle CachedAllocator ThreadCacheSpec Placement PoolSteps TransferSpec LifecycleSpec.
From S2P Require Import CachedSpec TrimAccount.

(** ** Definitions *)

(** The shared lists of the classes from [i] on, moved to the hands. *)
Definition gathered (P : placement) (i : Z) : placement := fun x c =>
  if decide (i <= c < HPLF_SIZE_CLASS_COUNT) then
    match x with in_transfer => [] | in_hand => P in_transfer c | _ => P x c end
  else P x c.

(** The hands' lists of the classes from [i] on, published. *)
Definition scattered (P : placement) (i : Z) : placement := fun x c =>
  if decide (i <= c < HPLF_SIZE_CLASS_COUNT) then
    match x with in_transfer => P in_hand c ++ P in_transfer c | in_hand => [] | _ => P x c end
  else P x c.

(** The hands hold [L]. *)
Definition holding (P : placement) (L : Z -> list Z) : placement := fun x c =>
  match x with in_hand => L c | _ => P x c end.

(** Some block of the slab at [a] is in a thread's cache. *)
Definition has_cached_block (os : gmap Z object) (a : Z) : Prop :=
  exists d K c b, cache_at os d K /\ 0 <= c < HPLF_SIZE_CLASS_COUNT /\ b ∈ K c /\ owned_by os a b.

(** The slabs [G] were released for [total] bytes; the others only saw links of
    free blocks change, and each has a live or a cached block unless an unmap can
    fail. *)
Definition slabs_released `{Build, Platform} (G : list Z) (total : Z) (m m' : memory) : Prop :=
  NoDup G /\ (exists m1, trimmed G m m1 /\ reshuffled m1 m') /\
  total = Z.min SIZE_MAX (Z.of_nat (length G) * slab_mapping sysconf_pagesize) /\
  forall a h, objs m' !! a = Some (OSlab h) ->
    has_live_block (objs m') a \/ has_cached_block (objs m') a \/ unmap_can_fail.

Definition cached_trim_post `{Build, Platform} (s : cached_allocator) (total : Z) (s' : cached_allocator) : Prop :=
  cached_wf s' /\ unchanged (c_mem s) (c_mem s') /\
  ((sys_mutex_lock (sys_calls (mach (base s))) <> 0 /\ total = 0 /\ c_mem s' = c_mem s /\
      transfer_heads s' = transfer_heads s) \/
   (sys_mutex_lock (sys_calls (mach (base s))) = 0 /\ exists G, slabs_released G total (c_mem s) (c_mem s') /\
      shared_trimmed G s s' /\ caches_kept (c_mem s) (c_mem s'))).

(** ** Choosing the lists the walk leaves *)

Lemma list_choice {A} (R : nat -> Z -> A -> Prop) (l : list Z) :
  (forall k x, l !! k = Some x -> exists y, R k x y) ->
  exists ys : list A, length ys = length l /\ forall k x y, l !! k = Some x -> ys !! k = Some y -> R k x y.
Proof.
  revert R. induction l as [|x l IH]; intros R Hex; [by exists []|].
  destruct (Hex O x eq_refl) as [y Hy].
  destruct (IH (fun k => R (S k))) as (ys & Hlen & HR); [intros k x' Hk; by apply (Hex (S k))|].
  exists (y :: ys). split; [simpl; lia|]. intros [|k] x' y'; simpl; [|apply HR]. by intros [= <-] [= <-].
Qed.

Lemma array_choice {A} (R : Z -> Z -> A -> Prop) (l : list Z) (d : A) :
  (forall c x, array_get l c = Some x -> exists y, R c x y) ->
  exists f : Z -> A, (forall c x, array_get l c = Some x -> R c x (f c)) /\ forall c, array_get l c = None -> f c = d.
Proof.
  intros Hex. destruct (list_choice (fun k => R (Z.of_nat k)) l) as (ys & Hlen & HR).
  { intros k x Hk. apply Hex, array_get_Some. split; [lia|]. by rewrite Nat2Z.id. }
  exists (fun c => if decide (0 <= c) then default d (ys !! Z.to_nat c) else d). split.
  - intros c x [Hc Hx]%array_get_Some. rewrite decide_True by done.
    destruct (lookup_lt_is_Some_2 ys (Z.to_nat c)) as [y Hy]; [rewrite Hlen; by eapply lookup_lt_Some|].
    rewrite Hy. simpl. replace c with (Z.of_nat (Z.to_nat c)) at 1 by lia. by eapply HR.
  - intros c Hn. case_decide; [|done]. destruct (ys !! Z.to_nat c) as [y|] eqn:E; [|done].
    apply lookup_lt_Some in E. rewrite Hlen in E. apply lookup_lt_is_Some_2 in E as [x Hx].
    assert (array_get l c = Some x) by (by apply array_get_Some). congruence.
Qed.

Section trim.
Context `{Build, Platform, !PlatformLaws, Pthreads, !PthreadLaws}.
Implicit Types (s : cached_allocator) (m : memory) (P : placement).

(** ** Gathering *)

Lemma gathered_step P i x c :
  0 <= i < HPLF_SIZE_CLASS_COUNT -> gathered (detached_from P i) (i + 1) x c = gathered P i x c.
Proof.
  intros Hi. unfold gathered, detached_from, pset.
  destruct (Z.eq_dec c i) as [->|]; destruct x; repeat case_decide; destruct_and?; simplify_eq; try lia; try done; exfalso; naive_solver.
Qed.

Lemma gathered_nothing P i x c : HPLF_SIZE_CLASS_COUNT <= i -> gathered P i x c = P x c.
Proof. intros Hi. unfold gathered. by rewrite decide_False by lia. Qed.

Lemma detached_transfer P i c : c <> i -> detached_from P i in_transfer c = P in_transfer c.
Proof. intros Hne. unfold detached_from, pset. by rewrite !decide_False by naive_solver. Qed.

Lemma wp_detach_all n P i s :
  cached_inv P s -> (forall c, i <= c -> P in_hand c = []) -> 0 <= i -> i + Z.of_nat n = HPLF_SIZE_CLASS_COUNT ->
  wp (detach_all n i) (fun lists s' => shuffled s s' /\ c_mem s' = c_mem s /\ cached_inv (gathered P i) s' /\
    length lists = n /\
    forall k t, lists !! k = Some t -> describes (c_objs s') t (P in_transfer (i + Z.of_nat k))) s.
Proof.
  revert P i s. induction n as [|n IH]; intros P i s V Hh Hi Hn.
  { simpl. wp_steps. split_and!; [apply shuffled_refl|done| |done|done].
    eapply cached_inv_ext; [exact V|]. intros x c. apply gathered_nothing. lia. }
  simpl detach_all. wp_step. eapply wp_mono; [apply (wp_detach_list P i s V); [apply Hh; lia|lia]|].
  intros t s1 (Hdes & S1 & Hm1 & V1). wp_step. eapply wp_mono; [eapply (IH _ (i + 1)); [exact V1| |lia|lia]|].
  { intros c Hc. unfold detached_from, pset. rewrite decide_False by (intros [_ ->]; lia). rewrite decide_False by naive_solver.
    apply Hh. lia. }
  intros lists s2 (S2 & Hm2 & V2 & Hlen & Hl). wp_steps. split; [by eapply shuffled_trans|]. split; [congruence|].
  split; [eapply cached_inv_ext; [exact V2|]; intros x c; by rewrite gathered_step by lia|].
  split; [simpl; lia|]. intros [|k] t'; simpl.
  - intros [= <-]. rewrite Z.add_0_r. by rewrite Hm2.
  - intros Hk. specialize (Hl _ _ Hk). rewrite detached_transfer in Hl by lia.
    by replace (i + Z.of_nat (S k)) with (i + 1 + Z.of_nat k) by lia.
Qed.

(** ** The walk over the gathered lists *)

Section walked.
Context (P : placement) (m0 : memory) (registry : Z) (heads : list Z) (pre G : list Z) (total : Z).
Context (b' : hplf_allocator_state) (L : Z -> list Z).
Context (I : pool_inv m0 registry heads P) (W : trim_inv m0 (fun c k => k ∈ P in_hand c) pre [] G total b').

Lemma hand_free c k : k ∈ P in_hand c -> free_in_class (objs m0) c k.
Proof. apply partition_class, I. Qed.

Lemma walked_trimmed : trimmed G m0 (memory_of b').
Proof. apply W. Qed.

(** Blocks elsewhere and descriptors are as before. *)
Lemma walked_block x c k : x <> in_hand -> k ∈ P x c -> objects_of b' !! k = objs m0 !! k.
Proof.
  intros Hx Hk. destruct (pool_block _ _ _ _ _ _ _ I Hk) as (blk & Hblk & _). rewrite Hblk.
  eapply (ti_untouched _ _ _ _ _ _ _ W); [done| |done]. intros c' Hk'.
  by destruct (pool_lists_disjoint _ _ _ _ _ _ _ _ _ I Hk Hk').
Qed.

Lemma walked_descriptor d dsc : objects_of b' !! d = Some (ODescriptor dsc) <-> objs m0 !! d = Some (ODescriptor dsc).
Proof.
  split; intros Hd.
  - destruct (trimmed_lookup_inv _ _ _ _ _ walked_trimmed Hd) as (o & Ho & _ & S). by inversion S; subst.
  - eapply (ti_untouched _ _ _ _ _ _ _ W); [done| |done]. intros c Hk.
    destruct (pool_block _ _ _ _ _ _ _ I Hk) as (blk & Hblk & _). congruence.
Qed.

Lemma walked_registry : registry_ok (objects_of b') (slabs b').
Proof. exists pre. rewrite <- (app_nil_r pre). split; apply W. Qed.

Context (HL : forall c head, array_get (free_lists b') c = Some head ->
  chain (block_next (objects_of b')) head (L c) /\ forall k, k ∈ L c <-> k ∈ P in_hand c /\ is_Some (objects_of b' !! k)).
Context (HN : forall c, array_get (free_lists b') c = None -> L c = []).

Lemma walked_hand c k : k ∈ L c <-> k ∈ P in_hand c /\ is_Some (objects_of b' !! k).
Proof.
  destruct (array_get (free_lists b') c) as [head|] eqn:E; [by eapply HL|]. rewrite (HN _ E). split.
  - by intros ?%not_elem_of_nil.
  - intros [(blk & a & h & _ & _ & _ & _ & Ha & <-)%hand_free _]. exfalso.
    destruct (array_get_class (free_lists b') (class_index h)) as [hd Hhd]; [apply W| |congruence].
    eapply class_index_range; [apply I|done].
Qed.

Lemma walked_partition : partition (free_in_class (objects_of b')) (holding P L).
Proof.
  pose proof (pi_free _ _ _ _ I) as Hp. pose proof (pi_arena _ _ _ _ I) as Hwf.
  assert (Hat : forall x c k, k ∈ holding P L x c <-> k ∈ P x c /\ is_Some (objects_of b' !! k)).
  { intros x c k. destruct (decide (x = in_hand)) as [->|Hx]; [apply walked_hand|].
    assert (E : holding P L x c = P x c) by (by destruct x). rewrite E. split; [|tauto]. intros Hk. split; [done|].
    rewrite (walked_block _ _ _ Hx Hk). destruct (pool_block _ _ _ _ _ _ _ I Hk) as (blk & -> & _). by eexists. }
  split.
  - intros c k. rewrite (trimmed_free _ _ _ _ _ Hwf walked_trimmed), (pt_exact _ _ Hp).
    setoid_rewrite Hat. naive_solver.
  - intros x y c k [Hx _]%Hat [Hy _]%Hat. by eapply pt_unique.
  - intros x c. destruct (decide (x = in_hand)) as [->|Hx].
    + simpl. destruct (array_get (free_lists b') c) as [head|] eqn:E; [|rewrite (HN _ E); constructor].
      eapply chain_NoDup, HL, E.
    + assert (E : holding P L x c = P x c) by (by destruct x). rewrite E. by apply (pt_nodup _ _ Hp).
Qed.

Lemma walked_pool : pool_inv (memory_of b') (slabs b') heads (holding P L).
Proof.
  split.
  - apply W.
  - apply walked_registry.
  - apply I.
  - intros c head Hh. eapply chain_ext; [by eapply (pi_transfer _ _ _ _ I)|]. intros k Hk. unfold block_next, block_at.
    by rewrite (walked_block in_transfer c).
  - intros d dsc Hd%walked_descriptor. eapply cache_ok_frame; [by apply (pi_cache _ _ _ _ I)|].
    intros c k _ Hk. by eapply (walked_block (in_cache d)).
  - intros d c Hd. apply (pi_absent _ _ _ _ I). intros dsc Hdsc%walked_descriptor. by apply (Hd dsc).
  - apply walked_partition.
Qed.
End walked.

Lemma wp_trim_local P s lists :
  cached_inv P s -> registry_held (base s) = true -> Z.of_nat (length lists) = HPLF_SIZE_CLASS_COUNT ->
  (forall c head, array_get lists c = Some head -> chain (block_next (c_objs s)) head (P in_hand c)) ->
  wp (trim_local lists) (fun r s' => exists L pre G, cached_inv (holding P L) s' /\
    registry_held (base s') = true /\ Z.of_nat (length r.2) = HPLF_SIZE_CLASS_COUNT /\
    (forall c head, array_get r.2 c = Some head -> chain (block_next (c_objs s')) head (L c)) /\
    (forall c k, k ∈ L c -> k ∈ P in_hand c) /\
    trim_inv (c_mem s) (fun c k => k ∈ P in_hand c) pre [] G r.1 (set_free_lists r.2 (base s'))) s.
Proof.
  intros V Hheld Hlen Hch. pose proof (cv_pool _ _ V) as I. unfold trim_local. apply wp_zoom. wp_step.
  assert (HF : forall c k, k ∈ P in_hand c -> free_in_class (c_objs s) c k) by (intros c k; by eapply hand_free).
  destruct (trim_inv_begin (c_mem s) (fun c k => k ∈ P in_hand c) (pi_arena _ _ _ _ I) HF
    (set_free_lists lists (base s))) as [sl W0]; [done|done|apply I|done| |].
  { intros c head Hget. exists (P in_hand c). split; [by apply Hch|]. intros k. split; [|tauto]. intros Hk. split; [done|].
    destruct (pool_block _ _ _ _ _ _ _ I Hk) as (blk & -> & _). by eexists. }
  eapply wp_mono; [by eapply (wp_trim_registry (c_mem s)); [apply I|exact HF|exact W0]|].
  intros total b' (pre & G & W). wp_steps.
  destruct (array_choice (fun c head l => chain (block_next (objects_of b')) head l /\
    forall k, k ∈ l <-> k ∈ P in_hand c /\ is_Some (objects_of b' !! k)) (free_lists b') []) as (L & HL & HN).
  { intros c head Hget. apply (ti_lists _ _ _ _ _ _ _ W _ _ Hget). }
  exists L, pre, G. split_and!.
  - split; [apply V|exact (walked_pool _ _ _ _ _ _ _ _ L I W HL HN)|]. eapply threads_ok_objs; [apply V|]. intros t dsc _ Hd. exists dsc.
    by apply (walked_descriptor _ _ _ _ _ _ _ _ I W).
  - apply W.
  - apply W.
  - intros c head Hget. by apply HL.
  - intros c k Hk. by apply (walked_hand _ _ _ _ _ _ _ _ L I W HL HN) in Hk as [Hk _].
  - by destruct b'.
Qed.

(** ** Scattering *)

Lemma scattered_step P i x c :
  0 <= i < HPLF_SIZE_CLASS_COUNT -> scattered (published_to P in_hand i) (i + 1) x c = scattered P i x c.
Proof.
  intros Hi. unfold scattered, published_to, pset.
  destruct (Z.eq_dec c i) as [->|]; destruct x; repeat case_decide; destruct_and?; simplify_eq; try lia; try done; exfalso; naive_solver.
Qed.

Lemma scattered_nothing P i x c : HPLF_SIZE_CLASS_COUNT <= i -> scattered P i x c = P x c.
Proof. intros Hi. unfold scattered. by rewrite decide_False by lia. Qed.

Lemma published_hand P i c : c <> i -> published_to P in_hand i in_hand c = P in_hand c.
Proof. intros Hne. unfold published_to, pset. by rewrite !decide_False by naive_solver. Qed.

Lemma wp_publish_chains heads P i s :
  cached_inv P s -> 0 <= i -> i + Z.of_nat (length heads) = HPLF_SIZE_CLASS_COUNT ->
  (forall k head, heads !! k = Some head -> chain (block_next (c_objs s)) head (P in_hand (i + Z.of_nat k))) ->
  wp (publish_chains i heads) (fun _ s' => shuffled s s' /\ cached_inv (scattered P i) s' /\
    forall k, (forall c, k ∉ P in_hand c) -> c_objs s' !! k = c_objs s !! k) s.
Proof.
  revert P i s. induction heads as [|head heads IH]; intros P i s V Hi Hn Hch.
  { simpl. wp_steps. split_and!; [apply shuffled_refl| |done]. eapply cached_inv_ext; [exact V|]. intros x c.
    apply scattered_nothing. simpl in Hn. lia. }
  simpl in Hn. pose proof (Hch O head eq_refl) as Hc. replace (i + Z.of_nat 0) with i in Hc by lia.
  simpl publish_chains. wp_step. apply wp_on_c_mem.
  eapply wp_mono; [eapply wp_from_chain; [exact Hc|eapply pool_length, V]|].
  intros t m (-> & _ & Hdes). rewrite with_c_mem_same. wp_step.
  eapply wp_mono; [apply (wp_publish_frame P in_hand i); [exact V|by left|lia|exact Hdes]|].
  intros t' s1 (_ & S1 & V1 & Hframe). eapply wp_mono; [apply (IH _ (i + 1) s1 V1); [lia|lia|]|].
  { intros k head' Hk. specialize (Hch (S k) _ Hk). rewrite published_hand by lia.
    replace (i + Z.of_nat (S k)) with (i + 1 + Z.of_nat k) in Hch by lia.
    eapply chain_ext; [exact Hch|]. intros b Hb. unfold block_next, block_at. rewrite Hframe; [done|]. intros Hb'.
    pose proof (cv_pool _ _ V) as I. destruct (pool_lists_disjoint _ _ _ _ _ _ _ _ _ I Hb Hb'). lia. }
  intros [] s2 (S2 & V2 & F2). split; [by eapply shuffled_trans|]. split.
  - eapply cached_inv_ext; [exact V2|]. intros x c. by rewrite scattered_step by lia.
  - intros k Hk. rewrite F2; [by apply Hframe|]. intros c. unfold published_to. destruct (Z.eq_dec c i) as [->|Hne].
    + rewrite pset_eq. apply not_elem_of_nil.
    + rewrite pset_ne by naive_solver. by rewrite pset_place.
Qed.

(** ** hplf_trim_quiescent *)

(** A cached block has a descriptor whose cache holds it. *)
Lemma pool_cached m registry heads P d c k :
  pool_inv m registry heads P -> k ∈ P (in_cache d) c -> cache_at (objs m) d (P (in_cache d)).
Proof.
  intros I Hk. destruct (objs m !! d) as [[b|h|dsc]|] eqn:E; [| |by eapply pool_cache_at|].
  all: exfalso; rewrite (pi_absent _ _ _ _ I) in Hk by congruence; by apply not_elem_of_nil in Hk.
Qed.

(** A block of a slab that survives the trim keeps its owner and its state. *)
Lemma surviving_block G m0 m1 m2 a h k b :
  trimmed G m0 m1 -> reshuffled m1 m2 -> objs m2 !! a = Some (OSlab h) ->
  objs m0 !! k = Some (OBlock b) -> owner b = owner_small a ->
  exists b', objs m2 !! k = Some (OBlock b') /\ owner b' = owner b /\ requested_size b' = requested_size b.
Proof.
  intros T R Ha Hk Ho. apply (reshuffled_slab _ _ _ _ R) in Ha.
  destruct (trimmed_lookup_inv _ _ _ _ _ T Ha) as (o & _ & Hout & S). inversion S; subst. simpl in Hout.
  destruct (tr_kept _ _ _ T _ _ Hk) as (o1 & Ho1 & S1); [simpl; by rewrite Ho|].
  inversion S1; subst. destruct (reshuffled_lookup _ _ _ _ R Ho1) as (o2 & Ho2 & S2). inversion S2; subst. by eexists.
Qed.

(** A slab that was kept has a live or a cached block. *)
Lemma kept_reason P Q G m0 m1 m2 registry registry' heads heads' a h :
  pool_inv m0 registry heads P -> (forall c, 0 <= c < HPLF_SIZE_CLASS_COUNT -> P in_transfer c = [] /\ P in_grasp c = []) ->
  trimmed G m0 m1 -> reshuffled m1 m2 -> pool_inv m2 registry' heads' Q ->
  (forall d c, Q (in_cache d) c = P (in_cache d) c) -> objs m2 !! a = Some (OSlab h) ->
  kept (fun c k => k ∈ P in_hand c) m0 a -> has_live_block (objs m2) a \/ has_cached_block (objs m2) a.
Proof.
  intros I He T R IQ HQ Ha (h0 & i & Ha0 & Hi & Hnot). pose proof (pi_arena _ _ _ _ I) as Hwf.
  pose proof (class_index_range _ _ _ Hwf Ha0) as Hc.
  pose proof (aw_objs _ Hwf _ _ Ha0) as K. simpl in K. destruct (sk_slots _ _ _ K i Hi) as (b & Hb & Ho).
  destruct (surviving_block _ _ _ _ _ _ _ _ T R Ha Hb Ho) as (b' & Hb' & Ho' & Hr').
  destruct (Z.eq_dec (requested_size b) 0) as [Hz|Hnz]; [right|left; exists (slot_at a h0 i), b'; split_and!; congruence].
  assert (Hf : free_in_class (objs m0) (class_index h0) (slot_at a h0 i)).
  { exists b, a, h0. split_and!; try done. pose proof (aw_objs _ Hwf _ _ Hb) as [(x & y & j & [])|[]]; [done|congruence]. }
  apply (pt_exact _ _ (pi_free _ _ _ _ I)) in Hf as [x Hx]. destruct (He _ Hc) as [Ht Hg].
  destruct x as [|d| |]; [rewrite Ht in Hx; by apply not_elem_of_nil in Hx| |done|rewrite Hg in Hx; by apply not_elem_of_nil in Hx].
  rewrite <- HQ in Hx. exists d, (Q (in_cache d)), (class_index h0), (slot_at a h0 i). split_and!; [|lia|lia|done|].
  - by eapply pool_cached.
  - exists b'. split; [done|congruence].
Qed.

(** The placement after a whole trim: caches as before, hands empty. *)
Lemma scattered_cache P L d c : scattered (holding (gathered P 0) L) 0 (in_cache d) c = P (in_cache d) c.
Proof. unfold scattered, holding, gathered. by repeat case_decide. Qed.

Lemma scattered_hands P L :
  hands_empty P -> (forall c k, k ∈ L c -> k ∈ gathered P 0 in_hand c) -> hands_empty (scattered (holding (gathered P 0) L) 0).
Proof.
  intros He HL c. destruct (He c) as [Hh Hg]. split.
  - unfold scattered. case_decide as Hc; [done|]. simpl. destruct (L c) as [|k l] eqn:E; [done|]. exfalso.
    specialize (HL c k). rewrite E in HL. unfold gathered in HL. rewrite decide_False, Hh in HL by done.
    by eapply not_elem_of_nil, HL; left.
  - unfold scattered, holding, gathered. by repeat case_decide.
Qed.

Lemma gathered_range P c :
  hands_empty P -> 0 <= c < HPLF_SIZE_CLASS_COUNT ->
  gathered P 0 in_transfer c = [] /\ gathered P 0 in_grasp c = [] /\ gathered P 0 in_hand c = P in_transfer c.
Proof. intros He Hc. unfold gathered. rewrite !decide_True by lia. split_and!; [done|apply He|done]. Qed.

Lemma walked_released P Q G L pre total s s2 s3 s4 lists :
  pool_inv (c_mem s2) (slabs (base s2)) (transfer_heads s2) (gathered P 0) -> hands_empty P ->
  c_mem s2 = c_mem s ->
  trim_inv (c_mem s2) (fun c k => k ∈ gathered P 0 in_hand c) pre [] G total (set_free_lists lists (base s3)) ->
  reshuffled (c_mem s3) (c_mem s4) -> cached_inv Q s4 -> Q = scattered (holding (gathered P 0) L) 0 ->
  unchanged (c_mem s) (c_mem s4) /\ slabs_released G total (c_mem s) (c_mem s4).
Proof.
  intros I He Hm W R V ->. pose proof (ti_trimmed _ _ _ _ _ _ _ W) as T. cbn in T. rewrite Hm in *. split.
  - eapply unchanged_trans; [|by apply reshuffled_unchanged].
    split; [by eapply trimmed_live|]. eapply trimmed_preserved; [apply I|done].
  - split; [apply W|]. split; [by exists (c_mem s3)|]. split; [apply W|]. intros a h Ha.
    pose proof Ha as Ha3. apply (reshuffled_slab _ _ _ _ R) in Ha3.
    pose proof (ti_slabs _ _ _ _ _ _ _ W a) as Hsl. rewrite app_nil_r in Hsl. cbn in Hsl.
    destruct (ti_kept _ _ _ _ _ _ _ W a) as [Hk|]; [apply Hsl; by eexists| |by right; right].
    destruct (kept_reason _ _ _ _ _ _ _ _ _ _ a h I (fun c Hc => conj (proj1 (gathered_range _ _ He Hc))
      (proj1 (proj2 (gathered_range _ _ He Hc)))) T R (cv_pool _ _ V)) as [?|?]; try done.
    + intros d c. rewrite scattered_cache. unfold gathered. by case_decide.
    + by left.
    + by right; left.
Qed.

Lemma gathered_shared P c k : hands_empty P -> k ∈ gathered P 0 in_hand c -> k ∈ P in_transfer c.
Proof.
  intros He. unfold gathered. case_decide; [done|]. destruct (He c) as [-> _]. by intros ?%not_elem_of_nil.
Qed.

(** What the walk and the publication together did to lists and caches. *)
Lemma walked_account P G L pre total s s2 s3 s' lists :
  cached_inv P s -> hands_empty P -> c_mem s2 = c_mem s ->
  trim_inv (c_mem s2) (fun c k => k ∈ gathered P 0 in_hand c) pre [] G total (set_free_lists lists (base s3)) ->
  reshuffled (c_mem s3) (c_mem s') -> cached_inv (scattered (holding (gathered P 0) L) 0) s' ->
  (forall c k, k ∈ L c -> k ∈ gathered P 0 in_hand c) ->
  (forall k, (forall c, k ∉ L c) -> c_objs s' !! k = c_objs s3 !! k) ->
  shared_trimmed G s s' /\ caches_kept (c_mem s) (c_mem s').
Proof.
  intros V He Hm W R V' HL HF. pose proof (ti_trimmed _ _ _ _ _ _ _ W) as T. cbn in T. rewrite Hm in *.
  assert (HQ : forall d c, scattered (holding (gathered P 0) L) 0 (in_cache d) c = P (in_cache d) c) by apply scattered_cache.
  split; [eapply trimmed_shared; [done|exact V'|done|by apply scattered_hands|done|done|done]|].
  eapply trimmed_caches; [done|done|done|]. intros k o Ho Hk Hs.
  rewrite HF by (intros c Hc; by apply (Hk c), gathered_shared, HL).
  apply (ti_untouched _ _ _ _ _ _ _ W k o); [done| |done]. intros c Hc. by apply (Hk c), gathered_shared.
Qed.

Lemma wp_cached_trim self s : cached_wf s -> wp (hplf_trim_quiescent self) (cached_trim_post s) s.
Proof.
  intros (Hheld & P & V & HL & He). unfold hplf_trim_quiescent. wp_step. apply wp_c_registry_lock_exact; [done|]. intros s1 R1 Hr1 _.
  destruct (Z.eqb_spec (sys_mutex_lock (sys_calls (mach (base s)))) 0) as [Hlock|Hlock].
  2: { simpl. wp_steps. pose proof (rl_mem _ _ R1) as Hm. split; [|rewrite Hm; split; [apply unchanged_refl|left]].
       - split; [done|]. exists P. split; [by eapply cached_inv_relocked|done].
       - split_and!; [done..|apply R1]. }
  simpl negb. cbn iota. pose proof (cached_inv_relocked _ _ _ V R1) as V1. wp_step.
  eapply wp_mono; [apply (wp_detach_all _ P 0 s1 V1); [intros c _; apply He|lia|done]|].
  intros lists s2 (S2 & Hm2 & V2 & Hlen & Hdes). wp_step.
  assert (Hlen2 : Z.of_nat (length (tl_first <$> lists)) = HPLF_SIZE_CLASS_COUNT).
  { rewrite length_fmap, Hlen. done. }
  eapply wp_mono; [eapply (wp_trim_local (gathered P 0)); [exact V2|by rewrite (sh_held _ _ S2)|exact Hlen2|]|].
  { intros c head [Hc (t & -> & Ht)%list_lookup_fmap_Some]%array_get_Some.
    pose proof (lookup_lt_Some _ _ _ Ht) as Hlt. rewrite Hlen in Hlt.
    destruct (gathered_range P c He) as (_ & _ & ->); [unfold HPLF_SIZE_CLASS_COUNT in *; lia|].
    specialize (Hdes _ _ Ht). replace (0 + Z.of_nat (Z.to_nat c)) with c in Hdes by lia. apply Hdes. }
  intros [total final] s3 (L & pre & G & V3 & Hr3 & Hlen3 & Hch3 & HL3 & W). cbn [fst snd] in *. wp_step.
  eapply wp_mono; [apply (wp_publish_chains final _ 0 s3 V3); [lia|lia|]|].
  { intros k head Hk. apply Hch3, array_get_Some. split; [lia|]. by replace (Z.to_nat (0 + Z.of_nat k)) with k by lia. }
  intros [] s4 (S4 & V4 & F4). wp_step. apply wp_c_registry_unlock; [by rewrite (sh_held _ _ S4)|]. intros s5 R5 Hr5. wp_steps.
  destruct (walked_released P (scattered (holding (gathered P 0) L) 0) G L pre total s s2 s3 s4 final (cv_pool _ _ V2) He) as [Hun Hrel]; [|exact W|apply S4|exact V4|done|].
  { by rewrite Hm2, (rl_mem _ _ R1). }
  assert (V5 : cached_inv (scattered (holding (gathered P 0) L) 0) s5) by (by eapply cached_inv_relocked).
  pose proof (rl_mem _ _ R5) as Hm5.
  destruct (walked_account P G L pre total s s2 s3 s5 final V He) as [Hsh Hca];
    [by rewrite Hm2, (rl_mem _ _ R1)|exact W|rewrite Hm5; apply S4|done|done|by rewrite Hm5|].
  split; [|rewrite Hm5 in *; split; [done|right; split; [done|by exists G]]].
  split; [done|]. eexists. split; [by eapply cached_inv_relocked|]. split; [|by apply scattered_hands].
  intros d. eapply within_limits_ext; [|apply (HL d)]. intros c. apply scattered_cache.
Qed.
End trim.
