(* ===== verification/CachedLifecycle.v ===== *)
(** * The cached allocator meets its contract: the life of a thread's cache

    Total-correctness specifications, relative to the invariant [cached_wf], of
    [hplf_cache_acquire], [hplf_thread_flush], a thread's exit and the test
    function that tears the current cache down: when a thread has a cache, where
    its blocks go, and that an abandoned cache is never used again. *)

From S2P Require Import Prelude CheckedMath SizeClass Memory Layout Chain OsMemory Slab Arena SlabSpec.
From S2P Require Import LockedAllocator FreeLists LockedSpec TrimLists Trim TransferList ThreadCache HeapSpec Pool.
From S2P Require Import CachedState Lifecycle CachedAllocator ThreadCacheSpec Placement PoolSteps TransferSpec LifecycleSpec.
From S2P Require Import CacheAcquire CachedSpec.

(** ** Postconditions *)

(** Exactly the blocks in the cache at [d] went to the shared lists, in front, and
    everything else is where it was. *)
Definition emptied_cache `{Platform} (d : Z) (s s' : cached_allocator) : Prop :=
  exists P, cached_inv P s /\ limited P /\ cached_inv (flushed P d 0) s'.

Definition flush_post `{Platform} (self : nat) (s s' : cached_allocator) : Prop :=
  cached_wf s' /\ unchanged (c_mem s) (c_mem s') /\
  (forall t, current_state (thread_of t s') = current_state (thread_of t s) /\
             current_descriptor (thread_of t s') = current_descriptor (thread_of t s)) /\
  (current_state (thread_of self s) = HPLF_CACHE_ACTIVE ->
     emptied_cache (current_descriptor (thread_of self s)) s s').

(** A thread that had a cache loses it for good. *)
Definition abandoned `{Build, Platform} (self : nat) (s s' : cached_allocator) : Prop :=
  current_state (thread_of self s') = HPLF_CACHE_UNCACHED /\
  emptied_cache (current_descriptor (thread_of self s)) s s' /\
  descriptor_gone (current_descriptor (thread_of self s)) s'.

Definition exit_post `{Build, Platform} (self : nat) (s s' : cached_allocator) : Prop :=
  cached_wf s' /\ unchanged (c_mem s) (c_mem s') /\ key_value (thread_of self s') = NULL /\
  (current_state (thread_of self s) = HPLF_CACHE_ACTIVE -> abandoned self s s').

Definition teardown_post `{Build, Platform} (self : nat) (s : cached_allocator) (r : bool) (s' : cached_allocator) : Prop :=
  cached_wf s' /\ unchanged (c_mem s) (c_mem s') /\
  (r = true -> current_state (thread_of self s) = HPLF_CACHE_ACTIVE /\ abandoned self s s') /\
  (r = false -> current_state (thread_of self s') = current_state (thread_of self s)).

(** A thread's first request: exactly when every step succeeds it gets a new, empty,
    registered cache; otherwise none, for good. *)
Definition first_acquisition `{Build, Platform, Pthreads} (self : nat) (s : cached_allocator) (d : Z)
    (s' : cached_allocator) : Prop :=
  (acquires s d /\ d <> NULL /\ c_objs s !! d = None /\ cache_at (c_objs s') d (fun _ => []) /\
   key_value (thread_of self s') = d) \/
  (d = NULL /\ forall d', ~ acquires s d').

(** What a thread gets, and that it keeps it. *)
Definition acquire_post `{Build, Platform, Pthreads} (self : nat) (s : cached_allocator) (d : Z)
    (s' : cached_allocator) : Prop :=
  cached_wf s' /\ unchanged (c_mem s) (c_mem s') /\ cache_of self s' d /\
  (current_state (thread_of self s) = HPLF_CACHE_UNINITIALIZED -> first_acquisition self s d s') /\
  (current_state (thread_of self s) = HPLF_CACHE_UNCACHED -> d = NULL /\ s' = s) /\
  (current_state (thread_of self s) = HPLF_CACHE_ACTIVE -> d = current_descriptor (thread_of self s) /\ s' = s).

Section lifecycle.
Context `{Build, Platform, !PlatformLaws, Pthreads, !PthreadLaws}.
Implicit Types (s : cached_allocator) (P : placement).

(** ** Flushed placements *)

Lemma limited_flushed P d : limited P -> limited (flushed P d 0).
Proof.
  intros HL d'. destruct (HL d') as [Hn Hb]. assert (Hle : forall i, 0 <= i < HPLF_SIZE_CLASS_COUNT ->
    (length (flushed P d 0 (in_cache d') i) <= length (P (in_cache d') i))%nat).
  { intros i Hi. unfold flushed. rewrite decide_True, decide_False by done. case_decide; simpl; lia. }
  split.
  - intros i Hi. specialize (Hle _ Hi). specialize (Hn _ Hi). lia.
  - destruct (Z.eq_dec d' d) as [->|Hne].
    + rewrite (cached_bytes_ext (fun _ => [])); [vm_compute; by intros ?|]. intros i Hi. unfold flushed.
      by rewrite decide_True, decide_False, decide_True.
    + rewrite (cached_bytes_ext (P (in_cache d'))); [done|]. intros i Hi. unfold flushed.
      rewrite decide_True, decide_False, decide_False by congruence. done.
Qed.

Lemma hands_flushed P d : hands_empty P -> hands_empty (flushed P d 0).
Proof. intros He c. rewrite !flushed_other by done. apply He. Qed.

Lemma cached_wf_flushed P d s :
  registry_held (base s) = false -> cached_inv (flushed P d 0) s -> limited P -> hands_empty P -> cached_wf s.
Proof. intros Hh V HL He. split; [done|]. exists (flushed P d 0). split; [done|]. split; [by apply limited_flushed|by apply hands_flushed]. Qed.

(** ** hplf_thread_flush *)

Lemma wp_cached_flush self s : cached_wf s -> wp (hplf_thread_flush self) (fun _ s' => flush_post self s s') s.
Proof.
  intros (Hheld & P & V & HL & He). unfold hplf_thread_flush. wp_step.
  eapply wp_mono; [apply (wp_flush_current P self s V); intros c; apply He|]. intros r s1 (S & Hact & Hin).
  apply wp_count_stat. intros s2 T2.
  assert (Hheld2 : registry_held (base s2) = false) by (by rewrite (ta_base _ _ T2), (sh_held _ _ S)).
  assert (Hmem : unchanged (c_mem s) (c_mem s2)) by (rewrite (ta_base _ _ T2); apply reshuffled_unchanged, S).
  assert (Hths : forall t, current_state (thread_of t s2) = current_state (thread_of t s) /\
                           current_descriptor (thread_of t s2) = current_descriptor (thread_of t s)).
  { intros t. destruct (ta_threads _ _ T2 t) as (-> & -> & _). rewrite !thread_of_in, (sh_threads _ _ S). done. }
  destruct (decide (current_state (thread_of self s) = HPLF_CACHE_ACTIVE)) as [Hst|Hst].
  - destruct (Hact Hst) as [V1 _]. pose proof (cached_inv_tallied _ _ _ V1 T2) as V2.
    split; [by eapply cached_wf_flushed|]. split_and!; [done|done|]. intros _. by exists P.
  - destruct (Hin Hst) as [-> _]. split; [|by split_and!]. split; [done|]. exists P. split; [by eapply cached_inv_tallied|done].
Qed.

(** ** Thread exit and teardown *)

Lemma abandoned_by_post P self s s' :
  cached_inv P s -> registry_held (base s) = false -> limited P -> hands_empty P -> abandoned_by P self s s' ->
  cached_wf s' /\ unchanged (c_mem s) (c_mem s') /\ key_value (thread_of self s') = NULL /\ abandoned self s s'.
Proof.
  intros V Hheld HL He (V' & [Hun Hh] & _ & Hkey & Hst & Hgone). rewrite Hheld in Hh.
  split; [by eapply cached_wf_flushed|]. split_and!; [done|done|]. split_and!; [done| |done]. by exists P.
Qed.

Lemma wp_cached_exit self s : cached_wf s -> wp (thread_exit self) (fun _ s' => exit_post self s s') s.
Proof.
  intros Hwf. pose proof Hwf as (Hheld & P & V & HL & He).
  eapply wp_mono; [apply (wp_thread_exit P self s V); intros c; apply He|]. intros [] s' [[Hkey ->]|[Hst Hab]].
  - split; [done|]. split_and!; [apply unchanged_refl|done|]. intros Hst.
    destruct (th_active _ _ (cv_threads _ _ V) _ Hst) as (? & E & _). rewrite thread_of_in in *. congruence.
  - destruct (abandoned_by_post _ _ _ _ V Hheld HL He Hab) as (? & ? & ? & ?). by split_and!.
Qed.

Lemma wp_cached_teardown self s :
  cached_wf s -> wp (hplf_cache_lifecycle_test_teardown_current self) (teardown_post self s) s.
Proof.
  intros Hwf. pose proof Hwf as (Hheld & P & V & HL & He).
  eapply wp_mono; [apply (wp_teardown P self s V); intros c; apply He|]. intros r s' [[-> Q]|(-> & Hst & Hab)].
  - split; [by eapply cached_wf_quiet|]. rewrite (qu_mem _ _ Q). split_and!; [apply unchanged_refl|done|].
    intros _. by rewrite !thread_of_in, (qu_threads _ _ Q).
  - destruct (abandoned_by_post _ _ _ _ V Hheld HL He Hab) as (? & ? & ? & ?). by split_and!.
Qed.

(** ** hplf_cache_acquire *)

(** The descriptor of a successful acquisition is new, so its cache is empty. *)
Lemma acquired_empty P self s d s' :
  cached_inv P s -> cached_inv P s' -> cache_of self s' d -> d <> NULL -> acquires s d -> first_acquisition self s d s'.
Proof.
  intros V V' Hc Hd0 A. destruct Hc as [[? _]|(_ & Hst & Hcur & [dsc Hdsc])]; [done|].
  pose proof (cv_pool _ _ V) as I. destruct descriptor_layout as [_ Hge].
  assert (Hpos : 0 < descriptor_length) by (unfold descriptor_length; change sizeof_hplf_cache_descriptor with 280 in *; lia).
  pose proof (mmap_fresh _ _ _ _ Hpos (aq_map _ _ A)) as Hf.
  pose proof (region_base_free _ _ _ (pi_arena _ _ _ _ I) Hf Hpos) as Hnone.
  left. split_and!; [done|done|done| |].
  - eapply cache_at_ext; [eapply pool_cache_at; [apply V'|exact Hdsc]|]. intros c. symmetry.
    apply (pi_absent _ _ _ _ I). congruence.
  - rewrite <- Hcur. destruct (th_active _ _ (cv_threads _ _ V') _ Hst) as (_ & Hk & _). exact Hk.
Qed.

Lemma wp_cached_acquire self s : cached_wf s -> wp (hplf_cache_acquire self) (acquire_post self s) s.
Proof.
  intros Hwf. pose proof Hwf as (Hheld & P & V & HL & He).
  destruct (current_state (thread_of self s)) eqn:Hst.
  - eapply wp_mono; [apply wp_wlp; [apply (wp_cache_acquire P self s V); intros c; apply He|by apply wlp_acquire_outcome]|].
    intros d s' [[V' [Hun Hh] _ Hc] Hout]. rewrite Hheld in Hh. split; [split; [done|by exists P]|].
    split_and!; [done|done| |by rewrite Hst|by rewrite Hst]. intros _.
    destruct Hout as [[Hd A]|Hno]; [by eapply acquired_empty|by right].
  - unfold hplf_cache_acquire. wp_step. wp_step. rewrite Hst. wp_step. split; [done|].
    split_and!; [apply unchanged_refl| |by rewrite Hst|by rewrite Hst|done]. right.
    destruct (th_active _ _ (cv_threads _ _ V) _ Hst) as (? & _ & ?). done.
  - unfold hplf_cache_acquire. wp_step. wp_step. rewrite Hst. wp_step. split; [done|].
    split_and!; [apply unchanged_refl|by left|by rewrite Hst|done|by rewrite Hst].
Qed.
End lifecycle.
