(* ===== verification/CachedApi.v ===== *)
(** * The cached allocator as an implementation of the interface, for many threads

    For every thread the cached variant discharges [AllocatorLaws] with the
    invariant [cached_wf], which its initial state satisfies. Because the invariant
    does not depend on the thread, the calls of any number of threads, in any
    order and mixed with thread exits, refine one abstract heap. *)

From S2P Require Import Prelude CheckedMath SizeClass Memory Layout Chain OsMemory Slab Arena SlabSpec.
From S2P Require Import LockedAllocator FreeLists LockedSpec LockedResize TrimLists Trim TransferList ThreadCache HeapSpec HeapRefinement Pool.
From S2P Require Import CachedState Lifecycle CachedAllocator ThreadCacheSpec Placement PoolSteps TransferSpec LifecycleSpec.
From S2P Require Import CachedSpec CachedFree CachedResize CachedTrim CachedLifecycle.

(** ** Definitions *)

(** What can happen: a thread makes a call, or a thread exits. *)
Inductive thread_event :=
| ev_call (self : nat) (o : heap_op)
| ev_exit (self : nat).

Abbreviation thread_history := (list (thread_event * heap_result)).

(** An exit does not concern the abstract heap. *)
Definition event_step (leak : Prop) (h : heap) (e : thread_event) (r : heap_result) (h' : heap) : Prop :=
  match e with
  | ev_call _ o => heap_step leak h o r h'
  | ev_exit _ => r = res_unit /\ h' = h
  end.

Inductive threads_trace (leak : Prop) (client : thread_history -> thread_event) : thread_history -> heap -> Prop :=
| threads_start : threads_trace leak client [] ∅
| threads_step hist h r h' : threads_trace leak client hist h -> event_step leak h (client hist) r h' ->
    threads_trace leak client ((client hist, r) :: hist) h'.

Definition event_valid (h : heap) (e : thread_event) : Prop :=
  match e with ev_call _ o => op_valid h o | ev_exit _ => True end.

(** The scheduler and its threads never break the API's rules. *)
Definition respectful_threads (leak : Prop) (client : thread_history -> thread_event) : Prop :=
  forall hist h, threads_trace leak client hist h -> event_valid h (client hist).

Section cached.
Context `{Build, Platform, Pthreads}.

(** The operations of one thread. *)
Definition cached_thread (self : nat) : Allocator cached_allocator := {|
  alloc_memory s := c_mem s;
  alloc_malloc := hplf_malloc self;
  alloc_calloc := hplf_calloc self;
  alloc_realloc := hplf_realloc self;
  alloc_free := hplf_free self;
  alloc_flush := hplf_thread_flush self;
  alloc_trim := hplf_trim_quiescent self;
  alloc_store a l := on_c_mem (store_bytes a l);
  alloc_load a n := on_c_mem (load_bytes a n)
|}.

Definition run_event (e : thread_event) : prog cached_allocator heap_result :=
  match e with
  | ev_call self o => @run_op _ (cached_thread self) o
  | ev_exit self => thread_exit self;; mret res_unit
  end.

Fixpoint play_threads (client : thread_history -> thread_event) (n : nat) (hist : thread_history)
    : prog cached_allocator thread_history :=
  match n with
  | O => mret hist
  | Datatypes.S n' => r ← run_event (client hist); play_threads client n' ((client hist, r) :: hist)
  end.
End cached.

(** ** The laws *)

Section laws.
Context `{Build, Platform, !PlatformLaws, Pthreads, !PthreadLaws}.
Implicit Types (s : cached_allocator).

Lemma zeroed_heads c head : array_get (transfer_heads initial_cached_state) c = Some head -> head = NULL.
Proof. apply zeroed_get. Qed.

Lemma initial_thread_in t : thread_in (threads initial_cached_state) t = initial_thread.
Proof. unfold thread_in. cbn. by rewrite lookup_empty. Qed.

Lemma initial_cached_wf : cached_wf initial_cached_state.
Proof.
  split; [done|]. exists (fun _ _ => []). split; [|split; [|done]].
  - split; [done| |].
    + split; [|  |done| |by intros d dsc; cbn; rewrite lookup_empty|done|].
      * split; intros *; cbn; rewrite ?lookup_empty; done.
      * exists []. split; [done|]. intros a. cbn. setoid_rewrite lookup_empty. set_solver.
      * by intros c head ->%zeroed_heads.
      * split; [|by intros x y c b ?%not_elem_of_nil|intros; constructor].
        intros c b. split; [|by intros [? ?%not_elem_of_nil]].
        intros (blk & ? & ? & Hb & _). cbn in Hb. by rewrite lookup_empty in Hb.
    + split; [intros t|intros t|intros t1 t2]; rewrite !initial_thread_in; done.
  - intros d. split; [intros i _; done|]. by vm_compute.
Qed.

Lemma cached_malloc_law (self : nat) n s p s' :
  cached_malloc_post n s p s' -> cached_wf s' /\ @new_or_null _ (cached_thread self) n s p s'.
Proof. intros [Hwf [[-> Href]|[Hp Hal]]]; (split; [done|]); [left; split; [done|apply Href]|by right]. Qed.

Lemma cached_free_law (self : nat) p s s' :
  cached_free_post (p - PREFIX) s s' -> cached_wf s' /\ @released_or_leaked _ _ _ (cached_thread self) p s s'.
Proof. intros (Hwf & _ & [[Hrel _]|[Hun Hf%free_leaks_can]]); (split; [done|]); [by left|right]. split; [cbn; rewrite Hun; apply unchanged_refl|by left]. Qed.

Lemma cached_realloc_law (self : nat) p old_size n s q s' :
  cached_realloc_post p old_size n s q s' -> cached_wf s' /\ @resized _ _ _ (cached_thread self) p old_size n s q s'.
Proof.
  intros [Hwf [(-> & Hn & Hun & _)|[(-> & Hn & Hf)|[(-> & Hn & R)|(Hq & _ & Hn & M)]]]]; (split; [done|]).
  - by left.
  - right. left. split_and!; [done..|]. by apply cached_free_law.
  - right. right. by left.
  - right. right. by right.
Qed.

Lemma cached_laws self : @AllocatorLaws _ _ _ (cached_thread self) cached_wf.
Proof.
  split; cbn [alloc_memory alloc_malloc alloc_calloc alloc_realloc alloc_free alloc_flush alloc_trim
              alloc_store alloc_load cached_thread].
  - apply cached_wf_arena.
  - intros n s Hwf Hn. eapply wp_mono; [by apply wp_cached_malloc|]. intros p s'. apply cached_malloc_law.
  - intros count size s Hwf Hc Hs. eapply wp_mono; [by apply wp_cached_calloc|].
    intros p s' [Hwf' [(-> & Hun & _)|(Hp & Hm & Hal & Hz)]]; (split; [done|]); (split; [|done]); [by left|by right].
  - intros n s Hwf Hn. eapply wp_mono; [by apply wp_cached_malloc|]. intros p s'. apply cached_malloc_law.
  - intros p old_size n s Hwf Hl Hn. eapply wp_mono; [by eapply wp_cached_realloc|]. intros q s'. apply cached_realloc_law.
  - intros s Hwf. apply wp_cached_free_null. split; [done|apply unchanged_refl].
  - intros p n s Hwf Hl. eapply wp_mono; [by eapply wp_cached_free|]. intros [] s'. apply cached_free_law.
  - intros s Hwf. eapply wp_mono; [by apply wp_cached_flush|]. by intros [] s' (? & ? & _).
  - intros s Hwf. eapply wp_mono; [by apply wp_cached_trim|]. intros n s' (Hwf' & Hun & _). done.
  - intros a l s Hwf Hacc. apply wp_on_c_mem, wp_store_bytes; [done|]. split; [by apply cached_wf_set_bytes|done].
  - intros a n s Hwf Hacc. apply wp_on_c_mem, wp_load_bytes; [done|]. rewrite with_c_mem_same. done.
Qed.

(** ** Many threads *)

Lemma wp_run_event e s :
  cached_wf s -> event_valid (heap_of (c_mem s)) e ->
  wp (run_event e) (fun r s' => cached_wf s' /\
    event_step free_can_fail (heap_of (c_mem s)) e r (heap_of (c_mem s'))) s.
Proof.
  intros Hwf Hv. destruct e as [self o|self]; simpl in *.
  - exact (@wp_run_op _ _ _ _ (cached_thread self) cached_wf (cached_laws self) o s Hwf Hv).
  - wp_step. eapply wp_mono; [by apply wp_cached_exit|]. intros [] s' (Hwf' & Hun & _). wp_steps.
    split_and!; [done|done|]. by apply heap_of_unchanged.
Qed.

Lemma wp_play_threads client n hist s :
  respectful_threads free_can_fail client -> cached_wf s ->
  threads_trace free_can_fail client hist (heap_of (c_mem s)) ->
  wp (play_threads client n hist) (fun hist' s' => cached_wf s' /\
    threads_trace free_can_fail client hist' (heap_of (c_mem s')) /\ length hist' = (n + length hist)%nat) s.
Proof.
  intros Hc. revert hist s. induction n as [|n IH]; intros hist s Hwf Ht; simpl; [done|].
  pose proof (Hc _ _ Ht) as Hv. wp_step. eapply wp_mono; [by apply wp_run_event|].
  intros r s' [Hwf' Hstep]. eapply wp_mono; [apply IH; [done|by econstructor]|].
  intros hist' s'' (? & ? & Hlen). split_and!; [done..|]. rewrite Hlen. simpl. lia.
Qed.

Lemma threads_trace_wf leak client hist h : threads_trace leak client hist h -> heap_wf h.
Proof.
  induction 1 as [|hist h r h' _ IH Hs]; [apply heap_wf_empty|]. destruct (client hist) as [self o|self]; simpl in Hs.
  - by eapply heap_step_wf.
  - by destruct Hs as [_ ->].
Qed.
End laws.
