(* ===== verification/CachedProperties.v ===== *)
(** * Properties of the cached allocator

    The theorems about the public API of the cached variant and the life of the
    threads' caches, for any number of threads whose calls interleave, each with a
    closed witness on the scripted platform. *)

From S2P Require Import Prelude CheckedMath SizeClass Memory Layout Chain OsMemory Slab Arena SlabSpec.
From S2P Require Import LockedAllocator Scripted FreeLists LockedSpec LockedResize TrimLists Trim TransferList ThreadCache HeapSpec HeapRefinement Pool.
From S2P Require Import CachedState Lifecycle CachedAllocator ThreadCacheSpec Placement PoolSteps TransferSpec LifecycleSpec.
From S2P Require Import CacheAcquire CachedSpec CachedFree CachedResize TrimAccount CachedTrim CachedLifecycle CachedApi.

(** ** A concrete threads library *)

#[local] Existing Instance production_build.
#[local] Instance shared_platform : Platform := scripted_platform all_succeed.
#[local] Instance shared_laws : PlatformLaws := scripted_laws all_succeed.
#[local] Instance shared_threads : Pthreads := {|
  sys_transfer_lock _ := 0; sys_once _ := 0; sys_key_create _ := 0; sys_setspecific _ := 0
|}.
#[local] Instance shared_thread_laws : PthreadLaws.
Proof. by split. Qed.

(** Where every free block is: on the shared list of its class or in one thread's
    cache, never in two places; the lists in memory are those of [P] and every
    cache is within its limits. *)
Definition free_blocks_accounted `{Platform} (s : cached_allocator) : Prop :=
  exists P, partition (free_in_class (c_objs s)) P /\ hands_empty P /\
    (forall c head, array_get (transfer_heads s) c = Some head -> chain (block_next (c_objs s)) head (P in_transfer c)) /\
    (forall d dsc, c_objs s !! d = Some (ODescriptor dsc) ->
       cache_ok (c_objs s) (desc_cache dsc) (P (in_cache d)) /\ within_limits (P (in_cache d))).

Lemma accounted `{Platform} s : cached_wf s -> free_blocks_accounted s.
Proof.
  intros (_ & P & V & HL & He). pose proof (cv_pool _ _ V) as I. exists P. split_and!; [apply I|done|apply I|].
  intros d dsc Hd. split; [by apply (pi_cache _ _ _ _ I)|apply HL].
Qed.

(** ** Concrete runs for the witnesses *)

(** Thread 1 has allocated a 3000-byte block. *)
Definition shared_run : outcome cached_allocator Z := hplf_malloc 1 3000 initial_cached_state.
Definition shared_state : cached_allocator := state_or initial_cached_state shared_run.
Definition shared_pointer : Z := result_or NULL shared_run.

(** Thread 1 allocates, thread 2 frees the block, thread 2 exits, then thread 3
    trims for ever. *)
Definition shared_client (hist : thread_history) : thread_event :=
  match hist with
  | [] => ev_call 1 (op_malloc 3000)
  | [(ev_call _ (op_malloc _), res_pointer p)] => ev_call 2 (op_free p)
  | [_; _] => ev_exit 2
  | _ => ev_call 3 op_trim
  end.

Lemma shared_state_wf : cached_wf shared_state.
Proof.
  assert (Hs : is_size 3000) by size_bounds.
  destruct (wp_run _ _ _ (wp_cached_malloc 1 3000 _ initial_cached_wf Hs)) as (p & s & E & Hwf & _).
  unfold shared_state, shared_run. by rewrite E.
Qed.

Lemma shared_live : live (c_objs shared_state) !! (shared_pointer - PREFIX) = Some 3000.
Proof. by vm_compute. Qed.

Lemma shared_active : current_state (thread_of 1 shared_state) = HPLF_CACHE_ACTIVE.
Proof. by vm_compute. Qed.

(** Thread 1 has freed its block and exited: its slab's blocks are all shared. *)
Definition freed_state : cached_allocator := state_or initial_cached_state (hplf_free 1 shared_pointer shared_state).
Definition idle_state : cached_allocator := state_or initial_cached_state (thread_exit 1 freed_state).

Lemma idle_state_wf : cached_wf idle_state.
Proof.
  destruct (wp_run _ _ _ (wp_cached_free 1 shared_pointer 3000 _ shared_state_wf shared_live)) as ([] & s1 & E1 & Hwf1 & _).
  destruct (wp_run _ _ _ (wp_cached_exit 1 _ Hwf1)) as ([] & s2 & E2 & Hwf2 & _).
  unfold idle_state, freed_state. by rewrite E1; simpl state_or; rewrite E2.
Qed.

Lemma shared_client_respectful leak : respectful_threads leak shared_client.
Proof.
  intros hist h Ht. destruct Ht as [|hist h r h' Ht Hs]; [simpl; size_bounds|].
  destruct Ht as [|hist h r0 h0 Ht Hs0].
  - simpl in *. inversion Hs; subst; simpl; [right; rewrite lookup_insert_eq; by eexists|by left].
  - assert (E : forall e1 e2 rest, event_valid h' (shared_client (e1 :: e2 :: rest))).
    { intros [[self []|self] []] e2 [|e3 rest]; exact I. }
    apply E.
Qed.

(** ** The properties *)

Section properties.
Context `{Build, Platform, !PlatformLaws, Pthreads, !PthreadLaws}.
Implicit Types (s : cached_allocator).

(** C1: for any number of threads whose calls and exits interleave in any order
    that respects the API's rules, every run from the initial state terminates
    without undefined behaviour or deadlock and is a trace of one abstract heap:
    new blocks are nonnull, aligned and disjoint from every live block of every
    thread, a block may be freed by another thread than its owner, contents
    survive. *)
Theorem cached_refines_heap (client : thread_history -> thread_event) (n : nat) :
  respectful_threads free_can_fail client ->
  exists hist s', play_threads client n [] initial_cached_state = Done hist s' /\
    cached_wf s' /\ threads_trace free_can_fail client hist (heap_of (c_mem s')) /\ length hist = n.
Proof.
  intros Hc. apply wp_run. eapply wp_mono; [apply wp_play_threads; [exact Hc|apply initial_cached_wf|constructor]|].
  intros hist s' (? & ? & Hlen). rewrite Nat.add_0_r in Hlen. done.
Qed.

(** C8: in every state such a run reaches, the live blocks of all threads are
    nonempty, nonnull, aligned and pairwise disjoint, and every free block is in
    exactly one place: the shared list of its class or one thread's cache; every
    cache counts its blocks and bytes correctly and is within its limits. *)
Theorem cached_blocks_accounted (client : thread_history -> thread_event) (n : nat) hist s' :
  respectful_threads free_can_fail client -> play_threads client n [] initial_cached_state = Done hist s' ->
  heap_wf (heap_of (c_mem s')) /\ free_blocks_accounted s'.
Proof.
  intros Hc E.
  destruct (wp_done _ _ _ _ _ (wp_play_threads client n [] _ Hc initial_cached_wf (threads_start _ _)) E) as (Hwf & Ht & _).
  split; [by eapply threads_trace_wf|by apply accounted].
Qed.

(** C11: a request by any thread terminates and returns null with every live block
    untouched, or a new live block. A large request is served from a mapping of its
    own; a small one from the first block of the thread's cache; when that is empty,
    from the shared list of its class, and when that is empty too, from a new slab,
    the cache keeping its share of the rest and the shared list the others, while
    every other list stays as it is. Null means size zero; or [ENOMEM] for a size
    over [PTRDIFF_MAX], a mapping this call could not get, or, with both lists empty,
    a slab it could not create; or, with both lists empty, a registry lock that failed
    in this call, with its error number. *)
Theorem cached_malloc_correct (self : nat) (size : Z) s :
  cached_wf s -> is_size size ->
  exists p s', hplf_malloc self size s = Done p s' /\ cached_malloc_post size s p s' /\ malloc_source self size s p s'.
Proof. intros. apply wp_run. by apply wp_cached_malloc_source. Qed.

(** C10: freeing a live block, by any thread, preserves [errno] and every other live
    block and keeps every cache within its limits: the eviction loop terminates. The
    block is released, unless it is large and this very call's unmap request fails;
    then, and only then, memory is as it was. *)
Theorem cached_free_correct (self : nat) (p n : Z) s :
  cached_wf s -> live (c_objs s) !! (p - PREFIX) = Some n ->
  exists s', hplf_free self p s = Done tt s' /\ cached_free_post (p - PREFIX) s s'.
Proof.
  intros Hwf Hl. destruct (wp_run _ _ _ (wp_cached_free self _ _ _ Hwf Hl)) as ([] & s' & E & Hpost). by exists s'.
Qed.

(** C12: resizing a live block either fails leaving every live block unchanged,
    frees it (size zero), resizes it in place, or moves it with the common prefix
    copied to a new disjoint block. *)
Theorem cached_realloc_correct (self : nat) (p old_size size : Z) s :
  cached_wf s -> live (c_objs s) !! (p - PREFIX) = Some old_size -> is_size size ->
  exists q s', hplf_realloc self p size s = Done q s' /\ cached_realloc_post p old_size size s q s'.
Proof. intros. apply wp_run. by apply wp_cached_realloc. Qed.

(** C13: a zeroed request fails without effect when the product overflows or the
    allocation is refused, and otherwise returns [count * size] zero bytes, also
    when the block was used before. *)
Theorem cached_calloc_correct (self : nat) (count size : Z) s :
  cached_wf s -> is_size count -> is_size size ->
  exists p s', hplf_calloc self count size s = Done p s' /\ cached_calloc_post count size s p s'.
Proof. intros. apply wp_run. by apply wp_cached_calloc. Qed.

(** C9: when its lock succeeds, a trim unmaps slabs all of whose slots were on the
    shared lists, returns exactly the bytes unmapped (saturating) and leaves each
    shared list with the other blocks it had; live blocks and the blocks of every
    thread's cache are untouched, and a slab left mapped has a live or a cached block
    unless an unmap can fail. When the lock fails, it returns zero and changes
    nothing. *)
Theorem cached_trim_correct (self : nat) s :
  cached_wf s -> exists total s', hplf_trim_quiescent self s = Done total s' /\ cached_trim_post s total s'.
Proof. intros. apply wp_run. by apply wp_cached_trim. Qed.

(** C15: flushing publishes exactly the blocks of the calling thread's cache, in
    front of the shared lists, and touches no live block and no other thread's
    cache; the thread keeps its empty cache. *)
Theorem thread_flush_correct (self : nat) s :
  cached_wf s -> exists s', hplf_thread_flush self s = Done tt s' /\ flush_post self s s'.
Proof. intros Hwf. destruct (wp_run _ _ _ (wp_cached_flush self _ Hwf)) as ([] & s' & E & Hpost). by exists s'. Qed.

(** C14: when a thread exits, the destructor publishes exactly the blocks of its
    cache, unmaps its descriptor unless the unmap fails, and leaves the thread
    without a cache; no live block and no other cache is touched. *)
Theorem thread_exit_correct (self : nat) s :
  cached_wf s -> exists s', thread_exit self s = Done tt s' /\ exit_post self s s'.
Proof. intros Hwf. destruct (wp_run _ _ _ (wp_cached_exit self _ Hwf)) as ([] & s' & E & Hpost). by exists s'. Qed.

(** C16: a thread's first request for its cache yields a new descriptor with an empty
    cache, registered under the key, exactly when the once-only creation of the key,
    the mapping and the registration all succeed at their calls, and otherwise makes
    the thread uncached; later requests return the same descriptor, or null for an
    uncached thread, and change nothing. *)
Theorem cache_acquire_correct (self : nat) s :
  cached_wf s -> exists d s', hplf_cache_acquire self s = Done d s' /\ acquire_post self s d s'.
Proof. intros. apply wp_run. by apply wp_cached_acquire. Qed.

(** Tearing the current cache down explicitly does what an exit does when it
    reports success, and otherwise changes nothing the allocator depends on. *)
Theorem cache_teardown_correct (self : nat) s :
  cached_wf s ->
  exists r s', hplf_cache_lifecycle_test_teardown_current self s = Done r s' /\ teardown_post self s r s'.
Proof. intros. apply wp_run. by apply wp_cached_teardown. Qed.
End properties.

(** ** Witnesses *)

Lemma cached_refines_heap_witness :
  respectful_threads free_can_fail shared_client /\
  exists hist s', play_threads shared_client 5 [] initial_cached_state = Done hist s' /\
    cached_wf s' /\ threads_trace free_can_fail shared_client hist (heap_of (c_mem s')) /\ length hist = 5%nat.
Proof.
  split; [apply shared_client_respectful|]. exact (cached_refines_heap shared_client 5 (shared_client_respectful _)).
Defined.

Definition shared_play := play_threads shared_client 4 [] initial_cached_state.

Lemma cached_blocks_accounted_witness :
  heap_wf (heap_of (c_mem (state_or initial_cached_state shared_play))) /\
  free_blocks_accounted (state_or initial_cached_state shared_play).
Proof.
  apply (cached_blocks_accounted shared_client 4 (result_or [] shared_play)); [apply shared_client_respectful|].
  vm_compute. reflexivity.
Defined.

Lemma cached_malloc_correct_witness :
  cached_wf shared_state /\
  exists p s', hplf_malloc 1 3000 shared_state = Done p s' /\ cached_malloc_post 3000 shared_state p s' /\
    malloc_source 1 3000 shared_state p s'.
Proof.
  split; [apply shared_state_wf|]. apply (cached_malloc_correct 1 3000 shared_state); [apply shared_state_wf|size_bounds].
Defined.

Lemma cached_free_correct_witness :
  live (c_objs shared_state) !! (shared_pointer - PREFIX) = Some 3000 /\
  exists s', hplf_free 2 shared_pointer shared_state = Done tt s' /\
    cached_free_post (shared_pointer - PREFIX) shared_state s'.
Proof.
  split; [apply shared_live|].
  apply (cached_free_correct 2 shared_pointer 3000 shared_state); [apply shared_state_wf|apply shared_live].
Defined.

Lemma cached_realloc_correct_witness :
  exists q s', hplf_realloc 1 shared_pointer 100 shared_state = Done q s' /\
    cached_realloc_post shared_pointer 3000 100 shared_state q s'.
Proof.
  apply (cached_realloc_correct 1 shared_pointer 3000 100 shared_state); [apply shared_state_wf|apply shared_live|size_bounds].
Defined.

Lemma cached_calloc_correct_witness :
  exists p s', hplf_calloc 1 25 40 shared_state = Done p s' /\ cached_calloc_post 25 40 shared_state p s'.
Proof. apply (cached_calloc_correct 1 25 40 shared_state); [apply shared_state_wf|size_bounds|size_bounds]. Defined.

Lemma cached_trim_correct_witness :
  result_or 0 (hplf_trim_quiescent 2 idle_state) = 65536 /\
  exists total s', hplf_trim_quiescent 2 idle_state = Done total s' /\ cached_trim_post idle_state total s'.
Proof. split; [by vm_compute|]. apply (cached_trim_correct 2 idle_state), idle_state_wf. Defined.

Lemma thread_flush_correct_witness :
  current_state (thread_of 1 shared_state) = HPLF_CACHE_ACTIVE /\
  exists s', hplf_thread_flush 1 shared_state = Done tt s' /\ flush_post 1 shared_state s'.
Proof. split; [apply shared_active|]. apply (thread_flush_correct 1 shared_state), shared_state_wf. Defined.

Lemma thread_exit_correct_witness :
  exists s', thread_exit 1 shared_state = Done tt s' /\ exit_post 1 shared_state s'.
Proof. apply (thread_exit_correct 1 shared_state), shared_state_wf. Defined.

Lemma cache_acquire_correct_witness :
  current_state (thread_of 2 shared_state) = HPLF_CACHE_UNINITIALIZED /\
  exists d s', hplf_cache_acquire 2 shared_state = Done d s' /\ acquire_post 2 shared_state d s'.
Proof. split; [by vm_compute|]. apply (cache_acquire_correct 2 shared_state), shared_state_wf. Defined.

Lemma cache_teardown_correct_witness :
  exists r s', hplf_cache_lifecycle_test_teardown_current 1 shared_state = Done r s' /\ teardown_post 1 shared_state r s'.
Proof. apply (cache_teardown_correct 1 shared_state), shared_state_wf. Defined.
