(* ===== verification/ListProperties.v ===== *)
(** * Properties of transfer lists, shared transfers and thread caches

    The theorems about the components of the cached variant below its public API,
    with their witnesses on a concrete descriptor and slab. *)

From S2P Require Import Prelude CheckedMath SizeClass Memory Layout Chain OsMemory Slab Arena SlabSpec.
From S2P Require Import LockedAllocator Scripted FreeLists LockedSpec TrimLists Trim TransferList ThreadCache HeapSpec Pool.
From S2P Require Import CachedState Lifecycle ThreadCacheSpec Placement PoolSteps TransferSpec CachedSpec CachedApi.

(** ** A concrete descriptor and slab *)

#[local] Existing Instance production_build.
#[local] Instance lists_platform : Platform := scripted_platform all_succeed.
#[local] Instance lists_laws : PlatformLaws := scripted_laws all_succeed.
#[local] Instance lists_threads : Pthreads := {|
  sys_transfer_lock _ := 0; sys_once _ := 0; sys_key_create _ := 0; sys_setspecific _ := 0
|}.
#[local] Instance lists_thread_laws : PthreadLaws.
Proof. by split. Qed.

(** An empty cache and one slab of the largest class, of which nothing is used. *)
Definition pieces_run : outcome cached_allocator (Z * option (Z * Z)) :=
  (d ← map_descriptor; slab ← on_c_machine (viaM2 (hplf_slab_create 15 4096)); mret (d, slab)) initial_cached_state.
Definition pieces_memory : memory := c_mem (state_or initial_cached_state pieces_run).
Definition pieces_cache : Z := 65536.
Definition pieces_blocks : list Z := (fun i => 127712 - 4144 * i) <$> seqZ 0 14.
Definition nothing : cache_contents := fun _ => [].

Lemma pieces_all_chain : chain (block_next (objs pieces_memory)) 127712 (pieces_blocks ++ [69696]).
Proof. vm_compute. repeat (split; [done|]; split; [done|]; eexists; split; [done|]). done. Qed.

Lemma pieces_describes : describes (objs pieces_memory) (TransferList 127712 69696 15) (pieces_blocks ++ [69696]).
Proof. split; [split; [apply pieces_all_chain|by vm_compute]|by vm_compute]. Qed.

Lemma pieces_cache_at : cache_at (objs pieces_memory) pieces_cache nothing.
Proof.
  eexists. split; [by vm_compute|]. apply (zeroed_cache_ok _ nothing). done.
Qed.

Lemma pieces_class : is_class 15 4096.
Proof. by vm_compute. Qed.

Lemma nothing_within : within_limits nothing.
Proof. split; [intros i _; by vm_compute|by vm_compute]. Qed.

(** *** A cache over its byte limit *)

(** The blocks of [l] stored one by one, the first of [l] last. *)
Fixpoint store_all (d i cap : Z) (l : list Z) : prog memory unit :=
  match l with
  | [] => mret tt
  | b :: l' => store_all d i cap l';; hplf_thread_cache_store d i cap b
  end.

Lemma wp_store_all d K i cap l m :
  cache_at (objs m) d K -> is_class i cap -> NoDup l ->
  (forall b, b ∈ l -> b <> NULL /\ (exists blk, objs m !! b = Some (OBlock blk)) /\
     forall j, 0 <= j < HPLF_SIZE_CLASS_COUNT -> b ∉ K j) ->
  wp (store_all d i cap l) (fun _ m' => cache_at (objs m') d (kupd K i (l ++ K i)) /\ reworked l [d] m m') m.
Proof.
  intros Hca Hcl Hnd Hin. pose proof Hca as (dsc & Hdsc & _). induction l as [|b l IH]; simpl.
  { wp_step. split; [eapply cache_at_ext; [exact Hca|]; intros j; unfold kupd; case_decide; by subst|].
    eapply reworked_mono; [by apply reworked_refl; intros k ?%not_elem_of_nil|set_solver|set_solver| |].
    - by intros k ?%not_elem_of_nil.
    - intros k ->%list_elem_of_singleton. by exists dsc. }
  apply NoDup_cons in Hnd as [Hb Hnd]. wp_step. eapply wp_mono; [apply IH; [done|]|].
  { intros k Hk. apply Hin. by right. }
  intros [] m1 [C1 R1]. destruct (Hin b ltac:(left)) as (Hb0 & [blk Hblk] & HbK).
  destruct (reworked_block _ _ _ _ _ _ R1 Hblk) as [q Hq].
  eapply wp_mono; [eapply wp_cache_store; [exact C1|exact Hcl|exact Hq|exact Hb0|]|].
  { intros j Hj. unfold kupd. case_decide; [subst j; rewrite elem_of_app|auto]. intros [?|?]; [done|]. by eapply HbK. }
  intros [] m2 [R2 C2]. split.
  - eapply cache_at_ext; [exact C2|]. intros j. rewrite kupd_eq. unfold kupd. by case_decide.
  - eapply reworked_mono; [eapply reworked_trans; [exact R1|exact R2]|set_solver|set_solver| |].
    + intros k Hk. by apply Hin.
    + intros k ->%list_elem_of_singleton. by exists dsc.
Qed.

(** An empty cache, a slab of class 15 and one of class 14. *)
Definition over_run : outcome cached_allocator unit :=
  (_ ← map_descriptor; _ ← on_c_machine (viaM2 (hplf_slab_create 15 4096));
   _ ← on_c_machine (viaM2 (hplf_slab_create 14 3072)); mret tt) initial_cached_state.
Definition over_pieces : memory := c_mem (state_or initial_cached_state over_run).

(** Fifteen blocks of 4096 bytes and two of 3072 are more than 65536 bytes. *)
Definition over_large : list Z := pieces_blocks ++ [69696].
Definition over_small : list Z := [194512; 191392].
Definition over_contents : cache_contents := kupd (kupd nothing 15 over_large) 14 over_small.
Definition over_memory : memory :=
  state_or over_pieces ((store_all pieces_cache 15 4096 over_large;; store_all pieces_cache 14 3072 over_small) over_pieces).

Lemma over_block b : b ∈ over_large ++ over_small -> b <> NULL /\ exists blk, objs over_pieces !! b = Some (OBlock blk).
Proof.
  revert b. apply Forall_forall. vm_compute. repeat (constructor; [split; [done|by eexists]|]). constructor.
Qed.

Lemma over_cache_at : cache_at (objs over_memory) pieces_cache over_contents.
Proof.
  assert (Hca : cache_at (objs over_pieces) pieces_cache nothing).
  { eexists. split; [by vm_compute|]. by apply (zeroed_cache_ok _ nothing). }
  assert (W : wp (store_all pieces_cache 15 4096 over_large;; store_all pieces_cache 14 3072 over_small)
    (fun _ m => cache_at (objs m) pieces_cache over_contents) over_pieces).
  { wp_step. eapply wp_mono; [apply (wp_store_all _ nothing 15 4096 over_large); [exact Hca|by vm_compute| |]|].
    - by apply (bool_decide_unpack _); vm_compute.
    - intros b Hb. destruct (over_block b ltac:(apply elem_of_app; by left)) as [? ?]. split_and!; [done|done|].
      by intros j _ ?%not_elem_of_nil.
    - intros [] m1 [C1 R1].
      eapply wp_mono; [apply (wp_store_all _ _ 14 3072 over_small _ C1); [by vm_compute| |]|].
      + by apply (bool_decide_unpack _); vm_compute.
      + intros b Hb. destruct (over_block b ltac:(apply elem_of_app; by right)) as [? [blk Hblk]].
        destruct (reworked_block _ _ _ _ _ _ R1 Hblk) as [q Hq]. split_and!; [done|by eexists|].
        intros j _. unfold kupd. case_decide; [|apply not_elem_of_nil]. revert b Hb Hblk Hq H.
        assert (E : Forall (fun b => b ∉ over_large) over_small) by (apply (bool_decide_unpack _); by vm_compute).
        rewrite Forall_forall in E. intros b Hb _ _ _. rewrite app_nil_r. by apply E.
      + intros [] m2 [C2 _]. eapply cache_at_ext; [exact C2|]. intros j. unfold over_contents, kupd.
        repeat case_decide; subst; done. }
  destruct (wp_run _ _ _ W) as ([] & m & E & C). unfold over_memory. by rewrite E.
Qed.

(** ** The properties *)

(** Counting a chain yields its complete description: first node, last node
    and number of nodes; memory is only read. *)
Theorem transfer_list_from_chain_correct (m : memory) (first : Z) (l : list Z) :
  chain (block_next (objs m)) first l -> Z.of_nat (length l) <= SIZE_MAX ->
  exists t, hplf_transfer_list_from_chain first m = Done t m /\ tl_first t = first /\ describes (objs m) t l.
Proof.
  intros Hc Hl. destruct (wp_run _ _ _ (wp_from_chain m first l Hc Hl)) as (t & m' & E & -> & ? & ?). by exists t.
Qed.

(** Taking a prefix splits a described list into its first
    [min (length, maximum)] nodes, completely described and null-terminated, and the
    rest, of which first node and count are right, and the last node if it was;
    only links of the taken nodes change. *)
Theorem transfer_list_take_prefix_correct (m : memory) (t : hplf_transfer_list) (l : list Z) (maximum : Z) :
  describes_prefix (objs m) t l -> Z.of_nat (length l) <= SIZE_MAX -> 0 <= maximum ->
  exists rest taken m' l1 l2, hplf_transfer_list_take_prefix t maximum m = Done (rest, taken) m' /\
    took_prefix m m' t rest taken l l1 l2 maximum.
Proof.
  intros Hd Hl Hm. destruct (wp_run _ _ _ (wp_take_prefix m t l maximum Hd Hl Hm)) as ([rest taken] & m' & E & l1 & l2 & T).
  by exists rest, taken, m', l1, l2.
Qed.

(** A block stored to a cache is the next one taken from it, unlinked, and the
    cache then holds what it held; only that block and that cache are touched. *)
Theorem thread_cache_store_take (m : memory) (d i cap b : Z) (blk : hplf_block) (K : cache_contents) :
  cache_at (objs m) d K -> is_class i cap -> objs m !! b = Some (OBlock blk) -> b <> NULL ->
  (forall j, 0 <= j < HPLF_SIZE_CLASS_COUNT -> b ∉ K j) ->
  exists m', (hplf_thread_cache_store d i cap b;; hplf_thread_cache_take d i cap) m = Done b m' /\
    reworked [b] [d] m m' /\ cache_at (objs m') d K /\ block_next (objs m') b = Some NULL.
Proof.
  intros Hca Hcl Hb Hb0 Hno.
  assert (W : wp (hplf_thread_cache_store d i cap b;; hplf_thread_cache_take d i cap) (fun r m' => r = b /\
    reworked [b] [d] m m' /\ cache_at (objs m') d K /\ block_next (objs m') b = Some NULL) m).
  { wp_step. eapply wp_mono; [by eapply wp_cache_store|]. intros [] m1 [R1 C1].
    eapply wp_mono; [eapply wp_cache_take; [exact C1|exact Hcl|apply kupd_eq]|].
    intros r m2 (-> & R2 & C2 & Hn). split_and!; [done| | |done].
    { eapply reworked_mono; [eapply reworked_trans; [exact R1|exact R2]|set_solver|set_solver| |].
      - intros k ->%list_elem_of_singleton. by exists blk.
      - intros k ->%list_elem_of_singleton. destruct Hca as (dsc & Hd & _). by exists dsc. }
    eapply cache_at_ext; [exact C2|]. intros j. unfold kupd. case_decide; [by subst|done]. }
  destruct (wp_run _ _ _ W) as (r & m' & E & -> & HQ). by exists m'.
Qed.

(** C26: a refill moves the longest prefix of the offered list that keeps the cache
    within its block, byte and batch limits to the front of the class's list and
    hands back the rest, completely described. *)
Theorem thread_cache_refill_correct (m : memory) (d i cap : Z) (t : hplf_transfer_list) (l : list Z) (K : cache_contents) :
  cache_at (objs m) d K -> is_class i cap -> within_limits K -> describes (objs m) t l ->
  Z.of_nat (length l) <= SIZE_MAX -> (forall j b, 0 <= j < HPLF_SIZE_CLASS_COUNT -> b ∈ l -> b ∉ K j) ->
  exists t' m' l1 l2, hplf_thread_cache_refill d i cap t m = Done t' m' /\ l = l1 ++ l2 /\
    Z.of_nat (length l1) = Z.min (Z.of_nat (length l)) (refill_limit K i cap) /\
    describes (objs m') t' l2 /\ reworked l1 [d] m m' /\ cache_at (objs m') d (kupd K i (l1 ++ K i)) /\
    within_limits (kupd K i (l1 ++ K i)).
Proof.
  intros. destruct (wp_run _ _ _ (wp_cache_refill d K i cap t l m ltac:(done) ltac:(done) ltac:(done) ltac:(done)
    ltac:(done) ltac:(done))) as (t' & m' & E & l1 & l2 & HQ). by exists t', m', l1, l2.
Qed.

(** C27: one round of eviction reports nothing exactly when the class just stored to
    and the total are within their limits; otherwise it takes a nonempty prefix of
    one class off the cache: the excess of the current class over the block limit,
    or, when only the byte limit is exceeded, the whole current class, or, if that is
    empty, the whole of the first nonempty class in ascending index order. *)
Theorem thread_cache_eviction_correct (m : memory) (d current cap : Z) (out : cell Z) (K : cache_contents) :
  cache_at (objs m) d K -> is_class current cap ->
  (forall j, 0 <= j < HPLF_SIZE_CLASS_COUNT -> Z.of_nat (length (K j)) <= SIZE_MAX) -> cached_bytes K <= SIZE_MAX ->
  exists r m', hplf_thread_cache_extract_eviction d current out m = Done r m' /\ evicted d K current m r m'.
Proof. intros. apply wp_run. by eapply wp_cache_evict. Qed.

Section shared.
Context `{Build, Platform, !PlatformLaws, Pthreads, !PthreadLaws}.

(** C25: detaching a shared list empties it and yields its complete description;
    publishing that description again restores every list, so no block is lost or
    duplicated in between. *)
Theorem transfer_detach_publish (P : placement) (c : Z) (s : cached_allocator) :
  cached_inv P s -> hands_empty P -> 0 <= c < HPLF_SIZE_CLASS_COUNT ->
  exists t s1 s2, hplf_transfer_mutex_detach c s = Done t s1 /\ describes (c_objs s1) t (P in_transfer c) /\
    cached_inv (detached_from P c) s1 /\ array_get (transfer_heads s1) c = Some NULL /\
    hplf_transfer_mutex_publish c t s1 = Done hplf_transfer_list_clear s2 /\ cached_inv P s2.
Proof.
  intros V He Hc. destruct (He c) as [Hh _].
  destruct (wp_run _ _ _ (wp_detach_list P c s V Hh Hc)) as (t & s1 & E1 & Hdes & _ & _ & V1).
  assert (Hhand : detached_from P c in_hand c = P in_transfer c) by (unfold detached_from; by rewrite pset_eq).
  pose proof Hdes as Hdes'. rewrite <- Hhand in Hdes'.
  destruct (wp_run _ _ _ (wp_publish _ in_hand c t s1 V1 (or_introl eq_refl) Hc Hdes')) as (t' & s2 & E2 & -> & _ & V2).
  exists t, s1, s2. split_and!; [done..| |done|].
  - destruct (pool_get_head s1 _ c V1 Hc) as (head & -> & Hch). f_equal.
    unfold detached_from in Hch. rewrite pset_place, pset_eq in Hch by done. done.
  - eapply cached_inv_ext; [exact V2|]. intros x i. unfold published_to, detached_from, pset.
    destruct (Z.eq_dec i c) as [->|Hne]; [|by repeat (rewrite decide_False by naive_solver)].
    destruct x; repeat (case_decide; destruct_and?; simplify_eq; try tauto); by rewrite ?app_nil_r, ?Hh.
Qed.
End shared.

(** ** Witnesses *)

Lemma transfer_list_from_chain_correct_witness :
  exists t, hplf_transfer_list_from_chain 127712 pieces_memory = Done t pieces_memory /\ tl_first t = 127712 /\
    describes (objs pieces_memory) t (pieces_blocks ++ [69696]).
Proof.
  apply (transfer_list_from_chain_correct pieces_memory 127712 (pieces_blocks ++ [69696]));
    [apply pieces_all_chain|by vm_compute].
Defined.

Lemma transfer_list_take_prefix_correct_witness :
  exists rest taken m' l1 l2,
    hplf_transfer_list_take_prefix (TransferList 127712 69696 15) 4 pieces_memory = Done (rest, taken) m' /\
    took_prefix pieces_memory m' (TransferList 127712 69696 15) rest taken (pieces_blocks ++ [69696]) l1 l2 4.
Proof.
  apply (transfer_list_take_prefix_correct pieces_memory (TransferList 127712 69696 15) (pieces_blocks ++ [69696]) 4);
    [apply pieces_describes|by vm_compute|lia].
Defined.

Lemma thread_cache_store_take_witness :
  exists m', (hplf_thread_cache_store pieces_cache 15 4096 127712;; hplf_thread_cache_take pieces_cache 15 4096) pieces_memory
      = Done 127712 m' /\ reworked [127712] [pieces_cache] pieces_memory m' /\
    cache_at (objs m') pieces_cache nothing /\ block_next (objs m') 127712 = Some NULL.
Proof.
  eapply (thread_cache_store_take pieces_memory pieces_cache 15 4096 127712 _ nothing);
    [apply pieces_cache_at|apply pieces_class|by vm_compute|done|by intros j _ ?%not_elem_of_nil].
Defined.

Lemma thread_cache_refill_correct_witness :
  exists t' m' l1 l2, hplf_thread_cache_refill pieces_cache 15 4096 (TransferList 127712 69696 15) pieces_memory = Done t' m' /\
    pieces_blocks ++ [69696] = l1 ++ l2 /\
    Z.of_nat (length l1) = Z.min (Z.of_nat (length (pieces_blocks ++ [69696]))) (refill_limit nothing 15 4096) /\
    describes (objs m') t' l2 /\ reworked l1 [pieces_cache] pieces_memory m' /\
    cache_at (objs m') pieces_cache (kupd nothing 15 (l1 ++ nothing 15)) /\
    within_limits (kupd nothing 15 (l1 ++ nothing 15)).
Proof.
  apply (thread_cache_refill_correct pieces_memory pieces_cache 15 4096 (TransferList 127712 69696 15)
    (pieces_blocks ++ [69696]) nothing);
    [apply pieces_cache_at|apply pieces_class|apply nothing_within|apply pieces_describes|by vm_compute
    |by intros j b _ _ ?%not_elem_of_nil].
Defined.

Lemma thread_cache_eviction_correct_witness :
  (result_or (false, Cell None, hplf_transfer_list_clear)
     (hplf_thread_cache_extract_eviction pieces_cache 3 (Cell None) over_memory)).1 = (true, Cell (Some 14)) /\
  exists r m', hplf_thread_cache_extract_eviction pieces_cache 3 (Cell None) over_memory = Done r m' /\
    evicted pieces_cache over_contents 3 over_memory r m'.
Proof.
  split; [by vm_compute|]. apply (thread_cache_eviction_correct over_memory pieces_cache 3 64 (Cell None) over_contents);
    [apply over_cache_at|by vm_compute| |by vm_compute].
  intros j _. unfold over_contents, kupd. repeat case_decide; by vm_compute.
Defined.

Lemma initial_placement : exists P, cached_inv P initial_cached_state /\ hands_empty P.
Proof. destruct initial_cached_wf as (_ & P & V & _ & He). by exists P. Qed.

Lemma transfer_detach_publish_witness :
  exists P t s1 s2, hplf_transfer_mutex_detach 3 initial_cached_state = Done t s1 /\
    describes (c_objs s1) t (P in_transfer 3) /\ cached_inv (detached_from P 3) s1 /\
    array_get (transfer_heads s1) 3 = Some NULL /\
    hplf_transfer_mutex_publish 3 t s1 = Done hplf_transfer_list_clear s2 /\ cached_inv P s2.
Proof.
  destruct initial_placement as (P & V & He). exists P.
  apply (transfer_detach_publish P 3 initial_cached_state V He). unfold HPLF_SIZE_CLASS_COUNT. lia.
Defined.
