(* ===== verification/TransferAtomic.v ===== *)
(** * Atomic transfers (src/transfer_atomic.c)

    The lock-free publish and detach, at the grain of their memory accesses: a
    call is a state machine whose steps are single loads, stores, compare-exchanges
    and exchanges, so steps of different threads interleave in any order. The
    memory is sequentially consistent here: the acquire/release annotations of the
    source and the tests' hooks are not modelled. A weak compare-exchange may fail
    spuriously. *)

From S2P Require Import Prelude CheckedMath SizeClass Memory Layout Chain OsMemory LockedAllocator TransferList.

(** ** State *)

Record hplf_transfer_atomic_test_stats := AtomicStats {
  publish_attempts : Z;
  compare_exchange_failures : Z;
  detachments : Z
}.

Record atomic_transfers := AtomicTransfers {
  at_mem : memory;
  at_heads : list Z;                              (* heads[class_index].value *)
  at_stats : hplf_transfer_atomic_test_stats
}.

Definition set_at_mem (m : memory) (s : atomic_transfers) : atomic_transfers :=
  AtomicTransfers m (at_heads s) (at_stats s).
Definition set_at_heads (l : list Z) (s : atomic_transfers) : atomic_transfers :=
  AtomicTransfers (at_mem s) l (at_stats s).
Definition set_at_stats (t : hplf_transfer_atomic_test_stats) (s : atomic_transfers) : atomic_transfers :=
  AtomicTransfers (at_mem s) (at_heads s) t.

(** The static initialiser, on a given memory. *)
Definition initial_atomic_transfers (m : memory) : atomic_transfers :=
  AtomicTransfers m (replicate (Z.to_nat HPLF_SIZE_CLASS_COUNT) NULL) (AtomicStats 0 0 0).

(** ** Calls *)

(** Where a running call stands, with its local variables. *)
Inductive atomic_call :=
| publish_load (class_index : Z) (l : hplf_transfer_list)                  (* before the first load *)
| publish_link (class_index : Z) (l : hplf_transfer_list) (observed : Z)   (* before the tail's store *)
| publish_cas (class_index : Z) (l : hplf_transfer_list) (observed : Z)    (* before the compare-exchange *)
| detach_exchange (class_index : Z)                                        (* before the exchange *)
| detach_walk (first : Z) (walk : Z * Z * Z).                              (* in from_chain's loop *)

Section code.
Context `{Build}.

Definition head_load (class_index : Z) : prog atomic_transfers Z :=
  s ← get; known (array_get (at_heads s) class_index).
Definition head_store (class_index p : Z) : prog atomic_transfers unit :=
  s ← get; known (array_get (at_heads s) class_index);;
  modify (set_at_heads (<[Z.to_nat class_index := p]> (at_heads s))).
Definition on_at_mem {A} (p : prog memory A) : prog atomic_transfers A := zoom at_mem set_at_mem p.

Definition count_attempt : prog atomic_transfers unit :=
  if HPLF_TESTING then
    modify (fun s => set_at_stats (AtomicStats (wadd (publish_attempts (at_stats s)) 1)
      (compare_exchange_failures (at_stats s)) (detachments (at_stats s))) s)
  else mret tt.
Definition count_failure : prog atomic_transfers unit :=
  if HPLF_TESTING then
    modify (fun s => set_at_stats (AtomicStats (publish_attempts (at_stats s))
      (wadd (compare_exchange_failures (at_stats s)) 1) (detachments (at_stats s))) s)
  else mret tt.
Definition count_detachment : prog atomic_transfers unit :=
  if HPLF_TESTING then
    modify (fun s => set_at_stats (AtomicStats (publish_attempts (at_stats s))
      (compare_exchange_failures (at_stats s)) (wadd (detachments (at_stats s)) 1)) s)
  else mret tt.

(** Entering the functions: [inr] returns at once with the caller's descriptor. *)
Definition hplf_transfer_atomic_publish (class_index : Z) (l : hplf_transfer_list) : atomic_call + hplf_transfer_list :=
  if tl_first l =? NULL then inr l else inl (publish_load class_index l).
Definition hplf_transfer_atomic_detach (class_index : Z) : atomic_call := detach_exchange class_index.

(** One step of a call: [inr] returns, with the caller's descriptor afterwards. *)
Definition advance (spurious : bool) (call : atomic_call) : prog atomic_transfers (atomic_call + hplf_transfer_list) :=
  match call with
  | publish_load c l => observed ← head_load c; mret (inl (publish_link c l observed))
  | publish_link c l observed =>
      on_at_mem (store_block (tl_last l) (set_next_free observed));;
      count_attempt;;
      mret (inl (publish_cas c l observed))
  | publish_cas c l observed =>
      current ← head_load c;
      if (current =? observed) && negb spurious then
        head_store c (tl_first l);; mret (inr hplf_transfer_list_clear)
      else count_failure;; mret (inl (publish_link c l current))
  | detach_exchange c =>
      first ← head_load c;
      head_store c NULL;;
      count_detachment;;
      mret (inl (detach_walk first (first, NULL, 0)))
  | detach_walk first walk =>
      r ← on_at_mem (from_chain_step walk);
      match r with
      | inl walk' => mret (inl (detach_walk first walk'))
      | inr (last, count) => mret (inr (TransferList first last count))
      end
  end.

(** A call that runs alone to its end, [n] steps at most, without spurious
    failures. *)
Definition run_alone (n : nat) (call : atomic_call) : prog atomic_transfers hplf_transfer_list :=
  iterate n (advance false) call.

Definition hplf_transfer_atomic_test_reset_stats : prog atomic_transfers unit :=
  modify (set_at_stats (AtomicStats 0 0 0)).
Definition hplf_transfer_atomic_test_get_stats : prog atomic_transfers hplf_transfer_atomic_test_stats :=
  gets at_stats.

(** ** Many threads *)

(** A thread: the private lists it owns, by slot, and the call it is in; the
    result of a call goes to the call's slot. *)
Record atomic_thread := AtomicThread {
  private_lists : gmap nat hplf_transfer_list;
  running : option (nat * atomic_call)
}.
Definition idle_thread : atomic_thread := AtomicThread ∅ None.

Record atomic_system := AtomicSystem {
  shared : atomic_transfers;
  workers : gmap nat atomic_thread
}.

Definition worker (t : nat) (s : atomic_system) : atomic_thread := default idle_thread (workers s !! t).
Definition set_worker (t : nat) (w : atomic_thread) (s : atomic_system) : atomic_system :=
  AtomicSystem (shared s) (<[t := w]> (workers s)).
Definition on_shared {A} (p : prog atomic_transfers A) : prog atomic_system A :=
  zoom shared (fun x s => AtomicSystem x (workers s)) p.

(** The scheduler's choices. *)
Inductive atomic_event :=
| call_publish (t slot : nat) (class_index : Z)
| call_detach (t slot : nat) (class_index : Z)
| step_thread (t : nat) (spurious : bool).

(** The class index is in range, as for the callers in src/allocator.c. *)
Definition valid_class (c : Z) : bool := (0 <=? c) && (c <? HPLF_SIZE_CLASS_COUNT).

(** An event that is not possible in the current state is skipped. *)
Definition atomic_step (e : atomic_event) : prog atomic_system unit :=
  match e with
  | call_publish t slot c =>
      w ← gets (worker t);
      match running w, private_lists w !! slot with
      | None, Some l =>
          if valid_class c then
            match hplf_transfer_atomic_publish c l with
            | inl call => modify (set_worker t (AtomicThread (delete slot (private_lists w)) (Some (slot, call))))
            | inr l' => modify (set_worker t (AtomicThread (<[slot := l']> (private_lists w)) None))
            end
          else mret tt
      | _, _ => mret tt
      end
  | call_detach t slot c =>
      w ← gets (worker t);
      match running w with
      | None =>
          (* the caller's descriptor is overwritten, so it must own nothing *)
          if valid_class c && (default NULL (tl_first <$> private_lists w !! slot) =? NULL) then
            modify (set_worker t (AtomicThread (delete slot (private_lists w)) (Some (slot, hplf_transfer_atomic_detach c))))
          else mret tt
      | Some _ => mret tt
      end
  | step_thread t spurious =>
      w ← gets (worker t);
      match running w with
      | None => mret tt
      | Some (slot, call) =>
          r ← on_shared (advance spurious call);
          match r with
          | inl call' => modify (set_worker t (AtomicThread (private_lists w) (Some (slot, call'))))
          | inr l => modify (set_worker t (AtomicThread (<[slot := l]> (private_lists w)) None))
          end
      end
  end.

Fixpoint atomic_run (events : list atomic_event) : prog atomic_system unit :=
  match events with
  | [] => mret tt
  | e :: events' => atomic_step e;; atomic_run events'
  end.
End code.
