(* ===== verification/AtomicSpec.v ===== *)
(** * Ownership under atomic transfers

    The invariant of the lock-free transfers under any interleaving: every block
    has exactly one owner (a shared list, a private list of a thread, or a running
    call), the links a call follows or writes are its own, and each step either
    changes no ownership or hands one whole list over atomically. *)

From S2P Require Import Prelude CheckedMath SizeClass Memory Layout Chain OsMemory Slab Arena SlabSpec.
From S2P Require Import LockedAllocator FreeLists TrimLists TransferList TransferAtomic.

(** ** Definitions *)

Inductive holder :=
| h_shared (class_index : Z)
| h_private (t slot : nat)
| h_call (t : nat).

#[export] Instance holder_eq_dec : EqDecision holder.
Proof. solve_decision. Defined.

(** Who owns which blocks, in list order. *)
Abbreviation ownership := (holder -> list Z).

Definition oset (O : ownership) (h : holder) (l : list Z) : ownership := fun h' => if decide (h' = h) then l else O h'.

Abbreviation a_objs s := (objs (at_mem (shared s))).

(** A private batch whose tail link may hold anything. *)
Definition batch (os : gmap Z object) (d : hplf_transfer_list) (l : list Z) : Prop :=
  exists l0, l = l0 ++ [tl_last d] /\ seg (block_next os) (tl_first d) l0 (tl_last d) /\
    tl_last d <> NULL /\ exists b, os !! tl_last d = Some (OBlock b).

(** The blocks a running call owns, at each of its points. *)
Definition call_owns (os : gmap Z object) (call : atomic_call) (l : list Z) : Prop :=
  match call with
  | publish_load c d => valid_class c /\ describes os d l /\ l <> []
  | publish_link c d _ => valid_class c /\ batch os d l
  | publish_cas c d observed => valid_class c /\ batch os d l /\ block_next os (tl_last d) = Some observed
  | detach_exchange c => valid_class c /\ l = []
  | detach_walk first (block, last, count) => exists front rest, l = front ++ rest /\
      chain (block_next os) first l /\ chain (block_next os) block rest /\
      last = last_or_NULL front /\ count = Z.of_nat (length front)
  end.

Definition holder_ok (s : atomic_system) (h : holder) (l : list Z) : Prop :=
  match h with
  | h_shared c => match array_get (at_heads (shared s)) c with
                  | Some head => chain (block_next (a_objs s)) head l
                  | None => l = []
                  end
  | h_private t slot => match private_lists (worker t s) !! slot with
                        | Some d => describes (a_objs s) d l
                        | None => l = []
                        end
  | h_call t => match running (worker t s) with
                | Some (_, call) => call_owns (a_objs s) call l
                | None => l = []
                end
  end.

(** The blocks [B] are shared out: each has exactly one owner. *)
Record shared_out (B : Z -> Prop) (O : ownership) : Prop := {
  so_all : forall b, B b <-> exists h, b ∈ O h;
  so_unique : forall h1 h2 b, b ∈ O h1 -> b ∈ O h2 -> h1 = h2;
  so_nodup : forall h, NoDup (O h)
}.

Record atomic_inv (B : Z -> Prop) (O : ownership) (s : atomic_system) : Prop := {
  ai_heads : Z.of_nat (length (at_heads (shared s))) = HPLF_SIZE_CLASS_COUNT;
  ai_ok : forall h, holder_ok s h (O h);
  ai_shared : shared_out B O;
  ai_slot : forall t slot call, running (worker t s) = Some (slot, call) -> private_lists (worker t s) !! slot = None;
  ai_fits : Z.of_nat (size (a_objs s)) <= SIZE_MAX
}.

(** The hand-overs an event can make, by the state it occurs in: entering a publish
    takes the caller's list, the successful compare-exchange gives it to the shared
    list of the call's class, the exchange takes the whole shared list, and the end
    of the walk gives it to the caller. *)
Inductive moves (s : atomic_system) : atomic_event -> holder -> holder -> Prop :=
| moves_enter t slot c : moves s (call_publish t slot c) (h_private t slot) (h_call t)
| moves_cas t slot c d observed : running (worker t s) = Some (slot, publish_cas c d observed) ->
    array_get (at_heads (shared s)) c = Some observed -> moves s (step_thread t false) (h_call t) (h_shared c)
| moves_exchange t spurious slot c : running (worker t s) = Some (slot, detach_exchange c) ->
    moves s (step_thread t spurious) (h_shared c) (h_call t)
| moves_return t spurious slot first last count : running (worker t s) = Some (slot, detach_walk first (NULL, last, count)) ->
    moves s (step_thread t spurious) (h_call t) (h_private t slot).

(** What one step may do to the ownership: nothing, or hand everything [x] owns to
    [y], in front of what [y] owns. *)
Definition ownership_step (s : atomic_system) (e : atomic_event) (O O' : ownership) : Prop :=
  (forall h, O' h = O h) \/
  exists x y, moves s e x y /\ O' x = [] /\ O' y = O x ++ O y /\ forall h, h <> x -> h <> y -> O' h = O h.

(** Only the stepping call's own blocks are written. *)
Definition writes_own (O : ownership) (e : atomic_event) (s s' : atomic_system) : Prop :=
  forall k, a_objs s' !! k <> a_objs s !! k -> exists t spurious, e = step_thread t spurious /\ k ∈ O (h_call t).

(** ** Sharing out *)

Section sharing.
Implicit Types (O : ownership) (B : Z -> Prop).

Lemma oset_eq O h l : oset O h l h = l.
Proof. unfold oset. by rewrite decide_True. Qed.
Lemma oset_ne O h l h' : h' <> h -> oset O h l h' = O h'.
Proof. intros. unfold oset. by rewrite decide_False. Qed.

(** [x] hands its blocks to [y]. *)
Definition handed O (x y : holder) : ownership := oset (oset O x []) y (O x ++ O y).

Lemma handed_from O x y : x <> y -> handed O x y x = [].
Proof. intros. unfold handed. by rewrite oset_ne, oset_eq. Qed.
Lemma handed_to O x y : handed O x y y = O x ++ O y.
Proof. apply oset_eq. Qed.
Lemma handed_other O x y h : h <> x -> h <> y -> handed O x y h = O h.
Proof. intros. unfold handed. by rewrite !oset_ne. Qed.

Lemma moves_ne s e x y : moves s e x y -> x <> y.
Proof. by destruct 1. Qed.

Lemma handed_step s e O x y : moves s e x y -> ownership_step s e O (handed O x y).
Proof.
  intros Hm. pose proof (moves_ne _ _ _ _ Hm) as Hxy. right. exists x, y.
  split_and!; [done|by apply handed_from|apply handed_to|]. intros. by apply handed_other.
Qed.

Lemma handed_elem O x y h b : x <> y -> b ∈ handed O x y h <-> (h = y /\ (b ∈ O x \/ b ∈ O y)) \/ (h <> x /\ h <> y /\ b ∈ O h).
Proof.
  intros Hxy. destruct (decide (h = y)) as [->|Hy]; [rewrite handed_to, elem_of_app; naive_solver|].
  destruct (decide (h = x)) as [->|Hx]; [rewrite handed_from by done; rewrite elem_of_nil; naive_solver|].
  rewrite handed_other by done. naive_solver.
Qed.

Lemma shared_out_handed B O x y : x <> y -> shared_out B O -> shared_out B (handed O x y).
Proof.
  intros Hxy [Ha Hu Hn]. split.
  - intros b. rewrite Ha. setoid_rewrite handed_elem; [|done]. split.
    + intros [h Hh]. destruct (decide (h = x)) as [->|]; [exists y; by left; split; [|left]|].
      destruct (decide (h = y)) as [->|]; [exists y; by left; split; [|right]|]. exists h. by right.
    + naive_solver.
  - intros h1 h2 b H1 H2. apply handed_elem in H1 as [[-> H1]|(N1 & N1' & H1)], H2 as [[-> H2]|(N2 & N2' & H2)]; try done.
    + destruct H1 as [H1|H1]; [by destruct N2; rewrite (Hu _ _ _ H2 H1)|by destruct N2'; rewrite (Hu _ _ _ H2 H1)].
    + destruct H2 as [H2|H2]; [by destruct N1; rewrite (Hu _ _ _ H1 H2)|by destruct N1'; rewrite (Hu _ _ _ H1 H2)].
    + by eapply Hu.
  - intros h. destruct (decide (h = y)) as [->|Hy].
    + rewrite handed_to. apply NoDup_app. split_and!; [done| |done]. intros b H1 H2. apply Hxy. by eapply Hu.
    + destruct (decide (h = x)) as [->|Hx]; [rewrite handed_from by done; constructor|]. by rewrite handed_other.
Qed.
End sharing.

(** ** Frames *)

Section frames.
Implicit Types (s : atomic_system) (O : ownership) (B : Z -> Prop).

(** The part of the state that concerns [h] is the same. *)
Definition same_part (s s' : atomic_system) (h : holder) : Prop :=
  match h with
  | h_shared c => array_get (at_heads (shared s')) c = array_get (at_heads (shared s)) c
  | h_private t slot => private_lists (worker t s') !! slot = private_lists (worker t s) !! slot
  | h_call t => running (worker t s') = running (worker t s)
  end.

Lemma batch_frame os os' d l : batch os d l -> (forall b, b ∈ l -> os' !! b = os !! b) -> batch os' d l.
Proof.
  intros (l0 & -> & Hs & Hn & b & Hb) Hf. exists l0. split; [done|]. split_and!; [|done|].
  - eapply seg_ext; [done|]. intros k Hk. unfold block_next, block_at. rewrite Hf; [done|set_solver].
  - exists b. rewrite Hf; [done|set_solver].
Qed.

Lemma block_chain_frame os os' p l :
  chain (block_next os) p l -> (forall b, b ∈ l -> os' !! b = os !! b) -> chain (block_next os') p l.
Proof. intros Hc Hf. eapply chain_ext; [done|]. intros b Hb. unfold block_next, block_at. by rewrite Hf. Qed.

Lemma call_owns_frame os os' call l :
  call_owns os call l -> (forall b, b ∈ l -> os' !! b = os !! b) -> call_owns os' call l.
Proof.
  destruct call as [c d|c d o|c d o|c|first [[block last] count]]; simpl.
  - intros (? & ? & ?) Hf. split_and!; [done| |done]. by eapply describes_chain_eq.
  - intros (? & ?) Hf. split; [done|]. by eapply batch_frame.
  - intros (? & Hb & Hn) Hf. split_and!; [done|by eapply batch_frame|]. unfold block_next, block_at.
    destruct Hb as (l0 & -> & _). rewrite Hf; [done|set_solver].
  - done.
  - intros (front & rest & -> & H1 & H2 & ? & ?) Hf. exists front, rest.
    split_and!; [done|by eapply block_chain_frame| |done|done]. eapply block_chain_frame; [done|]. set_solver.
Qed.

Lemma holder_ok_frame s s' h l :
  holder_ok s h l -> same_part s s' h -> (forall b, b ∈ l -> a_objs s' !! b = a_objs s !! b) -> holder_ok s' h l.
Proof.
  destruct h as [c|t slot|t]; simpl; intros Hok -> Hf.
  - case_match; [|done]. by eapply block_chain_frame.
  - case_match; [|done]. by eapply describes_chain_eq.
  - case_match; [|done]. case_match. by eapply call_owns_frame.
Qed.

(** Every owned block is a block. *)
Lemma seg_block os p l q b : seg (block_next os) p l q -> b ∈ l -> exists blk, os !! b = Some (OBlock blk).
Proof.
  revert p. induction l as [|x l IH]; intros p; simpl; [by intros _ ?%not_elem_of_nil|].
  intros (-> & _ & r & Hx & Hs) [->|Hb]%elem_of_cons; [|by eapply IH].
  apply block_next_Some in Hx as (blk & Hx & _). by exists blk.
Qed.

Lemma batch_block os d l b : batch os d l -> b ∈ l -> exists blk, os !! b = Some (OBlock blk).
Proof.
  intros (l0 & -> & Hs & _ & Hlast) [Hb|Hb]%elem_of_app; [by eapply seg_block|].
  by apply list_elem_of_singleton in Hb as ->.
Qed.

Lemma chain_block os p l b : chain (block_next os) p l -> b ∈ l -> exists blk, os !! b = Some (OBlock blk).
Proof. rewrite chain_seg. apply seg_block. Qed.

Lemma owned_block B O s h b : atomic_inv B O s -> b ∈ O h -> exists blk, a_objs s !! b = Some (OBlock blk).
Proof.
  intros I Hb. pose proof (ai_ok _ _ _ I h) as Hok. destruct h as [c|t slot|t]; simpl in Hok.
  - case_match; [by eapply chain_block|]. rewrite Hok in Hb. by apply not_elem_of_nil in Hb.
  - case_match; [eapply chain_block; [apply Hok|done]|]. rewrite Hok in Hb. by apply not_elem_of_nil in Hb.
  - case_match; [|rewrite Hok in Hb; by apply not_elem_of_nil in Hb]. case_match.
    destruct a as [c d|c d o|c d o|c|first [[block last] count]]; simpl in Hok.
    + destruct Hok as (_ & [[Hc _] _] & _). by eapply chain_block.
    + destruct Hok as (_ & Hc). by eapply batch_block.
    + destruct Hok as (_ & Hc & _). by eapply batch_block.
    + destruct Hok as (_ & E). rewrite E in Hb. by apply not_elem_of_nil in Hb.
    + destruct Hok as (front & rest & _ & Hc & _). by eapply chain_block.
Qed.

Lemma owned_length B O s h : atomic_inv B O s -> Z.of_nat (length (O h)) <= SIZE_MAX.
Proof.
  intros I. pose proof (NoDup_length_dom _ (a_objs s) (so_nodup _ _ (ai_shared _ _ _ I) h)) as Hle.
  pose proof (ai_fits _ _ _ I). assert ((length (O h) <= size (a_objs s))%nat); [|lia]. apply Hle. intros b Hb.
  destruct (owned_block _ _ _ _ _ I Hb) as [blk ->]. by eexists.
Qed.

(** ** Workers *)

Lemma worker_set_eq t w s : worker t (set_worker t w s) = w.
Proof. unfold worker. cbn. by rewrite lookup_insert_eq. Qed.
Lemma worker_set_ne t t' w s : t' <> t -> worker t' (set_worker t w s) = worker t' s.
Proof. intros. unfold worker. cbn. by rewrite lookup_insert_ne. Qed.
End frames.

(** ** One event *)

Section events.
Context `{Build}.
Implicit Types (s : atomic_system) (O : ownership) (B : Z -> Prop).

Definition step_ok B O (e : atomic_event) s s' : Prop :=
  exists O', atomic_inv B O' s' /\ ownership_step s e O O' /\ writes_own O e s s'.

Lemma ownership_step_refl s e O : ownership_step s e O O.
Proof. by left. Qed.

Lemma step_ok_same B O e s : atomic_inv B O s -> step_ok B O e s s.
Proof. intros I. exists O. split; [done|]. split; [apply ownership_step_refl|]. by intros k ?. Qed.

(** The state after a step of [t]. *)
Abbreviation after s x t w := (set_worker t w (AtomicSystem x (workers s))).

Lemma same_part_after s x t w h :
  (forall c, h = h_shared c -> array_get (at_heads x) c = array_get (at_heads (shared s)) c) ->
  (forall slot, h = h_private t slot -> private_lists w !! slot = private_lists (worker t s) !! slot) ->
  h <> h_call t -> same_part s (after s x t w) h.
Proof.
  intros Hs Hp Hc. destruct h as [c|t' slot|t']; simpl.
  - by apply Hs.
  - destruct (decide (t' = t)) as [->|Hne]; [rewrite worker_set_eq; by apply Hp|by rewrite worker_set_ne].
  - rewrite worker_set_ne; [done|congruence].
Qed.

Lemma slots_after B O s x t w :
  atomic_inv B O s -> (forall slot call, running w = Some (slot, call) -> private_lists w !! slot = None) ->
  forall t' slot call, running (worker t' (after s x t w)) = Some (slot, call) ->
    private_lists (worker t' (after s x t w)) !! slot = None.
Proof.
  intros I Hw t' slot call. destruct (decide (t' = t)) as [->|Hne]; [rewrite worker_set_eq; apply Hw|].
  rewrite worker_set_ne by done. apply (ai_slot _ _ _ I).
Qed.

(** A step that writes only links of the call's own blocks [S]. *)
Lemma step_ok_intro B O O' e s x t w S :
  atomic_inv B O s -> ownership_step s e O O' -> shared_out B O' ->
  length (at_heads x) = length (at_heads (shared s)) -> relinked S (at_mem (shared s)) (at_mem x) ->
  (S = [] \/ exists spurious, e = step_thread t spurious) -> (forall k, k ∈ S -> k ∈ O (h_call t)) ->
  (forall slot call, running w = Some (slot, call) -> private_lists w !! slot = None) ->
  (forall h, holder_ok (after s x t w) h (O' h) \/ (O' h = O h /\ h <> h_call t /\ same_part s (after s x t w) h)) ->
  step_ok B O e s (after s x t w).
Proof.
  intros I Hstep Hso Hlen R He HS Hslot Hh. exists O'. split; [|split; [done|]].
  - split.
    + cbn. rewrite Hlen. apply I.
    + intros h. destruct (Hh h) as [?|(-> & Hne & Hp)]; [done|]. eapply holder_ok_frame; [apply I|done|].
      intros b Hb. cbn. apply (rl_out _ _ _ R). intros Hk%HS. apply Hne. by eapply so_unique; [apply I|..].
    + done.
    + by eapply slots_after.
    + cbn. assert (E : dom (objs (at_mem x)) = dom (a_objs s)).
      { apply set_eq. intros k. rewrite !elem_of_dom. destruct (decide (k ∈ S)) as [Hk|Hk].
        - destruct (rl_in _ _ _ R _ Hk) as (b & q & -> & ->). by split; eexists.
        - by rewrite (rl_out _ _ _ R _ Hk). }
      rewrite <- size_dom, E, size_dom. apply I.
  - intros k Hk. destruct He as [->|[spurious ->]].
    + destruct Hk. cbn. apply (rl_out _ _ _ R). apply not_elem_of_nil.
    + exists t, spurious. split; [done|]. apply HS. destruct (decide (k ∈ S)) as [|Hn]; [done|].
      destruct Hk. cbn. by apply (rl_out _ _ _ R).
Qed.

(** A step that writes no block. *)
Lemma step_ok_quiet B O O' e s x t w :
  atomic_inv B O s -> ownership_step s e O O' -> shared_out B O' ->
  length (at_heads x) = length (at_heads (shared s)) -> at_mem x = at_mem (shared s) ->
  (forall slot call, running w = Some (slot, call) -> private_lists w !! slot = None) ->
  (forall h, holder_ok (after s x t w) h (O' h) \/ (O' h = O h /\ h <> h_call t /\ same_part s (after s x t w) h)) ->
  step_ok B O e s (after s x t w).
Proof.
  intros I Hstep Hso Hlen Hm Hslot Hh. eapply step_ok_intro with (S := []); [done..| |by left|by intros k ?%not_elem_of_nil|done|done].
  rewrite Hm. apply relinked_refl. by intros k ?%not_elem_of_nil.
Qed.

(** A step of [t]'s call that stays in the call. *)
Lemma step_ok_inside B O e s x t slot call call' :
  atomic_inv B O s -> running (worker t s) = Some (slot, call) ->
  at_heads x = at_heads (shared s) -> at_mem x = at_mem (shared s) -> call_owns (a_objs s) call' (O (h_call t)) ->
  step_ok B O e s (after s x t (AtomicThread (private_lists (worker t s)) (Some (slot, call')))).
Proof.
  intros I Hr Hh Hm Hc. pose proof (ai_slot _ _ _ I _ _ _ Hr) as Hslot.
  eapply step_ok_quiet; [done|apply ownership_step_refl|apply I|by rewrite Hh|done|by intros ?? [= <- <-]|].
  intros h. destruct (decide (h = h_call t)) as [->|Hne].
  - left. simpl. rewrite worker_set_eq. simpl. by rewrite Hm.
  - right. split_and!; [done|done|]. apply same_part_after; [by rewrite Hh|done|done].
Qed.

(** ** Starting calls *)

Lemma call_idle B O s t : atomic_inv B O s -> running (worker t s) = None -> O (h_call t) = [].
Proof. intros I Hr. pose proof (ai_ok _ _ _ I (h_call t)) as Hok. simpl in Hok. by rewrite Hr in Hok. Qed.

Lemma private_empty B O s t slot :
  atomic_inv B O s -> default NULL (tl_first <$> private_lists (worker t s) !! slot) = NULL -> O (h_private t slot) = [].
Proof.
  intros I Hn. pose proof (ai_ok _ _ _ I (h_private t slot)) as Hok. simpl in Hok.
  destruct (private_lists (worker t s) !! slot) as [d|]; [|done]. simpl in Hn.
  by eapply describes_nil_iff; [apply Hok|].
Qed.

Lemma wp_call_publish B O s t slot c :
  atomic_inv B O s -> wp (atomic_step (call_publish t slot c)) (fun _ s' => step_ok B O (call_publish t slot c) s s') s.
Proof.
  intros I. unfold atomic_step. wp_step. wp_step.
  destruct (running (worker t s)) as [[]|] eqn:Hr; [wp_steps; by apply step_ok_same|].
  destruct (private_lists (worker t s) !! slot) as [d|] eqn:Hd; [|wp_steps; by apply step_ok_same].
  destruct (valid_class c) eqn:Hc; [|wp_steps; by apply step_ok_same].
  pose proof (ai_ok _ _ _ I (h_private t slot)) as Hdes. simpl in Hdes. rewrite Hd in Hdes.
  pose proof (call_idle _ _ _ _ I Hr) as Hidle. replace s with (AtomicSystem (shared s) (workers s)) at 3 by (by destruct s).
  unfold hplf_transfer_atomic_publish. destruct (Z.eqb_spec (tl_first d) NULL) as [E|E]; wp_steps; cbn [workers].
  - eapply step_ok_quiet; [exact I|apply ownership_step_refl|apply I|done|done|done|].
    intros h. destruct (decide (h = h_call t)) as [->|Hne]; [left|right].
    + simpl. by rewrite worker_set_eq.
    + split_and!; [done|done|]. apply same_part_after; [done| |done]. intros slot' _. cbn. by rewrite insert_id.
  - assert (Hxy : h_private t slot <> h_call t) by done.
    eapply step_ok_quiet; [exact I|eapply handed_step; by econstructor|apply shared_out_handed; [exact Hxy|apply I]|done|done| |].
    { intros slot' call [= <- <-]. cbn. apply lookup_delete_eq. }
    intros h. destruct (decide (h = h_call t)) as [->|Hne]; [|destruct (decide (h = h_private t slot)) as [->|Hne2]].
    + left. rewrite handed_to, Hidle, app_nil_r. simpl. rewrite worker_set_eq. simpl. split_and!; [by rewrite Hc|done|].
      intros Hn. apply E. by apply (describes_nil_iff _ _ _ (de_prefix _ _ _ Hdes)).
    + left. rewrite handed_from by done. simpl. rewrite worker_set_eq. simpl. by rewrite lookup_delete_eq.
    + right. rewrite handed_other by done. split_and!; [done|done|]. apply same_part_after; [done| |done].
      intros slot' ->. cbn. rewrite lookup_delete_ne; [done|congruence].
Qed.

Lemma wp_call_detach B O s t slot c :
  atomic_inv B O s -> wp (atomic_step (call_detach t slot c)) (fun _ s' => step_ok B O (call_detach t slot c) s s') s.
Proof.
  intros I. unfold atomic_step. wp_step. wp_step.
  destruct (running (worker t s)) as [[]|] eqn:Hr; [wp_steps; by apply step_ok_same|].
  destruct (valid_class c) eqn:Hc; [|wp_steps; by apply step_ok_same]. cbn [andb].
  destruct (Z.eqb_spec (default NULL (tl_first <$> private_lists (worker t s) !! slot)) NULL) as [E|E];
    [|wp_steps; by apply step_ok_same].
  pose proof (call_idle _ _ _ _ I Hr) as Hidle. pose proof (private_empty _ _ _ _ _ I E) as Hempty.
  replace s with (AtomicSystem (shared s) (workers s)) at 3 by (by destruct s). wp_step.
  eapply step_ok_quiet; [exact I|apply ownership_step_refl|apply I|done|done| |].
  { intros slot' call [= <- <-]. cbn. apply lookup_delete_eq. }
  intros h. destruct (decide (h = h_call t)) as [->|Hne]; [|destruct (decide (h = h_private t slot)) as [->|Hne2]].
  - left. simpl. rewrite worker_set_eq. simpl. by rewrite Hc.
  - left. simpl. rewrite worker_set_eq. simpl. by rewrite lookup_delete_eq.
  - right. split_and!; [done|done|]. apply same_part_after; [done| |done].
    intros slot' ->. cbn. rewrite lookup_delete_ne; [done|congruence].
Qed.

(** ** Steps of a call *)

Lemma head_of B O s c :
  atomic_inv B O s -> valid_class c ->
  exists head, array_get (at_heads (shared s)) c = Some head /\ chain (block_next (a_objs s)) head (O (h_shared c)) /\
    0 <= c < Z.of_nat (length (at_heads (shared s))).
Proof.
  intros I Hc. assert (Hr : 0 <= c < HPLF_SIZE_CLASS_COUNT).
  { unfold valid_class in Hc. apply andb_True in Hc as [Hlo Hhi]. apply Is_true_true in Hlo, Hhi. lia. }
  destruct (array_get_class _ _ (ai_heads _ _ _ I) Hr) as [head Hh]. exists head.
  pose proof (ai_ok _ _ _ I (h_shared c)) as Hok. simpl in Hok. rewrite Hh in Hok.
  split_and!; [done|done|lia|]. rewrite (ai_heads _ _ _ I). lia.
Qed.

Lemma wp_head_load c head (Q : Z -> atomic_transfers -> Prop) x :
  array_get (at_heads x) c = Some head -> Q head x -> wp (head_load c) Q x.
Proof. intros. unfold head_load. wp_steps. by eapply wp_known. Qed.

Lemma wp_head_store c old p (Q : unit -> atomic_transfers -> Prop) x :
  array_get (at_heads x) c = Some old -> Q tt (set_at_heads (<[Z.to_nat c := p]> (at_heads x)) x) -> wp (head_store c p) Q x.
Proof. intros. unfold head_store. wp_steps. by eapply wp_known. Qed.

(** The counters of the tests concern nothing else. *)
Definition same_transfers (x x' : atomic_transfers) : Prop := at_mem x' = at_mem x /\ at_heads x' = at_heads x.

Lemma wp_count_attempt (Q : unit -> atomic_transfers -> Prop) x :
  (forall x', same_transfers x x' -> Q tt x') -> wp count_attempt Q x.
Proof. intros HQ. unfold count_attempt. destruct HPLF_TESTING; wp_steps; by apply HQ. Qed.
Lemma wp_count_failure (Q : unit -> atomic_transfers -> Prop) x :
  (forall x', same_transfers x x' -> Q tt x') -> wp count_failure Q x.
Proof. intros HQ. unfold count_failure. destruct HPLF_TESTING; wp_steps; by apply HQ. Qed.
Lemma wp_count_detachment (Q : unit -> atomic_transfers -> Prop) x :
  (forall x', same_transfers x x' -> Q tt x') -> wp count_detachment Q x.
Proof. intros HQ. unfold count_detachment. destruct HPLF_TESTING; wp_steps; by apply HQ. Qed.

(** A described nonempty list is a batch. *)
Lemma describes_batch os d l : describes os d l -> l <> [] -> batch os d l.
Proof.
  intros Hd Hne. destruct (describes_last _ _ _ Hd Hne) as [l0 E]. exists l0. split; [done|].
  pose proof (dp_chain _ _ _ (de_prefix _ _ _ Hd)) as Hc. rewrite E in Hc.
  destruct (chain_snoc_inv _ _ _ _ Hc) as (Hs & Hn & (b & Hb & _)%block_next_Some). split_and!; [done|done|by exists b].
Qed.

(** Storing the tail's link keeps a batch and sets the link. *)
Lemma batch_store os d l b q :
  batch os d l -> NoDup l -> os !! tl_last d = Some (OBlock b) ->
  batch (<[tl_last d := OBlock (set_next_free q b)]> os) d l /\
  block_next (<[tl_last d := OBlock (set_next_free q b)]> os) (tl_last d) = Some q.
Proof.
  intros (l0 & -> & Hs & Hn & _) Hnd Hb. split; [|by rewrite block_next_insert, decide_True].
  apply NoDup_app in Hnd as (_ & Hd & _). exists l0. split_and!; [done| |done|].
  - eapply seg_ext; [done|]. intros k Hk. rewrite block_next_insert, decide_False; [done|].
    intros ->. apply (Hd _ Hk). left.
  - eexists. apply lookup_insert_eq.
Qed.

Lemma batch_elem os d l : batch os d l -> tl_last d ∈ l.
Proof. intros (l0 & -> & _). set_solver. Qed.

(** Publishing links the batch in front of the list it observed. *)
Lemma batch_chain os d l observed l2 :
  batch os d l -> block_next os (tl_last d) = Some observed -> chain (block_next os) observed l2 ->
  chain (block_next os) (tl_first d) (l ++ l2).
Proof. intros (l0 & -> & Hs & Hn & _) Ho Hc. rewrite <- app_assoc. by eapply chain_snoc_intro. Qed.

(** What a step of thread [t]'s call must establish. *)
Abbreviation call_step B O t spurious slot s := (fun r x =>
  step_ok B O (step_thread t spurious) s
    (match r with
     | inl call' => after s x t (AtomicThread (private_lists (worker t s)) (Some (slot, call')))
     | inr l => after s x t (AtomicThread (<[slot := l]> (private_lists (worker t s))) None)
     end)).

Lemma wp_step_load B O s t spurious slot c d :
  atomic_inv B O s -> running (worker t s) = Some (slot, publish_load c d) ->
  wp (advance spurious (publish_load c d)) (call_step B O t spurious slot s) (shared s).
Proof.
  intros I Hr. pose proof (ai_ok _ _ _ I (h_call t)) as Hok. simpl in Hok. rewrite Hr in Hok. destruct Hok as (Hc & Hd & Hne).
  destruct (head_of _ _ _ _ I Hc) as (head & Hh & _). unfold advance. wp_step. eapply wp_head_load; [exact Hh|]. wp_step.
  eapply step_ok_inside; [done|done|done|done|]. split; [done|]. by apply describes_batch.
Qed.

Lemma wp_step_link B O s t spurious slot c d observed :
  atomic_inv B O s -> running (worker t s) = Some (slot, publish_link c d observed) ->
  wp (advance spurious (publish_link c d observed)) (call_step B O t spurious slot s) (shared s).
Proof.
  intros I Hr. pose proof (ai_ok _ _ _ I (h_call t)) as Hok. simpl in Hok. rewrite Hr in Hok. destruct Hok as (Hc & Hb).
  pose proof (batch_elem _ _ _ Hb) as Hlast. destruct (owned_block _ _ _ _ _ I Hlast) as [b Hblk].
  unfold advance. wp_step. unfold on_at_mem. wp_step. eapply wp_store_block; [by apply block_at_Some|]. wp_step.
  apply wp_count_attempt. intros x [Hm Hh]. wp_step. cbn in Hm, Hh.
  destruct (batch_store _ _ _ _ observed Hb (so_nodup _ _ (ai_shared _ _ _ I) _) Hblk) as [Hb' Hn'].
  eapply step_ok_intro with (S := [tl_last d]); [done|apply ownership_step_refl|apply I|by rewrite Hh| |right; by eexists| | |].
  - rewrite Hm. apply relinked_store; [|left|done]. apply relinked_refl. intros k ->%list_elem_of_singleton. by exists b.
  - by intros k ->%list_elem_of_singleton.
  - intros slot' call [= <- <-]. by eapply (ai_slot _ _ _ I).
  - intros h. destruct (decide (h = h_call t)) as [->|Hne].
    + left. simpl. rewrite worker_set_eq. simpl. rewrite Hm. by split_and!.
    + right. split_and!; [done|done|]. apply same_part_after; [by rewrite Hh|done|done].
Qed.

Lemma wp_step_cas B O s t spurious slot c d observed :
  atomic_inv B O s -> running (worker t s) = Some (slot, publish_cas c d observed) ->
  wp (advance spurious (publish_cas c d observed)) (call_step B O t spurious slot s) (shared s).
Proof.
  intros I Hr. pose proof (ai_ok _ _ _ I (h_call t)) as Hok. simpl in Hok. rewrite Hr in Hok. destruct Hok as (Hc & Hb & Hn).
  destruct (head_of _ _ _ _ I Hc) as (head & Hh & Hch & Hrange).
  unfold advance. wp_step. eapply wp_head_load; [exact Hh|].
  destruct (Z.eqb_spec head observed) as [->|E]; [destruct spurious|]; cbn [andb negb].
  1, 3: wp_step; apply wp_count_failure; intros x [Hm Hhs]; wp_step; by eapply step_ok_inside.
  wp_step. eapply wp_head_store; [exact Hh|]. wp_step. pose proof (ai_slot _ _ _ I _ _ _ Hr) as Hslot.
  assert (Hxy : h_call t <> h_shared c) by done.
  eapply step_ok_quiet; [exact I|eapply handed_step; by econstructor|apply shared_out_handed; [exact Hxy|apply I]|cbn; by rewrite length_insert|done|done|].
  intros h. destruct (decide (h = h_call t)) as [->|N1]; [|destruct (decide (h = h_shared c)) as [->|N2];
    [|destruct (decide (h = h_private t slot)) as [->|N3]]].
  - left. rewrite handed_from by done. simpl. by rewrite worker_set_eq.
  - left. rewrite handed_to. simpl. rewrite array_get_insert, decide_True by done. by eapply batch_chain.
  - left. rewrite handed_other by done. simpl. rewrite worker_set_eq. simpl. rewrite lookup_insert_eq.
    pose proof (ai_ok _ _ _ I (h_private t slot)) as Hp. simpl in Hp. rewrite Hslot in Hp. by rewrite Hp.
  - right. rewrite handed_other by done. split_and!; [done|done|]. apply same_part_after; [| |done].
    + intros c' ->. cbn. rewrite array_get_insert, decide_False by congruence. done.
    + intros slot' ->. cbn. rewrite lookup_insert_ne; [done|congruence].
Qed.

Lemma wp_step_exchange B O s t spurious slot c :
  atomic_inv B O s -> running (worker t s) = Some (slot, detach_exchange c) ->
  wp (advance spurious (detach_exchange c)) (call_step B O t spurious slot s) (shared s).
Proof.
  intros I Hr. pose proof (ai_ok _ _ _ I (h_call t)) as Hok. simpl in Hok. rewrite Hr in Hok. destruct Hok as (Hc & Hnil).
  destruct (head_of _ _ _ _ I Hc) as (head & Hh & Hch & Hrange).
  unfold advance. wp_step. eapply wp_head_load; [exact Hh|]. wp_step. eapply wp_head_store; [exact Hh|]. wp_step.
  apply wp_count_detachment. intros x [Hm Hhs]. cbn in Hm, Hhs. wp_step.
  assert (Hxy : h_shared c <> h_call t) by done.
  eapply step_ok_quiet; [exact I|eapply handed_step; by econstructor|apply shared_out_handed; [exact Hxy|apply I]|by rewrite Hhs, length_insert|done| |].
  { intros slot' call [= <- <-]. by eapply (ai_slot _ _ _ I). }
  intros h. destruct (decide (h = h_call t)) as [->|N1]; [|destruct (decide (h = h_shared c)) as [->|N2]].
  - left. rewrite handed_to, Hnil, app_nil_r. simpl. rewrite worker_set_eq. simpl. rewrite Hm. by exists [], (O (h_shared c)).
  - left. rewrite handed_from by done. simpl. rewrite Hhs. rewrite array_get_insert, decide_True by done. done.
  - right. rewrite handed_other by done. split_and!; [done|done|]. apply same_part_after; [|done|done].
    intros c' ->. rewrite Hhs. rewrite array_get_insert, decide_False by congruence. done.
Qed.

Lemma wp_step_walk B O s t spurious slot first walk :
  atomic_inv B O s -> running (worker t s) = Some (slot, detach_walk first walk) ->
  wp (advance spurious (detach_walk first walk)) (call_step B O t spurious slot s) (shared s).
Proof.
  intros I Hr. pose proof (ai_ok _ _ _ I (h_call t)) as Hok. simpl in Hok. rewrite Hr in Hok.
  pose proof (owned_length _ _ _ (h_call t) I) as Hlen.
  destruct walk as [[block last] count]. destruct Hok as (front & rest & E & Hc & Hrest & -> & ->).
  unfold advance. wp_step. unfold on_at_mem. wp_step. unfold from_chain_step.
  destruct (Z.eqb_spec block NULL) as [->|Hb].
  - wp_steps. apply chain_NULL in Hrest as ->. rewrite app_nil_r in E. subst front.
    pose proof (ai_slot _ _ _ I _ _ _ Hr) as Hslot. assert (Hxy : h_call t <> h_private t slot) by done.
    pose proof (ai_ok _ _ _ I (h_private t slot)) as Hp. simpl in Hp. rewrite Hslot in Hp.
    eapply step_ok_quiet; [exact I|eapply handed_step; by econstructor|apply shared_out_handed; [exact Hxy|apply I]|done|done|done|].
    intros h. destruct (decide (h = h_call t)) as [->|N1]; [|destruct (decide (h = h_private t slot)) as [->|N2]].
    + left. rewrite handed_from by done. simpl. by rewrite worker_set_eq.
    + left. rewrite handed_to, Hp, app_nil_r. simpl. rewrite worker_set_eq. simpl. rewrite lookup_insert_eq.
      split; [split; [done|done]|done].
    + right. rewrite handed_other by done. split_and!; [done|done|]. apply same_part_after; [done| |done].
      intros slot' ->. cbn. rewrite lookup_insert_ne; [done|congruence].
  - destruct (chain_head _ _ _ Hrest Hb) as [rest' ->]. destruct Hrest as (_ & _ & q & Hq & Hrest).
    apply block_next_Some in Hq as (b & Hblk & <-). wp_step. eapply wp_load_block; [by apply block_at_Some|]. wp_steps.
    eapply step_ok_inside; [done|done|done|by destruct (shared s) as [[]]|]. simpl.
    exists (front ++ [block]), rest'. split_and!; [by rewrite <- app_assoc|done|done| |].
    + unfold last_or_NULL. by rewrite last_snoc.
    + rewrite length_app. simpl. rewrite wadd_small; [lia|lia|lia|].
      rewrite E, length_app in Hlen. simpl in Hlen. lia.
Qed.

Lemma wp_advance B O s t spurious slot call :
  atomic_inv B O s -> running (worker t s) = Some (slot, call) ->
  wp (advance spurious call) (call_step B O t spurious slot s) (shared s).
Proof.
  intros I Hr. destruct call.
  - by eapply wp_step_load.
  - by eapply wp_step_link.
  - by eapply wp_step_cas.
  - by eapply wp_step_exchange.
  - by eapply wp_step_walk.
Qed.

Lemma wp_atomic_step B O e s : atomic_inv B O s -> wp (atomic_step e) (fun _ s' => step_ok B O e s s') s.
Proof.
  intros I. destruct e as [t slot c|t slot c|t spurious]; [by apply wp_call_publish|by apply wp_call_detach|].
  unfold atomic_step. wp_step. wp_step. destruct (running (worker t s)) as [[slot call]|] eqn:Hr; [|wp_steps; by apply step_ok_same].
  wp_step. unfold on_shared. wp_step. eapply wp_mono; [by eapply wp_advance|].
  intros [call'|l] x Hs; wp_step; exact Hs.
Qed.

Lemma wp_atomic_run B O events s :
  atomic_inv B O s -> wp (atomic_run events) (fun _ s' => exists O', atomic_inv B O' s') s.
Proof.
  revert O s. induction events as [|e events IH]; intros O s I; simpl; wp_step; [by exists O|].
  eapply wp_mono; [by apply (wp_atomic_step B O e s)|]. intros [] s' (O' & I' & _). by apply (IH O').
Qed.

(** ** Calls that run alone *)

(** The batch [l] is ready to go in front of the shared list [l2]. *)
Record ready (c : Z) (d : hplf_transfer_list) (l l2 : list Z) (x : atomic_transfers) : Prop := {
  re_batch : batch (objs (at_mem x)) d l;
  re_nodup : NoDup l;
  re_apart : forall b, b ∈ l -> b ∉ l2;
  re_shared : exists head, array_get (at_heads x) c = Some head /\ chain (block_next (objs (at_mem x))) head l2
}.

Lemma ready_same c d l l2 x x' : ready c d l l2 x -> same_transfers x x' -> ready c d l l2 x'.
Proof. intros [? ? ? ?] [Hm Hh]. split; rewrite ?Hm, ?Hh; done. Qed.

(** The publish took effect and returned. *)
Definition published_alone (c : Z) (d : hplf_transfer_list) (l l2 : list Z) (heads : list Z) (r : hplf_transfer_list)
    (x : atomic_transfers) : Prop :=
  r = hplf_transfer_list_clear /\ at_heads x = <[Z.to_nat c := tl_first d]> heads /\
  chain (block_next (objs (at_mem x))) (tl_first d) (l ++ l2).

(** One link step of a publish that runs alone. *)
Lemma wp_link_alone n c d l l2 observed x (Q : hplf_transfer_list -> atomic_transfers -> Prop) :
  ready c d l l2 x ->
  (forall x', ready c d l l2 x' -> block_next (objs (at_mem x')) (tl_last d) = Some observed -> at_heads x' = at_heads x ->
    wp (iterate n (advance false) (publish_cas c d observed)) Q x') ->
  wp (iterate (S n) (advance false) (publish_link c d observed)) Q x.
Proof.
  intros [Hb Hnd Hap (head & Hh & Hc)] HQ. pose proof Hb as (_ & _ & _ & _ & b & Hblk). cbn [iterate advance]. unfold on_at_mem.
  wp_step. wp_step. wp_step. eapply wp_store_block; [by apply block_at_Some|]. wp_step.
  apply wp_count_attempt. intros x1 [Hm1 Hh1]. wp_steps. cbn in Hm1, Hh1.
  destruct (batch_store _ _ _ _ observed Hb Hnd Hblk) as [Hb' Hn']. apply HQ; [|by rewrite Hm1|by rewrite Hh1].
  split; [by rewrite Hm1|done|done|]. exists head. rewrite Hh1, Hm1. split; [done|]. eapply block_chain_frame; [done|].
  intros k Hk. cbn. rewrite lookup_insert_ne; [done|]. intros E. apply (Hap k); [subst k; by eapply batch_elem|done].
Qed.

(** The successful compare-exchange. *)
Lemma wp_exchange_alone n c d l l2 head x :
  ready c d l l2 x -> array_get (at_heads x) c = Some head -> block_next (objs (at_mem x)) (tl_last d) = Some head ->
  wp (iterate (S n) (advance false) (publish_cas c d head)) (published_alone c d l l2 (at_heads x)) x.
Proof.
  intros [Hb _ _ (head' & Hh' & Hc)] Hh Hn. rewrite Hh in Hh'. injection Hh' as <-. cbn [iterate advance].
  wp_step. wp_step. eapply wp_head_load; [exact Hh|]. rewrite Z.eqb_refl. cbn [andb negb]. wp_step.
  eapply wp_head_store; [exact Hh|]. wp_steps. split_and!; [done|done|]. by eapply batch_chain.
Qed.

(** A publish that observed the current head ends after a link and an exchange. *)
Lemma wp_publish_current n c d l l2 head x :
  ready c d l l2 x -> array_get (at_heads x) c = Some head -> (2 <= n)%nat ->
  wp (iterate n (advance false) (publish_link c d head)) (published_alone c d l l2 (at_heads x)) x.
Proof.
  intros Hr Hh Hn. destruct n as [|[|n]]; [lia|lia|]. eapply wp_link_alone; [done|]. intros x1 Hr1 Hn1 E.
  rewrite <- E. apply wp_exchange_alone; [done|by rewrite E|done].
Qed.

Lemma wp_cas_alone n c d l l2 observed x :
  ready c d l l2 x -> block_next (objs (at_mem x)) (tl_last d) = Some observed -> (3 <= n)%nat ->
  wp (iterate n (advance false) (publish_cas c d observed)) (published_alone c d l l2 (at_heads x)) x.
Proof.
  intros Hr Ho Hn. destruct n as [|n]; [lia|]. pose proof (re_shared _ _ _ _ _ Hr) as (head & Hh & _).
  destruct (decide (head = observed)) as [->|Hne]; [by apply wp_exchange_alone|]. cbn [iterate advance].
  wp_step. wp_step. eapply wp_head_load; [exact Hh|]. rewrite (proj2 (Z.eqb_neq _ _) Hne). cbn [andb negb].
  wp_step. apply wp_count_failure. intros x1 Hs1. wp_steps. pose proof Hs1 as [_ <-].
  apply wp_publish_current; [by eapply ready_same|by destruct Hs1 as [_ ->]|lia].
Qed.

Lemma wp_load_alone n c d l l2 x :
  ready c d l l2 x -> (2 <= n)%nat ->
  wp (iterate (S n) (advance false) (publish_load c d)) (published_alone c d l l2 (at_heads x)) x.
Proof.
  intros Hr Hn. pose proof (re_shared _ _ _ _ _ Hr) as (head & Hh & _). cbn [iterate advance]. wp_step. wp_step.
  eapply wp_head_load; [exact Hh|]. wp_steps. by apply wp_publish_current with (n := n).
Qed.

(** The batch a publish is about. *)
Definition publishing (call : atomic_call) : option (Z * hplf_transfer_list) :=
  match call with
  | publish_load c d | publish_link c d _ | publish_cas c d _ => Some (c, d)
  | _ => None
  end.

(** The state of a publish. *)
Definition in_publish (t slot : nat) (call : atomic_call) (c : Z) (d : hplf_transfer_list) (s : atomic_system) : Prop :=
  running (worker t s) = Some (slot, call) /\ publishing call = Some (c, d).

Lemma publish_class B O s t slot call c d : atomic_inv B O s -> in_publish t slot call c d s -> valid_class c.
Proof.
  intros I [Hr Hp]. pose proof (ai_ok _ _ _ I (h_call t)) as Hok. simpl in Hok. rewrite Hr in Hok.
  destruct call; inversion Hp; subst; apply Hok.
Qed.

Lemma publish_ready B O s t slot call c d :
  atomic_inv B O s -> in_publish t slot call c d s -> ready c d (O (h_call t)) (O (h_shared c)) (shared s).
Proof.
  intros I Hp. destruct (head_of _ _ _ _ I (publish_class _ _ _ _ _ _ _ _ I Hp)) as (head & Hh & Hc & _).
  destruct Hp as [Hr Hd]. pose proof (ai_ok _ _ _ I (h_call t)) as Hok. simpl in Hok. rewrite Hr in Hok. split.
  - destruct call; inversion Hd; subst; [|apply Hok..]. destruct Hok as (_ & ? & ?). by apply describes_batch.
  - apply (ai_shared _ _ _ I).
  - intros b H1 H2. by pose proof (so_unique _ _ (ai_shared _ _ _ I) _ _ _ H1 H2).
  - by exists head.
Qed.

(** Without interference a publish ends within five steps, wherever it stands. *)
Lemma wp_publish_alone B O s t slot call c d :
  atomic_inv B O s -> in_publish t slot call c d s ->
  wp (run_alone 5 call) (published_alone c d (O (h_call t)) (O (h_shared c)) (at_heads (shared s))) (shared s).
Proof.
  intros I Hp. pose proof (publish_ready _ _ _ _ _ _ _ _ I Hp) as Hrd. destruct Hp as [Hr Hd].
  pose proof (ai_ok _ _ _ I (h_call t)) as Hok. simpl in Hok. rewrite Hr in Hok.
  unfold run_alone. destruct call; cbn in Hd; inversion Hd; subst.
  - apply (wp_load_alone 4); [done|lia].
  - apply (wp_link_alone 4 _ _ _ _ _ _ _ Hrd). intros x1 Hr1 Hn1 <-. apply wp_cas_alone; [done|done|lia].
  - apply wp_cas_alone; [done|apply Hok|lia].
Qed.

(** A detach that runs alone ends after the exchange and one step per node. *)
Lemma wp_walk_alone first l rest front x n :
  l = front ++ rest -> chain (block_next (objs (at_mem x))) first l -> Z.of_nat (length l) <= SIZE_MAX ->
  forall block, chain (block_next (objs (at_mem x))) block rest -> (length rest < n)%nat ->
  wp (iterate n (advance false) (detach_walk first (block, last_or_NULL front, Z.of_nat (length front))))
    (fun d x' => x' = x /\ tl_first d = first /\ describes (objs (at_mem x)) d l) x.
Proof.
  intros E Hc Hlen. revert front rest E. induction n as [|n IH]; intros front rest E block Hrest Hn; [lia|].
  cbn [iterate advance]. wp_step. unfold on_at_mem. wp_step. wp_step. unfold from_chain_step.
  destruct (Z.eqb_spec block NULL) as [->|Hb].
  - apply chain_NULL in Hrest as ->. rewrite app_nil_r in E. subst front. wp_steps. split_and!; [by destruct x|done|by split].
  - destruct (chain_head _ _ _ Hrest Hb) as [rest' ->]. destruct Hrest as (_ & _ & q & Hq & Hrest).
    apply block_next_Some in Hq as (b & Hblk & <-). wp_step. eapply wp_load_block; [by apply block_at_Some|]. wp_steps.
    pose proof (IH (front ++ [block]) rest') as IH'. unfold last_or_NULL in IH'. rewrite last_snoc in IH'.
    rewrite length_app in IH'. simpl in IH', Hn. subst l. rewrite length_app in Hlen. simpl in Hlen.
    rewrite wadd_small by lia. replace (Z.of_nat (length front) + 1) with (Z.of_nat (length front + 1)) by lia.
    replace (set_at_mem (at_mem x) x) with x by (by destruct x).
    apply IH'; [by rewrite <- app_assoc|done|lia].
Qed.

Lemma wp_detach_alone c head l x :
  array_get (at_heads x) c = Some head -> chain (block_next (objs (at_mem x))) head l -> Z.of_nat (length l) <= SIZE_MAX ->
  wp (run_alone (length l + 2) (hplf_transfer_atomic_detach c)) (fun d x' =>
    tl_first d = head /\ describes (objs (at_mem x)) d l /\ at_mem x' = at_mem x /\
    at_heads x' = <[Z.to_nat c := NULL]> (at_heads x)) x.
Proof.
  intros Hh Hc Hlen. unfold run_alone, hplf_transfer_atomic_detach. replace (length l + 2)%nat with (S (length l + 1)) by lia.
  cbn [iterate advance]. wp_step. wp_step. eapply wp_head_load; [exact Hh|]. wp_step. eapply wp_head_store; [exact Hh|].
  wp_step. apply wp_count_detachment. intros x1 [Hm1 Hh1]. wp_steps. cbn in Hm1, Hh1. rewrite <- Hm1 in Hc.
  eapply wp_mono; [exact (wp_walk_alone head l l [] x1 (length l + 1) eq_refl Hc Hlen head Hc ltac:(lia))|].
  intros d x' (-> & Hf & Hd). rewrite <- Hm1. by split_and!.
Qed.
End events.
