(* ===== verification/AtomicProgress.v ===== *)
(** * Progress of atomic transfers

    Lock freedom of publishes: a publish that is interfered with [k] times returns
    within [4 + 2 * k] steps of its own thread, whatever the other threads do. *)

From S2P Require Import Prelude CheckedMath SizeClass Memory Layout Chain OsMemory Slab Arena SlabSpec.
From S2P Require Import LockedAllocator FreeLists TrimLists TransferList TransferAtomic AtomicSpec.

Section progress.
Context `{Build}.
Implicit Types (s : atomic_system) (O : ownership) (B : Z -> Prop).

(** ** Counting steps and interference *)

(** The thread an event belongs to. *)
Definition event_thread (e : atomic_event) : nat :=
  match e with call_publish t _ _ | call_detach t _ _ | step_thread t _ => t end.

Definition is_step_of (t : nat) (e : atomic_event) : bool :=
  match e with step_thread t' _ => bool_decide (t' = t) | _ => false end.

Definition steps_of (t : nat) (events : list atomic_event) : nat := length (List.filter (is_step_of t) events).

Definition head_differs (c : Z) (s s' : atomic_system) : bool :=
  negb (bool_decide (array_get (at_heads (shared s')) c = array_get (at_heads (shared s)) c)).

(** Another thread changes the shared head of class [c], or a compare-exchange of
    [t] fails spuriously. *)
Definition disturbs (t : nat) (c : Z) (e : atomic_event) (s s' : atomic_system) : nat :=
  if decide (event_thread e = t) then
    match e with step_thread _ true => 1 | _ => 0 end
  else if head_differs c s s' then 1 else 0.

Fixpoint interference (t : nat) (c : Z) (events : list atomic_event) (s : atomic_system) : nat :=
  match events with
  | [] => 0
  | e :: events' =>
      match atomic_step e s with
      | Done _ s' => disturbs t c e s s' + interference t c events' s'
      | _ => 0
      end
  end.

(** The own steps a publish has left as long as the head stays as it is. *)
Definition phase (call : atomic_call) (head : option Z) : nat :=
  match call with
  | publish_load _ _ => 3
  | publish_link _ _ observed => if decide (head = Some observed) then 2 else 4
  | publish_cas _ _ observed => if decide (head = Some observed) then 1 else 3
  | _ => 0
  end.

Lemma phase_bound call head : (phase call head <= 4)%nat.
Proof. destruct call; simpl; try case_decide; lia. Qed.

Lemma phase_interfered call head head' : (phase call head' <= phase call head + 2)%nat.
Proof. destruct call; simpl; repeat case_decide; lia. Qed.

(** ** One step *)

(** A step of another thread leaves this one where it is. *)
Lemma wp_other_step B O s e t :
  atomic_inv B O s -> event_thread e <> t -> wp (atomic_step e) (fun _ s' => worker t s' = worker t s) s.
Proof.
  intros I Hne. destruct e as [t' slot c|t' slot c|t' spurious]; cbn in Hne; unfold atomic_step.
  - wp_step. wp_step. repeat (case_match; try wp_step); try done; by rewrite worker_set_ne.
  - wp_step. wp_step. repeat (case_match; try wp_step); try done; by rewrite worker_set_ne.
  - wp_step. wp_step. destruct (running (worker t' s)) as [[slot call]|] eqn:Hr; [|by wp_steps].
    wp_step. unfold on_shared. wp_step. eapply wp_mono; [by eapply wp_advance|].
    intros [call'|l] x _; wp_step; by rewrite worker_set_ne.
Qed.

Lemma publish_phase call c d head : publishing call = Some (c, d) -> (1 <= phase call head)%nat.
Proof. destruct call; simpl; try done; repeat case_decide; lia. Qed.

(** A step of a publish returns or comes closer to it, unless it fails spuriously. *)
Lemma wp_publish_closer B O s t slot call c d spurious :
  atomic_inv B O s -> in_publish t slot call c d s ->
  wp (advance spurious call) (fun r x =>
    match r with
    | inl call' => publishing call' = Some (c, d) /\
        (S (phase call' (array_get (at_heads x) c)) <=
         phase call (array_get (at_heads (shared s)) c) + 2 * Nat.b2n spurious)%nat
    | inr l => l = hplf_transfer_list_clear
    end) (shared s).
Proof.
  intros I Hp. destruct (head_of _ _ _ _ I (publish_class _ _ _ _ _ _ _ _ I Hp)) as (head & Hh & _).
  pose proof Hp as [Hr Hd]. destruct call as [c' d'|c' d' o|c' d' o|c'|f w]; cbn in Hd; inversion Hd; subst; cbn [advance phase].
  - wp_step. eapply wp_head_load; [exact Hh|]. wp_step. split; [done|]. cbn. rewrite Hh, decide_True by done. lia.
  - destruct (publish_ready _ _ _ _ _ _ _ _ I Hp) as [(_ & _ & _ & _ & b & Hb) _ _ _]. unfold on_at_mem. wp_step. wp_step.
    eapply wp_store_block; [by apply block_at_Some|]. wp_step. apply wp_count_attempt. intros x [Hm Hx]. wp_step.
    split; [done|]. rewrite Hx. cbn. case_decide; lia.
  - wp_step. eapply wp_head_load; [exact Hh|]. rewrite Hh.
    assert (Hfail : forall x, at_heads x = at_heads (shared s) -> head <> o \/ spurious = true ->
      (S (phase (publish_link c d head) (array_get (at_heads x) c)) <=
       (if decide (Some head = Some o) then 1 else 3) + 2 * Nat.b2n spurious)%nat).
    { intros x Hx Hor. rewrite Hx, Hh. cbn. rewrite decide_True by done. case_decide; [|lia].
      destruct Hor as [?| ->]; [congruence|simpl; lia]. }
    destruct (Z.eqb_spec head o) as [Eo|Eo]; [subst o; destruct spurious|]; cbn [andb negb].
    2: { wp_step. eapply wp_head_store; [exact Hh|]. by wp_step. }
    all: wp_step; apply wp_count_failure; intros x [Hm Hx]; wp_step; split; [done|]; apply Hfail; [done|]; first [by left|by right].
Qed.

(** The publish returned to its caller. *)
Definition returned (t slot : nat) (s : atomic_system) : Prop :=
  running (worker t s) = None /\ private_lists (worker t s) !! slot = Some hplf_transfer_list_clear.

Lemma wp_own_step B O s t slot call c d spurious :
  atomic_inv B O s -> in_publish t slot call c d s ->
  wp (atomic_step (step_thread t spurious)) (fun _ s' => returned t slot s' \/
    exists call', in_publish t slot call' c d s' /\
      (S (phase call' (array_get (at_heads (shared s')) c)) <=
       phase call (array_get (at_heads (shared s)) c) + 2 * Nat.b2n spurious)%nat) s.
Proof.
  intros I Hp. pose proof Hp as [Hr _]. unfold atomic_step. wp_step. wp_step. rewrite Hr. wp_step. unfold on_shared. wp_step.
  eapply wp_mono; [by eapply wp_publish_closer|]. intros [call'|l] x; cbn beta iota.
  - intros (Hd & Hlt). wp_step. right. exists call'. split; [|exact Hlt]. split; [|done]. by rewrite worker_set_eq.
  - intros ->. wp_step. left. unfold returned. rewrite worker_set_eq. cbn. by rewrite lookup_insert_eq.
Qed.

(** An event, whoever's it is: the own steps taken are paid for by the phase and the
    interference. *)
Lemma wp_publish_event B O s t slot call c d e :
  atomic_inv B O s -> in_publish t slot call c d s ->
  wp (atomic_step e) (fun _ s' => returned t slot s' \/
    exists call', in_publish t slot call' c d s' /\
      (steps_of t [e] + phase call' (array_get (at_heads (shared s')) c) <=
       phase call (array_get (at_heads (shared s)) c) + 2 * disturbs t c e s s')%nat) s.
Proof.
  intros I Hp. pose proof Hp as [Hr Hd]. unfold disturbs, steps_of. destruct (decide (event_thread e = t)) as [Ht|Ht].
  - destruct e as [t' slot' c'|t' slot' c'|t' spurious]; cbn in Ht; subst t'.
    1, 2: unfold atomic_step; wp_step; wp_step; rewrite Hr; wp_step; right; exists call; split; [done|simpl; lia].
    eapply wp_mono; [by eapply wp_own_step|]. intros _ s' [?|(call' & Hp' & Hlt)]; [by left|right].
    exists call'. split; [done|]. cbn. rewrite bool_decide_eq_true_2 by done. destruct spurious; simpl in *; lia.
  - eapply wp_mono; [by eapply wp_other_step|]. intros [] s' E. right. exists call. unfold in_publish. rewrite E. split; [done|].
    replace (length (List.filter (is_step_of t) [e])) with 0%nat.
    + unfold head_differs. case_bool_decide as Hh; cbn; [rewrite Hh; lia|].
      pose proof (phase_interfered call (array_get (at_heads (shared s)) c) (array_get (at_heads (shared s')) c)). lia.
    + destruct e; cbn in Ht |- *; [done|done|]. by rewrite bool_decide_eq_false_2.
Qed.

Lemma publish_returns_within B O s t slot call c d events :
  atomic_inv B O s -> in_publish t slot call c d s ->
  (phase call (array_get (at_heads (shared s)) c) + 2 * interference t c events s <= steps_of t events)%nat ->
  exists before after s', events = before ++ after /\ atomic_run before s = Done tt s' /\ returned t slot s'.
Proof.
  revert O s call. induction events as [|e events IH]; intros O s call I Hp Hle.
  { pose proof (publish_phase _ _ _ (array_get (at_heads (shared s)) c) (proj2 Hp)). cbn in Hle. lia. }
  destruct (wp_run _ _ _ (wp_atomic_step B O e s I)) as ([] & s' & E & O' & I' & _).
  pose proof (wp_done _ _ _ _ _ (wp_publish_event _ _ _ _ _ _ _ _ e I Hp) E) as Hev.
  destruct Hev as [Hret|(call' & Hp' & Hlt)].
  - exists [e], events, s'. split_and!; [done| |done]. cbn [atomic_run]. unfold mbind, prog_bind. by rewrite E.
  - cbn [interference] in Hle. rewrite E in Hle.
    assert (Hs : steps_of t (e :: events) = (steps_of t [e] + steps_of t events)%nat).
    { unfold steps_of. cbn. by destruct (is_step_of t e). }
    destruct (IH O' s' call' I' Hp' ltac:(lia)) as (before & after & s2 & -> & Er & Hret).
    exists (e :: before), after, s2. split_and!; [done| |done]. cbn [atomic_run]. unfold mbind, prog_bind. by rewrite E.
Qed.
End progress.
