(* ===== verification/AtomicProperties.v ===== *)
(** * Properties of the atomic transfers

    The theorems about the lock-free publish and detach, with their witnesses: two
    threads racing to publish and a third one detaching. *)

From S2P Require Import Prelude CheckedMath SizeClass Memory Layout Chain OsMemory Slab Arena SlabSpec.
From S2P Require Import LockedAllocator Scripted FreeLists TrimLists TransferList TransferAtomic AtomicSpec AtomicProgress.
From S2P Require Import ListProperties.

(** ** The initial state *)

(** No call is running, the shared lists are empty and every private list is fully
    described. *)
Lemma initial_atomic_inv O m ws :
  (forall t, running (default idle_thread (ws !! t)) = None) ->
  (forall t slot, match private_lists (default idle_thread (ws !! t)) !! slot with
                  | Some d => describes (objs m) d (O (h_private t slot))
                  | None => O (h_private t slot) = []
                  end) ->
  (forall c, O (h_shared c) = []) -> (forall t, O (h_call t) = []) ->
  (forall h1 h2 b, b ∈ O h1 -> b ∈ O h2 -> h1 = h2) -> (forall h, NoDup (O h)) -> Z.of_nat (size (objs m)) <= SIZE_MAX ->
  atomic_inv (fun b => exists h, b ∈ O h) O (AtomicSystem (initial_atomic_transfers m) ws).
Proof.
  intros Hrun Hpriv Hsh Hcall Hu Hnd Hsize. split; [done| |by split|intros t slot call; unfold worker; cbn; by rewrite Hrun|done].
  intros [c|t slot|t]; unfold holder_ok; [|apply Hpriv|unfold worker; cbn; by rewrite Hrun].
  rewrite Hsh. case_match eqn:E; [|done]. cbn in E. apply array_get_Some in E as (_ & E). apply lookup_replicate in E as [-> _]. done.
Qed.

Section properties.
Context `{Build}.

(** Under every interleaving of publishes and detaches of any number of threads,
    with arbitrary spurious failures, no undefined behaviour occurs and afterwards
    every block still has exactly one owner, whose list is intact. *)
Theorem atomic_transfers_safe (B : Z -> Prop) (O : ownership) (events : list atomic_event) (s : atomic_system) :
  atomic_inv B O s -> exists s' O', atomic_run events s = Done tt s' /\ atomic_inv B O' s'.
Proof. intros I. destruct (wp_run _ _ _ (wp_atomic_run B O events s I)) as ([] & s' & E & O' & I'). by exists s', O'. Qed.

(** C3: every single step implements an atomic operation on whole lists: it changes no
    ownership, or it is one of the four hand-overs (entry of a publish, successful
    compare-exchange, exchange, return of a detach), each of which moves everything
    one holder owns in front of what another owns; and it writes only blocks that its
    own call owns, so a shared block is never written. *)
Theorem atomic_step_linearizable (B : Z -> Prop) (O : ownership) (e : atomic_event) (s : atomic_system) :
  atomic_inv B O s ->
  exists s' O', atomic_step e s = Done tt s' /\ atomic_inv B O' s' /\ ownership_step s e O O' /\ writes_own O e s s'.
Proof. intros I. destruct (wp_run _ _ _ (wp_atomic_step B O e s I)) as ([] & s' & E & O' & HQ). by exists s', O'. Qed.

(** C18: publishes are lock-free: whatever the other threads do, a publish has returned,
    with the caller's descriptor cleared, once its thread has taken four steps plus
    two for every time another thread changed the same head or its own
    compare-exchange failed spuriously. *)
Theorem atomic_publish_lock_free (B : Z -> Prop) (O : ownership) (events : list atomic_event) (s : atomic_system)
    (t slot : nat) (call : atomic_call) (c : Z) (d : hplf_transfer_list) :
  atomic_inv B O s -> in_publish t slot call c d s -> (4 + 2 * interference t c events s <= steps_of t events)%nat ->
  exists before after s', events = before ++ after /\ atomic_run before s = Done tt s' /\ returned t slot s'.
Proof.
  intros I Hp Hn. pose proof (phase_bound call (array_get (at_heads (shared s)) c)).
  eapply publish_returns_within; [exact I|exact Hp|lia].
Qed.

(** C19: without interference every publish in progress returns within five steps and
    has put its batch in front of the shared list, and a detach returns within two
    steps more than the list has blocks, describing the whole list and leaving the
    shared one empty. *)
Theorem atomic_calls_terminate (B : Z -> Prop) (O : ownership) (s : atomic_system) (t slot : nat) (call : atomic_call)
    (c c' : Z) (d : hplf_transfer_list) :
  atomic_inv B O s -> in_publish t slot call c d s -> valid_class c' ->
  (exists x, run_alone 5 call (shared s) = Done hplf_transfer_list_clear x /\
    at_heads x = <[Z.to_nat c := tl_first d]> (at_heads (shared s)) /\
    chain (block_next (objs (at_mem x))) (tl_first d) (O (h_call t) ++ O (h_shared c))) /\
  (exists r x, run_alone (length (O (h_shared c')) + 2) (hplf_transfer_atomic_detach c') (shared s) = Done r x /\
    describes (a_objs s) r (O (h_shared c')) /\ at_mem x = at_mem (shared s) /\
    at_heads x = <[Z.to_nat c' := NULL]> (at_heads (shared s))).
Proof.
  intros I Hp Hc'. destruct (wp_run _ _ _ (wp_publish_alone _ _ _ _ _ _ _ _ I Hp)) as (r & x & E & -> & Hh & Hch).
  destruct (head_of _ _ _ _ I Hc') as (head & Hhead & Hchain & _). split; [by exists x|].
  destruct (wp_run _ _ _ (wp_detach_alone c' head _ _ Hhead Hchain (owned_length _ _ _ _ I))) as (r & x' & E' & _ & HQ).
  by exists r, x'.
Qed.
End properties.

(** ** A race *)

#[local] Existing Instance production_build.

(** Thread 0 owns the first four blocks of a slab, thread 1 the other eleven. *)
Definition race_split : hplf_transfer_list * hplf_transfer_list :=
  result_or (hplf_transfer_list_clear, hplf_transfer_list_clear)
    (hplf_transfer_list_take_prefix (TransferList 127712 69696 15) 4 pieces_memory).
Definition race_memory : memory :=
  state_or pieces_memory (hplf_transfer_list_take_prefix (TransferList 127712 69696 15) 4 pieces_memory).
Definition race_threads : gmap nat atomic_thread :=
  {[ 0%nat := AtomicThread {[ 0%nat := race_split.2 ]} None; 1%nat := AtomicThread {[ 0%nat := race_split.1 ]} None ]}.
Definition race_start : atomic_system := AtomicSystem (initial_atomic_transfers race_memory) race_threads.
Definition race_owners : ownership := fun h =>
  if decide (h = h_private 0 0) then take 4 (pieces_blocks ++ [69696])
  else if decide (h = h_private 1 0) then drop 4 (pieces_blocks ++ [69696]) else [].
Definition race_blocks (b : Z) : Prop := exists h, b ∈ race_owners h.

(** Both threads observe the empty head; thread 1 publishes first, so the
    compare-exchange of thread 0 fails once. *)
Definition race_prefix : list atomic_event :=
  [call_publish 0 0 15; call_publish 1 0 15; step_thread 0 false; step_thread 1 false; step_thread 0 false].
Definition race_rest : list atomic_event :=
  [step_thread 1 false; step_thread 1 false; step_thread 0 false; step_thread 0 false; step_thread 0 true;
   step_thread 0 false; step_thread 0 false; step_thread 0 false; step_thread 0 false; step_thread 0 false].
Definition race_middle : atomic_system := state_or race_start (atomic_run race_prefix race_start).
Definition race_batch : hplf_transfer_list := TransferList 127712 115280 4.

Lemma race_elem h b : b ∈ race_owners h ->
  (h = h_private 0 0 /\ b ∈ take 4 (pieces_blocks ++ [69696])) \/ (h = h_private 1 0 /\ b ∈ drop 4 (pieces_blocks ++ [69696])).
Proof. unfold race_owners. repeat case_decide; [by left|by right|by intros ?%not_elem_of_nil]. Qed.

Lemma race_blocks_apart b : b ∈ take 4 (pieces_blocks ++ [69696]) -> b ∈ drop 4 (pieces_blocks ++ [69696]) -> False.
Proof.
  assert (Hnd : NoDup (take 4 (pieces_blocks ++ [69696]) ++ drop 4 (pieces_blocks ++ [69696]))).
  { rewrite take_drop. apply (bool_decide_unpack _). by vm_compute. }
  apply NoDup_app in Hnd as (_ & Hd & _). apply Hd.
Qed.

Lemma race_private_0 : describes (objs race_memory) race_split.2 (take 4 (pieces_blocks ++ [69696])).
Proof.
  split; [split|]; [|by vm_compute..]. vm_compute. repeat (split; [done|]; split; [done|]; eexists; split; [done|]). done.
Qed.

Lemma race_private_1 : describes (objs race_memory) race_split.1 (drop 4 (pieces_blocks ++ [69696])).
Proof.
  split; [split|]; [|by vm_compute..]. vm_compute. repeat (split; [done|]; split; [done|]; eexists; split; [done|]). done.
Qed.

Lemma race_no_thread t : race_threads !! S (S t) = None.
Proof. unfold race_threads. rewrite lookup_insert_ne by lia. apply lookup_singleton_ne. lia. Qed.

Lemma race_thread_0 : race_threads !! 0%nat = Some (AtomicThread {[ 0%nat := race_split.2 ]} None).
Proof. apply lookup_insert_eq. Qed.

Lemma race_thread_1 : race_threads !! 1%nat = Some (AtomicThread {[ 0%nat := race_split.1 ]} None).
Proof. unfold race_threads. rewrite lookup_insert_ne by lia. apply lookup_singleton_eq. Qed.

Lemma race_start_inv : atomic_inv race_blocks race_owners race_start.
Proof.
  apply initial_atomic_inv.
  - intros [|[|t]]; [by rewrite race_thread_0|by rewrite race_thread_1|by rewrite race_no_thread].
  - intros [|[|t]] slot.
    + rewrite race_thread_0. cbn [default from_option id private_lists]. destruct slot; [|by rewrite lookup_singleton_ne].
      rewrite lookup_singleton_eq. apply race_private_0.
    + rewrite race_thread_1. cbn [default from_option id private_lists]. destruct slot; [|by rewrite lookup_singleton_ne].
      rewrite lookup_singleton_eq. apply race_private_1.
    + rewrite race_no_thread. cbn [default from_option id private_lists idle_thread]. by rewrite lookup_empty.
  - done.
  - done.
  - intros h1 h2 b H1%race_elem H2%race_elem. destruct H1 as [[-> H1]|[-> H1]], H2 as [[-> H2]|[-> H2]]; try done;
      by destruct (race_blocks_apart b).
  - intros h. unfold race_owners. repeat case_decide; [apply (bool_decide_unpack _); by vm_compute..|constructor].
  - by vm_compute.
Qed.

Lemma race_middle_inv : exists O, atomic_inv race_blocks O race_middle.
Proof.
  destruct (wp_run _ _ _ (wp_atomic_run race_blocks race_owners race_prefix race_start race_start_inv)) as (? & s & E & HO).
  unfold race_middle, state_or. by rewrite E.
Qed.

Lemma race_middle_publish : in_publish 0 0 (publish_cas 15 race_batch 0) 15 race_batch race_middle.
Proof. by vm_compute. Qed.

(** ** Witnesses *)

Lemma atomic_transfers_safe_witness :
  exists s' O', atomic_run (race_prefix ++ race_rest) race_start = Done tt s' /\ atomic_inv race_blocks O' s'.
Proof. apply (atomic_transfers_safe race_blocks race_owners). apply race_start_inv. Defined.

Lemma atomic_step_linearizable_witness :
  exists s' O', atomic_step (call_publish 0 0 15) race_start = Done tt s' /\ atomic_inv race_blocks O' s' /\
    ownership_step race_start (call_publish 0 0 15) race_owners O' /\
    writes_own race_owners (call_publish 0 0 15) race_start s'.
Proof. apply (atomic_step_linearizable race_blocks race_owners). apply race_start_inv. Defined.

Lemma atomic_publish_lock_free_witness :
  exists before after s', race_rest = before ++ after /\ atomic_run before race_middle = Done tt s' /\ returned 0 0 s'.
Proof.
  destruct race_middle_inv as [O I].
  apply (atomic_publish_lock_free race_blocks O race_rest race_middle 0 0 (publish_cas 15 race_batch 0) 15 race_batch);
    [exact I|apply race_middle_publish|vm_compute; lia].
Defined.

Lemma atomic_calls_terminate_witness :
  exists O, atomic_inv race_blocks O race_middle /\
  (exists x, run_alone 5 (publish_cas 15 race_batch 0) (shared race_middle) = Done hplf_transfer_list_clear x /\
    at_heads x = <[Z.to_nat 15 := 127712]> (at_heads (shared race_middle)) /\
    chain (block_next (objs (at_mem x))) 127712 (O (h_call 0) ++ O (h_shared 15))) /\
  (exists r x, run_alone (length (O (h_shared 7)) + 2) (hplf_transfer_atomic_detach 7) (shared race_middle) = Done r x /\
    describes (a_objs race_middle) r (O (h_shared 7)) /\ at_mem x = at_mem (shared race_middle) /\
    at_heads x = <[Z.to_nat 7 := NULL]> (at_heads (shared race_middle))).
Proof.
  destruct race_middle_inv as [O I]. exists O. split; [exact I|].
  apply (atomic_calls_terminate race_blocks O race_middle 0 0 (publish_cas 15 race_batch 0) 15 7 race_batch);
    [exact I|apply race_middle_publish|by vm_compute].
Defined.
