(* ===== verification/AtomicEquivalence.v ===== *)
(** * Atomic and mutex transfers are interchangeable

    A publish or detach of src/transfer_atomic.c that runs alone has the effect of the
    corresponding critical section of src/transfer_mutex.c on memory and heads, and
    leaves the same descriptor. *)

From S2P Require Import Prelude CheckedMath SizeClass Memory Layout Chain OsMemory Slab Arena SlabSpec.
From S2P Require Import LockedAllocator Scripted FreeLists LockedSpec TrimLists TransferList HeapSpec Pool.
From S2P Require Import CachedState ThreadCacheSpec Placement PoolSteps TransferSpec TransferAtomic AtomicSpec ListProperties.

(** Calls that run alone, without interference or spurious failures. *)
Definition publish_alone `{Build} (c : Z) (d : hplf_transfer_list) : prog atomic_transfers hplf_transfer_list :=
  match hplf_transfer_atomic_publish c d with
  | inl call => run_alone 3 call
  | inr d' => mret d'
  end.
Definition detach_alone `{Build} (c : Z) (n : nat) : prog atomic_transfers hplf_transfer_list :=
  run_alone (n + 2) (hplf_transfer_atomic_detach c).

(** Both kinds of transfers over the same memory and heads. *)
Definition same_lists (x : atomic_transfers) (s : cached_allocator) : Prop :=
  at_mem x = c_mem s /\ at_heads x = transfer_heads s.

(** A description is determined by its first node and its list. *)
Lemma describes_unique os d d' l : describes os d l -> describes os d' l -> tl_first d = tl_first d' -> d = d'.
Proof.
  intros [[_ H1] H2] [[_ H3] H4] E. destruct d, d'. cbn in *. congruence.
Qed.

Section equivalence.
Context `{Build, Platform, !PlatformLaws, Pthreads, !PthreadLaws}.

(** The effect of a publish on memory. *)
Definition linked (d : hplf_transfer_list) (head : Z) (b : hplf_block) (m : memory) : memory :=
  set_objs <[tl_last d := OBlock (set_next_free head b)]> m.

Lemma wp_mutex_publish c d head b s :
  transfers_held s = false -> tl_first d <> NULL -> objs (c_mem s) !! tl_last d = Some (OBlock b) ->
  array_get (transfer_heads s) c = Some head ->
  wp (hplf_transfer_mutex_publish c d) (fun r s' => r = hplf_transfer_list_clear /\
    c_mem s' = linked d head b (c_mem s) /\ transfer_heads s' = <[Z.to_nat c := tl_first d]> (transfer_heads s)) s.
Proof.
  intros Hh Hf Hb Hhead. unfold hplf_transfer_mutex_publish. rewrite (proj2 (Z.eqb_neq _ _) Hf).
  wp_step. apply wp_transfers_lock; [done|]. wp_step. eapply wp_transfer_head; [done|].
  wp_step. apply wp_on_c_mem. eapply wp_store_block; [by apply block_at_Some|].
  wp_step. eapply wp_set_transfer_head; [done|]. wp_step. apply wp_transfers_unlock; [done|]. by wp_steps.
Qed.

Lemma wp_atomic_publish c d head b x :
  tl_first d <> NULL -> objs (at_mem x) !! tl_last d = Some (OBlock b) -> array_get (at_heads x) c = Some head ->
  wp (publish_alone c d) (fun r x' => r = hplf_transfer_list_clear /\
    at_mem x' = linked d head b (at_mem x) /\ at_heads x' = <[Z.to_nat c := tl_first d]> (at_heads x)) x.
Proof.
  intros Hf Hb Hhead. unfold publish_alone, hplf_transfer_atomic_publish. rewrite (proj2 (Z.eqb_neq _ _) Hf).
  unfold run_alone. cbn [iterate]. unfold advance, on_at_mem. wp_step. wp_step. eapply wp_head_load; [exact Hhead|].
  wp_step. wp_step. wp_step. wp_step. eapply wp_store_block; [by apply block_at_Some|]. wp_step.
  apply wp_count_attempt. intros x1 [Hm1 Hh1]. cbn in Hm1, Hh1. wp_steps.
  eapply wp_head_load; [by rewrite Hh1|]. rewrite Z.eqb_refl. cbn [andb negb]. wp_step.
  eapply wp_head_store; [by rewrite Hh1|]. wp_steps. split_and!; [done|exact Hm1|cbn; by rewrite Hh1].
Qed.

Lemma wp_mutex_detach c head l s :
  transfers_held s = false -> array_get (transfer_heads s) c = Some head -> chain (block_next (c_objs s)) head l ->
  Z.of_nat (length l) <= SIZE_MAX ->
  wp (hplf_transfer_mutex_detach c) (fun d s' => tl_first d = head /\ describes (c_objs s) d l /\ c_mem s' = c_mem s /\
    transfer_heads s' = <[Z.to_nat c := NULL]> (transfer_heads s)) s.
Proof.
  intros Hh Hhead Hc Hl. unfold hplf_transfer_mutex_detach. wp_step. apply wp_transfers_lock; [done|].
  wp_step. eapply wp_transfer_head; [done|]. wp_step. eapply wp_set_transfer_head; [done|]. wp_step.
  apply wp_transfers_unlock; [done|]. apply wp_on_c_mem. eapply wp_mono; [by apply (wp_from_chain _ head l)|].
  intros d m' (-> & Hf & Hd). by split_and!.
Qed.

(** C17: an atomic publish or detach that runs alone does to memory and heads what the
    mutex version does, and leaves the caller the same descriptor: the transfers of
    the cached allocator can be exchanged. *)
Theorem atomic_equals_mutex (c head : Z) (d : hplf_transfer_list) (l ld : list Z) (s : cached_allocator) (x : atomic_transfers) :
  transfers_held s = false -> same_lists x s -> array_get (transfer_heads s) c = Some head ->
  chain (block_next (c_objs s)) head l -> Z.of_nat (length l) <= SIZE_MAX -> describes (c_objs s) d ld ->
  (exists r s' x', hplf_transfer_mutex_publish c d s = Done r s' /\ publish_alone c d x = Done r x' /\ same_lists x' s') /\
  (exists r s' x', hplf_transfer_mutex_detach c s = Done r s' /\ detach_alone c (length l) x = Done r x' /\ same_lists x' s').
Proof.
  intros Hh [Em Eh] Hhead Hc Hl Hd. split.
  - destruct (decide (tl_first d = NULL)) as [E|E].
    + unfold hplf_transfer_mutex_publish, publish_alone, hplf_transfer_atomic_publish. rewrite (proj2 (Z.eqb_eq _ _) E). by exists d, s, x.
    + assert (Hne : ld <> []) by (intros Hn; by apply E, (describes_nil_iff _ _ _ (de_prefix _ _ _ Hd))).
      destruct (describes_batch _ _ _ Hd Hne) as (_ & _ & _ & _ & b & Hb).
      destruct (wp_run _ _ _ (wp_mutex_publish c d head b s Hh E Hb Hhead)) as (r & s' & E1 & -> & Hm1 & Hh1).
      destruct (wp_run _ _ _ (wp_atomic_publish c d head b x E ltac:(by rewrite Em) ltac:(by rewrite Eh))) as (r & x' & E2 & -> & Hm2 & Hh2).
      exists hplf_transfer_list_clear, s', x'. split_and!; [done|done|]. split; [by rewrite Hm1, Hm2, Em|by rewrite Hh1, Hh2, Eh].
  - destruct (wp_run _ _ _ (wp_mutex_detach c head l s Hh Hhead Hc Hl)) as (r1 & s' & E1 & Hf1 & Hd1 & Hm1 & Hh1).
    assert (Hx : array_get (at_heads x) c = Some head) by (by rewrite Eh).
    assert (Hcx : chain (block_next (objs (at_mem x))) head l) by (by rewrite Em).
    destruct (wp_run _ _ _ (wp_detach_alone c head l x Hx Hcx Hl)) as (r2 & x' & E2 & Hf2 & Hd2 & Hm2 & Hh2).
    rewrite Em in Hd2. rewrite (describes_unique _ _ _ _ Hd2 Hd1) in E2 by congruence.
    exists r1, s', x'. split_and!; [done|done|]. split; [by rewrite Hm1, Hm2|by rewrite Hh1, Hh2, Eh].
Qed.
End equivalence.

(** ** Witness *)

#[local] Existing Instance production_build.
#[local] Instance exchange_platform : Platform := scripted_platform all_succeed.
#[local] Instance exchange_laws : PlatformLaws := scripted_laws all_succeed.

#[local] Instance exchange_threads : Pthreads := {|
  sys_transfer_lock _ := 0; sys_once _ := 0; sys_key_create _ := 0; sys_setspecific _ := 0
|}.
#[local] Instance exchange_thread_laws : PthreadLaws.
Proof. by split. Qed.

#[local] Ltac shared_chain := vm_compute; repeat (split; [done|]; split; [done|]; eexists; split; [done|]); done.

(** Four blocks of a new slab in hand, the other eleven on the shared list. *)
Definition exchange_run : outcome memory (hplf_transfer_list * hplf_transfer_list) :=
  hplf_transfer_list_take_prefix (TransferList 127712 69696 15) 4 pieces_memory.
Definition exchange_lists : atomic_transfers :=
  AtomicTransfers (state_or pieces_memory exchange_run) (<[15%nat := 111136]> (transfer_heads initial_cached_state)) (AtomicStats 0 0 0).
Definition exchange_state : cached_allocator :=
  set_transfer_heads (at_heads exchange_lists) (with_c_mem (at_mem exchange_lists) initial_cached_state).

Lemma atomic_equals_mutex_witness :
  (exists r s' x', hplf_transfer_mutex_publish 15 (TransferList 127712 115280 4) exchange_state = Done r s' /\
    publish_alone 15 (TransferList 127712 115280 4) exchange_lists = Done r x' /\ same_lists x' s') /\
  (exists r s' x', hplf_transfer_mutex_detach 15 exchange_state = Done r s' /\
    detach_alone 15 11 exchange_lists = Done r x' /\ same_lists x' s').
Proof.
  apply (atomic_equals_mutex 15 111136 (TransferList 127712 115280 4) (drop 4 (pieces_blocks ++ [69696]))
    (take 4 (pieces_blocks ++ [69696])) exchange_state exchange_lists);
    [by vm_compute|by split|by vm_compute|shared_chain|by vm_compute|split; [split; [shared_chain|by vm_compute]|by vm_compute]].
Defined.
