(* ===== verification/WorkerJob.v ===== *)
(** * Jobs of the worker-pool example (src/examples/worker_pool.c)

    The hash, the job contents derived from it, the checksum and the validity test. *)

From S2P Require Import Prelude LockedAllocator.

(** ** The hash *)

Definition mix64 (value : Z) : Z :=
  let value := Z.lxor value (Z.shiftr value 30) in
  let value := wmul value 0xbf58476d1ce4e5b9 in
  let value := Z.lxor value (Z.shiftr value 27) in
  let value := wmul value 0x94d049bb133111eb in
  Z.lxor value (Z.shiftr value 31).

Definition payload_sizes : list Z := [1; 16; 17; 64; 65; 256; 1024; 4096; 4097; 16384].

(** The modulus is the length of the table, so the lookup always succeeds. *)
Definition payload_size_for (seed id : Z) : Z :=
  let choice := mix64 (Z.lxor seed (mix64 (wadd id 0x9e3779b97f4a7c15))) in
  default 0 (array_get payload_sizes (choice mod Z.of_nat (length payload_sizes))).

Definition payload_byte (key offset : Z) : Z :=
  let shift := Z.land offset 7 * 8 in
  let value := Z.lxor (Z.shiftr key shift) (wmul offset 0x9d) in
  value mod 256.

(** ** Jobs *)

(** [payload] is the flexible array member: the bytes after the struct that the
    allocation provides. *)
Record job := Job {
  job_id : Z;
  job_key : Z;
  payload_size : Z;
  payload : list Z
}.

Definition sizeof_job : Z := 24.

Definition job_checksum (j : job) : Z :=
  mix64 (Z.lxor (Z.lxor (job_key j) (mix64 (job_id j))) (payload_size j)).

(** The loop from [index] on, [n] bytes; reading past the payload is undefined. *)
Fixpoint job_valid_from (j : job) (index : Z) (n : nat) : option bool :=
  match n with
  | O => Some true
  | Datatypes.S n' =>
      byte ← array_get (payload j) index;
      if byte =? payload_byte (job_key j) index then job_valid_from j (index + 1) n' else Some false
  end.

Definition job_is_valid (j : job) : option bool := job_valid_from j 0 (Z.to_nat (payload_size j)).

(** The producer's loop, which writes every byte of the payload. *)
Definition fill_payload (key size : Z) : list Z := payload_byte key <$> seqZ 0 size.

(** The job the producer makes for an index. *)
Definition key_for (seed index : Z) : Z := mix64 (Z.lxor seed (mix64 index)).
Definition make_job (seed index : Z) : job :=
  let size := payload_size_for seed index in
  Job index (key_for seed index) size (fill_payload (key_for seed index) size).

(** ** The hash is a permutation *)

Lemma lxor_word a b : 0 <= a < WORD -> 0 <= b < WORD -> 0 <= Z.lxor a b < WORD.
Proof.
  intros [Ha Ha'] [Hb Hb']. split; [by apply Z.lxor_nonneg|]. unfold WORD in *.
  destruct (decide (Z.lxor a b = 0)) as [->|Hne]; [lia|]. apply Z.log2_lt_pow2; [pose proof (proj2 (Z.lxor_nonneg a b)); lia|].
  eapply Z.le_lt_trans; [by apply Z.log2_lxor|].
  assert (Hlog : forall x, 0 <= x < 2 ^ 64 -> Z.log2 x < 64).
  { intros x [H1 H2]. destruct (decide (x = 0)) as [->|]; [done|]. apply Z.log2_lt_pow2; lia. }
  pose proof (Hlog a ltac:(lia)). pose proof (Hlog b ltac:(lia)). lia.
Qed.

Lemma shiftr_word a n : 0 <= a < WORD -> 0 <= n -> 0 <= Z.shiftr a n < WORD.
Proof.
  intros Ha Hn. rewrite Z.shiftr_div_pow2 by done. pose proof (Z.pow_pos_nonneg 2 n ltac:(lia) Hn).
  split; [apply Z.div_pos; lia|]. eapply Z.le_lt_trans; [apply Z.div_le_upper_bound with (q := a); nia|lia].
Qed.

Lemma wmul_word a b : 0 <= wmul a b < WORD.
Proof. apply Z.mod_pos_bound. apply WORD_pos. Qed.

Lemma mix64_word v : 0 <= v < WORD -> 0 <= mix64 v < WORD.
Proof. intros Hv. unfold mix64. apply lxor_word; [apply wmul_word|]. apply shiftr_word; [apply wmul_word|done]. Qed.

(** Undoing one exclusive-or with the value's own upper bits. *)
Definition unshift (r x : Z) : Z := Z.lxor x (Z.lxor (Z.shiftr x r) (Z.shiftr x (2 * r))).

Lemma unshift_inverse r x : 0 <= x < WORD -> 64 <= 3 * r -> unshift r (Z.lxor x (Z.shiftr x r)) = x.
Proof.
  intros Hx Hr. unfold unshift. rewrite !Z.shiftr_lxor, !Z.shiftr_shiftr by lia.
  replace (r + 2 * r) with (3 * r) by lia. replace (r + r) with (2 * r) by lia.
  assert (Z.shiftr x (3 * r) = 0) as ->.
  { rewrite Z.shiftr_div_pow2 by lia. apply Z.div_small. split; [lia|]. eapply Z.lt_le_trans; [apply Hx|].
    unfold WORD. apply Z.pow_le_mono_r; lia. }
  rewrite Z.lxor_0_r. apply Z.bits_inj'. intros n _. rewrite !Z.lxor_spec.
  by destruct (Z.testbit x n), (Z.testbit (Z.shiftr x r) n), (Z.testbit (Z.shiftr x (2 * r)) n).
Qed.

Lemma unshift_inverse' r x : 0 <= x < WORD -> 64 <= 3 * r -> Z.lxor (unshift r x) (Z.shiftr (unshift r x) r) = x.
Proof.
  intros Hx Hr. unfold unshift. rewrite !Z.shiftr_lxor, !Z.shiftr_shiftr by lia.
  replace (2 * r + r) with (3 * r) by lia. replace (r + r) with (2 * r) by lia.
  assert (Z.shiftr x (3 * r) = 0) as ->.
  { rewrite Z.shiftr_div_pow2 by lia. apply Z.div_small. split; [lia|]. eapply Z.lt_le_trans; [apply Hx|].
    unfold WORD. apply Z.pow_le_mono_r; lia. }
  rewrite Z.lxor_0_r. apply Z.bits_inj'. intros n _. rewrite !Z.lxor_spec.
  by destruct (Z.testbit x n), (Z.testbit (Z.shiftr x r) n), (Z.testbit (Z.shiftr x (2 * r)) n).
Qed.

Lemma wmul_inverse a b x : (a * b) mod WORD = 1 -> 0 <= x < WORD -> wmul (wmul x a) b = x.
Proof.
  intros Hab Hx. unfold wmul. rewrite Z.mul_mod_idemp_l by done. rewrite <- Z.mul_assoc, <- Z.mul_mod_idemp_r, Hab by done.
  rewrite Z.mul_1_r. by apply Z.mod_small.
Qed.

(** The inverse of the hash. *)
Definition unmix64 (value : Z) : Z :=
  let value := unshift 31 value in
  let value := unshift 27 (wmul value 3573116690164977347) in
  unshift 30 (wmul value 10871156337175269513).

Lemma unmix64_mix64 v : 0 <= v < WORD -> unmix64 (mix64 v) = v.
Proof.
  intros Hv. unfold unmix64, mix64. cbv zeta. rewrite (unshift_inverse 31); [|apply wmul_word|lia].
  rewrite wmul_inverse; [|done|apply lxor_word; [apply wmul_word|apply shiftr_word; [apply wmul_word|done]]].
  rewrite (unshift_inverse 27); [|apply wmul_word|lia].
  rewrite wmul_inverse; [|done|apply lxor_word; [done|by apply shiftr_word]]. by apply unshift_inverse.
Qed.

Lemma mix64_inj a b : 0 <= a < WORD -> 0 <= b < WORD -> mix64 a = mix64 b -> a = b.
Proof. intros Ha Hb E. rewrite <- (unmix64_mix64 a Ha), E. by apply unmix64_mix64. Qed.

Lemma key_for_inj seed i j :
  0 <= seed < WORD -> 0 <= i < WORD -> 0 <= j < WORD -> key_for seed i = key_for seed j -> i = j.
Proof.
  intros Hs Hi Hj E%mix64_inj; [|apply lxor_word; [done|by apply mix64_word]..].
  apply mix64_inj; [done..|]. apply (f_equal (Z.lxor seed)) in E.
  by rewrite <- !Z.lxor_assoc, !Z.lxor_nilpotent, !Z.lxor_0_l in E.
Qed.

(** ** Sizes and payloads *)

Lemma payload_sizes_bounds : Forall (fun size => 1 <= size <= 16384) payload_sizes.
Proof. by repeat constructor. Qed.

Lemma payload_size_bounds seed id : 1 <= payload_size_for seed id <= 16384.
Proof.
  unfold payload_size_for. cbv zeta. set (k := mix64 _ mod _).
  assert (Hk : 0 <= k < Z.of_nat (length payload_sizes)) by (by apply Z.mod_pos_bound). clearbody k.
  unfold array_get. rewrite (proj2 (Z.leb_le _ _)) by lia.
  destruct (lookup_lt_is_Some_2 payload_sizes (Z.to_nat k) ltac:(lia)) as [size E]. rewrite E.
  exact (Forall_lookup_1 _ _ _ _ payload_sizes_bounds E).
Qed.

Lemma fill_payload_length key size : length (fill_payload key size) = Z.to_nat size.
Proof. unfold fill_payload. by rewrite length_fmap, length_seqZ. Qed.

(** The validity test compares the payload with the one the producer writes. *)
Lemma job_valid_from_spec j index n :
  0 <= index -> index + Z.of_nat n <= Z.of_nat (length (payload j)) ->
  exists b, job_valid_from j index n = Some b /\
    (b = true <-> forall k, index <= k < index + Z.of_nat n -> array_get (payload j) k = Some (payload_byte (job_key j) k)).
Proof.
  revert index. induction n as [|n IH]; intros index Hi Hn; cbn [job_valid_from].
  - exists true. split; [done|]. split; [|done]. intros _ k Hk. lia.
  - destruct (array_get (payload j) index) as [byte|] eqn:E.
    2: { exfalso. unfold array_get in E. rewrite (proj2 (Z.leb_le _ _) Hi) in E. apply lookup_ge_None in E. lia. }
    option_step. destruct (Z.eqb_spec byte (payload_byte (job_key j) index)) as [->|Hne].
    + destruct (IH (index + 1) ltac:(lia) ltac:(lia)) as (b & -> & Hb). exists b. split; [done|]. rewrite Hb. split.
      * intros Hall k Hk. destruct (decide (k = index)) as [->|]; [done|]. apply Hall. lia.
      * intros Hall k Hk. apply Hall. lia.
    + exists false. split; [done|]. split; [done|]. intros Hall. specialize (Hall index ltac:(lia)). congruence.
Qed.

Lemma make_job_valid seed index : job_is_valid (make_job seed index) = Some true.
Proof.
  unfold job_is_valid, make_job. cbn [payload_size]. pose proof (payload_size_bounds seed index).
  set (j := Job _ _ _ _). assert (Hlen : Z.of_nat (length (payload j)) = payload_size_for seed index).
  { cbn. rewrite fill_payload_length. lia. }
  destruct (job_valid_from_spec j 0 (Z.to_nat (payload_size_for seed index))) as (b & -> & Hb); [lia|lia|].
  f_equal. apply Hb. intros k Hk. unfold array_get. rewrite (proj2 (Z.leb_le _ _)) by lia. cbn. unfold fill_payload.
  rewrite list_lookup_fmap, lookup_seqZ_lt by lia. simpl. f_equal. f_equal. lia.
Qed.

(** The hash is kept folded in proofs. *)
#[global] Opaque mix64.
