(* ===== verification/WorkerArguments.v ===== *)
(** * Command line and exit status of the worker-pool example (src/examples/worker_pool.c)

    The number and option parsers, with the part of [strtoull] they use, and the
    names and exit codes of the statuses. *)

From Stdlib Require Import Ascii String.
From stdpp Require Import strings.
From S2P Require Import Prelude.

(** ** Characters in the C locale *)

Definition char_code (c : Ascii.ascii) : Z := Z.of_nat (Ascii.nat_of_ascii c).
Definition isspace (c : Ascii.ascii) : bool := (char_code c =? 32) || ((9 <=? char_code c) && (char_code c <=? 13)).
Definition isdigit (c : Ascii.ascii) : bool := (48 <=? char_code c) && (char_code c <=? 57).
Definition digit (c : Ascii.ascii) : Z := char_code c - 48.

(** ** strtoull, base 10 *)

Fixpoint skip_spaces (text : string) : string :=
  match text with
  | String c text' => if isspace c then skip_spaces text' else text
  | EmptyString => text
  end.

(** The longest run of digits: its value on top of [value], and what follows it. *)
Fixpoint read_digits (value : Z) (text : string) : Z * string :=
  match text with
  | String c text' => if isdigit c then read_digits (value * 10 + digit c) text' else (value, text)
  | EmptyString => (value, text)
  end.

Definition starts_with_digit (text : string) : bool :=
  match text with String c _ => isdigit c | EmptyString => false end.

(** The optional sign: whether it is a minus, and what follows it. *)
Definition read_sign (body : string) : bool * string :=
  match body with
  | String c body' =>
      if Ascii.eqb c "-" then (true, body')
      else if Ascii.eqb c "+" then (false, body')
      else (false, body)
  | EmptyString => (false, body)
  end.

(** White space, an optional sign, digits: [None] when there is no conversion, and
    otherwise the result, the rest of the text, and whether [errno] is set to
    ERANGE. A minus sign negates the result in the unsigned type. *)
Definition strtoull (text : string) : option (Z * string * bool) :=
  let '(negative, body) := read_sign (skip_spaces text) in
  if starts_with_digit body then
    let '(value, rest) := read_digits 0 body in
    if SIZE_MAX <? value then Some (SIZE_MAX, rest, true)
    else Some (if negative then wsub 0 value else value, rest, false)
  else None.

(** [text[0] == c]; the text may be empty. *)
Definition first_char_is (c : ascii) (text : string) : bool :=
  match text with String c' _ => Ascii.eqb c' c | EmptyString => false end.
Definition is_empty (text : string) : bool := match text with EmptyString => true | _ => false end.

Definition parse_size (text : string) : option Z :=
  if is_empty text || first_char_is "-" text then None
  else
    match strtoull text with
    | Some (parsed, EmptyString, false) => if SIZE_MAX <? parsed then None else Some parsed
    | _ => None
    end.

Definition parse_seed (text : string) : option Z :=
  if is_empty text || first_char_is "-" text then None
  else
    match strtoull text with
    | Some (parsed, EmptyString, false) => Some parsed
    | _ => None
    end.

(** ** Options *)

Record configuration := Configuration {
  workers : Z;
  jobs : Z;
  queue_capacity : Z;
  seed : Z;
  fail_allocation_at : Z;
  fail_thread_at : Z
}.

Definition default_configuration : configuration := Configuration 4 10000 64 20260912 0 0.

(** What is printed on an error, and the three results 1, 0 and 2. *)
Inductive argument_error :=
| missing_value (name : string)
| invalid_value (name value : string)
| unknown_option (name : string)
| zero_count
| thread_index_exceeds_workers
| allocation_index_exceeds_jobs.

Inductive parse_result :=
| parse_help
| parse_failure (e : argument_error)
| parse_success (config : configuration).

Definition set_option (name value : string) (c : configuration) : option (option configuration) :=
  if decide (name = "--workers"%string) then
    Some (v ← parse_size value; Some (Configuration v (jobs c) (queue_capacity c) (seed c) (fail_allocation_at c) (fail_thread_at c)))
  else if decide (name = "--jobs"%string) then
    Some (v ← parse_size value; Some (Configuration (workers c) v (queue_capacity c) (seed c) (fail_allocation_at c) (fail_thread_at c)))
  else if decide (name = "--seed"%string) then
    Some (v ← parse_seed value; Some (Configuration (workers c) (jobs c) (queue_capacity c) v (fail_allocation_at c) (fail_thread_at c)))
  else if decide (name = "--queue-capacity"%string) then
    Some (v ← parse_size value; Some (Configuration (workers c) (jobs c) v (seed c) (fail_allocation_at c) (fail_thread_at c)))
  else if decide (name = "--fail-allocation-at"%string) then
    Some (v ← parse_size value; Some (Configuration (workers c) (jobs c) (queue_capacity c) (seed c) v (fail_thread_at c)))
  else if decide (name = "--fail-thread-at"%string) then
    Some (v ← parse_size value; Some (Configuration (workers c) (jobs c) (queue_capacity c) (seed c) (fail_allocation_at c) v))
  else None.

(** The checks after the loop. *)
Definition check_configuration (c : configuration) : parse_result :=
  if (workers c =? 0) || (queue_capacity c =? 0) then parse_failure zero_count
  else if workers c <? fail_thread_at c then parse_failure thread_index_exceeds_workers
  else if jobs c <? fail_allocation_at c then parse_failure allocation_index_exceeds_jobs
  else parse_success c.

(** The loop over [argv + 1], two arguments at a time. *)
Fixpoint parse_options (arguments : list string) (c : configuration) : parse_result :=
  match arguments with
  | [] => check_configuration c
  | name :: arguments' =>
      if decide (name = "--help"%string) then parse_help
      else match arguments' with
           | [] => parse_failure (missing_value name)
           | value :: arguments'' =>
               match set_option name value c with
               | Some (Some c') => parse_options arguments'' c'
               | Some None => parse_failure (invalid_value name value)
               | None => parse_failure (unknown_option name)
               end
           end
  end.

Definition parse_arguments (arguments : list string) : parse_result := parse_options arguments default_configuration.

(** ** Statuses *)

Inductive run_status := RUN_OK | RUN_ALLOCATION_FAILURE | RUN_THREAD_FAILURE | RUN_DATA_FAILURE | RUN_INTERNAL_ERROR.

#[export] Instance run_status_eq_dec : EqDecision run_status.
Proof. solve_decision. Defined.

Definition status_name (status : run_status) : string :=
  match status with
  | RUN_OK => "ok"
  | RUN_ALLOCATION_FAILURE => "allocation_failure"
  | RUN_THREAD_FAILURE => "thread_failure"
  | RUN_DATA_FAILURE => "data_failure"
  | _ => "internal_error"
  end.

Definition status_exit_code (status : run_status) : Z :=
  match status with
  | RUN_OK => 0
  | RUN_ALLOCATION_FAILURE => 3
  | RUN_THREAD_FAILURE => 4
  | RUN_DATA_FAILURE => 5
  | _ => 6
  end.

(** ** The language of numbers *)

Fixpoint all_chars (p : Ascii.ascii -> bool) (text : string) : bool :=
  match text with EmptyString => true | String c text' => p c && all_chars p text' end.

(** The value of a string of digits. *)
Definition decimal (digits : string) : Z := (read_digits 0 digits).1.

Inductive sign := no_sign | plus | minus.
#[export] Instance sign_eq_dec : EqDecision sign.
Proof. solve_decision. Defined.
Definition sign_text (s : sign) : string := match s with no_sign => "" | plus => "+" | minus => "-" end.

(** A text of the accepted form. *)
Record number_text (text spaces : string) (s : sign) (digits : string) : Prop := {
  nt_text : text = (spaces +:+ sign_text s +:+ digits)%string;
  nt_spaces : all_chars isspace spaces = true;
  nt_digits : all_chars isdigit digits = true;
  nt_nonempty : digits <> ""%string
}.

Definition signed (s : sign) (v : Z) : Z := match s with minus => wsub 0 v | _ => v end.

(** ** The parsers accept exactly that language *)

Lemma cons_app c (a b : string) : (String c a +:+ b = String c (a +:+ b))%string.
Proof. done. Qed.

Lemma all_chars_app p a b : all_chars p (a +:+ b) = all_chars p a && all_chars p b.
Proof. induction a as [|c a IH]; [done|]. rewrite cons_app. cbn. by rewrite IH, andb_assoc. Qed.

Lemma app_string_assoc (a b c : string) : ((a +:+ b) +:+ c = a +:+ b +:+ c)%string.
Proof. induction a as [|x a IH]; [done|]. rewrite !cons_app. f_equal. apply IH. Qed.

Lemma app_string_nil (a : string) : (a +:+ "" = a)%string.
Proof. induction a as [|x a IH]; [done|]. rewrite !cons_app. f_equal. apply IH. Qed.

Definition starts_with (p : ascii -> bool) (text : string) : bool :=
  match text with String c _ => p c | EmptyString => false end.

Lemma skip_spaces_spec text :
  exists spaces, text = (spaces +:+ skip_spaces text)%string /\ all_chars isspace spaces = true /\
    starts_with isspace (skip_spaces text) = false.
Proof.
  induction text as [|c text (spaces & E & Hs & Hn)]; cbn [skip_spaces]; [by exists ""%string|].
  destruct (isspace c) eqn:Hc; [|by exists ""%string].
  exists (String c spaces). split_and!; [rewrite cons_app; by f_equal|cbn; by rewrite Hc|done].
Qed.

Lemma skip_spaces_app spaces text :
  all_chars isspace spaces = true -> starts_with isspace text = false -> skip_spaces (spaces +:+ text)%string = text.
Proof.
  intros Hs Ht. induction spaces as [|c spaces IH].
  - destruct text as [|c text]; [done|]. change (skip_spaces (String c text) = String c text). cbn in *. by rewrite Ht.
  - rewrite cons_app. cbn in *. apply andb_prop in Hs as [-> ?]. by apply IH.
Qed.

Lemma read_digits_spec text v :
  exists digits, text = (digits +:+ (read_digits v text).2)%string /\ all_chars isdigit digits = true /\
    read_digits v digits = ((read_digits v text).1, ""%string) /\
    starts_with isdigit (read_digits v text).2 = false /\ (starts_with isdigit text = true -> digits <> ""%string).
Proof.
  revert v. induction text as [|c text IH]; intros v; cbn [read_digits]; [by exists ""%string|].
  destruct (isdigit c) eqn:Hc.
  - destruct (IH (v * 10 + digit c)) as (digits & E & Hd & Hr & Hn & _). exists (String c digits).
    split_and!; [rewrite cons_app; by f_equal|cbn; by rewrite Hc|cbn; by rewrite Hc|done|done].
  - exists ""%string. cbn. rewrite Hc. by split_and!.
Qed.

Lemma read_digits_all digits v : all_chars isdigit digits = true -> (read_digits v digits).2 = ""%string.
Proof.
  revert v. induction digits as [|c digits IH]; intros v Hd; [done|]. cbn in *. apply andb_prop in Hd as [-> Hd]. by apply IH.
Qed.

Lemma read_digits_nonneg digits v : 0 <= v -> 0 <= (read_digits v digits).1.
Proof.
  revert v. induction digits as [|c digits IH]; intros v Hv; [done|]. cbn. destruct (isdigit c) eqn:Hc; [|done].
  apply IH. unfold isdigit in Hc. apply andb_prop in Hc as [Hc _]. apply Z.leb_le in Hc. unfold digit. lia.
Qed.

Lemma decimal_nonneg digits : 0 <= decimal digits.
Proof. by apply read_digits_nonneg. Qed.

Lemma digit_not_space c : isdigit c = true -> isspace c = false /\ c <> "-"%char /\ c <> "+"%char.
Proof.
  unfold isdigit, isspace. intros [H1%Z.leb_le H2%Z.leb_le]%andb_prop. split_and!; [|by intros ->|by intros ->].
  apply orb_false_intro; [apply Z.eqb_neq; lia|]. apply andb_false_intro2, Z.leb_gt. lia.
Qed.

Lemma read_sign_spec body : exists s, body = (sign_text s +:+ (read_sign body).2)%string /\ (read_sign body).1 = bool_decide (s = minus).
Proof.
  destruct body as [|c body]; cbn [read_sign]; [by exists no_sign|].
  destruct (Ascii.eqb_spec c "-") as [->|]; [by exists minus|]. destruct (Ascii.eqb_spec c "+") as [->|]; [by exists plus|].
  by exists no_sign.
Qed.

Lemma read_sign_digits s digits :
  all_chars isdigit digits = true -> read_sign (sign_text s +:+ digits)%string = (bool_decide (s = minus), digits).
Proof.
  intros Hd. destruct s; [|done..]. change (read_sign digits = (false, digits)). destruct digits as [|c digits]; [done|].
  cbn in Hd |- *. apply andb_prop in Hd as [(_ & N1 & N2)%digit_not_space _].
  by rewrite (proj2 (Ascii.eqb_neq _ _) N1), (proj2 (Ascii.eqb_neq _ _) N2).
Qed.

Lemma number_text_read text spaces s digits :
  number_text text spaces s digits -> read_sign (skip_spaces text) = (bool_decide (s = minus), digits).
Proof.
  intros [-> Hsp Hd Hne]. rewrite skip_spaces_app; [by apply read_sign_digits|done|].
  destruct s; [|done..]. destruct digits as [|c digits]; [done|].
  change (isspace c = false). cbn in Hd.
  by apply andb_prop in Hd as [[-> _]%digit_not_space _].
Qed.

Lemma starts_with_digits digits : all_chars isdigit digits = true -> digits <> ""%string -> starts_with_digit digits = true.
Proof. destruct digits; [done|]. cbn. by intros [-> _]%andb_prop. Qed.

Lemma strtoull_number text spaces s digits :
  number_text text spaces s digits ->
  strtoull text = Some (if SIZE_MAX <? decimal digits then (SIZE_MAX, ""%string, true)
                        else (signed s (decimal digits), ""%string, false)).
Proof.
  intros Hn. unfold strtoull. rewrite (number_text_read _ _ _ _ Hn).
  rewrite starts_with_digits by apply Hn. pose proof (read_digits_all digits 0 (nt_digits _ _ _ _ Hn)) as Hr.
  unfold decimal. destruct (read_digits 0 digits) as [value rest]. cbn in Hr |- *. subst rest.
  destruct (SIZE_MAX <? value); [done|]. by destruct s.
Qed.

Lemma strtoull_whole text parsed erange :
  strtoull text = Some (parsed, ""%string, erange) -> exists spaces s digits, number_text text spaces s digits.
Proof.
  unfold strtoull. destruct (skip_spaces_spec text) as (spaces & E & Hsp & _).
  destruct (read_sign_spec (skip_spaces text)) as (s & E2 & _). destruct (read_sign (skip_spaces text)) as [negative body].
  cbn in E2. destruct (starts_with_digit body) eqn:Hb; [|done].
  destruct (read_digits_spec body 0) as (digits & E3 & Hd & _ & _ & Hne). destruct (read_digits 0 body) as [value rest].
  cbn in E3. intros Hres. assert (rest = ""%string) as -> by (destruct (SIZE_MAX <? value); by injection Hres).
  rewrite app_string_nil in E3. subst body. exists spaces, s, digits. split; [congruence|done|done|by apply Hne].
Qed.

(** What both number parsers accept. *)
Definition accepted (text : string) (v : Z) : Prop :=
  exists spaces s digits, number_text text spaces s digits /\ (s = minus -> spaces <> ""%string) /\
    decimal digits <= SIZE_MAX /\ v = signed s (decimal digits).

Lemma signed_size s v : is_size v -> is_size (signed s v).
Proof. destruct s; [done|done|]. intros _. apply wsub_range. Qed.

Lemma parse_seed_accepted text v : parse_seed text = Some v <-> accepted text v.
Proof.
  unfold parse_seed. split.
  - destruct (is_empty text || first_char_is "-" text) eqn:Hg; [done|]. apply orb_false_elim in Hg as [_ Hm].
    destruct (strtoull text) as [[[p rest] e]|] eqn:Hs; [|done]. destruct rest, e; try done. intros [= <-].
    destruct (strtoull_whole _ _ _ Hs) as (spaces & s & digits & Hn).
    rewrite (strtoull_number _ _ _ _ Hn) in Hs. destruct (Z.ltb_spec SIZE_MAX (decimal digits)); [done|]. injection Hs as <-.
    exists spaces, s, digits. split_and!; [done| |done|done]. intros -> ->. by rewrite (nt_text _ _ _ _ Hn) in Hm.
  - intros (spaces & s & digits & Hn & Hm & Hle & ->).
    rewrite (strtoull_number _ _ _ _ Hn), (proj2 (Z.ltb_ge _ _) Hle).
    assert (Hg : is_empty text || first_char_is "-" text = false); [|by rewrite Hg].
    rewrite (nt_text _ _ _ _ Hn). pose proof (nt_spaces _ _ _ _ Hn) as Hsp. pose proof (nt_digits _ _ _ _ Hn) as Hd.
    pose proof (nt_nonempty _ _ _ _ Hn). destruct spaces as [|c spaces].
    + destruct s; [|done|by destruct Hm]. destruct digits as [|c digits]; [done|]. change (Ascii.eqb c "-" = false).
      cbn in Hd. apply andb_prop in Hd as [(_ & N & _)%digit_not_space _]. by apply Ascii.eqb_neq.
    + rewrite cons_app. cbn in Hsp |- *. apply andb_prop in Hsp as [Hsp _]. apply Ascii.eqb_neq. by intros ->.
Qed.

Lemma accepted_size text v : accepted text v -> is_size v.
Proof. intros (? & s & digits & _ & _ & Hle & ->). apply signed_size. split; [apply decimal_nonneg|done]. Qed.

Lemma strtoull_size text p rest e : strtoull text = Some (p, rest, e) -> p <= SIZE_MAX.
Proof.
  unfold strtoull. destruct (read_sign _) as [negative body]. destruct (starts_with_digit body); [|done].
  destruct (read_digits 0 body) as [value r]. destruct (Z.ltb_spec SIZE_MAX value); intros [= <- _ _]; [done|].
  destruct negative; [apply wsub_range|done].
Qed.

Lemma parse_size_seed text : parse_size text = parse_seed text.
Proof.
  unfold parse_size, parse_seed. destruct (_ || _); [done|]. destruct (strtoull text) as [[[p rest] e]|] eqn:E; [|done].
  destruct rest, e; [done| |done|done]. by rewrite (proj2 (Z.ltb_ge _ _) (strtoull_size _ _ _ _ E)).
Qed.

(** ** The option loop *)

Definition option_names : list string :=
  ["--workers"; "--jobs"; "--seed"; "--queue-capacity"; "--fail-allocation-at"; "--fail-thread-at"]%string.

(** The value of the last option [name] among the pairs, or the default. *)
Fixpoint last_value (name : string) (pairs : list (string * string)) (d : Z) : Z :=
  match pairs with
  | [] => d
  | (name', text) :: pairs' => last_value name pairs' (if decide (name' = name) then default d (parse_seed text) else d)
  end.

Definition flatten (pairs : list (string * string)) : list string := pairs ≫= (fun p => [p.1; p.2]).

(** What the pairs make of a configuration. *)
Definition configured (pairs : list (string * string)) (c : configuration) : configuration :=
  Configuration (last_value "--workers" pairs (workers c)) (last_value "--jobs" pairs (jobs c))
    (last_value "--queue-capacity" pairs (queue_capacity c)) (last_value "--seed" pairs (seed c))
    (last_value "--fail-allocation-at" pairs (fail_allocation_at c)) (last_value "--fail-thread-at" pairs (fail_thread_at c)).

Definition good_option (p : string * string) : Prop := p.1 ∈ option_names /\ is_Some (parse_seed p.2).

Definition consistent (c : configuration) : Prop :=
  workers c <> 0 /\ queue_capacity c <> 0 /\ fail_thread_at c <= workers c /\ fail_allocation_at c <= jobs c.

(** One option is configured like the list of one pair, or refused. *)
Lemma set_option_spec name value c :
  match set_option name value c with
  | Some (Some c') => good_option (name, value) /\ c' = configured [(name, value)] c
  | _ => ~ good_option (name, value)
  end.
Proof.
  unfold good_option. cbn [fst snd]. unfold set_option. rewrite !parse_size_seed.
  repeat case_decide; subst; try (destruct (parse_seed value) as [v|] eqn:E; cbn;
    [split; [split; [set_solver|done]|]; unfold configured; cbn; by rewrite E|by intros [_ [v ?]]]).
  unfold option_names. set_solver.
Qed.

Lemma configured_cons p pairs c : configured (p :: pairs) c = configured pairs (configured [p] c).
Proof. by destruct p. Qed.

Lemma option_names_not_help : "--help"%string ∉ option_names.
Proof. unfold option_names. set_solver. Qed.

Lemma check_configuration_success c c' : check_configuration c = parse_success c' <-> c' = c /\ consistent c.
Proof.
  unfold check_configuration, consistent. destruct (Z.eqb_spec (workers c) 0), (Z.eqb_spec (queue_capacity c) 0),
    (Z.ltb_spec (workers c) (fail_thread_at c)), (Z.ltb_spec (jobs c) (fail_allocation_at c)); cbn; split;
    try done; intuition (try congruence; try lia).
Qed.

Lemma parse_options_success arguments c c' :
  parse_options arguments c = parse_success c' <->
  exists pairs, arguments = flatten pairs /\ Forall good_option pairs /\ c' = configured pairs c /\ consistent c'.
Proof.
  remember (length arguments) as n eqn:Hn. revert arguments c Hn.
  induction n as [n IH] using lt_wf_ind. intros arguments c ->. destruct arguments as [|name arguments]; cbn [parse_options].
  - rewrite check_configuration_success. split.
    + intros [-> Hc]. exists []. by split_and!; [|constructor|destruct c|].
    + intros ([|[] pairs] & E & _ & -> & Hc); [|done]. by destruct c.
  - case_decide as Hhelp; [|destruct arguments as [|value arguments]].
    + split; [done|]. intros ([|[n t] pairs] & E & Hf & _); [done|]. injection E as -> _. apply Forall_cons in Hf as [[Hin _] _].
      subst. by apply option_names_not_help in Hin.
    + split; [done|]. intros ([|[n t] pairs] & E & _); by inversion E.
    + pose proof (set_option_spec name value c) as Hs. destruct (set_option name value c) as [[c1|]|].
      2, 3: split; [done|]; intros ([|[n t] pairs] & E & Hf & _); [done|]; injection E as -> -> _;
        by apply Forall_cons in Hf as [? _].
      destruct Hs as [Hg ->]. rewrite (IH (length arguments)) by (cbn; lia || done). split.
      * intros (pairs & -> & Hf & -> & Hc). exists ((name, value) :: pairs). rewrite (configured_cons (name, value)).
        split_and!; [done|by constructor|done|done].
      * intros ([|[n t] pairs] & E & Hf & -> & Hc); [done|]. injection E as -> -> ->. exists pairs.
        apply Forall_cons in Hf as [_ Hf]. rewrite <- configured_cons. by split_and!.
Qed.

(** ** Well-formed configurations *)

Record configuration_wf (c : configuration) : Prop := {
  cw_workers : is_size (workers c);
  cw_jobs : is_size (jobs c);
  cw_capacity : is_size (queue_capacity c);
  cw_seed : is_size (seed c);
  cw_allocation : is_size (fail_allocation_at c);
  cw_thread : is_size (fail_thread_at c);
  cw_consistent : consistent c
}.

Lemma last_value_size name pairs d : is_size d -> is_size (last_value name pairs d).
Proof.
  revert d. induction pairs as [|[n t] pairs IH]; intros d Hd; [done|]. apply IH. case_decide; [|done].
  destruct (parse_seed t) as [v|] eqn:E; [|done]. by eapply accepted_size, parse_seed_accepted.
Qed.

Lemma parse_arguments_wf arguments c : parse_arguments arguments = parse_success c -> configuration_wf c.
Proof.
  intros (pairs & _ & _ & -> & Hc)%parse_options_success. split; [..|exact Hc]; by apply last_value_size.
Qed.
