(* ===== verification/JobQueue.v ===== *)
(** * The job queue of the worker-pool example (src/examples/worker_pool.c)

    The ring buffer under its mutex. A critical section, from the lock or the return
    from a wait to the unlock or the next wait, is one step of its thread; a thread
    blocked in a wait is on the list of the condition variable. Refinement of a
    bounded first-in first-out list. *)

From S2P Require Import Prelude LockedAllocator.

(** ** State *)

(** Threads are numbered: the producer is 0 and worker [i] is [i + 1]. *)
Record job_queue := JobQueue {
  slots : list Z;
  capacity : Z;
  q_head : Z;
  q_count : Z;
  closed : bool;
  not_empty : list nat;      (* the threads waiting on each condition variable *)
  not_full : list nat
}.

Definition set_not_empty (l : list nat) (q : job_queue) : job_queue :=
  JobQueue (slots q) (capacity q) (q_head q) (q_count q) (closed q) l (not_full q).
Definition set_not_full (l : list nat) (q : job_queue) : job_queue :=
  JobQueue (slots q) (capacity q) (q_head q) (q_count q) (closed q) (not_empty q) l.

(** After the memset, the calloc and the initialisation of mutex and conditions. *)
Definition initial_queue (n : Z) : job_queue := JobQueue (replicate (Z.to_nat n) 0) n 0 0 false [] [].

(** What the threads library and the scheduler decide in one step: whether the lock
    or wait, the signal or first broadcast, and the second broadcast succeed, and
    which of the waiting threads a signal wakes. *)
Record choices := Choices {
  call_ok : bool;
  signal_ok : bool;
  broadcast_ok : bool;
  wake : nat
}.

Definition all_ok (n : nat) : choices := Choices true true true n.

(** A call that either waits on a condition or returns. *)
Inductive waiting (A : Type) : Type :=
| Blocked
| Returned (a : A).
Arguments Blocked {A}.
Arguments Returned {A} _.

(** pthread_cond_signal: one of the waiting threads, if any, is woken. *)
Definition signalled (ch : choices) (l : list nat) : list nat :=
  if signal_ok ch then delete (wake ch mod length l)%nat l else l.

(** ** Operations *)

Definition slot_get (i : Z) : prog job_queue Z := q ← get; known (array_get (slots q) i).
Definition slot_set (i p : Z) : prog job_queue unit :=
  q ← get;
  known (array_get (slots q) i);;
  modify (fun q => JobQueue (<[Z.to_nat i := p]> (slots q)) (capacity q) (q_head q) (q_count q) (closed q) (not_empty q) (not_full q)).

(** [index % queue->capacity], undefined for a zero capacity. *)
Definition ring_index (i : Z) : prog job_queue Z :=
  q ← get; demand (capacity q <> 0);; mret (i mod capacity q).

(** queue_push from the test of its loop on. *)
Definition push_loop (me : nat) (p : Z) (ch : choices) : prog job_queue (waiting Z) :=
  q ← get;
  if (q_count q =? capacity q) && negb (closed q) then
    if call_ok ch then modify (fun q => set_not_full (me :: not_full q) q);; mret Blocked
    else mret (Returned (-1))
  else if closed q then mret (Returned 0)
  else
    i ← ring_index (wadd (q_head q) (q_count q));
    slot_set i p;;
    modify (fun q => JobQueue (slots q) (capacity q) (q_head q) (wadd (q_count q) 1) (closed q) (not_empty q) (not_full q));;
    modify (fun q => set_not_empty (signalled ch (not_empty q)) q);;
    mret (Returned 1).

Definition queue_push (me : nat) (p : Z) (ch : choices) : prog job_queue (waiting Z) :=
  if call_ok ch then push_loop me p ch else mret (Returned (-1)).

(** Removing the oldest job, as in queue_pop and queue_release_remaining. *)
Definition take_slot : prog job_queue Z :=
  q ← get;
  p ← slot_get (q_head q);
  slot_set (q_head q) 0;;
  i ← ring_index (wadd (q_head q) 1);
  modify (fun q => JobQueue (slots q) (capacity q) i (wsub (q_count q) 1) (closed q) (not_empty q) (not_full q));;
  mret p.

(** queue_pop from the test of its loop on; the result carries the job. *)
Definition pop_loop (me : nat) (ch : choices) : prog job_queue (waiting (Z * Z)) :=
  q ← get;
  if (q_count q =? 0) && negb (closed q) then
    if call_ok ch then modify (fun q => set_not_empty (me :: not_empty q) q);; mret Blocked
    else mret (Returned (-1, 0))
  else if q_count q =? 0 then mret (Returned (0, 0))
  else
    p ← take_slot;
    modify (fun q => set_not_full (signalled ch (not_full q)) q);;
    mret (Returned (1, p)).

Definition queue_pop (me : nat) (ch : choices) : prog job_queue (waiting (Z * Z)) :=
  if call_ok ch then pop_loop me ch else mret (Returned (-1, 0)).

Definition queue_close (ch : choices) : prog job_queue bool :=
  if call_ok ch then
    modify (fun q => JobQueue (slots q) (capacity q) (q_head q) (q_count q) true (not_empty q) (not_full q));;
    modify (fun q => if signal_ok ch then set_not_empty [] q else q);;
    modify (fun q => if broadcast_ok ch then set_not_full [] q else q);;
    mret (signal_ok ch && broadcast_ok ch)
  else mret false.

(** A wait may also end without a signal. *)
Definition wake_spuriously (me : nat) : prog job_queue unit :=
  modify (fun q => set_not_full (remove Nat.eq_dec me (not_full q)) (set_not_empty (remove Nat.eq_dec me (not_empty q)) q)).

(** ** The queue as a list *)

Definition contents (q : job_queue) : list Z :=
  (fun i => default 0 (array_get (slots q) ((q_head q + i) mod capacity q))) <$> seqZ 0 (q_count q).

Record queue_wf (q : job_queue) : Prop := {
  qw_slots : Z.of_nat (length (slots q)) = capacity q;
  qw_capacity : 0 < capacity q;
  qw_fits : 2 * capacity q <= SIZE_MAX;
  qw_head : 0 <= q_head q < capacity q;
  qw_count : 0 <= q_count q <= capacity q
}.

(** ** The abstract queue: a bounded first-in first-out list *)

Record fifo := Fifo { f_items : list Z; f_bound : Z; f_closed : bool }.

Definition fifo_of (q : job_queue) : fifo := Fifo (contents q) (capacity q) (closed q).

Definition fifo_push (p : Z) (f : fifo) : waiting Z * fifo :=
  if f_closed f then (Returned 0, f)
  else if Z.of_nat (length (f_items f)) <? f_bound f then (Returned 1, Fifo (f_items f ++ [p]) (f_bound f) false)
  else (Blocked, f).

Definition fifo_pop (f : fifo) : waiting (Z * Z) * fifo :=
  match f_items f with
  | p :: l => (Returned (1, p), Fifo l (f_bound f) (f_closed f))
  | [] => if f_closed f then (Returned (0, 0), f) else (Blocked, f)
  end.

Definition fifo_close (f : fifo) : fifo := Fifo (f_items f) (f_bound f) true.

(** ** Ring arithmetic *)

Section ring.
Implicit Types (q : job_queue).

Lemma contents_length q : queue_wf q -> Z.of_nat (length (contents q)) = q_count q.
Proof. intros W. unfold contents. rewrite length_fmap, length_seqZ. pose proof (qw_count _ W). lia. Qed.

Lemma contents_nil q : queue_wf q -> contents q = [] <-> q_count q = 0.
Proof.
  intros W. rewrite <- (contents_length q W). split; [by intros ->|]. intros E. apply length_zero_iff_nil. lia.
Qed.

(** Different positions of the ring are different slots. *)
Lemma ring_distinct c h i j : 0 < c -> 0 <= i < c -> 0 <= j < c -> (h + i) mod c = (h + j) mod c -> i = j.
Proof.
  intros Hc Hi Hj E. pose proof (Z.div_mod (h + i) c ltac:(lia)) as E1. pose proof (Z.div_mod (h + j) c ltac:(lia)) as E2.
  rewrite E in E1. set (a := (h + i) / c) in *. set (b := (h + j) / c) in *. set (m := (h + j) mod c) in *. clearbody a b m. clear E.
  destruct (Z.lt_trichotomy a b) as [?|[->|?]]; [|lia|]; exfalso; nia.
Qed.

Lemma slot_exists q i : queue_wf q -> 0 <= i < capacity q -> exists p, array_get (slots q) i = Some p.
Proof.
  intros W Hi. unfold array_get. rewrite (proj2 (Z.leb_le 0 i)) by lia. apply lookup_lt_is_Some. pose proof (qw_slots _ W). lia.
Qed.

Lemma array_get_set l i j p :
  0 <= i < Z.of_nat (length l) -> array_get (<[Z.to_nat i := p]> l) j = if decide (j = i) then Some p else array_get l j.
Proof.
  intros Hi. unfold array_get. destruct (Z.leb_spec 0 j); [|by rewrite decide_False by lia].
  case_decide as E; [subst; apply list_lookup_insert_eq; lia|]. apply list_lookup_insert_ne. lia.
Qed.

Lemma ring_range q i : queue_wf q -> 0 <= i mod capacity q < capacity q.
Proof. intros W. apply Z.mod_pos_bound. apply W. Qed.

Lemma wp_ring_index q i (Q : Z -> job_queue -> Prop) : queue_wf q -> Q (i mod capacity q) q -> wp (ring_index i) Q q.
Proof. intros W HQ. unfold ring_index. wp_steps; [pose proof (qw_capacity _ W); lia|done]. Qed.

Definition with_slot q i p : job_queue :=
  JobQueue (<[Z.to_nat i := p]> (slots q)) (capacity q) (q_head q) (q_count q) (closed q) (not_empty q) (not_full q).

Lemma wp_slot_set q i p (Q : unit -> job_queue -> Prop) :
  queue_wf q -> 0 <= i < capacity q -> Q tt (with_slot q i p) -> wp (slot_set i p) Q q.
Proof.
  intros W Hi HQ. destruct (slot_exists q i W Hi) as [old E]. unfold slot_set. wp_steps. eapply wp_known; [exact E|]. by wp_steps.
Qed.

Lemma with_slot_wf q i p : queue_wf q -> queue_wf (with_slot q i p).
Proof. intros [? ? ? ? ?]. split; cbn; [by rewrite length_insert|done..]. Qed.

(** ** Push *)

(** The contents after a push: one more at the end. *)
Lemma contents_push q p :
  queue_wf q -> q_count q < capacity q ->
  contents (JobQueue (<[Z.to_nat ((q_head q + q_count q) mod capacity q) := p]> (slots q)) (capacity q) (q_head q)
    (q_count q + 1) (closed q) (not_empty q) (not_full q)) = contents q ++ [p].
Proof.
  intros W Hn. pose proof (qw_count _ W). pose proof (qw_slots _ W). unfold contents. cbn.
  rewrite seqZ_app by lia. rewrite fmap_app. cbn. pose proof (ring_range q (q_head q + q_count q) W). f_equal.
  - apply list_fmap_ext. intros k x Hx. apply lookup_seqZ in Hx as [-> Hk].
    rewrite array_get_set, decide_False; [done| |lia]. intros E. apply ring_distinct in E; [lia|apply W|lia|lia].
  - rewrite Z.add_0_l, seqZ_cons by lia. cbn. by rewrite array_get_set, decide_True by (done || lia).
Qed.

Definition pushed q p w : job_queue :=
  JobQueue (<[Z.to_nat ((q_head q + q_count q) mod capacity q) := p]> (slots q)) (capacity q) (q_head q)
    (q_count q + 1) (closed q) w (not_full q).

(** What a call of queue_push does, from the test of the loop on. *)
Lemma wp_push_loop q me p ch :
  queue_wf q ->
  wp (push_loop me p ch) (fun r q' =>
    if closed q then r = Returned 0 /\ q' = q
    else if decide (q_count q = capacity q) then
      (call_ok ch = true /\ r = Blocked /\ q' = set_not_full (me :: not_full q) q) \/
      (call_ok ch = false /\ r = Returned (-1) /\ q' = q)
    else r = Returned 1 /\ q' = pushed q p (signalled ch (not_empty q))) q.
Proof.
  intros W. pose proof (qw_count _ W). pose proof (qw_head _ W). pose proof (qw_fits _ W). unfold push_loop. wp_step. wp_step.
  destruct (closed q) eqn:Hc; [rewrite andb_false_r; by wp_steps|]. rewrite andb_true_r.
  destruct (Z.eqb_spec (q_count q) (capacity q)); [destruct (call_ok ch); wp_steps; rewrite decide_True by done; [by left|by right]|].
  wp_step. apply wp_ring_index; [done|]. wp_step.
  rewrite wadd_small by lia. apply wp_slot_set; [done|by apply ring_range|]. wp_steps. rewrite decide_False by done. split; [done|].
  unfold pushed. cbn. by rewrite wadd_small by lia.
Qed.

Lemma pushed_wf q p w : queue_wf q -> q_count q < capacity q -> queue_wf (pushed q p w).
Proof. intros [? ? ? ? ?] Hn. split; cbn; [by rewrite length_insert|done|done|done|lia]. Qed.

(** ** Pop *)

Definition popped q w : job_queue :=
  JobQueue (<[Z.to_nat (q_head q) := 0]> (slots q)) (capacity q) ((q_head q + 1) mod capacity q) (q_count q - 1)
    (closed q) (not_empty q) w.

Lemma popped_wf q w : queue_wf q -> 0 < q_count q -> queue_wf (popped q w).
Proof. intros W Hn. destruct W as [? ? ? ? ?] eqn:E. split; cbn; [by rewrite length_insert|done|done|by apply ring_range|lia]. Qed.

(** The contents before a removal: the job at the head and the contents after. *)
Lemma contents_pop q w :
  queue_wf q -> 0 < q_count q -> contents q = default 0 (array_get (slots q) (q_head q)) :: contents (popped q w).
Proof.
  intros W Hn. pose proof (qw_count _ W). pose proof (qw_slots _ W). pose proof (qw_head _ W). unfold contents. cbn [popped slots q_head capacity q_count].
  rewrite seqZ_cons by lia. rewrite fmap_cons. f_equal; [rewrite Z.add_0_r, Z.mod_small by lia; done|].
  change (Z.succ 0) with (1 + 0). rewrite <- fmap_add_seqZ, <- list_fmap_compose. replace (Z.pred (q_count q)) with (q_count q - 1) by lia.
  apply list_fmap_ext. intros k x Hx. apply lookup_seqZ in Hx as [-> Hk]. cbn.
  replace (((q_head q + 1) mod capacity q + (0 + Z.of_nat k)) mod capacity q) with ((q_head q + (1 + Z.of_nat k)) mod capacity q).
  2: { rewrite Z.add_mod_idemp_l by lia. f_equal. lia. }
  rewrite array_get_set, decide_False; [f_equal; f_equal; f_equal; lia| |lia].
  intros E. rewrite <- (Z.mod_small (q_head q) (capacity q)) in E at 2 by lia. rewrite <- (Z.add_0_r (q_head q)) in E at 2.
  apply ring_distinct in E; lia.
Qed.

Lemma wp_take_slot q :
  queue_wf q -> 0 < q_count q -> wp take_slot (fun p q' => q' = popped q (not_full q) /\ contents q = p :: contents q') q.
Proof.
  intros W Hn. pose proof (qw_count _ W). pose proof (qw_head _ W). pose proof (qw_fits _ W).
  destruct (slot_exists q (q_head q) W ltac:(lia)) as [p Hp].
  unfold take_slot. wp_step. wp_step. wp_step. unfold slot_get. wp_step. wp_step. eapply wp_known; [exact Hp|]. wp_step.
  apply wp_slot_set; [done|lia|]. wp_step. apply wp_ring_index; [by apply with_slot_wf|]. wp_steps.
  assert (E : forall q', q' = popped q (not_full q) -> q' = popped q (not_full q) /\ contents q = p :: contents q').
  { intros q' ->. split; [done|]. rewrite (contents_pop q (not_full q) W Hn). by rewrite Hp. }
  apply E. unfold popped. cbn. rewrite wadd_small by lia. by rewrite wsub_small by lia.
Qed.

Lemma wp_pop_loop q me ch :
  queue_wf q ->
  wp (pop_loop me ch) (fun r q' =>
    if decide (q_count q = 0) then
      if closed q then r = Returned (0, 0) /\ q' = q
      else (call_ok ch = true /\ r = Blocked /\ q' = set_not_empty (me :: not_empty q) q) \/
           (call_ok ch = false /\ r = Returned (-1, 0) /\ q' = q)
    else exists p, r = Returned (1, p) /\ q' = popped q (signalled ch (not_full q)) /\ contents q = p :: contents q') q.
Proof.
  intros W. pose proof (qw_count _ W). unfold pop_loop. wp_step. wp_step.
  destruct (Z.eqb_spec (q_count q) 0) as [E|E].
  - destruct (closed q); cbn [negb andb]; [wp_steps; by rewrite decide_True by done|].
    destruct (call_ok ch); wp_steps; rewrite decide_True by done; [by left|by right].
  - cbn [andb]. wp_step. eapply wp_mono; [apply wp_take_slot; [done|lia]|].
    intros p q' [-> Hc]. wp_steps. rewrite decide_False by done. exists p. split_and!; [done|done|]. by rewrite Hc.
Qed.
End ring.
