(* ===== verification/WorkerPool.v ===== *)
(** * The worker pool (src/examples/worker_pool.c, main and worker_main)

    The producer (main) and its workers as a state machine. A step is what a thread
    does between two accesses to shared state: one critical section of the queue, the
    processing of one job that the worker owns, the creation or the join of one
    thread. The scheduler and the environment choose the order of steps and the
    outcome of every library call. *)

From S2P Require Import Prelude LockedAllocator WorkerJob WorkerArguments JobQueue.

(** ** State *)

Record worker_result := WorkerResult {
  consumed : Z;
  duplicate_jobs : Z;
  invalid_jobs : Z;
  checksum : Z;
  queue_error : bool
}.

Definition zero_result : worker_result := WorkerResult 0 0 0 0 false.

(** Where a worker stands in worker_main. *)
Inductive worker_point :=
| at_pop                       (* before the lock in queue_pop *)
| at_pop_wait                  (* in the wait of queue_pop *)
| at_job (job : Z)             (* holding a job *)
| at_close                     (* before the queue_close after an error *)
| at_flush
| at_return.

#[export] Instance worker_point_eq_dec : EqDecision worker_point.
Proof. solve_decision. Defined.

Record worker := Worker { point : worker_point; result : worker_result }.

Record report := Report {
  r_status : run_status;
  r_workers_started : Z;
  r_jobs_produced : Z;
  r_jobs_consumed : Z;
  r_allocation_attempts : Z;
  r_expected_checksum : Z;
  r_checksum : Z;
  r_duplicate_jobs : Z;
  r_invalid_jobs : Z;
  r_missing_jobs : Z;
  r_abandoned_jobs : Z
}.

(** Where main stands; the loops carry their index. *)
Inductive main_point :=
| at_create (index : Z)
| at_produce (index : Z)
| at_push (index job sum : Z)        (* before the lock in queue_push *)
| at_push_wait (index job sum : Z)   (* in the wait of queue_push *)
| at_queue_close
| at_join (index : Z)
| at_collect
| at_exit (r : report).

Record pool := Pool {
  queue : job_queue;
  heap : gmap Z job;               (* the jobs that are allocated, by address *)
  seen : list Z;
  threads : list worker;           (* the workers started *)
  main : main_point;
  status : run_status;
  expected_checksum : Z;
  allocation_attempts : Z;
  jobs_produced : Z;
  all_joined : bool
}.

Definition set_queue (q : job_queue) (s : pool) : pool :=
  Pool q (heap s) (seen s) (threads s) (main s) (status s) (expected_checksum s) (allocation_attempts s) (jobs_produced s) (all_joined s).
Definition set_heap (h : gmap Z job) (s : pool) : pool :=
  Pool (queue s) h (seen s) (threads s) (main s) (status s) (expected_checksum s) (allocation_attempts s) (jobs_produced s) (all_joined s).
Definition set_seen (l : list Z) (s : pool) : pool :=
  Pool (queue s) (heap s) l (threads s) (main s) (status s) (expected_checksum s) (allocation_attempts s) (jobs_produced s) (all_joined s).
Definition set_threads (l : list worker) (s : pool) : pool :=
  Pool (queue s) (heap s) (seen s) l (main s) (status s) (expected_checksum s) (allocation_attempts s) (jobs_produced s) (all_joined s).
Definition set_main (m : main_point) (s : pool) : pool :=
  Pool (queue s) (heap s) (seen s) (threads s) m (status s) (expected_checksum s) (allocation_attempts s) (jobs_produced s) (all_joined s).
Definition set_status (r : run_status) (s : pool) : pool :=
  Pool (queue s) (heap s) (seen s) (threads s) (main s) r (expected_checksum s) (allocation_attempts s) (jobs_produced s) (all_joined s).
Definition set_counters (sum attempts produced : Z) (s : pool) : pool :=
  Pool (queue s) (heap s) (seen s) (threads s) (main s) (status s) sum attempts produced (all_joined s).
Definition set_all_joined (b : bool) (s : pool) : pool :=
  Pool (queue s) (heap s) (seen s) (threads s) (main s) (status s) (expected_checksum s) (allocation_attempts s) (jobs_produced s) b.

Definition on_queue {A} (p : prog job_queue A) : prog pool A := zoom queue set_queue p.

(** The worker threads' number for the queue. *)
Definition thread_id (i : nat) : nat := Datatypes.S i.
Definition main_id : nat := 0.

(** ** Allocation of jobs

    worker_allocate is the adapter's allocator: it returns null or an address that is
    not in use, as the environment decides; worker_deallocate of anything but an
    allocated job is undefined. *)

Definition worker_deallocate (p : Z) : prog pool unit :=
  s ← get; known (heap s !! p);; modify (fun s => set_heap (delete p (heap s)) s).

(** ** Workers *)

Section code.
Variable config : configuration.

Definition set_worker (i : nat) (w : worker) : prog pool unit := modify (fun s => set_threads (<[i := w]> (threads s)) s).

Definition count_invalid (r : worker_result) : worker_result :=
  WorkerResult (consumed r) (duplicate_jobs r) (wadd (invalid_jobs r) 1) (checksum r) (queue_error r).
Definition count_duplicate (r : worker_result) : worker_result :=
  WorkerResult (consumed r) (wadd (duplicate_jobs r) 1) (invalid_jobs r) (checksum r) (queue_error r).
Definition count_consumed (sum : Z) (r : worker_result) : worker_result :=
  WorkerResult (wadd (consumed r) 1) (duplicate_jobs r) (invalid_jobs r) (wadd (checksum r) sum) (queue_error r).
Definition record_error (r : worker_result) : worker_result :=
  WorkerResult (consumed r) (duplicate_jobs r) (invalid_jobs r) (checksum r) true.

(** The exchange on the job's mark. *)
Definition mark_seen (j : job) (r : worker_result) : prog pool worker_result :=
  if jobs config <=? job_id j then mret (count_invalid r)
  else
    s ← get;
    old ← known (array_get (seen s) (job_id j));
    modify (fun s => set_seen (<[Z.to_nat (job_id j) := 1]> (seen s)) s);;
    mret (if old =? 0 then r else count_duplicate r).

(** The body of the loop once a job is popped. *)
Definition process (p : Z) (r : worker_result) : prog pool worker_result :=
  s ← get;
  j ← known (heap s !! p);
  r1 ← mark_seen j r;
  valid ← known (job_is_valid j);
  worker_deallocate p;;
  mret (count_consumed (job_checksum j) (if (valid : bool) then r1 else count_invalid r1)).

(** What worker [i] does with the result of queue_pop. *)
Definition after_pop (i : nat) (r : worker_result) (popped : waiting (Z * Z)) : prog pool unit :=
  match popped with
  | Blocked => set_worker i (Worker at_pop_wait r)
  | Returned (code, p) =>
      if code =? 0 then set_worker i (Worker at_flush r)
      else if code <? 0 then
        set_worker i (Worker at_close (record_error r))
      else set_worker i (Worker (at_job p) r)
  end.

(** One step of worker [i]; false when the thread is blocked or has returned. *)
Definition worker_main (i : nat) (ch : choices) : prog pool bool :=
  s ← get;
  match threads s !! i with
  | None => mret false
  | Some (Worker pt r) =>
      match pt with
      | at_pop => x ← on_queue (queue_pop (thread_id i) ch); after_pop i r x;; mret true
      | at_pop_wait =>
          if decide (thread_id i ∈ not_empty (queue s)) then mret false
          else x ← on_queue (pop_loop (thread_id i) ch); after_pop i r x;; mret true
      | at_job p => r' ← process p r; set_worker i (Worker at_pop r');; mret true
      | at_close => on_queue (queue_close ch);; set_worker i (Worker at_flush r);; mret true
      | at_flush => set_worker i (Worker at_return r);; mret true
      | at_return => mret false
      end
  end.

(** ** The producer *)

(** What main does with the result of queue_push. *)
Definition after_push (index p sum : Z) (pushed : waiting Z) : prog pool unit :=
  match pushed with
  | Blocked => modify (set_main (at_push_wait index p sum))
  | Returned code =>
      if code =? 1 then
        modify (fun s => set_counters (wadd (expected_checksum s) sum) (allocation_attempts s) (wadd (jobs_produced s) 1) s);;
        modify (set_main (at_produce (index + 1)))
      else
        worker_deallocate p;;
        modify (set_status RUN_INTERNAL_ERROR);;
        modify (set_main at_queue_close)
  end.

(** Ending the production with a status. *)
Definition stop_with (r : run_status) : prog pool unit :=
  modify (set_status r);; modify (set_main at_queue_close).

(** One turn of the creation loop. *)
Definition create_step (index : Z) (ch : choices) : prog pool bool :=
  if index <? workers config then
    if fail_thread_at config =? index + 1 then stop_with RUN_THREAD_FAILURE;; mret true
    else if call_ok ch then
      modify (fun s => set_threads (threads s ++ [Worker at_pop zero_result]) s);;
      modify (set_main (at_create (index + 1)));; mret true
    else stop_with RUN_THREAD_FAILURE;; mret true
  else modify (set_main (at_produce 0));; mret true.

(** One turn of the production loop up to the push; [address] is what the allocation
    returns. An address in use is no possible step. *)
Definition produce_step (index address : Z) : prog pool bool :=
  s ← get;
  if index <? jobs config then if decide (is_Some (heap s !! address)) then mret false else
    modify (fun s => set_counters (expected_checksum s) (wadd (allocation_attempts s) 1) (jobs_produced s) s);;
    s ← get;
    if fail_allocation_at config =? allocation_attempts s then stop_with RUN_ALLOCATION_FAILURE;; mret true
    else if SIZE_MAX - sizeof_job <? payload_size_for (seed config) index then stop_with RUN_INTERNAL_ERROR;; mret true
    else if address =? 0 then stop_with RUN_ALLOCATION_FAILURE;; mret true
    else
      let j := make_job (seed config) index in
      modify (fun s => set_heap (<[address := j]> (heap s)) s);;
      modify (set_main (at_push index address (job_checksum j)));; mret true
  else modify (set_main at_queue_close);; mret true.

(** *** Collecting the results *)

Definition total (f : worker_result -> Z) (l : list worker) : Z := foldl (fun a w => wadd a (f (result w))) 0 l.

(** The jobs below [n] that no worker has seen. *)
Fixpoint missing_jobs (l : list Z) (index : Z) (n : nat) : option Z :=
  match n with
  | O => Some 0
  | Datatypes.S n' =>
      mark ← array_get l index;
      rest ← missing_jobs l (index + 1) n';
      Some (if mark =? 0 then wadd rest 1 else rest)
  end.

(** queue_release_remaining: [inl] is one more turn. *)
Definition release_step (released : Z) : prog pool (Z + Z) :=
  s ← get;
  if q_count (queue s) =? 0 then mret (inr released)
  else
    p ← on_queue take_slot;
    worker_deallocate p;;
    mret (inl (wadd released 1)).

Definition queue_release_remaining : prog pool Z :=
  s ← get; iterate (Datatypes.S (Z.to_nat (q_count (queue s)))) release_step 0.

(** After the joins: the totals, the verdict and the report. *)
Definition collect : prog pool report :=
  s ← get;
  if all_joined s then
    let consumed_total := total consumed (threads s) in
    let duplicates := total duplicate_jobs (threads s) in
    let invalid := total invalid_jobs (threads s) in
    let observed := total checksum (threads s) in
    (if existsb (fun w => queue_error (result w)) (threads s) then modify (set_status RUN_INTERNAL_ERROR) else mret tt);;
    missing ← known (missing_jobs (seen s) 0 (Z.to_nat (jobs_produced s)));
    abandoned ← queue_release_remaining;
    (if negb (consumed_total =? jobs_produced s) || negb (duplicates =? 0) || negb (invalid =? 0) || negb (missing =? 0)
        || negb (abandoned =? 0) || negb (observed =? expected_checksum s)
     then modify (set_status RUN_DATA_FAILURE) else mret tt);;
    s ← get;
    mret (Report (status s) (Z.of_nat (length (threads s))) (jobs_produced s) consumed_total (allocation_attempts s)
            (expected_checksum s) observed duplicates invalid missing abandoned)
  else
    mret (Report (status s) (Z.of_nat (length (threads s))) (jobs_produced s) 0 (allocation_attempts s)
            (expected_checksum s) 0 0 0 0 0).

(** One step of main; false when it is blocked or has returned. *)
Definition main_step (address : Z) (ch : choices) : prog pool bool :=
  s ← get;
  match main s with
  | at_create index => create_step index ch
  | at_produce index => produce_step index address
  | at_push index p sum => x ← on_queue (queue_push main_id p ch); after_push index p sum x;; mret true
  | at_push_wait index p sum =>
      if decide (main_id ∈ not_full (queue s)) then mret false
      else x ← on_queue (push_loop main_id p ch); after_push index p sum x;; mret true
  | at_queue_close =>
      ok ← on_queue (queue_close ch);
      (if negb ok && bool_decide (status s = RUN_OK) then modify (set_status RUN_INTERNAL_ERROR) else mret tt);;
      modify (set_main (at_join 0));; mret true
  | at_join index =>
      if index <? Z.of_nat (length (threads s)) then
        if call_ok ch then
          match threads s !! Z.to_nat index with
          | Some (Worker at_return _) => modify (set_main (at_join (index + 1)));; mret true
          | _ => mret false
          end
        else modify (set_all_joined false);; modify (set_status RUN_INTERNAL_ERROR);;
             modify (set_main (at_join (index + 1)));; mret true
      else modify (set_main at_collect);; mret true
  | at_collect => r ← collect; modify (set_main (at_exit r));; mret true
  | at_exit _ => mret false
  end.

(** ** Runs *)

Inductive pool_event :=
| main_event (address : Z) (ch : choices)
| worker_event (i : nat) (ch : choices)
| spurious_wakeup (thread : nat).

(** The process ends when main returns. *)
Definition exited (s : pool) : bool := match main s with at_exit _ => true | _ => false end.

Definition pool_step (e : pool_event) : prog pool bool :=
  s ← get;
  if exited s then mret false
  else
    match e with
    | main_event address ch => main_step address ch
    | worker_event i ch => worker_main i ch
    | spurious_wakeup t => on_queue (wake_spuriously t);; mret true
    end.

Fixpoint pool_run (events : list pool_event) : prog pool unit :=
  match events with
  | [] => mret tt
  | e :: events' => pool_step e;; pool_run events'
  end.

(** The state after the initialisations in main. *)
Definition initial_pool : pool :=
  Pool (initial_queue (queue_capacity config)) ∅ (replicate (Z.to_nat (jobs config)) 0) [] (at_create 0) RUN_OK 0 0 0 true.
End code.

(** ** Start-up of main *)

(** What happens before the threads start: an exit code, or the pool. *)
Definition sizeof_pthread : Z := 8.
Definition sizeof_worker_context : Z := 64.

(** [allocated] tells whether the four allocations and the initialisations of mutex
    and conditions succeed; calloc fails when the product overflows. *)
Definition main_start (arguments : list String.string) (allocated : bool) : Z + (configuration * pool) :=
  match parse_arguments arguments with
  | parse_help => inl 0
  | parse_failure _ => inl 2
  | parse_success config =>
      if (SIZE_MAX / sizeof_pthread <? workers config) || (SIZE_MAX / sizeof_worker_context <? workers config)
         || (SIZE_MAX / 1 <? jobs config) then inl 2
      else if negb allocated || (SIZE_MAX <? queue_capacity config * 8) then inl 6
      else inr (config, initial_pool config)
  end.

(** The value main returns. *)
Definition exit_code (s : pool) : option Z :=
  match main s with at_exit r => Some (status_exit_code (r_status r)) | _ => None end.
