(* ===== verification/PoolSpec.v ===== *)
(** * The worker pool's accounts

    The invariant of the pool under any schedule and any failures of the library: each
    allocated job is in exactly one place, each produced job is in flight or done
    exactly once, and the counters and checksums say what was done. *)

From S2P Require Import Prelude LockedAllocator WorkerJob WorkerArguments JobQueue WorkerPool.

(** ** Lists and sums *)

Lemma bind_update {A B} (f : A -> list B) l i x :
  l !! i = Some x -> exists rest, l ≫= f ≡ₚ f x ++ rest /\ forall y, <[i := y]> l ≫= f ≡ₚ f y ++ rest.
Proof.
  intros Hi. exists ((take i l ≫= f) ++ (drop (S i) l ≫= f)). assert (Hlt : (i < length l)%nat) by (by eapply lookup_lt_Some).
  split.
  - rewrite <- (take_drop_middle l i x Hi) at 1. rewrite bind_app, bind_cons. solve_Permutation.
  - intros y. rewrite (insert_take_drop l i y Hlt), bind_app, bind_cons. solve_Permutation.
Qed.

Definition Zsum (l : list Z) : Z := foldr Z.add 0 l.

Lemma Zsum_app a b : Zsum (a ++ b) = Zsum a + Zsum b.
Proof. unfold Zsum. induction a as [|x a IH]; simpl; [done|]. rewrite IH. lia. Qed.

#[export] Instance Zsum_perm : Proper (Permutation ==> eq) Zsum.
Proof. intros a b Hp. unfold Zsum. induction Hp; simpl; lia. Qed.

Lemma Zsum_update {A} (f : A -> Z) l i x y :
  l !! i = Some x -> Zsum (f <$> <[i := y]> l) = Zsum (f <$> l) - f x + f y.
Proof.
  intros Hi. assert (E : forall l', f <$> l' = l' ≫= fun w => [f w]) by (intros l'; induction l'; csimpl; congruence).
  rewrite !E. destruct (bind_update (fun w => [f w]) l i x Hi) as (rest & H1 & H2). rewrite H1, H2, !Zsum_app. cbn. lia.
Qed.

Lemma Zsum_zero {A} (f : A -> Z) (l : list A) : Forall (fun w => f w = 0) l -> Zsum (f <$> l) = 0.
Proof. induction 1 as [|w l Hw _ IH]; [done|]. csimpl. rewrite Hw, IH. done. Qed.

Lemma Zsum_nonneg {A} (f : A -> Z) (l : list A) : Forall (fun w => 0 <= f w) l -> 0 <= Zsum (f <$> l).
Proof. induction 1 as [|w l Hw _ IH]; [done|]. csimpl. lia. Qed.

Lemma Zsum_part {A} (f : A -> Z) l i x :
  Forall (fun w => 0 <= f w) l -> l !! i = Some x -> f x <= Zsum (f <$> l).
Proof.
  intros Hf. revert i. induction Hf as [|w l Hw Hl IH]; intros [|i] Hi; [done|done|injection Hi as ->|]; csimpl.
  - pose proof (Zsum_nonneg f l Hl). lia.
  - specialize (IH i Hi). lia.
Qed.

Lemma total_sum (f : worker_result -> Z) (l : list worker) : total f l = Zsum ((fun w => f (result w)) <$> l) mod WORD.
Proof.
  unfold total. change (Zsum ((fun w => f (result w)) <$> l)) with (0 + Zsum ((fun w => f (result w)) <$> l)).
  assert (G : forall l a, 0 <= a < WORD -> foldl (fun a w => wadd a (f (result w))) a l = (a + Zsum ((fun w => f (result w)) <$> l)) mod WORD).
  { clear. induction l as [|w l IH]; intros a Ha; csimpl; [by rewrite Z.add_0_r, Z.mod_small|].
    rewrite IH by (apply Z.mod_pos_bound, WORD_pos). unfold wadd. rewrite Z.add_mod_idemp_l by done. f_equal. lia. }
  by apply G.
Qed.

Lemma Forall_same {A B} (g : A -> B) (P : B -> Prop) (l l' : list A) :
  g <$> l' = g <$> l -> Forall (fun w => P (g w)) l -> Forall (fun w => P (g w)) l'.
Proof.
  revert l'. induction l as [|x l IH]; intros [|y l'] E Hl; [done..|]. apply Forall_cons in Hl as [Hx Hl].
  injection E as E1 E2. constructor; [congruence|by apply IH].
Qed.

Lemma seqZ_single n : seqZ n 1 = [n].
Proof. by rewrite seqZ_cons by lia. Qed.

(** ** The invariant *)

Section spec.
Variable config : configuration.
Implicit Types (s : pool) (F : list (Z * Z)) (D : list Z).

Definition job_sum (id : Z) : Z := job_checksum (make_job (seed config) id).

(** The jobs a thread holds. *)
Definition held (w : worker) : list Z := match point w with at_job p => [p] | _ => [] end.
Definition main_held (m : main_point) : list Z :=
  match m with at_push _ p _ | at_push_wait _ p _ => [p] | _ => [] end.

(** [F]: the jobs in flight, address and number; [D]: the numbers of the jobs done. *)
Record in_flight s F D : Prop := {
  fl_places : F.*1 ≡ₚ contents (queue s) ++ (threads s ≫= held);
  fl_jobs : Forall (fun x => heap s !! x.1 = Some (make_job (seed config) x.2)) F;
  fl_heap : forall p, is_Some (heap s !! p) <-> p ∈ F.*1 ++ main_held (main s);
  fl_nodup : NoDup (F.*1 ++ main_held (main s));
  fl_numbers : D ++ F.*2 ≡ₚ seqZ 0 (jobs_produced s)
}.

(** What the workers recorded. *)
Record results_ok s D : Prop := {
  ro_marks : Z.of_nat (length (seen s)) = jobs config;
  ro_seen : forall i, 0 <= i < jobs config -> array_get (seen s) i = Some (if decide (i ∈ D) then 1 else 0);
  ro_counted : Forall (fun w => 0 <= consumed (result w)) (threads s);
  ro_consumed : Zsum ((fun w => consumed (result w)) <$> threads s) = Z.of_nat (length D);
  ro_checksum : Zsum ((fun w => checksum (result w)) <$> threads s) mod WORD = Zsum (job_sum <$> D) mod WORD;
  ro_clean : Forall (fun w => duplicate_jobs (result w) = 0 /\ invalid_jobs (result w) = 0) (threads s)
}.

Definition returned_below s (n : Z) : Prop :=
  forall k w, threads s !! k = Some w -> Z.of_nat k < n -> point w = at_return.

(** The verdict so far: [RUN_OK] only when every job was produced. *)
Definition verdict_ok s : Prop :=
  status s <> RUN_DATA_FAILURE /\ (status s = RUN_OK -> jobs_produced s = jobs config).

Definition point_ok s : Prop :=
  match main s with
  | at_create index => index = Z.of_nat (length (threads s)) /\ jobs_produced s = 0 /\ status s = RUN_OK /\ all_joined s = true
  | at_produce index => index = jobs_produced s /\ status s = RUN_OK /\ all_joined s = true
  | at_push index p sum | at_push_wait index p sum =>
      index = jobs_produced s /\ index < jobs config /\ heap s !! p = Some (make_job (seed config) index) /\
      sum = job_sum index /\ status s = RUN_OK /\ all_joined s = true
  | at_queue_close => verdict_ok s /\ all_joined s = true
  | at_join index =>
      verdict_ok s /\ 0 <= index /\ (if all_joined s then returned_below s index else status s = RUN_INTERNAL_ERROR)
  | at_collect =>
      verdict_ok s /\ (if all_joined s then returned_below s (Z.of_nat (length (threads s))) else status s = RUN_INTERNAL_ERROR)
  | at_exit _ => False
  end.

Record pool_inv s F D : Prop := {
  pi_queue : queue_wf (queue s);
  pi_flight : in_flight s F D;
  pi_results : results_ok s D;
  pi_produced : 0 <= jobs_produced s <= jobs config;
  pi_expected : expected_checksum s = Zsum (job_sum <$> seqZ 0 (jobs_produced s)) mod WORD;
  pi_point : point_ok s
}.

(** ** Frames *)

Lemma in_flight_same s s' F D :
  in_flight s F D -> contents (queue s') = contents (queue s) -> (threads s' ≫= held) ≡ₚ (threads s ≫= held) ->
  heap s' = heap s -> main_held (main s') = main_held (main s) -> jobs_produced s' = jobs_produced s -> in_flight s' F D.
Proof. intros [? ? ? ? ?] Hc Ht Hh Hm Hp. split; rewrite ?Hh, ?Hm, ?Hp; [by rewrite Hc, Ht|done..]. Qed.

(** The counters of a result, without the error flag. *)
Definition counters (r : worker_result) : Z * Z * Z * Z := (consumed r, duplicate_jobs r, invalid_jobs r, checksum r).

Lemma results_ok_same s s' D :
  results_ok s D -> seen s' = seen s -> (fun w => counters (result w)) <$> threads s' = (fun w => counters (result w)) <$> threads s ->
  results_ok s' D.
Proof.
  intros [H1 H2 H3 H4 H5 H6] Hs Ht.
  assert (Hf : forall A (f : Z * Z * Z * Z -> A),
    (fun w => f (counters (result w))) <$> threads s' = (fun w => f (counters (result w))) <$> threads s).
  { intros A f. by rewrite (list_fmap_compose (fun w => counters (result w)) f), Ht, <- list_fmap_compose. }
  pose proof (Hf Z (fun c => c.1.1.1)) as E1. pose proof (Hf Z (fun c => c.2)) as E4. pose proof (Hf _ id) as E. cbn in E1, E4, E.
  split; rewrite ?Hs, ?E1, ?E4; [done|done| |done|done|].
  - exact (Forall_same _ (fun c => 0 <= c.1.1.1) _ _ Ht H3).
  - exact (Forall_same _ (fun c => c.1.1.2 = 0 /\ c.1.2 = 0) _ _ Ht H6).
Qed.

Lemma returned_below_insert s s' i w w' n :
  returned_below s n -> threads s !! i = Some w -> point w <> at_return -> threads s' = <[i := w']> (threads s) -> returned_below s' n.
Proof.
  intros Hr Hi Hw Ht k x. rewrite Ht. destruct (decide (k = i)) as [->|Hne].
  - intros _ Hlt. destruct Hw. by eapply Hr.
  - rewrite list_lookup_insert_ne by done. apply Hr.
Qed.

(** A step of worker [i] leaves the producer where it is. *)
Lemma point_ok_worker s s' i w w' :
  point_ok s -> threads s !! i = Some w -> point w <> at_return -> threads s' = <[i := w']> (threads s) ->
  main s' = main s -> status s' = status s -> all_joined s' = all_joined s -> jobs_produced s' = jobs_produced s ->
  (forall p, p ∈ main_held (main s) -> heap s' !! p = heap s !! p) -> point_ok s'.
Proof.
  intros Hp Hi Hw Ht Hm Hst Hj Hn Hh.
  assert (Hr : forall n, returned_below s n -> returned_below s' n) by (intros n ?; by eapply returned_below_insert).
  unfold point_ok, verdict_ok in *. rewrite Hm, Hst, Hj, Hn. destruct (main s); cbn [main_held] in Hh.
  - by rewrite Ht, length_insert.
  - done.
  - destruct Hp as (? & ? & E & ?). rewrite Hh by set_solver. done.
  - destruct Hp as (? & ? & E & ?). rewrite Hh by set_solver. done.
  - done.
  - destruct Hp as ([? ?] & ? & ?). split_and!; [done..|]. destruct (all_joined s); auto.
  - destruct Hp as ([? ?] & ?). split; [by split|]. rewrite Ht, length_insert. destruct (all_joined s); auto.
  - done.
Qed.

(** A worker moves on without taking or finishing a job. *)
Lemma inv_worker s F D i w w' q :
  pool_inv s F D -> threads s !! i = Some w -> point w <> at_return -> held w' = held w ->
  counters (result w') = counters (result w) -> queue_wf q -> contents q = contents (queue s) ->
  pool_inv (set_threads (<[i := w']> (threads s)) (set_queue q s)) F D.
Proof.
  intros I Hi Hw Hh Hc Wq Eq. split.
  - done.
  - eapply in_flight_same; [apply I|done| |done..]. cbn. destruct (bind_update held _ _ _ Hi) as (rest & H1 & H2).
    by rewrite H1, H2, Hh.
  - eapply results_ok_same; [apply I|done|]. cbn. rewrite list_fmap_insert, Hc.
    apply list_insert_id. by rewrite list_lookup_fmap, Hi.
  - apply I.
  - apply I.
  - eapply (point_ok_worker s _ i w w'); [apply I|done..].
Qed.

Lemma inv_queue s F D q :
  pool_inv s F D -> queue_wf q -> contents q = contents (queue s) -> pool_inv (set_queue q s) F D.
Proof.
  intros I Wq Eq. split; [done| | |apply I|apply I|].
  - by eapply in_flight_same; [apply I|..].
  - by eapply results_ok_same; [apply I|..].
  - pose proof (pi_point _ _ _ I) as Hp. exact Hp.
Qed.

(** A worker takes the oldest job of the queue. *)
Lemma inv_pop s F D i w q p r :
  pool_inv s F D -> threads s !! i = Some w -> point w <> at_return -> held w = [] -> counters r = counters (result w) ->
  queue_wf q -> contents (queue s) = p :: contents q ->
  pool_inv (set_threads (<[i := Worker (at_job p) r]> (threads s)) (set_queue q s)) F D.
Proof.
  intros I Hi Hw Hh Hc Wq Eq. split.
  - done.
  - destruct (pi_flight _ _ _ I) as [H1 H2 H3 H4 H5]. split; [|done..]. cbn.
    destruct (bind_update held _ _ _ Hi) as (rest & E1 & E2). rewrite H1, Eq, E1, E2, Hh. cbn. solve_Permutation.
  - eapply results_ok_same; [apply I|done|]. cbn. rewrite list_fmap_insert. cbn. rewrite Hc.
    apply list_insert_id. by rewrite list_lookup_fmap, Hi.
  - apply I.
  - apply I.
  - eapply (point_ok_worker s _ i w); [apply I|done..].
Qed.

(** ** Processing *)

(** The job a worker holds: one of those in flight. *)
Lemma held_job s F D i w p :
  pool_inv s F D -> threads s !! i = Some w -> held w = [p] ->
  exists id F', F ≡ₚ (p, id) :: F' /\ heap s !! p = Some (make_job (seed config) id) /\ (id ∉ D) /\ 0 <= id < jobs_produced s.
Proof.
  intros I Hi Hw. destruct (pi_flight _ _ _ I) as [H1 H2 H3 H4 H5].
  assert (Hp : p ∈ F.*1).
  { rewrite H1. apply elem_of_app. right. destruct (bind_update held _ _ _ Hi) as (rest & E & _). rewrite E, Hw. left. }
  apply list_elem_of_fmap in Hp as ([p' id] & -> & Hin). cbn.
  assert (Hid : id ∈ F.*2) by (by apply (list_elem_of_fmap_2 snd) in Hin).
  apply elem_of_Permutation in Hin as [F' HF]. exists id, F'. split_and!; [done| | | |].
  - rewrite HF in H2. apply Forall_cons in H2 as [Hj _]. exact Hj.
  - intros HD. assert (Hnd : NoDup (D ++ F.*2)) by (rewrite H5; apply NoDup_seqZ).
    apply NoDup_app in Hnd as (_ & Hd & _). by apply (Hd id).
  - assert (Hs : id ∈ seqZ 0 (jobs_produced s)) by (rewrite <- H5; apply elem_of_app; by right). apply elem_of_seqZ in Hs. lia.
  - assert (Hs : id ∈ seqZ 0 (jobs_produced s)) by (rewrite <- H5; apply elem_of_app; by right). apply elem_of_seqZ in Hs. lia.
Qed.

Definition processed s p id : pool :=
  set_heap (delete p (heap s)) (set_seen (<[Z.to_nat id := 1]> (seen s)) s).

Lemma wp_process s F D i w p :
  pool_inv s F D -> threads s !! i = Some w -> held w = [p] ->
  wp (process config p (result w)) (fun r s' => exists id F', F ≡ₚ (p, id) :: F' /\ (id ∉ D) /\ 0 <= id < jobs_produced s /\
    r = count_consumed (job_sum id) (result w) /\ s' = processed s p id) s.
Proof.
  intros I Hi Hw. destruct (held_job _ _ _ _ _ _ I Hi Hw) as (id & F' & HF & Hj & HD & Hid).
  pose proof (pi_produced _ _ _ I). pose proof (ro_seen _ _ (pi_results _ _ _ I) id ltac:(lia)) as Hs. rewrite decide_False in Hs by done.
  pose proof (make_job_valid (seed config) id) as Hv. assert (Hn : job_id (make_job (seed config) id) = id) by done.
  assert (Hsum : job_checksum (make_job (seed config) id) = job_sum id) by (by unfold job_sum).
  generalize dependent (make_job (seed config) id). intros j Hj Hv Hn Hsum.
  unfold process. wp_step. wp_step. wp_step. eapply wp_known; [exact Hj|]. unfold mark_seen. rewrite Hn.
  rewrite (proj2 (Z.leb_gt _ _)) by lia. wp_step. wp_step. wp_step. wp_step. eapply wp_known; [exact Hs|]. wp_steps.
  eapply wp_known; [exact Hv|]. wp_step. unfold worker_deallocate. wp_step. wp_step. wp_step.
  eapply wp_known; [exact Hj|]. wp_steps. exists id, F'. split_and!; [done|done|lia|lia|by rewrite Hsum|done].
Qed.

(** The number of jobs is a [size_t]. *)
Hypothesis jobs_size : is_size (jobs config).

(** A worker finishes its job. *)
Lemma inv_processed s F F' D i w p id :
  pool_inv s F D -> threads s !! i = Some w -> held w = [p] -> F ≡ₚ (p, id) :: F' -> id ∉ D -> 0 <= id < jobs_produced s ->
  pool_inv (set_threads (<[i := Worker at_pop (count_consumed (job_sum id) (result w))]> (threads s)) (processed s p id)) F' (id :: D).
Proof.
  intros I Hi Hw HF HD Hid. destruct (pi_flight _ _ _ I) as [H1 H2 H3 H4 H5]. destruct (pi_results _ _ _ I) as [G1 G2 G3 G4 G5 G6].
  pose proof (pi_produced _ _ _ I) as Hpr. assert (Hnr : point w <> at_return) by (by destruct w as [[] ?]).
  assert (HF1 : F.*1 ≡ₚ p :: F'.*1) by (by rewrite HF). assert (HF2 : F.*2 ≡ₚ id :: F'.*2) by (by rewrite HF).
  pose proof (Permutation_length H5) as H6. rewrite HF1 in H4. cbn in H4. apply NoDup_cons in H4 as [Hp Hnd]. split.
  - apply I.
  - split; cbn.
    + destruct (bind_update held _ _ _ Hi) as (rest & E1 & E2). rewrite E2. cbn. rewrite HF1, E1, Hw in H1.
      apply (Permutation_cons_inv (a := p)). rewrite H1. solve_Permutation.
    + rewrite HF in H2. apply Forall_cons in H2 as [_ H2]. rewrite Forall_forall in H2 |- *. intros x Hx.
      rewrite lookup_delete_ne; [by apply H2|]. intros ->. apply Hp, elem_of_app. left. by apply list_elem_of_fmap_2.
    + intros k. destruct (decide (k = p)) as [->|Hne]; [rewrite lookup_delete_eq; split; [by intros []|done]|].
      rewrite lookup_delete_ne by done. rewrite H3, HF1. cbn. rewrite elem_of_cons. naive_solver.
    + done.
    + rewrite <- H5, HF2. solve_Permutation.
  - split; cbn.
    + by rewrite length_insert.
    + intros k Hk. rewrite array_get_set by lia. rewrite G2 by done. repeat case_decide; set_solver.
    + apply Forall_insert; [done|]. apply wadd_range.
    + rewrite (Zsum_update _ _ _ _ _ Hi), G4. pose proof (Zsum_part _ _ _ _ G3 Hi) as Hle. cbn in Hle |- *.
      pose proof (Forall_lookup_1 _ _ _ _ G3 Hi). rewrite G4 in Hle.
      assert (Hlen : Z.of_nat (length D) < jobs_produced s).
      { rewrite HF2, length_app, length_seqZ in H6. simpl in H6. lia. }
      destruct jobs_size. rewrite wadd_small by (cbn in *; lia). lia.
    + rewrite (Zsum_update _ _ _ _ _ Hi). cbn. unfold wadd. rewrite Z.add_mod_idemp_r by done.
      replace (_ - _ + _) with (Zsum ((fun w => checksum (result w)) <$> threads s) + job_sum id) by lia.
      rewrite <- Z.add_mod_idemp_l, G5, Z.add_mod_idemp_l by done. f_equal. unfold Zsum. lia.
    + apply Forall_insert; [done|]. exact (Forall_lookup_1 _ _ _ _ G6 Hi).
  - apply I.
  - apply I.
  - eapply (point_ok_worker s _ i w); [apply I|done..|]. intros k Hk. cbn. apply lookup_delete_ne. set_solver.
Qed.
End spec.
