(* ===== verification/PoolRuns.v ===== *)
(** * The worker pool's runs

    Every step of every thread keeps the accounts of PoolSpec, and what main reports
    at the end follows from them. *)

From S2P Require Import Prelude LockedAllocator WorkerJob WorkerArguments JobQueue WorkerPool PoolSpec.

(** ** What the queue operations may do *)

Inductive popped_ok (q : job_queue) : waiting (Z * Z) -> job_queue -> Prop :=
| popped_job p q' : queue_wf q' -> contents q = p :: contents q' -> popped_ok q (Returned (1, p)) q'
| popped_none r q' : queue_wf q' -> contents q' = contents q -> (forall p, r <> Returned (1, p)) ->
    (forall c p, r = Returned (c, p) -> c = 0 \/ c = -1) -> popped_ok q r q'.

Inductive pushed_ok (q : job_queue) (p : Z) : waiting Z -> job_queue -> Prop :=
| pushed_job q' : queue_wf q' -> contents q' = contents q ++ [p] -> pushed_ok q p (Returned 1) q'
| pushed_none r q' : queue_wf q' -> contents q' = contents q -> r <> Returned 1 -> pushed_ok q p r q'.

Lemma queue_wf_waiters q l1 l2 : queue_wf q -> queue_wf (set_not_full l2 (set_not_empty l1 q)).
Proof. by intros [? ? ? ? ?]. Qed.

Lemma wp_pop_loop_ok q me ch : queue_wf q -> wp (pop_loop me ch) (popped_ok q) q.
Proof.
  intros W. eapply wp_mono; [by apply wp_pop_loop|]. intros r q'. case_decide.
  - destruct (closed q); [intros [-> ->]|intros [(_ & -> & ->)|(_ & -> & ->)]];
      apply popped_none; try done; try naive_solver. by apply (queue_wf_waiters q (me :: not_empty q) (not_full q)).
  - intros (p & -> & -> & E). apply popped_job; [|done]. apply popped_wf; [done|]. pose proof (qw_count _ W). lia.
Qed.

Lemma wp_queue_pop_ok q me ch : queue_wf q -> wp (queue_pop me ch) (popped_ok q) q.
Proof.
  intros W. unfold queue_pop. destruct (call_ok ch); [by apply wp_pop_loop_ok|]. wp_steps. apply popped_none; naive_solver.
Qed.

Lemma wp_push_loop_ok q me p ch : queue_wf q -> wp (push_loop me p ch) (pushed_ok q p) q.
Proof.
  intros W. eapply wp_mono; [by apply wp_push_loop|]. intros r q'. destruct (closed q); [intros [-> ->]; by apply pushed_none|].
  pose proof (qw_count _ W). case_decide.
  - intros [(_ & -> & ->)|(_ & -> & ->)]; apply pushed_none; try done.
    by apply (queue_wf_waiters q (not_empty q) (me :: not_full q)).
  - intros [-> ->]. apply pushed_job; [apply pushed_wf; [done|lia]|]. by apply contents_push; [|lia].
Qed.

Lemma wp_queue_push_ok q me p ch : queue_wf q -> wp (queue_push me p ch) (pushed_ok q p) q.
Proof.
  intros W. unfold queue_push. destruct (call_ok ch); [by apply wp_push_loop_ok|]. wp_steps. by apply pushed_none.
Qed.

Lemma wp_queue_close_ok q ch : queue_wf q -> wp (queue_close ch) (fun _ q' => queue_wf q' /\ contents q' = contents q) q.
Proof.
  intros W. unfold queue_close. destruct (call_ok ch); wp_steps; [|done].
  destruct (signal_ok ch), (broadcast_ok ch); (split; [by destruct W|done]).
Qed.

Section runs.
Variable config : configuration.
Hypothesis jobs_size : is_size (jobs config).
Implicit Types (s : pool) (F : list (Z * Z)) (D : list Z).

(** The accounts are in order for some jobs in flight and done. *)
Definition in_order s : Prop := exists F D, pool_inv config s F D.

(** ** Workers *)

Lemma wp_after_pop s F D i w r q :
  pool_inv config s F D -> threads s !! i = Some w -> point w <> at_return -> held w = [] -> popped_ok (queue s) r q ->
  wp (after_pop i (result w) r) (fun _ => in_order) (set_queue q s).
Proof.
  intros I Hi Hw Hh [p q' Wq Eq|r' q' Wq Eq Hr Hc]; unfold after_pop.
  - change (1 =? 0) with false. change (1 <? 0) with false. unfold set_worker. wp_step. exists F, D.
    by apply (inv_pop config s F D i w q' p (result w)).
  - assert (Hin : forall pt r2, held (Worker pt r2) = [] -> counters r2 = counters (result w) ->
      wp (set_worker i (Worker pt r2)) (fun _ => in_order) (set_queue q' s)).
    { intros pt r2 H1 H2. unfold set_worker. wp_step. exists F, D.
      apply (inv_worker config s F D i w (Worker pt r2) q'); [done|done|done|congruence|done..]. }
    destruct r' as [|[c p]]; [by apply Hin|]. destruct (Hc c p eq_refl) as [-> | ->]; by apply Hin.
Qed.

Lemma wp_worker s F D i ch : pool_inv config s F D -> wp (worker_main config i ch) (fun _ => in_order) s.
Proof.
  intros I. pose proof (pi_queue _ _ _ _ I) as W. assert (Hsame : in_order s) by (by exists F, D).
  unfold worker_main. wp_step. wp_step. destruct (threads s !! i) as [w|] eqn:Hi; [|by wp_steps].
  assert (Hmove : forall pt r q, point w <> at_return -> held (Worker pt r) = held w -> counters r = counters (result w) ->
    queue_wf q -> contents q = contents (queue s) -> in_order (set_threads (<[i := Worker pt r]> (threads s)) (set_queue q s))).
  { intros pt r q ? ? ? ? ?. exists F, D. by eapply inv_worker. }
  destruct w as [[| |p| | |] r].
  - wp_step. unfold on_queue. wp_step. eapply wp_mono; [by apply wp_queue_pop_ok|]. intros x q Hx. wp_step.
    eapply wp_mono; [by eapply (wp_after_pop s F D i (Worker at_pop r))|]. intros. by wp_steps.
  - case_decide; [by wp_steps|]. wp_step. unfold on_queue. wp_step. eapply wp_mono; [by apply wp_pop_loop_ok|]. intros x q Hx. wp_step.
    eapply wp_mono; [by eapply (wp_after_pop s F D i (Worker at_pop_wait r))|]. intros. by wp_steps.
  - wp_step. eapply wp_mono; [by eapply (wp_process _ s F D i (Worker (at_job p) r))|]. intros r' s' (id & F' & HF & HD & Hid & -> & ->).
    unfold set_worker. wp_steps. exists F', (id :: D). by eapply (inv_processed _ jobs_size s F F' D i (Worker (at_job p) r)).
  - wp_step. unfold on_queue. wp_step. eapply wp_mono; [by apply wp_queue_close_ok|]. intros x q [? ?]. unfold set_worker. wp_steps.
    by apply Hmove.
  - unfold set_worker. wp_steps. replace s with (set_queue (queue s) s) by (by destruct s). by apply Hmove.
  - by wp_steps.
Qed.

(** ** Main *)

(** A step of main that changes only its own variables. *)
Lemma inv_main s s' F D :
  pool_inv config s F D -> queue s' = queue s -> heap s' = heap s -> seen s' = seen s -> threads s' = threads s ->
  main_held (main s') = main_held (main s) -> expected_checksum s' = expected_checksum s ->
  jobs_produced s' = jobs_produced s -> point_ok config s' -> pool_inv config s' F D.
Proof.
  intros I Eq Eh Es Et Em Ee Ep Hp. split; [by rewrite Eq; apply I| | |by rewrite Ep; apply I|by rewrite Ee, Ep; apply I|done].
  - eapply in_flight_same; [apply I|by rewrite Eq|by rewrite Et|done..].
  - eapply results_ok_same; [apply I|done|by rewrite Et].
Qed.

(** A worker is started. *)
Lemma inv_create s F D m :
  pool_inv config s F D -> main_held (main s) = main_held m ->
  point_ok config (set_main m (set_threads (threads s ++ [Worker at_pop zero_result]) s)) ->
  pool_inv config (set_main m (set_threads (threads s ++ [Worker at_pop zero_result]) s)) F D.
Proof.
  intros I Em Hp. split; [apply I| | |apply I|apply I|done].
  - eapply in_flight_same; [apply I|done| |done|done|done]. cbn. by rewrite bind_app, app_nil_r.
  - destruct (pi_results _ _ _ _ I) as [G1 G2 G3 G4 G5 G6].
    split; cbn; [done|done| | | |]; rewrite ?fmap_app, ?Zsum_app, ?Forall_app; cbn; rewrite ?Z.add_0_r; try done.
    + split; [done|]. by constructor.
    + split; [done|]. by constructor.
Qed.

(** A job is allocated and filled by main. *)
Lemma inv_produce s F D p attempts :
  pool_inv config s F D -> main s = at_produce (jobs_produced s) -> jobs_produced s < jobs config -> heap s !! p = None ->
  let j := make_job (seed config) (jobs_produced s) in
  pool_inv config (set_main (at_push (jobs_produced s) p (job_checksum j)) (set_heap (<[p := j]> (heap s))
    (set_counters (expected_checksum s) attempts (jobs_produced s) s))) F D.
Proof.
  intros I Hm Hlt Hp j. destruct (pi_flight _ _ _ _ I) as [H1 H2 H3 H4 H5]. pose proof (pi_point _ _ _ _ I) as Hpt.
  unfold point_ok in Hpt. rewrite Hm in *. cbn [main_held] in *. rewrite app_nil_r in *.
  assert (Hout : p ∉ F.*1) by (rewrite <- H3, Hp; by intros []).
  split; [apply I| |by eapply results_ok_same; [apply I|..]|apply I|apply I|].
  - split; cbn; [done| | | |done].
    + rewrite Forall_forall in H2 |- *. intros x Hx. rewrite lookup_insert_ne; [by apply H2|]. intros ->.
      by apply Hout, list_elem_of_fmap_2.
    + intros k. rewrite elem_of_app, list_elem_of_singleton. destruct (decide (k = p)) as [->|Hne].
      * rewrite lookup_insert_eq. split; [by right|by eexists].
      * rewrite lookup_insert_ne by done. rewrite H3. naive_solver.
    + apply NoDup_app. split_and!; [done| |apply NoDup_singleton]. intros k Hk ->%list_elem_of_singleton. done.
  - unfold point_ok. cbn. rewrite lookup_insert_eq. destruct Hpt as (_ & ? & ?). by split_and!.
Qed.

(** The pushed job is in flight. *)
Lemma inv_pushed s F D p q :
  pool_inv config s F D -> main_held (main s) = [p] -> jobs_produced s < jobs config ->
  heap s !! p = Some (make_job (seed config) (jobs_produced s)) -> status s = RUN_OK -> all_joined s = true ->
  queue_wf q -> contents q = contents (queue s) ++ [p] ->
  pool_inv config (set_main (at_produce (jobs_produced s + 1)) (set_counters
    (wadd (expected_checksum s) (job_sum config (jobs_produced s))) (allocation_attempts s) (wadd (jobs_produced s) 1)
    (set_queue q s))) ((p, jobs_produced s) :: F) D.
Proof.
  intros I Hm Hlt Hp Hst Hj Wq Eq. destruct (pi_flight _ _ _ _ I) as [H1 H2 H3 H4 H5]. pose proof (pi_produced _ _ _ _ I) as Hpr.
  destruct jobs_size as [_ Hmax]. rewrite (wadd_small (jobs_produced s) 1) by lia. rewrite Hm in *.
  split; [done| |by eapply results_ok_same; [apply I|..]|cbn; lia| |].
  - split; cbn.
    + rewrite H1, Eq. solve_Permutation.
    + by constructor.
    + intros k. rewrite app_nil_r, H3. set_solver.
    + rewrite app_nil_r. apply NoDup_app in H4 as (? & Hd & _). apply NoDup_cons. split; [|done]. intros Hin. apply (Hd p Hin). left.
    + rewrite seqZ_app by lia. rewrite <- H5, Z.add_0_l, seqZ_single. solve_Permutation.
  - cbn. rewrite seqZ_app by lia. rewrite fmap_app, Zsum_app, Z.add_0_l, seqZ_single, (pi_expected _ _ _ _ I).
    unfold wadd. rewrite Z.add_mod_idemp_l by done. f_equal. f_equal. csimpl. by rewrite Z.add_0_r.
  - unfold point_ok. cbn. by split_and!.
Qed.

(** A job that could not be pushed is released. *)
Lemma inv_unpushed s F D p q :
  pool_inv config s F D -> main_held (main s) = [p] -> all_joined s = true -> queue_wf q -> contents q = contents (queue s) ->
  pool_inv config (set_main at_queue_close (set_status RUN_INTERNAL_ERROR (set_heap (delete p (heap s)) (set_queue q s)))) F D.
Proof.
  intros I Hm Hj Wq Eq. destruct (pi_flight _ _ _ _ I) as [H1 H2 H3 H4 H5]. rewrite Hm in *.
  apply NoDup_app in H4 as (Hnd & Hd & _). assert (Hp : p ∉ F.*1) by (intros Hin; apply (Hd p Hin); left).
  split; [done| |by eapply results_ok_same; [apply I|..]|apply I|apply I|].
  - split; cbn; [by rewrite H1, Eq| | |by rewrite app_nil_r|done].
    + rewrite Forall_forall in H2 |- *. intros x Hx. rewrite lookup_delete_ne; [by apply H2|]. intros ->.
      by apply Hp, list_elem_of_fmap_2.
    + intros k. rewrite app_nil_r. destruct (decide (k = p)) as [->|Hne].
      * rewrite lookup_delete_eq. split; [by intros []|done].
      * rewrite lookup_delete_ne by done. rewrite H3, elem_of_app, list_elem_of_singleton. naive_solver.
  - unfold point_ok. cbn. by split_and!.
Qed.

(** ** Collecting *)

(** Releasing what is left in the queue empties it and frees those jobs. *)
Lemma wp_release n l k s :
  queue_wf (queue s) -> contents (queue s) = l -> (length l < n)%nat -> NoDup l -> (forall p, p ∈ l -> is_Some (heap s !! p)) ->
  0 <= k -> k + Z.of_nat (length l) <= SIZE_MAX ->
  wp (iterate n release_step k) (fun r s' => r = k + Z.of_nat (length l) /\
    exists q h, queue_wf q /\ contents q = [] /\ s' = set_heap h (set_queue q s) /\
      forall p, h !! p = if decide (p ∈ l) then None else heap s !! p) s.
Proof.
  revert l k s. induction n as [|n IH]; intros l k s W Hl Hn Hnd Hin Hk Hmax; [lia|]. cbn [iterate]. wp_step. unfold release_step.
  wp_step. wp_step. pose proof (contents_length _ W) as Hlen. rewrite Hl in Hlen.
  destruct (Z.eqb_spec (q_count (queue s)) 0) as [E|E].
  - wp_steps. apply (contents_nil _ W) in E. rewrite Hl in E. subst l. rewrite E. split; [simpl; lia|].
    exists (queue s), (heap s). split_and!; [done|done|by destruct s|]. intros p. by rewrite decide_False by apply not_elem_of_nil.
  - wp_step. unfold on_queue. wp_step. pose proof (qw_count _ W). eapply wp_mono; [apply wp_take_slot; [done|lia]|].
    intros p q' [-> Hc]. rewrite Hl in Hc. clear Hl. rewrite Hc in *. clear Hc l. apply NoDup_cons in Hnd as [Hp Hnd]. simpl in Hn, Hmax.
    destruct (Hin p ltac:(left)) as [j Hj]. unfold worker_deallocate. wp_step. wp_step. wp_step. wp_step.
    eapply wp_known; [exact Hj|]. wp_steps. rewrite wadd_small by lia.
    eapply wp_mono; [apply (IH (contents (popped (queue s) (not_full (queue s)))) (k + 1)); cbn; [by apply popped_wf; [|lia]|done|lia|done| |lia|lia]|].
    + intros x Hx. rewrite lookup_delete_ne; [by apply Hin; right|]. by intros ->.
    + intros r s' [-> (q & h & Wq & Eq & -> & Hh)]. split; [simpl; lia|]. exists q, h. split_and!; [done|done|done|].
      intros x. rewrite Hh. cbn. destruct (decide (x = p)) as [->|Hne].
      * rewrite lookup_delete_eq. rewrite (decide_True (P := p ∈ p :: _)) by left. by case_decide.
      * rewrite lookup_delete_ne by done. apply decide_ext. set_solver.
Qed.

(** The marks that are missing are those of the jobs that are not done. *)
Lemma missing_jobs_spec l D index n :
  (forall i, index <= i < index + Z.of_nat n -> array_get l i = Some (if decide (i ∈ D) then 1 else 0)) ->
  Z.of_nat n <= SIZE_MAX ->
  missing_jobs l index n = Some (Z.of_nat (length (filter (fun i => i ∉ D) (seqZ index (Z.of_nat n))))).
Proof.
  revert index. induction n as [|n IH]; intros index Hl Hn; [done|]. cbn [missing_jobs].
  rewrite Hl by lia. option_step. rewrite IH by (intros; try apply Hl; lia). option_step. f_equal.
  rewrite (seqZ_cons index) by lia. rewrite filter_cons. replace (Z.pred (Z.of_nat (S n))) with (Z.of_nat n) by lia.
  change (Z.succ index) with (index + 1).
  assert (Hle : (length (filter (fun i => i ∉ D) (seqZ (index + 1) (Z.of_nat n))) <= n)%nat).
  { rewrite length_filter, length_seqZ. lia. }
  destruct (decide (index ∈ D)) as [Hi|Hi].
  - rewrite decide_False by naive_solver. done.
  - rewrite decide_True by done. simpl. rewrite wadd_small by lia. lia.
Qed.

Lemma filter_all {A} (P : A -> Prop) `{!forall x, Decision (P x)} (l : list A) : (forall x, x ∈ l -> P x) -> filter P l = l.
Proof.
  induction l as [|x l IH]; intros Hl; [done|]. rewrite filter_cons, decide_True by (apply Hl; left). f_equal. apply IH.
  intros y Hy. apply Hl. by right.
Qed.

Lemma filter_none {A} (P : A -> Prop) `{!forall x, Decision (P x)} (l : list A) : (forall x, x ∈ l -> ~ P x) -> filter P l = [].
Proof.
  induction l as [|x l IH]; intros Hl; [done|]. rewrite filter_cons, decide_False by (apply Hl; left). apply IH.
  intros y Hy. apply Hl. by right.
Qed.

Lemma filter_not_done D F n :
  D ++ F.*2 ≡ₚ seqZ 0 n -> length (filter (fun i => i ∉ D) (seqZ 0 n)) = length F.
Proof.
  intros Hp. assert (Hnd : NoDup (D ++ F.*2)) by (rewrite Hp; apply NoDup_seqZ). rewrite <- Hp, filter_app.
  apply NoDup_app in Hnd as (_ & Hd & _). rewrite length_app, filter_none, filter_all.
  - by rewrite length_fmap.
  - intros x H1 H2. by apply (Hd x).
  - intros x Hx Hn. by apply Hn.
Qed.

(** What the report says about the final state. *)
Record report_ok s (r : report) : Prop := {
  rp_produced : 0 <= r_jobs_produced r <= jobs config;
  rp_expected : r_expected_checksum r = Zsum (job_sum config <$> seqZ 0 (r_jobs_produced r)) mod WORD;
  rp_success : r_status r = RUN_OK -> all_joined s = true /\ r_jobs_produced r = jobs config /\ r_abandoned_jobs r = 0;
  rp_clean : r_duplicate_jobs r = 0 /\ r_invalid_jobs r = 0;
  rp_joined : all_joined s = true ->
    heap s = ∅ /\ contents (queue s) = [] /\ 0 <= r_abandoned_jobs r /\
    r_jobs_consumed r + r_abandoned_jobs r = r_jobs_produced r /\ r_missing_jobs r = r_abandoned_jobs r /\
    (r_abandoned_jobs r = 0 -> r_checksum r = r_expected_checksum r) /\
    (r_status r = RUN_DATA_FAILURE <-> r_abandoned_jobs r <> 0)
}.

Lemma threads_idle s : returned_below s (Z.of_nat (length (threads s))) -> threads s ≫= held = [].
Proof.
  intros Hr. assert (Hall : Forall (fun w => held w = []) (threads s)).
  { apply Forall_lookup. intros k w Hk. unfold held. pose proof (lookup_lt_Some _ _ _ Hk). by rewrite (Hr k w Hk) by lia. }
  clear Hr. induction Hall as [|w l Hw _ IH]; [done|]. rewrite bind_cons, Hw. exact IH.
Qed.

(** The totals main computes. *)
Lemma totals s F D :
  pool_inv config s F D ->
  total consumed (threads s) = Z.of_nat (length D) /\ total duplicate_jobs (threads s) = 0 /\
  total invalid_jobs (threads s) = 0 /\ total checksum (threads s) = Zsum (job_sum config <$> D) mod WORD /\
  Z.of_nat (length D) + Z.of_nat (length F) = jobs_produced s.
Proof.
  intros I. destruct (pi_results _ _ _ _ I) as [_ _ _ G4 G5 G6]. pose proof (pi_produced _ _ _ _ I) as Hp.
  pose proof (Permutation_length (fl_numbers _ _ _ _ (pi_flight _ _ _ _ I))) as Hlen.
  rewrite length_app, length_fmap, length_seqZ in Hlen. destruct jobs_size as [_ Hmax]. unfold SIZE_MAX in Hmax.
  rewrite !total_sum, G4, G5. split_and!; [apply Z.mod_small; lia| | |done|lia].
  - rewrite Zsum_zero; [done|]. eapply Forall_impl; [exact G6|]. by intros w [? _].
  - rewrite Zsum_zero; [done|]. eapply Forall_impl; [exact G6|]. by intros w [_ ?].
Qed.

(** How the report relates to the state main collects from. *)
Definition collected s (r : report) : Prop :=
  r_abandoned_jobs r = q_count (queue s) /\
  (existsb (fun w => queue_error (result w)) (threads s) = false -> r_status r = status s \/ r_status r = RUN_DATA_FAILURE).

Lemma wp_collect s F D :
  pool_inv config s F D -> main s = at_collect ->
  wp collect (fun r s' => report_ok s' r /\ all_joined s' = all_joined s /\ (all_joined s = true -> collected s r)) s.
Proof.
  intros I Hm. pose proof (pi_point _ _ _ _ I) as Hpt. unfold point_ok in Hpt. rewrite Hm in Hpt. destruct Hpt as [[Hnd Hok] Hret].
  destruct (totals _ _ _ I) as (Ec & Ed & Ei & Es & Hlen). pose proof (pi_produced _ _ _ _ I) as Hp. destruct jobs_size as [_ Hmax].
  unfold collect. wp_step. wp_step. destruct (all_joined s) eqn:Hj; wp_steps.
  2: { split; [|by split]. split; cbn; [done|apply I|by rewrite Hret|done|by rewrite Hj]. }
  rewrite Ec, Ed, Ei, Es. pose proof (threads_idle _ Hret) as Hidle. destruct (pi_flight _ _ _ _ I) as [H1 H2 H3 H4 H5].
  rewrite Hm, Hidle in *. cbn [main_held] in *. rewrite app_nil_r in *.
  set (P := fun (_ : unit) s1 => s1 = set_status (status s1) s /\ status s1 <> RUN_DATA_FAILURE /\ (status s1 = RUN_OK -> status s = RUN_OK) /\
    (existsb (fun w => queue_error (result w)) (threads s) = false -> status s1 = status s)).
  assert (Herr : wp (if existsb (fun w => queue_error (result w)) (threads s) then modify (set_status RUN_INTERNAL_ERROR) else mret tt) P s).
  { destruct (existsb _ _); wp_step; unfold P; [by split_and!|]. split_and!; [by destruct s|done|done|done]. }
  eapply wp_mono; [exact Herr|]. intros [] s1 (E1 & Hnd1 & Hok1 & Hex1). wp_step.
  pose proof (missing_jobs_spec (seen s) D 0 (Z.to_nat (jobs_produced s))) as Hmiss. rewrite Z2Nat.id in Hmiss by lia.
  rewrite (filter_not_done D F) in Hmiss by exact H5.
  eapply wp_known; [rewrite E1; cbn [seen jobs_produced set_status]; apply Hmiss; [|lia]|].
  { intros i Hi. apply (ro_seen _ _ _ (pi_results _ _ _ _ I)). lia. }
  wp_step. unfold queue_release_remaining. wp_step. wp_step.
  assert (HF : length F = length (contents (queue s))) by (by rewrite <- H1, length_fmap).
  pose proof (contents_length _ (pi_queue _ _ _ _ I)) as Hcl.
  assert (Hq : queue s1 = queue s) by (by rewrite E1). assert (Hh : heap s1 = heap s) by (by rewrite E1).
  eapply wp_mono; [apply (wp_release _ (contents (queue s)) 0 s1); rewrite ?Hq, ?Hh; [apply I|done|lia|by rewrite <- H1| |lia|lia]|].
  { intros p Hin. apply H3. by rewrite H1. }
  intros abandoned s2 [-> (q & h & Wq & Eq & E2 & Hheap)]. rewrite Hh in Hheap.
  assert (Hempty : h = ∅).
  { apply map_empty. intros p. rewrite Hheap. case_decide as Hin; [done|]. apply eq_None_not_Some. rewrite H3, H1. done. }
  rewrite Z.add_0_l, <- HF.
  assert (Hs2 : s2 = set_status (status s1) (set_heap ∅ (set_queue q s))) by (by rewrite E2, E1, Hempty).
  destruct (decide (F = [])) as [->|HF0].
  - cbn [length] in *. assert (HD : Zsum (job_sum config <$> D) mod WORD = expected_checksum s).
    { rewrite (pi_expected _ _ _ _ I), <- H5. by rewrite app_nil_r. }
    replace (Z.of_nat (length D) =? jobs_produced s) with true by (symmetry; apply Z.eqb_eq; lia).
    rewrite HD. change (Z.of_nat 0) with 0 in *. rewrite !Z.eqb_refl. cbn [negb orb]. wp_steps. rewrite Hs2.
    split; [|split; [done|intros _; split; [cbn; lia|intros E; left; by apply Hex1]]].
    split; cbn; [done|apply I|intros E; split_and!; [done|by apply Hok, Hok1|done]|done|].
    intros _. split_and!; [done|done|done|lia|done|done|done].
  - assert (Hpos : (0 < length F)%nat) by (destruct F; [done|simpl; lia]).
    replace (Z.of_nat (length F) =? 0) with false by (symmetry; apply Z.eqb_neq; lia).
    cbn [negb]. rewrite !orb_true_r. cbn [orb]. wp_steps. rewrite Hs2.
    split; [|split; [done|intros _; split; [cbn; lia|by right]]].
    split; cbn; [done|apply I|done|done|]. intros _. split_and!; [done|done|lia|lia|done|intros; lia|split; [lia|done]].
Qed.

(** ** Steps *)

(** The state of a pool, running or exited. *)
Definition pool_ok s : Prop :=
  match main s with at_exit r => report_ok s r | _ => in_order s end.

Lemma in_order_ok s : in_order s -> pool_ok s.
Proof.
  intros Hin. pose proof Hin as (F & D & I). unfold pool_ok. destruct (main s) eqn:E; try done.
  pose proof (pi_point _ _ _ _ I) as Hp. unfold point_ok in Hp. by rewrite E in Hp.
Qed.

Lemma wp_after_push s F D index p sum r q :
  pool_inv config s F D -> main_held (main s) = [p] -> index = jobs_produced s -> index < jobs config ->
  heap s !! p = Some (make_job (seed config) index) -> sum = job_sum config index -> status s = RUN_OK -> all_joined s = true ->
  pushed_ok (queue s) p r q -> wp (after_push index p sum r) (fun _ => in_order) (set_queue q s).
Proof.
  intros I Hm -> Hlt Hp -> Hst Hj [q' Wq Eq|r' q' Wq Eq Hr]; unfold after_push.
  - change (1 =? 1) with true. cbn iota. wp_steps. exists ((p, jobs_produced s) :: F), D. by apply (inv_pushed s F D p q').
  - destruct r' as [|code].
    + wp_step. exists F, D. eapply inv_main with (s := set_queue q' s); [by apply inv_queue|done..|cbn; by rewrite Hm|done|done|].
      unfold point_ok. cbn. by split_and!.
    + destruct (Z.eqb_spec code 1) as [->|_]; [done|]. unfold worker_deallocate. wp_step. wp_step. wp_step. wp_step.
      eapply wp_known; [exact Hp|]. wp_steps. exists F, D. by apply (inv_unpushed s F D p q').
Qed.

Lemma wp_stop_with s F D r (b : bool) :
  pool_inv config s F D -> main_held (main s) = [] -> all_joined s = true -> r <> RUN_OK -> r <> RUN_DATA_FAILURE ->
  wp (stop_with r;; mret b) (fun _ => in_order) s.
Proof.
  intros I Hm Hj H1 H2. unfold stop_with. wp_steps. exists F, D. eapply inv_main; [exact I|done..| |done|done|].
  - cbn. by rewrite Hm.
  - unfold point_ok, verdict_ok. cbn. by split_and!.
Qed.

Lemma wp_create_step s F D index ch :
  pool_inv config s F D -> main s = at_create index -> wp (create_step config index ch) (fun _ => in_order) s.
Proof.
  intros I Hm. pose proof (pi_point _ _ _ _ I) as Hp. unfold point_ok in Hp. rewrite Hm in Hp. destruct Hp as (-> & Hn & Hst & Hj).
  unfold create_step. assert (Hh : main_held (main s) = []) by (by rewrite Hm).
  destruct (_ <? workers config); [|wp_steps; exists F, D; eapply inv_main; [exact I|done..|by rewrite Hm|done|done|]].
  - destruct (_ =? _); [by apply (wp_stop_with s F D)|]. destruct (call_ok ch); [|by apply (wp_stop_with s F D)].
    wp_steps. exists F, D. apply inv_create; [done|done|]. unfold point_ok. cbn. rewrite length_app. cbn. split_and!; [lia|done..].
  - unfold point_ok. cbn. by rewrite Hn.
Qed.

Lemma wp_produce_step s F D index address :
  pool_inv config s F D -> main s = at_produce index -> wp (produce_step config index address) (fun _ => in_order) s.
Proof.
  intros I Hm. pose proof (pi_point _ _ _ _ I) as Hp. unfold point_ok in Hp. rewrite Hm in Hp. destruct Hp as (-> & Hst & Hj).
  assert (Hh : main_held (main s) = []) by (by rewrite Hm). pose proof (pi_produced _ _ _ _ I).
  unfold produce_step. wp_step. wp_step. destruct (Z.ltb_spec (jobs_produced s) (jobs config)).
  2: { wp_steps. exists F, D. eapply inv_main; [exact I|done..|by rewrite Hm|done|done|].
       unfold point_ok, verdict_ok. cbn. rewrite Hst. split_and!; [done|lia|done]. }
  case_decide as Hin; [wp_steps; by exists F, D|]. wp_step. wp_step. wp_step. wp_step.
  set (s1 := set_counters _ _ _ s). assert (I1 : pool_inv config s1 F D).
  { eapply inv_main; [exact I|done..|]. unfold point_ok. cbn. rewrite Hm. by split_and!. }
  assert (Hh1 : main_held (main s1) = []) by done.
  destruct (_ =? allocation_attempts s1); [by apply (wp_stop_with s1 F D)|].
  destruct (_ <? payload_size_for _ _); [by apply (wp_stop_with s1 F D)|].
  destruct (Z.eqb_spec address 0); [by apply (wp_stop_with s1 F D)|]. wp_steps.
  exists F, D. apply (inv_produce s F D address (wadd (allocation_attempts s) 1)); [done|done|done|]. by apply eq_None_not_Some.
Qed.

Lemma wp_join_step s F D index address ch :
  pool_inv config s F D -> main s = at_join index -> wp (main_step config address ch) (fun _ => in_order) s.
Proof.
  intros I Hm. pose proof (pi_point _ _ _ _ I) as Hp. unfold point_ok in Hp. rewrite Hm in Hp. destruct Hp as (Hv & Hi & Hret).
  assert (Hh : main_held (main s) = []) by (by rewrite Hm). unfold main_step. wp_step. wp_step. rewrite Hm.
  destruct (Z.ltb_spec index (Z.of_nat (length (threads s)))).
  2: { wp_steps. exists F, D. eapply inv_main; [exact I|done..|by rewrite Hm|done|done|]. unfold point_ok. cbn.
       split; [done|]. destruct (all_joined s); [|done]. intros k w Hk Hlt. apply (Hret k w Hk). lia. }
  destruct (call_ok ch).
  - destruct (threads s !! Z.to_nat index) as [[[] r]|] eqn:Hw; wp_steps; try by exists F, D.
    exists F, D. eapply inv_main; [exact I|done..|by rewrite Hm|done|done|]. unfold point_ok. cbn.
    split_and!; [done|lia|]. destruct (all_joined s); [|done]. intros k w Hk Hlt.
    destruct (decide (k = Z.to_nat index)) as [->|Hne]; [cbn in Hk; rewrite Hw in Hk; by injection Hk as <-|]. apply (Hret k w Hk). lia.
  - wp_steps. exists F, D. eapply inv_main; [exact I|done..|by rewrite Hm|done|done|]. unfold point_ok, verdict_ok. cbn.
    split_and!; [done|done|lia|done].
Qed.

Lemma wp_main_step s F D address ch : pool_inv config s F D -> wp (main_step config address ch) (fun _ => pool_ok) s.
Proof.
  intros I. pose proof (pi_point _ _ _ _ I) as Hp. pose proof (pi_queue _ _ _ _ I) as W. unfold point_ok in Hp.
  assert (Hin : forall p : prog pool bool, wp p (fun _ => in_order) s -> wp p (fun _ => pool_ok) s).
  { intros p Hw. eapply wp_mono; [exact Hw|]. intros b s' ?. by apply in_order_ok. }
  assert (Hend : forall b s', in_order s' -> wp (mret b) (fun (_ : bool) => pool_ok) s').
  { intros b s' ?. wp_step. by apply in_order_ok. }
  destruct (main s) as [index|index|index p sum|index p sum| |index| |r] eqn:Hm.
  - unfold main_step. wp_step. wp_step. rewrite Hm. by eapply Hin, wp_create_step.
  - unfold main_step. wp_step. wp_step. rewrite Hm. by eapply Hin, wp_produce_step.
  - unfold main_step. wp_step. wp_step. rewrite Hm. destruct Hp as (? & ? & ? & ? & ? & ?). wp_step. unfold on_queue. wp_step.
    eapply wp_mono; [by apply wp_queue_push_ok|]. intros x q Hx. wp_step.
    eapply wp_mono; [by apply (wp_after_push s F D index p sum x q); [|rewrite Hm|..]|]. intros [] s' ?. by apply Hend.
  - unfold main_step. wp_step. wp_step. rewrite Hm. destruct Hp as (? & ? & ? & ? & ? & ?).
    case_decide; [apply Hend; by exists F, D|]. wp_step. unfold on_queue. wp_step.
    eapply wp_mono; [by apply wp_push_loop_ok|]. intros x q Hx. wp_step.
    eapply wp_mono; [by apply (wp_after_push s F D index p sum x q); [|rewrite Hm|..]|]. intros [] s' ?. by apply Hend.
  - unfold main_step. wp_step. wp_step. rewrite Hm. destruct Hp as [Hv Hj]. wp_step. unfold on_queue. wp_step.
    eapply wp_mono; [by apply wp_queue_close_ok|]. intros ok q [Wq Eq]. wp_step.
    pose proof (inv_queue _ _ _ _ _ I Wq Eq) as I1. cbn [status set_queue].
    destruct (_ && _); wp_steps; apply in_order_ok; exists F, D; (eapply inv_main; [exact I1|done..|cbn; by rewrite Hm|done|done|]);
      unfold point_ok, verdict_ok; cbn; rewrite Hj; (split_and!; [first [done|apply Hv]..|intros k w _ ?; lia]).
  - by eapply Hin, wp_join_step.
  - unfold main_step. wp_step. wp_step. rewrite Hm. wp_step. eapply wp_mono; [by eapply wp_collect|]. intros r s' [Hr _]. wp_steps.
    unfold pool_ok. cbn. destruct Hr. by split.
  - done.
Qed.

Lemma wp_pool_step s e : pool_ok s -> wp (pool_step config e) (fun _ => pool_ok) s.
Proof.
  intros Hok. unfold pool_step. wp_step. wp_step. destruct (exited s) eqn:Hex; [by wp_steps|].
  assert (Hin : in_order s) by (unfold pool_ok, exited in *; by destruct (main s)). destruct Hin as (F & D & I). destruct e as [address ch|i ch|t].
  - by eapply wp_main_step.
  - eapply wp_mono; [by eapply wp_worker|]. intros b s' ?. by apply in_order_ok.
  - wp_step. unfold on_queue. wp_step. unfold wake_spuriously. wp_steps. apply in_order_ok. exists F, D. apply inv_queue; [done| |done].
    apply queue_wf_waiters, I.
Qed.

Lemma wp_pool_run s events : pool_ok s -> wp (pool_run config events) (fun _ => pool_ok) s.
Proof.
  revert s. induction events as [|e events IH]; intros s Hok; cbn [pool_run]; wp_step; [done|].
  eapply wp_mono; [by apply wp_pool_step|]. intros b s'. apply IH.
Qed.
End runs.
