(* ===== verification/PoolProgress.v ===== *)
(** * Progress of the worker pool

    With a library whose calls succeed no wake-up is lost: some thread can always take
    a step until main has returned, and every step that is not a spurious wake-up
    uses up part of a bounded amount of work. *)

From S2P Require Import Prelude LockedAllocator WorkerJob WorkerArguments JobQueue WorkerPool PoolSpec PoolRuns.

#[local] Arguments Zsum : simpl never.

(** ** Signals *)

Definition good_choices (ch : choices) : bool := call_ok ch && signal_ok ch && broadcast_ok ch.

Lemma signalled_spec ch l :
  signal_ok ch = true -> NoDup l ->
  NoDup (signalled ch l) /\ (forall t, t ∈ signalled ch l -> t ∈ l) /\ length (signalled ch l) = pred (length l).
Proof.
  intros Hs Hnd. unfold signalled. rewrite Hs. destruct l as [|x l]; [done|].
  set (k := (wake ch mod length (x :: l))%nat). assert (Hk : (k < length (x :: l))%nat) by (by apply Nat.mod_upper_bound).
  split_and!; [by eapply sublist_NoDup, sublist_delete| |].
  - intros t Ht. by eapply list_elem_of_delete_inv.
  - rewrite length_delete by (by apply lookup_lt_is_Some). simpl. lia.
Qed.

Lemma remove_spec t l : NoDup l -> NoDup (remove Nat.eq_dec t l) /\ (forall x, x ∈ remove Nat.eq_dec t l <-> x ∈ l /\ x <> t) /\
  (length (remove Nat.eq_dec t l) <= length l <= length (remove Nat.eq_dec t l) + 1)%nat.
Proof.
  induction l as [|x l IH]; intros Hnd; cbn; [split_and!; [constructor|set_solver|lia|lia]|].
  apply NoDup_cons in Hnd as [Hx Hnd]. destruct (IH Hnd) as (H1 & H2 & H3). destruct (Nat.eq_dec t x) as [->|Hne].
  - split_and!; [done| | |].
    + intros y. rewrite H2. set_solver.
    + lia.
    + assert (E : remove Nat.eq_dec x l = l) by (apply notin_remove; by rewrite <- list_elem_of_In). rewrite E. lia.
  - split_and!; [|intros y; rewrite !elem_of_cons, H2; naive_solver|cbn; lia|cbn; lia].
    apply NoDup_cons. split; [|done]. rewrite H2. by intros [].
Qed.

(** ** Values of steps *)

Lemma done_bind {S A C} (p : prog S A) (f : A -> prog S C) s b s' :
  (p ≫= f) s = Done b s' -> exists a s1, p s = Done a s1 /\ f a s1 = Done b s'.
Proof. unfold mbind, prog_bind. destruct (p s) as [a s1| |]; [|done..]. by exists a, s1. Qed.

Lemma done_true {S A} (p : prog S A) s b s' : (p;; mret true) s = Done b s' -> b = true.
Proof. intros E. apply done_bind in E as (? & ? & _ & E). by injection E as <- _. Qed.

(** Peeling a step down to the value it returns. *)
Ltac peel H :=
  repeat first
    [ apply done_true in H
    | let a := fresh "a" in let s1 := fresh "s1" in let E := fresh "E" in
      apply done_bind in H as (a & s1 & E & H); cbn in H ].

Section progress.
Variable config : configuration.
Hypothesis jobs_size : is_size (jobs config).
Hypothesis some_worker : 0 < workers config.
Implicit Types (s : pool).

(** ** The invariant of good runs *)

Definition past_close s : bool := match main s with at_join _ | at_collect => true | _ => false end.
Definition producing s : bool := match main s with at_produce _ | at_push _ _ _ | at_push_wait _ _ _ => true | _ => false end.
Definition stopped (w : worker) : bool := match point w with at_flush | at_return => true | _ => false end.

Definition waits_to_push s : Prop := exists index p sum, main s = at_push_wait index p sum.

(** No failure is injected by the configuration. *)
Definition no_injection : Prop := fail_allocation_at config = 0 /\ fail_thread_at config = 0.

Record good_inv s : Prop := {
  g_waiters : NoDup (not_empty (queue s));
  g_waiting : forall t, t ∈ not_empty (queue s) -> exists i r, t = thread_id i /\ threads s !! i = Some (Worker at_pop_wait r);
  g_main : not_full (queue s) = [] \/
    not_full (queue s) = [main_id] /\ waits_to_push s /\ q_count (queue s) = capacity (queue s);
  g_closed : closed (queue s) = past_close s;
  g_quiet : closed (queue s) = true -> not_empty (queue s) = [] /\ not_full (queue s) = [];
  g_wake : not_empty (queue s) = [] \/
    q_count (queue s) + Z.of_nat (length (not_empty (queue s))) <= Z.of_nat (length (threads s));
  g_points : Forall (fun w => queue_error (result w) = false /\ point w <> at_close /\
    (stopped w -> closed (queue s) = true /\ q_count (queue s) = 0)) (threads s);
  g_started : producing s -> Z.of_nat (length (threads s)) = workers config;
  g_size : match main s with
           | at_create index => index <= workers config
           | at_join index => index <= Z.of_nat (length (threads s))
           | _ => True
           end /\
    Z.of_nat (length (threads s)) <= workers config;
  g_joined : all_joined s = true;
  g_status : no_injection -> status s = RUN_OK /\
    match main s with at_create _ => True | _ => Z.of_nat (length (threads s)) = workers config end;
  g_attempts : match main s with
               | at_create _ | at_produce _ => allocation_attempts s = jobs_produced s
               | at_push _ _ _ | at_push_wait _ _ _ => allocation_attempts s = jobs_produced s + 1
               | _ => True
               end
}.

Lemma waiters_bound s : good_inv s -> (length (not_empty (queue s)) <= length (threads s))%nat.
Proof.
  intros G. rewrite <- (length_seq (length (threads s)) 1). apply submseteq_length, NoDup_submseteq; [apply G|].
  intros t Ht. destruct (g_waiting _ G t Ht) as (i & r & -> & Hi). apply lookup_lt_Some in Hi. apply elem_of_seq. unfold thread_id. lia.
Qed.

(** ** The work left *)

Definition point_work (p : worker_point) : Z :=
  match p with at_pop => 3 | at_pop_wait => 2 | at_job _ => 4 | at_close => 2 | at_flush => 1 | at_return => 0 end.

Definition join_work (index : Z) : Z := workers config - index + 2.
Definition close_work : Z := join_work 0 + 2 * workers config + 2.
Definition produce_work (index : Z) : Z := (jobs config - index) * 9 + close_work + 1.
Definition main_work (m : main_point) : Z :=
  match m with
  | at_create index => (workers config - index) * 4 + produce_work 0 + 1
  | at_produce index => produce_work index
  | at_push index _ _ => produce_work (index + 1) + 8
  | at_push_wait index _ _ => produce_work (index + 1) + 7
  | at_queue_close => close_work
  | at_join index => join_work index
  | at_collect => 1
  | at_exit _ => 0
  end.

(** Decreases with every step that is not a spurious wake-up. *)
Definition work s : Z :=
  main_work (main s) + Zsum ((fun w => point_work (point w)) <$> threads s) + 4 * q_count (queue s)
  - 2 * Z.of_nat (length (not_empty (queue s))) - Z.of_nat (length (not_full (queue s))).

(** [work] is not less than this. *)
Definition work_floor : Z := - 2 * workers config - 1.

(** ** Steps of a worker *)

Definition step_good s (b : bool) s' : Prop :=
  good_inv s' /\ main s' = main s /\ if b then work s' < work s else s' = s.

(** What changes in a step of worker [i]. *)
Record worker_moved s (i : nat) (w w' : worker) s' : Prop := {
  wm_old : threads s !! i = Some w;
  wm_threads : threads s' = <[i := w']> (threads s);
  wm_main : main s' = main s;
  wm_status : status s' = status s;
  wm_joined : all_joined s' = all_joined s;
  wm_attempts : allocation_attempts s' = allocation_attempts s;
  wm_produced : jobs_produced s' = jobs_produced s;
  wm_closed : closed (queue s') = closed (queue s);
  wm_capacity : capacity (queue s') = capacity (queue s)
}.

Lemma good_worker s i w w' s' :
  good_inv s -> worker_moved s i w w' s' ->
  NoDup (not_empty (queue s')) ->
  (forall t, t ∈ not_empty (queue s') ->
    (t = thread_id i /\ point w' = at_pop_wait) \/ (t ∈ not_empty (queue s) /\ t <> thread_id i)) ->
  (not_full (queue s') = [] \/ not_full (queue s') = not_full (queue s) /\ q_count (queue s') = q_count (queue s)) ->
  (closed (queue s) = true -> not_empty (queue s') = [] /\ not_full (queue s') = []) ->
  (not_empty (queue s') = [] \/
    q_count (queue s') + Z.of_nat (length (not_empty (queue s'))) <= Z.of_nat (length (threads s))) ->
  (q_count (queue s) = 0 -> q_count (queue s') = 0) ->
  queue_error (result w') = false -> point w' <> at_close ->
  (stopped w' -> closed (queue s) = true /\ q_count (queue s') = 0) -> good_inv s'.
Proof.
  intros G [Mo Mt Mm Ms Mj Ma Mp Mc Mk] Hnd Hne Hnf Hq Hw Hc0 He Hcl Hst.
  assert (Hlen : length (threads s') = length (threads s)) by (by rewrite Mt, length_insert).
  split; unfold past_close, producing, waits_to_push; rewrite ?Mm, ?Mc, ?Mk, ?Hlen, ?Ms, ?Mj, ?Ma, ?Mp; try apply G; try done.
  - intros t Ht. destruct (Hne t Ht) as [[-> Hp]|[Hold Hti]].
    + exists i, (result w'). split; [done|]. rewrite Mt, list_lookup_insert_eq by (by eapply lookup_lt_Some). destruct w'; cbn in *. by subst.
    + destruct (g_waiting _ G t Hold) as (k & r & -> & Hk). exists k, r. split; [done|]. rewrite Mt, list_lookup_insert_ne; [done|].
      by intros ->.
  - destruct Hnf as [?|[-> ->]]; [by left|]. apply G.
  - rewrite Mt. apply Forall_insert; [|by rewrite He]. eapply Forall_impl; [apply G|]. cbn. intros x (? & ? & H3).
    split_and!; [done|done|]. intros Hx. destruct (H3 Hx). split; [done|by apply Hc0].
Qed.

Lemma work_worker s i w w' s' :
  worker_moved s i w w' s' ->
  work s' = work s - point_work (point w) + point_work (point w') + 4 * (q_count (queue s') - q_count (queue s))
    - 2 * (Z.of_nat (length (not_empty (queue s'))) - Z.of_nat (length (not_empty (queue s))))
    - (Z.of_nat (length (not_full (queue s'))) - Z.of_nat (length (not_full (queue s)))).
Proof. intros [Mo Mt Mm]. unfold work. rewrite Mm, Mt, (Zsum_update _ _ _ _ _ Mo). lia. Qed.

(** A worker that waits is the only one under its number. *)
Lemma awake s i w : good_inv s -> threads s !! i = Some w -> point w <> at_pop_wait -> thread_id i ∉ not_empty (queue s).
Proof.
  intros G Hi Hp Hin. destruct (g_waiting _ G _ Hin) as (k & r & Hk & Hw). unfold thread_id in Hk. injection Hk as <-.
  rewrite Hi in Hw. by injection Hw as ->.
Qed.

Lemma waiters_room s i :
  good_inv s -> (i < length (threads s))%nat -> thread_id i ∉ not_empty (queue s) ->
  (S (length (not_empty (queue s))) <= length (threads s))%nat.
Proof.
  intros G Hi Hn. rewrite <- (length_seq (length (threads s)) 1). change (S (length (not_empty (queue s)))) with (length (thread_id i :: not_empty (queue s))).
  apply submseteq_length, NoDup_submseteq; [apply NoDup_cons; split; [done|apply G]|].
  intros t [->|Ht]%elem_of_cons; apply elem_of_seq; [unfold thread_id; lia|].
  destruct (g_waiting _ G t Ht) as (k & r & -> & Hk). apply lookup_lt_Some in Hk. unfold thread_id. lia.
Qed.

Lemma not_full_signalled s ch : good_inv s -> signal_ok ch = true -> signalled ch (not_full (queue s)) = [].
Proof.
  intros G Hs. unfold signalled. rewrite Hs. destruct (g_main _ G) as [-> | (-> & _)]; [done|]. cbn. by destruct (wake ch).
Qed.

Lemma wp_good_pop s i w ch :
  good_inv s -> queue_wf (queue s) -> good_choices ch -> threads s !! i = Some w -> point w = at_pop \/ point w = at_pop_wait ->
  thread_id i ∉ not_empty (queue s) ->
  wp (pop_loop (thread_id i) ch) (fun x q => wp (after_pop i (result w) x) (fun _ => step_good s true) (set_queue q s)) (queue s).
Proof.
  intros G W Hch Hi Hp Hn. apply Is_true_true, andb_prop in Hch as [[Hc Hsig]%andb_prop _].
  pose proof (Forall_lookup_1 _ _ _ _ (g_points _ G) Hi) as (He & Hcl & Hst). pose proof (qw_count _ W).
  eapply wp_mono; [by apply wp_pop_loop|]. intros x q. case_decide as H0.
  - destruct (closed (queue s)) eqn:Hclosed.
    + intros [-> ->]. unfold after_pop. change (0 =? 0) with true. unfold set_worker. wp_step.
      set (s' := set_threads _ _). assert (M : worker_moved s i w (Worker at_flush (result w)) s') by by split.
      split; [|split; [done|rewrite (work_worker _ _ _ _ _ M); cbn; destruct Hp as [-> | ->]; cbn; lia]].
      eapply good_worker; [done|exact M|apply G| |by right|by intros; apply G|by destruct (g_wake _ G); [left|right]|done|done|done|done].
      intros t Ht. right. split; [done|]. by intros ->.
    + intros [(_ & -> & ->)|(E & _)]; [|congruence]. unfold after_pop, set_worker. wp_step.
      set (s' := set_threads _ _). assert (M : worker_moved s i w (Worker at_pop_wait (result w)) s') by by split.
      pose proof (waiters_room _ _ G (lookup_lt_Some _ _ _ Hi) Hn).
      split; [|split; [done|rewrite (work_worker _ _ _ _ _ M); cbn; destruct Hp as [-> | ->]; cbn; lia]].
      eapply good_worker; [done|exact M|apply NoDup_cons; split; [done|apply G]| |by right|by rewrite Hclosed| |done|done|done|done].
      * intros t [->|Ht]%elem_of_cons; [by left|]. right. split; [done|]. by intros ->.
      * right. cbn. lia.
  - intros (p & -> & -> & Hcont). unfold after_pop. change (1 =? 0) with false. change (1 <? 0) with false. unfold set_worker. wp_step.
    set (s' := set_threads _ _). assert (M : worker_moved s i w (Worker (at_job p) (result w)) s') by by split.
    pose proof (not_full_signalled _ _ G Hsig) as Hnf.
    assert (Hle : (length (not_full (queue s)) <= 1)%nat) by (by destruct (g_main _ G) as [-> | (-> & _)]; cbn; lia).
    split; [|split; [done|rewrite (work_worker _ _ _ _ _ M); cbn; rewrite Hnf; destruct Hp as [-> | ->]; cbn; lia]].
    eapply good_worker; [done|exact M|apply G| |by left| |by destruct (g_wake _ G) as [|]; [left|right; cbn; lia]|done|done|done|done].
    + intros t Ht. right. split; [done|]. by intros ->.
    + intros Hcl'. cbn. rewrite Hnf. by split; [apply G|].
Qed.

Lemma wp_good_worker s i ch :
  good_inv s -> in_order config s -> good_choices ch -> wp (worker_main config i ch) (step_good s) s.
Proof.
  intros G (F & D & I) Hch. pose proof (pi_queue _ _ _ _ I) as W. assert (Hsame : step_good s false s) by done.
  unfold worker_main. wp_step. wp_step. destruct (threads s !! i) as [w|] eqn:Hi; [|by wp_steps].
  pose proof (Forall_lookup_1 _ _ _ _ (g_points _ G) Hi) as (He & Hcl & Hst).
  destruct w as [[| |p| | |] r]; cbn [result point] in *.
  - wp_step. unfold on_queue. wp_step. unfold queue_pop. pose proof Hch as Hc. apply Is_true_true, andb_prop in Hc as [[-> _]%andb_prop _].
    eapply wp_mono; [apply (wp_good_pop s i (Worker at_pop r)); [done|done|done|done|by left|by eapply awake]|].
    intros x q Hx. wp_step. eapply wp_mono; [exact Hx|]. intros [] s' ?. by wp_step.
  - case_decide; [by wp_steps|]. wp_step. unfold on_queue. wp_step.
    eapply wp_mono; [apply (wp_good_pop s i (Worker at_pop_wait r)); [done|done|done|done|by right|done]|].
    intros x q Hx. wp_step. eapply wp_mono; [exact Hx|]. intros [] s' ?. by wp_step.
  - wp_step. eapply wp_mono; [by eapply (wp_process _ s F D i (Worker (at_job p) r))|]. intros r' s' (id & F' & _ & _ & _ & -> & ->).
    unfold set_worker. wp_steps. set (s' := set_threads _ _).
    assert (M : worker_moved s i (Worker (at_job p) r) (Worker at_pop (count_consumed (job_sum config id) r)) s') by by split.
    split; [|split; [done|rewrite (work_worker _ _ _ _ _ M); cbn; lia]].
    eapply good_worker; [done|exact M|apply G| |by right|by intros; apply G|apply G|done|done|done|done].
    intros t Ht. right. split; [done|]. intros ->. by eapply awake.
  - done.
  - unfold set_worker. wp_steps. set (s' := set_threads _ _). assert (M : worker_moved s i (Worker at_flush r) (Worker at_return r) s') by by split.
    split; [|split; [done|rewrite (work_worker _ _ _ _ _ M); cbn; lia]].
    eapply good_worker; [done|exact M|apply G| |by right|by intros; apply G|apply G|done|done|done|by intros; apply Hst].
    intros t Ht. right. split; [done|]. intros ->. by eapply awake.
  - by wp_steps.
Qed.

(** ** Steps of main *)

Definition settled s : Prop :=
  match main s with at_exit r => no_injection -> r_status r = RUN_OK | _ => good_inv s end.

Definition main_good s (b : bool) s' : Prop :=
  settled s' /\ if b then exited s' = true \/ work s' < work s else s' = s.

Lemma main_good_step s s' : exited s' = false -> good_inv s' -> work s' < work s -> main_good s true s'.
Proof. intros He G Hw. split; [|by right]. unfold settled, exited in *. by destruct (main s'). Qed.

Lemma main_good_same s : exited s = false -> good_inv s -> main_good s false s.
Proof. intros He G. split; [|done]. unfold settled, exited in *. by destruct (main s). Qed.

Lemma nobody_waits s : good_inv s -> (forall index p sum, main s <> at_push_wait index p sum) -> not_full (queue s) = [].
Proof. intros G Hm. destruct (g_main _ G) as [?|(_ & (? & ? & ? & E) & _)]; [done|]. by destruct (Hm _ _ _ E). Qed.

(** A step of main outside the queue. *)
Lemma good_main s s' :
  good_inv s -> queue s' = queue s -> threads s' = threads s -> all_joined s' = true -> not_full (queue s) = [] ->
  past_close s' = past_close s -> (producing s' -> Z.of_nat (length (threads s)) = workers config) ->
  match main s' with
  | at_create index => index <= workers config
  | at_join index => index <= Z.of_nat (length (threads s))
  | _ => True
  end ->
  (no_injection -> status s' = RUN_OK /\
    match main s' with at_create _ => True | _ => Z.of_nat (length (threads s)) = workers config end) ->
  match main s' with
  | at_create _ | at_produce _ => allocation_attempts s' = jobs_produced s'
  | at_push _ _ _ | at_push_wait _ _ _ => allocation_attempts s' = jobs_produced s' + 1
  | _ => True
  end -> good_inv s'.
Proof.
  intros G Eq Et Hj Hnf Hpast Hpr Hsize Hst Hat.
  split; rewrite ?Eq, ?Et, ?Hpast; try done; try apply G; [by left|split; [done|apply G]].
Qed.

Lemma work_main s s' :
  queue s' = queue s -> threads s' = threads s -> work s' = work s - main_work (main s) + main_work (main s').
Proof. intros Eq Et. unfold work. rewrite Eq, Et. lia. Qed.

Lemma create_produce_work index : index <= workers config -> close_work < main_work (at_create index) \/ jobs config < 0.
Proof. intros Hi. cbn. unfold produce_work. lia. Qed.

(** Giving up: only when a failure is injected. *)
Lemma wp_good_stop s s1 r :
  good_inv s -> (no_injection -> False) -> queue s1 = queue s -> threads s1 = threads s -> all_joined s1 = true ->
  not_full (queue s) = [] -> past_close s = false -> close_work < main_work (main s) ->
  wp (stop_with r;; mret true) (main_good s) s1.
Proof.
  intros G Hno Eq Et Hj Hnf Hpast Hlt. unfold stop_with. wp_steps. apply main_good_step; [done| |].
  - eapply (good_main s); [exact G|done|done|done|done|by rewrite Hpast|done|done|done|done].
  - rewrite (work_main s) by done. cbn. lia.
Qed.

Lemma wp_good_create s F D index ch :
  good_inv s -> pool_inv config s F D -> good_choices ch -> main s = at_create index ->
  wp (create_step config index ch) (main_good s) s.
Proof.
  intros G I Hch Hm. pose proof (pi_point _ _ _ _ I) as Hp. unfold point_ok in Hp. rewrite Hm in Hp. destruct Hp as (Hi & Hn & Hst & Hj).
  pose proof (g_size _ G) as [Hsize1 Hsize2]. rewrite Hm in Hsize1. pose proof (pi_produced _ _ _ _ I).
  pose proof (g_attempts _ G) as Hat. rewrite Hm in Hat. assert (Hpast : past_close s = false) by (unfold past_close; by rewrite Hm).
  pose proof (nobody_waits _ G ltac:(by rewrite Hm)) as Hnf.
  apply Is_true_true, andb_prop in Hch as [[Hc _]%andb_prop _]. unfold create_step. rewrite Hc.
  destruct (Z.ltb_spec index (workers config)) as [Hlt|Hge].
  - destruct (Z.eqb_spec (fail_thread_at config) (index + 1)) as [E|E].
    { apply wp_good_stop; [done|intros [_ E2]; lia|done|done|done|done|done|]. rewrite Hm. cbn. unfold produce_work. lia. }
    wp_steps. apply main_good_step; [done| |].
    + split; cbn; rewrite ?length_app, ?Hpast; try apply G; try done; try (by rewrite Hnf; left).
      * intros t Ht. destruct (g_waiting _ G t Ht) as (k & r & -> & Hk). exists k, r. split; [done|]. by apply lookup_app_l_Some.
      * rewrite (g_closed _ G), Hpast. done.
      * cbn. destruct (g_wake _ G); [by left|right; lia].
      * apply Forall_app. split; [apply G|]. by constructor.
      * cbn. lia.
    + unfold work. cbn. rewrite Hm, fmap_app, Zsum_app. cbn. change (Zsum [3]) with 3. unfold produce_work. lia.
  - wp_steps. apply main_good_step; [done| |].
    + eapply (good_main s); [exact G|done|done|done|done|by rewrite Hpast|cbn; lia|done|cbn; intros Hno; split; [by apply G|lia]|done].
    + rewrite (work_main s), Hm by done. cbn. unfold produce_work. lia.
Qed.

Lemma wp_good_produce s F D index address :
  good_inv s -> pool_inv config s F D -> address <> 0 -> main s = at_produce index ->
  wp (produce_step config index address) (main_good s) s.
Proof.
  intros G I Ha Hm. pose proof (pi_point _ _ _ _ I) as Hp. unfold point_ok in Hp. rewrite Hm in Hp. destruct Hp as (-> & Hst & Hj).
  pose proof (pi_produced _ _ _ _ I) as Hpr. assert (Hpast : past_close s = false) by (unfold past_close; by rewrite Hm).
  pose proof (nobody_waits _ G ltac:(by rewrite Hm)) as Hnf. pose proof (g_attempts _ G) as Hat. rewrite Hm in Hat.
  pose proof (g_started _ G ltac:(unfold producing; by rewrite Hm)) as Hstart. destruct jobs_size as [_ Hmax].
  assert (Hex : exited s = false) by (unfold exited; by rewrite Hm).
  unfold produce_step. wp_step. wp_step. destruct (Z.ltb_spec (jobs_produced s) (jobs config)) as [Hlt|Hge].
  2: { wp_steps. apply main_good_step; [done| |rewrite (work_main s), Hm by done; cbn; unfold produce_work; lia].
       eapply (good_main s); [exact G|done|done|done|done|by rewrite Hpast|done|done|cbn; intros Hno; split; [by apply G|done]|done]. }
  case_decide as Hin; [wp_steps; by apply main_good_same|]. wp_step. wp_step. wp_step. wp_step. cbn [allocation_attempts set_counters].
  rewrite Hat, wadd_small by lia. assert (Hw : close_work < main_work (main s)) by (rewrite Hm; cbn; unfold produce_work; lia).
  destruct (Z.eqb_spec (fail_allocation_at config) (jobs_produced s + 1)) as [E|E].
  { apply wp_good_stop; [done|intros [E2 _]; lia|done..]. }
  pose proof (payload_size_bounds (seed config) (jobs_produced s)) as Hsz.
  rewrite (proj2 (Z.ltb_ge _ _)) by (unfold SIZE_MAX, WORD, sizeof_job; lia).
  destruct (Z.eqb_spec address 0); [done|]. wp_steps. apply main_good_step; [done| |].
  - eapply (good_main s); [exact G|done|done|done|done|by rewrite Hpast|done|done|cbn; intros Hno; split; [by apply G|done]|done].
  - rewrite (work_main s), Hm by done. cbn. unfold produce_work. lia.
Qed.

(** Without a closed queue no worker has stopped. *)
Lemma nobody_stopped s w i : good_inv s -> closed (queue s) = false -> threads s !! i = Some w -> stopped w = false.
Proof.
  intros G Hc Hi. destruct (Forall_lookup_1 _ _ _ _ (g_points _ G) Hi) as (_ & _ & H3).
  destruct (stopped w); [|done]. destruct (H3 I). congruence.
Qed.

Definition at_push_point s (index p sum : Z) : Prop :=
  main s = at_push index p sum \/ main s = at_push_wait index p sum.

Lemma wp_good_push s F D index p sum ch :
  good_inv s -> pool_inv config s F D -> good_choices ch -> at_push_point s index p sum -> main_id ∉ not_full (queue s) ->
  wp (push_loop main_id p ch) (fun x q => wp (after_push index p sum x) (fun _ => main_good s true) (set_queue q s)) (queue s).
Proof.
  intros G I Hch Hm Hn. pose proof (pi_queue _ _ _ _ I) as W. pose proof (qw_count _ W). pose proof (pi_produced _ _ _ _ I).
  apply Is_true_true, andb_prop in Hch as [[Hc Hsig]%andb_prop _].
  assert (Hpast : past_close s = false) by (unfold past_close; by destruct Hm as [-> | ->]).
  assert (Hcl : closed (queue s) = false) by (by rewrite (g_closed _ G)).
  assert (Hnf : not_full (queue s) = []) by (destruct (g_main _ G) as [?|(E & _)]; [done|rewrite E in Hn; by destruct Hn; left]).
  assert (Hstart : Z.of_nat (length (threads s)) = workers config) by (apply (g_started _ G); unfold producing; by destruct Hm as [-> | ->]).
  assert (Hat : allocation_attempts s = jobs_produced s + 1 /\ index = jobs_produced s /\ index < jobs config).
  { pose proof (g_attempts _ G) as Hat. pose proof (pi_point _ _ _ _ I) as Hp. unfold point_ok in Hp. destruct Hm as [Hm|Hm]; rewrite Hm in *; naive_solver. }
  destruct Hat as (Hat & -> & Hlt). destruct jobs_size as [_ Hmax].
  eapply wp_mono; [by apply wp_push_loop|]. intros x q. rewrite Hcl. case_decide as Hfull.
  - intros [(_ & -> & ->)|(E & _)]; [|congruence]. unfold after_push. wp_step. rewrite Hnf. apply main_good_step; [done| |].
    + split; cbn; try apply G; try done; [right|by rewrite Hcl| |by intros; destruct (g_status _ G)].
      * split_and!; [done|by eexists _, _, _|done].
      * by split; [|apply G].
    + unfold work. cbn. rewrite Hnf. destruct Hm as [-> | ->]; cbn; lia.
  - intros [-> ->]. unfold after_push. change (1 =? 1) with true. cbn iota. wp_steps. cbn [expected_checksum allocation_attempts jobs_produced set_queue].
    rewrite (wadd_small (jobs_produced s)) by lia. destruct (signalled_spec ch _ Hsig (g_waiters _ G)) as (H1 & H2 & H3).
    apply main_good_step; [done| |].
    + split; cbn; rewrite ?Hnf; try apply G; try done; try (by left); try (by rewrite Hcl); try lia.
      * intros t Ht. by apply (g_waiting _ G), H2.
      * destruct (g_wake _ G) as [E|?]; [left; rewrite E; unfold signalled; by rewrite Hsig|].
        destruct (not_empty (queue s)) as [|y l]; [left; unfold signalled; by rewrite Hsig|right]. rewrite H3. simpl in *. lia.
      * apply Forall_lookup. intros k w Hk. destruct (Forall_lookup_1 _ _ _ _ (g_points _ G) Hk) as (? & ? & _).
        split_and!; [done|done|]. by rewrite (nobody_stopped _ _ _ G Hcl Hk).
      * intros Hno. split; [by apply (g_status _ G)|done].
    + unfold work. cbn. rewrite Hnf, H3. destruct Hm as [-> | ->]; cbn; unfold produce_work; lia.
Qed.

Lemma wp_good_close s F D address ch :
  good_inv s -> pool_inv config s F D -> good_choices ch -> main s = at_queue_close -> wp (main_step config address ch) (main_good s) s.
Proof.
  intros G I Hch Hm. apply Is_true_true, andb_prop in Hch as [[Hc Hsig]%andb_prop Hb].
  assert (Hcl : closed (queue s) = false) by (rewrite (g_closed _ G); unfold past_close; by rewrite Hm).
  pose proof (nobody_waits _ G ltac:(by rewrite Hm)) as Hnf. pose proof (waiters_bound _ G) as Hw. destruct (g_size _ G) as [_ Hsize].
  unfold main_step. wp_step. wp_step. rewrite Hm. unfold on_queue, queue_close. wp_step. wp_step. rewrite Hc, Hsig, Hb.
  wp_steps. cbn [negb andb]. wp_steps. apply main_good_step; [done| |].
  - split; cbn; try apply G; try done; try (by left); try (by constructor); try (by intros ? ?%not_elem_of_nil); try lia.
    + apply Forall_lookup. intros k w Hk. destruct (Forall_lookup_1 _ _ _ _ (g_points _ G) Hk) as (? & ? & _).
      split_and!; [done|done|]. by rewrite (nobody_stopped _ _ _ G Hcl Hk).
    + intros Hno. pose proof (g_status _ G Hno). by rewrite Hm in *.
  - unfold work. cbn. rewrite Hm, Hnf. cbn. unfold close_work. lia.
Qed.

Lemma wp_good_join s F D index address ch :
  good_inv s -> pool_inv config s F D -> good_choices ch -> main s = at_join index -> wp (main_step config address ch) (main_good s) s.
Proof.
  intros G I Hch Hm. apply Is_true_true, andb_prop in Hch as [[Hc Hsig]%andb_prop Hb].
  pose proof (nobody_waits _ G ltac:(by rewrite Hm)) as Hnf. destruct (g_size _ G) as [Hi Hsize]. rewrite Hm in Hi.
  assert (Hpast : past_close s = true) by (unfold past_close; by rewrite Hm).
  assert (Hst : no_injection -> status s = RUN_OK /\ Z.of_nat (length (threads s)) = workers config).
  { intros Hno. pose proof (g_status _ G Hno). by rewrite Hm in *. }
  assert (Hex : exited s = false) by (unfold exited; by rewrite Hm).
  unfold main_step. wp_step. wp_step. rewrite Hm, Hc. destruct (Z.ltb_spec index (Z.of_nat (length (threads s)))).
  - destruct (threads s !! Z.to_nat index) as [[[] r]|] eqn:Hw; wp_steps; try by apply main_good_same.
    apply main_good_step; [done| |rewrite (work_main s), Hm by done; cbn; unfold join_work; lia].
    eapply (good_main s); [exact G|done|done|apply G|done|by rewrite Hpast|done|cbn; lia|done|done].
  - wp_steps. apply main_good_step; [done| |rewrite (work_main s), Hm by done; cbn; unfold join_work; lia].
    eapply (good_main s); [exact G|done|done|apply G|done|by rewrite Hpast|done|done|done|done].
Qed.

Lemma wp_good_collect s F D address ch :
  good_inv s -> pool_inv config s F D -> main s = at_collect -> wp (main_step config address ch) (main_good s) s.
Proof.
  intros G I Hm. unfold main_step. wp_step. wp_step. rewrite Hm. wp_step. eapply wp_mono; [by eapply wp_collect|].
  intros r s' (Hr & Hj & Hc). wp_steps. split; [|by left]. unfold settled. cbn. intros Hno.
  destruct (Hc (g_joined _ G)) as [Hab Hstat]. destruct (g_status _ G Hno) as [Hok Hn]. rewrite Hm in Hn.
  assert (Hnoerr : existsb (fun w => queue_error (result w)) (threads s) = false).
  { pose proof (g_points _ G) as Hp. clear -Hp. induction Hp as [|w l (E & _) _ IH]; [done|]. cbn. by rewrite E, IH. }
  destruct (Hstat Hnoerr) as [->|Hd]; [done|].
  pose proof (pi_point _ _ _ _ I) as Hpt. unfold point_ok in Hpt. rewrite Hm, (g_joined _ G) in Hpt. destruct Hpt as [_ Hret].
  destruct (threads s) as [|w l] eqn:Ht; [cbn in Hn; lia|].
  assert (H0 : threads s !! 0%nat = Some w) by (by rewrite Ht). rewrite <- Ht in *.
  destruct (Forall_lookup_1 _ _ _ _ (g_points _ G) H0) as (_ & _ & H3).
  assert (Hq : q_count (queue s) = 0).
  { apply H3. unfold stopped. rewrite (Hret 0%nat w H0); [done|]. pose proof (lookup_lt_Some _ _ _ H0). lia. }
  rewrite (g_joined _ G) in Hj. destruct (rp_joined _ _ _ Hr Hj) as (_ & _ & _ & _ & _ & _ & Hiff).
  apply Hiff in Hd. by rewrite Hab in Hd.
Qed.

Lemma wp_good_main s F D address ch :
  good_inv s -> pool_inv config s F D -> good_choices ch -> address <> 0 -> wp (main_step config address ch) (main_good s) s.
Proof.
  intros G I Hch Ha. pose proof (pi_point _ _ _ _ I) as Hp. unfold point_ok in Hp.
  destruct (main s) as [index|index|index p sum|index p sum| |index| |r] eqn:Hm; [..|done].
  - unfold main_step. wp_step. wp_step. rewrite Hm. by eapply wp_good_create.
  - unfold main_step. wp_step. wp_step. rewrite Hm. by eapply wp_good_produce.
  - assert (Hn : main_id ∉ not_full (queue s)) by (rewrite (nobody_waits _ G); [apply not_elem_of_nil|by rewrite Hm]).
    unfold main_step. wp_step. wp_step. rewrite Hm. wp_step. unfold on_queue, queue_push. wp_step.
    pose proof Hch as Hc. apply Is_true_true, andb_prop in Hc as [[-> _]%andb_prop _].
    eapply wp_mono; [eapply (wp_good_push s F D index p sum); [done|done|done|by left|done]|]. intros x q Hx. wp_step.
    eapply wp_mono; [exact Hx|]. intros [] s' ?. by wp_step.
  - unfold main_step. wp_step. wp_step. rewrite Hm. case_decide; [wp_step; apply main_good_same; [unfold exited; by rewrite Hm|done]|].
    wp_step. unfold on_queue. wp_step.
    eapply wp_mono; [eapply (wp_good_push s F D index p sum); [done|done|done|by right|done]|]. intros x q Hx. wp_step.
    eapply wp_mono; [exact Hx|]. intros [] s' ?. by wp_step.
  - by eapply wp_good_close.
  - by eapply wp_good_join.
  - by eapply wp_good_collect.
Qed.

(** ** Events *)

(** Every call of the library succeeds. *)
Definition good_event (e : pool_event) : bool :=
  match e with
  | main_event address ch => negb (address =? 0) && good_choices ch
  | worker_event _ ch => good_choices ch
  | spurious_wakeup _ => true
  end.

Definition spurious (e : pool_event) : bool := match e with spurious_wakeup _ => true | _ => false end.

Definition event_good s (e : pool_event) (b : bool) s' : Prop :=
  settled s' /\
  if spurious e then exited s' = exited s /\ work s' <= work s + 3
  else if b then exited s' = true \/ work s' < work s else s' = s.

Lemma wp_good_spurious s t :
  good_inv s -> exited s = false -> wp (on_queue (wake_spuriously t);; mret true) (event_good s (spurious_wakeup t)) s.
Proof.
  intros G He. unfold on_queue, wake_spuriously. wp_steps. set (s' := set_queue _ s).
  destruct (remove_spec t _ (g_waiters _ G)) as (H1 & H2 & H3).
  assert (Hnf : remove Nat.eq_dec t (not_full (queue s)) = [] \/ remove Nat.eq_dec t (not_full (queue s)) = not_full (queue s)).
  { destruct (g_main _ G) as [-> | (-> & _)]; [by left|]. cbn. destruct (Nat.eq_dec t main_id); [by left|by right]. }
  assert (Hlen : (length (not_full (queue s)) <= 1)%nat) by (destruct (g_main _ G) as [-> | (-> & _)]; cbn; lia).
  assert (G' : good_inv s').
  { split; cbn; try apply G; try done.
    - intros t' Ht'. by apply (g_waiting _ G), H2.
    - destruct Hnf as [-> | ->]; [by left|apply G].
    - intros Hc. destruct (g_quiet _ G Hc) as [E1 E2]. by rewrite E1, E2.
    - destruct (g_wake _ G) as [E|?]; [left; by rewrite E|right; lia]. }
  split; [|split].
  - unfold settled. unfold exited in He. cbn. destruct (main s); [exact G'..|done].
  - done.
  - unfold work. cbn. destruct Hnf as [-> | ->]; cbn; lia.
Qed.

Lemma wp_good_event s e :
  pool_ok config s -> settled s -> good_event e -> wp (pool_step config e) (event_good s e) s.
Proof.
  intros Hok Hs He. unfold pool_step. wp_step. wp_step. destruct (exited s) eqn:Hex.
  - wp_step. split; [done|]. destruct (spurious e); [split; [done|lia]|done].
  - assert (Hin : in_order config s /\ good_inv s) by (unfold pool_ok, settled, exited in *; by destruct (main s)).
    destruct Hin as ((F & D & I) & G). destruct e as [address ch|i ch|t]; cbn in He.
    + apply andb_True in He as [Ha%Is_true_true Hch]. apply negb_true_iff, Z.eqb_neq in Ha. by eapply wp_good_main.
    + eapply wp_mono; [eapply wp_good_worker; [done|by exists F, D|done]|]. intros b s' (G' & Em & Hb).
      unfold exited in Hex. split; [unfold settled; rewrite Em; by destruct (main s)|]. cbn. destruct b; [by right|done].
    + by apply wp_good_spurious.
Qed.

(** ** Bounded work *)

Lemma work_bound s F D : good_inv s -> pool_inv config s F D -> work_floor < work s.
Proof.
  intros G I. pose proof (waiters_bound _ G). destruct (g_size _ G) as [Hi Hsize]. pose proof (qw_count _ (pi_queue _ _ _ _ I)).
  pose proof (pi_produced _ _ _ _ I). pose proof (pi_point _ _ _ _ I) as Hp. unfold point_ok in Hp.
  assert (Hnf : (length (not_full (queue s)) <= 1)%nat) by (destruct (g_main _ G) as [-> | (-> & _)]; cbn; lia).
  assert (Hs : 0 <= Zsum ((fun w => point_work (point w)) <$> threads s)).
  { apply Zsum_nonneg, Forall_forall. intros w _. by destruct (point w). }
  assert (Hm : 1 <= main_work (main s)); [|unfold work, work_floor; lia].
  destruct (main s); cbn; unfold produce_work, close_work, join_work; lia.
Qed.

(** The steps that are neither idle nor a spurious wake-up. *)
Fixpoint effective (events : list pool_event) s : nat :=
  match events with
  | [] => 0
  | e :: events' =>
      match pool_step config e s with
      | Done b s' => Nat.b2n (b && negb (spurious e)) + effective events' s'
      | _ => 0
      end
  end.

Definition spurious_count (events : list pool_event) : nat := length (List.filter spurious events).

Lemma exited_steps s e b s' : exited s = true -> pool_step config e s = Done b s' -> b = false /\ s' = s.
Proof. intros He. unfold pool_step, get, mbind, prog_bind. rewrite He. intros [= <- <-]. done. Qed.

Lemma effective_exited events s : exited s = true -> effective events s = 0%nat.
Proof.
  intros He. induction events as [|e events IH]; [done|]. cbn. unfold pool_step, get, mbind, prog_bind. rewrite He. exact IH.
Qed.

Lemma effective_bound events s :
  pool_ok config s -> settled s -> forallb good_event events -> exited s = false ->
  Z.of_nat (effective events s) <= work s - work_floor + 3 * Z.of_nat (spurious_count events).
Proof.
  revert s. induction events as [|e events IH]; intros s Hok Hs Hev Hex.
  - assert (Hin : in_order config s /\ good_inv s) by (unfold pool_ok, settled, exited in *; by destruct (main s)).
    destruct Hin as ((F & D & I) & G). pose proof (work_bound _ _ _ G I). cbn. lia.
  - cbn in Hev. apply andb_True in Hev as [He Hev].
    destruct (wp_run _ _ _ (wp_pool_step _ jobs_size s e Hok)) as (b & s' & E & Hok').
    pose proof (wp_done _ _ _ _ _ (wp_good_event s e Hok Hs He) E) as [Hs' Hb].
    assert (Hw : work_floor < work s).
    { assert (Hin : in_order config s /\ good_inv s) by (unfold pool_ok, settled, exited in *; by destruct (main s)).
      destruct Hin as ((F & D & I) & G). by eapply work_bound. }
    cbn [effective]. rewrite E. unfold spurious_count. cbn [List.filter].
    destruct (spurious e) eqn:Hsp; rewrite ?andb_false_r; cbn [length negb].
    + destruct Hb as [He' Hle]. rewrite Hex in He'. specialize (IH s' Hok' Hs' Hev He'). unfold spurious_count in IH.
      simpl. lia.
    + rewrite andb_true_r. destruct b.
      * destruct Hb as [He'|Hlt]; [rewrite (effective_exited _ _ He'); simpl; lia|].
        destruct (exited s') eqn:He'; [rewrite (effective_exited _ _ He'); simpl; lia|].
        specialize (IH s' Hok' Hs' Hev He'). unfold spurious_count in IH. simpl. lia.
      * subst s'. specialize (IH s Hok Hs Hev Hex). unfold spurious_count in IH. simpl. lia.
Qed.

(** ** No deadlock *)

Definition worker_ready s (i : nat) : Prop :=
  exists w, threads s !! i = Some w /\ point w <> at_return /\ (point w = at_pop_wait -> thread_id i ∉ not_empty (queue s)).

Lemma worker_enabled s i ch b s' : worker_ready s i -> worker_main config i ch s = Done b s' -> b = true.
Proof.
  intros ([p r] & Hi & Hp & Hw). unfold worker_main, get. unfold mbind at 1, prog_bind at 1. rewrite Hi.
  cbn [point] in *. destruct p; [..|done]; intros E.
  2: rewrite decide_False in E by auto.
  all: by peel E.
Qed.

Definition main_ready s (address : Z) : Prop :=
  match main s with
  | at_produce _ => heap s !! address = None
  | at_push_wait _ _ _ => main_id ∉ not_full (queue s)
  | at_join index => forall w, threads s !! Z.to_nat index = Some w -> point w = at_return
  | at_exit _ => False
  | _ => True
  end.

Lemma main_enabled s address ch b s' :
  main_ready s address -> call_ok ch = true -> (forall index, main s = at_join index -> 0 <= index) ->
  main_step config address ch s = Done b s' -> b = true.
Proof.
  unfold main_ready. intros Hr Hc Hj. unfold main_step, get. unfold mbind at 1, prog_bind at 1.
  destruct (main s) as [index|index|index p sum|index p sum| |index| |r] eqn:Hm; intros E.
  - unfold create_step in E. repeat case_match; by peel E.
  - unfold produce_step, get in E. unfold mbind at 1, prog_bind at 1 in E.
    destruct (index <? jobs config); [|by peel E]. rewrite decide_False in E by (rewrite Hr; by intros []).
    apply done_bind in E as (? & s1 & _ & E). apply done_bind in E as (s2 & s3 & _ & E). repeat case_match; by peel E.
  - by peel E.
  - rewrite decide_False in E by done. by peel E.
  - by peel E.
  - rewrite Hc in E. specialize (Hj index eq_refl). destruct (Z.ltb_spec index (Z.of_nat (length (threads s)))); [|by peel E].
    destruct (threads s !! Z.to_nat index) as [w|] eqn:Hw; [|apply lookup_ge_None in Hw; lia].
    specialize (Hr w eq_refl). destruct w as [pt r]. cbn in Hr. subst pt. by peel E.
  - by peel E.
  - done.
Qed.

(** Not every worker waits when there is a job in the queue. *)
Lemma some_worker_ready s :
  good_inv s -> closed (queue s) = false -> 0 < q_count (queue s) -> threads s <> [] -> exists i, worker_ready s i.
Proof.
  intros G Hc Hq Hne. assert (Hlt : (length (not_empty (queue s)) < length (threads s))%nat).
  { destruct (g_wake _ G) as [->|?]; [destruct (threads s); [done|simpl; lia]|lia]. }
  destruct (decide (Exists (fun i => thread_id i ∉ not_empty (queue s)) (seq 0 (length (threads s))))) as [He|He].
  - apply Exists_exists in He as (i & Hi & Hn). apply elem_of_seq in Hi.
    destruct (lookup_lt_is_Some_2 (threads s) i ltac:(lia)) as [w Hw]. exists i, w. split_and!; [done| |done].
    intros Hr. pose proof (nobody_stopped _ _ _ G Hc Hw) as Hs. unfold stopped in Hs. by rewrite Hr in Hs.
  - exfalso.
    assert (Hle : (length (seq 1 (length (threads s))) <= length (not_empty (queue s)))%nat); [|rewrite length_seq in Hle; lia].
    apply submseteq_length, NoDup_submseteq; [apply NoDup_seq|]. intros t Ht. apply elem_of_seq in Ht.
    apply dec_stable. intros Hn. apply He, Exists_exists. exists (pred t). rewrite elem_of_seq. unfold thread_id.
    split; [lia|]. by replace (S (pred t)) with t by lia.
Qed.

(** Some thread is ready. *)
Lemma someone_ready s F D :
  good_inv s -> pool_inv config s F D -> (exists i, worker_ready s i) \/ forall address, heap s !! address = None -> main_ready s address.
Proof.
  intros G I. unfold main_ready. pose proof (pi_queue _ _ _ _ I) as W.
  destruct (main s) as [index|index|index p sum|index p sum| |index| |r] eqn:Hm; try by right.
  - destruct (g_main _ G) as [E|(E & _ & Hfull)]; [right; rewrite E; intros; apply not_elem_of_nil|]. left.
    pose proof (qw_capacity _ W). pose proof (g_started _ G) as Hs. unfold producing in Hs. rewrite Hm in Hs. specialize (Hs Logic.I).
    apply some_worker_ready; [done| |lia|by intros Hn; rewrite Hn in Hs; simpl in Hs; lia].
    rewrite (g_closed _ G). unfold past_close. by rewrite Hm.
  - destruct (threads s !! Z.to_nat index) as [w|] eqn:Hw; [|by right].
    destruct (decide (point w = at_return)) as [Hp|Hp]; [right; intros _ _ w'; by intros [= <-]|]. left. exists (Z.to_nat index), w.
    split_and!; [done|done|]. intros _. assert (Hc : closed (queue s) = true) by (rewrite (g_closed _ G); unfold past_close; by rewrite Hm).
    destruct (g_quiet _ G Hc) as [-> _]. apply not_elem_of_nil.
  - pose proof (pi_point _ _ _ _ I) as Hp. unfold point_ok in Hp. by rewrite Hm in Hp.
Qed.

(** Until main has returned, some step is possible that is no spurious wake-up. *)
Lemma not_stuck s :
  pool_ok config s -> settled s -> exited s = false ->
  exists e s', good_event e /\ spurious e = false /\ pool_step config e s = Done true s'.
Proof.
  intros Hok Hs Hex. assert (Hin : in_order config s /\ good_inv s) by (unfold pool_ok, settled, exited in *; by destruct (main s)).
  destruct Hin as ((F & D & I) & G). pose proof (pi_point _ _ _ _ I) as Hp.
  assert (Hgo : forall e, (forall b s', pool_step config e s = Done b s' -> b = true) -> exists s', pool_step config e s = Done true s').
  { intros e He. destruct (wp_run _ _ _ (wp_pool_step _ jobs_size s e Hok)) as (b & s' & E & _). exists s'. by rewrite <- (He _ _ E). }
  destruct (someone_ready _ _ _ G I) as [[i Hi]|Hm].
  - exists (worker_event i (all_ok 0)). destruct (Hgo (worker_event i (all_ok 0))) as [s' E]; [|by exists s'].
    intros b s' E. unfold pool_step, get in E. unfold mbind, prog_bind in E. rewrite Hex in E. by eapply worker_enabled.
  - set (address := fresh (dom (heap s) ∪ {[0]})). assert (Ha : address ∉ dom (heap s) ∪ {[0]}) by apply is_fresh.
    exists (main_event address (all_ok 0)). destruct (Hgo (main_event address (all_ok 0))) as [s' E].
    + intros b s' E. unfold pool_step, get in E. unfold mbind, prog_bind in E. rewrite Hex in E.
      eapply (main_enabled s address (all_ok 0)); [apply Hm, not_elem_of_dom; set_solver|done| |exact E].
      intros index Hj. unfold point_ok in Hp. rewrite Hj in Hp. by destruct Hp as (_ & ? & _).
    + exists s'. split; [|by split]. cbn. rewrite (proj2 (Z.eqb_neq address 0)); [done|]. set_solver.
Qed.

Lemma wp_good_run s events :
  pool_ok config s -> settled s -> forallb good_event events ->
  wp (pool_run config events) (fun _ s' => pool_ok config s' /\ settled s') s.
Proof.
  revert s. induction events as [|e events IH]; intros s Hok Hs Hev; cbn [pool_run]; wp_step; [done|].
  cbn in Hev. apply andb_True in Hev as [He Hev].
  destruct (wp_run _ _ _ (wp_pool_step _ jobs_size s e Hok)) as (b & s' & E & Hok').
  pose proof (wp_done _ _ _ _ _ (wp_good_event s e Hok Hs He) E) as [Hs' _].
  unfold wp. rewrite E. by apply IH.
Qed.
End progress.

(** ** The initial state *)

Lemma initial_queue_wf n : 0 < n -> 2 * n <= SIZE_MAX -> queue_wf (initial_queue n).
Proof. intros. split; cbn; [rewrite length_replicate; lia|lia|lia|lia|lia]. Qed.

Lemma initial_in_order config :
  is_size (jobs config) -> 0 < queue_capacity config -> 2 * queue_capacity config <= SIZE_MAX -> in_order config (initial_pool config).
Proof.
  intros [Hj _] Hc Hm. exists [], []. split; [by apply initial_queue_wf| | |cbn; lia|done|by unfold point_ok; cbn].
  - split; cbn; [done|constructor| |constructor|done]. intros p. rewrite lookup_empty, elem_of_nil. split; [by intros []|done].
  - split; cbn; [rewrite length_replicate; lia| |constructor|done|done|constructor].
    intros i Hi. unfold array_get. rewrite (proj2 (Z.leb_le 0 i)) by lia. rewrite lookup_replicate_2 by lia.
    by rewrite decide_False by apply not_elem_of_nil.
Qed.

Lemma initial_good config : 0 <= workers config -> good_inv config (initial_pool config).
Proof. intros Hw. split; cbn; try done; try (by left); try constructor; try (by intros ? ?%not_elem_of_nil). Qed.
