(* ===== verification/WorkerProperties.v ===== *)
(** * Properties of the worker-pool example

    The theorems about the example client (src/examples/worker_pool.c), with their
    witnesses: a command line for two workers and three jobs, and one whole run. *)

From Stdlib Require Import Ascii String.
From stdpp Require Import strings.
From S2P Require Import Prelude LockedAllocator Scripted WorkerJob WorkerArguments JobQueue WorkerPool PoolSpec PoolRuns PoolProgress.

(** What main has checked when it starts its threads. *)
Lemma main_start_pool arguments allocated config s :
  main_start arguments allocated = inr (config, s) ->
  s = initial_pool config /\ configuration_wf config /\ 0 < workers config /\ 0 < queue_capacity config /\
  2 * queue_capacity config <= SIZE_MAX.
Proof.
  unfold main_start. destruct (parse_arguments arguments) as [|?|c] eqn:E; [done|done|].
  destruct (_ || _); [done|]. destruct (_ || _) eqn:Hc; [done|]. intros [= <- <-].
  pose proof (parse_arguments_wf _ _ E) as W. apply orb_false_elim in Hc as [_ Hc]. apply Z.ltb_ge in Hc.
  pose proof (cw_consistent _ W) as (H1 & H2 & _). destruct (cw_workers _ W), (cw_capacity _ W). split_and!; [done|done|lia|lia|lia].
Qed.

Lemma main_start_ok arguments allocated config s :
  main_start arguments allocated = inr (config, s) ->
  is_size (jobs config) /\ 0 < workers config /\ pool_ok config s /\ settled config s /\ s = initial_pool config.
Proof.
  intros (-> & W & Hw & Hc & Hm)%main_start_pool. split_and!; [apply W|done| |apply initial_good; lia|done].
  apply in_order_ok, initial_in_order; [apply W|done|done].
Qed.

(** ** The pool *)

(** C4: whatever the scheduler does and whichever library calls fail, a run of the
    pool has no undefined behaviour: no job is used after it is released, released
    twice or lost. While main runs, every allocated job is in exactly one place and
    every number produced is in flight or done exactly once; the final report is
    right about all of them, and no job is left allocated unless a join failed. *)
Theorem worker_pool_accounts (arguments : list string) (allocated : bool) (config : configuration) (s : pool)
    (events : list pool_event) :
  main_start arguments allocated = inr (config, s) ->
  exists s', pool_run config events s = Done tt s' /\
    match main s' with at_exit r => report_ok config s' r | _ => in_order config s' end.
Proof.
  intros (Hj & _ & Hok & _)%main_start_ok. destruct (wp_run _ _ _ (wp_pool_run config Hj s events Hok)) as ([] & s' & E & H).
  by exists s'.
Qed.

(** C5: when the library calls succeed the pool never gets stuck and always finishes:
    until main has returned some thread can take a step that is no spurious wake-up,
    and apart from three for every spurious wake-up there are at most
    [9 * (workers + jobs) + 7] steps in all, under every schedule. *)
Theorem worker_pool_terminates (arguments : list string) (allocated : bool) (config : configuration) (s : pool)
    (events : list pool_event) :
  main_start arguments allocated = inr (config, s) -> forallb good_event events ->
  exists s', pool_run config events s = Done tt s' /\
    Z.of_nat (effective config events s) <= 9 * (workers config + jobs config) + 7 + 3 * Z.of_nat (spurious_count events) /\
    (exited s' = false -> exists e s2, good_event e /\ spurious e = false /\ pool_step config e s' = Done true s2).
Proof.
  intros (Hj & Hw & Hok & Hs & E0)%main_start_ok Hev.
  destruct (wp_run _ _ _ (wp_good_run config Hj Hw s events Hok Hs Hev)) as ([] & s' & E & Hok' & Hs').
  exists s'. split; [done|]. split; [|by apply not_stuck].
  pose proof (effective_bound config Hj Hw events s Hok Hs Hev) as Hb. subst s. specialize (Hb eq_refl).
  unfold work, work_floor in Hb. cbn in Hb. unfold produce_work, close_work, join_work in Hb. lia.
Qed.

(** C6: when the library calls succeed and no failure is injected, main returns zero,
    every job was produced and consumed exactly once and none is left, and the
    checksum the workers computed is the sum over all jobs. *)
Theorem worker_pool_success (arguments : list string) (allocated : bool) (config : configuration) (s s' : pool)
    (events : list pool_event) (r : report) :
  main_start arguments allocated = inr (config, s) -> forallb good_event events -> no_injection config ->
  pool_run config events s = Done tt s' -> main s' = at_exit r ->
  exit_code s' = Some 0 /\ r_jobs_produced r = jobs config /\ r_jobs_consumed r = jobs config /\
  r_duplicate_jobs r = 0 /\ r_invalid_jobs r = 0 /\ r_missing_jobs r = 0 /\ r_abandoned_jobs r = 0 /\ heap s' = ∅ /\
  r_checksum r = Zsum (job_sum config <$> seqZ 0 (jobs config)) mod WORD.
Proof.
  intros (Hj & Hw & Hok & Hs & _)%main_start_ok Hev Hno E Hm.
  destruct (wp_done _ _ _ _ _ (wp_good_run config Hj Hw s events Hok Hs Hev) E) as [Hok' Hs'].
  unfold pool_ok in Hok'. unfold settled in Hs'. rewrite Hm in Hok', Hs'. specialize (Hs' Hno).
  destruct Hok' as [_ Hexp Hsucc [Hd Hi] Hjoin]. destruct (Hsucc Hs') as (Hall & Hp & Ha).
  destruct (Hjoin Hall) as (Hh & _ & _ & Hc & Hmiss & Hsum & _). rewrite (Hsum Ha), Hexp.
  unfold exit_code. rewrite Hm, Hs', Hp in *. split_and!; [done|done|lia|done|done|lia|done|done|done].
Qed.

(** ** The queue *)

(** C20: the ring buffer implements a bounded first-in first-out list: with a lock that
    can be acquired, push, pop and close return what the operations of the abstract
    list return, and lead to its new contents; with a failing lock, push and pop
    report it and change nothing. *)
Theorem job_queue_refines_fifo (q : job_queue) (me : nat) (p : Z) (ch : choices) :
  queue_wf q ->
  (exists r q', queue_push me p ch q = Done r q' /\ queue_wf q' /\
    if call_ok ch then (r, fifo_of q') = fifo_push p (fifo_of q) else r = Returned (-1) /\ q' = q) /\
  (exists r q', queue_pop me ch q = Done r q' /\ queue_wf q' /\
    if call_ok ch then (r, fifo_of q') = fifo_pop (fifo_of q) else r = Returned (-1, 0) /\ q' = q) /\
  (exists b q', queue_close ch q = Done b q' /\ queue_wf q' /\
    fifo_of q' = if call_ok ch then fifo_close (fifo_of q) else fifo_of q).
Proof.
  intros W. pose proof (contents_length q W) as Hlen. pose proof (qw_count _ W) as Hcount. split_and!; apply wp_run.
  - unfold queue_push. destruct (call_ok ch) eqn:Hc; [|by wp_step].
    eapply wp_mono; [by apply wp_push_loop|]. intros r q'. unfold fifo_push, fifo_of. cbn [f_closed f_items f_bound].
    rewrite Hlen, Hc. destruct (closed q) eqn:Hcl; [intros [-> ->]; by rewrite Hcl|]. case_decide as Hf.
    + intros [(_ & -> & ->)|[? _]]; [|done]. rewrite (proj2 (Z.ltb_ge _ _)) by lia. cbn. rewrite Hcl.
      split; [by destruct W|done].
    + intros [-> ->]. rewrite (proj2 (Z.ltb_lt _ _)) by lia. split; [apply pushed_wf; [done|lia]|].
      rewrite <- (contents_push q p W) by lia. cbn. by rewrite Hcl.
  - unfold queue_pop. destruct (call_ok ch) eqn:Hc; [|by wp_step].
    eapply wp_mono; [by apply wp_pop_loop|]. intros r q'. unfold fifo_pop, fifo_of. cbn [f_closed f_items f_bound].
    rewrite Hc. case_decide as H0.
    + rewrite (proj2 (contents_nil q W) H0). destruct (closed q) eqn:Hcl.
      * intros [-> ->]. rewrite Hcl. by rewrite (proj2 (contents_nil q W) H0).
      * intros [(_ & -> & ->)|[? _]]; [|done]. split; [by destruct W|]. cbn. rewrite Hcl.
        change (contents (set_not_empty (me :: not_empty q) q)) with (contents q). by rewrite (proj2 (contents_nil q W) H0).
    + intros (x & -> & -> & ->). split; [apply popped_wf; [done|lia]|done].
  - unfold queue_close. destruct (call_ok ch); [|by wp_step]. wp_steps.
    destruct (signal_ok ch), (broadcast_ok ch); (split; [by destruct W|done]).
Qed.

(** ** Jobs and arguments *)

(** C21: jobs with different numbers have different keys, every job the producer makes
    passes the validity test, and a job of the same key and size passes it exactly
    when its payload is the one the producer writes. *)
Theorem job_validity (seed i j : Z) (x : job) :
  0 <= seed < WORD -> 0 <= i < WORD -> 0 <= j < WORD -> payload_size x = Z.of_nat (length (payload x)) ->
  (key_for seed i = key_for seed j -> i = j) /\ job_is_valid (make_job seed i) = Some true /\
  exists b, job_is_valid x = Some b /\ (b = true <-> payload x = fill_payload (job_key x) (payload_size x)).
Proof.
  intros Hs Hi Hj Hlen. split; [by apply key_for_inj|]. split; [apply make_job_valid|].
  unfold job_is_valid. destruct (job_valid_from_spec x 0 (Z.to_nat (payload_size x))) as (b & E & Hb); [lia|lia|].
  exists b. split; [done|]. rewrite Hb. split.
  - intros Hall. apply list_eq. intros k. unfold fill_payload. rewrite list_lookup_fmap.
    destruct (decide (Z.of_nat k < payload_size x)) as [Hk|Hk].
    + rewrite lookup_seqZ_lt by lia. specialize (Hall (Z.of_nat k) ltac:(lia)). unfold array_get in Hall.
      rewrite (proj2 (Z.leb_le _ _)), Nat2Z.id in Hall by lia. rewrite Hall. by simpl.
    + rewrite lookup_seqZ_ge by lia. apply lookup_ge_None. lia.
  - intros -> k Hk. unfold array_get, fill_payload. rewrite (proj2 (Z.leb_le 0 k)) by lia.
    rewrite list_lookup_fmap, lookup_seqZ_lt by lia. simpl. do 2 f_equal. lia.
Qed.

(** C22: the number parsers accept exactly optional white space, an optional sign that
    is not a leading minus, and decimal digits of a value that fits the type; the
    result is that value, negated modulo [2^64] after a minus sign. *)
Theorem parse_numbers_exact (text : string) (v : Z) :
  (parse_size text = Some v <-> accepted text v) /\ (parse_seed text = Some v <-> accepted text v) /\
  (accepted text v -> is_size v).
Proof. rewrite parse_size_seed. split_and!; [apply parse_seed_accepted|apply parse_seed_accepted|apply accepted_size]. Qed.

(** C23: the command line is accepted exactly when it is a sequence of known options
    with acceptable numbers whose combined configuration is consistent; each field is
    then the last value given for it, or its default. Everything else ends in the
    help text or an error. *)
Theorem parse_arguments_exact (arguments : list string) (c : configuration) :
  parse_arguments arguments = parse_success c <->
  exists pairs, arguments = flatten pairs /\ Forall good_option pairs /\ c = configured pairs default_configuration /\
    consistent c.
Proof. apply parse_options_success. Qed.

(** The check for a minus sign looks at the first character only. *)
Lemma minus_after_space : parse_size " -1" = Some SIZE_MAX /\ parse_size "-1" = None.
Proof. by vm_compute. Qed.

(** ** A concrete run *)

Definition sample_arguments : list string := ["--workers"; "2"; "--jobs"; "3"; "--queue-capacity"; "1"]%string.
Definition sample_configuration : configuration := Configuration 2 3 1 20260912 0 0.
Definition sample_pool : pool := initial_pool sample_configuration.

(** Three threads in turn; every allocation is at a new address. *)
Definition sample_events : list pool_event :=
  seq 0 16 ≫= (fun k => [main_event (4096 + 65536 * Z.of_nat k) (all_ok k); worker_event 0 (all_ok k); worker_event 1 (all_ok k)]).
Definition sample_final : pool := state_or sample_pool (pool_run sample_configuration sample_events sample_pool).
Definition sample_report : report :=
  match main sample_final with at_exit r => r | _ => Report RUN_INTERNAL_ERROR 0 0 0 0 0 0 0 0 0 0 end.

Lemma sample_start : main_start sample_arguments true = inr (sample_configuration, sample_pool).
Proof. by vm_compute. Qed.

Lemma sample_run : pool_run sample_configuration sample_events sample_pool = Done tt sample_final.
Proof. vm_compute. reflexivity. Qed.

Lemma sample_exit : main sample_final = at_exit sample_report.
Proof. vm_compute. reflexivity. Qed.

(** ** Witnesses *)

Lemma worker_pool_accounts_witness :
  exists s', pool_run sample_configuration sample_events sample_pool = Done tt s' /\
    match main s' with at_exit r => report_ok sample_configuration s' r | _ => in_order sample_configuration s' end.
Proof. apply (worker_pool_accounts sample_arguments true). apply sample_start. Defined.

Lemma worker_pool_terminates_witness :
  exists s', pool_run sample_configuration sample_events sample_pool = Done tt s' /\
    Z.of_nat (effective sample_configuration sample_events sample_pool) <= 9 * (2 + 3) + 7 + 3 * 0 /\
    (exited s' = false -> exists e s2, good_event e /\ spurious e = false /\ pool_step sample_configuration e s' = Done true s2).
Proof. apply (worker_pool_terminates sample_arguments true sample_configuration sample_pool sample_events sample_start). done. Defined.

Lemma worker_pool_success_witness :
  exit_code sample_final = Some 0 /\ r_jobs_produced sample_report = 3 /\ r_jobs_consumed sample_report = 3 /\
  r_duplicate_jobs sample_report = 0 /\ r_invalid_jobs sample_report = 0 /\ r_missing_jobs sample_report = 0 /\
  r_abandoned_jobs sample_report = 0 /\ heap sample_final = ∅ /\
  r_checksum sample_report = Zsum (job_sum sample_configuration <$> seqZ 0 3) mod WORD.
Proof.
  apply (worker_pool_success sample_arguments true sample_configuration sample_pool sample_final sample_events sample_report);
    [apply sample_start|done|done|apply sample_run|apply sample_exit].
Defined.

Lemma job_queue_refines_fifo_witness :
  (exists r q', queue_push 0 4096 (all_ok 0) (initial_queue 2) = Done r q' /\ queue_wf q' /\
    (r, fifo_of q') = fifo_push 4096 (fifo_of (initial_queue 2))) /\
  (exists r q', queue_pop 0 (all_ok 0) (initial_queue 2) = Done r q' /\ queue_wf q' /\
    (r, fifo_of q') = fifo_pop (fifo_of (initial_queue 2))) /\
  (exists b q', queue_close (all_ok 0) (initial_queue 2) = Done b q' /\ queue_wf q' /\
    fifo_of q' = fifo_close (fifo_of (initial_queue 2))).
Proof. apply (job_queue_refines_fifo (initial_queue 2) 0 4096 (all_ok 0)). by apply initial_queue_wf. Defined.

Lemma job_validity_witness :
  (key_for 20260912 0 = key_for 20260912 1 -> 0 = 1) /\ job_is_valid (make_job 20260912 0) = Some true /\
  exists b, job_is_valid (Job 0 7 2 [7; 157]) = Some b /\ (b = true <-> [7; 157] = fill_payload 7 2).
Proof. apply (job_validity 20260912 0 1 (Job 0 7 2 [7; 157])); done. Defined.

(** Both directions at " +42". *)
Lemma parse_numbers_exact_witness :
  parse_size " +42" = Some 42 /\ accepted " +42" 42 /\ is_size 42.
Proof.
  assert (E : parse_size " +42" = Some 42) by (by vm_compute). destruct (parse_numbers_exact " +42" 42) as (H1 & _ & H3).
  split; [exact E|]. pose proof (proj1 H1 E) as Ha. split; [exact Ha|exact (H3 Ha)].
Defined.

Lemma parse_arguments_exact_witness :
  exists pairs, sample_arguments = flatten pairs /\ Forall good_option pairs /\
    sample_configuration = configured pairs default_configuration /\ consistent sample_configuration.
Proof. apply (parse_arguments_exact sample_arguments sample_configuration). by vm_compute. Defined.
