(* ===== verification/WorkerHarness.v ===== *)
(** * The harness of the worker-pool example (src/examples/worker_pool.c)

    What main acquires before its threads start and releases after they are joined:
    the arrays, and the queue with its mutex and conditions. The heap is the set of
    blocks allocated; a release of anything else is undefined. *)

From Stdlib Require Import String.
From stdpp Require Import strings.
From S2P Require Import Prelude Memory LockedAllocator WorkerArguments JobQueue WorkerPool.

(** ** The library's answers *)

(** By the number of the call: the address malloc or calloc returns, given the blocks
    in use, and the error of an initialisation. *)
Class CLibrary := {
  sys_malloc : nat -> gset Z -> Z;
  sys_init : nat -> Z
}.

(** An allocation returns null or a block not in use. *)
Class CLibraryLaws `{CLibrary} : Prop := {
  sys_malloc_unused n X : sys_malloc n X = NULL \/ sys_malloc n X ∉ X
}.

(** ** State *)

Inductive sync_object := queue_mutex | queue_not_empty | queue_not_full.

#[export] Instance sync_object_eq_dec : EqDecision sync_object.
Proof. solve_decision. Defined.
#[export] Instance sync_object_countable : Countable sync_object.
Proof.
  refine (inj_countable' (fun o => match o with queue_mutex => 0%nat | queue_not_empty => 1%nat | queue_not_full => 2%nat end)
    (fun n => match n with 0%nat => queue_mutex | 1%nat => queue_not_empty | _ => queue_not_full end) _).
  by intros [].
Defined.

Record harness := Harness {
  blocks : gset Z;                 (* allocated with malloc or calloc *)
  objects : gset sync_object;      (* initialised and not destroyed *)
  queue_slots : Z;                 (* queue.slots *)
  queue_size : Z;                  (* queue.capacity *)
  library_calls : nat
}.

(** [p] joins the blocks unless it is null. *)
Definition with_block (p : Z) (X : gset Z) : gset Z := if p =? NULL then X else {[p]} ∪ X.

(** The local variables of main that hold the arrays. *)
Record arrays := Arrays { a_threads : Z; a_workers : Z; a_seen : Z }.

Section code.
Context `{CLibrary}.

(** *** Library calls *)

Definition c_malloc (size : Z) : prog harness Z :=
  h ← get;
  let p := if SIZE_MAX <? size then NULL else sys_malloc (library_calls h) (blocks h) in
  modify (fun h => Harness (with_block p (blocks h)) (objects h) (queue_slots h) (queue_size h) (S (library_calls h)));;
  mret p.

(** calloc fails when the product overflows. *)
Definition c_calloc (count size : Z) : prog harness Z := c_malloc (count * size).

Definition c_free (p : Z) : prog harness unit :=
  if p =? NULL then mret tt
  else
    h ← get;
    demand (p ∈ blocks h);;
    modify (fun h => Harness (blocks h ∖ {[p]}) (objects h) (queue_slots h) (queue_size h) (library_calls h)).

(** pthread_mutex_init and pthread_cond_init: undefined on an initialised object. *)
Definition sync_init (o : sync_object) : prog harness Z :=
  h ← get;
  demand (o ∉ objects h);;
  let error := sys_init (library_calls h) in
  modify (fun h => Harness (blocks h) (if error =? 0 then {[o]} ∪ objects h else objects h) (queue_slots h) (queue_size h)
                     (S (library_calls h)));;
  mret error.

(** pthread_mutex_destroy and pthread_cond_destroy, on objects no thread uses. *)
Definition sync_destroy (o : sync_object) : prog harness unit :=
  h ← get;
  demand (o ∈ objects h);;
  modify (fun h => Harness (blocks h) (objects h ∖ {[o]}) (queue_slots h) (queue_size h) (library_calls h)).

Definition set_queue_slots (p : Z) : prog harness unit :=
  modify (fun h => Harness (blocks h) (objects h) p (queue_size h) (library_calls h)).
Definition set_queue_size (n : Z) : prog harness unit :=
  modify (fun h => Harness (blocks h) (objects h) (queue_slots h) n (library_calls h)).

(** *** The queue *)

Definition free_queue_slots : prog harness unit := h ← get; c_free (queue_slots h).

Definition queue_initialize (capacity : Z) : prog harness bool :=
  set_queue_slots NULL;; set_queue_size 0;;
  p ← c_calloc capacity 8;
  set_queue_slots p;;
  if p =? NULL then mret false
  else
    set_queue_size capacity;;
    error ← sync_init queue_mutex;
    if negb (error =? 0) then free_queue_slots;; set_queue_slots NULL;; mret false
    else
      error ← sync_init queue_not_empty;
      if negb (error =? 0) then
        sync_destroy queue_mutex;; free_queue_slots;; set_queue_slots NULL;; mret false
      else
        error ← sync_init queue_not_full;
        if negb (error =? 0) then
          sync_destroy queue_not_empty;; sync_destroy queue_mutex;; free_queue_slots;; set_queue_slots NULL;; mret false
        else mret true.

Definition queue_destroy : prog harness unit :=
  sync_destroy queue_not_full;; sync_destroy queue_not_empty;; sync_destroy queue_mutex;; free_queue_slots.

(** *** main *)

(** Up to the initialisation of the marks: an exit code, or what the threads need. *)
Definition main_prepare (arguments : list string) : prog harness (Z + (configuration * arrays)) :=
  match parse_arguments arguments with
  | parse_help => mret (inl 0)
  | parse_failure _ => mret (inl 2)
  | parse_success config =>
      if (SIZE_MAX / sizeof_pthread <? workers config) || (SIZE_MAX / sizeof_worker_context <? workers config)
         || (SIZE_MAX / 1 <? jobs config) then mret (inl 2)
      else
        threads ← c_calloc (workers config) sizeof_pthread;
        contexts ← c_calloc (workers config) sizeof_worker_context;
        seen ← (if negb (jobs config =? 0) then c_malloc (wmul (jobs config) 1) else mret NULL);
        ok ← (if (threads =? NULL) || (contexts =? NULL) || (negb (jobs config =? 0) && (seen =? NULL))
              then mret false else queue_initialize (queue_capacity config));
        if (ok : bool) then mret (inr (config, Arrays threads contexts seen))
        else c_free seen;; c_free contexts;; c_free threads;; mret (inl 6)
  end.

(** Once all threads are joined. *)
Definition main_release (a : arrays) : prog harness unit :=
  queue_destroy;; c_free (a_seen a);; c_free (a_workers a);; c_free (a_threads a).
End code.

(** ** Contracts *)

(** What the program holds. *)
Definition held (h : harness) : gset Z * gset sync_object := (blocks h, objects h).

(** The blocks main owns while its threads run. *)
Definition owned_blocks (config : configuration) (a : arrays) (h : harness) : list Z :=
  queue_slots h :: (if jobs config =? 0 then [] else [a_seen a]) ++ [a_workers a; a_threads a].

(** The initialised objects of a queue. *)
Definition queue_objects : gset sync_object := {[queue_not_full]} ∪ ({[queue_not_empty]} ∪ ({[queue_mutex]} ∪ ∅)).

(** Everything is there, from the state [h] on. *)
Record prepared (config : configuration) (a : arrays) (h h' : harness) : Prop := {
  pr_blocks : blocks h' = list_to_set (owned_blocks config a h') ∪ blocks h;
  pr_distinct : NoDup (owned_blocks config a h');
  pr_unused : forall p, p ∈ owned_blocks config a h' -> p <> NULL /\ p ∉ blocks h;
  pr_no_marks : jobs config = 0 -> a_seen a = NULL;
  pr_objects : forall x, x ∈ objects h';
  pr_size : queue_size h' = queue_capacity config
}.

(** A block that may be freed to get [X] back. *)
Definition on_top (p : Z) (X : gset Z) : Prop := p = NULL \/ p ∉ X.

Lemma with_block_remove p X : p <> NULL -> on_top p X -> with_block p X ∖ {[p]} = X.
Proof. intros Hp [?|Hx]; [done|]. unfold with_block. rewrite (proj2 (Z.eqb_neq _ _) Hp). set_solver. Qed.

(** *** Blocks on top of each other *)

Fixpoint piled (l : list Z) (X : gset Z) : Prop :=
  match l with
  | [] => True
  | p :: l' => p <> NULL /\ (p ∉ (list_to_set l' ∪ X : gset Z)) /\ piled l' X
  end.

Lemma with_block_pile p l X : p <> NULL -> with_block p (list_to_set l ∪ X) = list_to_set (p :: l) ∪ X.
Proof. intros Hp. unfold with_block. rewrite (proj2 (Z.eqb_neq _ _) Hp). cbn. by rewrite (assoc_L (∪)). Qed.

Lemma with_block_NULL X : with_block NULL X = X.
Proof. done. Qed.

Lemma pile_nil (X : gset Z) : list_to_set ([] : list Z) ∪ X = X.
Proof. cbn. by rewrite (left_id_L ∅ (∪)). Qed.

Lemma piled_nodup l X : piled l X -> NoDup l.
Proof. induction l as [|p l IH]; [constructor|]. intros (_ & Hp & Hl). constructor; [set_solver|by apply IH]. Qed.

Lemma piled_unused l X p : piled l X -> p ∈ l -> p <> NULL /\ p ∉ X.
Proof.
  induction l as [|p' l IH]; [by intros _ ?%not_elem_of_nil|]. intros (Hn & Hp & Hl) [->|Hin]%elem_of_cons; [|by apply IH].
  split; [done|set_solver].
Qed.

Section contracts.
Context `{CLibrary, !CLibraryLaws}.

Lemma wp_c_malloc size X o q n k (Q : Z -> harness -> Prop) :
  (forall p, on_top p X -> (p <> NULL -> size <= SIZE_MAX) -> Q p (Harness (with_block p X) o q n (S k))) ->
  wp (c_malloc size) Q (Harness X o q n k).
Proof.
  intros HQ. unfold c_malloc. wp_steps. cbn. apply HQ.
  - destruct (SIZE_MAX <? size); [by left|apply sys_malloc_unused].
  - destruct (Z.ltb_spec SIZE_MAX size); [done|lia].
Qed.

Lemma wp_c_free p X o q n k (Q : unit -> harness -> Prop) :
  on_top p X -> Q tt (Harness X o q n k) -> wp (c_free p) Q (Harness (with_block p X) o q n k).
Proof.
  intros Ht HQ. unfold c_free. destruct (Z.eqb_spec p NULL) as [->|Hp]; [by wp_steps|]. wp_step. wp_step.
  wp_step. apply wp_demand; [cbn; unfold with_block; rewrite (proj2 (Z.eqb_neq _ _) Hp); set_solver|].
  wp_steps. cbn. by rewrite with_block_remove.
Qed.

Lemma wp_sync_init x X o q n k (Q : Z -> harness -> Prop) :
  x ∉ o -> (forall error, Q error (Harness X (if error =? 0 then {[x]} ∪ o else o) q n (S k))) ->
  wp (sync_init x) Q (Harness X o q n k).
Proof. intros Hx HQ. unfold sync_init. wp_steps; [done|apply HQ]. Qed.

Lemma wp_sync_destroy x X o q n k (Q : unit -> harness -> Prop) :
  x ∉ o -> Q tt (Harness X o q n k) -> wp (sync_destroy x) Q (Harness X ({[x]} ∪ o) q n k).
Proof.
  intros Hx HQ. unfold sync_destroy. wp_steps; [cbn; set_solver|]. cbn.
  by replace (({[x]} ∪ o) ∖ {[x]}) with o by set_solver.
Qed.

(** A queue is initialised completely or nothing is left of it. *)
Lemma wp_queue_initialize c X q0 n0 k0 (Q : bool -> harness -> Prop) :
  (forall n k, Q false (Harness X ∅ NULL n k)) ->
  (forall p k, p <> NULL -> on_top p X -> c * 8 <= SIZE_MAX -> Q true (Harness (with_block p X) queue_objects p c k)) ->
  wp (queue_initialize c) Q (Harness X ∅ q0 n0 k0).
Proof.
  intros Hf Ht. unfold queue_initialize, set_queue_slots, set_queue_size, free_queue_slots, c_calloc. wp_steps. cbn.
  apply wp_c_malloc. intros p Hp Hs. wp_steps. cbn. destruct (Z.eqb_spec p NULL) as [->|Hn]; [wp_steps; apply Hf|].
  wp_steps. cbn. apply wp_sync_init; [set_solver|]. intros e1. destruct (e1 =? 0); cbn [negb].
  2: { wp_steps. cbn. apply wp_c_free; [done|]. wp_steps. apply Hf. }
  wp_step. apply wp_sync_init; [set_solver|]. intros e2. destruct (e2 =? 0); cbn [negb].
  2: { wp_step. apply wp_sync_destroy; [set_solver|]. wp_steps. cbn. apply wp_c_free; [done|]. wp_steps. apply Hf. }
  wp_step. apply wp_sync_init; [set_solver|]. intros e3. destruct (e3 =? 0); cbn [negb].
  - wp_steps. by apply Ht; [| |apply Hs].
  - wp_step. apply wp_sync_destroy; [set_solver|]. wp_step. apply wp_sync_destroy; [set_solver|].
    wp_steps. cbn. apply wp_c_free; [done|]. wp_steps. apply Hf.
Qed.

Lemma wp_queue_destroy p X n k (Q : unit -> harness -> Prop) :
  on_top p X -> Q tt (Harness X ∅ p n k) -> wp queue_destroy Q (Harness (with_block p X) queue_objects p n k).
Proof.
  intros Ht HQ. unfold queue_destroy, free_queue_slots. wp_step. apply wp_sync_destroy; [set_solver|].
  wp_step. apply wp_sync_destroy; [set_solver|]. wp_step. apply wp_sync_destroy; [set_solver|]. wp_steps. by apply wp_c_free.
Qed.

(** The state while the threads run. *)
Definition running_state (config : configuration) (a : arrays) (p : Z) (X : gset Z) (k : nat) : harness :=
  Harness (with_block p (with_block (a_seen a) (with_block (a_workers a) (with_block (a_threads a) X)))) queue_objects p
    (queue_capacity config) k.

(** Each block was allocated with the ones before it in use. *)
Definition stacked (config : configuration) (a : arrays) (p : Z) (X : gset Z) : Prop :=
  on_top (a_threads a) X /\ on_top (a_workers a) (with_block (a_threads a) X) /\
  on_top (a_seen a) (with_block (a_workers a) (with_block (a_threads a) X)) /\
  on_top p (with_block (a_seen a) (with_block (a_workers a) (with_block (a_threads a) X))) /\
  a_threads a <> NULL /\ a_workers a <> NULL /\ (a_seen a = NULL <-> jobs config = 0) /\ p <> NULL.

(** The marks are allocated unless there are no jobs. *)
Lemma wp_marks n X o q c k (Q : Z -> harness -> Prop) :
  (forall p k, on_top p X -> (n = 0 -> p = NULL) -> Q p (Harness (with_block p X) o q c k)) ->
  wp (if negb (n =? 0) then c_malloc (wmul n 1) else mret NULL) Q (Harness X o q c k).
Proof.
  intros HQ. destruct (Z.eqb_spec n 0) as [->|Hn]; cbn [negb].
  - wp_steps. by apply (HQ NULL); [left|].
  - apply wp_c_malloc. intros p Hp _. by apply HQ.
Qed.

(** The arrays are released, whichever of them were allocated. *)
Lemma wp_release_arrays {A} (m : prog harness A) X o q c k pt pw ps (Q : A -> harness -> Prop) :
  on_top pt X -> on_top pw (with_block pt X) -> on_top ps (with_block pw (with_block pt X)) ->
  wp m Q (Harness X o q c k) ->
  wp (c_free ps;; c_free pw;; c_free pt;; m) Q (Harness (with_block ps (with_block pw (with_block pt X))) o q c k).
Proof.
  intros Ht Hw Hs Hm. wp_step. apply wp_c_free; [done|]. wp_step. apply wp_c_free; [done|].
  wp_step. by apply wp_c_free.
Qed.

Lemma wp_main_prepare arguments X q n k :
  wp (main_prepare arguments) (fun r h' =>
    match r with
    | inl code => held h' = (X, ∅) /\ main_start arguments false = inl code
    | inr (config, a) => (exists p k', h' = running_state config a p X k' /\ stacked config a p X) /\
        main_start arguments true = inr (config, initial_pool config)
    end) (Harness X ∅ q n k).
Proof.
  unfold main_prepare, main_start. destruct (parse_arguments arguments) as [|?|config]; [by wp_steps..|].
  destruct (_ || _); [by wp_steps|]. unfold c_calloc. wp_step. apply wp_c_malloc. intros pt Ht _.
  wp_step. apply wp_c_malloc. intros pw Hw _. wp_step. apply wp_marks. intros ps k1 Hs Hj. wp_step.
  destruct (_ || _) eqn:E; [wp_step; apply wp_release_arrays; [done..|by wp_steps]|].
  apply wp_queue_initialize; intros; [apply wp_release_arrays; [done..|by wp_steps]|].
  apply orb_false_elim in E as [[E1 E2]%orb_false_elim E3]. apply Z.eqb_neq in E1, E2.
  wp_step. destruct (Z.ltb_spec SIZE_MAX (queue_capacity config * 8)); [lia|]. split; [|done].
  exists p, k0. split; [done|]. split_and!; [done..| |done]. cbn. split; [|done].
  intros ->. by destruct (Z.eqb_spec (jobs config) 0).
Qed.

Lemma wp_main_release config a p X k :
  stacked config a p X -> wp (main_release a) (fun _ h' => held h' = (X, ∅)) (running_state config a p X k).
Proof.
  intros (Ht & Hw & Hs & Hp & _). unfold main_release. wp_step. apply wp_queue_destroy; [done|].
  wp_step. apply wp_c_free; [done|]. wp_step. apply wp_c_free; [done|]. by apply wp_c_free.
Qed.

(** [stacked] blocks are distinct and new. *)
Lemma stacked_piled config a p X k :
  stacked config a p X ->
  blocks (running_state config a p X k) = list_to_set (owned_blocks config a (running_state config a p X k)) ∪ X /\
  piled (owned_blocks config a (running_state config a p X k)) X.
Proof.
  unfold stacked, on_top. intros (Ht & Hw & Hs & Hp & Nt & Nw & Hj & Np). unfold running_state, owned_blocks. cbn [blocks queue_slots].
  assert (E1 : with_block (a_workers a) (with_block (a_threads a) X) = list_to_set [a_workers a; a_threads a] ∪ X).
  { by rewrite <- !with_block_pile, pile_nil. }
  assert (E0 : with_block (a_threads a) X = list_to_set [a_threads a] ∪ X) by (by rewrite <- with_block_pile, pile_nil).
  rewrite E1 in *. rewrite E0 in Hw. destruct Ht, Hw; try done.
  assert (Hbase : piled [a_workers a; a_threads a] X) by (split_and!; try done; set_solver).
  destruct (Z.eqb_spec (jobs config) 0) as [Ej|Ej].
  - rewrite (proj2 Hj Ej), with_block_NULL in *. cbn [app]. rewrite <- (with_block_pile p) by done. destruct Hp; [done|]. by split_and!.
  - assert (Ns : a_seen a <> NULL) by tauto. rewrite (with_block_pile (a_seen a)) in * by done. cbn [app].
    rewrite <- (with_block_pile p) by done. destruct Hs, Hp; done.
Qed.

Lemma stacked_prepared config a p X k h :
  blocks h = X -> stacked config a p X -> prepared config a h (running_state config a p X k).
Proof.
  intros <- Hs. destruct (stacked_piled _ _ _ _ k Hs) as [Hb Hl]. split; [exact Hb|by eapply piled_nodup|by intros; eapply piled_unused|by apply Hs| |done].
  intros []; cbn; unfold queue_objects; set_solver.
Qed.
End contracts.

(** ** Properties *)

(** C24: whatever the arguments and whichever allocations or initialisations fail, main
    either gets everything its threads need, in distinct new blocks, or keeps nothing
    and returns the code of the failure; after the joins it releases all it got. No
    block or object is released twice or used after its release. *)
Theorem harness_all_or_nothing (arguments : list string) (h : harness) `{CLibrary, !CLibraryLaws} :
  objects h = ∅ ->
  exists r h', main_prepare arguments h = Done r h' /\
    match r with
    | inl code => held h' = held h /\ main_start arguments false = inl code
    | inr (config, a) => prepared config a h h' /\ main_start arguments true = inr (config, initial_pool config) /\
        exists h2, main_release a h' = Done tt h2 /\ held h2 = held h
    end.
Proof.
  intros Ho. destruct h as [X o q n k]. cbn in Ho. subst o.
  destruct (wp_run _ _ _ (wp_main_prepare arguments X q n k)) as (r & h' & E & H1). exists r, h'. split; [done|].
  destruct r as [code|[config a]]; [done|]. destruct H1 as [(p & k' & -> & Hs) Hm].
  split_and!; [by apply stacked_prepared|done|].
  destruct (wp_run _ _ _ (wp_main_release config a p X k' Hs)) as ([] & h2 & E2 & H2). by exists h2.
Qed.

(** ** Witness *)

(** A library whose allocations succeed, and whose third initialisation fails or not. *)
Definition sample_library (third : Z) : CLibrary := {|
  sys_malloc n X := if decide (1024 * (1 + Z.of_nat n) ∈ X) then NULL else 1024 * (1 + Z.of_nat n);
  sys_init n := if decide (n = 6%nat) then third else 0
|}.
Lemma sample_library_laws third : @CLibraryLaws (sample_library third).
Proof. split. intros n X. cbn. destruct (decide _); [by left|by right]. Qed.

Definition sample_harness : harness := Harness {[512]} ∅ NULL 0 0.
Definition small_arguments : list string := ["--workers"; "2"; "--jobs"; "3"; "--queue-capacity"; "1"]%string.

(** The last condition cannot be initialised: nothing is left, exit code 6. *)
Example harness_failure :
  @main_prepare (sample_library 12) small_arguments sample_harness = Done (inl 6) (Harness {[512]} ∅ NULL 1 7).
Proof. by vm_compute. Qed.

(** Everything succeeds: four blocks and three objects. *)
Example harness_success :
  @main_prepare (sample_library 0) small_arguments sample_harness =
    Done (inr (Configuration 2 3 1 20260912 0 0, Arrays 1024 2048 3072))
      (Harness {[512; 1024; 2048; 3072; 4096]} {[queue_mutex; queue_not_empty; queue_not_full]} 4096 1 7).
Proof. by vm_compute. Qed.

Lemma harness_all_or_nothing_witness :
  exists r h', @main_prepare (sample_library 0) small_arguments sample_harness = Done r h' /\
    match r with
    | inl code => held h' = held sample_harness /\ main_start small_arguments false = inl code
    | inr (config, a) => prepared config a sample_harness h' /\ main_start small_arguments true = inr (config, initial_pool config) /\
        exists h2, main_release a h' = Done tt h2 /\ held h2 = held sample_harness
    end.
Proof. apply (@harness_all_or_nothing small_arguments sample_harness (sample_library 0) (sample_library_laws 0)). done. Defined.
